(* ===== verification/_CoqProject ===== *)
-Q . S2P
Prelude.v
Sdk.v
Types.v
Rewards.v
KeeperRegistry.v
RegistryProps.v
Vault.v
VaultProps.v
XscCore.v
Pcit.v
SchedulerState.v
CloneKeys.v
Scheduling.v
Execution.v
Settlement.v
Intents.v
Scheduler.v
TaskGuards.v
SchedulerAccounts.v
TaskBoard.v
SchedulerProps.v
IntentProps.v
MerkleProps.v
FeeFlow.v
ExecFlow.v
TaskRun.v
TestContracts.v
VaultFlow.v
RustStd.v
KeeperTx.v
KeeperTxProps.v
KeeperNet.v
Broadcast.v
DripFunder.v
Sessions.v
Xse.v
XseProps.v
KeeperKeys.v
AgentDispatch.v
Mempool.v
Radar.v
HftVault.v
AddressCodec.v
KeeperLoop.v
KeeperRuns.v
ZkVerifier.v
Xwap.v
XwapProps.v
Shield.v
ShieldProps.v
AgentTypes.v
Validation.v
ValidationProps.v
Identity.v
IdentityProps.v
Reputation.v
ReputationProps.v
Marketplace.v
MarketProps.v
AgentFlow.v
