(* ===== verification/Prelude.v ===== *)
(** * The XCron protocol: a verification library

    XCron is an automation protocol on MultiversX: users deposit EGLD with
    tasks, keepers execute them when their trigger is ripe, a promise callback
    settles each execution, and companion contracts hold the keepers' stakes
    and the protocol's fees, report prices (XWAP), verify commitments, trade
    (HFT vault) and let autonomous agents register, work, be rated and be sold
    (Agent Shield).  Off chain, the keeper daemon signs and sends transactions
    and funds one-time addresses, and the XSE enclave executes intents on an
    exchange.  This library models the contracts under src/contracts, the
    keeper daemon under src/xcron-keeper-rs and the enclave under
    src/xse-protocol as executable Rocq definitions and proves what makes them
    correct.

    ** Files

    - Prelude.v (this file): results, functional record update, machine
      integers (the contracts are built with [overflow-checks = false], so u64
      and u32 wrap), big-endian bytes, sums over storage maps, shared lemmas,
      hint databases and tactics.
    - Sdk.v: the substrate of a contract: addresses, assets, the call
      environment [env], the [world] a contract sees (storage, balances, log of
      emitted effects), the monad [M], the primitives ([require], transfers,
      [register_promise], [sync_call]), the predicate transformer [wp] with its
      symbolic execution [wp_go], contracts as state machines ([reachable]).
    - Types.v: contracts/common/src (constants.rs, types.rs, pausable.rs) and
      the class [Sdk], the parameters of the model.
    - Rewards.v: contracts/rewards/src.
    - KeeperRegistry.v, RegistryProps.v: contracts/keeper-registry/src; the
      model with its lemmas, then the properties.
    - Vault.v, VaultProps.v: contracts/vault/src/lib.rs.
    - XscCore.v: contracts/xsc-core/src; Pcit.v: xcron-keeper-rs/src/pcit.rs.
    - The Scheduler (contracts/scheduler/src), one file per source module:
      SchedulerState.v (storage, events, lib, helpers, validation, config,
      admin, views), CloneKeys.v (clone_keys.rs), Scheduling.v (scheduling.rs),
      Execution.v (execution.rs), Intents.v (intents.rs).  Scheduler.v
      assembles its transactions; Settlement.v gives the exact effect of the
      two settlements of a task; SchedulerAccounts.v proves the accounting
      invariant; TaskGuards.v names the guards of the endpoints (who may call,
      ripeness, safety of the target, the market gate) and proves that a run
      that goes on has met them; TaskBoard.v is the abstract life cycle
      of tasks, each move with its guards, and the proof that the Scheduler
      refines it; SchedulerProps.v and IntentProps.v hold the properties.
    - MerkleProps.v: the Merkle verifiers of the Scheduler and of XscCore
      against an inductive definition of trees and paths, and against the
      keeper's engine.  FeeFlow.v: fees from the Scheduler to Rewards.
      ExecFlow.v: the outcome of an execution from the Scheduler to the
      registry.  TaskRun.v: a task from due to settled.
    - TestContracts.v: contracts/ping, test-dex and test-nft, the targets the
      system is tried out with; VaultFlow.v: the Vault's trades from its
      promise to the stand-in that runs it.
    - Xwap.v, XwapProps.v: contracts/xwap/src, all modules; HftVault.v:
      contracts/xcron-hft-vault/src; ZkVerifier.v: contracts/zk-verifier/src.
    - The Agent Shield (contracts/xcron-agent-shield), one model and one file
      of properties per contract: Shield.v, ShieldProps.v (escrow/src);
      AgentTypes.v (common/src); Validation.v, ValidationProps.v
      (validation-registry/src); Identity.v, IdentityProps.v
      (identity-registry/src); Reputation.v, ReputationProps.v
      (reputation-registry/src); Marketplace.v, MarketProps.v
      (xcron-agent-marketplace/src).  AgentFlow.v composes them: a job of the
      validation registry rated in the reputation registry, and a sale whose
      price the reputation registry computes.
    - RustStd.v: what the off-chain crates use of the standard library on
      strings and 128-bit integers.
    - The keeper daemon (xcron-keeper-rs/src): KeeperTx.v, KeeperTxProps.v
      (transaction.rs, and generate_schedule_payload of main.rs); KeeperNet.v
      (gateways and nonces of network.rs, shards of wallet.rs, dispatcher.rs);
      Broadcast.v (the broadcasts of network.rs, sniffer.rs); KeeperKeys.v (the
      key files of wallet.rs, quantum_shield.rs, cex_relayer.rs and the
      start-up of main.rs); AgentDispatch.v (the encrypted
      dispatch of dispatcher.rs, after the enclave's files, whose lemmas on
      strings it uses); DripFunder.v (drip_funder.rs); Sessions.v
      (session_db.rs, with the order of its two locks); Mempool.v
      (mempool_sniper.rs, the filter of ws_sniper.rs), Radar.v (the threads of
      ws_sniper.rs and their channel); AddressCodec.v (bech32 by its standards,
      executable, with their test vectors); KeeperLoop.v (the loop of every wallet
      and the modes of main.rs), KeeperRuns.v (its nonce against the account,
      its calls against the contracts, after HftVault.v).
    - The enclave (xse-protocol/src): Xse.v (schema.rs, validator.rs,
      crypto.rs, quantum_shield.rs, relayer.rs, main.rs), XseProps.v.

    ** Correspondence

    A contract is [Contract storage event callback].  Its storage mappers are
    the fields of a record [State], under their Rust names.  Number and boolean
    cells hold their value, the empty cell being 0 or false; a cell of a struct
    or an address is an option or a map entry, read with [sv_get], which on an
    empty cell yields what the SDK's decoder yields there ([empty_*]);
    [UnorderedSetMapper] is a finite set in the Scheduler, the registry and
    Rewards, which do not depend on the order of its elements, and the list of
    its elements with [set_insert] and [set_swap_remove] in XWAP and the Agent
    Shield, which iterate over it; [VecMapper] is a list of cells, 1-based in the code, where
    [clear_entry] leaves a hole.  Each endpoint, view and helper is a
    definition of its Rust name; the checks the SDK wraps around an endpoint
    ([#[only_owner]], non-payable) are its first steps.  A transaction is
    [invoke]: the call value is credited, the code runs, and an error reverts
    everything.  Emitted transfers, events, fire-and-forget calls and promises
    are appended to [log]; the debit of EGLD or ESDT happens at once and fails
    when the balance is short.  A synchronous call maps the caller's world to a
    new one and so may call back; the code has no guard against that.  Theorems
    that need it say so: under [no_reentrancy] the callee leaves the storage and
    the log of its caller as they were and may only send it funds, under
    [silent_callees] it does not even that.  A promise
    callback is a transaction of its own, allowed when the promise was
    registered.

    Off chain, a method that changes its object returns the new one with its
    result; an error is [Err] with its message (the figures that a message
    formats are left out), and a panic [Err PANIC] where it can happen.  What
    the network answers, the clock and random numbers are arguments.  The crates are built in release mode, where
    integers wrap.  Calls that overlap are step relations: the counters of the
    drip funder change between its check and a failed broadcast, and the
    threads of Sessions.v take locks one step at a time, and those of Radar.v
    look up and hand over in separate steps.

    ** Parameters and hypotheses

    The MultiversX SDK, SHA-256 and num-bigint are not part of the repository.
    What is called there beyond the vocabulary of Sdk.v is the class [Sdk]
    (hash, codec, shard computation).  [StrictSdk] states that an empty cell
    decodes to no struct and no address, [HashLaws] that a hash has 32 bytes,
    [AppendingCodec] that [top_encode] appends; each theorem names the ones it
    needs and the witnesses instantiate them.  Further parameters are declared
    where they are used: the pools of the HFT vault ([Pools], with [PoolLaws]:
    they pay what they report), the token format test ([EsdtFormat]), the
    one-to-one mapper of the SDK and its documented insertion ([BiDiMapper],
    [BiDiLaws]), the SDK's issue module ([IssueModule]), and what the cells of
    structs decode to when empty ([AgentCodec], [TokenCodec]).  What a
    contract reads in the storage of another one is the record [CrossContract],
    an argument of the transaction.  The crates that the off-chain code calls
    for signatures, encryption, hashes, encodings, dates and JSON are the
    classes [Crates], [KeyCrates], [SendApi], [AccountApi], [Bech32], [Cipher],
    [PoolCrates] and [XseCrates]; that hexadecimal, base64 and bech32 text is
    written and reads back is a named hypothesis ([hex_reads_back],
    [hex_writes], [base64_reads_back], [bech32_reads_back]), and so is, where it matters which text the bech32 crate
    refuses, that it reads by the standard ([bech32_standard]).
    Collisions of SHA-256 are never assumed away: where they matter the theorem
    exhibits the two inputs.

    ** What is shown

    - Solvency and safety of funds: [rewards_solvent], [registry_solvent],
      [scheduler_solvent] (for the last without compressed tasks and without
      callees that call back; [compressed_tasks_drain] and
      [reentrant_oracle_drains] show that either breaks it), [vault_books],
      [pending_protected], [shield_daily_cap], [hft_no_loss], [market_settles],
      [validation_keeps_funds].
    - Life cycles and refinement: [task_lifecycle], [registry_well_formed],
      [leaf_executed_once], [flush_conserves_fees], [execution_recorded],
      [vault_swap_recorded], [vault_mint_recorded], [job_lifecycle],
      [verified_only_by_validator], [feedback_append_only].
    - Liveness: [ripe_task_completes] (a keeper in its turn always gets a due
      task started, and either outcome settles it), [buy_at_fair_value].
    - Types of states: [xwap_well_formed], [identity_well_formed].
    - Functional behaviour: [callback_settles_once], [schedule_then_cancel],
      [record_execution_effect], [three_strikes_expel], [withdraw_stake_pays],
      [receive_execution_fee_split], [claim_rewards_pays_once],
      [clone_key_budget], [round_robin_assigns], [round_robin_window],
      [withdraw_unbonded_pays], [simple_feedback_effect].
    - The oracle: [median_total], [safe_price_bounded], [update_price_effect].
    - Bounds: [accepted_task_arithmetic], no wrap-around on validated payloads.
    - Proofs: [merkle_verifier_correct], [verifiers_agree],
      [pcit_leaf_accepted], [pcit_root_rejected], [verified_proof_opened].
    - The keeper: [signature_covers], [task_hex_encodes] (the task written by
      hand is the one the Scheduler decodes), [nonce_consensus],
      [dispatch_final], [dispatch_over_gateways], [drip_daily_cap],
      [sweep_sponsored], [session_limits], [retry_queue_drains],
      [mempool_analysed_once], [radar_reports], [agent_signature_covers],
      [wallet_seed_recovered], [cross_shard_search], [startup_wallets],
      [entropy_mixes_inputs], [nonce_recovery] (against an account that takes
      transactions in the order of their nonces, in the modes that do not skip
      nonces on purpose, see [gap_modes]), [arbitrage_reaches_vault] (the call
      is encoded exactly, and refused: each route has a pool address that does
      not decode),
      [pcit_demo_call], [snipe_window], [boundary_sleep].
    - The enclave: [batch_validated], [decrypt_secrets_correct],
      [stealth_keys_distinct], [receipt_for_valid_intent].
    - Behaviours a maintainer should know: [removal_leaves_hole],
      [intents_never_created], [sovereign_never_settled],
      [no_strikes_without_provider], [expelled_keeper_skips_cooldown],
      [cooldown_reserve_leak], [deposit_credited_twice],
      [reentrant_oracle_drains], [compressed_tasks_drain],
      [freeze_never_persists], [agent_data_guarded], [feedback_needs_no_work],
      [verified_without_proof], [response_unbounded], [rating_unbounded],
      [commitment_not_binding], [schedule_payload_malformed],
      [late_failure_exceeds_cap], [failed_nonce_keeps_drip], [retry_deadlock],
      [keyless_session_swept], [failing_a_swept_session],
      [any_signature_accepted], [unhealthy_run_succeeds],
      [empty_intent_panics], [expired_refused], [short_hash_panics],
      [any_attestation_unlocks], [multi_intent_hex_missed],
      [executor_secret_length].

    Fuel bounds three loops: that of XscCore over a packed proof, one step per
    32 bytes, which [verifiers_agree] shows to be enough; [format_x], one step
    per binary digit ([size_nat_bound]); and the search for an address of
    another shard, which [cross_shard_search] shows to end with the first such
    draw and never before.  All other loops, the insertion sort of the oracle
    included, are structural.

    ** Not modelled

    Gas is an input, not metered.  The order of set mappers, storage keys and
    serialization beyond the parameters are left out.  commit_reveal.rs is
    archived: it is not compiled, and calls storage mappers and helpers that no
    longer exist.  Of the keeper daemon, the terminal dashboard, the event
    engine (a loop that prints), the demonstrations (with the mode XseSim), the
    forwarding between the channels of main.rs and what is only printed stay
    out: they are input and output.  A wallet's loop is a sequence of turns with
    its own nonce; the counters that all wallets share are taken as its own.  So do the placeholders of the enclave
    (observer_listener.rs, red_team.rs), generated proxies, interactors, meta
    crates, the tests, the frontend, the TypeScript SDK and the scripts.
    Poisoned locks and clocks before 1970 are left out. *)

From stdpp Require Export base tactics numbers list gmap functions strings.
From Stdlib Require Export Lia.

#[global] Open Scope N_scope.

Declare Scope xcron_scope.
Delimit Scope xcron_scope with xcron.

(** ** Results of fallible code

    A failing [require!] aborts the transaction with its message. *)

Inductive result (A : Type) : Type :=
| Ok (a : A)
| Err (e : string).
Arguments Ok {A} a.
Arguments Err {A} e.

Definition is_ok {A} (r : result A) : bool :=
  match r with Ok _ => true | Err _ => false end.

(** ** Functional record update: [r <| field := v |>] and [r <| field ::= f |>]

    [Settable R] lists the fields of [R] by an eta-expanded constructor; the
    setter of one field is found by abstracting that field in it. *)

Class Settable (R : Type) := settable_eta : R → R.
Class Setter {R T : Type} (p : R → T) := rset : (T → T) → R → R.
Arguments rset {R T} p {_} f r.

Ltac solve_setter :=
  match goal with
  | |- @Setter ?R ?T ?p =>
      let inst := constr:(_ : Settable R) in
      let eta := eval hnf in inst in
      let _ := match eta with context [p] => constr:(tt) end in
      let abs := eval pattern p in eta in
      match abs with
      | ?g _ =>
          let body := eval cbv beta in (fun (f : T → T) (r : R) => g (fun r' => f (p r')) r) in
          exact body
      end
  end.
#[export] Hint Extern 1 (Setter _) => solve_setter : typeclass_instances.

Notation "r <| p := v |>" := (rset p (λ _, v) r)
  (at level 1, p at next level, left associativity) : xcron_scope.
Notation "r <| p ::= f |>" := (rset p f r)
  (at level 1, p at next level, left associativity) : xcron_scope.
#[global] Open Scope xcron_scope.

(** ** Machine integers

    The contracts are compiled with [overflow-checks = false]
    (contracts/scheduler/wasm/Cargo.toml), so [u64] and [u32] arithmetic wraps. *)

Definition u64_mod : N := 2 ^ 64.
Definition u32_mod : N := 2 ^ 32.

Definition u64_add (a b : N) : N := (a + b) mod u64_mod.
Definition u64_mul (a b : N) : N := (a * b) mod u64_mod.
Definition u64_sub (a b : N) : N := (a + u64_mod - b) mod u64_mod.
Definition u32_add (a b : N) : N := (a + b) mod u32_mod.
Definition u64_MAX : N := u64_mod - 1.

(** [BigUint::to_u64]: nothing when the number does not fit. *)
Definition to_u64 (n : N) : option N := if decide (n < u64_mod) then Some n else None.

(** ** Byte strings: big-endian encodings and lexicographic order *)

Abbreviation bytes := (list N).

(** [n] as [k] big-endian bytes ([u64::to_be_bytes] is [be_bytes 8]). *)
Fixpoint be_bytes (k : nat) (n : N) : bytes :=
  match k with
  | O => []
  | S k' => be_bytes k' (n / 256) ++ [n mod 256]
  end.

(** [from_be_bytes]. *)
Definition be_val (b : bytes) : N := fold_left (λ acc x, acc * 256 + x) b 0.

(** Bytes of a Rust [&str] or byte-string literal. *)
Definition string_bytes (s : string) : bytes :=
  map Ascii.N_of_ascii (String.list_ascii_of_string s).

(** ** Lemmas on big-endian bytes *)

Lemma be_bytes_length k n : length (be_bytes k n) = k.
Proof.
  revert n. induction k as [|k IH]; intros n; simpl; [done|].
  rewrite length_app, IH. simpl. lia.
Qed.

Lemma be_bytes_bounded k n : Forall (λ x, x < 256) (be_bytes k n).
Proof.
  revert n. induction k as [|k IH]; intros n; simpl; [constructor|].
  apply Forall_app. split; [apply IH|]. constructor; [apply N.mod_lt; lia|constructor].
Qed.

Lemma be_val_bound l acc :
  Forall (λ x, x < 256) l →
  fold_left (λ a x, a * 256 + x) l acc < (acc + 1) * 256 ^ N.of_nat (length l).
Proof.
  intros Hl. revert acc. induction Hl as [|x l Hx _ IH]; intros acc; [simpl; lia|].
  cbn [fold_left length]. eapply N.lt_le_trans; [apply IH|].
  rewrite Nat2N.inj_succ, N.pow_succ_r'. rewrite N.mul_assoc. apply N.mul_le_mono_r. lia.
Qed.

Lemma be_bytes_head k n : n < 256 ^ N.of_nat k → head (be_bytes (S k) n) = Some 0.
Proof.
  revert n. induction k as [|k IH]; intros n Hn.
  - simpl in *. by replace n with 0 by lia.
  - cbn [be_bytes]. change (be_bytes k (n / 256 / 256) ++ [n / 256 mod 256]) with (be_bytes (S k) (n / 256)).
    assert (Hd : n / 256 < 256 ^ N.of_nat k).
    { apply N.Div0.div_lt_upper_bound. by rewrite Nat2N.inj_succ, N.pow_succ_r' in Hn. }
    specialize (IH _ Hd). by destruct (be_bytes (S k) (n / 256)).
Qed.

(** ** [UnorderedSetMapper]

    The elements in the order of their positions: [insert] appends a new
    element, [swap_remove] puts the last one in the place of the removed one. *)

Section set_mapper.
Context {A : Type} `{EqDecision A}.
Implicit Types (x y : A) (l : list A).

Definition set_insert x l : list A := if decide (x ∈ l) then l else l ++ [x].

Definition set_swap_remove x l : list A :=
  match list_find (x =.) l with
  | None => l
  | Some (i, _) =>
      match last l with
      | Some y => removelast (<[i := y]> l)
      | None => l
      end
  end.

Lemma elem_of_set_insert x y l : y ∈ set_insert x l ↔ y = x ∨ y ∈ l.
Proof. unfold set_insert. case_decide; [naive_solver|]. rewrite elem_of_app, list_elem_of_singleton. tauto. Qed.

Lemma NoDup_set_insert x l : NoDup l → NoDup (set_insert x l).
Proof.
  unfold set_insert. intros Hl. case_decide; [done|].
  apply NoDup_app. split_and!; [done| |apply NoDup_singleton].
  intros y Hy. rewrite list_elem_of_singleton. by intros ->.
Qed.

(** Up to the order, [swap_remove] removes one occurrence. *)
Lemma set_swap_remove_perm x l : x ∈ l → x :: set_swap_remove x l ≡ₚ l.
Proof.
  intros Hx. unfold set_swap_remove. destruct (list_find (x =.) l) as [[i y]|] eqn:Hf.
  - apply list_find_Some in Hf as (Hi & <- & _).
    destruct l as [|z l _] using rev_ind; [done|].
    rewrite last_snoc.
    destruct (decide (i < length l)%nat) as [Hlt|Hge].
    + rewrite insert_app_l, removelast_last by done.
      rewrite lookup_app_l in Hi by done.
      rewrite insert_take_drop by done.
      assert (Hl : l = take i l ++ x :: drop (S i) l) by (by rewrite take_drop_middle).
      rewrite <-Permutation_cons_append.
      rewrite Hl at 3. by rewrite <-!Permutation_middle, perm_swap.
    + assert (i = length l) as ->.
      { apply lookup_lt_Some in Hi. rewrite length_app in Hi. simpl in Hi. lia. }
      rewrite lookup_app_r, Nat.sub_diag in Hi by lia. injection Hi as <-.
      rewrite insert_app_r_alt, Nat.sub_diag by lia. simpl.
      rewrite removelast_last. by rewrite <-Permutation_cons_append.
  - apply list_find_None in Hf. rewrite Forall_forall in Hf. by destruct (Hf x Hx).
Qed.

Lemma set_swap_remove_absent x l : x ∉ l → set_swap_remove x l = l.
Proof.
  intros Hx. unfold set_swap_remove. destruct (list_find (x =.) l) as [[i y]|] eqn:Hf; [|done].
  apply list_find_Some in Hf as (Hi & <- & _). destruct Hx. by eapply list_elem_of_lookup_2.
Qed.

Lemma NoDup_set_swap_remove x l : NoDup l → NoDup (set_swap_remove x l).
Proof.
  intros Hl. destruct (decide (x ∈ l)) as [Hx|Hx]; [|by rewrite set_swap_remove_absent].
  rewrite <-(set_swap_remove_perm x l Hx) in Hl. by apply NoDup_cons in Hl as [_ ?].
Qed.

Lemma elem_of_set_swap_remove x y l : NoDup l → y ∈ set_swap_remove x l ↔ y ≠ x ∧ y ∈ l.
Proof.
  intros Hl. destruct (decide (x ∈ l)) as [Hx|Hx]; [|rewrite set_swap_remove_absent by done; naive_solver].
  pose proof (set_swap_remove_perm x l Hx) as Hp. rewrite <-Hp in Hl. apply NoDup_cons in Hl as [Hn _].
  assert (Hy : y ∈ l ↔ y = x ∨ y ∈ set_swap_remove x l) by (by rewrite <-elem_of_cons, Hp).
  rewrite Hy. naive_solver.
Qed.
End set_mapper.

(** ** Sums over a storage map *)

Definition msum {K V} `{Countable K} (f : V → N) (m : gmap K V) : N :=
  map_fold (λ _ v acc, f v + acc) 0 m.

Definition nget {K} `{Countable K} (m : gmap K N) (k : K) : N := default 0 (m !! k).

Section msum.
Context {K V : Type} `{Countable K}.
Implicit Types (m : gmap K V) (f : V → N).

Lemma msum_empty f : msum f (∅ : gmap K V) = 0.
Proof. apply map_fold_empty. Qed.

Lemma msum_insert f m k v : m !! k = None → msum f (<[k:=v]> m) = f v + msum f m.
Proof. intros Hk. unfold msum. rewrite map_fold_insert_L; [done| |done]. intros; lia. Qed.

Lemma msum_delete f m k :
  msum f (delete k m) + from_option f 0 (m !! k) = msum f m.
Proof.
  destruct (m !! k) as [v|] eqn:Hk; simpl.
  - rewrite <-(insert_delete_id m k v Hk) at 2.
    rewrite msum_insert by apply lookup_delete_eq. lia.
  - rewrite delete_id by done. lia.
Qed.

Lemma msum_update f m k v :
  msum f (<[k:=v]> m) + from_option f 0 (m !! k) = msum f m + f v.
Proof.
  rewrite <-insert_delete_eq, msum_insert by apply lookup_delete_eq.
  pose proof (msum_delete f m k). lia.
Qed.

Lemma msum_update_Some f m k v v' :
  m !! k = Some v → msum f (<[k:=v']> m) + f v = msum f m + f v'.
Proof. intros Hk. pose proof (msum_update f m k v') as Hs. by rewrite Hk in Hs. Qed.

Lemma msum_delete_Some f m k v :
  m !! k = Some v → msum f (delete k m) + f v = msum f m.
Proof. intros Hk. pose proof (msum_delete f m k) as Hs. by rewrite Hk in Hs. Qed.

Lemma msum_lookup_le f m k v : m !! k = Some v → f v ≤ msum f m.
Proof. intros Hk. pose proof (msum_delete f m k) as Hs. rewrite Hk in Hs. simpl in Hs. lia. Qed.

Lemma msum_mono f m m' :
  (∀ k, from_option f 0 (m !! k) ≤ from_option f 0 (m' !! k)) → msum f m ≤ msum f m'.
Proof.
  revert m'. induction m as [|k v m Hk IH] using map_ind; intros m' Hle; [rewrite msum_empty; lia|].
  rewrite msum_insert by done. rewrite <- (msum_delete f m' k).
  pose proof (Hle k) as Hlek. rewrite lookup_insert_eq in Hlek. simpl in Hlek.
  assert (msum f m ≤ msum f (delete k m')); [|lia]. apply IH. intros k'. specialize (Hle k').
  destruct (decide (k' = k)) as [->|Hne]; [rewrite Hk; simpl; lia|].
  by rewrite lookup_insert_ne in Hle by done; rewrite lookup_delete_ne by done.
Qed.
End msum.

(** Two filters that agree on the elements of a list. *)
Lemma filter_iff_in {A} (P Q : A → Prop) `{∀ x, Decision (P x), ∀ x, Decision (Q x)} (l : list A) :
  (∀ x, x ∈ l → P x ↔ Q x) → filter P l = filter Q l.
Proof.
  induction l as [|x l IH]; intros Hpq; [done|]. rewrite !filter_cons, IH by set_solver.
  destruct (Hpq x ltac:(set_solver)). by repeat case_decide; try tauto.
Qed.

Section nget.
Context {K : Type} `{Countable K}.
Implicit Types (m : gmap K N).

Lemma nget_insert_eq m k n : nget (<[k:=n]> m) k = n.
Proof. unfold nget. by rewrite lookup_insert_eq. Qed.

Lemma nget_insert_ne m k k' n : k ≠ k' → nget (<[k:=n]> m) k' = nget m k'.
Proof. intros Hne. unfold nget. by rewrite lookup_insert_ne. Qed.

Lemma nget_delete_eq m k : nget (delete k m) k = 0.
Proof. unfold nget. by rewrite lookup_delete_eq. Qed.

Lemma nget_delete_ne m k k' : k ≠ k' → nget (delete k m) k' = nget m k'.
Proof. intros Hne. unfold nget. by rewrite lookup_delete_ne. Qed.

(** Adding to, resetting and removing one entry of a map of amounts. *)
Lemma msum_add m k n : msum id (<[k := nget m k + n]> m) = msum id m + n.
Proof.
  pose proof (msum_update id m k (nget m k + n)) as Hs. unfold nget in *.
  destruct (m !! k); simpl in *; lia.
Qed.

Lemma msum_clear m k : msum id (delete k m) + nget m k = msum id m.
Proof.
  pose proof (msum_delete id m k) as Hs. unfold nget. destruct (m !! k); simpl in *; lia.
Qed.
End nget.

(** ** Arithmetic shared by the fee computations *)

(** The basis-point cut [x * bps / 10000] never exceeds [x] when [bps ≤ 10000]. *)
Lemma bps_cut_le (x bps : N) : bps ≤ 10000 → x * bps / 10000 ≤ x.
Proof.
  intros Hb. apply N.Div0.div_le_upper_bound.
  rewrite (N.mul_comm 10000). by apply N.mul_le_mono_l.
Qed.

Lemma div_mul_le (x d : N) : d * (x / d) ≤ x.
Proof. apply N.Div0.mul_div_le. Qed.

Lemma u64_add_small a b : a + b < u64_mod → u64_add a b = a + b.
Proof. apply N.mod_small. Qed.

Lemma u64_mul_small a b : a * b < u64_mod → u64_mul a b = a * b.
Proof. apply N.mod_small. Qed.

Lemma u64_add_comm_l a b : u64_add (u64_add a 1) b = u64_add (u64_add a b) 1.
Proof. unfold u64_add. rewrite !N.Div0.add_mod_idemp_l. f_equal. lia. Qed.

Lemma u64_add_comm_r a b : u64_add a (u64_add b 1) = u64_add (u64_add a b) 1.
Proof. unfold u64_add. rewrite N.Div0.add_mod_idemp_l, N.Div0.add_mod_idemp_r. f_equal. lia. Qed.

Create HintDb xcron discriminated.
#[export] Hint Resolve bps_cut_le msum_lookup_le : xcron.

(** ** Tactics *)

(** Case analysis on the scrutinee of a [match] or [if] of a hypothesis or of
    the goal, keeping the equation. *)
Ltac case_goal :=
  match goal with
  | |- context [match ?x with _ => _ end] => destruct x eqn:?
  end.

