(* ===== verification/Sdk.v ===== *)
(** The execution substrate every contract of the protocol runs on: addresses,
    assets, the call environment, the world a contract sees (its storage, its
    balances, what it has emitted so far), the monad of contract code, and the
    predicate transformer [wp] in which the properties are proved.

    The MultiversX SDK is not part of the repository.  What the contracts use
    of it is either its documented vocabulary (callers, call values, storage
    cells, [require!], transfers, promises), modelled here, or a parameter of
    the model, gathered in the class [Sdk] of Types.v. *)

From S2P Require Import Prelude.

(** ** Addresses, tokens, assets *)

(** A [ManagedAddress]: 32 bytes, as the number they spell. *)
Abbreviation address := N.
Definition zero_address : address := 0.
Definition is_zero (a : address) : bool := bool_decide (a = zero_address).
Definition addr_bytes (a : address) : bytes := be_bytes 32 a.

Abbreviation token_id := string.

(** What a contract can hold: EGLD, or an amount of an ESDT token of a nonce
    (nonce 0 is the fungible token). *)
Inductive asset : Type :=
| Egld
| Esdt (token : token_id) (nonce : N).

#[export] Instance asset_eq_dec : EqDecision asset.
Proof. solve_decision. Defined.

(** One ESDT transfer attached to a call ([EsdtTokenPayment]). *)
Record payment := Payment {
  token_identifier : token_id;
  token_nonce : N;
  amount : N;
}.

Definition pay_asset (p : payment) : asset := Esdt (token_identifier p) (token_nonce p).

(** The identifier under which EGLD travels as a payment. *)
Definition EGLD_000000 : token_id := "EGLD-000000".

(** Arguments of a raw call, before the SDK serializes them. *)
Inductive arg : Type :=
| ArgAddr (a : address)
| ArgBool (b : bool)
| ArgNum (n : N)
| ArgBuf (b : bytes).

(** ** Contracts, worlds, effects *)

(** A contract: its storage, its events, and the closures it registers as
    promise callbacks. *)
Record contract := Contract {
  storage : Type;
  event : Type;
  callback : Type;
}.

Inductive effect (K : contract) : Type :=
| Send (to : address) (a : asset) (amt : N)
| Emit (ev : event K)
| TransferExecute (to : address) (ep : string) (args : list arg) (egld gas : N)
| Promise (to : address) (ep : bytes) (args : list arg) (egld gas : N)
    (cb : option (callback K)) (cb_gas : N)
| PromiseEsdt (to : address) (ep : bytes) (args : list arg) (p : payment) (gas : N)
    (cb : option (callback K)) (cb_gas : N).
Arguments Send {K}.
Arguments Emit {K}.
Arguments TransferExecute {K}.
Arguments Promise {K}.
Arguments PromiseEsdt {K}.

Record world (K : contract) := World {
  st : storage K;
  bal : asset → N;
  log : list (effect K);
}.
Arguments World {K}.
Arguments st {K}.
Arguments bal {K}.
Arguments log {K}.
#[export] Instance world_eta K : Settable (world K) :=
  λ w, World (st w) (bal w) (log w).

(** Contract code: it reads and updates the world or aborts. *)
Definition M (K : contract) (A : Type) : Type := world K → result (A * world K).

(** The call environment.  [sync_result] is what a synchronous call to another
    contract returns: the callee runs before the caller goes on and may call
    back, so it maps the caller's world to the caller's world. *)
Record env (K : contract) := Env {
  caller : address;
  owner_address : address;
  sc_address : address;
  timestamp : N;
  timestamp_millis : N;
  block_round : N;
  block_nonce : N;
  random_seed : bytes;
  gas_left : N;
  egld_value : N;
  esdt_transfers : list payment;
  sync_result : address → bytes → list arg → N → world K → option (list bytes * world K);
}.
Arguments Env {K}.
Arguments caller {K}.
Arguments owner_address {K}.
Arguments sc_address {K}.
Arguments timestamp {K}.
Arguments timestamp_millis {K}.
Arguments block_round {K}.
Arguments block_nonce {K}.
Arguments random_seed {K}.
Arguments gas_left {K}.
Arguments egld_value {K}.
Arguments esdt_transfers {K}.
Arguments sync_result {K}.

(** No callee calls back: what a synchronous call does to the caller's world is
    at most to send it funds. *)
Definition no_reentrancy {K} (e : env K) : Prop :=
  ∀ to ep args v w r w', sync_result e to ep args v w = Some (r, w') →
    st w' = st w ∧ log w' = log w ∧ ∀ a, bal w a ≤ bal w' a.

(** ... and not even that. *)
Definition silent_callees {K} (e : env K) : Prop :=
  ∀ to ep args v w r w', sync_result e to ep args v w = Some (r, w') → w' = w.

(** ** The monad *)

#[export] Instance M_ret K : MRet (M K) := λ A a w, Ok (a, w).
#[export] Instance M_bind K : MBind (M K) := λ A B f m w,
  match m w with
  | Ok (a, w') => f a w'
  | Err e => Err e
  end.

Section primitives.
Context {K : contract}.

Definition throw {A} (e : string) : M K A := λ _, Err e.

(** [require!(P, msg)] *)
Definition require (P : Prop) `{Decision P} (msg : string) : M K unit :=
  if decide P then mret () else throw msg.

Definition get_st : M K (storage K) := λ w, Ok (st w, w).
Definition modify (f : storage K → storage K) : M K unit := λ w, Ok ((), w <| st ::= f |>).
Definition get_sc_balance (a : asset) : M K N := λ w, Ok (bal w a, w).

(** [SingleValueMapper::get] on a type that an empty cell does not decode to. *)
Definition sv_get {A} (empty : option A) (c : option A) : M K A :=
  match c with
  | Some a => mret a
  | None => match empty with Some a => mret a | None => throw "storage decode error" end
  end.

Definition perform (x : effect K) : M K unit := λ w, Ok ((), w <| log ::= λ l, l ++ [x] |>).
Definition emit (ev : event K) : M K unit := perform (Emit ev).

Definition debit (a : asset) (amt : N) : M K unit := λ w,
  if decide (amt ≤ bal w a) then Ok ((), w <| bal ::= λ b, <[a := b a - amt]> b |>)
  else Err "failed transfer (insufficient funds)".

(** Tokens created by the contract enter its balance. *)
Definition mint (a : asset) (amt : N) : M K unit := λ w,
  Ok ((), w <| bal ::= λ b, <[a := b a + amt]> b |>).

(** [self.send().direct_egld] and [direct_esdt]. *)
Definition direct (to : address) (a : asset) (amt : N) : M K unit :=
  debit a amt ≫= λ _, perform (Send to a amt).
Definition direct_egld (to : address) (amt : N) : M K unit := direct to Egld amt.
Definition direct_esdt (to : address) (t : token_id) (nonce amt : N) : M K unit :=
  direct to (Esdt t nonce) amt.

(** [.raw_call(..).egld(..).gas(..).transfer_execute()] *)
Definition transfer_execute (to : address) (ep : string) (args : list arg) (egld gas : N)
  : M K unit :=
  debit Egld egld ≫= λ _, perform (TransferExecute to ep args egld gas).

(** [.raw_call(..).callback(..).register_promise()] *)
Definition register_promise (to : address) (ep : bytes) (args : list arg) (egld gas : N)
    (cb : option (callback K)) (cb_gas : N) : M K unit :=
  debit Egld egld ≫= λ _, perform (Promise to ep args egld gas cb cb_gas).

(** The same with an ESDT payment instead of EGLD. *)
Definition register_promise_esdt (to : address) (ep : bytes) (args : list arg) (p : payment)
    (gas : N) (cb : option (callback K)) (cb_gas : N) : M K unit :=
  debit (pay_asset p) (amount p) ≫= λ _, perform (PromiseEsdt to ep args p gas cb cb_gas).

(** [.raw_call(..).sync_call()]: a failing callee aborts the caller. *)
Definition call_out (e : env K) (to : address) (ep : bytes) (args : list arg) (egld : N)
  : M K (list bytes) := λ w,
  match sync_result e to ep args egld w with
  | Some (r, w') => Ok (r, w')
  | None => Err "sync call failed"
  end.
Definition sync_call (e : env K) (to : address) (ep : bytes) (args : list arg) (egld : N)
  : M K (list bytes) :=
  debit Egld egld ≫= λ _, call_out e to ep args egld.

(** [BigUint] subtraction aborts below zero. *)
Definition biguint_sub (a b : N) : M K N :=
  if decide (b ≤ a) then mret (a - b)
  else throw "cannot subtract because result would be negative".

(** Endpoint attributes: [#[only_owner]] and the payment checks. *)
Definition only_owner (e : env K) : M K unit :=
  require (caller e = owner_address e) "Endpoint can only be called by owner".
Definition not_payable (e : env K) : M K unit :=
  require (egld_value e = 0 ∧ esdt_transfers e = []) "endpoint does not accept payments".
Definition payable_egld (e : env K) : M K unit :=
  require (esdt_transfers e = []) "endpoint does not accept ESDT payments".

(** [call_value().single_fungible_esdt()] *)
Definition single_fungible_esdt (e : env K) : M K (token_id * N) :=
  match esdt_transfers e with
  | [p] => if decide (token_nonce p = 0) then mret (token_identifier p, amount p)
           else throw "fungible ESDT token expected"
  | _ => throw "incorrect number of ESDT transfers"
  end.

(** [call_value().single_esdt()] *)
Definition single_esdt (e : env K) : M K payment :=
  match esdt_transfers e with
  | [p] => mret p
  | _ => throw "incorrect number of ESDT transfers"
  end.

(** [call_value().all()]: EGLD travels as a payment of the native token. *)
Definition all_payments (e : env K) : list payment :=
  (if decide (0 < egld_value e) then [Payment EGLD_000000 0 (egld_value e)] else []) ++ esdt_transfers e.

(** [call_value().single()] and [single_optional()] *)
Definition single (e : env K) : M K payment :=
  match all_payments e with
  | [p] => mret p
  | _ => throw "incorrect number of transfers"
  end.
Definition single_optional (e : env K) : M K (option payment) :=
  match all_payments e with
  | [] => mret None
  | [p] => mret (Some p)
  | _ => throw "incorrect number of transfers"
  end.

(** [.payment(p).transfer()] *)
Definition asset_of (p : payment) : asset :=
  if decide (token_identifier p = EGLD_000000) then Egld else pay_asset p.
Definition transfer_payment (to : address) (p : payment) : M K unit := direct to (asset_of p) (amount p).

(** No ESDT has the name under which EGLD travels. *)
Definition native_apart (e : env K) : Prop :=
  Forall (λ p, token_identifier p ≠ EGLD_000000) (esdt_transfers e).

(** [for x in l { f(x) }] *)
Fixpoint for_each {A} (l : list A) (f : A → M K unit) : M K unit :=
  match l with
  | [] => mret ()
  | x :: l' => f x ≫= λ _, for_each l' f
  end.

(** The call value reaches the contract before its code runs. *)
Definition credit_payment (p : payment) (b : asset → N) : asset → N :=
  <[pay_asset p := b (pay_asset p) + amount p]> b.
Definition credit (e : env K) (w : world K) : world K :=
  w <| bal ::= λ b, foldr credit_payment (<[Egld := b Egld + egld_value e]> b) (esdt_transfers e) |>.

(** A transaction: credit the call value, run the endpoint; a failure reverts. *)
Definition invoke {A} (e : env K) (m : M K A) (w : world K) : result (A * world K) :=
  m (credit e w).
End primitives.
Arguments sv_get : simpl never.

(** ** Weakest preconditions

    [wp m Q E w]: run from [w], [m] either returns [a] in a world [w'] with
    [Q a w'] or aborts with a message satisfying [E].  With [E := λ _, True]
    this is partial correctness; with [E := λ _, False] the code is shown to
    succeed; with [E := eq msg] only [msg] can be reported. *)

Definition wp {K A} (m : M K A) (Q : A → world K → Prop) (E : string → Prop)
    (w : world K) : Prop :=
  match m w with
  | Ok (a, w') => Q a w'
  | Err e => E e
  end.

Abbreviation any_error := (λ _ : string, True).
Abbreviation no_error := (λ _ : string, False).

Section wp.
Context {K : contract}.
Implicit Types (w : world K) (E : string → Prop).

Lemma wp_ok {A} (m : M K A) Q E w a w' : wp m Q E w → m w = Ok (a, w') → Q a w'.
Proof. unfold wp. intros H Hm. by rewrite Hm in H. Qed.

Lemma wp_err {A} (m : M K A) Q E w e : wp m Q E w → m w = Err e → E e.
Proof. unfold wp. intros H Hm. by rewrite Hm in H. Qed.

Lemma wp_total {A} (m : M K A) Q w :
  wp m Q no_error w → ∃ a w', m w = Ok (a, w') ∧ Q a w'.
Proof. unfold wp. destruct (m w) as [[a w']|e]; [eauto|done]. Qed.

(** Success and failure with a given message, from [wp]. *)
Lemma wp_runs (m : M K unit) (Q : world K → Prop) w :
  wp m (λ _, Q) no_error w → ∃ w', m w = Ok ((), w') ∧ Q w'.
Proof. unfold wp. destruct (m w) as [[[] w']|e]; [eauto|done]. Qed.

Lemma wp_fails {A} (m : M K A) msg w :
  wp m (λ _ _, False) (eq msg) w → m w = Err msg.
Proof. unfold wp. destruct (m w) as [[a w']|e]; [done|by intros ->]. Qed.

Lemma wp_only_err {A} (m : M K A) E w :
  wp m (λ _ _, False) E w → ∃ e, m w = Err e ∧ E e.
Proof. unfold wp. destruct (m w) as [[a w']|e]; [done|eauto]. Qed.

Lemma wp_intro {A} (m : M K A) Q E w :
  (∀ a w', m w = Ok (a, w') → Q a w') → (∀ e, m w = Err e → E e) → wp m Q E w.
Proof. unfold wp. destruct (m w) as [[a w']|e]; eauto. Qed.

Lemma wp_mono {A} (m : M K A) (Q Q' : A → world K → Prop) E w :
  wp m Q E w → (∀ a w', Q a w' → Q' a w') → wp m Q' E w.
Proof. unfold wp. destruct (m w) as [[a w']|e]; eauto. Qed.

Lemma wp_ret {A} (a : A) Q E w : Q a w → wp (mret a) Q E w.
Proof. done. Qed.

Lemma wp_bind {A B} (m : M K A) (f : A → M K B) Q E w :
  wp m (λ a, wp (f a) Q E) E w → wp (m ≫= f) Q E w.
Proof. unfold wp, mbind, M_bind. by destruct (m w) as [[a w']|e]. Qed.

Lemma wp_throw {A} (e : string) (Q : A → world K → Prop) E w : E e → wp (throw e) Q E w.
Proof. done. Qed.

Lemma wp_require (P : Prop) `{Decision P} msg Q E w :
  (P → Q () w) → (¬ P → E msg) → wp (require P msg) Q E w.
Proof. unfold require. intros. case_decide; [apply wp_ret|apply wp_throw]; auto. Qed.

Lemma wp_get_st Q E w : Q (st w) w → wp get_st Q E w.
Proof. done. Qed.

Lemma wp_modify f Q E w : Q () (w <| st ::= f |>) → wp (modify f) Q E w.
Proof. done. Qed.

Lemma wp_get_sc_balance a Q E w : Q (bal w a) w → wp (get_sc_balance a) Q E w.
Proof. done. Qed.

Lemma wp_sv_get {A} (empty c : option A) Q E w :
  (∀ a, c = Some a ∨ (c = None ∧ empty = Some a) → Q a w) →
  (c = None → empty = None → E "storage decode error") →
  wp (sv_get empty c) Q E w.
Proof. unfold sv_get. destruct c as [a|]; [|destruct empty as [a|]]; intros HQ HE; [apply HQ|apply HQ|apply HE]; eauto. Qed.

Lemma wp_single_esdt e Q E w :
  (∀ p, esdt_transfers e = [p] → Q p w) → E "incorrect number of ESDT transfers" →
  wp (single_esdt e) Q E w.
Proof. unfold single_esdt. intros HQ HE. destruct (esdt_transfers e) as [|p [|]]; [apply HE|apply HQ; done|apply HE]. Qed.

Lemma wp_single e Q E w :
  (∀ p, all_payments e = [p] → Q p w) → E "incorrect number of transfers" → wp (single e) Q E w.
Proof. unfold single. intros HQ HE. destruct (all_payments e) as [|p [|]]; [apply HE|apply HQ; done|apply HE]. Qed.

Lemma wp_single_optional e Q E w :
  (all_payments e = [] → Q None w) → (∀ p, all_payments e = [p] → Q (Some p) w) →
  E "incorrect number of transfers" → wp (single_optional e) Q E w.
Proof.
  unfold single_optional. intros HN HQ HE.
  destruct (all_payments e) as [|p [|]]; [apply HN; done|apply HQ; done|apply HE].
Qed.

(** A loop with an invariant. *)
Lemma wp_for_each {A} (I : world K → Prop) (l : list A) (f : A → M K unit) E w :
  (∀ x w, x ∈ l → I w → wp (f x) (λ _, I) E w) → I w → wp (for_each l f) (λ _, I) E w.
Proof.
  revert w. induction l as [|x l IH]; intros w Hf Hw; cbn [for_each]; [done|].
  apply wp_bind. eapply wp_mono; [apply Hf; [by left|done]|].
  intros a w' Hw'. apply IH; [|done]. intros y v Hy. apply Hf. by right.
Qed.

Lemma wp_invoke {A} e (m : M K A) Q E w : wp m Q E (credit e w) → wp (invoke e m) Q E w.
Proof. done. Qed.

Lemma wp_perform x Q E w : Q () (w <| log ::= λ l, l ++ [x] |>) → wp (perform x) Q E w.
Proof. done. Qed.

Lemma wp_debit a amt Q E w :
  (amt ≤ bal w a → Q () (w <| bal ::= λ b, <[a := b a - amt]> b |>)) →
  (bal w a < amt → E "failed transfer (insufficient funds)") →
  wp (debit a amt) Q E w.
Proof. unfold wp, debit. intros HQ HE. case_decide; [apply HQ; lia|apply HE; lia]. Qed.

Lemma wp_mint a amt Q E w : Q () (w <| bal ::= λ b, <[a := b a + amt]> b |>) → wp (mint a amt) Q E w.
Proof. done. Qed.

Lemma wp_biguint_sub a b Q E w :
  (b ≤ a → Q (a - b) w) →
  (a < b → E "cannot subtract because result would be negative") →
  wp (biguint_sub a b) Q E w.
Proof. unfold biguint_sub. intros HQ HE. case_decide; [apply HQ; lia|apply HE; lia]. Qed.

Lemma wp_sync_call e to ep args egld Q E w :
  (∀ r w', egld ≤ bal w Egld →
     sync_result e to ep args egld (w <| bal ::= λ b, <[Egld := b Egld - egld]> b |>) = Some (r, w') →
     Q r w') →
  E "failed transfer (insufficient funds)" → E "sync call failed" →
  wp (sync_call e to ep args egld) Q E w.
Proof.
  intros HQ HE1 HE2. unfold sync_call. apply wp_bind, wp_debit; [|done].
  intros Hle. unfold wp, call_out. destruct (sync_result _ _ _ _ _ _) as [[r w']|] eqn:Hr; eauto.
Qed.

Lemma wp_call_out e to ep args egld Q E w r w' :
  sync_result e to ep args egld w = Some (r, w') → Q r w' → wp (call_out e to ep args egld) Q E w.
Proof. unfold wp, call_out. by intros ->. Qed.

(** A synchronous call that does not come back costs at most the EGLD sent. *)
Lemma wp_sync_call_pure e to ep args egld Q E w :
  no_reentrancy e →
  (∀ r b, egld ≤ bal w Egld → (∀ a, <[Egld := bal w Egld - egld]> (bal w) a ≤ b a) →
     Q r (World (st w) b (log w))) →
  E "failed transfer (insufficient funds)" → E "sync call failed" →
  wp (sync_call e to ep args egld) Q E w.
Proof.
  intros Hnr HQ HE1 HE2. apply wp_sync_call; [|done..].
  intros r w' Hle Hs. apply Hnr in Hs as (Hst & Hlog & Hb). destruct w' as [s b l]. simpl in *. subst.
  by apply HQ.
Qed.
End wp.

(** One symbolic-execution step; [wp_go] runs the code to its end, leaving the
    postcondition and the error conditions. *)
Ltac wp_step :=
  lazymatch goal with
  | |- any_error _ => exact I
  | |- True => exact I
  | |- @wp ?K _ ?m _ _ _ =>
      lazymatch m with
      | invoke _ _ => apply (@wp_invoke K)
      | mbind _ _ => apply (@wp_bind K)
      | mret _ => apply (@wp_ret K)
      | throw _ => apply (@wp_throw K)
      | require _ _ => apply (@wp_require K); [intros ?|intros ?]
      | get_st => apply (@wp_get_st K)
      | modify _ => apply (@wp_modify K)
      | get_sc_balance _ => apply (@wp_get_sc_balance K)
      | sv_get _ _ => apply (@wp_sv_get K); [intros ? ?|intros ? ?]
      | perform _ => apply (@wp_perform K)
      | emit _ => apply (@wp_perform K)
      | mint _ _ => apply (@wp_mint K)
      | debit _ _ => apply (@wp_debit K); [intros ?|intros ?]
      | direct_egld _ _ => unfold direct_egld
      | direct_esdt _ _ _ _ => unfold direct_esdt
      | direct _ _ _ => unfold direct
      | transfer_execute _ _ _ _ _ => unfold transfer_execute
      | register_promise _ _ _ _ _ _ _ => unfold register_promise
      | single_esdt _ => apply (@wp_single_esdt K); [intros ? ?|]
      | single _ => apply (@wp_single K); [intros ? ?|]
      | single_optional _ => apply (@wp_single_optional K); [intros ?|intros ? ?|]
      | biguint_sub _ _ => apply (@wp_biguint_sub K); [intros ?|intros ?]
      | register_promise_esdt _ _ _ _ _ _ _ => unfold register_promise_esdt
      | transfer_payment _ _ => unfold transfer_payment
      | only_owner _ => unfold only_owner
      | not_payable _ => unfold not_payable
      | payable_egld _ => unfold payable_egld
      | (if decide ?P then _ else _) => destruct (decide P)
      | (if ?b then _ else _) => destruct b eqn:?; try discriminate
      end
  end.
Ltac wp_go := repeat (wp_step; cbv beta).

(** From a goal about the outcome [w'] of a successful run [Hi] to the weakest
    precondition of that run. *)
Ltac by_wp Hi :=
  lazymatch type of Hi with
  | _ = Ok (_, ?w') =>
      pattern w';
      lazymatch goal with |- ?P _ => refine (wp_ok _ (λ _, P) any_error _ _ _ _ Hi); clear Hi end;
      cbv beta; lazymatch goal with |- wp (invoke _ _) _ _ _ => apply wp_invoke | _ => idtac end
  end.

(** Balances after updates. *)
Lemma bal_insert_eq (b : asset → N) a n : (<[a := n]> b : asset → N) a = n.
Proof. apply fn_lookup_insert. Qed.
Lemma bal_insert_ne (b : asset → N) a a' n :
  a ≠ a' → (<[a := n]> b : asset → N) a' = b a'.
Proof. apply fn_lookup_insert_ne. Qed.

Create Rewrite HintDb xcron_rw.
#[export] Hint Rewrite bal_insert_eq : xcron_rw.
#[export] Hint Rewrite bal_insert_ne using congruence : xcron_rw.

(** ** Contracts as state machines

    [deployed] are the worlds after a successful [init]; a step is a
    successful transaction of the contract, or funds that arrive without
    running its code. *)

Section machine.
Context {K : contract} {C : Type}.
Variable dispatch : env K → C → M K unit.
Variable deployed : world K → Prop.
(** Restriction on the transactions considered. *)
Variable allowed : env K → C → world K → Prop.

Inductive reachable : world K → Prop :=
| reach_deployed w : deployed w → reachable w
| reach_call w e c w' :
    reachable w → allowed e c w → invoke e (dispatch e c) w = Ok ((), w') → reachable w'
| reach_funded w b :
    reachable w → (∀ a, bal w a ≤ b a) → reachable (World (st w) b (log w)).

(** Running a list of transactions, for concrete runs. *)
Fixpoint run (cs : list (env K * C)) (w : world K) : result (world K) :=
  match cs with
  | [] => Ok w
  | (e, c) :: cs' =>
      match invoke e (dispatch e c) w with
      | Ok (_, w') => run cs' w'
      | Err msg => Err msg
      end
  end.

Lemma run_reachable cs w w' :
  reachable w → Forall (λ ec, ∀ w, allowed ec.1 ec.2 w) cs → run cs w = Ok w' → reachable w'.
Proof.
  intros Hr Hall. revert w Hr. induction Hall as [|[e c] cs Ha _ IH]; simpl; intros w Hr Hrun.
  - by simplify_eq.
  - destruct (invoke e (dispatch e c) w) as [[[] w1]|] eqn:Hi; [|done].
    apply (IH w1); [|done]. by eapply reach_call.
Qed.

(** One transaction, for concrete runs with conditions on the world. *)
Definition next (e : env K) (c : C) (w : world K) : world K :=
  match invoke e (dispatch e c) w with Ok (_, w') => w' | Err _ => w end.

Lemma next_ok e c w :
  is_ok (invoke e (dispatch e c) w) = true → invoke e (dispatch e c) w = Ok ((), next e c w).
Proof. unfold next. by destruct (invoke e (dispatch e c) w) as [[[] ?]|]. Qed.

Lemma next_reachable e c w :
  reachable w → allowed e c w → is_ok (invoke e (dispatch e c) w) = true → reachable (next e c w).
Proof. intros Hr Ha Hok. eapply reach_call; [exact Hr|exact Ha|by apply next_ok]. Qed.

(** The world after a run that succeeds. *)
Definition outcome (cs : list (env K * C)) (w : world K) : world K :=
  match run cs w with Ok w' => w' | Err _ => w end.

Lemma outcome_reachable cs w :
  reachable w → Forall (λ ec, ∀ w, allowed ec.1 ec.2 w) cs → is_ok (run cs w) = true →
  reachable (outcome cs w).
Proof.
  intros Hr Hall Hok. unfold outcome. destruct (run cs w) as [w'|] eqn:Hrun; [|done].
  by eapply run_reachable.
Qed.

(** Rule induction with one obligation per kind of step. *)
Lemma reachable_inv (I : world K → Prop) :
  (∀ w, deployed w → I w) →
  (∀ w e c, I w → allowed e c w → wp (dispatch e c) (λ _, I) any_error (credit e w)) →
  (∀ w b, I w → (∀ a, bal w a ≤ b a) → I (World (st w) b (log w))) →
  ∀ w, reachable w → I w.
Proof.
  intros Hdep Hcall Hfund w Hr. induction Hr as [w Hd|w e c w' _ IH Ha Hc|w b _ IH Hb].
  - by apply Hdep.
  - by apply (wp_ok _ _ _ _ _ _ (Hcall w e c IH Ha) Hc).
  - by apply Hfund.
Qed.
End machine.

(** Crediting a call: the storage is untouched, balances do not shrink, and
    without ESDT payments only EGLD grows. *)
Section credit.
Context {K : contract}.
Implicit Types (e : env K) (w : world K).

Lemma st_credit e w : st (credit e w) = st w.
Proof. done. Qed.

Lemma log_credit e w : log (credit e w) = log w.
Proof. done. Qed.

Lemma credit_payment_eq p (b : asset → N) :
  credit_payment p b (pay_asset p) = b (pay_asset p) + amount p.
Proof. apply bal_insert_eq. Qed.

Lemma credit_payment_ne p (b : asset → N) a :
  pay_asset p ≠ a → credit_payment p b a = b a.
Proof. intros Hne. unfold credit_payment. by rewrite bal_insert_ne. Qed.

Lemma credit_payments_egld ps (b : asset → N) : foldr credit_payment b ps Egld = b Egld.
Proof. induction ps as [|p ps IH]; [done|]. cbn [foldr]. by rewrite credit_payment_ne. Qed.

Lemma credit_payments_le ps (b : asset → N) a : b a ≤ foldr credit_payment b ps a.
Proof.
  induction ps as [|p ps IH]; cbn [foldr]; [done|].
  destruct (decide (pay_asset p = a)) as [<-|].
  - rewrite credit_payment_eq. lia.
  - by rewrite credit_payment_ne.
Qed.

Lemma credit_egld e w : bal (credit e w) Egld = bal w Egld + egld_value e.
Proof. unfold credit; simpl. by rewrite credit_payments_egld, bal_insert_eq. Qed.

Lemma credit_nothing e w a :
  egld_value e = 0 → esdt_transfers e = [] → bal (credit e w) a = bal w a.
Proof.
  intros Hv Hp. unfold credit; simpl. rewrite Hp, Hv. cbn [foldr].
  destruct (decide (Egld = a)) as [<-|]; [rewrite bal_insert_eq; lia|by rewrite bal_insert_ne].
Qed.

Lemma credit_esdt_single e w p :
  esdt_transfers e = [p] → bal (credit e w) (pay_asset p) = bal w (pay_asset p) + amount p.
Proof.
  intros Hp. unfold credit; simpl. rewrite Hp. cbn [foldr].
  rewrite credit_payment_eq. by rewrite bal_insert_ne.
Qed.

(** A single payment is in the balance of its asset. *)
Lemma credit_single e w p :
  native_apart e → all_payments e = [p] → bal (credit e w) (asset_of p) = bal w (asset_of p) + amount p.
Proof.
  unfold all_payments, native_apart, asset_of. intros Hn. case_decide as Hv; simpl.
  - intros [= <- Hp]. apply credit_egld.
  - intros Hp. rewrite Hp in Hn. apply Forall_cons in Hn as [Hn _]. rewrite decide_False by done.
    by apply credit_esdt_single.
Qed.

Lemma credit_le e w a : bal w a ≤ bal (credit e w) a.
Proof.
  unfold credit; simpl. etrans; [|apply credit_payments_le].
  destruct (decide (Egld = a)) as [<-|]; [rewrite bal_insert_eq; lia|].
  by rewrite bal_insert_ne.
Qed.
End credit.
#[export] Hint Rewrite @st_credit @log_credit @credit_egld : xcron_rw.
#[global] Opaque credit.

(** Closes the branches of a symbolic run that are settled by arithmetic or by
    a contradiction between a guard and a hypothesis. *)
Ltac wp_side :=
  simpl in *; rewrite ?st_credit, ?credit_egld, ?log_credit in *;
  first [done | lia | congruence | naive_solver].

(** ** Sample inputs, for evaluating the contracts on concrete calls *)

Definition sample_env {K} (from owner self t value : N) : env K :=
  Env from owner self t (t * 1000) 0 0 [] 1000000000 value [] (λ _ _ _ _ w, Some ([], w)).

Lemma silent_no_reentrancy {K} (e : env K) : silent_callees e → no_reentrancy e.
Proof. by intros Hs to ep args v w r w' ->%Hs. Qed.

Lemma sample_env_silent {K} from owner self t value :
  silent_callees (sample_env (K:=K) from owner self t value).
Proof. intros to ep args v w r w' H. by simplify_eq/=. Qed.

Lemma sample_env_no_reentrancy {K} from owner self t value :
  no_reentrancy (sample_env (K:=K) from owner self t value).
Proof. apply silent_no_reentrancy, sample_env_silent. Qed.
