(* ===== verification/Types.v ===== *)
(** The [common] crate (contracts/common/src): the types the contracts store
    and exchange, the protocol constants, the pausable module; and the class
    [Sdk] of what the contracts call in the MultiversX SDK. *)

From S2P Require Import Prelude Sdk.

(** ** constants.rs *)

Definition BPS_DENOMINATOR : N := 10000.
Definition DEFAULT_PROTOCOL_FEE_BPS : N := 3000.
Definition DEFAULT_REVEAL_WINDOW_SECONDS : N := 60.
Definition DEFAULT_COOLDOWN_SECONDS : N := 43200.
Definition UNSTAKE_COOLDOWN_SECONDS : N := DEFAULT_COOLDOWN_SECONDS.
Definition SLASH_STRIKE_1_BPS : N := 500.
Definition SLASH_STRIKE_2_BPS : N := 1500.
Definition SLASH_STRIKE_3_BPS : N := 2000.
Definition EGLD_DECIMALS : N := 1000000000000000000.
Definition CALLBACK_GAS_RESERVE : N := 25000000.
Definition DEFAULT_MAX_REWARD_PER_EXEC : N := 50000000000000000.
Definition EARLY_EXIT_PENALTY_BPS : N := 500.
Definition MIN_KEEPER_DAYS_SECONDS : N := 30 * 24 * 60 * 60.
Definition MAX_STRIKES : N := 3.
Definition ROUND_ROBIN_GRACE_SECONDS : N := 30.
Definition MAX_TARGET_FAILURES : N := 10.
Definition MAX_TASKS_PER_ROUND : N := 10.
Definition MAX_CLONE_KEY_SPEND_LIMIT : N := 2 * EGLD_DECIMALS.
Definition MAX_CLONE_KEYS_PER_WALLET : nat := 3.
Definition MAX_CLONE_KEY_TTL_SECONDS : N := 30 * 24 * 60 * 60.
Definition MIN_CLONE_KEY_TTL_SECONDS : N := 3600.

(** ** types.rs: intents *)

Abbreviation hash := bytes.

Inductive IntentStatus : Type :=
| IntentPending
| IntentSettled
| IntentCancelled
| IntentExpired.
#[export] Instance IntentStatus_eq_dec : EqDecision IntentStatus.
Proof. solve_decision. Defined.

Record Intent := MkIntent {
  in_id : N;
  in_owner : address;
  in_token_in : token_id;
  in_amount_in : N;
  in_token_out : token_id;
  in_min_return : N;
  in_deadline : N;
  in_solver_fee : N;
  in_status : IntentStatus;
  in_settled_by : option address;
}.
#[export] Instance Intent_eta : Settable Intent := λ r,
  MkIntent (in_id r) (in_owner r) (in_token_in r) (in_amount_in r) (in_token_out r)
    (in_min_return r) (in_deadline r) (in_solver_fee r) (in_status r) (in_settled_by r).

Record MultiIntentOutcome := MkOutcome {
  mo_token_out : token_id;
  mo_min_return : N;
}.

Record MultiIntent := MkMultiIntent {
  mi_id : N;
  mi_owner : address;
  mi_token_in : token_id;
  mi_amount_in : N;
  mi_outcomes : list MultiIntentOutcome;
  mi_deadline : N;
  mi_solver_fee : N;
  mi_status : IntentStatus;
  mi_settled_by : option address;
}.
#[export] Instance MultiIntent_eta : Settable MultiIntent := λ r,
  MkMultiIntent (mi_id r) (mi_owner r) (mi_token_in r) (mi_amount_in r) (mi_outcomes r)
    (mi_deadline r) (mi_solver_fee r) (mi_status r) (mi_settled_by r).

Inductive PreCognitiveIntentStatus : Type :=
| PcPending
| PcExecuted
| PcCancelled
| PcExpired.
#[export] Instance PreCognitiveIntentStatus_eq_dec : EqDecision PreCognitiveIntentStatus.
Proof. solve_decision. Defined.

Record PreCognitiveIntent := MkPreCognitiveIntent {
  pc_id : N;
  pc_owner : address;
  pc_token_in : token_id;
  pc_amount_in : N;
  pc_merkle_root : hash;
  pc_deadline : N;
  pc_keeper_fee : N;
  pc_status : PreCognitiveIntentStatus;
  pc_executed_by : option address;
}.
#[export] Instance PreCognitiveIntent_eta : Settable PreCognitiveIntent := λ r,
  MkPreCognitiveIntent (pc_id r) (pc_owner r) (pc_token_in r) (pc_amount_in r)
    (pc_merkle_root r) (pc_deadline r) (pc_keeper_fee r) (pc_status r) (pc_executed_by r).

(** ** types.rs: tasks *)

Inductive TaskStatus : Type :=
| Pending
| Committed
| Executing
| Completed
| Failed
| Cancelled
| Expired.
#[export] Instance TaskStatus_eq_dec : EqDecision TaskStatus.
Proof. solve_decision. Defined.

Inductive Comparator : Type := Gt | Lt | Eq | Gte | Lte.
#[export] Instance Comparator_eq_dec : EqDecision Comparator.
Proof. solve_decision. Defined.

Inductive Trigger : Type :=
| TimeOnce (target_time : N)
| TimeRecurring (start_time interval remaining_execs : N)
| StateDriven (oracle_contract : address) (query_endpoint : bytes)
    (query_args : list bytes) (comparator : Comparator) (threshold : N)
| EventDriven (emitter_contract : address) (event_topic : bytes)
| QuantumSealedHash (expected_hash : hash).

Record Task := MkTask {
  t_id : N;
  t_owner : address;
  t_target_contract : address;
  t_target_endpoint : bytes;
  t_target_args : list bytes;
  t_trigger : Trigger;
  t_max_gas : N;
  t_deposit : N;
  t_max_retries : N;
  t_retry_count : N;
  t_ttl_seconds : N;
  t_created_at : N;
  t_status : TaskStatus;
  t_assigned_keeper : option address;
  t_completed_at : N;
  t_post_task_id : option N;
  t_require_xwap_safe : bool;
  t_confidential : bool;
}.

Record QuantumTaskState := MkQuantumTaskState {
  q_owner : address;
  q_deposit : N;
  q_status : TaskStatus;
  q_executing_at : N;
}.
#[export] Instance QuantumTaskState_eta : Settable QuantumTaskState := λ r,
  MkQuantumTaskState (q_owner r) (q_deposit r) (q_status r) (q_executing_at r).

(** ** types.rs: keepers and clone keys *)

Record KeeperInfo := MkKeeperInfo {
  k_addr : address;
  k_stake : N;
  k_registered_at : N;
  k_total_executions : N;
  k_successful_execs : N;
  k_failed_execs : N;
  k_slashed_amount : N;
  k_active : bool;
  k_consecutive_failures : N;
}.
#[export] Instance KeeperInfo_eta : Settable KeeperInfo := λ r,
  MkKeeperInfo (k_addr r) (k_stake r) (k_registered_at r) (k_total_executions r)
    (k_successful_execs r) (k_failed_execs r) (k_slashed_amount r) (k_active r)
    (k_consecutive_failures r).

Record CloneKeyProperties := MkCloneKeyProperties {
  c_main_address : address;
  c_spend_limit : N;
  c_spent_amount : N;
  c_expiry_timestamp : N;
}.
#[export] Instance CloneKeyProperties_eta : Settable CloneKeyProperties := λ r,
  MkCloneKeyProperties (c_main_address r) (c_spend_limit r) (c_spent_amount r)
    (c_expiry_timestamp r).

(** ** The SDK as a parameter

    [empty_*]: what [SingleValueMapper::get] yields on an empty cell of the
    type ([None] when the decoder aborts; numbers decode to 0, booleans to
    false, which the storage records of the contracts build in).
    [top_encode_into buf v]: the buffer after [v.top_encode(&mut buf)].
    [encode_task t]: the bytes of [t.top_encode] into a fresh buffer.
    [bool_decode b]: [bool::top_decode(b).unwrap_or(false)]. *)

Inductive encodable : Type :=
| EncAddr (a : address)
| EncBuf (b : bytes)
| EncNum (n : N).

Class Sdk := {
  sha256 : bytes → hash;
  top_encode_into : bytes → encodable → bytes;
  encode_task : Task → bytes;
  bool_decode : bytes → bool;
  get_shard_of_address : address → N;
  empty_address : option address;
  empty_keeper : option KeeperInfo;
  empty_quantum_task : option QuantumTaskState;
  empty_clone_key : option CloneKeyProperties;
  empty_intent : option Intent;
  empty_multi_intent : option MultiIntent;
  empty_pre_cognitive : option PreCognitiveIntent;
}.

(** The documented behaviour of the codec that properties rely on: an empty
    cell is neither a struct nor an address. *)
Class StrictSdk `{Sdk} : Prop := {
  strict_address : empty_address = None;
  strict_keeper : empty_keeper = None;
  strict_quantum_task : empty_quantum_task = None;
  strict_clone_key : empty_clone_key = None;
  strict_intent : empty_intent = None;
  strict_multi_intent : empty_multi_intent = None;
  strict_pre_cognitive : empty_pre_cognitive = None;
}.

(** A concrete SDK, to evaluate the contracts on samples: the hash keeps the
    last 32 bytes of its input behind a marker byte, encodings append, and
    empty cells do not decode. *)
Definition sample_encode (v : encodable) : bytes :=
  match v with EncAddr a => addr_bytes a | EncBuf b => b | EncNum n => be_bytes 8 n end.
Definition sample_sdk : Sdk := {|
  sha256 := λ b, be_bytes 32 (be_val (1 :: b));
  top_encode_into := λ buf v, buf ++ sample_encode v;
  encode_task := λ t, be_bytes 8 (t_id t) ++ be_bytes 8 (t_created_at t);
  bool_decode := λ b, be_val b =? 1;
  get_shard_of_address := λ _, 0;
  empty_address := None;
  empty_keeper := None;
  empty_quantum_task := None;
  empty_clone_key := None;
  empty_intent := None;
  empty_multi_intent := None;
  empty_pre_cognitive := None;
|}.
Lemma sample_strict : @StrictSdk sample_sdk.
Proof. by split. Qed.

(** ** pausable.rs

    The module is mixed into several contracts; [Pausable K] is the storage
    cell it adds to the contract [K]. *)

Class Pausable (K : contract) := {
  paused : storage K → bool;
  set_paused : bool → storage K → storage K;
}.
Class PausableLaws (K : contract) `{Pausable K} : Prop := {
  paused_set : ∀ b s, paused (set_paused b s) = b;
}.

Section pausable.
Context {K : contract} `{Pausable K}.

Definition pause (e : env K) : M K unit :=
  not_payable e ≫= λ _, only_owner e ≫= λ _, modify (set_paused true).

Definition unpause (e : env K) : M K unit :=
  not_payable e ≫= λ _, only_owner e ≫= λ _, modify (set_paused false).

Definition require_not_paused : M K unit :=
  s ← get_st; require (paused s = false) "Contract is paused".

Definition is_paused (s : storage K) : bool := paused s.

Lemma wp_require_not_paused Q E w :
  (paused (st w) = false → Q () w) → (paused (st w) = true → E "Contract is paused") →
  wp require_not_paused Q E w.
Proof.
  intros HQ HE. unfold require_not_paused. wp_go; [auto|].
  apply HE. by destruct (paused (st w)).
Qed.
End pausable.
