(* ===== verification/Rewards.v ===== *)
(** The Rewards contract (contracts/rewards/src): it receives the protocol
    fees of the schedulers, splits each between its treasury and the keeper,
    and pays keepers and treasury out. *)

From S2P Require Import Prelude Sdk Types.

(** storage.rs *)
Record State := MkState {
  keeper_registry_addr : option address;
  treasury_split_bps : N;
  pending_rewards : gmap address N;
  treasury_balance : N;
  authorized_schedulers : gset address;
  version : N;
  paused_cell : bool;
}.
#[export] Instance State_eta : Settable State := λ s,
  MkState (keeper_registry_addr s) (treasury_split_bps s) (pending_rewards s)
    (treasury_balance s) (authorized_schedulers s) (version s) (paused_cell s).

(** events.rs *)
Inductive Event : Type :=
| reward_accrued_event (task_id : N) (keeper : address) (amount : N)
| rewards_claimed_event (keeper : address) (amount : N)
| treasury_withdrawn_event (to : address) (amount : N).

Canonical K : contract := Contract State Event Empty_set.
Implicit Types (e : env K) (w : world K) (s : State) (Q : unit → world K → Prop) (E : string → Prop).

#[export] Instance pausable : Pausable K := {|
  paused := λ s : storage K, paused_cell (s : State);
  set_paused := λ b (s : storage K), (s : State) <| paused_cell := b |>;
|}.
#[export] Instance pausable_laws : PausableLaws K.
Proof. by split. Qed.

(** Storage of a fresh account: every cell is empty. *)
Definition empty_state : State := MkState None 0 ∅ 0 ∅ 0 false.

(** *** lib.rs *)

Definition init (e : env K) (keeper_registry : address) (split : N) : M K unit :=
  modify (λ s : State, s
    <| keeper_registry_addr := Some keeper_registry |>
    <| treasury_split_bps := split |>
    <| treasury_balance := 0 |>
    <| paused_cell := false |>
    <| version := 1 |>).

(** [set_if_empty(BigUint::zero())] writes the value an empty cell already has. *)
Definition upgrade (e : env K) : M K unit :=
  modify (λ s : State, s <| version ::= λ v, u32_add v 1 |>).

(** validation.rs *)
Definition require_scheduler_caller (e : env K) : M K unit :=
  s ← get_st;
  require (caller e ∈ authorized_schedulers s ∨ caller e = owner_address e) "Not authorized".

Definition receive_execution_fee (e : env K) (keeper : address) (task_id : N) : M K unit :=
  payable_egld e;;
  require_scheduler_caller e;;
  s ← get_st;
  let fee := egld_value e in
  let treasury_cut := fee * treasury_split_bps s / BPS_DENOMINATOR in
  keeper_bonus ← biguint_sub fee treasury_cut;
  modify (λ s : State, s <| treasury_balance ::= λ b, b + treasury_cut |>);;
  modify (λ s : State, s <| pending_rewards ::= λ m, <[keeper := nget m keeper + keeper_bonus]> m |>);;
  emit (reward_accrued_event task_id keeper keeper_bonus).

Definition claim_rewards (e : env K) : M K unit :=
  not_payable e;;
  require_not_paused;;
  s ← get_st;
  let amt := nget (pending_rewards s) (caller e) in
  require (0 < amt) "No pending rewards";;
  modify (λ s : State, s <| pending_rewards ::= delete (caller e) |>);;
  direct_egld (caller e) amt;;
  emit (rewards_claimed_event (caller e) amt).

Definition withdraw_treasury (e : env K) (to : address) (amt : N) : M K unit :=
  not_payable e;;
  only_owner e;;
  s ← get_st;
  require (amt ≤ treasury_balance s) "Insufficient treasury";;
  b ← biguint_sub (treasury_balance s) amt;
  modify (λ s : State, s <| treasury_balance := b |>);;
  direct_egld to amt;;
  emit (treasury_withdrawn_event to amt).

(** *** config.rs *)

Definition set_treasury_split_bps (e : env K) (value : N) : M K unit :=
  not_payable e;;
  only_owner e;;
  require (value ≤ BPS_DENOMINATOR) "Split exceeds 100%";;
  modify (λ s : State, s <| treasury_split_bps := value |>).

Definition set_keeper_registry_addr (e : env K) (addr : address) : M K unit :=
  not_payable e;;
  only_owner e;;
  modify (λ s : State, s <| keeper_registry_addr := Some addr |>).

Definition add_authorized_scheduler (e : env K) (addr : address) : M K unit :=
  not_payable e;;
  only_owner e;;
  modify (λ s : State, s <| authorized_schedulers ::= λ a, {[addr]} ∪ a |>).

Definition remove_authorized_scheduler (e : env K) (addr : address) : M K unit :=
  not_payable e;;
  only_owner e;;
  modify (λ s : State, s <| authorized_schedulers ::= λ a, a ∖ {[addr]} |>).

(** *** views.rs *)

Definition get_pending_rewards (s : State) (keeper : address) : N :=
  match pending_rewards s !! keeper with None => 0 | Some n => n end.
Definition get_treasury_balance (s : State) : N := treasury_balance s.
Definition get_treasury_split_bps (s : State) : N := treasury_split_bps s.

(** *** The contract as a machine *)

Inductive call : Type :=
| ReceiveExecutionFee (keeper : address) (task_id : N)
| ClaimRewards
| WithdrawTreasury (to : address) (amt : N)
| SetTreasurySplitBps (value : N)
| SetKeeperRegistryAddr (addr : address)
| AddAuthorizedScheduler (addr : address)
| RemoveAuthorizedScheduler (addr : address)
| Pause
| Unpause
| Upgrade.

Definition dispatch (e : env K) (c : call) : M K unit :=
  match c with
  | ReceiveExecutionFee k i => receive_execution_fee e k i
  | ClaimRewards => claim_rewards e
  | WithdrawTreasury to amt => withdraw_treasury e to amt
  | SetTreasurySplitBps v => set_treasury_split_bps e v
  | SetKeeperRegistryAddr a => set_keeper_registry_addr e a
  | AddAuthorizedScheduler a => add_authorized_scheduler e a
  | RemoveAuthorizedScheduler a => remove_authorized_scheduler e a
  | Pause => pause e
  | Unpause => unpause e
  | Upgrade => upgrade e
  end.

Definition deployed (w : world K) : Prop :=
  ∃ (e : env K) kr split (w0 : world K), st w0 = empty_state ∧ init e kr split w0 = Ok ((), w).

Definition rewards_reachable : world K → Prop :=
  reachable dispatch deployed (λ _ _ _, True).

(** What the contract owes: the treasury and every keeper's pending rewards. *)
Definition owed (s : State) : N := treasury_balance s + msum id (pending_rewards s).

Definition solvent (w : world K) : Prop := owed (st w) ≤ bal w Egld.

(** *** Lemmas *)

Lemma wp_require_scheduler_caller e Q E w :
  (caller e ∈ authorized_schedulers (st w) ∨ caller e = owner_address e → Q () w) →
  E "Not authorized" → wp (require_scheduler_caller e) Q E w.
Proof. intros HQ HE. unfold require_scheduler_caller. wp_go; auto. Qed.

(** The exact effect of a fee, and the ways it can be refused. *)
Lemma wp_receive_execution_fee e k i Q E w :
  (let cut := egld_value e * treasury_split_bps (st w) / BPS_DENOMINATOR in
   cut ≤ egld_value e →
   caller e ∈ authorized_schedulers (st w) ∨ caller e = owner_address e →
   Q () (World ((st w : State) <| treasury_balance := treasury_balance (st w) + cut |>
           <| pending_rewards := <[k := nget (pending_rewards (st w)) k + (egld_value e - cut)]>
                                  (pending_rewards (st w)) |>)
         (bal w) (log w ++ [Emit (reward_accrued_event i k (egld_value e - cut))]))) →
  E "endpoint does not accept ESDT payments" → E "Not authorized" →
  E "cannot subtract because result would be negative" →
  wp (receive_execution_fee e k i) Q E w.
Proof.
  intros HQ HE1 HE2 HE3. unfold receive_execution_fee. wp_go; [|done].
  apply wp_require_scheduler_caller; [intros Hauth|done]. wp_go; [|done].
  by apply HQ.
Qed.

Lemma solvent_preserved w e c : solvent w → wp (dispatch e c) (λ _, solvent) any_error (credit e w).
Proof.
  unfold solvent, owed. intros Hs.
  assert (Hc : owed (st w) + egld_value e ≤ bal (credit e w) Egld).
  { rewrite credit_egld. unfold owed. lia. }
  unfold owed in Hc.
  destruct c; simpl; try (unfold set_treasury_split_bps, set_keeper_registry_addr,
    add_authorized_scheduler, remove_authorized_scheduler, pause, unpause, upgrade;
    wp_go; simpl; rewrite st_credit; lia).
  - apply wp_receive_execution_fee; [|done..]. intros cut Hcut _. simpl.
    rewrite st_credit, msum_add in *. lia.
  - unfold claim_rewards. wp_go. apply wp_require_not_paused; [intros _|done]. wp_go. simpl in *.
    rewrite bal_insert_eq, st_credit.
    pose proof (msum_clear (pending_rewards (st w)) (caller e)). lia.
  - unfold withdraw_treasury. wp_go. simpl in *. rewrite bal_insert_eq, !st_credit in *. lia.
Qed.

Lemma deployed_solvent w : deployed w → solvent w.
Proof.
  intros (e & kr & split & w0 & Hst & Hinit). unfold init, modify in Hinit. simplify_eq.
  unfold solvent, owed. simpl. rewrite Hst. simpl. rewrite msum_empty. lia.
Qed.

(** The effect of a claim by a keeper with pending rewards. *)
Lemma claim_rewards_runs e w :
  solvent w → paused_cell (st w) = false →
  egld_value e = 0 → esdt_transfers e = [] → 0 < nget (pending_rewards (st w)) (caller e) →
  ∃ w', invoke e (claim_rewards e) w = Ok ((), w') ∧
    let amt := nget (pending_rewards (st w)) (caller e) in
    st w' = ((st w : State) <| pending_rewards ::= delete (caller e) |>) ∧
    log w' = log w ++ [Send (caller e) Egld amt; Emit (rewards_claimed_event (caller e) amt)] ∧
    bal w' Egld + amt = bal w Egld.
Proof.
  unfold solvent, owed. intros Hr Hp Hv Hesdt Hpos.
  pose proof (msum_clear (pending_rewards (st w)) (caller e)) as Hclear.
  apply wp_runs. unfold claim_rewards. wp_go; [|naive_solver].
  apply wp_require_not_paused; rewrite st_credit; simpl; [intros _|congruence].
  wp_go; simpl in *; rewrite ?st_credit, ?credit_egld in *; [|lia|lia].
  rewrite bal_insert_eq, log_credit.
  split_and!; [done|by rewrite <-app_assoc|lia].
Qed.

Lemma claim_rewards_refused e w :
  paused_cell (st w) = false → egld_value e = 0 → esdt_transfers e = [] →
  nget (pending_rewards (st w)) (caller e) = 0 →
  invoke e (claim_rewards e) w = Err "No pending rewards".
Proof.
  intros Hp Hv Hesdt Hz. apply wp_fails. unfold claim_rewards. wp_go; [|naive_solver].
  apply wp_require_not_paused; rewrite st_credit; simpl; [intros _|congruence].
  wp_go; wp_side.
Qed.

Lemma reachable_solvent w : rewards_reachable w → solvent w.
Proof.
  apply reachable_inv.
  - apply deployed_solvent.
  - intros ? e c ? _. by apply solvent_preserved.
  - unfold solvent. intros w' b Hw Hb. simpl. specialize (Hb Egld). lia.
Qed.

(** The effect of an authorized fee. *)
Lemma receive_execution_fee_runs e w k i :
  caller e ∈ authorized_schedulers (st w) ∨ caller e = owner_address e →
  esdt_transfers e = [] → treasury_split_bps (st w) ≤ BPS_DENOMINATOR →
  ∃ w', invoke e (receive_execution_fee e k i) w = Ok ((), w') ∧
    let cut := egld_value e * treasury_split_bps (st w) / BPS_DENOMINATOR in
    treasury_balance (st w') = treasury_balance (st w) + cut ∧
    nget (pending_rewards (st w')) k + cut = nget (pending_rewards (st w)) k + egld_value e ∧
    (∀ k', k' ≠ k → nget (pending_rewards (st w')) k' = nget (pending_rewards (st w)) k') ∧
    owed (st w') = owed (st w) + egld_value e ∧
    bal w' Egld = bal w Egld + egld_value e.
Proof.
  intros Hauth Hesdt Hsplit.
  assert (Hcut := bps_cut_le (egld_value e) _ Hsplit).
  apply wp_runs. unfold receive_execution_fee, require_scheduler_caller. wp_go;
    rewrite ?st_credit in *; try by auto.
  2: { unfold BPS_DENOMINATOR in *. lia. }
  simpl. unfold owed; simpl. rewrite !st_credit, msum_add, credit_egld. unfold BPS_DENOMINATOR in *.
  split_and!; [done| | |lia|done].
  - rewrite nget_insert_eq. lia.
  - intros k' Hk'. by rewrite nget_insert_ne.
Qed.

(** ** Properties *)

(** C13: the Rewards contract is solvent.  After any sequence of successful
    transactions from deployment (fees from any scheduler, claims, treasury
    withdrawals, configuration) its EGLD balance covers the treasury balance
    plus every keeper's pending rewards. *)
Theorem rewards_solvent w :
  rewards_reachable w → treasury_balance (st w) + msum id (pending_rewards (st w)) ≤ bal w Egld.
Proof. apply reachable_solvent. Qed.

(** An authorized fee is split without loss.  With a split of at most 100%
    [receiveExecutionFee] cannot fail, credits the treasury with
    [fee * split / 10000] and the named keeper with all the rest, leaves every
    other keeper's rewards alone, and keeps the fee in the contract. *)
Theorem receive_execution_fee_split e w k i :
  caller e ∈ authorized_schedulers (st w) ∨ caller e = owner_address e →
  esdt_transfers e = [] → treasury_split_bps (st w) ≤ BPS_DENOMINATOR →
  ∃ w', invoke e (receive_execution_fee e k i) w = Ok ((), w') ∧
    let cut := egld_value e * treasury_split_bps (st w) / BPS_DENOMINATOR in
    treasury_balance (st w') = treasury_balance (st w) + cut ∧
    nget (pending_rewards (st w')) k + cut = nget (pending_rewards (st w)) k + egld_value e ∧
    (∀ k', k' ≠ k → nget (pending_rewards (st w')) k' = nget (pending_rewards (st w)) k') ∧
    owed (st w') = owed (st w) + egld_value e ∧
    bal w' Egld = bal w Egld + egld_value e.
Proof. apply receive_execution_fee_runs. Qed.

(** A keeper can always claim, and only once.  In a reachable unpaused
    state a keeper with pending rewards who calls [claimRewards] without a
    payment is paid exactly that amount, what others are owed is unchanged,
    and a second claim is refused. *)
Theorem claim_rewards_pays_once e w :
  rewards_reachable w → paused_cell (st w) = false →
  egld_value e = 0 → esdt_transfers e = [] → 0 < nget (pending_rewards (st w)) (caller e) →
  ∃ w', invoke e (claim_rewards e) w = Ok ((), w') ∧
    let amt := nget (pending_rewards (st w)) (caller e) in
    log w' = log w ++ [Send (caller e) Egld amt; Emit (rewards_claimed_event (caller e) amt)] ∧
    bal w' Egld + amt = bal w Egld ∧
    owed (st w') + amt = owed (st w) ∧
    invoke e (claim_rewards e) w' = Err "No pending rewards".
Proof.
  intros Hr Hp Hv Hesdt Hpos. apply reachable_solvent in Hr.
  pose proof (msum_clear (pending_rewards (st w)) (caller e)) as Hclear.
  destruct (claim_rewards_runs e w) as (w' & Hrun & Hst & Hlog & Hbal); [done..|].
  exists w'. split; [done|]. simpl. unfold owed. rewrite Hst. simpl.
  split_and!; [done|done|lia|].
  apply claim_rewards_refused; rewrite ?Hst; [done..|]. apply nget_delete_eq.
Qed.

(** ** Witnesses *)

(** Deployed by 7 with a 40% treasury split, then paid a fee of 1000 for the keeper 5. *)
Definition sample_deployed : world K :=
  World (MkState (Some 1) 4000 ∅ 0 ∅ 1 false) (λ _, 0) [].
Definition sample_fee_env : env K := sample_env 7 7 9 0 1000.
Definition sample_world : world K :=
  match invoke sample_fee_env (receive_execution_fee sample_fee_env 5 0) sample_deployed with
  | Ok (_, w) => w
  | Err _ => sample_deployed
  end.
Definition sample_claim_env : env K := sample_env 5 7 9 0 0.

Lemma sample_reachable : rewards_reachable sample_world.
Proof.
  unfold rewards_reachable.
  apply (reach_call _ _ _ sample_deployed sample_fee_env (ReceiveExecutionFee 5 0));
    [apply reach_deployed|done|reflexivity].
  by exists (sample_env 7 7 9 0 0), 1, 4000, (World empty_state (λ _, 0) []).
Defined.

Lemma rewards_solvent_witness : rewards_reachable sample_world ∧
  treasury_balance (st sample_world) + msum id (pending_rewards (st sample_world)) ≤ bal sample_world Egld.
Proof. split; [apply sample_reachable|apply (rewards_solvent sample_world), sample_reachable]. Defined.

Lemma receive_execution_fee_split_witness :
  ∃ w', invoke sample_fee_env (receive_execution_fee sample_fee_env 5 0) sample_deployed = Ok ((), w') ∧
    treasury_balance (st w') = 400.
Proof.
  destruct (receive_execution_fee_split sample_fee_env sample_deployed 5 0) as (w' & Hrun & Ht & _).
  - by right.
  - reflexivity.
  - unfold BPS_DENOMINATOR; simpl; lia.
  - exists w'. split; [exact Hrun|rewrite Ht; reflexivity].
Defined.

Lemma claim_rewards_pays_once_witness :
  ∃ w', invoke sample_claim_env (claim_rewards sample_claim_env) sample_world = Ok ((), w') ∧
    invoke sample_claim_env (claim_rewards sample_claim_env) w' = Err "No pending rewards".
Proof.
  destruct (claim_rewards_pays_once sample_claim_env sample_world) as (w' & Hrun & _ & _ & _ & Hagain).
  - apply sample_reachable.
  - reflexivity.
  - reflexivity.
  - reflexivity.
  - vm_compute. reflexivity.
  - by exists w'.
Defined.
