(* ===== verification/KeeperRegistry.v ===== *)
(** The KeeperRegistry contract (contracts/keeper-registry/src): keepers stake
    EGLD, are slashed progressively for failed executions, unstake after a
    cooldown; the owner may delegate the stakes to a staking provider. *)

From S2P Require Import Prelude Sdk Types.

(** ** storage.rs *)

Record State := MkState {
  keepers : gmap address KeeperInfo;
  active_keeper_set : gset address;
  unstake_request_time : gmap address N;
  min_stake : N;
  slash_pct_bps : N;
  cooldown_seconds : N;
  treasury_addr : option address;
  authorized_callers : gset address;
  version : N;
  staking_provider_addr : option address;
  total_yield_generated : N;
  slashed_pending_unbond : gmap address N;
  total_committed_cooldown_egld : N;
  paused_cell : bool;
}.
#[export] Instance State_eta : Settable State := λ s,
  MkState (keepers s) (active_keeper_set s) (unstake_request_time s) (min_stake s)
    (slash_pct_bps s) (cooldown_seconds s) (treasury_addr s) (authorized_callers s) (version s)
    (staking_provider_addr s) (total_yield_generated s) (slashed_pending_unbond s)
    (total_committed_cooldown_egld s) (paused_cell s).

(** ** events.rs *)

Inductive Event : Type :=
| keeper_registered_event (keeper : address)
| keeper_unregistered_event (keeper : address)
| keeper_slashed_event (keeper : address) (amount : N) (reason : bytes).

Canonical K : contract := Contract State Event Empty_set.
Implicit Types (e : env K) (w : world K) (s : State) (Q : unit → world K → Prop) (E : string → Prop).

#[export] Instance pausable : Pausable K := {|
  paused := λ s : storage K, paused_cell (s : State);
  set_paused := λ b (s : storage K), (s : State) <| paused_cell := b |>;
|}.
#[export] Instance pausable_laws : PausableLaws K.
Proof. by split. Qed.

(** Storage of a fresh account: every cell is empty. *)
Definition empty_state : State := MkState ∅ ∅ ∅ 0 0 0 None ∅ 0 None 0 ∅ 0 false.

Section code.
Context `{Sdk}.

(** The body of the [update] closures that release committed EGLD. *)
Definition saturating_release (total x : N) : N := if decide (x ≤ total) then total - x else 0.

(** The slash of [bps] basis points of a stake, capped at the stake: the
    [calculated_slash] and [slash_amount] of [slash_keeper] and
    [record_execution]. *)
Definition capped_slash (stake bps : N) : N :=
  let calculated_slash := stake * bps / BPS_DENOMINATOR in
  if decide (calculated_slash < stake) then calculated_slash else stake.

(** [self.keepers(&k).get()], [self.treasury_addr().get()], [self.staking_provider_addr().get()] *)
Definition get_keeper (k : address) : M K KeeperInfo :=
  s ← get_st; sv_get empty_keeper (keepers s !! k).
Definition get_treasury : M K address :=
  s ← get_st; sv_get empty_address (treasury_addr s).
Definition get_provider : M K address :=
  s ← get_st; sv_get empty_address (staking_provider_addr s).
Definition set_keeper (k : address) (info : KeeperInfo) : M K unit :=
  modify (λ s : State, s <| keepers ::= <[k := info]> |>).

(** ** validation.rs *)

Definition require_authorized_caller e : M K unit :=
  s ← get_st;
  require (caller e ∈ authorized_callers s ∨ caller e = owner_address e) "Not authorized".

(** ** lib.rs *)

Definition init e (ms pct cd : N) (treasury : address) : M K unit :=
  require (pct ≤ 10000) "Slash percentage cannot exceed 100%";;
  require (is_zero treasury = false) "Treasury address cannot be zero";;
  modify (λ s : State, s
    <| min_stake := ms |>
    <| slash_pct_bps := pct |>
    <| cooldown_seconds := cd |>
    <| treasury_addr := Some treasury |>
    <| paused_cell := false |>
    <| version := 1 |>).

(** [set_if_empty] writes only where the cell holds the empty value. *)
Definition upgrade e : M K unit :=
  modify (λ s : State, s <| version ::= λ v, u32_add v 1 |>);;
  modify (λ s : State, s <| cooldown_seconds ::= λ c, if decide (c = 0) then UNSTAKE_COOLDOWN_SECONDS else c |>).

Definition register_keeper e : M K unit :=
  payable_egld e;;
  require_not_paused;;
  let stake := egld_value e in
  s ← get_st;
  require (keepers s !! caller e = None) "Keeper already registered";;
  require (min_stake s ≤ stake) "Stake below minimum";;
  let info := MkKeeperInfo (caller e) stake (timestamp e) 0 0 0 0 true 0 in
  set_keeper (caller e) info;;
  modify (λ s : State, s <| active_keeper_set ::= λ a, {[caller e]} ∪ a |>);;
  emit (keeper_registered_event (caller e)).

Definition add_stake e : M K unit :=
  payable_egld e;;
  require_not_paused;;
  s ← get_st;
  require (keepers s !! caller e ≠ None) "Keeper not registered";;
  info ← get_keeper (caller e);
  set_keeper (caller e) (info <| k_stake ::= λ x, x + egld_value e |>);;
  emit (keeper_registered_event (caller e)).

Definition request_unstake e : M K unit :=
  not_payable e;;
  require_not_paused;;
  info ← get_keeper (caller e);
  require (k_active info = true) "Keeper not active";;
  let info := info <| k_active := false |> in
  set_keeper (caller e) info;;
  modify (λ s : State, s <| active_keeper_set ::= λ a, a ∖ {[caller e]} |>);;
  modify (λ s : State, s <| unstake_request_time ::= <[caller e := timestamp e]> |>);;
  modify (λ s : State, s <| total_committed_cooldown_egld ::= λ t, t + k_stake info |>).

Definition withdraw_stake e : M K unit :=
  not_payable e;;
  info ← get_keeper (caller e);
  require (k_active info = false) "Must request unstake first";;
  s ← get_st;
  let request_time := nget (unstake_request_time s) (caller e) in
  let current := timestamp e in
  require (u64_add request_time (cooldown_seconds s) ≤ current) "Cooldown not elapsed";;
  modify (λ s : State, s <| total_committed_cooldown_egld ::= λ t, saturating_release t (k_stake info) |>);;
  amt ← (if decide (current < u64_add (k_registered_at info) MIN_KEEPER_DAYS_SECONDS)
         then let penalty := k_stake info * EARLY_EXIT_PENALTY_BPS / BPS_DENOMINATOR in
              amt ← biguint_sub (k_stake info) penalty;
              treasury ← get_treasury;
              direct_egld treasury penalty;;
              mret amt
         else mret (k_stake info));
  modify (λ s : State, s <| keepers ::= delete (caller e) |>);;
  modify (λ s : State, s <| unstake_request_time ::= delete (caller e) |>);;
  direct_egld (caller e) amt;;
  emit (keeper_unregistered_event (caller e)).

Definition slash_keeper e (keeper : address) (reason : bytes) : M K unit :=
  not_payable e;;
  require_authorized_caller e;;
  info ← get_keeper keeper;
  s ← get_st;
  let slash_amount := capped_slash (k_stake info) (slash_pct_bps s) in
  stake' ← biguint_sub (k_stake info) slash_amount;
  let info := info <| k_stake := stake' |> <| k_slashed_amount ::= λ x, x + slash_amount |> in
  info ← (if decide (k_stake info < min_stake s)
          then modify (λ s : State, s <| active_keeper_set ::= λ a, a ∖ {[keeper]} |>);;
               mret (info <| k_active := false |>)
          else mret info);
  (if decide (k_active info = false ∧ nget (unstake_request_time s) keeper ≠ 0)
   then modify (λ s : State, s <| total_committed_cooldown_egld ::= λ t, saturating_release t slash_amount |>)
   else mret ());;
  set_keeper keeper info;;
  treasury ← get_treasury;
  let provider := match staking_provider_addr s with None => zero_address | Some p => p end in
  (if is_zero provider
   then direct_egld treasury slash_amount
   else modify (λ s : State, s <| slashed_pending_unbond ::= λ m, <[keeper := nget m keeper + slash_amount]> m |>));;
  emit (keeper_slashed_event keeper slash_amount reason).

(** The strike table of [record_execution]. *)
Definition strike_bps (consecutive_failures : N) : N :=
  if decide (consecutive_failures = 1) then SLASH_STRIKE_1_BPS
  else if decide (consecutive_failures = 2) then SLASH_STRIKE_2_BPS
  else SLASH_STRIKE_3_BPS.
Definition strike_reason (consecutive_failures : N) : bytes :=
  if decide (consecutive_failures = 1) then string_bytes "Strike 1 - 5% slash"
  else if decide (consecutive_failures = 2) then string_bytes "Strike 2 - 15% slash"
  else string_bytes "Strike 3 - 20% slash + expulsion".

Definition record_execution e (keeper : address) (success : bool) : M K unit :=
  not_payable e;;
  require_authorized_caller e;;
  info ← get_keeper keeper;
  let info := info <| k_total_executions ::= λ n, u64_add n 1 |> in
  if success
  then set_keeper keeper (info <| k_successful_execs ::= λ n, u64_add n 1 |>
                               <| k_consecutive_failures := 0 |>)
  else
    let info := info <| k_failed_execs ::= λ n, u64_add n 1 |>
                     <| k_consecutive_failures ::= λ n, u64_add n 1 |> in
    let slash_bps := strike_bps (k_consecutive_failures info) in
    let slash_amount := capped_slash (k_stake info) slash_bps in
    stake' ← biguint_sub (k_stake info) slash_amount;
    let info := info <| k_stake := stake' |> <| k_slashed_amount ::= λ x, x + slash_amount |> in
    treasury ← get_treasury;
    provider ← get_provider;
    (if is_zero provider
     then direct_egld treasury slash_amount
     else modify (λ s : State, s <| slashed_pending_unbond ::= λ m, <[keeper := nget m keeper + slash_amount]> m |>));;
    emit (keeper_slashed_event keeper slash_amount (strike_reason (k_consecutive_failures info)));;
    s ← get_st;
    let maintenance_threshold := min_stake s * 75 / 100 in
    info ← (if decide (MAX_STRIKES ≤ k_consecutive_failures info ∨ k_stake info < maintenance_threshold)
            then modify (λ s : State, s <| active_keeper_set ::= λ a, a ∖ {[keeper]} |>);;
                 mret (info <| k_active := false |>)
            else mret info);
    (if decide (k_active info = false ∧ nget (unstake_request_time s) keeper ≠ 0)
     then modify (λ s : State, s <| total_committed_cooldown_egld ::= λ t, saturating_release t slash_amount |>)
     else mret ());;
    set_keeper keeper info.

Definition delegate_stake e (amt : N) : M K unit :=
  not_payable e;;
  only_owner e;;
  provider ← get_provider;
  require (is_zero provider = false) "Staking provider not set";;
  balance ← get_sc_balance Egld;
  s ← get_st;
  let committed_egld := total_committed_cooldown_egld s in
  let delegable := if decide (committed_egld < balance) then balance - committed_egld else 0 in
  require (amt ≤ delegable) "V3: Would leave insufficient liquidity for pending keeper withdrawals";;
  sync_call e provider (string_bytes "delegate") [] amt;;
  mret ().

Definition undelegate_stake e (amt : N) : M K unit :=
  not_payable e;;
  only_owner e;;
  provider ← get_provider;
  require (is_zero provider = false) "Staking provider not set";;
  sync_call e provider (string_bytes "unDelegate") [ArgNum amt] 0;;
  mret ().

Definition claim_provider_rewards e : M K unit :=
  not_payable e;;
  only_owner e;;
  provider ← get_provider;
  require (is_zero provider = false) "Staking provider not set";;
  initial_balance ← get_sc_balance Egld;
  sync_call e provider (string_bytes "claimRewards") [] 0;;
  final_balance ← get_sc_balance Egld;
  require (initial_balance ≤ final_balance) "V4: Provider claim returned less than initial balance";;
  if decide (initial_balance < final_balance)
  then yield_generated ← biguint_sub final_balance initial_balance;
       modify (λ s : State, s <| total_yield_generated ::= λ t, t + yield_generated |>);;
       treasury ← get_treasury;
       if is_zero treasury then mret () else direct_egld treasury yield_generated
  else mret ().

Definition withdraw_provider_stake e : M K unit :=
  not_payable e;;
  only_owner e;;
  provider ← get_provider;
  require (is_zero provider = false) "Staking provider not set";;
  sync_call e provider (string_bytes "withdraw") [] 0;;
  mret ().

Definition sweep_slashed_debt e (keeper : address) : M K unit :=
  not_payable e;;
  only_owner e;;
  s ← get_st;
  let debt := nget (slashed_pending_unbond s) keeper in
  require (0 < debt) "No unbonded debt";;
  treasury ← get_treasury;
  direct_egld treasury debt;;
  modify (λ s : State, s <| slashed_pending_unbond ::= delete keeper |>).

(** ** config.rs *)

Definition set_min_stake e (value : N) : M K unit :=
  not_payable e;; only_owner e;; modify (λ s : State, s <| min_stake := value |>).

Definition set_slash_pct_bps e (value : N) : M K unit :=
  not_payable e;;
  only_owner e;;
  require (value ≤ BPS_DENOMINATOR) "Slash exceeds 100%";;
  modify (λ s : State, s <| slash_pct_bps := value |>).

Definition set_cooldown_seconds e (value : N) : M K unit :=
  not_payable e;; only_owner e;; modify (λ s : State, s <| cooldown_seconds := value |>).

Definition set_treasury_addr e (addr : address) : M K unit :=
  not_payable e;; only_owner e;; modify (λ s : State, s <| treasury_addr := Some addr |>).

Definition add_authorized_caller e (addr : address) : M K unit :=
  not_payable e;; only_owner e;;
  modify (λ s : State, s <| authorized_callers ::= λ a, {[addr]} ∪ a |>).

Definition remove_authorized_caller e (addr : address) : M K unit :=
  not_payable e;; only_owner e;;
  modify (λ s : State, s <| authorized_callers ::= λ a, a ∖ {[addr]} |>).

Definition set_staking_provider e (addr : address) : M K unit :=
  not_payable e;; only_owner e;; modify (λ s : State, s <| staking_provider_addr := Some addr |>).

(** ** views.rs *)

Definition is_active_keeper s (addr : address) : bool :=
  match keepers s !! addr with None => false | Some info => k_active info end.
Definition get_keeper_info (addr : address) : M K KeeperInfo := get_keeper addr.
Definition get_active_keeper_count s : nat := size (active_keeper_set s).
Definition get_keeper_stake s (addr : address) : N :=
  match keepers s !! addr with None => 0 | Some info => k_stake info end.
Definition get_min_stake s : N := min_stake s.

(** ** The contract as a machine *)

Inductive call : Type :=
| RegisterKeeper
| AddStake
| RequestUnstake
| WithdrawStake
| SlashKeeper (keeper : address) (reason : bytes)
| RecordExecution (keeper : address) (success : bool)
| DelegateStake (amt : N)
| UnDelegateStake (amt : N)
| ClaimProviderRewards
| WithdrawProviderStake
| SweepSlashedDebt (keeper : address)
| SetMinStake (value : N)
| SetSlashPctBps (value : N)
| SetCooldownSeconds (value : N)
| SetTreasuryAddr (addr : address)
| AddAuthorizedCaller (addr : address)
| RemoveAuthorizedCaller (addr : address)
| SetStakingProvider (addr : address)
| Pause
| Unpause
| Upgrade.

Definition dispatch e (c : call) : M K unit :=
  match c with
  | RegisterKeeper => register_keeper e
  | AddStake => add_stake e
  | RequestUnstake => request_unstake e
  | WithdrawStake => withdraw_stake e
  | SlashKeeper k r => slash_keeper e k r
  | RecordExecution k b => record_execution e k b
  | DelegateStake n => delegate_stake e n
  | UnDelegateStake n => undelegate_stake e n
  | ClaimProviderRewards => claim_provider_rewards e
  | WithdrawProviderStake => withdraw_provider_stake e
  | SweepSlashedDebt k => sweep_slashed_debt e k
  | SetMinStake v => set_min_stake e v
  | SetSlashPctBps v => set_slash_pct_bps e v
  | SetCooldownSeconds v => set_cooldown_seconds e v
  | SetTreasuryAddr a => set_treasury_addr e a
  | AddAuthorizedCaller a => add_authorized_caller e a
  | RemoveAuthorizedCaller a => remove_authorized_caller e a
  | SetStakingProvider a => set_staking_provider e a
  | Pause => pause e
  | Unpause => unpause e
  | Upgrade => upgrade e
  end.

Definition deployed (w : world K) : Prop :=
  ∃ (e : env K) ms pct cd treasury (w0 : world K),
    st w0 = empty_state ∧ init e ms pct cd treasury w0 = Ok ((), w).
End code.

(** ** Lemmas *)

Section proofs.
Context `{StrictSdk}.

Lemma wp_get_keeper k (P : KeeperInfo → world K → Prop) E w :
  (∀ info, keepers (st w) !! k = Some info → P info w) → E "storage decode error" →
  wp (get_keeper k) P E w.
Proof.
  intros HQ HE. unfold get_keeper. wp_go; [|done].
  rewrite strict_keeper in *. destruct_or?; [by apply HQ|naive_solver].
Qed.

Lemma wp_get_treasury (P : address → world K → Prop) E w :
  (∀ a, treasury_addr (st w) = Some a → P a w) →
  (treasury_addr (st w) = None → E "storage decode error") →
  wp get_treasury P E w.
Proof.
  intros HQ HE. unfold get_treasury. wp_go; [|auto].
  rewrite strict_address in *. destruct_or?; [by apply HQ|naive_solver].
Qed.

Lemma wp_get_provider (P : address → world K → Prop) E w :
  (∀ a, staking_provider_addr (st w) = Some a → P a w) →
  (staking_provider_addr (st w) = None → E "storage decode error") →
  wp get_provider P E w.
Proof.
  intros HQ HE. unfold get_provider. wp_go; [|auto].
  rewrite strict_address in *. destruct_or?; [by apply HQ|naive_solver].
Qed.

(** Reading cells that are set. *)
Lemma wp_get_keeper_some k info (P : KeeperInfo → world K → Prop) E w :
  keepers (st w) !! k = Some info → P info w → wp (get_keeper k) P E w.
Proof. intros Hl HP. unfold get_keeper. do 2 wp_step. unfold wp, sv_get. by rewrite Hl. Qed.

Lemma wp_get_treasury_some t (P : address → world K → Prop) E w :
  treasury_addr (st w) = Some t → P t w → wp get_treasury P E w.
Proof. intros Hl HP. unfold get_treasury. do 2 wp_step. unfold wp, sv_get. by rewrite Hl. Qed.

Lemma wp_get_provider_some p (P : address → world K → Prop) E w :
  staking_provider_addr (st w) = Some p → P p w → wp get_provider P E w.
Proof. intros Hl HP. unfold get_provider. do 2 wp_step. unfold wp, sv_get. by rewrite Hl. Qed.

Lemma capped_slash_le stake bps : capped_slash stake bps ≤ stake.
Proof. unfold capped_slash. simpl. case_decide; lia. Qed.

Lemma capped_slash_exact stake bps :
  bps ≤ BPS_DENOMINATOR → capped_slash stake bps = stake * bps / BPS_DENOMINATOR.
Proof.
  intros Hb. pose proof (bps_cut_le stake bps Hb) as Hle. unfold BPS_DENOMINATOR in *.
  unfold capped_slash, BPS_DENOMINATOR. simpl. case_decide; lia.
Qed.

(** *** Well-formed registries *)

(** A keeper record is stored under its own address, its counters add up, and
    it is active exactly when it is in the active set. *)
Definition keeper_ok s (k : address) (info : KeeperInfo) : Prop :=
  k_addr info = k ∧
  k_total_executions info = u64_add (k_successful_execs info) (k_failed_execs info) ∧
  (k_active info = true ↔ k ∈ active_keeper_set s).

Definition wf s : Prop :=
  (∀ k info, keepers s !! k = Some info → keeper_ok s k info) ∧
  (∀ k, k ∈ active_keeper_set s → is_Some (keepers s !! k)).

Lemma wf_same s s' :
  keepers s' = keepers s → active_keeper_set s' = active_keeper_set s → wf s → wf s'.
Proof. unfold wf, keeper_ok. by intros -> ->. Qed.

Lemma wf_update s s' k info :
  wf s → keepers s' = <[k := info]> (keepers s) →
  (∀ k', k' ≠ k → k' ∈ active_keeper_set s' ↔ k' ∈ active_keeper_set s) →
  keeper_ok s' k info → wf s'.
Proof.
  intros [Hk Ha] Hs Hother Hinfo. split.
  - intros k' i. rewrite Hs. destruct (decide (k = k')) as [<-|Hne].
    + rewrite lookup_insert_eq. intros ?; by simplify_eq.
    + rewrite lookup_insert_ne by done. intros (?&?&?)%Hk. unfold keeper_ok. rewrite Hother; auto.
  - intros k'. rewrite Hs. destruct (decide (k = k')) as [<-|Hne].
    + rewrite lookup_insert_eq. eauto.
    + rewrite lookup_insert_ne by done. rewrite Hother by done. apply Ha.
Qed.

Lemma wf_delete s s' k info :
  wf s → keepers s !! k = Some info → k_active info = false →
  keepers s' = delete k (keepers s) → active_keeper_set s' = active_keeper_set s → wf s'.
Proof.
  intros [Hk Ha] Hl Hi Hs Hset.
  assert (Hout : k ∉ active_keeper_set s).
  { destruct (Hk _ _ Hl) as (_&_&Hact). rewrite <-Hact. congruence. }
  unfold wf, keeper_ok. rewrite Hs, Hset. split.
  - intros k' i [_ Hl']%lookup_delete_Some. by apply Hk.
  - intros k' Hin. rewrite lookup_delete_ne by congruence. by apply Ha.
Qed.

Ltac keep := simpl in *; eapply wf_same; [| |eassumption]; reflexivity.

Lemma wf_register e w : wf (st w) → wp (register_keeper e) (λ _ w', wf (st w')) any_error w.
Proof.
  intros Hwf. unfold register_keeper, set_keeper. wp_go. apply wp_require_not_paused; [intros _|done].
  wp_go. simpl. eapply wf_update; [exact Hwf|reflexivity| |].
  - simpl. set_solver.
  - unfold keeper_ok; simpl. split_and!; [done|done|set_solver].
Qed.

Lemma wf_add_stake e w : wf (st w) → wp (add_stake e) (λ _ w', wf (st w')) any_error w.
Proof.
  intros Hwf. unfold add_stake, set_keeper. wp_go. apply wp_require_not_paused; [intros _|done].
  wp_go. apply wp_get_keeper; [intros info Hl|done]. wp_go. simpl.
  eapply wf_update; [exact Hwf|reflexivity|done|]. destruct Hwf as [Hk _]. exact (Hk _ _ Hl).
Qed.

Lemma wf_request_unstake e w : wf (st w) → wp (request_unstake e) (λ _ w', wf (st w')) any_error w.
Proof.
  intros Hwf. unfold request_unstake, set_keeper. wp_go. apply wp_require_not_paused; [intros _|done].
  wp_go. apply wp_get_keeper; [intros info Hl|done]. wp_go. simpl.
  eapply wf_update; [exact Hwf|reflexivity|simpl; set_solver|].
  destruct Hwf as [Hk _]. destruct (Hk _ _ Hl) as (?&?&?).
  unfold keeper_ok; simpl. split_and!; [done|done|set_solver].
Qed.

Lemma wf_withdraw e w : wf (st w) → wp (withdraw_stake e) (λ _ w', wf (st w')) any_error w.
Proof.
  intros Hwf. unfold withdraw_stake. wp_go. apply wp_get_keeper; [intros info Hl|done].
  wp_go; [apply wp_get_treasury; [intros treasury Ht|done]; wp_go|];
    simpl in *; eapply (wf_delete (st w)); done.
Qed.

(** Slashing and recording rewrite one record; the record leaves the active set
    exactly when it is deactivated. *)
Lemma keeper_ok_kept s s' k info info' :
  wf s → keepers s !! k = Some info → active_keeper_set s' = active_keeper_set s →
  k_addr info' = k_addr info →
  k_total_executions info' = u64_add (k_successful_execs info') (k_failed_execs info') →
  k_active info' = k_active info → keeper_ok s' k info'.
Proof.
  intros [Hk _] Hl Hset Ha Hc Hact. destruct (Hk _ _ Hl) as (<-&_&Hin).
  unfold keeper_ok. by rewrite Ha, Hact, Hset.
Qed.

Lemma keeper_ok_total s k info :
  wf s → keepers s !! k = Some info →
  k_total_executions info = u64_add (k_successful_execs info) (k_failed_execs info).
Proof. intros [Hk _] Hl. by destruct (Hk _ _ Hl) as (_&?&_). Qed.

Lemma wf_slash e k r w : wf (st w) → wp (slash_keeper e k r) (λ _ w', wf (st w')) any_error w.
Proof.
  intros Hwf. unfold slash_keeper, require_authorized_caller, set_keeper. wp_go.
  apply wp_get_keeper; [intros info Hl|done].
  pose proof (keeper_ok_total _ _ _ Hwf Hl).
  wp_go; (apply wp_get_treasury; [intros treasury Ht|done]); wp_go; simpl in *;
    (eapply wf_update; [exact Hwf|reflexivity|set_solver|]);
    first [by apply (keeper_ok_kept (st w) _ _ info)|
           destruct Hwf as [Hk _]; destruct (Hk _ _ Hl) as (?&?&?);
           unfold keeper_ok; simpl; split_and!; [done|done|set_solver]].
Qed.

Lemma wf_record e k b w : wf (st w) → wp (record_execution e k b) (λ _ w', wf (st w')) any_error w.
Proof.
  intros Hwf. unfold record_execution, require_authorized_caller, set_keeper. wp_go.
  apply wp_get_keeper; [intros info Hl|done].
  pose proof (keeper_ok_total _ _ _ Hwf Hl) as Htot. wp_go.
  - simpl. eapply wf_update; [exact Hwf|reflexivity|done|].
    apply (keeper_ok_kept (st w) _ _ info); try done. simpl. by rewrite u64_add_comm_l, Htot.
  - apply wp_get_treasury; [intros treasury Ht|done]. wp_go.
    apply wp_get_provider; [intros provider Hp|done].
    wp_go; simpl in *;
    (eapply wf_update; [exact Hwf|reflexivity|set_solver|]);
    first [apply (keeper_ok_kept (st w) _ _ info); try done; simpl; by rewrite u64_add_comm_r, Htot|
           destruct Hwf as [Hk _]; destruct (Hk _ _ Hl) as (?&?&?);
           unfold keeper_ok; simpl; split_and!; [done|by rewrite u64_add_comm_r, Htot|set_solver]].
Qed.

(** Every endpoint except the registration and slashing ones leaves the
    keepers and the active set alone. *)
Ltac run_config := unfold delegate_stake, undelegate_stake, claim_provider_rewards,
  withdraw_provider_stake, sweep_slashed_debt, set_min_stake, set_slash_pct_bps,
  set_cooldown_seconds, set_treasury_addr, add_authorized_caller, remove_authorized_caller,
  set_staking_provider, pause, unpause, upgrade;
  repeat first [wp_step; cbv beta
               |apply wp_get_provider; [intros ? ?|intros ?]
               |apply wp_get_treasury; [intros ? ?|intros ?]
               |apply wp_sync_call_pure; [assumption|intros ? ? ? Hsync; pose proof (Hsync Egld)|exact I..]].

Lemma wf_dispatch e c w :
  no_reentrancy e → wf (st w) → wp (dispatch e c) (λ _ w', wf (st w')) any_error w.
Proof.
  intros Hnr Hwf. destruct c; simpl; try (run_config; exact Hwf).
  - by apply wf_register.
  - by apply wf_add_stake.
  - by apply wf_request_unstake.
  - by apply wf_withdraw.
  - by apply wf_slash.
  - by apply wf_record.
Qed.

(** *** Solvency *)

(** What the registry owes: every keeper's stake, and the slashed EGLD still
    to be swept to the treasury. *)
Definition owed s : N := msum k_stake (keepers s) + msum id (slashed_pending_unbond s).
Definition solvent w : Prop := owed (st w) ≤ bal w Egld.

Lemma solvent_register e w : solvent w → wp (register_keeper e) (λ _, solvent) any_error (credit e w).
Proof.
  unfold solvent, owed. intros Hs. unfold register_keeper, set_keeper.
  wp_go. apply wp_require_not_paused; [intros _|done].
  wp_go. simpl in *. rewrite st_credit in *. rewrite credit_egld, msum_insert by done. simpl. lia.
Qed.

Lemma solvent_add_stake e w : solvent w → wp (add_stake e) (λ _, solvent) any_error (credit e w).
Proof.
  unfold solvent, owed. intros Hs. unfold add_stake, set_keeper.
  wp_go. apply wp_require_not_paused; [intros _|done].
  wp_go. apply wp_get_keeper; [intros info Hl|done]. wp_go. simpl in *.
  rewrite st_credit in *. rewrite credit_egld.
  pose proof (msum_update_Some k_stake _ _ _ (info <| k_stake ::= λ x, x + egld_value e |>) Hl).
  simpl in *. lia.
Qed.

Lemma solvent_request_unstake e w :
  solvent w → wp (request_unstake e) (λ _, solvent) any_error (credit e w).
Proof.
  unfold solvent, owed. intros Hs. unfold request_unstake, set_keeper.
  wp_go. apply wp_require_not_paused; [intros _|done].
  wp_go. apply wp_get_keeper; [intros info Hl|done]. wp_go. simpl in *.
  rewrite st_credit in *. rewrite credit_egld.
  pose proof (msum_update_Some k_stake _ _ _ (info <| k_active := false |>) Hl). simpl in *. lia.
Qed.

Lemma solvent_withdraw e w :
  solvent w → wp (withdraw_stake e) (λ _, solvent) any_error (credit e w).
Proof.
  unfold solvent, owed. intros Hs. unfold withdraw_stake.
  wp_go. apply wp_get_keeper; [intros info Hl|done].
  rewrite st_credit in Hl. pose proof (msum_delete_Some k_stake _ _ _ Hl).
  wp_go; [apply wp_get_treasury; [intros treasury Ht|done]; wp_go|];
    simpl in *; rewrite ?bal_insert_eq, ?st_credit, ?credit_egld in *; lia.
Qed.

Lemma solvent_slash e k r w :
  solvent w → wp (slash_keeper e k r) (λ _, solvent) any_error (credit e w).
Proof.
  unfold solvent, owed. intros Hs. unfold slash_keeper, require_authorized_caller, set_keeper. wp_go.
  apply wp_get_keeper; [intros info Hl|done].
  rewrite st_credit in *.
  wp_go; (apply wp_get_treasury; [intros treasury Ht|done]); wp_go; simpl in *;
    rewrite ?bal_insert_eq, ?msum_add, ?st_credit, ?credit_egld in *;
    match goal with |- context [<[k := ?i]> _] =>
      pose proof (msum_update_Some k_stake _ _ _ i Hl) end; simpl in *; lia.
Qed.

Lemma solvent_record e k b w :
  solvent w → wp (record_execution e k b) (λ _, solvent) any_error (credit e w).
Proof.
  unfold solvent, owed. intros Hs. unfold record_execution, require_authorized_caller, set_keeper. wp_go.
  apply wp_get_keeper; [intros info Hl|done]. rewrite st_credit in *. wp_go.
  - simpl in *. rewrite ?st_credit, ?credit_egld in *.
    match goal with |- context [<[k := ?i]> _] =>
      pose proof (msum_update_Some k_stake _ _ _ i Hl) end. simpl in *. lia.
  - apply wp_get_treasury; [intros treasury Ht|done]. wp_go.
    apply wp_get_provider; [intros provider Hp|done].
    wp_go; simpl in *; rewrite ?bal_insert_eq, ?msum_add, ?st_credit, ?credit_egld in *;
    match goal with |- context [<[k := ?i]> _] =>
      pose proof (msum_update_Some k_stake _ _ _ i Hl) end; simpl in *; lia.
Qed.

(** Transactions with the stakes kept in the contract. *)
Definition undelegated e (c : call) w : Prop :=
  no_reentrancy e ∧ ∀ n, c ≠ DelegateStake n.

Lemma solvent_dispatch e c w :
  solvent w → undelegated e c w → wp (dispatch e c) (λ _, solvent) any_error (credit e w).
Proof.
  intros Hs [Hnr Hc]. destruct c; simpl;
    try (unfold solvent, owed in *; run_config; simpl in *;
         rewrite ?bal_insert_eq, ?st_credit, ?credit_egld in *; lia).
  - by apply solvent_register.
  - by apply solvent_add_stake.
  - by apply solvent_request_unstake.
  - by apply solvent_withdraw.
  - by apply solvent_slash.
  - by apply solvent_record.
  - by destruct (Hc amt).
  - unfold solvent, owed in *. run_config. simpl in *.
    pose proof (msum_clear (slashed_pending_unbond (st w)) keeper).
    rewrite ?bal_insert_eq, ?st_credit, ?credit_egld in *. lia.
Qed.

(** *** What one call does *)

Definition authorized e s : Prop := caller e ∈ authorized_callers s ∨ caller e = owner_address e.
Definition no_payment e : Prop := egld_value e = 0 ∧ esdt_transfers e = [].

(** A keeper record after a successful or failed execution. *)
Definition after_success (info : KeeperInfo) : KeeperInfo :=
  info <| k_total_executions ::= λ n, u64_add n 1 |>
       <| k_successful_execs ::= λ n, u64_add n 1 |>
       <| k_consecutive_failures := 0 |>.
Definition failure_slash (info : KeeperInfo) : N :=
  k_stake info * strike_bps (u64_add (k_consecutive_failures info) 1) / BPS_DENOMINATOR.
Definition after_failure (threshold : N) (info : KeeperInfo) : KeeperInfo :=
  let strikes := u64_add (k_consecutive_failures info) 1 in
  let slash := failure_slash info in
  info <| k_total_executions ::= λ n, u64_add n 1 |>
       <| k_failed_execs ::= λ n, u64_add n 1 |>
       <| k_consecutive_failures := strikes |>
       <| k_stake := k_stake info - slash |>
       <| k_slashed_amount ::= λ x, x + slash |>
       <| k_active := k_active info &&
            negb (bool_decide (MAX_STRIKES ≤ strikes ∨ k_stake info - slash < threshold)) |>.

Lemma strike_bps_le n : strike_bps n ≤ BPS_DENOMINATOR.
Proof.
  unfold strike_bps, SLASH_STRIKE_1_BPS, SLASH_STRIKE_2_BPS, SLASH_STRIKE_3_BPS, BPS_DENOMINATOR.
  repeat case_decide; lia.
Qed.

Lemma stake_le_bal w k info : solvent w → keepers (st w) !! k = Some info → k_stake info ≤ bal w Egld.
Proof.
  unfold solvent, owed. intros Hs Hl.
  pose proof (msum_lookup_le k_stake _ _ _ Hl). lia.
Qed.

Lemma wp_record_success e k info w :
  authorized e (st w) → no_payment e → keepers (st w) !! k = Some info →
  wp (record_execution e k true)
    (λ _ w', w' = w <| st ::= λ s : State, s <| keepers ::= <[k := after_success info]> |> |>)
    no_error w.
Proof.
  intros Hauth Hpay Hl. unfold record_execution, require_authorized_caller, set_keeper.
  wp_go; try by auto. apply (wp_get_keeper_some _ info); [done|]. by wp_go.
Qed.

Lemma capped_slash_failure info :
  capped_slash (k_stake info) (strike_bps (u64_add (k_consecutive_failures info) 1)) =
  failure_slash info.
Proof. apply capped_slash_exact, strike_bps_le. Qed.

Lemma failure_slash_le info : failure_slash info ≤ k_stake info.
Proof. rewrite <-capped_slash_failure. apply capped_slash_le. Qed.

(** The record [record_execution] writes on a failure is [after_failure]. *)
Lemma after_failure_expelled threshold info :
  MAX_STRIKES ≤ u64_add (k_consecutive_failures info) 1 ∨ k_stake info - failure_slash info < threshold →
  info <| k_total_executions ::= λ n, u64_add n 1 |> <| k_failed_execs ::= λ n, u64_add n 1 |>
       <| k_consecutive_failures ::= λ n, u64_add n 1 |>
       <| k_stake := k_stake info - failure_slash info |>
       <| k_slashed_amount ::= λ x, x + failure_slash info |> <| k_active := false |> =
  after_failure threshold info.
Proof.
  intros Ho. unfold after_failure. simpl. rewrite bool_decide_eq_true_2 by done.
  simpl. by rewrite andb_false_r.
Qed.

Lemma after_failure_kept threshold info :
  ¬ (MAX_STRIKES ≤ u64_add (k_consecutive_failures info) 1 ∨ k_stake info - failure_slash info < threshold) →
  info <| k_total_executions ::= λ n, u64_add n 1 |> <| k_failed_execs ::= λ n, u64_add n 1 |>
       <| k_consecutive_failures ::= λ n, u64_add n 1 |>
       <| k_stake := k_stake info - failure_slash info |>
       <| k_slashed_amount ::= λ x, x + failure_slash info |> =
  after_failure threshold info.
Proof.
  intros Ho. unfold after_failure. simpl. rewrite bool_decide_eq_false_2 by done.
  simpl. by rewrite andb_true_r.
Qed.

(** The storage after a recorded failure of keeper [k], with provider [p]: its
    record; the slash as its debt when there is a provider; out of the active
    set when expelled; and, when its stake was already committed to a cooldown,
    the commitment reduced by the slash. *)
Definition failure_state (k : address) (info : KeeperInfo) (p : address) s : State :=
  let info' := after_failure (min_stake s * 75 / 100) info in
  let slash := failure_slash info in
  s <| keepers ::= <[k := info']> |>
    <| slashed_pending_unbond ::= if is_zero p then id else λ m, <[k := nget m k + slash]> m |>
    <| active_keeper_set ::=
         if decide (MAX_STRIKES ≤ k_consecutive_failures info' ∨ k_stake info' < min_stake s * 75 / 100)
         then λ a, a ∖ {[k]} else id |>
    <| total_committed_cooldown_egld ::=
         if decide (k_active info' = false ∧ nget (unstake_request_time s) k ≠ 0)
         then λ total, saturating_release total slash else id |>.

(** What a recorded failure does to the registry, with the treasury [t] and
    the provider [p] configured. *)
Definition failure_recorded (k : address) (info : KeeperInfo) (t p : address) (w w' : world K) : Prop :=
  let slash := failure_slash info in
  let strikes := k_consecutive_failures (after_failure (min_stake (st w) * 75 / 100) info) in
  let ev := Emit (keeper_slashed_event k slash (strike_reason strikes)) in
  st w' = failure_state k info p (st w) ∧
  if is_zero p
  then log w' = log w ++ [Send t Egld slash; ev] ∧ bal w' Egld + slash = bal w Egld
  else log w' = log w ++ [ev] ∧ bal w' Egld = bal w Egld.

Lemma failure_recorded_kept k info t p w w' :
  failure_recorded k info t p w w' →
  keepers (st w') = <[k := after_failure (min_stake (st w) * 75 / 100) info]> (keepers (st w)) ∧
  min_stake (st w') = min_stake (st w) ∧ authorized_callers (st w') = authorized_callers (st w) ∧
  treasury_addr (st w') = treasury_addr (st w) ∧ staking_provider_addr (st w') = staking_provider_addr (st w).
Proof. by intros [-> _]. Qed.

Lemma wp_record_failure e k info t p w :
  authorized e (st w) → no_payment e → keepers (st w) !! k = Some info →
  k_stake info ≤ bal w Egld → treasury_addr (st w) = Some t → staking_provider_addr (st w) = Some p →
  wp (record_execution e k false) (λ _ w', failure_recorded k info t p w w') no_error w.
Proof.
  intros Hauth Hpay Hl Hbal Ht Hp. pose proof (failure_slash_le info) as Hle.
  unfold record_execution, require_authorized_caller, set_keeper. wp_go; try by auto.
  apply (wp_get_keeper_some _ info); [done|].
  wp_go; simpl in *; rewrite !capped_slash_failure in *; [|lia].
  apply (wp_get_treasury_some t); [done|]. wp_go. apply (wp_get_provider_some p); [done|].
  unfold failure_recorded, failure_state. wp_go; simpl in *; try lia.
  all: split_and!; try done; try by rewrite <-app_assoc.
  all: try (rewrite bal_insert_eq; lia).
  all: match goal with
       | Ho : MAX_STRIKES ≤ _ ∨ _ |- _ =>
           rewrite (decide_True _ _ Ho), (bool_decide_eq_true_2 _ Ho), andb_false_r, <-(after_failure_expelled _ _ Ho)
       | Ho : ¬ (MAX_STRIKES ≤ _ ∨ _) |- _ =>
           rewrite (decide_False _ _ Ho), (bool_decide_eq_false_2 _ Ho), andb_true_r, <-(after_failure_kept _ _ Ho)
       end.
  all: first [by rewrite decide_True by done|by rewrite decide_False by done].
Qed.

(** The same as a transaction: reports carry no payment. *)
Lemma record_failure_runs e k info t p w :
  authorized e (st w) → no_payment e → keepers (st w) !! k = Some info →
  k_stake info ≤ bal w Egld → treasury_addr (st w) = Some t → staking_provider_addr (st w) = Some p →
  ∃ w', invoke e (record_execution e k false) w = Ok ((), w') ∧ failure_recorded k info t p w w'.
Proof.
  intros Hauth Hpay Hl Hbal Ht Hp. destruct Hpay as [Hv Hesdt] eqn:Heq.
  apply wp_runs, wp_invoke.
  eapply wp_mono; [apply (wp_record_failure e k info t p); rewrite ?st_credit; try done|].
  - by rewrite credit_nothing.
  - intros [] w'. unfold failure_recorded. rewrite ?st_credit, log_credit, credit_nothing; done.
Qed.

Lemma failure_recorded_stake k info t p w w' :
  failure_recorded k info t p w w' → k_stake info ≤ bal w Egld →
  k_stake (after_failure (min_stake (st w) * 75 / 100) info) ≤ bal w' Egld.
Proof.
  intros [_ Hrest] Hle. pose proof (failure_slash_le info). simpl.
  destruct (is_zero p); lia.
Qed.

(** *** Runs without a staking provider *)

(** No failure has been recorded. *)
Definition unstruck s : Prop :=
  staking_provider_addr s = None ∧
  ∀ k info, keepers s !! k = Some info → k_failed_execs info = 0 ∧ k_consecutive_failures info = 0.

Lemma unstruck_update s k info info' :
  unstruck s → k_failed_execs info' = 0 → k_consecutive_failures info' = 0 →
  keepers s !! k = Some info →
  ∀ k' i, (<[k := info']> (keepers s) : gmap address KeeperInfo) !! k' = Some i → k_failed_execs i = 0 ∧ k_consecutive_failures i = 0.
Proof.
  intros [_ Hs] Hf Hc _ k' i [[<- <-]|[_ Hl]]%lookup_insert_Some; [done|by apply (Hs k')].
Qed.

Definition no_provider e (c : call) w : Prop :=
  no_reentrancy e ∧ ∀ a, c ≠ SetStakingProvider a.

Lemma unstruck_dispatch e c w :
  unstruck (st w) → no_provider e c w → wp (dispatch e c) (λ _ w', unstruck (st w')) any_error w.
Proof.
  intros Hu [Hnr Hc]. pose proof Hu as [Hp Hk].
  destruct c; simpl; try (run_config; exact Hu).
  - unfold register_keeper, set_keeper. wp_go. apply wp_require_not_paused; [intros _|done]. wp_go.
    split; [done|]. simpl. intros k' i [[<- <-]|[_ Hl]]%lookup_insert_Some; [done|by apply (Hk k')].
  - unfold add_stake, set_keeper. wp_go. apply wp_require_not_paused; [intros _|done]. wp_go.
    apply wp_get_keeper; [intros info Hl|done]. wp_go. destruct (Hk _ _ Hl).
    split; [done|]. simpl. by eapply unstruck_update.
  - unfold request_unstake, set_keeper. wp_go. apply wp_require_not_paused; [intros _|done]. wp_go.
    apply wp_get_keeper; [intros info Hl|done]. wp_go. destruct (Hk _ _ Hl).
    split; [done|]. simpl. by eapply unstruck_update.
  - unfold withdraw_stake. wp_go. apply wp_get_keeper; [intros info Hl|done].
    assert (Hd : ∀ k i, delete (caller e) (keepers (st w)) !! k = Some i →
      k_failed_execs i = 0 ∧ k_consecutive_failures i = 0).
    { intros k i [_ Hl']%lookup_delete_Some. by apply (Hk k). }
    wp_go; [apply wp_get_treasury; [intros treasury Ht|done]; wp_go|]; by split.
  - unfold slash_keeper, require_authorized_caller, set_keeper. wp_go.
    apply wp_get_keeper; [intros info Hl|done]. destruct (Hk _ _ Hl).
    wp_go; (apply wp_get_treasury; [intros treasury Ht|done]); wp_go; (split; [done|]); simpl;
      by eapply unstruck_update.
  - unfold record_execution, require_authorized_caller, set_keeper. wp_go.
    apply wp_get_keeper; [intros info Hl|done]. destruct (Hk _ _ Hl). wp_go.
    + split; [done|]. simpl. by eapply unstruck_update.
    + apply wp_get_treasury; [intros treasury Ht|done]. wp_go.
      apply wp_get_provider; [intros provider Hp'|done]. simpl in *. congruence.
  - by destruct (Hc addr).
Qed.

(** *** Withdrawals *)

(** A withdrawal whose cooldown has elapsed pays the whole stake out, the
    early-exit penalty to the treasury and the rest to the keeper. *)
Definition exit_penalty (now : N) (info : KeeperInfo) : N :=
  if decide (now < u64_add (k_registered_at info) MIN_KEEPER_DAYS_SECONDS)
  then k_stake info * EARLY_EXIT_PENALTY_BPS / BPS_DENOMINATOR else 0.

Lemma exit_penalty_le now info : exit_penalty now info ≤ k_stake info.
Proof.
  unfold exit_penalty. case_decide; [|lia].
  apply bps_cut_le. unfold EARLY_EXIT_PENALTY_BPS. lia.
Qed.

Lemma withdraw_stake_runs e info t w :
  solvent w → no_payment e → keepers (st w) !! caller e = Some info → k_active info = false →
  treasury_addr (st w) = Some t →
  u64_add (nget (unstake_request_time (st w)) (caller e)) (cooldown_seconds (st w)) ≤ timestamp e →
  ∃ w', invoke e (withdraw_stake e) w = Ok ((), w') ∧
    let penalty := exit_penalty (timestamp e) info in
    keepers (st w') !! caller e = None ∧
    total_committed_cooldown_egld (st w') =
      saturating_release (total_committed_cooldown_egld (st w)) (k_stake info) ∧
    bal w' Egld + k_stake info = bal w Egld ∧
    log w' = log w ++
      (if decide (timestamp e < u64_add (k_registered_at info) MIN_KEEPER_DAYS_SECONDS)
       then [Send t Egld penalty] else []) ++
      [Send (caller e) Egld (k_stake info - penalty); Emit (keeper_unregistered_event (caller e))].
Proof.
  intros Hs Hpay Hl Hact Ht Hcool. pose proof Hpay as [Hv Hesdt].
  pose proof (stake_le_bal w _ _ Hs Hl) as Hbal.
  pose proof (exit_penalty_le (timestamp e) info) as Hpen. unfold exit_penalty in *.
  apply wp_runs. unfold withdraw_stake. wp_go; [|done].
  apply (wp_get_keeper_some _ info); [by rewrite st_credit|].
  wp_go; rewrite ?st_credit in *; try done.
  all: rewrite ?credit_egld, ?Hv in *.
  1: apply (wp_get_treasury_some t); [done|].
  all: wp_go; simpl in *; rewrite ?bal_insert_eq, ?st_credit, ?log_credit, ?credit_egld in *; try lia.
  all: split_and!; [apply lookup_delete_eq|done|lia|].
  - by rewrite <-!app_assoc.
  - by rewrite <-!app_assoc, N.sub_0_r.
Qed.
End proofs.
