(* ===== verification/RegistryProps.v ===== *)
(** Properties of the KeeperRegistry contract, with their witnesses. *)

From S2P Require Import Prelude Sdk Types KeeperRegistry.

Section properties.
Context `{StrictSdk}.

(** States reachable with no reentrant callee. *)
Definition registry_reachable : world K → Prop :=
  reachable dispatch deployed (λ e _ _, no_reentrancy e).
(** ... when moreover the stakes are never delegated. *)
Definition liquid_reachable : world K → Prop := reachable dispatch deployed undelegated.
(** ... when no staking provider is ever configured. *)
Definition providerless_reachable : world K → Prop := reachable dispatch deployed no_provider.

Lemma deployed_state w : deployed w → keepers (st w) = ∅ ∧ active_keeper_set (st w) = ∅ ∧
  slashed_pending_unbond (st w) = ∅ ∧ staking_provider_addr (st w) = None.
Proof.
  intros (e & ms & pct & cd & t & w0 & Hst & Hi). revert Hi.
  apply (wp_ok _ (λ _ w', keepers (st w') = ∅ ∧ active_keeper_set (st w') = ∅ ∧
    slashed_pending_unbond (st w') = ∅ ∧ staking_provider_addr (st w') = None) any_error).
  unfold init. wp_go. simpl. by rewrite Hst.
Qed.

Lemma liquid_solvent w : liquid_reachable w → solvent w.
Proof.
  apply reachable_inv.
  - intros w' (Hk & _ & Hs & _)%deployed_state. unfold solvent, owed.
    rewrite Hk, Hs, !msum_empty. lia.
  - intros w' e c Hw Hc. by apply solvent_dispatch.
  - unfold solvent. intros w' b Hw Hb. specialize (Hb Egld). simpl. lia.
Qed.

(** C23: the registry stays well formed.  In every state reached by
    transactions whose callees may send it EGLD, as the staking provider does
    when it pays rewards or returns stake, but do not call it back, each keeper
    record sits under its own address, its total equals its successes plus its
    failures (as u64), it is flagged active exactly when the address is in the
    active set, and the active set names only registered keepers. *)
Theorem registry_well_formed w : registry_reachable w → wf (st w).
Proof.
  apply (reachable_inv _ _ _ (λ w, wf (st w))).
  - intros w' (Hk & Ha & _)%deployed_state. unfold wf. rewrite Hk, Ha. set_solver.
  - intros w' e c Hw Hnr. by apply wf_dispatch.
  - done.
Qed.

(** C6: the registry is solvent.  As long as the stakes are not delegated to a
    provider, the EGLD balance covers every keeper's stake plus the slashed
    EGLD still to be swept to the treasury, in every reachable state (whose
    callees do not call back). *)
Theorem registry_solvent w :
  liquid_reachable w → msum k_stake (keepers (st w)) + msum id (slashed_pending_unbond (st w)) ≤ bal w Egld.
Proof. apply liquid_solvent. Qed.

Lemma record_runs e k info t p b w :
  liquid_reachable w → authorized e (st w) → no_payment e → keepers (st w) !! k = Some info →
  treasury_addr (st w) = Some t → staking_provider_addr (st w) = Some p →
  ∃ w', invoke e (record_execution e k b) w = Ok ((), w') ∧
    if b
    then st w' = (st w : State) <| keepers ::= <[k := after_success info]> |> ∧
         log w' = log w ∧ bal w' Egld = bal w Egld
    else failure_recorded k info t p w w'.
Proof.
  intros Hr Hauth Hpay Hl Ht Hp. destruct b.
  - apply wp_runs, wp_invoke.
    eapply wp_mono; [by apply (wp_record_success e k info)|].
    intros [] w' ->. destruct Hpay. simpl. by rewrite log_credit, credit_nothing.
  - apply record_failure_runs; try done.
    eapply stake_le_bal; [by apply liquid_solvent|done].
Qed.

(** C5: [recordExecution] on every branch.  In a registry reached without
    delegating stake, with the treasury and the staking provider's cells both
    set, an authorized report, without payment, of a registered keeper always
    goes through.  Success bumps the counters, resets the strikes and touches
    nothing else of the storage, the log or the EGLD balance.  Failure applies
    the strike table (5%, 15%, 20% of the current stake) to the record, sends
    the slash to the treasury when the stored provider is the zero address and
    books it as debt of the keeper otherwise, takes the keeper out of the
    active set and marks it inactive exactly at the third strike or below 75%
    of the minimum stake, releases the slash from the committed cooldown funds
    exactly when the keeper is then inactive with an unstake request, and
    changes nothing else of the storage.  (An empty provider cell makes a
    failing report abort: [no_strikes_without_provider].) *)
Theorem record_execution_effect e k info t p b w :
  liquid_reachable w → authorized e (st w) → no_payment e → keepers (st w) !! k = Some info →
  treasury_addr (st w) = Some t → staking_provider_addr (st w) = Some p →
  ∃ w', invoke e (record_execution e k b) w = Ok ((), w') ∧
    if b
    then st w' = (st w : State) <| keepers ::= <[k := after_success info]> |> ∧
         log w' = log w ∧ bal w' Egld = bal w Egld
    else failure_recorded k info t p w w'.
Proof. apply record_runs. Qed.

Lemma reachable_wf w : registry_reachable w → wf (st w).
Proof.
  apply (reachable_inv _ _ _ (λ w, wf (st w))).
  - intros w' (Hk & Ha & _)%deployed_state. unfold wf. rewrite Hk, Ha. set_solver.
  - intros w' e c Hw Hnr. by apply wf_dispatch.
  - done.
Qed.

(** The first, second and third strike on a record. *)
Lemma strike_kept thr info n bps S' :
  k_consecutive_failures info = n → n < 2 → strike_bps (n + 1) = bps →
  k_stake info - k_stake info * bps / 10000 = S' → thr ≤ S' →
  let info' := after_failure thr info in
  k_stake info' = S' ∧ k_consecutive_failures info' = n + 1 ∧ k_active info' = k_active info.
Proof.
  intros Hn Hlt Hbps HS Hthr. unfold after_failure, failure_slash. simpl.
  rewrite Hn, u64_add_small by (unfold u64_mod; lia). rewrite Hbps.
  unfold BPS_DENOMINATOR. rewrite HS. split_and!; [done|done|].
  rewrite bool_decide_eq_false_2; [by rewrite andb_true_r|]. unfold MAX_STRIKES. lia.
Qed.

Lemma strike_expels thr info :
  k_consecutive_failures info = 2 →
  let info' := after_failure thr info in
  k_stake info' = k_stake info - k_stake info * 2000 / 10000 ∧ k_active info' = false.
Proof.
  intros Hn. unfold after_failure, failure_slash. simpl.
  rewrite Hn, u64_add_small by (unfold u64_mod; lia). split; [done|].
  rewrite bool_decide_eq_true_2; [by rewrite andb_false_r|]. unfold MAX_STRIKES. left. lia.
Qed.

(** Two strikes leave at least three quarters of the minimum stake. *)
Lemma two_strikes_margin m S :
  m ≤ S → let s1 := S - S * 500 / 10000 in
  m * 75 / 100 ≤ s1 ∧ m * 75 / 100 ≤ s1 - s1 * 1500 / 10000.
Proof.
  intros Hm s1.
  pose proof (div_mul_le (m * 75) 100). pose proof (div_mul_le (S * 500) 10000).
  pose proof (div_mul_le (s1 * 1500) 10000). lia.
Qed.

Lemma recorded_views k info t p w w' :
  failure_recorded k info t p w w' →
  let info' := after_failure (min_stake (st w) * 75 / 100) info in
  is_active_keeper (st w') k = k_active info' ∧ get_keeper_stake (st w') k = k_stake info' ∧
  keepers (st w') !! k = Some info'.
Proof.
  intros (Hk & _)%failure_recorded_kept info'. unfold is_active_keeper, get_keeper_stake.
  by rewrite Hk, lookup_insert_eq.
Qed.

Lemma record_failure_wf e k w w' :
  wf (st w) → invoke e (record_execution e k false) w = Ok ((), w') → wf (st w').
Proof.
  intros Hwf. apply (wp_ok _ (λ _ w', wf (st w')) any_error). apply wp_invoke, wf_record.
  by rewrite st_credit.
Qed.

(** Progressive slashing.  An active keeper with no strikes whose stake
    meets the minimum loses 5% and then 15% of what is left, and stays active
    through both strikes; the third consecutive failure takes 20% and expels
    it from the active set.  Every one of the three reports goes through. *)
Theorem three_strikes_expel e k info t p w :
  registry_reachable w → authorized e (st w) → no_payment e → keepers (st w) !! k = Some info →
  k_active info = true → k_consecutive_failures info = 0 →
  min_stake (st w) ≤ k_stake info → k_stake info ≤ bal w Egld →
  treasury_addr (st w) = Some t → staking_provider_addr (st w) = Some p →
  let s1 := k_stake info - k_stake info * 500 / 10000 in
  let s2 := s1 - s1 * 1500 / 10000 in
  let s3 := s2 - s2 * 2000 / 10000 in
  ∃ w1 w2 w3,
    invoke e (record_execution e k false) w = Ok ((), w1) ∧
    invoke e (record_execution e k false) w1 = Ok ((), w2) ∧
    invoke e (record_execution e k false) w2 = Ok ((), w3) ∧
    is_active_keeper (st w1) k = true ∧ get_keeper_stake (st w1) k = s1 ∧
    is_active_keeper (st w2) k = true ∧ get_keeper_stake (st w2) k = s2 ∧
    is_active_keeper (st w3) k = false ∧ get_keeper_stake (st w3) k = s3 ∧
    k ∉ active_keeper_set (st w3).
Proof.
  intros Hr Hauth Hpay Hl Hact Hcf Hmin Hbal Ht Hp s1 s2 s3.
  apply reachable_wf in Hr. destruct (two_strikes_margin _ _ Hmin) as [Hm1 Hm2].
  destruct (record_failure_runs e k info t p w) as (w1 & Hrun1 & Hrec1); [done..|].
  pose proof (recorded_views _ _ _ _ _ _ Hrec1) as (Hv1 & Hs1 & Hl1).
  pose proof (failure_recorded_stake _ _ _ _ _ _ Hrec1 Hbal) as Hbal1.
  apply failure_recorded_kept in Hrec1 as (_ & Hmin1 & Hauth1 & Ht1 & Hp1). rewrite Ht in Ht1. rewrite Hp in Hp1.
  set (info1 := after_failure _ info) in *.
  destruct (strike_kept (min_stake (st w) * 75 / 100) info 0 500 s1) as (HS1 & Hc1 & Ha1);
    [done..|]. fold info1 in HS1, Hc1, Ha1.
  destruct (record_failure_runs e k info1 t p w1) as (w2 & Hrun2 & Hrec2);
    [by unfold authorized; rewrite Hauth1|done..|].
  pose proof (recorded_views _ _ _ _ _ _ Hrec2) as (Hv2 & Hs2 & Hl2).
  pose proof (failure_recorded_stake _ _ _ _ _ _ Hrec2 Hbal1) as Hbal2.
  apply failure_recorded_kept in Hrec2 as (_ & Hmin2 & Hauth2 & Ht2 & Hp2). rewrite Ht1 in Ht2. rewrite Hp1 in Hp2. rewrite Hmin1 in *.
  set (info2 := after_failure _ info1) in *.
  destruct (strike_kept (min_stake (st w) * 75 / 100) info1 1 1500 s2) as (HS2 & Hc2 & Ha2);
    [done|lia|done|by rewrite HS1|done|].
  fold info2 in HS2, Hc2, Ha2.
  destruct (record_failure_runs e k info2 t p w2) as (w3 & Hrun3 & Hrec3);
    [by unfold authorized; rewrite Hauth2, Hauth1|done..|].
  pose proof (recorded_views _ _ _ _ _ _ Hrec3) as (Hv3 & Hs3 & Hl3). rewrite Hmin2 in *.
  destruct (strike_expels (min_stake (st w) * 75 / 100) info2 Hc2) as (HS3 & Ha3).
  exists w1, w2, w3. rewrite Hv1, Hv2, Hv3, Hs1, Hs2, Hs3.
  split_and!; try congruence; [by rewrite HS3, HS2|].
  assert (Hwf3 : wf (st w3)) by (eapply record_failure_wf; [|done]; eapply record_failure_wf; [|done];
      by eapply record_failure_wf).
  destruct Hwf3 as [Hk3 _]. destruct (Hk3 _ _ Hl3) as (_ & _ & Hin). rewrite <-Hin. congruence.
Qed.

(** Without a staking provider no failure is ever recorded.  [init] leaves
    the provider cell empty and [recordExecution] reads it unguarded, so until
    the owner calls [setStakingProvider] every failing report of a registered
    keeper aborts, and in every state reachable before that call no keeper has
    a failed execution or a strike. *)
Theorem no_strikes_without_provider w :
  providerless_reachable w →
  (∀ k info, keepers (st w) !! k = Some info →
    k_failed_execs info = 0 ∧ k_consecutive_failures info = 0) ∧
  (∀ e k info t, authorized e (st w) → no_payment e → keepers (st w) !! k = Some info →
    treasury_addr (st w) = Some t →
    invoke e (record_execution e k false) w = Err "storage decode error").
Proof.
  intros Hr. assert (Hu : unstruck (st w)).
  { revert Hr. apply (reachable_inv _ _ _ (λ w, unstruck (st w))).
    - intros w' (Hk & _ & _ & Hp)%deployed_state. split; [done|]. intros k i. by rewrite Hk.
    - intros w' e c Hw Hc. by apply unstruck_dispatch.
    - done. }
  destruct Hu as [Hp Hk]. split; [exact Hk|].
  intros e k info t Hauth Hpay Hl Ht. apply wp_fails, wp_invoke.
  unfold record_execution, require_authorized_caller. wp_go; rewrite ?st_credit in *; try by naive_solver.
  apply (wp_get_keeper_some _ info); [by rewrite st_credit|]. wp_go.
  - apply (wp_get_treasury_some t); [by rewrite st_credit|]. wp_go.
    apply wp_get_provider; rewrite st_credit; [congruence|done].
  - pose proof (capped_slash_le (k_stake info) (strike_bps (u64_add (k_consecutive_failures info) 1))).
    simpl in *. lia.
Qed.

(** A withdrawal pays the whole stake.  Once request time plus cooldown has
    passed, an inactive keeper of a solvent registry can always withdraw: the
    record is removed, the stake leaves the contract, split between the 5%
    early-exit penalty (before 30 days) to the treasury and the rest to the
    keeper, and a second withdrawal is refused. *)
Theorem withdraw_stake_pays e info t w :
  liquid_reachable w → no_payment e → keepers (st w) !! caller e = Some info →
  k_active info = false → treasury_addr (st w) = Some t →
  u64_add (nget (unstake_request_time (st w)) (caller e)) (cooldown_seconds (st w)) ≤ timestamp e →
  ∃ w', invoke e (withdraw_stake e) w = Ok ((), w') ∧
    let penalty := exit_penalty (timestamp e) info in
    bal w' Egld + k_stake info = bal w Egld ∧
    log w' = log w ++
      (if decide (timestamp e < u64_add (k_registered_at info) MIN_KEEPER_DAYS_SECONDS)
       then [Send t Egld penalty] else []) ++
      [Send (caller e) Egld (k_stake info - penalty); Emit (keeper_unregistered_event (caller e))] ∧
    invoke e (withdraw_stake e) w' = Err "storage decode error".
Proof.
  intros Hr Hpay Hl Hact Ht Hcool. apply liquid_solvent in Hr.
  destruct (withdraw_stake_runs e info t w) as (w' & Hrun & Hgone & _ & Hbal & Hlog); [done..|].
  exists w'. split; [done|]. cbv zeta. split; [exact Hbal|]. split; [exact Hlog|].
  apply wp_fails, wp_invoke. unfold withdraw_stake. wp_go; [|exfalso; eauto].
  apply wp_get_keeper; [|done]. rewrite st_credit. congruence.
Qed.

(** An expelled keeper skips the cooldown.  A keeper deactivated by
    slashing has no unstake request, its request time reads as 0, and so it can
    withdraw at once, at any block time not below the bare cooldown. *)
Theorem expelled_keeper_skips_cooldown e info t w :
  liquid_reachable w → no_payment e → keepers (st w) !! caller e = Some info →
  k_active info = false → treasury_addr (st w) = Some t →
  unstake_request_time (st w) !! caller e = None → cooldown_seconds (st w) ≤ timestamp e →
  ∃ w', invoke e (withdraw_stake e) w = Ok ((), w') ∧ keepers (st w') !! caller e = None ∧
    total_committed_cooldown_egld (st w') =
      saturating_release (total_committed_cooldown_egld (st w)) (k_stake info).
Proof.
  intros Hr Hpay Hl Hact Ht Hreq Hcool. apply liquid_solvent in Hr.
  destruct (withdraw_stake_runs e info t w) as (w' & Hrun & Hgone & Hcom & _); [done..| |].
  - unfold nget. rewrite Hreq. simpl. unfold u64_add.
    rewrite N.add_0_l. etrans; [apply N.Div0.mod_le|done].
  - by exists w'.
Qed.

(** The run of the next property: the owner 7 configures the provider 77; the
    keeper 5 stakes 100, requests to unstake, and adds 50 while in cooldown. *)
Definition leak_run : list (env K * call) :=
  [(sample_env 7 7 9 0 0, SetStakingProvider 77);
   (sample_env 5 7 9 1000 100, RegisterKeeper);
   (sample_env 5 7 9 2000 0, RequestUnstake);
   (sample_env 5 7 9 3000 50, AddStake);
   (sample_env 7 7 9 4000 0, DelegateStake 50)].
Definition leak_withdraw : env K := sample_env 5 7 9 5000000 0.
Definition sample_deployed : world K :=
  World (empty_state <| min_stake := 100 |> <| slash_pct_bps := 500 |> <| cooldown_seconds := 10 |>
    <| treasury_addr := Some 8 |> <| version := 1 |>) (λ _, 0) [].

Lemma sample_is_deployed : deployed sample_deployed.
Proof. by exists (sample_env 7 7 9 0 0), 100, 500, 10, 8, (World empty_state (λ _, 0) []). Defined.

(** The liquidity reserve does not cover stake added in cooldown.
    [addStake] accepts a keeper that has requested to unstake without adding to
    the committed total, so [delegateStake] can delegate EGLD that keeper is
    about to withdraw: a reachable state in which the keeper's stake exceeds
    the reserve and its withdrawal, the cooldown elapsed, fails. *)
Theorem cooldown_reserve_leak :
  ∃ w info, registry_reachable w ∧ keepers (st w) !! caller leak_withdraw = Some info ∧
    unstake_request_time (st w) !! caller leak_withdraw = Some 2000 ∧
    total_committed_cooldown_egld (st w) < k_stake info ∧
    invoke leak_withdraw (withdraw_stake leak_withdraw) w = Err "failed transfer (insufficient funds)".
Proof.
  destruct (run dispatch leak_run sample_deployed) as [w|] eqn:Hrun; [|by vm_compute in Hrun].
  assert (Hr : registry_reachable w).
  { eapply run_reachable; [apply reach_deployed, sample_is_deployed| |exact Hrun].
    unfold leak_run. repeat first [apply Forall_nil_2|apply Forall_cons_2; [intros ?; apply sample_env_no_reentrancy|]]. }
  vm_compute in Hrun. simplify_eq.
  eexists _, _. split; [exact Hr|]. vm_compute. by split_and!.
Qed.
End properties.

(** ** Witnesses *)

#[local] Existing Instance sample_sdk.
#[local] Existing Instance sample_strict.

Definition run_from (cs : list (env K * call)) : world K :=
  match run dispatch cs sample_deployed with Ok w => w | Err _ => sample_deployed end.

(** The owner 7 configures "no provider" explicitly; the keeper 5 stakes 100,
    later asks to unstake, or fails three times. *)
Definition report : env K := sample_env 7 7 9 5000 0.
Definition keeper_run : list (env K * call) :=
  [(sample_env 7 7 9 0 0, SetStakingProvider 0); (sample_env 5 7 9 1000 100, RegisterKeeper)].
Definition unstake_run : list (env K * call) := keeper_run ++ [(sample_env 5 7 9 2000 0, RequestUnstake)].
Definition expelled_run : list (env K * call) := keeper_run ++ replicate 3 (report, RecordExecution 5 false).
Definition withdraw_env : env K := sample_env 5 7 9 6000 0.

Definition keeper_5 : KeeperInfo := MkKeeperInfo 5 100 1000 0 0 0 0 true 0.

Lemma run_from_ok cs : is_ok (run dispatch cs sample_deployed) = true →
  run dispatch cs sample_deployed = Ok (run_from cs).
Proof. unfold run_from. by destruct (run dispatch cs sample_deployed). Defined.

Lemma sample_registry_reachable cs :
  Forall (λ ec : env K * call, ∀ w : world K, no_reentrancy ec.1) cs →
  is_ok (run dispatch cs sample_deployed) = true → registry_reachable (run_from cs).
Proof.
  intros Hall Hok. apply (run_reachable _ _ _ cs sample_deployed);
    [apply reach_deployed, sample_is_deployed|done|by apply run_from_ok].
Defined.

Lemma sample_liquid_reachable cs :
  Forall (λ ec : env K * call, ∀ w : world K, undelegated ec.1 ec.2 w) cs →
  is_ok (run dispatch cs sample_deployed) = true → liquid_reachable (run_from cs).
Proof.
  intros Hall Hok. apply (run_reachable _ _ _ cs sample_deployed);
    [apply reach_deployed, sample_is_deployed|done|by apply run_from_ok].
Defined.

Lemma sample_providerless_reachable cs :
  Forall (λ ec : env K * call, ∀ w : world K, no_provider ec.1 ec.2 w) cs →
  is_ok (run dispatch cs sample_deployed) = true → providerless_reachable (run_from cs).
Proof.
  intros Hall Hok. apply (run_reachable _ _ _ cs sample_deployed);
    [apply reach_deployed, sample_is_deployed|done|by apply run_from_ok].
Defined.

Ltac allowed_run :=
  unfold expelled_run, unstake_run, keeper_run; cbn [app replicate];
  repeat first [apply Forall_nil_2|apply Forall_cons_2]; intros ?; cbn [fst snd];
  first [apply sample_env_no_reentrancy
        |split; [apply sample_env_no_reentrancy|intros ?; discriminate]].
Ltac run_ok := vm_compute; reflexivity.

Lemma registry_well_formed_witness : registry_reachable (run_from keeper_run) ∧ wf (st (run_from keeper_run)).
Proof.
  assert (Hr : registry_reachable (run_from keeper_run)).
  { apply (sample_registry_reachable keeper_run); [allowed_run|run_ok]. }
  split; [exact Hr|exact (registry_well_formed _ Hr)].
Defined.

Lemma registry_solvent_witness :
  msum k_stake (keepers (st (run_from expelled_run))) = 65 ∧
  msum k_stake (keepers (st (run_from expelled_run))) + msum id (slashed_pending_unbond (st (run_from expelled_run)))
    ≤ bal (run_from expelled_run) Egld.
Proof.
  split; [vm_compute; reflexivity|]. apply (registry_solvent (run_from expelled_run)).
  apply (sample_liquid_reachable expelled_run); [allowed_run|run_ok].
Defined.

Lemma record_execution_effect_witness :
  ∃ w', invoke report (record_execution report 5 false) (run_from keeper_run) = Ok ((), w') ∧
    failure_recorded 5 keeper_5 8 0 (run_from keeper_run) w'.
Proof.
  apply (record_execution_effect report 5 keeper_5 8 0 false (run_from keeper_run)).
  - apply (sample_liquid_reachable keeper_run); [allowed_run|run_ok].
  - by right.
  - by split.
  - reflexivity.
  - reflexivity.
  - reflexivity.
Defined.

Lemma three_strikes_expel_witness :
  ∃ w1 w2 w3, invoke report (record_execution report 5 false) (run_from keeper_run) = Ok ((), w1) ∧
    invoke report (record_execution report 5 false) w1 = Ok ((), w2) ∧
    invoke report (record_execution report 5 false) w2 = Ok ((), w3) ∧ is_active_keeper (st w3) 5 = false.
Proof.
  destruct (three_strikes_expel report 5 keeper_5 8 0 (run_from keeper_run))
    as (w1 & w2 & w3 & H1 & H2 & H3 & _ & _ & _ & _ & H4 & _).
  - apply (sample_registry_reachable keeper_run); [allowed_run|run_ok].
  - by right.
  - by split.
  - reflexivity.
  - reflexivity.
  - reflexivity.
  - by vm_compute.
  - by vm_compute.
  - reflexivity.
  - reflexivity.
  - by exists w1, w2, w3.
Defined.

Lemma no_strikes_without_provider_witness :
  let w := run_from [(sample_env 5 7 9 1000 100, RegisterKeeper)] in
  providerless_reachable w ∧ invoke report (record_execution report 5 false) w = Err "storage decode error".
Proof.
  assert (Hr : providerless_reachable (run_from [(sample_env 5 7 9 1000 100, RegisterKeeper)])).
  { apply sample_providerless_reachable; [allowed_run|run_ok]. }
  split; [exact Hr|]. destruct (no_strikes_without_provider _ Hr) as [_ Herr].
  apply (Herr report 5 keeper_5 8); [by right|by split|reflexivity|reflexivity].
Defined.

Lemma withdraw_stake_pays_witness :
  ∃ w', invoke withdraw_env (withdraw_stake withdraw_env) (run_from unstake_run) = Ok ((), w') ∧ bal w' Egld = 0.
Proof.
  destruct (withdraw_stake_pays withdraw_env (keeper_5 <| k_active := false |>) 8 (run_from unstake_run))
    as (w' & Hrun & Hbal & _).
  - apply (sample_liquid_reachable unstake_run); [allowed_run|run_ok].
  - by split.
  - reflexivity.
  - reflexivity.
  - reflexivity.
  - by vm_compute.
  - exists w'. split; [exact Hrun|].
    assert (Hb : bal (run_from unstake_run) Egld = 100) by run_ok. simpl in Hbal. lia.
Defined.

Lemma expelled_keeper_skips_cooldown_witness :
  ∃ w', invoke withdraw_env (withdraw_stake withdraw_env) (run_from expelled_run) = Ok ((), w') ∧
    keepers (st w') !! 5 = None.
Proof.
  destruct (expelled_keeper_skips_cooldown withdraw_env
    (MkKeeperInfo 5 65 1000 3 0 3 35 false 3) 8 (run_from expelled_run)) as (w' & Hrun & Hgone & _).
  - apply (sample_liquid_reachable expelled_run); [allowed_run|run_ok].
  - by split.
  - vm_compute. reflexivity.
  - reflexivity.
  - reflexivity.
  - reflexivity.
  - by vm_compute.
  - by exists w'.
Defined.
