(* ===== verification/Vault.v ===== *)
(** The Vault contract (contracts/vault/src/lib.rs): it delegates the users'
    EGLD to a staking provider, runs the strategies the Scheduler triggers, and
    pays undelegated funds out. *)

From S2P Require Import Prelude Sdk Types.

(** ** Storage *)

Record State := MkState {
  user_balance : gmap address N;
  total_deposited : N;
  total_compounded : N;
  compound_count : N;
  pending_withdrawals : gmap address N;
  total_pending_withdrawals : N;
  delegation_contract : option address;
  scheduler_address : option address;
  dex_pair_contract : option address;
  swap_amount_per_execution : N;
  max_slippage_bps : N;
  nft_contract : option address;
  mint_price : N;
  mint_endpoint_name : bytes;
  paused_cell : bool;
}.
#[export] Instance State_eta : Settable State := λ s,
  MkState (user_balance s) (total_deposited s) (total_compounded s) (compound_count s)
    (pending_withdrawals s) (total_pending_withdrawals s) (delegation_contract s)
    (scheduler_address s) (dex_pair_contract s) (swap_amount_per_execution s) (max_slippage_bps s)
    (nft_contract s) (mint_price s) (mint_endpoint_name s) (paused_cell s).

Inductive Event : Type :=
| deposit_event (who : address) (amount : N)
| withdraw_event (who : address) (amount : N)
| compound_event (timestamp : N)
| claim_event (timestamp : N)
| swap_event (timestamp : N)
| emergency_swap_event (timestamp : N)
| mint_event (timestamp : N).

(** The closures of the promises. *)
Inductive Callback : Type :=
| deposit_closure (who : address) (deposit_amount : N)
| withdraw_closure (who : address) (amount : N)
| compound_closure
| claim_closure
| swap_closure
| emergency_swap_closure
| mint_closure.

Canonical K : contract := Contract State Event Callback.
Implicit Types (e : env K) (w : world K) (s : State) (Q : unit → world K → Prop) (E : string → Prop).

#[export] Instance pausable : Pausable K := {|
  paused := λ s : storage K, paused_cell (s : State);
  set_paused := λ b (s : storage K), (s : State) <| paused_cell := b |>;
|}.
#[export] Instance pausable_laws : PausableLaws K.
Proof. by split. Qed.

Definition empty_state : State := MkState ∅ 0 0 0 ∅ 0 None None None 0 0 None 0 [] false.

Definition ERR_ZERO_DEPOSIT : string := "Deposit must be greater than zero".
Definition ERR_ZERO_WITHDRAW : string := "Withdraw amount must be greater than zero".
Definition ERR_INSUFFICIENT_BALANCE : string := "Insufficient balance".
Definition ERR_NOT_AUTHORIZED : string := "Caller not authorized".
Definition ERR_NO_SWAP_CONFIG : string := "Swap not configured - set DEX pair contract first".
Definition ERR_NO_MINT_CONFIG : string := "Mint not configured - set NFT contract first".
Definition ERR_SLIPPAGE_NOT_SET : string :=
  "Slippage protection not configured - set max_slippage_bps first".

Section code.
Context `{Sdk}.

Definition init e (delegation scheduler : address) : M K unit :=
  modify (λ s : State, s
    <| delegation_contract := Some delegation |>
    <| scheduler_address := Some scheduler |>
    <| total_deposited := 0 |>
    <| total_compounded := 0 |>
    <| compound_count := 0 |>
    <| max_slippage_bps := 300 |>
    <| paused_cell := false |>).

Definition upgrade e : M K unit := mret ().

(** ** User endpoints *)

Definition get_delegation : M K address :=
  s ← get_st; sv_get empty_address (delegation_contract s).

Definition deposit e : M K unit :=
  payable_egld e;;
  require_not_paused;;
  let payment := egld_value e in
  require (0 < payment) ERR_ZERO_DEPOSIT;;
  s ← get_st;
  modify (λ s : State, s <| user_balance ::= λ m, <[caller e := nget m (caller e) + payment]> m |>);;
  modify (λ s : State, s <| total_deposited ::= λ t, t + payment |>);;
  emit (deposit_event (caller e) payment);;
  delegation_addr ← get_delegation;
  register_promise delegation_addr (string_bytes "delegate") [] payment 12000000
    (Some (deposit_closure (caller e) payment)) 5000000.

(** [if a >= b { a - b } else { 0 }] *)
Definition saturating (a b : N) : N := if decide (b ≤ a) then a - b else 0.
(** [if a >= b { a - b } else { a }] *)
Definition unless_short (a b : N) : N := if decide (b ≤ a) then a - b else a.

Definition deposit_callback (who : address) (deposit_amount : N) (success : bool) : M K unit :=
  if success then mret ()
  else
    modify (λ s : State, s <| user_balance ::= λ m, <[who := saturating (nget m who) deposit_amount]> m |>);;
    modify (λ s : State, s <| total_deposited ::= λ t, unless_short t deposit_amount |>);;
    direct_egld who deposit_amount.

Definition withdraw e (amt : N) : M K unit :=
  not_payable e;;
  require (0 < amt) ERR_ZERO_WITHDRAW;;
  s ← get_st;
  let balance := nget (user_balance s) (caller e) in
  require (amt ≤ balance) ERR_INSUFFICIENT_BALANCE;;
  rest ← biguint_sub balance amt;
  modify (λ s : State, s <| user_balance ::= <[caller e := rest]> |>);;
  modify (λ s : State, s <| total_deposited ::= λ t, unless_short t amt |>);;
  emit (withdraw_event (caller e) amt);;
  modify (λ s : State, s <| pending_withdrawals ::= λ m, <[caller e := nget m (caller e) + amt]> m |>);;
  modify (λ s : State, s <| total_pending_withdrawals ::= λ t, t + amt |>);;
  delegation_addr ← get_delegation;
  register_promise delegation_addr (string_bytes "unDelegate") [ArgNum amt] 0 12000000
    (Some (withdraw_closure (caller e) amt)) 5000000.

Definition withdraw_callback (who : address) (amt : N) (success : bool) : M K unit :=
  if success then mret ()
  else
    modify (λ s : State, s <| user_balance ::= λ m, <[who := nget m who + amt]> m |>);;
    modify (λ s : State, s <| total_deposited ::= λ t, t + amt |>);;
    s ← get_st;
    let pending := nget (pending_withdrawals s) who in
    if decide (amt ≤ pending)
    then modify (λ s : State, s <| pending_withdrawals ::= <[who := pending - amt]> |>);;
         modify (λ s : State, s <| total_pending_withdrawals ::= λ t, saturating t amt |>)
    else mret ().

Definition claim_unbonded e : M K unit :=
  not_payable e;;
  delegation_addr ← get_delegation;
  register_promise delegation_addr (string_bytes "claimUnbonded") [] 0 15000000 None 0.

Definition withdraw_unbonded e : M K unit :=
  not_payable e;;
  s ← get_st;
  let amount_due := nget (pending_withdrawals s) (caller e) in
  require (0 < amount_due) "No pending withdrawals";;
  sc_balance ← get_sc_balance Egld;
  require (amount_due ≤ sc_balance) "Unbonded funds not yet available from provider";;
  modify (λ s : State, s <| pending_withdrawals ::= delete (caller e) |>);;
  modify (λ s : State, s <| total_pending_withdrawals ::= λ t, saturating t amount_due |>);;
  direct_egld (caller e) amount_due.

(** ** Automation endpoints *)

Definition require_scheduler_caller e : M K unit :=
  s ← get_st;
  scheduler ← sv_get empty_address (scheduler_address s);
  require (caller e = scheduler) ERR_NOT_AUTHORIZED.

(** EGLD that is not owed to users who undelegated. *)
Definition safe_liquid : M K N :=
  sc_balance ← get_sc_balance Egld;
  s ← get_st;
  let total_pending := total_pending_withdrawals s in
  mret (if decide (total_pending < sc_balance) then sc_balance - total_pending else 0).

Definition compound e : M K unit :=
  not_payable e;;
  require_not_paused;;
  require_scheduler_caller e;;
  delegation_addr ← get_delegation;
  register_promise delegation_addr (string_bytes "reDelegateRewards") [] 0 12000000
    (Some compound_closure) 5000000.

Definition compound_callback e (success : bool) : M K unit :=
  if success
  then modify (λ s : State, s <| compound_count ::= λ c, u64_add c 1 |>);;
       emit (compound_event (timestamp e))
  else mret ().

Definition claim_rewards e : M K unit :=
  not_payable e;;
  require_not_paused;;
  require_scheduler_caller e;;
  delegation_addr ← get_delegation;
  register_promise delegation_addr (string_bytes "claimRewards") [] 0 12000000
    (Some claim_closure) 5000000.

Definition claim_callback e (success : bool) : M K unit :=
  if success then emit (claim_event (timestamp e)) else mret ().

(** [swap] and [emergency_swap] are the same code with their own callbacks. *)
Definition swap_with e (cb : Callback) : M K unit :=
  not_payable e;;
  require_not_paused;;
  require_scheduler_caller e;;
  s ← get_st;
  require (dex_pair_contract s ≠ None) ERR_NO_SWAP_CONFIG;;
  require (max_slippage_bps s ≠ 0) ERR_SLIPPAGE_NOT_SET;;
  dex_addr ← sv_get empty_address (dex_pair_contract s);
  liquid ← safe_liquid;
  let amt := if decide (0 < swap_amount_per_execution s ∧ swap_amount_per_execution s < liquid)
             then swap_amount_per_execution s else liquid in
  if decide (0 < amt)
  then let min_out := amt * u64_sub 10000 (max_slippage_bps s) / 10000 in
       register_promise dex_addr (string_bytes "swapTokensFixedInput") [ArgNum min_out] amt 20000000
         (Some cb) 5000000
  else mret ().

Definition swap e : M K unit := swap_with e swap_closure.
Definition emergency_swap e : M K unit := swap_with e emergency_swap_closure.

Definition swap_callback e (success : bool) : M K unit :=
  if success then emit (swap_event (timestamp e)) else mret ().
Definition emergency_swap_callback e (success : bool) : M K unit :=
  if success then emit (emergency_swap_event (timestamp e)) else mret ().

Definition mint e : M K unit :=
  not_payable e;;
  require_not_paused;;
  require_scheduler_caller e;;
  s ← get_st;
  require (nft_contract s ≠ None) ERR_NO_MINT_CONFIG;;
  nft_addr ← sv_get empty_address (nft_contract s);
  liquid ← safe_liquid;
  require (mint_price s ≤ liquid) "V-23: Insufficient safe liquid funds for minting";;
  register_promise nft_addr (mint_endpoint_name s) [ArgNum 1] (mint_price s) 15000000
    (Some mint_closure) 5000000.

Definition mint_callback e (success : bool) : M K unit :=
  if success then emit (mint_event (timestamp e)) else mret ().

(** ** Admin endpoints *)

Definition owner_sets e (f : State → State) : M K unit :=
  not_payable e;; only_owner e;; modify f.

Definition set_scheduler_address e (addr : address) : M K unit :=
  owner_sets e (λ s : State, s <| scheduler_address := Some addr |>).
Definition set_delegation_contract e (addr : address) : M K unit :=
  owner_sets e (λ s : State, s <| delegation_contract := Some addr |>).

Definition rescue_yield e (amt : N) : M K unit :=
  not_payable e;;
  only_owner e;;
  liquid ← safe_liquid;
  require (amt ≤ liquid) "Amount exceeds safe liquid (protocol-owned) balance";;
  direct_egld (caller e) amt.

Definition set_dex_pair_contract e (addr : address) : M K unit :=
  owner_sets e (λ s : State, s <| dex_pair_contract := Some addr |>).
Definition set_swap_amount e (amt : N) : M K unit :=
  owner_sets e (λ s : State, s <| swap_amount_per_execution := amt |>).
Definition set_nft_contract e (addr : address) : M K unit :=
  owner_sets e (λ s : State, s <| nft_contract := Some addr |>).
Definition set_mint_price e (price : N) : M K unit :=
  owner_sets e (λ s : State, s <| mint_price := price |>).
Definition set_mint_endpoint e (endpoint : bytes) : M K unit :=
  owner_sets e (λ s : State, s <| mint_endpoint_name := endpoint |>).

Definition set_max_slippage_bps e (bps : N) : M K unit :=
  not_payable e;;
  only_owner e;;
  require (bps ≤ 5000) "Max slippage cannot exceed 50%";;
  modify (λ s : State, s <| max_slippage_bps := bps |>).

(** ** Views *)

Definition get_user_balance s (user : address) : N := nget (user_balance s) user.
Definition get_total_deposited s : N := total_deposited s.
Definition get_compound_count s : N := compound_count s.
Definition get_total_compounded s : N := total_compounded s.

(** ** Transactions *)

Inductive call : Type :=
| Deposit
| Withdraw (amt : N)
| ClaimUnbonded
| WithdrawUnbonded
| Compound
| ClaimRewards
| Swap
| EmergencySwap
| Mint
| PromiseCallback (cb : Callback) (success : bool)
| SetSchedulerAddress (addr : address)
| SetDelegationContract (addr : address)
| RescueYield (amt : N)
| SetDexPairContract (addr : address)
| SetSwapAmount (amt : N)
| SetNftContract (addr : address)
| SetMintPrice (price : N)
| SetMintEndpoint (endpoint : bytes)
| SetMaxSlippageBps (bps : N)
| Upgrade
| Pause
| Unpause.

Definition run_callback e (cb : Callback) (success : bool) : M K unit :=
  match cb with
  | deposit_closure who amt => deposit_callback who amt success
  | withdraw_closure who amt => withdraw_callback who amt success
  | compound_closure => compound_callback e success
  | claim_closure => claim_callback e success
  | swap_closure => swap_callback e success
  | emergency_swap_closure => emergency_swap_callback e success
  | mint_closure => mint_callback e success
  end.

Definition dispatch e (c : call) : M K unit :=
  match c with
  | Deposit => deposit e
  | Withdraw amt => withdraw e amt
  | ClaimUnbonded => claim_unbonded e
  | WithdrawUnbonded => withdraw_unbonded e
  | Compound => compound e
  | ClaimRewards => claim_rewards e
  | Swap => swap e
  | EmergencySwap => emergency_swap e
  | Mint => mint e
  | PromiseCallback cb b => run_callback e cb b
  | SetSchedulerAddress a => set_scheduler_address e a
  | SetDelegationContract a => set_delegation_contract e a
  | RescueYield amt => rescue_yield e amt
  | SetDexPairContract a => set_dex_pair_contract e a
  | SetSwapAmount amt => set_swap_amount e amt
  | SetNftContract a => set_nft_contract e a
  | SetMintPrice p => set_mint_price e p
  | SetMintEndpoint ep => set_mint_endpoint e ep
  | SetMaxSlippageBps b => set_max_slippage_bps e b
  | Upgrade => upgrade e
  | Pause => pause e
  | Unpause => unpause e
  end.

Definition deployed w : Prop :=
  ∃ e delegation scheduler w0, st w0 = empty_state ∧ log w0 = [] ∧ init e delegation scheduler w0 = Ok ((), w).

(** A callback belongs to a registered promise; when the call failed, the EGLD
    it carried comes back with the callback. *)
Definition settles e (cb : Callback) (success : bool) w : Prop :=
  ∃ to ep args egld g cg, Promise to ep args egld g (Some cb) cg ∈ log w ∧
    (success = false → egld_value e = egld).
Definition regular e (c : call) w : Prop :=
  match c with PromiseCallback cb b => settles e cb b w | _ => True end.

Definition vault_reachable : world K → Prop := reachable dispatch deployed regular.
End code.
