(* ===== verification/VaultProps.v ===== *)
(** Properties of the Vault contract, with their witnesses. *)

From S2P Require Import Prelude Sdk Types Vault.

Implicit Types (e : env K) (w : world K) (s : State) (Q : unit → world K → Prop) (E : string → Prop).

(** Deposits travel with exactly the EGLD their callback refunds. *)
Definition deposits_backed w : Prop :=
  ∀ to ep args egld g who amt cg,
    Promise to ep args egld g (Some (deposit_closure who amt)) cg ∈ log w → egld = amt.

(** The vault's books. *)
Definition books w : Prop :=
  total_pending_withdrawals (st w) = msum id (pending_withdrawals (st w)) ∧
  max_slippage_bps (st w) ≤ 5000 ∧ deposits_backed w.

(** The undelegated funds are in the vault. *)
Definition covered w : Prop := total_pending_withdrawals (st w) ≤ bal w Egld.

Section properties.
Context `{StrictSdk}.

Lemma deposits_backed_same w w' : log w' = log w → deposits_backed w → deposits_backed w'.
Proof. unfold deposits_backed. by intros ->. Qed.

Lemma deposits_backed_app w w' (l : list (effect K)) :
  log w' = log w ++ l → deposits_backed w →
  (∀ to ep args egld g who amt cg,
     Promise to ep args egld g (Some (deposit_closure who amt)) cg ∈ l → egld = amt) → deposits_backed w'.
Proof. unfold deposits_backed. intros -> Hd Hl. intros *. rewrite elem_of_app. naive_solver. Qed.

(** Extending the log by effects that are not failed deposits. *)
Ltac log_ext :=
  lazymatch goal with Hd : deposits_backed ?w |- deposits_backed _ =>
    let Hin := fresh in
    intros ? ? ? ? ? ? ? ?; simpl; rewrite ?log_credit, ?elem_of_app, ?elem_of_cons, ?elem_of_nil;
    intros Hin; repeat lazymatch type of Hin with _ ∨ _ => destruct Hin as [Hin|Hin] end;
    first [exact (Hd _ _ _ _ _ _ _ _ Hin)|injection Hin; intros; subst; done|discriminate Hin|done]
  end.
Ltac books_ext := unfold books in *; split_and!; simpl; rewrite ?st_credit in *; [try done|try done|log_ext].

Lemma books_dispatch e c w : books w → wp (dispatch e c) (λ _, books) any_error (credit e w).
Proof.
  intros (Hp & Hs & Hd).
  assert (Hb : books (credit e w)) by (unfold books, deposits_backed; by rewrite st_credit, log_credit).
  destruct c; cbn [dispatch].
  all: try (unfold set_scheduler_address, set_delegation_contract, set_dex_pair_contract, set_swap_amount,
    set_nft_contract, set_mint_price, set_mint_endpoint, upgrade, pause, unpause, owner_sets; wp_go; exact Hb).
  - unfold deposit, get_delegation. wp_go. apply wp_require_not_paused; [intros _|done]. wp_go. books_ext.
  - unfold withdraw, get_delegation. wp_go. books_ext. rewrite msum_add. lia.
  - unfold claim_unbonded, get_delegation. wp_go. books_ext.
  - unfold withdraw_unbonded. wp_go. books_ext.
    pose proof (msum_clear (pending_withdrawals (st w)) (caller e)). unfold saturating. case_decide; lia.
  - unfold compound, get_delegation, require_scheduler_caller. wp_go.
    apply wp_require_not_paused; [intros _|done]. wp_go. books_ext.
  - unfold claim_rewards, get_delegation, require_scheduler_caller. wp_go.
    apply wp_require_not_paused; [intros _|done]. wp_go. books_ext.
  - unfold swap, swap_with, safe_liquid, require_scheduler_caller. wp_go.
    apply wp_require_not_paused; [intros _|done]. wp_go; try exact Hb; books_ext.
  - unfold emergency_swap, swap_with, safe_liquid, require_scheduler_caller. wp_go.
    apply wp_require_not_paused; [intros _|done]. wp_go; try exact Hb; books_ext.
  - unfold mint, safe_liquid, require_scheduler_caller. wp_go.
    apply wp_require_not_paused; [intros _|done]. wp_go; books_ext.
  - destruct cb; cbn [run_callback].
    + unfold deposit_callback. wp_go; [exact Hb|books_ext].
    + unfold withdraw_callback. wp_go; [exact Hb| |books_ext]. books_ext.
      simpl in *. rewrite st_credit in *.
      pose proof (msum_update id (pending_withdrawals (st w)) who (nget (pending_withdrawals (st w)) who - amount)) as Hm.
      assert (Hget : from_option id 0 (pending_withdrawals (st w) !! who) = nget (pending_withdrawals (st w)) who)
        by (unfold nget; by destruct (pending_withdrawals (st w) !! who)).
      rewrite Hget in Hm. simpl in Hm. unfold saturating. case_decide; lia.
    + unfold compound_callback. wp_go; [books_ext|exact Hb].
    + unfold claim_callback. wp_go; [books_ext|exact Hb].
    + unfold swap_callback. wp_go; [books_ext|exact Hb].
    + unfold emergency_swap_callback. wp_go; [books_ext|exact Hb].
    + unfold mint_callback. wp_go; [books_ext|exact Hb].
  - unfold rescue_yield, safe_liquid. wp_go; books_ext.
  - unfold set_max_slippage_bps. wp_go. split_and!; [apply Hb|done|apply Hb].
Qed.

Lemma books_reachable w : vault_reachable w → books w.
Proof.
  apply reachable_inv.
  - intros w' (e & d & sa & w0 & Hst & Hlog & Hi). unfold init, modify in Hi. simplify_eq.
    unfold books, deposits_backed. simpl. rewrite Hst, Hlog. simpl. rewrite msum_empty.
    split_and!; [done|lia|]. intros *. by rewrite elem_of_nil.
  - intros w' e c Hw _. by apply books_dispatch.
  - done.
Qed.

(** The minimum output of a swap: no underflow, and at least half of the input. *)
Lemma slippage_floor bps amt :
  bps ≤ 5000 →
  amt * u64_sub 10000 bps / 10000 ≤ amt ∧ amt ≤ 2 * (amt * u64_sub 10000 bps / 10000) + 1.
Proof.
  intros Hs. assert (Hsub : u64_sub 10000 bps = 10000 - bps).
  { unfold u64_sub. replace (10000 + u64_mod - bps) with (10000 - bps + 1 * u64_mod) by (unfold u64_mod; lia).
    rewrite N.Div0.mod_add. apply N.mod_small. unfold u64_mod. lia. }
  rewrite Hsub. split; [apply bps_cut_le; lia|].
  assert (Hhalf : amt * 5000 / 10000 ≤ amt * (10000 - bps) / 10000).
  { apply N.Div0.div_le_mono. apply N.mul_le_mono_l. lia. }
  revert Hhalf. generalize (amt * (10000 - bps) / 10000). intros m Hm.
  pose proof (N.div_mod' (amt * 5000) 10000). pose proof (N.mod_lt (amt * 5000) 10000 ltac:(done)). lia.
Qed.

(** The vault's books balance.  In every reachable state the total of
    pending withdrawals is the sum over the users, and the slippage is at most
    50%, so the minimum output of a swap never underflows. *)
Theorem vault_books w :
  vault_reachable w →
  total_pending_withdrawals (st w) = msum id (pending_withdrawals (st w)) ∧
  max_slippage_bps (st w) ≤ 5000 ∧
  ∀ amt, amt * u64_sub 10000 (max_slippage_bps (st w)) / 10000 ≤ amt ∧
         amt ≤ 2 * (amt * u64_sub 10000 (max_slippage_bps (st w)) / 10000) + 1.
Proof.
  intros (Hp & Hs & _)%books_reachable. split_and!; [done|done|]. intros amt. by apply slippage_floor.
Qed.

Lemma wp_safe_liquid (P : N → world K → Prop) E w :
  P (bal w Egld - total_pending_withdrawals (st w)) w → wp safe_liquid P E w.
Proof.
  intros HP. unfold safe_liquid. wp_go. case_decide; [done|].
  by replace (bal w Egld - total_pending_withdrawals (st w)) with 0 in HP by lia.
Qed.

(** Closes a branch that spends at most the safe liquid. *)
Ltac covered_side :=
  unfold covered in *; simpl in *; rewrite ?st_credit, ?credit_egld, ?bal_insert_eq in *;
  try (unfold unless_short, saturating in *); repeat case_decide; lia.

Lemma covered_swap e cb w : covered w → wp (swap_with e cb) (λ _, covered) any_error w.
Proof.
  intros Hc. unfold swap_with, require_scheduler_caller. wp_go.
  apply wp_require_not_paused; [intros _|done]. wp_go; apply wp_safe_liquid; wp_go; try done;
    unfold covered in *; simpl in *; rewrite bal_insert_eq; repeat case_decide; lia.
Qed.

Lemma covered_dispatch e c w :
  books w → regular e c w → (∀ amt, c ≠ Withdraw amt) → covered w →
  wp (dispatch e c) (λ _, covered) any_error (credit e w).
Proof.
  intros (_ & _ & Hd) Hreg Hw Hc.
  assert (Hc' : covered (credit e w)) by (unfold covered in *; rewrite st_credit, credit_egld; lia).
  destruct c; cbn [dispatch]; try (by destruct (Hw amt)).
  all: try (unfold set_scheduler_address, set_delegation_contract, set_dex_pair_contract, set_swap_amount,
    set_nft_contract, set_mint_price, set_mint_endpoint, set_max_slippage_bps, upgrade, pause, unpause,
    owner_sets; wp_go; exact Hc').
  - unfold deposit, get_delegation. wp_go. apply wp_require_not_paused; [intros _|done]. wp_go. covered_side.
  - unfold claim_unbonded, get_delegation. wp_go. covered_side.
  - unfold withdraw_unbonded. wp_go. covered_side.
  - unfold compound, get_delegation, require_scheduler_caller. wp_go.
    apply wp_require_not_paused; [intros _|done]. wp_go. covered_side.
  - unfold claim_rewards, get_delegation, require_scheduler_caller. wp_go.
    apply wp_require_not_paused; [intros _|done]. wp_go. covered_side.
  - by apply covered_swap.
  - by apply covered_swap.
  - unfold mint, require_scheduler_caller. wp_go. apply wp_require_not_paused; [intros _|done].
    wp_go; apply wp_safe_liquid; wp_go; unfold covered in *; simpl in *; rewrite bal_insert_eq; lia.
  - destruct cb; cbn [run_callback].
    + unfold deposit_callback. wp_go; [exact Hc'|].
      destruct Hreg as (to & ep & args & egld & g & cg & Hin & Hegld).
      pose proof (Hd _ _ _ _ _ _ _ _ Hin). specialize (Hegld eq_refl). covered_side.
    + unfold withdraw_callback. wp_go; try exact Hc'; covered_side.
    + unfold compound_callback. wp_go; exact Hc'.
    + unfold claim_callback. wp_go; exact Hc'.
    + unfold swap_callback. wp_go; exact Hc'.
    + unfold emergency_swap_callback. wp_go; exact Hc'.
    + unfold mint_callback. wp_go; exact Hc'.
  - unfold rescue_yield. wp_go. apply wp_safe_liquid. wp_go. unfold covered in *. simpl in *.
    rewrite bal_insert_eq. lia.
Qed.

(** C38: undelegated funds are protected.  When the vault holds what its users
    are waiting for, no transaction takes it away: swaps, emergency swaps,
    mints, the owner's yield rescue, deposits, withdrawals of unbonded funds
    and every callback leave the balance at or above the total of pending
    withdrawals; only a new undelegation may raise that total above it. *)
Theorem pending_protected e c w w' :
  vault_reachable w → regular e c w → (∀ amt, c ≠ Withdraw amt) →
  total_pending_withdrawals (st w) ≤ bal w Egld →
  invoke e (dispatch e c) w = Ok ((), w') → total_pending_withdrawals (st w') ≤ bal w' Egld.
Proof.
  intros Hr%books_reachable Hreg Hw Hc.
  apply (wp_ok _ (λ _, covered) any_error), wp_invoke. by apply covered_dispatch.
Qed.

(** A user with pending withdrawals the vault can cover. *)
Lemma unbonded_runs e amt w :
  total_pending_withdrawals (st w) = msum id (pending_withdrawals (st w)) →
  egld_value e = 0 → esdt_transfers e = [] → nget (pending_withdrawals (st w)) (caller e) = amt →
  0 < amt → amt ≤ bal w Egld →
  ∃ w', invoke e (withdraw_unbonded e) w = Ok ((), w') ∧
    log w' = log w ++ [Send (caller e) Egld amt] ∧ bal w' Egld + amt = bal w Egld ∧
    total_pending_withdrawals (st w') + amt = total_pending_withdrawals (st w) ∧
    pending_withdrawals (st w') = delete (caller e) (pending_withdrawals (st w)).
Proof.
  intros Hp Hv Hesdt Hamt Hpos Hle.
  pose proof (msum_clear (pending_withdrawals (st w)) (caller e)) as Hclear. rewrite Hamt in Hclear.
  apply wp_runs, wp_invoke. unfold withdraw_unbonded.
  wp_go; simpl in *; rewrite ?st_credit, ?credit_egld, ?log_credit, ?bal_insert_eq, ?Hamt in *;
    try tauto; try lia.
  unfold saturating. rewrite decide_True by lia. split_and!; try done; lia.
Qed.

(** Unbonded funds are paid once.  A user with pending withdrawals gets
    exactly them as soon as the vault holds enough, the total drops by the same
    amount, the other users' claims are untouched, and a second claim is
    refused. *)
Theorem withdraw_unbonded_pays e w :
  vault_reachable w → egld_value e = 0 → esdt_transfers e = [] →
  let amt := nget (pending_withdrawals (st w)) (caller e) in
  0 < amt → amt ≤ bal w Egld →
  ∃ w', invoke e (withdraw_unbonded e) w = Ok ((), w') ∧
    log w' = log w ++ [Send (caller e) Egld amt] ∧ bal w' Egld + amt = bal w Egld ∧
    total_pending_withdrawals (st w') + amt = total_pending_withdrawals (st w) ∧
    pending_withdrawals (st w') = delete (caller e) (pending_withdrawals (st w)) ∧
    invoke e (withdraw_unbonded e) w' = Err "No pending withdrawals".
Proof.
  intros (Hp & _)%books_reachable Hv Hesdt amt Hpos Hle.
  destruct (unbonded_runs e amt w) as (w' & Hrun & Hlog & Hb & Ht & Hgone); [done..|].
  exists w'. split_and!; try done.
  apply wp_fails, wp_invoke. unfold withdraw_unbonded.
  wp_go; rewrite ?st_credit, ?Hgone, ?nget_delete_eq in *; first [done|lia|tauto].
Qed.
End properties.

(** ** Concrete runs

    Deployed by 7 for the provider 20 and the scheduler 30. *)

#[local] Existing Instance sample_sdk.
#[local] Existing Instance sample_strict.

Definition owner_env : env K := sample_env 7 7 9 0 0.
Definition sample_deployed : world K :=
  World (empty_state <| delegation_contract := Some 20 |> <| scheduler_address := Some 30 |>
    <| max_slippage_bps := 300 |>) (λ _, 0) [].

Lemma vault_is_deployed : deployed sample_deployed.
Proof. by exists owner_env, 20, 30, (World empty_state (λ _, 0) []). Defined.

Definition user_env (t value : N) : env K := sample_env 3 7 9 t value.
Definition deposited : world K := next dispatch (user_env 1 100) Deposit sample_deployed.
Definition withdrawn : world K := next dispatch (user_env 2 0) (Withdraw 100) deposited.

Lemma deposited_reachable : vault_reachable deposited.
Proof. apply next_reachable; [apply reach_deployed, vault_is_deployed|exact I|by vm_compute]. Defined.
Lemma withdrawn_reachable : vault_reachable withdrawn.
Proof. apply next_reachable; [apply deposited_reachable|exact I|by vm_compute]. Defined.

(** The delegation fails after all, and so does the undelegation. *)
Definition deposit_failed : call := PromiseCallback (deposit_closure 3 100) false.
Definition withdraw_failed : call := PromiseCallback (withdraw_closure 3 100) false.
Definition refunded : world K := next dispatch (sample_env 20 7 9 3 100) deposit_failed withdrawn.
Definition restored : world K := next dispatch (sample_env 20 7 9 4 0) withdraw_failed refunded.

(** A deposit can be credited twice.  [deposit] books the amount before the
    delegation is confirmed, and [withdraw] accepts it at once; if then both
    promises fail, the deposit callback refunds the user in full while the
    withdrawal callback restores the balance.  In this reachable state the only
    EGLD ever deposited, 100 by user 3, has been sent back to user 3, the vault
    is empty, and user 3 is still credited with 100 and can withdraw it. *)
Theorem deposit_credited_twice :
  vault_reachable restored ∧ Send 3 Egld 100 ∈ log restored ∧ bal restored Egld = 0 ∧
  get_user_balance (st restored) 3 = 100 ∧ get_total_deposited (st restored) = 100 ∧
  is_ok (invoke (user_env 5 0) (withdraw (user_env 5 0) 100) restored) = true.
Proof.
  assert (Hr1 : vault_reachable refunded).
  { apply next_reachable; [apply withdrawn_reachable| |by vm_compute].
    exists 20, (string_bytes "delegate"), [], 100, 12000000, 5000000. split; [|done].
    apply (list_elem_of_lookup_2 _ 1%nat). vm_compute. reflexivity. }
  split_and!.
  - apply next_reachable; [exact Hr1| |by vm_compute].
    exists 20, (string_bytes "unDelegate"), [ArgNum 100], 0, 12000000, 5000000. split; [|done].
    apply (list_elem_of_lookup_2 _ 3%nat). vm_compute. reflexivity.
  - apply (list_elem_of_lookup_2 _ 4%nat). vm_compute. reflexivity.
  - vm_compute. reflexivity.
  - vm_compute. reflexivity.
  - vm_compute. reflexivity.
  - vm_compute. reflexivity.
Qed.

(** ** Witnesses *)

Lemma vault_books_witness :
  total_pending_withdrawals (st withdrawn) = 100 ∧
  total_pending_withdrawals (st withdrawn) = msum id (pending_withdrawals (st withdrawn)).
Proof. split; [by vm_compute|]. apply (vault_books withdrawn), withdrawn_reachable. Defined.

(** The unbonded EGLD has arrived, with 50 of yield. *)
Definition unbonded : world K := World (st withdrawn) (λ a, if decide (a = Egld) then 150 else bal withdrawn a) (log withdrawn).
Lemma unbonded_reachable : vault_reachable unbonded.
Proof.
  apply reach_funded; [apply withdrawn_reachable|]. intros a. simpl.
  destruct (decide (a = Egld)) as [->|]; [by vm_compute|done].
Defined.

Lemma pending_protected_witness :
  ∃ w', invoke owner_env (dispatch owner_env (RescueYield 50)) unbonded = Ok ((), w') ∧
    total_pending_withdrawals (st w') ≤ bal w' Egld.
Proof.
  assert (Hok : is_ok (invoke owner_env (dispatch owner_env (RescueYield 50)) unbonded) = true) by by vm_compute.
  exists (next dispatch owner_env (RescueYield 50) unbonded). split; [by apply next_ok|].
  apply (pending_protected owner_env (RescueYield 50) unbonded).
  - apply unbonded_reachable.
  - exact I.
  - discriminate.
  - by vm_compute.
  - by apply next_ok.
Defined.

Lemma withdraw_unbonded_pays_witness :
  ∃ w', invoke (user_env 9 0) (withdraw_unbonded (user_env 9 0)) unbonded = Ok ((), w') ∧ bal w' Egld + 100 = 150.
Proof.
  destruct (withdraw_unbonded_pays (user_env 9 0) unbonded) as (w' & Hrun & _ & Hb & _).
  - apply unbonded_reachable.
  - reflexivity.
  - reflexivity.
  - by vm_compute.
  - by vm_compute.
  - exists w'. split; [exact Hrun|].
    assert (Hamt : nget (pending_withdrawals (st unbonded)) 3 = 100) by (vm_compute; reflexivity).
    assert (Hbal : bal unbonded Egld = 150) by (vm_compute; reflexivity).
    change (caller (user_env 9 0)) with 3 in Hb. lia.
Defined.
