(* ===== verification/XscCore.v ===== *)
(** The XscCore contract (contracts/xsc-core/src/xsc_core.rs): the Merkle root
    of the compressed tasks and the verifier of packed proofs against it. *)

From S2P Require Import Prelude Sdk Types.

(** storage *)
Record State := MkState {
  merkle_root : bytes;
  authorized_keeper : option address;
  root_nonce : N;
  is_paused_cell : bool;
}.
#[export] Instance State_eta : Settable State := λ s,
  MkState (merkle_root s) (authorized_keeper s) (root_nonce s) (is_paused_cell s).

Inductive Event : Type :=
| root_updated_event (new_root : bytes) (nonce : N).

Canonical K : contract := Contract State Event Empty_set.
Implicit Types (e : env K) (w : world K) (s : State) (Q : unit → world K → Prop) (E : string → Prop).

Definition empty_state : State := MkState [] None 0 false.

(** ** Pure part: ordering and hashing of nodes *)

(** [load_slice(0, &mut [u8; 32])] into a zeroed array: a shorter buffer leaves
    the zeros. *)
Definition load32 (b : bytes) : bytes :=
  if decide (32 ≤ length b)%nat then take 32 b else replicate 32 0.

(** The loop of [buf_compare] over the two arrays; [Lt], [Eq], [Gt] for -1, 0, 1. *)
Fixpoint compare_arrays (a b : bytes) : comparison :=
  match a, b with
  | x :: a', y :: b' =>
      if x <? y then Datatypes.Lt
      else if y <? x then Datatypes.Gt
      else compare_arrays a' b'
  | _, _ => Datatypes.Eq
  end.

Definition buf_compare (a b : bytes) : comparison := compare_arrays (load32 a) (load32 b).

Definition node_prefix : N := 1.

Section code.
Context `{Sdk}.

(** What [compute_parent_hash] hashes, and its hash. *)
Definition parent_input (a b : bytes) : bytes :=
  node_prefix :: match buf_compare a b with Datatypes.Gt => b ++ a | _ => a ++ b end.
Definition compute_parent_hash (a b : bytes) : bytes := sha256 (parent_input a b).

(** [copy_slice(offset, 32)] *)
Definition copy_slice (b : bytes) (offset len : nat) : option bytes :=
  if decide (offset + len ≤ length b)%nat then Some (take len (drop offset b)) else None.

(** The [while offset < proof_len] loop, [fuel] bounding its iterations. *)
Fixpoint fold_proof (fuel : nat) (packed : bytes) (offset : nat) (computed : bytes) : M K bytes :=
  if decide (offset < length packed)%nat then
    match fuel with
    | O => throw "out of fuel"
    | S fuel' =>
        match copy_slice packed offset 32 with
        | None => throw "called Option::unwrap() on a None value"
        | Some sibling => fold_proof fuel' packed (offset + 32) (compute_parent_hash computed sibling)
        end
    end
  else mret computed.

(** ** The contract *)

Definition init e (keeper : address) : M K unit :=
  modify (λ s : State, s <| authorized_keeper := Some keeper |>
    <| root_nonce := 0 |> <| is_paused_cell := false |>).

Definition upgrade e (keeper : address) : M K unit :=
  modify (λ s : State, s <| authorized_keeper := Some keeper |>).

Definition set_paused e (b : bool) : M K unit :=
  not_payable e;; only_owner e;; modify (λ s : State, s <| is_paused_cell := b |>).

Definition set_authorized_keeper e (new_keeper : address) : M K unit :=
  not_payable e;; only_owner e;; modify (λ s : State, s <| authorized_keeper := Some new_keeper |>).

Definition require_not_paused : M K unit :=
  s ← get_st; require (is_paused_cell s = false) "Protocol Paused".

Definition update_root e (new_root : bytes) : M K unit :=
  not_payable e;;
  require_not_paused;;
  s ← get_st;
  keeper ← sv_get empty_address (authorized_keeper s);
  require (caller e = keeper) "Unauthorized Keeper";;
  require (length new_root = 32)%nat "Invalid Root Length";;
  let nonce := u64_add (root_nonce s) 1 in
  modify (λ s : State, s <| root_nonce := nonce |>);;
  modify (λ s : State, s <| merkle_root := new_root |>);;
  emit (root_updated_event new_root nonce).

(** Enough iterations for any buffer: one per 32 bytes. *)
Definition proof_fuel (packed : bytes) : nat := S (length packed / 32).

Definition verify_proof (leaf packed_proof : bytes) : M K bool :=
  require_not_paused;;
  require (length leaf = 32)%nat "Invalid Leaf Length";;
  require (length packed_proof mod 32 = 0)%nat "Invalid Packed Proof Length";;
  require (length packed_proof ≤ 1024)%nat "Proof depth exceeds maximum limit";;
  s ← get_st;
  computed_hash ← fold_proof (proof_fuel packed_proof) packed_proof 0 leaf;
  mret (bool_decide (computed_hash = merkle_root s)).

Inductive call : Type :=
| SetPaused (b : bool)
| SetAuthorizedKeeper (new_keeper : address)
| UpdateRoot (new_root : bytes)
| Upgrade (keeper : address).

Definition dispatch e (c : call) : M K unit :=
  match c with
  | SetPaused b => set_paused e b
  | SetAuthorizedKeeper k => set_authorized_keeper e k
  | UpdateRoot r => update_root e r
  | Upgrade k => upgrade e k
  end.

Definition deployed w : Prop :=
  ∃ e keeper w0, st w0 = empty_state ∧ init e keeper w0 = Ok ((), w).

Definition xsc_reachable : world K → Prop := reachable dispatch deployed (λ _ _ _, True).
End code.

(** ** Lemmas *)

(** SHA-256 yields 32 bytes. *)
Class HashLaws `{Sdk} : Prop := sha256_length : ∀ b, length (sha256 b) = 32%nat.

Lemma sample_hash_laws : @HashLaws sample_sdk.
Proof. intros b. apply be_bytes_length. Qed.

(** The siblings of a packed proof, in order. *)
Definition siblings_ok (siblings : list bytes) : Prop := Forall (λ x, length x = 32%nat) siblings.

Lemma siblings_length siblings :
  siblings_ok siblings → length (concat siblings) = (32 * length siblings)%nat.
Proof. induction 1 as [|x l Hx _ IH]; simpl; [done|]. rewrite length_app, IH, Hx. lia. Qed.

Section proofs.
Context `{Sdk}.

(** The loop folds the siblings of the buffer. *)
Lemma fold_proof_siblings pre siblings fuel computed (P : bytes → world K → Prop) E w :
  siblings_ok siblings → (length siblings ≤ fuel)%nat →
  P (foldl compute_parent_hash computed siblings) w →
  wp (fold_proof fuel (pre ++ concat siblings) (length pre) computed) P E w.
Proof.
  intros Hs. revert pre fuel computed. induction Hs as [|x l Hx Hs IH]; intros pre fuel computed Hf HQ.
  - simpl. rewrite app_nil_r. destruct fuel; simpl; rewrite decide_False by lia; done.
  - destruct fuel as [|fuel]; simpl in Hf; [lia|]. cbn [fold_proof].
    pose proof (siblings_length l Hs) as Hl. cbn [concat] in *.
    rewrite decide_True by (rewrite !length_app; lia).
    unfold copy_slice. rewrite decide_True by (rewrite !length_app; lia).
    rewrite drop_app_length, take_app_length' by done.
    replace (length pre + 32)%nat with (length (pre ++ x)) by (rewrite length_app; lia).
    rewrite app_assoc. apply IH; [lia|done].
Qed.

Lemma proof_fuel_enough siblings :
  siblings_ok siblings → (length siblings ≤ proof_fuel (concat siblings))%nat.
Proof.
  intros Hs. unfold proof_fuel. rewrite (siblings_length _ Hs), Nat.mul_comm, Nat.div_mul; lia.
Qed.

(** Any buffer of a multiple of 32 bytes is a list of siblings. *)
Lemma packed_siblings (packed : bytes) :
  (length packed mod 32 = 0)%nat → ∃ siblings, siblings_ok siblings ∧ packed = concat siblings.
Proof.
  intros Hmod. assert (∃ n, length packed = (32 * n)%nat) as [n Hn].
  { exists (length packed / 32)%nat. pose proof (Nat.div_mod_eq (length packed) 32). lia. }
  clear Hmod. revert packed Hn. induction n as [|n IH]; intros packed Hn.
  - exists []. split; [constructor|]. destruct packed; [done|simpl in Hn; lia].
  - destruct (IH (drop 32 packed)) as (l & Hl & Hd); [rewrite length_drop; lia|].
    exists (take 32 packed :: l). split; [constructor; [rewrite length_take; lia|done]|].
    simpl. by rewrite <-Hd, take_drop.
Qed.

Lemma wp_verify_proof leaf siblings (P : bool → world K → Prop) E w :
  is_paused_cell (st w) = false → length leaf = 32%nat → siblings_ok siblings →
  (length siblings ≤ 32)%nat →
  P (bool_decide (foldl compute_parent_hash leaf siblings = merkle_root (st w))) w →
  wp (verify_proof leaf (concat siblings)) P E w.
Proof.
  intros Hp Hl Hs Hlen HP. pose proof (siblings_length _ Hs) as Hc.
  unfold verify_proof, require_not_paused. wp_go; try congruence; try lia.
  - apply (fold_proof_siblings [] siblings); [done|by apply proof_fuel_enough|]. by wp_go.
  - rewrite Hc, Nat.mul_comm, Nat.Div0.mod_mul in *. done.
Qed.

(** Comparison of arrays. *)
Lemma compare_arrays_refl a : compare_arrays a a = Datatypes.Eq.
Proof. induction a as [|x a IH]; simpl; [done|]. by rewrite N.ltb_irrefl. Qed.

Lemma compare_arrays_eq a b :
  length a = length b → compare_arrays a b = Datatypes.Eq → a = b.
Proof.
  revert b. induction a as [|x a IH]; intros [|y b]; simpl; intros Hl Hc; try done.
  destruct (N.ltb_spec x y), (N.ltb_spec y x); try done.
  f_equal; [lia|]. apply IH; [lia|done].
Qed.

Lemma compare_arrays_antisym a b : compare_arrays b a = CompOpp (compare_arrays a b).
Proof.
  revert b. induction a as [|x a IH]; intros [|y b]; simpl; try done.
  destruct (N.ltb_spec x y), (N.ltb_spec y x); try done; lia.
Qed.

Lemma load32_id b : length b = 32%nat → load32 b = b.
Proof. intros Hb. unfold load32. rewrite decide_True by lia. apply take_ge. lia. Qed.

(** The parent of two nodes does not depend on their order. *)
Lemma parent_input_comm a b :
  length a = 32%nat → length b = 32%nat → parent_input a b = parent_input b a.
Proof.
  intros Ha Hb. unfold parent_input, buf_compare. rewrite !load32_id by done.
  rewrite (compare_arrays_antisym a b). destruct (compare_arrays a b) eqn:Hc; simpl; try done.
  apply compare_arrays_eq in Hc as ->; [done|congruence].
Qed.

Lemma parent_input_length a b :
  length a = 32%nat → length b = 32%nat → length (parent_input a b) = 65%nat.
Proof.
  intros Ha Hb. unfold parent_input. simpl. f_equal.
  destruct (buf_compare a b); rewrite length_app; lia.
Qed.

(** ... and determines the pair of its children. *)
Lemma parent_input_inj a b c d :
  length a = 32%nat → length b = 32%nat → length c = 32%nat → length d = 32%nat →
  parent_input a b = parent_input c d → (a = c ∧ b = d) ∨ (a = d ∧ b = c).
Proof.
  intros Ha Hb Hc Hd Heq. unfold parent_input in Heq. injection Heq as Heq.
  destruct (buf_compare a b), (buf_compare c d); apply app_inj_1 in Heq; try congruence;
    destruct Heq; subst; eauto.
Qed.

Lemma parent_hash_fold_length leaf siblings :
  HashLaws → length leaf = 32%nat → length (foldl compute_parent_hash leaf siblings) = 32%nat.
Proof.
  intros HL Hl. induction siblings as [|x l IH] using rev_ind; [done|].
  rewrite foldl_snoc. apply HL.
Qed.
End proofs.
