(* ===== verification/Pcit.v ===== *)
(** The keeper's off-chain Merkle engine for pre-cognitive intents
    (xcron-keeper-rs/src/pcit.rs). *)

From S2P Require Import Prelude Sdk Types.

(** [target_contract] is the 32-byte array as stored in the leaf. *)
Record PcitLeaf := MkPcitLeaf {
  target_contract : bytes;
  target_endpoint : string;
  target_args : list bytes;
  expected_token_out : string;
  min_return : N;
}.

(** [BigUint::to_bytes_be] of the num-bigint crate. *)
Class NumBigint := { to_bytes_be : N → bytes }.

(** [buf.extend_from_slice(len as u32 BE); buf.extend_from_slice(arg)] for each argument. *)
Definition extend_arg (buf arg : bytes) : bytes :=
  (buf ++ be_bytes 4 (N.of_nat (length arg) mod u32_mod)) ++ arg.

Definition top_encode `{NumBigint} (leaf : PcitLeaf) : bytes :=
  let buf := target_contract leaf in
  let buf := buf ++ string_bytes (target_endpoint leaf) in
  let buf := foldl extend_arg buf (target_args leaf) in
  let buf := buf ++ string_bytes (expected_token_out leaf) in
  if 0 <? min_return leaf then buf ++ to_bytes_be (min_return leaf) else buf.

(** [a <= b] on [u8; 32]: the lexicographic order of arrays. *)
Fixpoint array_leb (a b : bytes) : bool :=
  match a, b with
  | [], _ => true
  | _ :: _, [] => false
  | x :: a', y :: b' => if x =? y then array_leb a' b' else x <? y
  end.

Section code.
Context `{Sdk, NumBigint}.

Definition to_hash (leaf : PcitLeaf) : hash := sha256 (top_encode leaf).

Definition chain_input (current_hash sibling : bytes) : bytes :=
  if array_leb current_hash sibling then current_hash ++ sibling else sibling ++ current_hash.

Definition compute_chain_root (leaf_hash : hash) (siblings : list hash) : hash :=
  foldl (λ current_hash sibling, sha256 (chain_input current_hash sibling)) leaf_hash siblings.
End code.

(** ** A sample instance: minimal big-endian digits; [fuel] bounds their number. *)
Fixpoint be_digits (fuel : nat) (n : N) : bytes :=
  match fuel with
  | O => []
  | S fuel' => if n <? 256 then [n] else be_digits fuel' (n / 256) ++ [n mod 256]
  end.
Definition sample_bigint : NumBigint := {| to_bytes_be := λ n, be_digits (S (N.size_nat n)) n |}.
