(* ===== verification/SchedulerState.v ===== *)
(** The Scheduler contract (contracts/scheduler/src), part 1: its storage,
    events, owner configuration, admin endpoints, helpers, validations and
    views.  The other parts are CloneKeys.v, Scheduling.v, Execution.v,
    Intents.v; Scheduler.v assembles them. *)

From S2P Require Import Prelude Sdk Types.

(** ** storage.rs

    Cells of numbers and booleans hold their value, 0 and false being the
    empty cell; cells of addresses are options; keyed cells are maps; set
    mappers are finite sets; [keeper_list] is a [VecMapper], a list of cells
    in which [clear_entry] leaves a hole. *)

Record State := MkState {
  task_nonce : N;
  quantum_tasks : gmap hash QuantumTaskState;
  owner_tasks : gmap address (gset hash);
  keeper_registry_addr : option address;
  rewards_addr : option address;
  xwap_address : option address;
  min_deposit : N;
  zk_verifier_addr : option address;
  xsc_address : option address;
  used_compressed_tasks : gset hash;
  assigned_enclave_keeper : gmap hash address;
  protocol_fee_bps : N;
  reveal_window : N;
  commit_bond : N;
  whitelisted_keepers : gset address;
  max_reward_per_exec : N;
  executing_guard : bool;
  version : N;
  keeper_list : list (option address);
  round_robin_counter : N;
  target_blacklist : gset address;
  target_failure_count : gmap address N;
  total_successful_execs : N;
  total_failed_execs : N;
  max_exec_value_egld : N;
  keeper_shard : gmap address N;
  intent_nonce : N;
  intent_by_id : gmap N Intent;
  multi_intent_nonce : N;
  multi_intent_by_id : gmap N MultiIntent;
  pre_cognitive_intent_nonce : N;
  pre_cognitive_intent_by_id : gmap N PreCognitiveIntent;
  tasks_per_round : gmap (address * N) N;
  max_tasks_per_round : N;
  cross_shard_execs : N;
  intra_shard_execs : N;
  accrued_protocol_fees : N;
  clone_key_props : gmap address CloneKeyProperties;
  wallet_clone_keys : gmap address (gset address);
  accepted_payment_tokens : gset token_id;
  paused_cell : bool;
}.
#[export] Instance State_eta : Settable State := λ s,
  MkState (task_nonce s) (quantum_tasks s) (owner_tasks s) (keeper_registry_addr s)
    (rewards_addr s) (xwap_address s) (min_deposit s) (zk_verifier_addr s) (xsc_address s)
    (used_compressed_tasks s) (assigned_enclave_keeper s) (protocol_fee_bps s) (reveal_window s)
    (commit_bond s) (whitelisted_keepers s) (max_reward_per_exec s) (executing_guard s) (version s)
    (keeper_list s) (round_robin_counter s) (target_blacklist s) (target_failure_count s)
    (total_successful_execs s) (total_failed_execs s) (max_exec_value_egld s) (keeper_shard s)
    (intent_nonce s) (intent_by_id s) (multi_intent_nonce s) (multi_intent_by_id s)
    (pre_cognitive_intent_nonce s) (pre_cognitive_intent_by_id s) (tasks_per_round s)
    (max_tasks_per_round s) (cross_shard_execs s) (intra_shard_execs s) (accrued_protocol_fees s)
    (clone_key_props s) (wallet_clone_keys s) (accepted_payment_tokens s) (paused_cell s).

(** ** events.rs, and the events of clone_keys.rs *)

Inductive Event : Type :=
| task_scheduled_event_quantum (task_hash : hash) (owner target : address) (timestamp_ms : N)
| task_cancelled_event_quantum (task_hash : hash)
| task_expired_event_quantum (task_hash : hash)
| task_executed_event_quantum (task_hash : hash) (keeper : address) (success : bool)
| keeper_paid_event_quantum (task_hash : hash) (keeper : address) (amount : N)
| user_refunded_event_quantum (task_hash : hash) (owner : address) (amount : N)
| protocol_fee_paid_event_quantum (task_hash : hash) (amount : N)
| xse_payload_triggered_event (caller : address) (encrypted_payload_hex : bytes)
| intent_created_event (intent_id : N) (owner : address)
| multi_intent_created_event (intent_id : N) (owner : address)
| multi_intent_settled_event (intent_id : N) (solver : address)
| clone_key_authorized_event (main_wallet clone_key : address) (expiry spend_limit : N)
| clone_key_revoked_event (main_wallet clone_key : address) (refunded : N)
| clone_key_funded_event (clone_key : address) (added_amount : N).

(** The closure of the only promise: [execution_callback(task_hash, target, keeper)]. *)
Inductive Callback : Type :=
| execution_closure (task_hash : hash) (target_contract keeper : address).

Canonical K : contract := Contract State Event Callback.
Implicit Types (e : env K) (w : world K) (s : State) (Q : unit → world K → Prop) (E : string → Prop).

#[export] Instance pausable : Pausable K := {|
  paused := λ s : storage K, paused_cell (s : State);
  set_paused := λ b (s : storage K), (s : State) <| paused_cell := b |>;
|}.
#[export] Instance pausable_laws : PausableLaws K.
Proof. by split. Qed.

Definition empty_state : State :=
  MkState 0 ∅ ∅ None None None 0 None None ∅ ∅ 0 0 0 ∅ 0 false 0 [] 0 ∅ ∅ 0 0 0 ∅
    0 ∅ 0 ∅ 0 ∅ ∅ 0 0 0 0 ∅ ∅ ∅ false.

(** Sets stored per key ([UnorderedSetMapper] with an argument). *)
Definition set_of {A B} `{Countable A, Countable B} (m : gmap A (gset B)) (k : A) : gset B :=
  default ∅ (m !! k).
Definition set_insert {A B} `{Countable A, Countable B} (k : A) (x : B) (m : gmap A (gset B)) :=
  <[k := {[x]} ∪ set_of m k]> m.
Definition set_remove {A B} `{Countable A, Countable B} (k : A) (x : B) (m : gmap A (gset B)) :=
  <[k := set_of m k ∖ {[x]}]> m.

Section code.
Context `{Sdk}.

(** ** lib.rs *)

Definition init e (keeper_registry rewards : address) (deposit fee_bps : N) : M K unit :=
  require (fee_bps ≤ 10000) "Protocol fee cannot exceed 100%";;
  modify (λ s : State, s
    <| keeper_registry_addr := Some keeper_registry |>
    <| rewards_addr := Some rewards |>
    <| min_deposit := deposit |>
    <| protocol_fee_bps := fee_bps |>
    <| reveal_window := DEFAULT_REVEAL_WINDOW_SECONDS |>
    <| commit_bond := 0 |>
    <| task_nonce := 0 |>
    <| paused_cell := false |>
    <| executing_guard := false |>
    <| version := 1 |>
    <| max_reward_per_exec := DEFAULT_MAX_REWARD_PER_EXEC |>
    <| max_tasks_per_round := MAX_TASKS_PER_ROUND |>).

Definition upgrade e : M K unit :=
  modify (λ s : State, s <| version ::= λ v, u32_add v 1 |>);;
  modify (λ s : State, s <| max_tasks_per_round ::= λ v, if decide (v = 0) then MAX_TASKS_PER_ROUND else v |>);;
  modify (λ s : State, s <| max_reward_per_exec ::= λ v, if decide (v = 0) then DEFAULT_MAX_REWARD_PER_EXEC else v |>);;
  modify (λ s : State, s <| reveal_window ::= λ v, if decide (v = 0) then DEFAULT_REVEAL_WINDOW_SECONDS else v |>).

(** ** helpers.rs *)

Definition get_timestamp_ms e : N :=
  let raw_time := timestamp e in
  if decide (100000000000 < raw_time) then raw_time else u64_mul raw_time 1000.

Definition forward_protocol_fee (keeper : address) (task_id protocol_fee : N) : M K unit :=
  if decide (0 < protocol_fee)
  then modify (λ s : State, s <| accrued_protocol_fees ::= λ t, t + protocol_fee |>)
  else mret ().

Definition forward_keeper_result (keeper : address) (success : bool) : M K unit :=
  s ← get_st;
  match keeper_registry_addr s with
  | None => mret ()
  | Some registry_addr =>
      transfer_execute registry_addr "recordExecution" [ArgAddr keeper; ArgBool success] 0 5000000
  end.

(** ** validation.rs *)

Definition require_registered_keeper (keeper : address) : M K unit :=
  s ← get_st; require (keeper ∈ whitelisted_keepers s) "Not authorized".

Definition dangerous_endpoints : list string :=
  ["upgradeContract"; "changeOwner"; "ChangeOwnerAddress"; "setOwner"; "upgradeFromSource";
   "claimDeveloperRewards"; "ESDTTransfer"; "ESDTNFTTransfer"; "MultiESDTNFTTransfer"]%string.

Definition require_safe_target e (target : address) (endpoint : bytes) : M K unit :=
  require (target ≠ sc_address e) "S-1: Cannot target scheduler itself";;
  s ← get_st;
  registry ← sv_get empty_address (keeper_registry_addr s);
  require (target ≠ registry) "S-1: Cannot target KeeperRegistry";;
  rewards ← sv_get empty_address (rewards_addr s);
  require (target ≠ rewards) "S-1: Cannot target Rewards contract";;
  require (target ∉ target_blacklist s) "S-1: Target contract is blacklisted";;
  require (endpoint ∉ map string_bytes dangerous_endpoints) "S-1: Dangerous endpoint blocked".

Definition require_deposit_within_cap (deposit : N) : M K unit :=
  s ← get_st;
  let max_value := max_exec_value_egld s in
  if decide (0 < max_value)
  then require (deposit ≤ max_value) "S-8: Deposit exceeds maximum execution value"
  else mret ().

(** [comparator] applied to the oracle value and the threshold. *)
Definition compare_oracle (c : Comparator) (value threshold : N) : bool :=
  match c with
  | Gt => threshold <? value
  | Lt => value <? threshold
  | Eq => value =? threshold
  | Gte => threshold <=? value
  | Lte => value <=? threshold
  end.

Definition require_task_ripe_quantum e (t : Task) : M K unit :=
  let current_time_ms := get_timestamp_ms e in
  (if decide (0 < t_ttl_seconds t)
   then require (current_time_ms ≤ u64_add (t_created_at t) (u64_mul (t_ttl_seconds t) 1000))
          "Task expired (TTL exceeded)"
   else mret ());;
  match t_trigger t with
  | TimeOnce target_time => require (target_time ≤ current_time_ms) "Task not yet ripe"
  | TimeRecurring start_time _ _ => require (start_time ≤ current_time_ms) "Task not yet ripe"
  | StateDriven oracle_contract query_endpoint _ comparator threshold =>
      raw_result ← sync_call e oracle_contract query_endpoint [] 0;
      let oracle_value := match raw_result with [] => 0 | r :: _ => be_val r end in
      require (compare_oracle comparator oracle_value threshold = true) "Oracle condition not met"
  | EventDriven _ _ => mret ()
  | QuantumSealedHash _ => mret ()
  end.

(** ** config.rs *)

Definition owner_sets e (f : State → State) : M K unit :=
  not_payable e;; only_owner e;; modify f.

Definition set_min_deposit e (value : N) : M K unit :=
  owner_sets e (λ s : State, s <| min_deposit := value |>).

Definition set_protocol_fee_bps e (value : N) : M K unit :=
  not_payable e;;
  only_owner e;;
  require (value ≤ BPS_DENOMINATOR) "Fee exceeds 100%";;
  modify (λ s : State, s <| protocol_fee_bps := value |>).

Definition set_reveal_window e (value : N) : M K unit :=
  owner_sets e (λ s : State, s <| reveal_window := value |>).
Definition set_commit_bond e (value : N) : M K unit :=
  owner_sets e (λ s : State, s <| commit_bond := value |>).
Definition set_keeper_registry_addr e (addr : address) : M K unit :=
  owner_sets e (λ s : State, s <| keeper_registry_addr := Some addr |>).
Definition set_rewards_addr e (addr : address) : M K unit :=
  owner_sets e (λ s : State, s <| rewards_addr := Some addr |>).
Definition set_xwap_address e (addr : address) : M K unit :=
  owner_sets e (λ s : State, s <| xwap_address := Some addr |>).
Definition set_xsc_address e (addr : address) : M K unit :=
  owner_sets e (λ s : State, s <| xsc_address := Some addr |>).
Definition set_zk_verifier_addr e (addr : address) : M K unit :=
  owner_sets e (λ s : State, s <| zk_verifier_addr := Some addr |>).

(** The counter is set to 0 only when its cell is empty, that is, 0. *)
Definition add_whitelisted_keeper e (keeper : address) : M K unit :=
  not_payable e;;
  only_owner e;;
  modify (λ s : State, s <| whitelisted_keepers ::= λ a, {[keeper]} ∪ a |>);;
  modify (λ s : State, s <| keeper_list ::= λ l, l ++ [Some keeper] |>);;
  modify (λ s : State, s <| round_robin_counter ::= λ c, if decide (c = 0) then 0 else c |>).

(** [keeper_list().get(i)], with the 1-based index of [VecMapper]. *)
Definition keeper_list_get (i : nat) : M K address :=
  s ← get_st;
  match i with
  | O => throw "index out of range"
  | S j => match keeper_list s !! j with
           | None => throw "index out of range"
           | Some c => sv_get empty_address c
           end
  end.

(** The scan of [remove_whitelisted_keeper] from index [i] for [n] more steps:
    the first match is overwritten by the last entry, whose cell is cleared. *)
Fixpoint remove_scan (keeper : address) (len : nat) (n i : nat) : M K unit :=
  match n with
  | O => mret ()
  | S n' =>
      k ← keeper_list_get i;
      if decide (k = keeper)
      then (if decide (i < len)%nat
            then last ← keeper_list_get len;
                 modify (λ s : State, s <| keeper_list ::= <[(i - 1)%nat := Some last]> |>)
            else mret ());;
           modify (λ s : State, s <| keeper_list ::= <[(len - 1)%nat := None]> |>)
      else remove_scan keeper len n' (S i)
  end.

Definition remove_whitelisted_keeper e (keeper : address) : M K unit :=
  not_payable e;;
  only_owner e;;
  modify (λ s : State, s <| whitelisted_keepers ::= λ a, a ∖ {[keeper]} |>);;
  s ← get_st;
  let len := length (keeper_list s) in
  require (len ≤ 50)%nat "Keeper list too large for linear scan";;
  remove_scan keeper len len 1.

Definition set_max_reward_per_exec e (value : N) : M K unit :=
  owner_sets e (λ s : State, s <| max_reward_per_exec := value |>).

Definition flush_protocol_fees e : M K unit :=
  not_payable e;;
  s ← get_st;
  require (caller e ∈ whitelisted_keepers s ∨ caller e = owner_address e) "Not authorized";;
  let accrued := accrued_protocol_fees s in
  require (0 < accrued) "No fees to flush";;
  modify (λ s : State, s <| accrued_protocol_fees := 0 |>);;
  rewards ← sv_get empty_address (rewards_addr s);
  transfer_execute rewards "receiveExecutionFee" [ArgAddr (caller e); ArgNum 0] accrued 10000000.

Definition get_accrued_protocol_fees s : N := accrued_protocol_fees s.
Definition get_xwap_address : M K address := s ← get_st; sv_get empty_address (xwap_address s).

(** ** admin.rs *)

Definition blacklist_target e (target : address) : M K unit :=
  owner_sets e (λ s : State, s <| target_blacklist ::= λ a, {[target]} ∪ a |>).
Definition remove_blacklist e (target : address) : M K unit :=
  owner_sets e (λ s : State, s <| target_blacklist ::= λ a, a ∖ {[target]} |>).
Definition set_max_exec_value e (max_value : N) : M K unit :=
  owner_sets e (λ s : State, s <| max_exec_value_egld := max_value |>).

Definition register_keeper_shard e : M K unit :=
  not_payable e;;
  require_registered_keeper (caller e);;
  modify (λ s : State, s <| keeper_shard ::= <[caller e := get_shard_of_address (caller e)]> |>).

Definition get_security_metrics s : N * N * nat :=
  (total_successful_execs s, total_failed_execs s, size (target_blacklist s)).
Definition is_blacklisted s (target : address) : bool := bool_decide (target ∈ target_blacklist s).
Definition get_target_failures s (target : address) : N := nget (target_failure_count s) target.

(** ** views.rs *)

Definition get_task_nonce s : N := task_nonce s.
Definition get_owner_tasks_quantum s (owner : address) : list hash := elements (set_of (owner_tasks s) owner).
Definition get_min_deposit s : N := min_deposit s.
Definition get_protocol_fee_bps s : N := protocol_fee_bps s.
Definition get_whitelisted_keepers s : list address := elements (whitelisted_keepers s).

Fixpoint collect_keepers (n i : nat) : M K (list address) :=
  match n with
  | O => mret []
  | S n' => k ← keeper_list_get i; ks ← collect_keepers n' (S i); mret (k :: ks)
  end.
Definition get_keeper_list : M K (list address) :=
  s ← get_st; collect_keepers (length (keeper_list s)) 1.

Definition get_cross_shard_stats s : N * N := (cross_shard_execs s, intra_shard_execs s).
Definition get_keeper_shard s (keeper : address) : N := nget (keeper_shard s) keeper.
End code.
