(* ===== verification/CloneKeys.v ===== *)
(** The Scheduler contract, part 2: clone keys (scheduler/src/clone_keys.rs),
    burner wallets that spend a deposited budget of their main wallet. *)

From S2P Require Import Prelude Sdk Types SchedulerState.

Implicit Types (e : env K) (w : world K) (s : State) (Q : unit → world K → Prop) (E : string → Prop).

Section code.
Context `{Sdk}.

Definition get_clone_key (clone : address) : M K CloneKeyProperties :=
  s ← get_st; sv_get empty_clone_key (clone_key_props s !! clone).

Definition authorize_clone_key e (clone_address : address) (ttl_seconds : N) : M K unit :=
  payable_egld e;;
  require_not_paused;;
  let deposit := egld_value e in
  require (0 < deposit) "Must deposit EGLD as spend limit";;
  require (deposit ≤ MAX_CLONE_KEY_SPEND_LIMIT) "Spend limit exceeds maximum (2 EGLD)";;
  require (MIN_CLONE_KEY_TTL_SECONDS ≤ ttl_seconds) "TTL too short (minimum 1 hour)";;
  require (ttl_seconds ≤ MAX_CLONE_KEY_TTL_SECONDS) "TTL too long (maximum 30 days)";;
  require (clone_address ≠ caller e) "Cannot authorize self as Clone-Key";;
  s ← get_st;
  require (clone_key_props s !! clone_address = None) "Clone-Key already authorized";;
  require (size (set_of (wallet_clone_keys s) (caller e)) < MAX_CLONE_KEYS_PER_WALLET)%nat
    "Too many Clone-Keys (max 3)";;
  let expiry := u64_add (timestamp e) ttl_seconds in
  let props := MkCloneKeyProperties (caller e) deposit 0 expiry in
  modify (λ s : State, s <| clone_key_props ::= <[clone_address := props]> |>);;
  modify (λ s : State, s <| wallet_clone_keys ::= set_insert (caller e) clone_address |>);;
  emit (clone_key_authorized_event (caller e) clone_address expiry deposit).

Definition revoke_clone_key e (clone_address : address) : M K unit :=
  not_payable e;;
  s ← get_st;
  require (clone_key_props s !! clone_address ≠ None) "Clone-Key not found";;
  props ← get_clone_key clone_address;
  require (c_main_address props = caller e) "Not the owner of this Clone-Key";;
  refund ← (if decide (c_spent_amount props < c_spend_limit props)
            then biguint_sub (c_spend_limit props) (c_spent_amount props)
            else mret 0);
  modify (λ s : State, s <| clone_key_props ::= delete clone_address |>);;
  modify (λ s : State, s <| wallet_clone_keys ::= set_remove (caller e) clone_address |>);;
  (if decide (0 < refund) then direct_egld (caller e) refund else mret ());;
  emit (clone_key_revoked_event (caller e) clone_address refund).

Definition fund_clone_key e (clone_address : address) : M K unit :=
  payable_egld e;;
  require_not_paused;;
  let added := egld_value e in
  require (0 < added) "Must send EGLD";;
  s ← get_st;
  require (clone_key_props s !! clone_address ≠ None) "Clone-Key not found";;
  props ← get_clone_key clone_address;
  require (c_main_address props = caller e) "Not the owner of this Clone-Key";;
  require (timestamp e < c_expiry_timestamp props) "Clone-Key has expired — revoke and create a new one";;
  let new_limit := c_spend_limit props + added in
  require (new_limit ≤ MAX_CLONE_KEY_SPEND_LIMIT) "New spend limit would exceed maximum (2 EGLD)";;
  modify (λ s : State, s <| clone_key_props ::= <[clone_address := props <| c_spend_limit := new_limit |>]> |>);;
  emit (clone_key_funded_event clone_address added).

Definition get_clone_key_info s (clone_address : address) : option CloneKeyProperties :=
  clone_key_props s !! clone_address.
Definition get_wallet_clone_keys s (main_wallet : address) : list address :=
  elements (set_of (wallet_clone_keys s) main_wallet).

(** The effective owner of a call, and whether the caller is a live clone key. *)
Definition resolve_caller e : M K (address * bool) :=
  s ← get_st;
  match clone_key_props s !! caller e with
  | None => mret (caller e, false)
  | Some props =>
      if decide (c_expiry_timestamp props ≤ timestamp e)
      then mret (caller e, false)
      else mret (c_main_address props, true)
  end.

Definition charge_clone_key e (clone_address : address) (amt : N) : M K unit :=
  props ← get_clone_key clone_address;
  require (timestamp e < c_expiry_timestamp props) "Clone-Key has expired";;
  let new_spent := c_spent_amount props + amt in
  require (new_spent ≤ c_spend_limit props) "Clone-Key spend limit exceeded";;
  modify (λ s : State, s <| clone_key_props ::= <[clone_address := props <| c_spent_amount := new_spent |>]> |>).

End code.

(** ** Lemmas *)

(** The budget a clone key has left. *)
Definition unspent (c : CloneKeyProperties) : N := c_spend_limit c - c_spent_amount c.

Section proofs.
Context `{StrictSdk}.

Lemma wp_get_clone_key k (P : CloneKeyProperties → world K → Prop) E w :
  (∀ c, clone_key_props (st w) !! k = Some c → P c w) → E "storage decode error" →
  wp (get_clone_key k) P E w.
Proof.
  intros HQ HE. unfold get_clone_key. wp_go; [|done].
  rewrite strict_clone_key in *. destruct_or?; [by apply HQ|naive_solver].
Qed.

(** The caller acts for a live clone key's main wallet, or for itself. *)
Definition resolves_to e s (owner : address) (is_clone : bool) : Prop :=
  match clone_key_props s !! caller e with
  | Some props =>
      if decide (c_expiry_timestamp props ≤ timestamp e)
      then owner = caller e ∧ is_clone = false
      else owner = c_main_address props ∧ is_clone = true
  | None => owner = caller e ∧ is_clone = false
  end.

Lemma wp_resolve_caller e (P : address * bool → world K → Prop) E w :
  (∀ o c, resolves_to e (st w) o c → P (o, c) w) → wp (resolve_caller e) P E w.
Proof.
  intros HP. unfold resolve_caller. wp_go. unfold resolves_to in HP.
  destruct (clone_key_props (st w) !! caller e); wp_go; apply HP; try case_decide; done.
Qed.
End proofs.
