(* ===== verification/Scheduling.v ===== *)
(** The Scheduler contract, part 3: creation and cancellation of tasks
    (scheduler/src/scheduling.rs). *)

From S2P Require Import Prelude Sdk Types SchedulerState CloneKeys.

Implicit Types (e : env K) (w : world K) (s : State) (Q : unit → world K → Prop) (E : string → Prop).

Section code.
Context `{Sdk}.

Definition get_quantum_task (task_hash : hash) : M K QuantumTaskState :=
  s ← get_st; sv_get empty_quantum_task (quantum_tasks s !! task_hash).
Definition set_quantum_task (task_hash : hash) (q : QuantumTaskState) : M K unit :=
  modify (λ s : State, s <| quantum_tasks ::= <[task_hash := q]> |>).
Definition clear_quantum_task (task_hash : hash) : M K unit :=
  modify (λ s : State, s <| quantum_tasks ::= delete task_hash |>).

(** [sha256(top_encode(task_payload))], the Quantum Seal of a task. *)
Definition quantum_seal (t : Task) : hash := sha256 (encode_task t).

Definition validate_task_parameters (t : Task) (deposit : N) : M K unit :=
  s ← get_st;
  require (min_deposit s ≤ deposit) "Deposit below minimum";;
  require_deposit_within_cap deposit;;
  require (t_max_gas t ≤ 400000000) "max_gas too high";;
  require (5000000 ≤ t_max_gas t) "XCRON-PROTECT: max_gas too low";;
  require (t_ttl_seconds t ≤ 157680000) "ttl_seconds exceeds 5 years";;
  require (t_created_at t ≤ 200000000000000) "created_at malformed";;
  match t_trigger t with
  | TimeOnce target_time => require (target_time ≤ 200000000000000) "target_time too large"
  | TimeRecurring start_time _ _ => require (start_time ≤ 200000000000000) "start_time too large"
  | _ => mret ()
  end.

Definition enforce_rate_limits e (who : address) : M K unit :=
  s ← get_st;
  require (size (set_of (owner_tasks s) who) < 100)%nat "S-9: Too many active tasks";;
  let tasks_this_round := nget (tasks_per_round s) (who, block_round e) in
  let max_per_round := max_tasks_per_round s in
  (if decide (0 < max_per_round)
   then require (tasks_this_round < max_per_round) "S-11: Too many tasks this round"
   else mret ());;
  modify (λ s : State, s <| tasks_per_round ::= <[(who, block_round e) := u32_add tasks_this_round 1]> |>).

(** The deposit of a new task: a clone key spends its budget and attaches no
    EGLD, anyone else attaches it.  Both scheduling endpoints start with it. *)
Definition take_deposit e (is_clone_key : bool) (requested_deposit : option N) : M K N :=
  if is_clone_key
  then require (egld_value e = 0) "Clone-Keys cannot attach raw EGLD";;
       match requested_deposit with
       | None => throw "Clone-Key must specify requested_deposit"
       | Some req => charge_clone_key e (caller e) req;; mret req
       end
  else mret (egld_value e).

Definition schedule_quantum_task e (t : Task) (requested_deposit : option N) : M K hash :=
  payable_egld e;;
  require_not_paused;;
  r ← resolve_caller e;
  let owner := fst r in
  deposit ← take_deposit e (snd r) requested_deposit;
  validate_task_parameters t deposit;;
  let task_hash := quantum_seal t in
  s ← get_st;
  require (quantum_tasks s !! task_hash = None) "Task hash already exists";;
  enforce_rate_limits e owner;;
  set_quantum_task task_hash (MkQuantumTaskState owner deposit Pending 0);;
  modify (λ s : State, s <| owner_tasks ::= set_insert owner task_hash |>);;
  emit (task_scheduled_event_quantum task_hash owner (t_target_contract t) (get_timestamp_ms e));;
  mret task_hash.

(** The hash of a sovereign task: the owner's bytes appended to the payload,
    then the deposit top-encoded into the same buffer. *)
Definition sovereign_hash (payload : bytes) (owner : address) (deposit : N) : hash :=
  sha256 (top_encode_into (payload ++ addr_bytes owner) (EncNum deposit)).

Definition schedule_sovereign_task e (encrypted_payload_hex : bytes) (requested_deposit : option N)
  : M K hash :=
  payable_egld e;;
  require_not_paused;;
  r ← resolve_caller e;
  let owner := fst r in
  deposit ← take_deposit e (snd r) requested_deposit;
  s ← get_st;
  require (min_deposit s ≤ deposit) "Deposit below minimum";;
  require_deposit_within_cap deposit;;
  let task_hash := sovereign_hash encrypted_payload_hex owner deposit in
  s ← get_st;
  require (quantum_tasks s !! task_hash = None) "Sovereign task already exists";;
  set_quantum_task task_hash (MkQuantumTaskState owner deposit Pending 0);;
  modify (λ s : State, s <| owner_tasks ::= set_insert owner task_hash |>);;
  emit (xse_payload_triggered_event owner encrypted_payload_hex);;
  mret task_hash.

Definition cancel_quantum_task e (task_hash : hash) : M K unit :=
  not_payable e;;
  require_not_paused;;
  task_state ← get_quantum_task task_hash;
  require (is_zero (q_owner task_state) = false) "Task not found";;
  r ← resolve_caller e;
  require (q_owner task_state = fst r) "Not task owner";;
  require (q_status task_state = Pending) "Only Pending tasks can be cancelled";;
  clear_quantum_task task_hash;;
  modify (λ s : State, s <| owner_tasks ::= set_remove (q_owner task_state) task_hash |>);;
  s ← get_st;
  let deposit := q_deposit task_state in
  let penalty_fee := deposit * protocol_fee_bps s / 10000 in
  refund ← (if decide (penalty_fee < deposit) then biguint_sub deposit penalty_fee else mret 0);
  (if decide (0 < refund) then direct_egld (q_owner task_state) refund else mret ());;
  (if decide (0 < penalty_fee)
   then modify (λ s : State, s <| accrued_protocol_fees ::= λ v, v + penalty_fee |>)
   else mret ());;
  emit (task_cancelled_event_quantum task_hash).
End code.
