(* ===== verification/Execution.v ===== *)
(** The Scheduler contract, part 4: execution of tasks, the promise callback,
    and the settlement of confidential tasks (scheduler/src/execution.rs). *)

From S2P Require Import Prelude Sdk Types SchedulerState CloneKeys Scheduling.

Implicit Types (e : env K) (w : world K) (s : State) (Q : unit → world K → Prop) (E : string → Prop).

Section code.
Context `{Sdk}.

Definition get_assigned_enclave_keeper (task_hash : hash) : M K address :=
  s ← get_st; sv_get empty_address (assigned_enclave_keeper s !! task_hash).

(** [if raw_result.is_empty() { false } else { bool::top_decode(..).unwrap_or(false) }] *)
Definition decode_verdict (raw_result : list bytes) : bool :=
  match raw_result with [] => false | r :: _ => bool_decode r end.

Definition require_xwap_market_safe e : M K unit :=
  s ← get_st;
  xwap_addr ← sv_get empty_address (xwap_address s);
  if is_zero xwap_addr then mret ()
  else raw_results ← sync_call e xwap_addr (string_bytes "isSafeToExecute") [] 0;
       require (decode_verdict raw_results = true)
         "XWAP Oracle unsafe: market conditions not met".

(** The millisecond instant the round-robin window starts from: the trigger's
    own for time triggers, the current block's otherwise. *)
Definition ripe_time_ms e (t : Task) : N :=
  match t_trigger t with
  | TimeOnce target_time => target_time
  | TimeRecurring start_time _ _ => start_time
  | _ => u64_mul (timestamp e) 1000
  end.

(** The 1-based index of the keeper the task is assigned to. *)
Definition assigned_index e (t : Task) (task_hash : hash) (keeper_count : nat) : nat :=
  let hash_data := task_hash ++ be_bytes 8 (ripe_time_ms e t) ++ random_seed e in
  (N.to_nat (be_val (take 8 (sha256 hash_data)) mod N.of_nat keeper_count) + 1)%nat.

Definition perform_round_robin_check e (t : Task) (task_hash : hash) (keeper : address) : M K unit :=
  s ← get_st;
  let keeper_count := length (keeper_list s) in
  if decide (1 < keeper_count)%nat
  then assigned_keeper ← keeper_list_get (assigned_index e t task_hash keeper_count);
       if decide (keeper = assigned_keeper) then mret ()
       else require (u64_add (ripe_time_ms e t) (ROUND_ROBIN_GRACE_SECONDS * 1000)
                     ≤ u64_mul (timestamp e) 1000)
              "Task assigned to another keeper"
  else mret ().

(** The gas arithmetic of [dispatch_task_execution], in u64. *)
Definition cross_shard_overhead (max_gas : N) (is_cross_shard same_shard_keeper : bool) : N :=
  if negb is_cross_shard then 0
  else if same_shard_keeper then u64_mul max_gas 15 / 100
  else u64_mul max_gas 30 / 100.
Definition callback_gas (is_cross_shard : bool) : N :=
  if is_cross_shard then CALLBACK_GAS_RESERVE else CALLBACK_GAS_RESERVE * 80 / 100.
Definition min_gas_needed (max_gas : N) (is_cross_shard same_shard_keeper : bool) : N :=
  u64_add (u64_add (u64_add max_gas (cross_shard_overhead max_gas is_cross_shard same_shard_keeper))
                   (callback_gas is_cross_shard)) 10000000.

Definition dispatch_task_execution e (task_hash : hash) (t : Task) (keeper : address)
    (quantum_state : QuantumTaskState) : M K unit :=
  require_task_ripe_quantum e t;;
  require_safe_target e (t_target_contract t) (t_target_endpoint t);;
  (if t_require_xwap_safe t then require_xwap_market_safe e else mret ());;
  s ← get_st;
  let target_shard := get_shard_of_address (t_target_contract t) in
  let is_cross_shard := negb (bool_decide (target_shard = get_shard_of_address (sc_address e))) in
  let same_shard_keeper := bool_decide (nget (keeper_shard s) keeper = target_shard) in
  require (min_gas_needed (t_max_gas t) is_cross_shard same_shard_keeper ≤ gas_left e)
    "Insufficient gas";;
  set_quantum_task task_hash
    (quantum_state <| q_status := Executing |> <| q_executing_at := timestamp e |>);;
  if t_confidential t
  then emit (xse_payload_triggered_event keeper task_hash)
  else register_promise (t_target_contract t) (t_target_endpoint t) (map ArgBuf (t_target_args t)) 0
         (t_max_gas t) (Some (execution_closure task_hash (t_target_contract t) keeper))
         (callback_gas is_cross_shard).

(** The quantum seal of a [QuantumSealedHash] trigger: the secret is a
    32-byte preimage of the stored hash. *)
Definition check_quantum_secret (t : Task) (quantum_secret : option bytes) : M K unit :=
  match t_trigger t with
  | QuantumSealedHash expected_hash =>
      match quantum_secret with
      | None => throw "Missing Quantum Secret"
      | Some secret =>
          require (length secret = 32%nat) "XCRON-PROTECT: Quantum Secret must be 32 bytes";;
          require (sha256 secret = expected_hash) "Q-1: Quantum Hash Seal broken"
      end
  | _ => mret ()
  end.

Definition execute_quantum_task e (t : Task) (quantum_secret : option bytes) : M K unit :=
  not_payable e;;
  require_not_paused;;
  let keeper := caller e in
  require_registered_keeper keeper;;
  let task_hash := quantum_seal t in
  s ← get_st;
  require (quantum_tasks s !! task_hash ≠ None) "Q-1: Invalid Quantum Seal.";;
  quantum_state ← get_quantum_task task_hash;
  require (q_status quantum_state = Pending) "Task not Pending";;
  check_quantum_secret t quantum_secret;;
  match t_assigned_keeper t with
  | Some assigned => require (keeper = assigned) "MEV Protection: Locked task"
  | None => mret ()
  end;;
  perform_round_robin_check e t task_hash keeper;;
  (if t_confidential t
   then modify (λ s : State, s <| assigned_enclave_keeper ::= <[task_hash := keeper]> |>)
   else mret ());;
  dispatch_task_execution e task_hash t keeper quantum_state.

Definition execute_compressed_task e (t : Task) (packed_proof : bytes) : M K unit :=
  not_payable e;;
  require_not_paused;;
  let keeper := caller e in
  require_registered_keeper keeper;;
  let task_hash := quantum_seal t in
  s ← get_st;
  require (task_hash ∉ used_compressed_tasks s) "XSC: Task already executed";;
  xsc_addr ← sv_get empty_address (xsc_address s);
  require (is_zero xsc_addr = false) "XSC: Core address not configured";;
  raw_result ← sync_call e xsc_addr (string_bytes "verifyProof") [ArgBuf task_hash; ArgBuf packed_proof] 0;
  require (decode_verdict raw_result = true) "XSC: Invalid State Proof";;
  dispatch_task_execution e task_hash t keeper
    (MkQuantumTaskState (t_owner t) (t_deposit t) Pending 0).

Definition calculate_reward s (deposit : N) : M K N :=
  let protocol_fee := deposit * protocol_fee_bps s / BPS_DENOMINATOR in
  uncapped_reward ← (if decide (protocol_fee < deposit) then biguint_sub deposit protocol_fee else mret 0);
  let max_reward := max_reward_per_exec s in
  mret (if decide (0 < max_reward ∧ max_reward < uncapped_reward) then max_reward else uncapped_reward).

(** [if deposit > spent { direct_egld(owner, deposit - spent) }] *)
Definition direct_excess (owner : address) (deposit spent : N) : M K unit :=
  if decide (spent < deposit)
  then refund ← biguint_sub deposit spent; direct_egld owner refund
  else mret ().

Definition finalize_successful_execution (task_hash : hash) (target_contract keeper : address)
    (deposit : N) (owner : address) : M K unit :=
  clear_quantum_task task_hash;;
  modify (λ s : State, s <| owner_tasks ::= set_remove owner task_hash |>);;
  modify (λ s : State, s <| used_compressed_tasks ::= λ u, {[task_hash]} ∪ u |>);;
  modify (λ s : State, s <| assigned_enclave_keeper ::= delete task_hash |>);;
  modify (λ s : State, s <| total_successful_execs ::= λ v, u64_add v 1 |>);;
  (if is_zero target_contract then mret ()
   else modify (λ s : State, s <| target_failure_count ::= <[target_contract := 0]> |>));;
  s ← get_st;
  reward ← calculate_reward s deposit;
  let protocol_fee := deposit * protocol_fee_bps s / BPS_DENOMINATOR in
  direct_egld keeper reward;;
  let total_spent := reward + protocol_fee in
  direct_excess owner deposit total_spent;;
  forward_protocol_fee keeper 0 protocol_fee;;
  forward_keeper_result keeper true;;
  emit (task_executed_event_quantum task_hash keeper true).

Definition finalize_failed_execution (task_hash : hash) (target_contract keeper : address)
    (deposit : N) (owner : address) : M K unit :=
  clear_quantum_task task_hash;;
  modify (λ s : State, s <| owner_tasks ::= set_remove owner task_hash |>);;
  modify (λ s : State, s <| assigned_enclave_keeper ::= delete task_hash |>);;
  modify (λ s : State, s <| total_failed_execs ::= λ v, u64_add v 1 |>);;
  s ← get_st;
  let failures := u64_add (nget (target_failure_count s) target_contract) 1 in
  modify (λ s : State, s <| target_failure_count ::= <[target_contract := failures]> |>);;
  (if decide (MAX_TARGET_FAILURES ≤ failures)
   then modify (λ s : State, s <| target_blacklist ::= λ a, {[target_contract]} ∪ a |>)
   else mret ());;
  let protocol_fee := deposit * protocol_fee_bps s / BPS_DENOMINATOR in
  direct_excess owner deposit protocol_fee;;
  forward_protocol_fee keeper 0 protocol_fee;;
  forward_keeper_result keeper false;;
  emit (task_executed_event_quantum task_hash keeper false).

(** The promise callback; [success] is whether the target call succeeded. *)
Definition execution_callback (cb : Callback) (success : bool) : M K unit :=
  let '(execution_closure task_hash target_contract keeper) := cb in
  quantum_state ← get_quantum_task task_hash;
  if success
  then finalize_successful_execution task_hash target_contract keeper
         (q_deposit quantum_state) (q_owner quantum_state)
  else finalize_failed_execution task_hash target_contract keeper
         (q_deposit quantum_state) (q_owner quantum_state).

Definition settle_xse_task e (task_hash : hash) (zk_proof : bytes) : M K unit :=
  not_payable e;;
  require_not_paused;;
  let enforcer := caller e in
  require_registered_keeper enforcer;;
  assigned ← get_assigned_enclave_keeper task_hash;
  require (enforcer = assigned) "XSE: Unauthorized settler";;
  quantum_state ← get_quantum_task task_hash;
  require (q_status quantum_state = Executing) "XSE: Task not in execution state";;
  s ← get_st;
  zk_verifier ← sv_get empty_address (zk_verifier_addr s);
  (if is_zero zk_verifier then mret ()
   else raw_result ← sync_call e zk_verifier (string_bytes "verifyZkProof")
          [ArgBuf task_hash; ArgBuf zk_proof] 0;
        require (decode_verdict raw_result = true) "XSE: Invalid Enclave ZK-Proof");;
  finalize_successful_execution task_hash zero_address enforcer
    (q_deposit quantum_state) (q_owner quantum_state).

Definition trigger_xse_enclave e (encrypted_payload_hex : bytes) : M K unit :=
  not_payable e;;
  require_registered_keeper (caller e);;
  emit (xse_payload_triggered_event (caller e) encrypted_payload_hex).

Definition stuck_threshold : N := 24 * 60 * 60.

Definition rescue_stuck_xse_task e (task_hash : hash) : M K unit :=
  not_payable e;;
  require_not_paused;;
  s ← get_st;
  require (quantum_tasks s !! task_hash ≠ None) "Task not found";;
  quantum_state ← get_quantum_task task_hash;
  require (q_status quantum_state = Executing) "V12: Task is not in Executing state";;
  require (u64_add (q_executing_at quantum_state) stuck_threshold ≤ timestamp e)
    "V12: Task has not been stuck for 24 hours yet";;
  require (caller e = q_owner quantum_state ∨ caller e = owner_address e)
    "V12: Only task owner or protocol owner can rescue";;
  assigned_keeper ← get_assigned_enclave_keeper task_hash;
  (if is_zero assigned_keeper then mret () else forward_keeper_result assigned_keeper false);;
  clear_quantum_task task_hash;;
  modify (λ s : State, s <| owner_tasks ::= set_remove (q_owner quantum_state) task_hash |>);;
  modify (λ s : State, s <| assigned_enclave_keeper ::= delete task_hash |>);;
  direct_egld (q_owner quantum_state) (q_deposit quantum_state);;
  emit (task_executed_event_quantum task_hash assigned_keeper false).
End code.
