(* ===== verification/Settlement.v ===== *)
(** Settlement of a task in the Scheduler: the exact effect of
    [finalize_successful_execution] and [finalize_failed_execution]. *)

From S2P Require Import Prelude Sdk Types SchedulerState CloneKeys Scheduling Execution.

Implicit Types (e : env K) (w : world K) (s : State) (Q : unit → world K → Prop) (E : string → Prop).

(** The cut of the protocol, what the keeper gets and what goes back to the
    owner when the target call succeeded. *)
Definition protocol_cut s (deposit : N) : N := deposit * protocol_fee_bps s / BPS_DENOMINATOR.
Definition capped (max_reward net : N) : N := if decide (0 < max_reward) then N.min max_reward net else net.
Definition reward_of s (deposit : N) : N :=
  capped (max_reward_per_exec s) (deposit - protocol_cut s deposit).
Definition refund_of s (deposit : N) : N := deposit - (reward_of s deposit + protocol_cut s deposit).

(** Storage after the settlement of task [h]. *)
Definition closed (h : hash) (owner : address) s : State :=
  s <| quantum_tasks ::= delete h |> <| owner_tasks ::= set_remove owner h |>
    <| assigned_enclave_keeper ::= delete h |>.
Definition success_state (h : hash) (target owner : address) (deposit : N) s : State :=
  closed h owner s <| used_compressed_tasks ::= λ u, {[h]} ∪ u |>
    <| total_successful_execs ::= λ v, u64_add v 1 |>
    <| target_failure_count ::= if is_zero target then id else <[target := 0]> |>
    <| accrued_protocol_fees ::= λ v, v + protocol_cut s deposit |>.
Definition failure_state (h : hash) (target owner : address) (deposit : N) s : State :=
  let failures := u64_add (nget (target_failure_count s) target) 1 in
  closed h owner s
    <| total_failed_execs ::= λ v, u64_add v 1 |>
    <| target_failure_count ::= <[target := failures]> |>
    <| target_blacklist ::= if decide (MAX_TARGET_FAILURES ≤ failures) then λ a, {[target]} ∪ a else id |>
    <| accrued_protocol_fees ::= λ v, v + protocol_cut s deposit |>.

(** The report to the KeeperRegistry, when one is configured. *)
Definition report_effects (keeper : address) (success : bool) s : list (effect K) :=
  match keeper_registry_addr s with
  | Some registry =>
      [TransferExecute registry "recordExecution" [ArgAddr keeper; ArgBool success] 0 5000000]
  | None => []
  end.

(** [Send to Egld amt] when [amt] is positive. *)
Definition refund_effects (to : address) (amt : N) : list (effect K) :=
  if decide (0 < amt) then [Send to Egld amt] else [].

Definition success_log (h : hash) (owner keeper : address) (deposit : N) s : list (effect K) :=
  [Send keeper Egld (reward_of s deposit)] ++ refund_effects owner (refund_of s deposit) ++
  report_effects keeper true s ++ [Emit (task_executed_event_quantum h keeper true)].
Definition failure_log (h : hash) (owner keeper : address) (deposit : N) s : list (effect K) :=
  refund_effects owner (deposit - protocol_cut s deposit) ++
  report_effects keeper false s ++ [Emit (task_executed_event_quantum h keeper false)].

Section proofs.
Context `{StrictSdk}.

Lemma protocol_cut_le s d : protocol_fee_bps s ≤ BPS_DENOMINATOR → protocol_cut s d ≤ d.
Proof. apply bps_cut_le. Qed.

Lemma reward_of_le s d : reward_of s d ≤ d - protocol_cut s d.
Proof. unfold reward_of, capped. case_decide; lia. Qed.

(** Nothing of the deposit is lost or created. *)
Lemma deposit_split s d :
  protocol_fee_bps s ≤ BPS_DENOMINATOR → reward_of s d + protocol_cut s d + refund_of s d = d.
Proof.
  intros Hb. pose proof (protocol_cut_le s d Hb). pose proof (reward_of_le s d).
  unfold refund_of. lia.
Qed.

Lemma wp_calculate_reward s d (P : N → world K → Prop) E w :
  P (reward_of s d) w → wp (calculate_reward s d) P E w.
Proof.
  intros HP. unfold calculate_reward.
  assert (Hu : P (if decide (0 < max_reward_per_exec s ∧ max_reward_per_exec s < d - protocol_cut s d)
                  then max_reward_per_exec s else d - protocol_cut s d) w).
  { unfold reward_of, capped in HP. repeat case_decide; try lia.
    - by replace (max_reward_per_exec s) with (N.min (max_reward_per_exec s) (d - protocol_cut s d)) by lia.
    - by replace (d - protocol_cut s d) with (N.min (max_reward_per_exec s) (d - protocol_cut s d)) by lia.
    - done. }
  fold (protocol_cut s d). wp_go; [done|lia|].
  by replace (d - protocol_cut s d) with 0 in Hu by lia.
Qed.

(** The report and the payment of a fee leave the balance of EGLD alone. *)
Lemma wp_forward_keeper_result k b Q E w :
  (∀ bal', bal' Egld = bal w Egld → Q () (World (st w) bal' (log w ++ report_effects k b (st w)))) →
  wp (forward_keeper_result k b) Q E w.
Proof.
  intros HQ. unfold forward_keeper_result. wp_go. unfold report_effects in HQ.
  destruct (keeper_registry_addr (st w)); wp_go.
  - apply HQ; simpl; rewrite bal_insert_eq; lia.
  - lia.
  - rewrite app_nil_r in HQ. destruct w. by apply HQ.
Qed.

Lemma accrue_zero s : s <| accrued_protocol_fees ::= λ v, v + 0 |> = s.
Proof. destruct s. unfold rset. by rewrite N.add_0_r. Qed.

Lemma wp_forward_protocol_fee k i fee Q E w :
  Q () (w <| st ::= λ s : State, s <| accrued_protocol_fees ::= λ v, v + fee |> |>) →
  wp (forward_protocol_fee k i fee) Q E w.
Proof.
  intros HQ. unfold forward_protocol_fee. wp_go; [done|].
  replace fee with 0 in HQ by lia. destruct w as [s b l].
  by rewrite <-(accrue_zero s).
Qed.

(** A refund guarded by a comparison is a refund of the truncated difference. *)
Lemma wp_direct_excess to d spent Q E w :
  d - spent ≤ bal w Egld →
  (∀ bal', bal' Egld + (d - spent) = bal w Egld →
     Q () (World (st w) bal' (log w ++ refund_effects to (d - spent)))) →
  wp (direct_excess to d spent) Q E w.
Proof.
  intros Hle HQ. unfold direct_excess. unfold refund_effects in HQ. wp_go; try lia.
  - rewrite decide_True in HQ by lia. apply HQ; simpl; rewrite bal_insert_eq; lia.
  - rewrite decide_False, app_nil_r in HQ by lia. destruct w. apply HQ. simpl. lia.
Qed.

Lemma wp_finalize_success h target keeper d owner (Q : unit → world K → Prop) E w :
  protocol_fee_bps (st w) ≤ BPS_DENOMINATOR → d ≤ bal w Egld →
  (∀ w', st w' = success_state h target owner d (st w) →
     log w' = log w ++ success_log h owner keeper d (st w) →
     bal w' Egld + reward_of (st w) d + refund_of (st w) d = bal w Egld → Q () w') →
  wp (finalize_successful_execution h target keeper d owner) Q E w.
Proof.
  intros Hb Hd HQ. pose proof (deposit_split _ d Hb) as Hsplit.
  pose proof (N.le_0_l (protocol_cut (st w) d)) as Hcut.
  unfold finalize_successful_execution, clear_quantum_task.
  unfold success_state, success_log in HQ.
  destruct (is_zero target) eqn:Hz.
  all: wp_go; apply wp_calculate_reward; wp_go; unfold refund_of, reward_of, protocol_cut in *; simpl in *; [|exfalso; lia].
  all: apply wp_direct_excess; [simpl; rewrite bal_insert_eq; lia|].
  all: intros b1 Hb1; wp_go; apply wp_forward_protocol_fee; wp_go; apply wp_forward_keeper_result.
  all: intros b2 Hb2; wp_go; apply HQ; simpl in *; rewrite ?bal_insert_eq in *; rewrite <-?app_assoc; try done.
  all: lia.
Qed.

Lemma wp_finalize_failure h target keeper d owner (Q : unit → world K → Prop) E w :
  protocol_fee_bps (st w) ≤ BPS_DENOMINATOR → d ≤ bal w Egld →
  (∀ w', st w' = failure_state h target owner d (st w) →
     log w' = log w ++ failure_log h owner keeper d (st w) →
     bal w' Egld + (d - protocol_cut (st w) d) = bal w Egld → Q () w') →
  wp (finalize_failed_execution h target keeper d owner) Q E w.
Proof.
  intros Hb Hd HQ. pose proof (N.le_0_l (protocol_cut (st w) d)) as Hcut.
  unfold finalize_failed_execution, clear_quantum_task.
  unfold failure_state, failure_log in HQ.
  wp_go; unfold protocol_cut in *; simpl in *.
  all: apply wp_direct_excess; [simpl; lia|].
  all: intros b1 Hb1; wp_go; apply wp_forward_protocol_fee; wp_go; apply wp_forward_keeper_result.
  all: intros b2 Hb2; wp_go; apply HQ; simpl in *; rewrite <-?app_assoc; try done; try lia.
  - by rewrite decide_True.
  - by rewrite decide_False.
Qed.

(** The storage after a settlement that goes through, whatever the balance. *)
Lemma wp_success_state h target keeper d owner (Q : unit → world K → Prop) w :
  (∀ w', st w' = success_state h target owner d (st w) → Q () w') →
  wp (finalize_successful_execution h target keeper d owner) Q any_error w.
Proof.
  intros HQ. unfold finalize_successful_execution, clear_quantum_task. unfold success_state in HQ.
  destruct (is_zero target) eqn:Hz.
  all: wp_go; apply wp_calculate_reward; unfold direct_excess; wp_go.
  all: apply wp_forward_protocol_fee; wp_go; apply wp_forward_keeper_result; intros b2 _; wp_go; by apply HQ.
Qed.

Lemma wp_failure_state h target keeper d owner (Q : unit → world K → Prop) w :
  (∀ w', st w' = failure_state h target owner d (st w) → Q () w') →
  wp (finalize_failed_execution h target keeper d owner) Q any_error w.
Proof.
  intros HQ. unfold finalize_failed_execution, clear_quantum_task. unfold failure_state in HQ.
  unfold direct_excess. wp_go; simpl in *.
  all: apply wp_forward_protocol_fee; wp_go; apply wp_forward_keeper_result; intros b2 _; wp_go; apply HQ.
  all: simpl; first [by rewrite decide_True|by rewrite decide_False].
Qed.
End proofs.
