(* ===== verification/Intents.v ===== *)
(** The Scheduler contract, part 5: declarative intents, multi-intents and
    pre-cognitive intents (scheduler/src/intents.rs). *)

From S2P Require Import Prelude Sdk Types SchedulerState.
From stdpp Require Import pretty.
#[local] Open Scope N_scope.

Implicit Types (e : env K) (w : world K) (s : State) (Q : unit → world K → Prop) (E : string → Prop).

Section code.
Context `{Sdk}.

(** ** Intents *)

Definition get_intent (id : N) : M K Intent :=
  s ← get_st; sv_get empty_intent (intent_by_id s !! id).
Definition set_intent (id : N) (i : Intent) : M K unit :=
  modify (λ s : State, s <| intent_by_id ::= <[id := i]> |>).

(** [transfers.len() == 1] and [transfers.get(0)]. *)
Definition single_transfer e (msg : string) : M K payment :=
  match esdt_transfers e with [p] => mret p | _ => throw msg end.

Definition deadline_bound : N := 10000000000.

Definition create_intent e (token_out : token_id) (min_return deadline solver_fee : N) : M K N :=
  require_not_paused;;
  require (egld_value e = solver_fee)
    "XCRON-PROTECT: EGLD adjunto debe coincidir exactamente con el solver_fee";;
  esdt_transfer ← single_transfer e "Must receive exactly 1 ESDT token";
  let token_in := token_identifier esdt_transfer in
  let amount_in := amount esdt_transfer in
  require (0 < amount_in) "Amount in must be greater than 0";;
  s ← get_st;
  require (token_in ∈ accepted_payment_tokens s)
    "XCRON-PROTECT: Token is not in the strict Whitelist. Poisoned Token Attack blocked.";;
  require (deadline < deadline_bound)
    "XCRON-PROTECT: Deadline debe estar en segundos (Linux Epoch), no en milisegundos";;
  require (timestamp e < deadline) "XCRON-PROTECT: Deadline must be in the future";;
  let intent_id := u64_add (intent_nonce s) 1 in
  modify (λ s : State, s <| intent_nonce := intent_id |>);;
  set_intent intent_id
    (MkIntent intent_id (caller e) token_in amount_in token_out min_return deadline solver_fee
       IntentPending None);;
  emit (intent_created_event intent_id (caller e));;
  mret intent_id.

(** [if fee > 0 { direct_egld(to, fee) }] *)
Definition pay_fee (to : address) (fee : N) : M K unit :=
  if decide (0 < fee) then direct_egld to fee else mret ().

Definition cancel_intent e (intent_id : N) : M K unit :=
  not_payable e;;
  intent ← get_intent intent_id;
  require (in_owner intent = caller e) "Only owner can cancel";;
  require (in_status intent = IntentPending) "Intent not pending";;
  set_intent intent_id (intent <| in_status := IntentCancelled |>);;
  direct_esdt (caller e) (in_token_in intent) 0 (in_amount_in intent);;
  pay_fee (caller e) (in_solver_fee intent).

Definition solve_intent e (intent_id : N) : M K unit :=
  require_registered_keeper (caller e);;
  intent ← get_intent intent_id;
  require (in_status intent = IntentPending) "XCRON-PROTECT: Intent not pending";;
  require (timestamp e ≤ in_deadline intent) "XCRON-PROTECT: Intent expired";;
  r ← single_fungible_esdt e;
  let '(payment_token, payment_amount) := r in
  require (payment_token = in_token_out intent) "XCRON-PROTECT: Token invalido aportado por el Solver";;
  require (in_min_return intent ≤ payment_amount)
    "XCRON-PROTECT: Slippage no cumplido (Zero-Score Hack evitado)";;
  set_intent intent_id (intent <| in_status := IntentSettled |> <| in_settled_by := Some (caller e) |>);;
  direct_esdt (in_owner intent) payment_token 0 payment_amount;;
  direct_esdt (caller e) (in_token_in intent) 0 (in_amount_in intent);;
  pay_fee (caller e) (in_solver_fee intent).

(** ** Multi-intents *)

Definition get_multi_intent (id : N) : M K MultiIntent :=
  s ← get_st; sv_get empty_multi_intent (multi_intent_by_id s !! id).
Definition set_multi_intent (id : N) (i : MultiIntent) : M K unit :=
  modify (λ s : State, s <| multi_intent_by_id ::= <[id := i]> |>).

(** The nested loops over [i < j]: no two outcomes name the same token. *)
Fixpoint require_distinct (outcomes : list MultiIntentOutcome) : M K unit :=
  match outcomes with
  | [] => mret ()
  | o :: rest =>
      (fix inner (js : list MultiIntentOutcome) : M K unit :=
         match js with
         | [] => mret ()
         | o' :: js' =>
             require (mo_token_out o ≠ mo_token_out o')
               "XCRON-PROTECT: Duplicate tokens in MultiIntent outcomes not allowed";;
             inner js'
         end) rest;;
      require_distinct rest
  end.

Definition create_multi_intent e (outcomes : list MultiIntentOutcome) (deadline solver_fee : N) : M K N :=
  require_not_paused;;
  require (egld_value e = solver_fee) "XCRON-PROTECT: EGLD payment must match solver_fee";;
  esdt_transfer ← single_transfer e "Must receive exactly 1 ESDT token as input";
  let token_in := token_identifier esdt_transfer in
  let amount_in := amount esdt_transfer in
  s ← get_st;
  require (token_in ∈ accepted_payment_tokens s) "XCRON-PROTECT: Input token not whitelisted";;
  require (0 < length outcomes)%nat "XCRON-PROTECT: Outcomes cannot be empty";;
  require (length outcomes ≤ 5)%nat "XCRON-PROTECT: Too many outcomes (max 5)";;
  require_distinct outcomes;;
  require (deadline < deadline_bound) "XCRON-PROTECT: Deadline must be in seconds";;
  require (timestamp e < deadline) "XCRON-PROTECT: Deadline must be in the future";;
  let intent_id := u64_add (multi_intent_nonce s) 1 in
  modify (λ s : State, s <| multi_intent_nonce := intent_id |>);;
  set_multi_intent intent_id
    (MkMultiIntent intent_id (caller e) token_in amount_in outcomes deadline solver_fee
       IntentPending None);;
  emit (multi_intent_created_event intent_id (caller e));;
  mret intent_id.

Definition cancel_multi_intent e (intent_id : N) : M K unit :=
  not_payable e;;
  intent ← get_multi_intent intent_id;
  require (mi_owner intent = caller e) "Only owner can cancel";;
  require (mi_status intent = IntentPending) "Intent not pending";;
  set_multi_intent intent_id (intent <| mi_status := IntentCancelled |>);;
  direct_esdt (caller e) (mi_token_in intent) 0 (mi_amount_in intent);;
  pay_fee (caller e) (mi_solver_fee intent).

Definition at_index (msg : string) (i : nat) : string := (msg +:+ pretty i)%string.

(** The payments match the outcomes one by one; [i] is the loop index.  The
    lengths have been compared, so [payments.get(i)] is in range. *)
Fixpoint check_outcomes (i : nat) (outcomes : list MultiIntentOutcome) (payments : list payment) : M K unit :=
  match outcomes with
  | [] => mret ()
  | o :: os =>
      match payments with
      | [] => throw "index out of range"
      | p :: ps =>
          require (token_identifier p = mo_token_out o) (at_index "XCRON-PROTECT: Token mismatch at index " i);;
          require (mo_min_return o ≤ amount p) (at_index "XCRON-PROTECT: Slippage condition failed at index " i);;
          check_outcomes (S i) os ps
      end
  end.

Fixpoint forward_payments (to : address) (payments : list payment) : M K unit :=
  match payments with
  | [] => mret ()
  | p :: ps => direct_esdt to (token_identifier p) 0 (amount p);; forward_payments to ps
  end.

Definition solve_multi_intent e (intent_id : N) : M K unit :=
  require_registered_keeper (caller e);;
  intent ← get_multi_intent intent_id;
  require (mi_status intent = IntentPending) "XCRON-PROTECT: Intent not pending";;
  require (timestamp e ≤ mi_deadline intent) "XCRON-PROTECT: Intent expired";;
  let payments := esdt_transfers e in
  require (length payments = length (mi_outcomes intent))
    "XCRON-PROTECT: Number of tokens doesn't match requirements";;
  check_outcomes 0 (mi_outcomes intent) payments;;
  set_multi_intent intent_id
    (intent <| mi_status := IntentSettled |> <| mi_settled_by := Some (caller e) |>);;
  emit (multi_intent_settled_event intent_id (caller e));;
  forward_payments (mi_owner intent) payments;;
  direct_esdt (caller e) (mi_token_in intent) 0 (mi_amount_in intent);;
  pay_fee (caller e) (mi_solver_fee intent).

(** ** Pre-cognitive intents *)

Definition get_pre_cognitive (id : N) : M K PreCognitiveIntent :=
  s ← get_st; sv_get empty_pre_cognitive (pre_cognitive_intent_by_id s !! id).
Definition set_pre_cognitive (id : N) (i : PreCognitiveIntent) : M K unit :=
  modify (λ s : State, s <| pre_cognitive_intent_by_id ::= <[id := i]> |>).

Definition create_pre_cognitive_intent e (merkle_root : hash) (deadline keeper_fee : N) : M K N :=
  require_not_paused;;
  require (egld_value e = keeper_fee)
    "XCRON-PROTECT: EGLD adjunto debe coincidir exactamente con el keeper_fee";;
  esdt_transfer ← single_transfer e "Must receive exactly 1 ESDT token";
  let token_in := token_identifier esdt_transfer in
  let amount_in := amount esdt_transfer in
  require (0 < amount_in) "Amount in must be greater than 0";;
  require (deadline < deadline_bound) "XCRON-PROTECT: Deadline must be in Linux Epoch seconds";;
  require (timestamp e < deadline) "XCRON-PROTECT: Deadline must be in the future";;
  s ← get_st;
  let intent_id := u64_add (pre_cognitive_intent_nonce s) 1 in
  modify (λ s : State, s <| pre_cognitive_intent_nonce := intent_id |>);;
  set_pre_cognitive intent_id
    (MkPreCognitiveIntent intent_id (caller e) token_in amount_in merkle_root deadline keeper_fee
       PcPending None);;
  mret intent_id.

Definition cancel_pre_cognitive_intent e (intent_id : N) : M K unit :=
  not_payable e;;
  intent ← get_pre_cognitive intent_id;
  require (pc_owner intent = caller e) "Only owner can cancel";;
  require (pc_status intent = PcPending) "Intent not pending";;
  set_pre_cognitive intent_id (intent <| pc_status := PcCancelled |>);;
  direct_esdt (caller e) (pc_token_in intent) 0 (pc_amount_in intent);;
  pay_fee (caller e) (pc_keeper_fee intent).

(** The arguments of a leaf, each behind its length in 4 big-endian bytes
    ([as u32]). *)
Definition append_arg (buf arg : bytes) : bytes :=
  buf ++ be_bytes 4 (N.of_nat (length arg) mod u32_mod) ++ arg.

Definition encode_leaf (target_contract : address) (target_endpoint : bytes)
    (target_args : list bytes) (expected_token_out : token_id) (min_return : N) : bytes :=
  let buf := top_encode_into [] (EncAddr target_contract) in
  let buf := top_encode_into buf (EncBuf target_endpoint) in
  let buf := foldl append_arg buf target_args in
  let buf := top_encode_into buf (EncBuf (string_bytes expected_token_out)) in
  top_encode_into buf (EncNum min_return).

(** The comparison loop of [verify_merkle_proof]. *)
Fixpoint is_less (a b : bytes) : bool :=
  match a, b with
  | x :: a', y :: b' => if x <? y then true else if y <? x then false else is_less a' b'
  | _, _ => false
  end.

Definition merkle_prefix : N := 1.

Definition merkle_step (current_hash sibling : bytes) : bytes :=
  sha256 (merkle_prefix ::
    if is_less current_hash sibling then current_hash ++ sibling else sibling ++ current_hash).

Definition verify_merkle_proof (leaf_hash : hash) (proof : list hash) (root : hash) : bool :=
  bool_decide (foldl merkle_step leaf_hash proof = root).

Definition execute_pre_cognitive_leaf e (intent_id : N) (merkle_proof : list hash)
    (target_contract : address) (target_endpoint : bytes) (target_args : list bytes)
    (expected_token_out : token_id) (min_return : N) : M K unit :=
  require_registered_keeper (caller e);;
  intent ← get_pre_cognitive intent_id;
  require (pc_status intent = PcPending) "XCRON-PROTECT: Intent not pending";;
  require (timestamp e ≤ pc_deadline intent) "XCRON-PROTECT: Intent expired";;
  let leaf_hash := sha256 (encode_leaf target_contract target_endpoint target_args
                             expected_token_out min_return) in
  require (verify_merkle_proof leaf_hash merkle_proof (pc_merkle_root intent) = true)
    "XCRON-PROTECT: Invalid Merkle Proof (Condition not met or AI didn't sign this leaf)";;
  r ← single_fungible_esdt e;
  let '(payment_token, payment_amount) := r in
  require (payment_token = expected_token_out) "XCRON-PROTECT: Invalid execution outcome token";;
  require (min_return ≤ payment_amount) "XCRON-PROTECT: Slippage condition not matched";;
  set_pre_cognitive intent_id
    (intent <| pc_status := PcExecuted |> <| pc_executed_by := Some (caller e) |>);;
  direct_esdt (pc_owner intent) payment_token 0 payment_amount;;
  direct_esdt (caller e) (pc_token_in intent) 0 (pc_amount_in intent);;
  pay_fee (caller e) (pc_keeper_fee intent).
End code.
