(* ===== verification/Scheduler.v ===== *)
(** The Scheduler contract, assembled (scheduler/src/lib.rs): its transactions,
    its reachable states, and what it owes. *)

From S2P Require Import Prelude Sdk Types SchedulerState CloneKeys Scheduling Execution Intents.

Implicit Types (e : env K) (w : world K) (s : State) (Q : unit → world K → Prop) (E : string → Prop).

(** Every endpoint that changes state, and the promise callback. *)
Inductive call : Type :=
| Upgrade
| ScheduleQuantumTask (t : Task) (requested_deposit : option N)
| ScheduleSovereignTask (encrypted_payload_hex : bytes) (requested_deposit : option N)
| CancelQuantumTask (task_hash : hash)
| ExecuteQuantumTask (t : Task) (quantum_secret : option bytes)
| ExecuteCompressedTask (t : Task) (packed_proof : bytes)
| ExecutionCallback (cb : Callback) (success : bool)
| SettleXseTask (task_hash : hash) (zk_proof : bytes)
| TriggerXseEnclave (encrypted_payload_hex : bytes)
| RescueStuckXseTask (task_hash : hash)
| CreateIntent (token_out : token_id) (min_return deadline solver_fee : N)
| CancelIntent (intent_id : N)
| SolveIntent (intent_id : N)
| CreateMultiIntent (outcomes : list MultiIntentOutcome) (deadline solver_fee : N)
| CancelMultiIntent (intent_id : N)
| SolveMultiIntent (intent_id : N)
| CreatePreCognitiveIntent (merkle_root : hash) (deadline keeper_fee : N)
| CancelPreCognitiveIntent (intent_id : N)
| ExecutePreCognitiveLeaf (intent_id : N) (merkle_proof : list hash) (target_contract : address)
    (target_endpoint : bytes) (target_args : list bytes) (expected_token_out : token_id) (min_return : N)
| AuthorizeCloneKey (clone_address : address) (ttl_seconds : N)
| RevokeCloneKey (clone_address : address)
| FundCloneKey (clone_address : address)
| SetMinDeposit (value : N)
| SetProtocolFeeBps (value : N)
| SetRevealWindow (value : N)
| SetCommitBond (value : N)
| SetKeeperRegistryAddr (addr : address)
| SetRewardsAddr (addr : address)
| SetXwapAddress (addr : address)
| SetXscAddress (addr : address)
| SetZkVerifierAddr (addr : address)
| AddWhitelistedKeeper (keeper : address)
| RemoveWhitelistedKeeper (keeper : address)
| SetMaxRewardPerExec (value : N)
| FlushProtocolFees
| BlacklistTarget (target : address)
| RemoveBlacklist (target : address)
| SetMaxExecValue (max_value : N)
| RegisterKeeperShard
| Pause
| Unpause.

Section code.
Context `{Sdk}.

(** The result of an endpoint is not used by the caller of a transaction. *)
Definition discard {A} (m : M K A) : M K unit := m ≫= λ _, mret ().

Definition dispatch e (c : call) : M K unit :=
  match c with
  | Upgrade => upgrade e
  | ScheduleQuantumTask t r => discard (schedule_quantum_task e t r)
  | ScheduleSovereignTask p r => discard (schedule_sovereign_task e p r)
  | CancelQuantumTask h => cancel_quantum_task e h
  | ExecuteQuantumTask t q => execute_quantum_task e t q
  | ExecuteCompressedTask t p => execute_compressed_task e t p
  | ExecutionCallback cb b => execution_callback cb b
  | SettleXseTask h p => settle_xse_task e h p
  | TriggerXseEnclave p => trigger_xse_enclave e p
  | RescueStuckXseTask h => rescue_stuck_xse_task e h
  | CreateIntent o m d f => discard (create_intent e o m d f)
  | CancelIntent i => cancel_intent e i
  | SolveIntent i => solve_intent e i
  | CreateMultiIntent o d f => discard (create_multi_intent e o d f)
  | CancelMultiIntent i => cancel_multi_intent e i
  | SolveMultiIntent i => solve_multi_intent e i
  | CreatePreCognitiveIntent r d f => discard (create_pre_cognitive_intent e r d f)
  | CancelPreCognitiveIntent i => cancel_pre_cognitive_intent e i
  | ExecutePreCognitiveLeaf i p tc te ta eo m => execute_pre_cognitive_leaf e i p tc te ta eo m
  | AuthorizeCloneKey k ttl => authorize_clone_key e k ttl
  | RevokeCloneKey k => revoke_clone_key e k
  | FundCloneKey k => fund_clone_key e k
  | SetMinDeposit v => set_min_deposit e v
  | SetProtocolFeeBps v => set_protocol_fee_bps e v
  | SetRevealWindow v => set_reveal_window e v
  | SetCommitBond v => set_commit_bond e v
  | SetKeeperRegistryAddr a => set_keeper_registry_addr e a
  | SetRewardsAddr a => set_rewards_addr e a
  | SetXwapAddress a => set_xwap_address e a
  | SetXscAddress a => set_xsc_address e a
  | SetZkVerifierAddr a => set_zk_verifier_addr e a
  | AddWhitelistedKeeper k => add_whitelisted_keeper e k
  | RemoveWhitelistedKeeper k => remove_whitelisted_keeper e k
  | SetMaxRewardPerExec v => set_max_reward_per_exec e v
  | FlushProtocolFees => flush_protocol_fees e
  | BlacklistTarget t => blacklist_target e t
  | RemoveBlacklist t => remove_blacklist e t
  | SetMaxExecValue v => set_max_exec_value e v
  | RegisterKeeperShard => register_keeper_shard e
  | Pause => pause e
  | Unpause => unpause e
  end.

Definition deployed w : Prop :=
  ∃ e registry rewards deposit fee w0,
    st w0 = empty_state ∧ init e registry rewards deposit fee w0 = Ok ((), w).

(** A callback only runs for a promise the contract registered. *)
Definition registered w (cb : Callback) : Prop :=
  ∃ to ep args v g cg, Promise to ep args v g (Some cb) cg ∈ log w.

(** The transactions considered: callees do not call back, callbacks belong to
    registered promises. *)
Definition regular e (c : call) w : Prop :=
  no_reentrancy e ∧
  match c with ExecutionCallback cb _ => registered w cb | _ => True end.

Definition is_compressed (c : call) : bool :=
  match c with ExecuteCompressedTask _ _ => true | _ => false end.
(** ... without tasks proved against the compressed state. *)
Definition uncompressed e (c : call) w : Prop := regular e c w ∧ is_compressed c = false.

Definition scheduler_reachable : world K → Prop := reachable dispatch deployed regular.
Definition uncompressed_reachable : world K → Prop := reachable dispatch deployed uncompressed.
End code.

(** ** What the contract owes in EGLD *)

Definition intent_due (i : Intent) : N :=
  if decide (in_status i = IntentPending) then in_solver_fee i else 0.
Definition multi_intent_due (i : MultiIntent) : N :=
  if decide (mi_status i = IntentPending) then mi_solver_fee i else 0.
Definition pre_cognitive_due (i : PreCognitiveIntent) : N :=
  if decide (pc_status i = PcPending) then pc_keeper_fee i else 0.

(** Deposits of live tasks, budgets of clone keys, fees to flush, and the fees
    attached to pending intents. *)
Definition owed s : N :=
  msum q_deposit (quantum_tasks s) + msum unspent (clone_key_props s) + accrued_protocol_fees s +
  msum intent_due (intent_by_id s) + msum multi_intent_due (multi_intent_by_id s) +
  msum pre_cognitive_due (pre_cognitive_intent_by_id s).

(** A clone key never spends more than its limit, which is at most 2 EGLD. *)
Definition key_ok (c : CloneKeyProperties) : Prop :=
  c_spent_amount c ≤ c_spend_limit c ∧ c_spend_limit c ≤ MAX_CLONE_KEY_SPEND_LIMIT.
Definition keys_ok s : Prop := map_Forall (λ _, key_ok) (clone_key_props s).

(** The invariant of the EGLD accounts; [v] is EGLD received and not booked yet. *)
Definition accounts (v : N) w : Prop :=
  protocol_fee_bps (st w) ≤ BPS_DENOMINATOR ∧ keys_ok (st w) ∧ owed (st w) + v ≤ bal w Egld.
