(* ===== verification/TaskGuards.v ===== *)
(** The guards of the Scheduler's task endpoints, stated on the storage and the
    call alone, and what a run of the checks that goes through has established. *)

From S2P Require Import Prelude Sdk Types SchedulerState CloneKeys Scheduling Execution.

Implicit Types (e : env K) (w : world K) (s : State) (t : Task) (Q : unit → world K → Prop).

(** A call without payment. *)
Definition no_payment e : Prop := egld_value e = 0 ∧ esdt_transfers e = [].

(** What [validate_task_parameters] accepts. *)
Definition valid_params t (d : N) s : Prop :=
  min_deposit s ≤ d ∧ (0 < max_exec_value_egld s → d ≤ max_exec_value_egld s) ∧
  5000000 ≤ t_max_gas t ∧ t_max_gas t ≤ 400000000 ∧ t_ttl_seconds t ≤ 157680000 ∧
  t_created_at t ≤ 200000000000000 ∧
  match t_trigger t with
  | TimeOnce start | TimeRecurring start _ _ => start ≤ 200000000000000
  | _ => True
  end.

(** What [enforce_rate_limits] accepts. *)
Definition within_limits e (who : address) s : Prop :=
  (size (set_of (owner_tasks s) who) < 100)%nat ∧
  (0 < max_tasks_per_round s → nget (tasks_per_round s) (who, block_round e) < max_tasks_per_round s).

(** The deposit [d] of a new task: the EGLD attached, or for a live clone key
    what it asked for, within its budget and with no EGLD attached. *)
Definition deposit_taken e s (is_clone_key : bool) (requested : option N) (d : N) : Prop :=
  if is_clone_key
  then egld_value e = 0 ∧ requested = Some d ∧
       ∃ k, clone_key_props s !! caller e = Some k ∧ timestamp e < c_expiry_timestamp k ∧
         c_spent_amount k + d ≤ c_spend_limit k
  else d = egld_value e.

(** The secret of a [QuantumSealedHash] trigger. *)
Section predicates.
Context `{Sdk}.

Definition secret_fits t (secret : option bytes) : Prop :=
  match t_trigger t with
  | QuantumSealedHash expected => ∃ x, secret = Some x ∧ length x = 32%nat ∧ sha256 x = expected
  | _ => True
  end.

(** What a callee says: at least once, or whatever the caller's world. *)
Definition heard e (to : address) (ep : bytes) (args : list arg) (r : list bytes) : Prop :=
  ∃ w w', sync_result e to ep args 0 w = Some (r, w').
Definition answers e (to : address) (ep : bytes) (args : list arg) (r : list bytes) : Prop :=
  ∀ w, ∃ w', sync_result e to ep args 0 w = Some (r, w').

(** The TTL has not run out, and the trigger has fired. *)
Definition oracle_value (r : list bytes) : N := match r with [] => 0 | x :: _ => be_val x end.
Definition ripe e t : Prop :=
  (0 < t_ttl_seconds t →
     get_timestamp_ms e ≤ u64_add (t_created_at t) (u64_mul (t_ttl_seconds t) 1000)) ∧
  match t_trigger t with
  | TimeOnce start | TimeRecurring start _ _ => start ≤ get_timestamp_ms e
  | StateDriven oracle ep _ cmp threshold =>
      ∃ r, heard e oracle ep [] r ∧ compare_oracle cmp (oracle_value r) threshold = true
  | _ => True
  end.

(** The caller is the keeper drawn for the task, or the grace period is over,
    or there is no draw. *)
Definition in_turn e t (h : hash) s : Prop :=
  let n := length (keeper_list s) in
  (1 < n)%nat →
  ∃ assigned, keeper_list s !! (assigned_index e t h n - 1)%nat = Some (Some assigned) ∧
    (caller e = assigned ∨
     u64_add (ripe_time_ms e t) (ROUND_ROBIN_GRACE_SECONDS * 1000) ≤ u64_mul (timestamp e) 1000).

(** What [require_safe_target] accepts, with both companion contracts configured. *)
Definition safe_target e t s : Prop :=
  t_target_contract t ≠ sc_address e ∧
  (∃ registry, keeper_registry_addr s = Some registry ∧ t_target_contract t ≠ registry) ∧
  (∃ rewards, rewards_addr s = Some rewards ∧ t_target_contract t ≠ rewards) ∧
  (t_target_contract t ∉ target_blacklist s) ∧
  t_target_endpoint t ∉ map string_bytes dangerous_endpoints.

(** The market gate, when the payload asks for it. *)
Definition market_safe e t s : Prop :=
  t_require_xwap_safe t = true →
  ∃ xwap, xwap_address s = Some xwap ∧
    (is_zero xwap = true ∨
     ∃ r, heard e xwap (string_bytes "isSafeToExecute") [] r ∧ decode_verdict r = true).

(** The gas the dispatch asks for, and the reserve of the callback. *)
Definition crosses e t : bool :=
  negb (bool_decide (get_shard_of_address (t_target_contract t) = get_shard_of_address (sc_address e))).
Definition enough_gas e t (keeper : address) s : Prop :=
  min_gas_needed (t_max_gas t) (crosses e t)
    (bool_decide (nget (keeper_shard s) keeper = get_shard_of_address (t_target_contract t))) ≤ gas_left e.

(** What [dispatch_task_execution] checks. *)
Definition dispatchable e t (keeper : address) s : Prop :=
  ripe e t ∧ safe_target e t s ∧ market_safe e t s ∧ enough_gas e t keeper s.

(** A verdict of another contract. *)
Definition vouched e (to : address) (ep : string) (args : list arg) : Prop :=
  ∃ r, heard e to (string_bytes ep) args r ∧ decode_verdict r = true.
End predicates.

(** A dispatched task only changes its own status and instant of execution. *)
Definition started e (q : QuantumTaskState) : QuantumTaskState :=
  q <| q_status := Executing |> <| q_executing_at := timestamp e |>.

(** ** The checks establish the guards *)

Section proofs.
Context `{StrictSdk}.

Lemma wp_validate t d Q w :
  (valid_params t d (st w) → Q () w) → wp (validate_task_parameters t d) Q any_error w.
Proof.
  intros HQ. unfold validate_task_parameters, require_deposit_within_cap. unfold valid_params in HQ.
  wp_go; destruct (t_trigger t); wp_go; apply HQ; by split_and!.
Qed.

Lemma wp_validate_ok t d Q E w :
  valid_params t d (st w) → Q () w → wp (validate_task_parameters t d) Q E w.
Proof.
  intros (H1 & H2 & H3 & H4 & H5 & H6 & H7) HQ.
  unfold validate_task_parameters, require_deposit_within_cap.
  wp_go; try done; try (exfalso; tauto); destruct (t_trigger t); wp_go; done.
Qed.

(** Taking the deposit charges the clone key and nothing else. *)
Lemma wp_taken e c r (P : N → world K → Prop) w :
  (∀ d w' keys, st w' = (st w : State) <| clone_key_props := keys |> →
     deposit_taken e (st w) c r d → P d w') →
  wp (take_deposit e c r) P any_error w.
Proof.
  intros HP. unfold take_deposit, charge_clone_key. unfold deposit_taken in HP.
  wp_go; [|eapply (HP _ _ (clone_key_props (st w))); [by destruct (st w)|done]].
  destruct r; wp_go. apply wp_get_clone_key; [|done]. intros k Hk. wp_go. eapply HP; [done|]. eauto 10.
Qed.

Lemma wp_check_secret t x Q w :
  (secret_fits t x → Q () w) → wp (check_quantum_secret t x) Q any_error w.
Proof.
  intros HQ. unfold check_quantum_secret. unfold secret_fits in HQ.
  destruct (t_trigger t), x; wp_go; apply HQ; eauto.
Qed.

Lemma wp_round_robin e t h Q w :
  (in_turn e t h (st w) → Q () w) → wp (perform_round_robin_check e t h (caller e)) Q any_error w.
Proof.
  intros HQ. unfold perform_round_robin_check. unfold in_turn in HQ. wp_go; [|apply HQ; lia].
  assert (Hi : (1 ≤ assigned_index e t h (length (keeper_list (st w))))%nat) 
    by (unfold assigned_index; generalize (be_val (take 8 (sha256 (h ++ be_bytes 8 (ripe_time_ms e t) ++ random_seed e))) `mod` N.of_nat (length (keeper_list (st w)))); lia).
  unfold keeper_list_get.
  destruct (assigned_index e t h (length (keeper_list (st w)))) as [|i]; [lia|].
  replace (S i - 1)%nat with i in HQ by lia. wp_go.
  destruct (keeper_list (st w) !! i) as [c|] eqn:Hc; wp_go; try done.
  all: rewrite strict_address in *; apply HQ; intros _.
  all: match goal with Ha : _ ∨ _ |- _ => destruct Ha as [->|[_ ?]]; [eauto|discriminate] end.
Qed.

Lemma wp_safe_target e t Q w :
  (safe_target e t (st w) → Q () w) →
  wp (require_safe_target e (t_target_contract t) (t_target_endpoint t)) Q any_error w.
Proof.
  intros HQ. unfold require_safe_target. wp_go; try done. apply HQ. rewrite strict_address in *.
  unfold safe_target. split_and!; try done; naive_solver.
Qed.

(** A synchronous call without value can only raise balances, reentrancy excluded. *)
Lemma wp_query e to ep args (P : list bytes → world K → Prop) w :
  no_reentrancy e →
  (∀ r bal', heard e to ep args r → (∀ a, bal w a ≤ bal' a) → P r (World (st w) bal' (log w))) →
  wp (sync_call e to ep args 0) P any_error w.
Proof.
  intros Hnr HP. apply wp_sync_call; [|done..]. intros r w' _ Hs. pose proof Hs as Hheard.
  apply Hnr in Hs as (Hst & Hlog & Hb). destruct w' as [s' b' l']. simpl in *. subst.
  apply HP; [by eexists _, _|]. intros a. etrans; [|apply Hb].
  destruct (decide (Egld = a)) as [<-|]; [rewrite bal_insert_eq; lia|by rewrite bal_insert_ne].
Qed.

Lemma wp_ripe e t Q w :
  no_reentrancy e → (∀ bal', (∀ a, bal w a ≤ bal' a) → ripe e t → Q () (World (st w) bal' (log w))) →
  wp (require_task_ripe_quantum e t) Q any_error w.
Proof.
  intros Hnr HQ.
  assert (HQ0 : ripe e t → Q () w) by (destruct w as [s b l]; by apply HQ).
  unfold require_task_ripe_quantum. unfold ripe in HQ, HQ0.
  wp_go; destruct (t_trigger t); wp_go; try (apply HQ0; split; [auto; lia|done]).
  all: apply wp_query; [done|]; intros r b Hr Hb; wp_go; apply HQ; [done|split; [auto; lia|eauto]].
Qed.

Lemma wp_market e t Q w :
  no_reentrancy e →
  (∀ bal', (∀ a, bal w a ≤ bal' a) → market_safe e t (st w) → Q () (World (st w) bal' (log w))) →
  wp (if t_require_xwap_safe t then require_xwap_market_safe e else mret ()) Q any_error w.
Proof.
  intros Hnr HQ.
  assert (HQ0 : market_safe e t (st w) → Q () w) by (destruct w as [s b l]; by apply HQ).
  unfold require_xwap_market_safe. unfold market_safe in HQ, HQ0. destruct (t_require_xwap_safe t).
  2: { apply wp_ret, HQ0. discriminate. }
  wp_go; try done; rewrite strict_address in *; destruct_or?; destruct_and?; try discriminate.
  - apply HQ0. eauto.
  - apply wp_query; [done|]. intros r b Hr Hb. wp_go. apply HQ; [done|]. eauto 10.
Qed.

Lemma wp_dispatch_task e h t k q Q w :
  no_reentrancy e →
  (∀ w', st w' = ((st w : State) <| quantum_tasks ::= <[h := started e q]> |>) →
     bal w Egld ≤ bal w' Egld → dispatchable e t k (st w) → Q () w') →
  wp (dispatch_task_execution e h t k q) Q any_error w.
Proof.
  intros Hnr HQ. unfold dispatch_task_execution. unfold dispatchable in HQ.
  apply wp_bind, wp_ripe; [done|]. intros b1 Hb1 Hripe.
  apply wp_bind, wp_safe_target. intros Hsafe.
  apply wp_bind, wp_market; [done|]. cbn [st bal log]. intros b2 Hb2 Hmarket.
  specialize (Hb1 Egld). specialize (Hb2 Egld).
  unfold enough_gas, crosses in HQ. unfold set_quantum_task.
  wp_go; apply HQ; simpl; rewrite ?bal_insert_eq; try done; lia.
Qed.
End proofs.
