(* ===== verification/SchedulerAccounts.v ===== *)
(** The Scheduler's EGLD accounts: every transaction keeps its balance at or
    above what it owes. *)

From S2P Require Import Prelude Sdk Types SchedulerState CloneKeys Scheduling Execution Settlement Intents Scheduler TaskGuards.

Implicit Types (e : env K) (w : world K) (s : State) (Q : unit → world K → Prop) (E : string → Prop).

Ltac acc := unfold accounts, owed, keys_ok in *; simpl in *; rewrite ?bal_insert_eq in *.

Section accounts.
Context `{StrictSdk}.

(** Reading a task, an intent, a stored address. *)
Lemma wp_get_quantum_task h (P : QuantumTaskState → world K → Prop) E w :
  (∀ q, quantum_tasks (st w) !! h = Some q → P q w) →
  (quantum_tasks (st w) !! h = None → E "storage decode error") →
  wp (get_quantum_task h) P E w.
Proof.
  intros HQ HE. unfold get_quantum_task. wp_go; [|auto].
  rewrite strict_quantum_task in *. destruct_or?; [by apply HQ|naive_solver].
Qed.

Lemma wp_get_intent i (P : Intent → world K → Prop) E w :
  (∀ x, intent_by_id (st w) !! i = Some x → P x w) →
  (intent_by_id (st w) !! i = None → E "storage decode error") → wp (get_intent i) P E w.
Proof.
  intros HQ HE. unfold get_intent. wp_go; [|auto].
  rewrite strict_intent in *. destruct_or?; [by apply HQ|naive_solver].
Qed.

Lemma wp_get_multi_intent i (P : MultiIntent → world K → Prop) E w :
  (∀ x, multi_intent_by_id (st w) !! i = Some x → P x w) →
  (multi_intent_by_id (st w) !! i = None → E "storage decode error") → wp (get_multi_intent i) P E w.
Proof.
  intros HQ HE. unfold get_multi_intent. wp_go; [|auto].
  rewrite strict_multi_intent in *. destruct_or?; [by apply HQ|naive_solver].
Qed.

Lemma wp_get_pre_cognitive i (P : PreCognitiveIntent → world K → Prop) E w :
  (∀ x, pre_cognitive_intent_by_id (st w) !! i = Some x → P x w) →
  (pre_cognitive_intent_by_id (st w) !! i = None → E "storage decode error") →
  wp (get_pre_cognitive i) P E w.
Proof.
  intros HQ HE. unfold get_pre_cognitive. wp_go; [|auto].
  rewrite strict_pre_cognitive in *. destruct_or?; [by apply HQ|naive_solver].
Qed.

Lemma accounts_credit e w : accounts 0 w → accounts (egld_value e) (credit e w).
Proof. acc. rewrite st_credit, credit_egld. intuition lia. Qed.

Lemma accounts_less v v' w : accounts v w → v' ≤ v → accounts v' w.
Proof. acc. intuition lia. Qed.

(** ** Clone keys *)

Lemma key_ok_charge c amt :
  key_ok c → c_spent_amount c + amt ≤ c_spend_limit c →
  key_ok (c <| c_spent_amount := c_spent_amount c + amt |>) ∧
  unspent (c <| c_spent_amount := c_spent_amount c + amt |>) + amt = unspent c.
Proof. unfold key_ok, unspent. simpl. intuition lia. Qed.

Lemma wp_charge_clone_key e k amt w :
  accounts 0 w → wp (charge_clone_key e k amt) (λ _ w', accounts amt w') any_error w.
Proof.
  intros Hacc. unfold charge_clone_key. wp_go. apply wp_get_clone_key; [|done]. intros c Hc. wp_go.
  acc. destruct Hacc as (Hfee & Hkeys & Hle).
  destruct (key_ok_charge c amt) as [Hok Hun]; [by eapply Hkeys|done|].
  pose proof (msum_update_Some unspent _ _ _ (c <| c_spent_amount := c_spent_amount c + amt |>) Hc).
  split_and!; [done|by apply map_Forall_insert_2|lia].
Qed.

Lemma wp_take_deposit e c r w :
  accounts (egld_value e) w → wp (take_deposit e c r) (λ d w', accounts d w') any_error w.
Proof.
  intros Hacc. unfold take_deposit. wp_go; [|done]. destruct r as [req|]; [|done].
  eapply wp_bind, wp_mono; [apply wp_charge_clone_key; by eapply accounts_less; [|lia]|].
  intros [] w' Hw'. by wp_go.
Qed.

Lemma accounts_authorize e k ttl w :
  accounts (egld_value e) w → wp (authorize_clone_key e k ttl) (λ _, accounts 0) any_error w.
Proof.
  intros Hacc. unfold authorize_clone_key. wp_go. apply wp_require_not_paused; [intros _|done]. wp_go.
  acc. rewrite msum_insert by done. unfold unspent at 1; simpl.
  destruct Hacc as (? & ? & ?). split_and!; [done|apply map_Forall_insert_2; [|done]|lia].
  split; simpl; [lia|done].
Qed.

Lemma accounts_revoke e k w :
  accounts (egld_value e) w → wp (revoke_clone_key e k) (λ _, accounts 0) any_error w.
Proof.
  intros Hacc. unfold revoke_clone_key. wp_go. apply wp_get_clone_key; [|done]. intros c Hc. wp_go;
    acc; destruct Hacc as (? & ? & ?); pose proof (msum_delete_Some unspent _ _ _ Hc); unfold unspent in *;
    (split_and!; [done|by apply map_Forall_delete|lia]).
Qed.

Lemma accounts_fund e k w :
  accounts (egld_value e) w → wp (fund_clone_key e k) (λ _, accounts 0) any_error w.
Proof.
  intros Hacc. unfold fund_clone_key. wp_go. apply wp_require_not_paused; [intros _|done]. wp_go.
  apply wp_get_clone_key; [|done]. intros c Hc. wp_go. acc. destruct Hacc as (? & Hkeys & ?).
  assert (Hok : key_ok c) by by eapply Hkeys.
  pose proof (msum_update_Some unspent _ _ _ (c <| c_spend_limit := c_spend_limit c + egld_value e |>) Hc)
    as Hsum.
  destruct Hok. unfold unspent in *; simpl in *.
  split_and!; [done|apply map_Forall_insert_2; [|done]; split; simpl; lia|lia].
Qed.

(** ** Tasks *)

Lemma accounts_new_task h owner d t w :
  accounts d w → quantum_tasks (st w) !! h = None →
  accounts 0 (w <| st ::= λ s : State, s <| quantum_tasks ::= <[h := MkQuantumTaskState owner d Pending t]> |> |>).
Proof. acc. intros (? & ? & ?) Hn. rewrite msum_insert by done. simpl. intuition lia. Qed.

Lemma accounts_schedule e t r w :
  accounts (egld_value e) w → wp (schedule_quantum_task e t r) (λ _, accounts 0) any_error w.
Proof.
  intros Hacc. unfold schedule_quantum_task. wp_go. apply wp_require_not_paused; [intros _|done]. wp_go.
  apply wp_resolve_caller. intros o c _. wp_go.
  eapply wp_mono; [by apply wp_take_deposit|]. intros d w' Hd. wp_go.
  apply wp_validate. intros _. wp_go. unfold enforce_rate_limits, set_quantum_task. wp_go;
    by apply (accounts_new_task (quantum_seal t) o d 0 w').
Qed.

Lemma accounts_sovereign e p r w :
  accounts (egld_value e) w → wp (schedule_sovereign_task e p r) (λ _, accounts 0) any_error w.
Proof.
  intros Hacc. unfold schedule_sovereign_task. wp_go. apply wp_require_not_paused; [intros _|done]. wp_go.
  apply wp_resolve_caller. intros o c _. wp_go.
  eapply wp_mono; [by apply wp_take_deposit|]. intros d w' Hd.
  unfold require_deposit_within_cap, set_quantum_task. wp_go;
    by apply (accounts_new_task (sovereign_hash p o d) o d 0 w').
Qed.

(** The three ways the deposit of a closed task is split. *)
Lemma accounts_close h q w :
  accounts 0 w → quantum_tasks (st w) !! h = Some q →
  accounts (q_deposit q) (w <| st ::= λ s : State, s <| quantum_tasks ::= delete h |> |>).
Proof. acc. intros (? & ? & ?) Hq. pose proof (msum_delete_Some q_deposit _ _ _ Hq). intuition lia. Qed.

Lemma accounts_cancel e h w :
  accounts (egld_value e) w → wp (cancel_quantum_task e h) (λ _, accounts 0) any_error w.
Proof.
  intros Hacc. unfold cancel_quantum_task. wp_go. apply wp_require_not_paused; [intros _|done]. wp_go.
  apply wp_get_quantum_task; [|done]. intros q Hq. wp_go. apply wp_resolve_caller. intros o c _.
  unfold clear_quantum_task.
  wp_go; acc; destruct Hacc as (Hfee & ? & ?);
    pose proof (msum_delete_Some q_deposit _ _ _ Hq);
    pose proof (bps_cut_le (q_deposit q) _ Hfee);
    generalize dependent (q_deposit q * protocol_fee_bps (st w) / 10000); intros;
    split_and!; try done; lia.
Qed.
Lemma deposit_le_bal h q w :
  accounts 0 w → quantum_tasks (st w) !! h = Some q → q_deposit q ≤ bal w Egld.
Proof. acc. intros (? & ? & ?) Hq. pose proof (msum_lookup_le q_deposit _ _ _ Hq). lia. Qed.

Lemma accounts_success h target keeper q w :
  accounts 0 w → quantum_tasks (st w) !! h = Some q →
  wp (finalize_successful_execution h target keeper (q_deposit q) (q_owner q))
    (λ _, accounts 0) any_error w.
Proof.
  intros Hacc Hq. pose proof (deposit_le_bal _ _ _ Hacc Hq).
  apply wp_finalize_success; [by destruct Hacc|done|]. intros w' Hst _ Hbal.
  destruct Hacc as (Hfee & Hkeys & Hle). pose proof (deposit_split (st w) (q_deposit q) Hfee) as Hsplit.
  pose proof (msum_delete_Some q_deposit _ _ _ Hq).
  unfold accounts, owed, keys_ok in *. rewrite Hst. simpl. split_and!; [done|done|].
  unfold closed. simpl. lia.
Qed.

Lemma accounts_failure h target keeper q w :
  accounts 0 w → quantum_tasks (st w) !! h = Some q →
  wp (finalize_failed_execution h target keeper (q_deposit q) (q_owner q))
    (λ _, accounts 0) any_error w.
Proof.
  intros Hacc Hq. pose proof (deposit_le_bal _ _ _ Hacc Hq).
  apply wp_finalize_failure; [by destruct Hacc|done|]. intros w' Hst _ Hbal.
  destruct Hacc as (Hfee & Hkeys & Hle). pose proof (protocol_cut_le (st w) (q_deposit q) Hfee) as Hsplit.
  pose proof (msum_delete_Some q_deposit _ _ _ Hq).
  unfold accounts, owed, keys_ok in *. rewrite Hst. simpl. split_and!; [done|done|].
  unfold closed. simpl. lia.
Qed.

Lemma accounts_callback cb b w :
  accounts 0 w → wp (execution_callback cb b) (λ _, accounts 0) any_error w.
Proof.
  intros Hacc. destruct cb as [h target k]. cbn [execution_callback]. apply wp_bind.
  apply wp_get_quantum_task; [|done]. intros q Hq.
  destruct b; [by apply accounts_success|by apply accounts_failure].
Qed.

Lemma accounts_settle e h p w :
  no_reentrancy e → accounts (egld_value e) w →
  wp (settle_xse_task e h p) (λ _, accounts 0) any_error w.
Proof.
  intros Hnr Hacc. unfold settle_xse_task. wp_go. apply wp_require_not_paused; [intros _|done].
  unfold require_registered_keeper, get_assigned_enclave_keeper. wp_go; try done.
  all: apply wp_get_quantum_task; [|done]; intros q Hq; wp_go; try done.
  all: try (apply accounts_success; [by eapply accounts_less; [|lia]|done]).
  all: apply wp_query; [done|]; intros r b _ Hb; wp_go.
  all: specialize (Hb Egld); apply accounts_success; [acc; intuition lia|done].
Qed.

Lemma accounts_rescue e h w :
  accounts (egld_value e) w → wp (rescue_stuck_xse_task e h) (λ _, accounts 0) any_error w.
Proof.
  intros Hacc. unfold rescue_stuck_xse_task. wp_go. apply wp_require_not_paused; [intros _|done]. wp_go.
  apply wp_get_quantum_task; [|done]. intros q Hq. unfold get_assigned_enclave_keeper, clear_quantum_task.
  pose proof (accounts_close h q w) as Hclose.
  wp_go; try done.
  all: try (apply wp_forward_keeper_result; intros b' Hb'; wp_go; try done).
  all: acc; try rewrite Hb' in *; pose proof (msum_delete_Some q_deposit _ _ _ Hq); intuition lia.
Qed.

(** ** Execution *)

Lemma accounts_start e h q w :
  accounts 0 w → quantum_tasks (st w) !! h = Some q →
  ∀ w', st w' = ((st w : State) <| quantum_tasks ::= <[h := started e q]> |>) →
  bal w Egld ≤ bal w' Egld → accounts 0 w'.
Proof.
  intros (? & ? & Hle) Hq w' Hst Hb. unfold accounts, owed, keys_ok in *. rewrite Hst. simpl.
  pose proof (msum_update_Some q_deposit _ _ _ (started e q) Hq). simpl in *.
  split_and!; [done|done|lia].
Qed.

Lemma accounts_execute e t x w :
  no_reentrancy e → accounts (egld_value e) w →
  wp (execute_quantum_task e t x) (λ _, accounts 0) any_error w.
Proof.
  intros Hnr Hacc. unfold execute_quantum_task. wp_go. apply wp_require_not_paused; [intros _|done].
  unfold require_registered_keeper. wp_go.
  apply wp_get_quantum_task; [|done]. intros q Hq. wp_go. apply wp_check_secret. intros _.
  assert (Hacc0 : accounts 0 w) by (apply (accounts_less (egld_value e)); [done|lia]).
  assert (Hrest : wp (perform_round_robin_check e t (quantum_seal t) (caller e);;
    (if t_confidential t
     then modify (λ s : State, s <| assigned_enclave_keeper ::= <[quantum_seal t := caller e]> |>)
     else mret ());;
    dispatch_task_execution e (quantum_seal t) t (caller e) q) (λ _, accounts 0) any_error w).
  { apply wp_bind, wp_round_robin. intros _. wp_go; (apply wp_dispatch_task; [done|]); intros w' Hst Hb _.
    - by eapply (accounts_start e _ _
        (w <| st ::= λ s : State, s <| assigned_enclave_keeper ::= <[quantum_seal t := caller e]> |> |>)).
    - by eapply (accounts_start e). }
  cbv beta. apply wp_bind.
  destruct (t_assigned_keeper t); [apply wp_require; [intros _|done]|apply wp_ret]; exact Hrest.
Qed.

(** ** Intents *)

Lemma wp_direct_esdt to tk n amt Q w :
  (∀ b l, b Egld = bal w Egld → Q () (World (st w) b l)) → wp (direct_esdt to tk n amt) Q any_error w.
Proof. intros HQ. wp_go. apply HQ; simpl. by rewrite bal_insert_ne. Qed.

Lemma wp_forward_payments to ps Q w :
  (∀ b l, b Egld = bal w Egld → Q () (World (st w) b l)) → wp (forward_payments to ps) Q any_error w.
Proof.
  revert w. induction ps as [|p ps IH]; intros w HQ; cbn [forward_payments].
  - destruct w. by apply HQ.
  - apply wp_bind, wp_direct_esdt. intros b l Hb. apply IH. intros b' l' Hb'. apply HQ. simpl in *. congruence.
Qed.

Lemma wp_check_outcomes os : ∀ i ps Q w, Q () w → wp (check_outcomes i os ps) Q any_error w.
Proof.
  induction os as [|o os IH]; intros i [|p ps] Q w HQ; cbn [check_outcomes]; wp_go; try done. by apply IH.
Qed.

Lemma wp_require_distinct os : ∀ Q w, Q () w → wp (require_distinct os) Q any_error w.
Proof.
  induction os as [|o os IH]; intros Q w HQ; cbn [require_distinct]; [done|]. apply wp_bind.
  assert (Hin : ∀ l, wp ((fix inner (js : list MultiIntentOutcome) : M K unit :=
         match js with
         | [] => mret ()
         | o' :: js' =>
             require (mo_token_out o ≠ mo_token_out o')
               "XCRON-PROTECT: Duplicate tokens in MultiIntent outcomes not allowed";;
             inner js'
         end) l) (λ _, wp (require_distinct os) Q any_error) any_error w).
  { induction l as [|o' l IHl]; [by apply IH|]. wp_go. exact IHl. }
  exact (Hin os).
Qed.

(** Paying the fee of an intent that is no longer pending. *)
Lemma wp_pay_fee to fee w :
  accounts fee w → wp (pay_fee to fee) (λ _, accounts 0) any_error w.
Proof. intros Hacc. unfold pay_fee. wp_go; acc; intuition lia. Qed.

Lemma accounts_move v w b l :
  accounts v w → b Egld = bal w Egld → accounts v (World (st w) b l).
Proof. acc. intros ? ->. done. Qed.

Lemma accounts_set_intent i x x' w :
  accounts 0 w → intent_by_id (st w) !! i = Some x → in_status x = IntentPending →
  in_status x' ≠ IntentPending →
  accounts (in_solver_fee x) (w <| st ::= λ s : State, s <| intent_by_id ::= <[i := x']> |> |>).
Proof.
  acc. intros (? & ? & ?) Hx Hp Hp'. pose proof (msum_update_Some intent_due _ _ _ x' Hx) as Hs.
  unfold intent_due in Hs at 2 4. rewrite decide_True in Hs by done. rewrite decide_False in Hs by done.
  split_and!; [done|done|lia].
Qed.

Lemma accounts_set_multi_intent i x x' w :
  accounts 0 w → multi_intent_by_id (st w) !! i = Some x → mi_status x = IntentPending →
  mi_status x' ≠ IntentPending →
  accounts (mi_solver_fee x) (w <| st ::= λ s : State, s <| multi_intent_by_id ::= <[i := x']> |> |>).
Proof.
  acc. intros (? & ? & ?) Hx Hp Hp'. pose proof (msum_update_Some multi_intent_due _ _ _ x' Hx) as Hs.
  unfold multi_intent_due in Hs at 2 4. rewrite decide_True in Hs by done. rewrite decide_False in Hs by done.
  split_and!; [done|done|lia].
Qed.

Lemma accounts_set_pre_cognitive i x x' w :
  accounts 0 w → pre_cognitive_intent_by_id (st w) !! i = Some x → pc_status x = PcPending →
  pc_status x' ≠ PcPending →
  accounts (pc_keeper_fee x) (w <| st ::= λ s : State, s <| pre_cognitive_intent_by_id ::= <[i := x']> |> |>).
Proof.
  acc. intros (? & ? & ?) Hx Hp Hp'. pose proof (msum_update_Some pre_cognitive_due _ _ _ x' Hx) as Hs.
  unfold pre_cognitive_due in Hs at 2 4. rewrite decide_True in Hs by done. rewrite decide_False in Hs by done.
  split_and!; [done|done|lia].
Qed.

(** A new intent books the fee that was attached; an older record under the
    same identifier can only reduce what is owed. *)
Lemma accounts_new_intent i x v w :
  accounts v w → in_solver_fee x = v →
  accounts 0 (w <| st ::= λ s : State, s <| intent_by_id ::= <[i := x]> |> |>).
Proof.
  acc. intros (? & ? & ?) <-. pose proof (msum_update intent_due (intent_by_id (st w)) i x).
  assert (intent_due x ≤ in_solver_fee x) by (unfold intent_due; case_decide; lia).
  split_and!; [done|done|lia].
Qed.

Lemma accounts_new_multi_intent i x v w :
  accounts v w → mi_solver_fee x = v →
  accounts 0 (w <| st ::= λ s : State, s <| multi_intent_by_id ::= <[i := x]> |> |>).
Proof.
  acc. intros (? & ? & ?) <-. pose proof (msum_update multi_intent_due (multi_intent_by_id (st w)) i x).
  assert (multi_intent_due x ≤ mi_solver_fee x) by (unfold multi_intent_due; case_decide; lia).
  split_and!; [done|done|lia].
Qed.

Lemma accounts_new_pre_cognitive i x v w :
  accounts v w → pc_keeper_fee x = v →
  accounts 0 (w <| st ::= λ s : State, s <| pre_cognitive_intent_by_id ::= <[i := x]> |> |>).
Proof.
  acc. intros (? & ? & ?) <-. pose proof (msum_update pre_cognitive_due (pre_cognitive_intent_by_id (st w)) i x).
  assert (pre_cognitive_due x ≤ pc_keeper_fee x) by (unfold pre_cognitive_due; case_decide; lia).
  split_and!; [done|done|lia].
Qed.

Lemma wp_single_transfer e msg (P : payment → world K → Prop) w :
  (∀ p, esdt_transfers e = [p] → P p w) → wp (single_transfer e msg) P any_error w.
Proof. intros HP. unfold single_transfer. destruct (esdt_transfers e) as [|p [|]]; wp_go; by apply HP. Qed.

Lemma wp_single_fungible e (P : token_id * N → world K → Prop) w :
  (∀ p, esdt_transfers e = [p] → token_nonce p = 0 → P (token_identifier p, amount p) w) →
  wp (single_fungible_esdt e) P any_error w.
Proof.
  intros HP. unfold single_fungible_esdt. destruct (esdt_transfers e) as [|p [|]]; wp_go; by apply HP.
Qed.

Lemma accounts_create_intent e o m d f w :
  accounts (egld_value e) w → wp (discard (create_intent e o m d f)) (λ _, accounts 0) any_error w.
Proof.
  intros Hacc. unfold discard, create_intent. wp_go. apply wp_require_not_paused; [intros _|done]. wp_go.
  apply wp_single_transfer. intros p _. unfold set_intent. wp_go.
  match goal with |- context [<[?i := ?x]>] => by apply (accounts_new_intent i x (egld_value e) w) end.
Qed.

Lemma accounts_create_multi_intent e o d f w :
  accounts (egld_value e) w → wp (discard (create_multi_intent e o d f)) (λ _, accounts 0) any_error w.
Proof.
  intros Hacc. unfold discard, create_multi_intent. wp_go. apply wp_require_not_paused; [intros _|done]. wp_go.
  apply wp_single_transfer. intros p _. wp_go. apply wp_require_distinct. unfold set_multi_intent. wp_go.
  match goal with |- context [<[?i := ?x]>] => by apply (accounts_new_multi_intent i x (egld_value e) w) end.
Qed.

Lemma accounts_create_pre_cognitive e r d f w :
  accounts (egld_value e) w →
  wp (discard (create_pre_cognitive_intent e r d f)) (λ _, accounts 0) any_error w.
Proof.
  intros Hacc. unfold discard, create_pre_cognitive_intent. wp_go.
  apply wp_require_not_paused; [intros _|done]. wp_go.
  apply wp_single_transfer. intros p _. unfold set_pre_cognitive. wp_go.
  match goal with |- context [<[?i := ?x]>] => by apply (accounts_new_pre_cognitive i x (egld_value e) w) end.
Qed.

Lemma accounts_cancel_intent e i w :
  accounts 0 w → wp (cancel_intent e i) (λ _, accounts 0) any_error w.
Proof.
  intros Hacc. unfold cancel_intent. wp_go. apply wp_get_intent; [|done]. intros x Hx.
  unfold set_intent. apply wp_bind, wp_require; [intros _|done]. apply wp_bind, wp_require; [intros Hp|done].
  apply wp_bind, wp_modify, wp_bind, wp_direct_esdt. intros b l Hb.
  apply wp_pay_fee, accounts_move; [by eapply accounts_set_intent|done].
Qed.

Lemma accounts_cancel_multi_intent e i w :
  accounts 0 w → wp (cancel_multi_intent e i) (λ _, accounts 0) any_error w.
Proof.
  intros Hacc. unfold cancel_multi_intent. wp_go. apply wp_get_multi_intent; [|done]. intros x Hx.
  unfold set_multi_intent. apply wp_bind, wp_require; [intros _|done]. apply wp_bind, wp_require; [intros Hp|done].
  apply wp_bind, wp_modify, wp_bind, wp_direct_esdt. intros b l Hb.
  apply wp_pay_fee, accounts_move; [by eapply accounts_set_multi_intent|done].
Qed.

Lemma accounts_cancel_pre_cognitive e i w :
  accounts 0 w → wp (cancel_pre_cognitive_intent e i) (λ _, accounts 0) any_error w.
Proof.
  intros Hacc. unfold cancel_pre_cognitive_intent. wp_go. apply wp_get_pre_cognitive; [|done]. intros x Hx.
  unfold set_pre_cognitive. apply wp_bind, wp_require; [intros _|done]. apply wp_bind, wp_require; [intros Hp|done].
  apply wp_bind, wp_modify, wp_bind, wp_direct_esdt. intros b l Hb.
  apply wp_pay_fee, accounts_move; [by eapply accounts_set_pre_cognitive|done].
Qed.

Lemma accounts_solve_intent e i w :
  accounts 0 w → wp (solve_intent e i) (λ _, accounts 0) any_error w.
Proof.
  intros Hacc. unfold solve_intent, require_registered_keeper. wp_go.
  apply wp_get_intent; [|done]. intros x Hx. wp_go. apply wp_single_fungible. intros p _ _.
  apply wp_bind, wp_require; [intros _|done]. apply wp_bind, wp_require; [intros _|done].
  unfold set_intent. apply wp_bind, wp_modify, wp_bind, wp_direct_esdt. intros b l Hb.
  apply wp_bind, wp_direct_esdt. intros b' l' Hb'.
  apply wp_pay_fee, accounts_move, Hb'. apply accounts_move, Hb. by eapply accounts_set_intent.
Qed.

Lemma accounts_solve_multi_intent e i w :
  accounts 0 w → wp (solve_multi_intent e i) (λ _, accounts 0) any_error w.
Proof.
  intros Hacc. unfold solve_multi_intent, require_registered_keeper. wp_go.
  apply wp_get_multi_intent; [|done]. intros x Hx. wp_go. apply wp_check_outcomes.
  unfold set_multi_intent. wp_go. apply wp_forward_payments. intros b l Hb.
  apply wp_bind, wp_direct_esdt. intros b' l' Hb'.
  apply wp_pay_fee, accounts_move, Hb'. apply accounts_move, Hb. by eapply accounts_set_multi_intent.
Qed.

Lemma accounts_execute_leaf e i p tc te ta eo m w :
  accounts 0 w → wp (execute_pre_cognitive_leaf e i p tc te ta eo m) (λ _, accounts 0) any_error w.
Proof.
  intros Hacc. unfold execute_pre_cognitive_leaf, require_registered_keeper. wp_go.
  apply wp_get_pre_cognitive; [|done]. intros x Hx. wp_go. apply wp_single_fungible. intros q _ _.
  apply wp_bind, wp_require; [intros _|done]. apply wp_bind, wp_require; [intros _|done].
  unfold set_pre_cognitive. apply wp_bind, wp_modify, wp_bind, wp_direct_esdt. intros b l Hb.
  apply wp_bind, wp_direct_esdt. intros b' l' Hb'.
  apply wp_pay_fee, accounts_move, Hb'. apply accounts_move, Hb. by eapply accounts_set_pre_cognitive.
Qed.

(** ** Configuration *)

Lemma wp_remove_scan k len n : ∀ i (P : world K → Prop) w,
  P w → (∀ w f, P w → P (w <| st ::= λ s : State, s <| keeper_list ::= f |> |>)) →
  wp (remove_scan k len n i) (λ _, P) any_error w.
Proof.
  assert (Hget : ∀ i (P : address → world K → Prop) w, (∀ a, P a w) → wp (keeper_list_get i) P any_error w).
  { intros i P w HP. unfold keeper_list_get. destruct i; wp_go. destruct (keeper_list _ !! _); wp_go; auto. }
  induction n as [|n IH]; intros i P w HP Hf; cbn [remove_scan]; [done|].
  apply wp_bind, Hget. intros a. wp_go; [|by apply Hf|by apply IH].
  apply Hget. intros b. wp_go. by apply Hf, Hf.
Qed.

Lemma accounts_flush e w :
  accounts 0 w → wp (flush_protocol_fees e) (λ _, accounts 0) any_error w.
Proof. intros Hacc. unfold flush_protocol_fees. wp_go; acc; intuition lia. Qed.

Lemma accounts_dispatch e c w :
  uncompressed e c w → accounts (egld_value e) w → wp (dispatch e c) (λ _, accounts 0) any_error w.
Proof.
  intros [[Hnr _] Hc] Hacc.
  assert (Hacc0 : accounts 0 w) by (apply (accounts_less (egld_value e)); [done|lia]).
  destruct c; cbn [dispatch]; try discriminate Hc.
  all: try (unfold owner_sets, set_min_deposit, set_reveal_window, set_commit_bond, set_keeper_registry_addr,
    set_rewards_addr, set_xwap_address, set_xsc_address, set_zk_verifier_addr, set_max_reward_per_exec,
    blacklist_target, remove_blacklist, set_max_exec_value, add_whitelisted_keeper, register_keeper_shard,
    trigger_xse_enclave, require_registered_keeper, upgrade, pause, unpause, owner_sets; wp_go; done).
  - unfold discard. apply wp_bind. eapply wp_mono; [by apply accounts_schedule|done].
  - unfold discard. apply wp_bind. eapply wp_mono; [by apply accounts_sovereign|done].
  - by apply accounts_cancel.
  - by apply accounts_execute.
  - by apply accounts_callback.
  - by apply accounts_settle.
  - by apply accounts_rescue.
  - by apply accounts_create_intent.
  - by apply accounts_cancel_intent.
  - by apply accounts_solve_intent.
  - by apply accounts_create_multi_intent.
  - by apply accounts_cancel_multi_intent.
  - by apply accounts_solve_multi_intent.
  - by apply accounts_create_pre_cognitive.
  - by apply accounts_cancel_pre_cognitive.
  - by apply accounts_execute_leaf.
  - by apply accounts_authorize.
  - by apply accounts_revoke.
  - by apply accounts_fund.
  - unfold set_protocol_fee_bps. wp_go. destruct Hacc0 as (? & ? & ?). by split_and!.
  - unfold remove_whitelisted_keeper. wp_go. by apply wp_remove_scan.
  - by apply accounts_flush.
Qed.

Lemma accounts_deployed w : deployed w → accounts 0 w.
Proof.
  intros (e & r & rw & d & f & w0 & Hst & Hi). revert Hi.
  apply (wp_ok _ (λ _ w', accounts 0 w') any_error). unfold init. wp_go.
  unfold accounts, owed, keys_ok, BPS_DENOMINATOR. simpl. rewrite Hst. simpl. rewrite !msum_empty.
  split_and!; [done|apply map_Forall_empty|lia].
Qed.

(** In every reachable state the accounts hold. *)
Lemma accounts_reachable w : uncompressed_reachable w → accounts 0 w.
Proof.
  apply reachable_inv.
  - apply accounts_deployed.
  - intros w' e c Hw Hc. apply accounts_dispatch; [|by apply accounts_credit].
    destruct Hc as [[Hnr Hcb] Hc]. split; [split; [done|]|done]. by destruct c.
  - intros w' b Hw Hb. specialize (Hb Egld). acc. intuition lia.
Qed.
End accounts.
