(* ===== verification/TaskBoard.v ===== *)
(** The life of a task, abstractly: a board of live tasks, indexed by owner,
    with the keepers confidential tasks are assigned to and the hashes that
    cannot be proved again, and the moves of the Scheduler on it.  The
    Scheduler refines it ([board_dispatch]): each of its transactions makes
    exactly the move that its call and the storage before it allow; the board's
    own invariant then holds of the contract. *)

From S2P Require Import Prelude Sdk Types SchedulerState CloneKeys Scheduling Execution Settlement Intents Scheduler TaskGuards SchedulerAccounts.

Implicit Types (e : env K) (w : world K) (s : State) (Q : unit → world K → Prop) (E : string → Prop).

Record board := Board {
  live : gmap hash QuantumTaskState;
  index : gmap address (gset hash);
  enclave : gmap hash address;
  spent : gset hash;
}.
#[export] Instance board_eta : Settable board := λ b, Board (live b) (index b) (enclave b) (spent b).
Definition board_of s : board :=
  Board (quantum_tasks s) (owner_tasks s) (assigned_enclave_keeper s) (used_compressed_tasks s).

(** ** What a move does to the board *)

(** A new task is Pending, with its deposit, and in its owner's index. *)
Definition added (h : hash) (owner : address) (deposit : N) (b : board) : board :=
  b <| live ::= <[h := MkQuantumTaskState owner deposit Pending 0]> |>
    <| index ::= set_insert owner h |>.
(** A task put in execution is otherwise unchanged; a confidential one is
    assigned to the keeper that starts it. *)
Definition put_in_execution (h : hash) (q : QuantumTaskState) (keeper : option address) (b : board) : board :=
  b <| live ::= <[h := q]> |>
    <| enclave ::= if keeper is Some k then <[h := k]> else id |>.
(** A closed task leaves the board and its owner's index. *)
Definition dropped (h : hash) (q : QuantumTaskState) (b : board) : board :=
  b <| live ::= delete h |> <| index ::= set_remove (q_owner q) h |>.
Definition settled (h : hash) (q : QuantumTaskState) (success : bool) (b : board) : board :=
  dropped h q b <| enclave ::= delete h |>
    <| spent ::= if success then λ u, {[h]} ∪ u else id |>.

(** The calls that are about tasks; the others leave the board alone. *)
Definition task_call (c : call) : bool :=
  match c with
  | ScheduleQuantumTask _ _ | ScheduleSovereignTask _ _ | CancelQuantumTask _ | ExecuteQuantumTask _ _
  | ExecuteCompressedTask _ _ | ExecutionCallback _ _ | SettleXseTask _ _ | RescueStuckXseTask _ => true
  | _ => false
  end.

Section moves.
Context `{Sdk}.

(** ** When a call may make a move *)

(** [owner] schedules, in person or through a clone key, and puts in [d]. *)
Definition may_fund e s (requested : option N) (owner : address) (d : N) : Prop :=
  paused_cell s = false ∧ esdt_transfers e = [] ∧
  ∃ is_clone_key, resolves_to e s owner is_clone_key ∧ deposit_taken e s is_clone_key requested d.

(** The keeper of [e] starts the live Pending task of its own payload. *)
Definition may_start e s (t : Task) (secret : option bytes) (q : QuantumTaskState) : Prop :=
  no_payment e ∧ paused_cell s = false ∧ caller e ∈ whitelisted_keepers s ∧
  quantum_tasks s !! quantum_seal t = Some q ∧ q_status q = Pending ∧ secret_fits t secret ∧
  (∀ k, t_assigned_keeper t = Some k → caller e = k) ∧
  in_turn e t (quantum_seal t) s ∧ dispatchable e t (caller e) s.

(** The owner, in person or through a clone key, cancels a Pending task. *)
Definition may_cancel e s (h : hash) (q : QuantumTaskState) : Prop :=
  no_payment e ∧ paused_cell s = false ∧ quantum_tasks s !! h = Some q ∧ is_zero (q_owner q) = false ∧
  q_status q = Pending ∧ ∃ is_clone_key, resolves_to e s (q_owner q) is_clone_key.

(** The assigned keeper settles an executing task, with a proof the verifier
    accepts when one is configured. *)
Definition may_settle e s (h : hash) (proof : bytes) (q : QuantumTaskState) : Prop :=
  no_payment e ∧ paused_cell s = false ∧ caller e ∈ whitelisted_keepers s ∧
  assigned_enclave_keeper s !! h = Some (caller e) ∧
  quantum_tasks s !! h = Some q ∧ q_status q = Executing ∧
  ∃ verifier, zk_verifier_addr s = Some verifier ∧
    (is_zero verifier = true ∨ vouched e verifier "verifyZkProof" [ArgBuf h; ArgBuf proof]).

(** The task's owner or the contract's rescues a task stuck for 24 hours. *)
Definition may_rescue e s (h : hash) (q : QuantumTaskState) : Prop :=
  no_payment e ∧ paused_cell s = false ∧ quantum_tasks s !! h = Some q ∧ q_status q = Executing ∧
  u64_add (q_executing_at q) stuck_threshold ≤ timestamp e ∧
  (caller e = q_owner q ∨ caller e = owner_address e) ∧
  is_Some (assigned_enclave_keeper s !! h).

(** A keeper puts in execution a task proved against the compressed state. *)
Definition may_compress e s (t : Task) (proof : bytes) : Prop :=
  no_payment e ∧ paused_cell s = false ∧ caller e ∈ whitelisted_keepers s ∧
  (quantum_seal t ∉ used_compressed_tasks s) ∧
  (∃ core, xsc_address s = Some core ∧ is_zero core = false ∧
     vouched e core "verifyProof" [ArgBuf (quantum_seal t); ArgBuf proof]) ∧
  dispatchable e t (caller e) s.

(** ... with the owner and the deposit its payload claims. *)
Definition compressed_start e (t : Task) : QuantumTaskState :=
  started e (MkQuantumTaskState (t_owner t) (t_deposit t) Pending 0).

(** The move of call [c] from storage [s]: its guard, and the board after it. *)
Inductive move e (c : call) s : board → Prop :=
| move_idle : task_call c = false → move e c s (board_of s)
| move_schedule t r o d :
    c = ScheduleQuantumTask t r → may_fund e s r o d → valid_params t d s → within_limits e o s →
    quantum_tasks s !! quantum_seal t = None →
    move e c s (added (quantum_seal t) o d (board_of s))
| move_sovereign p r o d :
    c = ScheduleSovereignTask p r → may_fund e s r o d →
    min_deposit s ≤ d → (0 < max_exec_value_egld s → d ≤ max_exec_value_egld s) →
    quantum_tasks s !! sovereign_hash p o d = None →
    move e c s (added (sovereign_hash p o d) o d (board_of s))
| move_start t x q :
    c = ExecuteQuantumTask t x → may_start e s t x q →
    move e c s (put_in_execution (quantum_seal t) (started e q)
      (if t_confidential t then Some (caller e) else None) (board_of s))
| move_cancel h q :
    c = CancelQuantumTask h → may_cancel e s h q → move e c s (dropped h q (board_of s))
| move_settle h p q :
    c = SettleXseTask h p → may_settle e s h p q → move e c s (settled h q true (board_of s))
| move_rescue h q :
    c = RescueStuckXseTask h → may_rescue e s h q → move e c s (settled h q false (board_of s))
| move_callback h target k success q :
    c = ExecutionCallback (execution_closure h target k) success → quantum_tasks s !! h = Some q →
    move e c s (settled h q success (board_of s))
| move_compressed t p :
    c = ExecuteCompressedTask t p → may_compress e s t p →
    move e c s (put_in_execution (quantum_seal t) (compressed_start e t) None (board_of s)).
End moves.

(** ** The board's invariant *)

Definition board_ok (b : board) : Prop :=
  (∀ h o, h ∈ set_of (index b) o ↔ ∃ q, live b !! h = Some q ∧ q_owner q = o) ∧
  (∀ h q, live b !! h = Some q → q_status q = Pending ∨ q_status q = Executing).

Section sets.
Context {A B} `{Countable A, Countable B}.

Lemma elem_set_insert (k k' : A) (x y : B) (m : gmap A (gset B)) :
  y ∈ set_of (set_insert k x m) k' ↔ (k' = k ∧ y = x) ∨ y ∈ set_of m k'.
Proof.
  unfold set_insert, set_of at 1. destruct (decide (k = k')) as [<-|Hne].
  - rewrite lookup_insert_eq. simpl. set_solver.
  - rewrite lookup_insert_ne by done. unfold set_of. naive_solver.
Qed.

Lemma elem_set_remove (k k' : A) (x y : B) (m : gmap A (gset B)) :
  y ∈ set_of (set_remove k x m) k' ↔ ¬ (k' = k ∧ y = x) ∧ y ∈ set_of m k'.
Proof.
  unfold set_remove, set_of at 1. destruct (decide (k = k')) as [<-|Hne].
  - rewrite lookup_insert_eq. simpl. set_solver.
  - rewrite lookup_insert_ne by done. unfold set_of. naive_solver.
Qed.
End sets.

Section invariant.

Lemma board_ok_added h o d b :
  live b !! h = None → board_ok b → board_ok (added h o d b).
Proof.
  intros Hn [Hidx Hst]. split; simpl.
  - intros h' o'. rewrite elem_set_insert, Hidx. destruct (decide (h = h')) as [<-|Hne].
    + rewrite lookup_insert_eq. naive_solver congruence.
    + rewrite lookup_insert_ne by done. naive_solver.
  - intros h' q'. destruct (decide (h = h')) as [<-|Hne].
    + rewrite lookup_insert_eq. intros [= <-]. auto.
    + rewrite lookup_insert_ne by done. apply Hst.
Qed.

Lemma board_ok_execution e h q k b :
  live b !! h = Some q → board_ok b → board_ok (put_in_execution h (started e q) k b).
Proof.
  intros Hq [Hidx Hst]. split; simpl.
  - intros h' o. rewrite Hidx. destruct (decide (h = h')) as [<-|Hne].
    + rewrite lookup_insert_eq, Hq. split; intros (q' & [= <-] & <-); eauto.
    + by rewrite lookup_insert_ne.
  - intros h' q'. destruct (decide (h = h')) as [<-|Hne].
    + rewrite lookup_insert_eq. intros [= <-]. auto.
    + rewrite lookup_insert_ne by done. apply Hst.
Qed.

Lemma board_ok_dropped h q b :
  live b !! h = Some q → board_ok b → board_ok (dropped h q b).
Proof.
  intros Hq [Hidx Hst]. split; simpl.
  - intros h' o. rewrite elem_set_remove, Hidx. destruct (decide (h = h')) as [<-|Hne].
    + rewrite lookup_delete_eq. naive_solver congruence.
    + rewrite lookup_delete_ne by done. naive_solver.
  - intros h' q'. destruct (decide (h = h')) as [<-|Hne].
    + by rewrite lookup_delete_eq.
    + rewrite lookup_delete_ne by done. apply Hst.
Qed.

Lemma board_ok_settled h q success b :
  live b !! h = Some q → board_ok b → board_ok (settled h q success b).
Proof. intros Hq Hok. apply (board_ok_dropped h q b Hq Hok). Qed.
End invariant.

Section proofs.
Context `{StrictSdk}.

Lemma board_ok_move e c s b' :
  move e c s b' → is_compressed c = false → board_ok (board_of s) → board_ok b'.
Proof.
  intros Hm Hc Hok. destruct Hm; try subst c; try done.
  - by apply board_ok_added.
  - by apply board_ok_added.
  - apply board_ok_execution; [|done]. by match goal with Hs : may_start _ _ _ _ _ |- _ => apply Hs end.
  - apply board_ok_dropped; [|done]. by match goal with Hs : may_cancel _ _ _ _ |- _ => apply Hs end.
  - apply board_ok_settled; [|done]. by match goal with Hs : may_settle _ _ _ _ _ |- _ => apply Hs end.
  - apply board_ok_settled; [|done]. by match goal with Hs : may_rescue _ _ _ _ |- _ => apply Hs end.
  - by apply board_ok_settled.
Qed.

(** ** The Scheduler refines the board *)

(** The calls that may touch a clone key. *)
Definition key_call (c : call) : bool :=
  match c with
  | ScheduleQuantumTask _ _ | ScheduleSovereignTask _ _ | AuthorizeCloneKey _ _ | RevokeCloneKey _
  | FundCloneKey _ => true
  | _ => false
  end.
(** What the other transactions keep; none touches the whitelist of payment tokens. *)
Definition kept (c : call) s s' : Prop :=
  accepted_payment_tokens s' = accepted_payment_tokens s ∧
  (key_call c = false → clone_key_props s' = clone_key_props s).

(** The effect of a transaction on the board. *)
Definition moved e c w : unit → world K → Prop := λ _ w',
  move e c (st w) (board_of (st w')) ∧ kept c (st w) (st w').
(** The storage after a transaction that is not about tasks, nor about clone keys. *)
Definition unmoved w w' : Prop :=
  board_of (st w') = board_of (st w) ∧
  accepted_payment_tokens (st w') = accepted_payment_tokens (st w).
Definition untouched w w' : Prop :=
  unmoved w w' ∧ clone_key_props (st w') = clone_key_props (st w).

Lemma moved_idle e c w w' :
  task_call c = false → unmoved w w' → kept c (st w) (st w') → moved e c w () w'.
Proof. unfold moved, unmoved. intros Hc [-> _]. split; [by constructor|done]. Qed.

(** A transaction makes the move [b] of its call. *)
Lemma moved_to e c w b w' :
  move e c (st w) b → board_of (st w') = b → kept c (st w) (st w') → moved e c w () w'.
Proof. by intros Hm <- Ha. Qed.

Lemma may_fund_intro e s r o c d :
  paused_cell s = false → esdt_transfers e = [] → resolves_to e s o c → deposit_taken e s c r d →
  may_fund e s r o d.
Proof. intros. split_and!; [done..|by exists c]. Qed.

Lemma board_schedule e t r w :
  wp (schedule_quantum_task e t r) (λ _, moved e (ScheduleQuantumTask t r) w ()) any_error w.
Proof.
  unfold schedule_quantum_task. wp_go. apply wp_require_not_paused; [intros Hp|done]. wp_go.
  apply wp_resolve_caller. intros o c Ho. wp_go. apply wp_taken. intros d w' keys Hst Hd. wp_go.
  apply wp_validate. intros Hv. wp_go. unfold enforce_rate_limits, set_quantum_task. rewrite Hst in *.
  assert (Hmove : within_limits e o (st w) → quantum_tasks (st w) !! quantum_seal t = None →
    move e (ScheduleQuantumTask t r) (st w) (added (quantum_seal t) o d (board_of (st w)))).
  { intros Hl Hn. eapply move_schedule; [done|by apply (may_fund_intro e _ _ _ c)|exact Hv|exact Hl|exact Hn]. }
  wp_go; rewrite Hst in *;
    (eapply moved_to; [apply Hmove; [split; [done|by intros]|done]|simpl; by rewrite Hst|simpl; by rewrite Hst]).
Qed.

Lemma board_sovereign e p r w :
  wp (schedule_sovereign_task e p r) (λ _, moved e (ScheduleSovereignTask p r) w ()) any_error w.
Proof.
  unfold schedule_sovereign_task. wp_go. apply wp_require_not_paused; [intros Hp|done]. wp_go.
  apply wp_resolve_caller. intros o c Ho. wp_go. apply wp_taken. intros d w' keys Hst Hd.
  unfold require_deposit_within_cap, set_quantum_task. wp_go; rewrite Hst in *;
    (eapply moved_to; [|simpl; rewrite Hst; reflexivity|simpl; by rewrite Hst]);
    (eapply move_sovereign; [done|by apply (may_fund_intro e _ _ _ c)|done|by intros|done]).
Qed.

Lemma board_cancel e h w :
  wp (cancel_quantum_task e h) (moved e (CancelQuantumTask h) w) any_error w.
Proof.
  unfold cancel_quantum_task. wp_go. apply wp_require_not_paused; [intros Hp|done]. wp_go.
  apply wp_get_quantum_task; [|done]. intros q Hq. wp_go. apply wp_resolve_caller. intros o c Ho.
  unfold clear_quantum_task.
  wp_go; (eapply moved_to; [eapply move_cancel; [done|]|done|done]); simpl in *; subst; (split_and!; try done; by exists c).
Qed.

Lemma board_rescue e h w :
  wp (rescue_stuck_xse_task e h) (moved e (RescueStuckXseTask h) w) any_error w.
Proof.
  unfold rescue_stuck_xse_task. wp_go. apply wp_require_not_paused; [intros Hp|done]. wp_go.
  apply wp_get_quantum_task; [|done]. intros q Hq. unfold get_assigned_enclave_keeper, clear_quantum_task.
  wp_go; rewrite ?strict_address in *; try done.
  all: try (apply wp_forward_keeper_result; intros b' Hb'; wp_go; try done).
  all: (eapply moved_to; [eapply move_rescue; [done|]|done|done]); split_and!; try done; naive_solver.
Qed.

Lemma board_callback e cb b w :
  wp (execution_callback cb b) (moved e (ExecutionCallback cb b) w) any_error w.
Proof.
  destruct cb as [h target k]. cbn [execution_callback]. apply wp_bind.
  apply wp_get_quantum_task; [|done]. intros q Hq.
  destruct b; [apply wp_success_state|apply wp_failure_state]; intros w' Hst;
    (eapply moved_to; [by eapply move_callback|by rewrite Hst|by rewrite Hst]).
Qed.

Lemma board_settle e h p w :
  no_reentrancy e →
  wp (settle_xse_task e h p) (moved e (SettleXseTask h p) w) any_error w.
Proof.
  intros Hnr. unfold settle_xse_task. wp_go. apply wp_require_not_paused; [intros Hp|done].
  unfold require_registered_keeper, get_assigned_enclave_keeper. wp_go; try done.
  rewrite ?strict_address in *. destruct_or?; [|naive_solver]. apply wp_bind.
  apply wp_get_quantum_task; [|done]; intros q Hq. wp_go; try done; rewrite ?strict_address in *.
  all: match goal with Hz : zk_verifier_addr _ = Some _ ∨ _ |- _ => destruct Hz as [Hz|]; [|naive_solver] end.
  - apply wp_success_state. intros w' Hst.
    eapply moved_to; [eapply move_settle; [done|]|by rewrite Hst|by rewrite Hst]. split_and!; naive_solver.
  - apply wp_query; [done|]. intros r b Hr Hb. wp_go. apply wp_success_state. intros w' Hst.
    eapply moved_to; [eapply move_settle; [done|]|by rewrite Hst|by rewrite Hst].
    split_and!; try done; [congruence|]. eexists. split; [done|]. right. by exists r.
Qed.

Lemma board_execute e t x w :
  no_reentrancy e → wp (execute_quantum_task e t x) (moved e (ExecuteQuantumTask t x) w) any_error w.
Proof.
  intros Hnr. unfold execute_quantum_task. wp_go. apply wp_require_not_paused; [intros Hp|done].
  unfold require_registered_keeper. wp_go.
  apply wp_get_quantum_task; [|done]. intros q Hq. wp_go. apply wp_check_secret. intros Hx.
  assert (Hrest : (∀ k, t_assigned_keeper t = Some k → caller e = k) →
    wp (perform_round_robin_check e t (quantum_seal t) (caller e);;
    (if t_confidential t
     then modify (λ s : State, s <| assigned_enclave_keeper ::= <[quantum_seal t := caller e]> |>)
     else mret ());;
    dispatch_task_execution e (quantum_seal t) t (caller e) q) (moved e (ExecuteQuantumTask t x) w) any_error w).
  { intros Hlock. apply wp_bind, wp_round_robin. intros Hturn.
    assert (Hmove : dispatchable e t (caller e) (st w) → move e (ExecuteQuantumTask t x) (st w)
      (put_in_execution (quantum_seal t) (started e q) (if t_confidential t then Some (caller e) else None)
        (board_of (st w)))) by (intros Hd; eapply move_start; [done|by split_and!]).
    wp_go; (apply wp_dispatch_task; [done|]); intros w' Hst _ Hd;
      (eapply moved_to; [by apply Hmove|by rewrite Hst|by rewrite Hst]). }
  cbv beta. apply wp_bind.
  destruct (t_assigned_keeper t); [apply wp_require; [intros ?|done]|apply wp_ret]; apply Hrest; by intros; simplify_eq.
Qed.

Lemma board_compressed e t p w :
  no_reentrancy e → wp (execute_compressed_task e t p) (moved e (ExecuteCompressedTask t p) w) any_error w.
Proof.
  intros Hnr. unfold execute_compressed_task. wp_go. apply wp_require_not_paused; [intros Hp|done].
  unfold require_registered_keeper. wp_go; try done. rewrite ?strict_address in *.
  match goal with Hz : xsc_address _ = Some _ ∨ _ |- _ => destruct Hz as [Hz|]; [|naive_solver] end.
  apply wp_query; [done|]; intros r b Hr Hb; wp_go; apply wp_dispatch_task; [done|]; intros w' Hst _ Hd.
  eapply moved_to; [eapply move_compressed; [done|]|by rewrite Hst|by rewrite Hst].
  split_and!; try done. eexists. split_and!; [done|done|by exists r].
Qed.

(** Transactions that are not about tasks leave the board alone. *)
Lemma board_clone_keys e k n w :
  wp (authorize_clone_key e k n) (λ _, unmoved w) any_error w ∧
  wp (revoke_clone_key e k) (λ _, unmoved w) any_error w ∧
  wp (fund_clone_key e k) (λ _, unmoved w) any_error w.
Proof.
  split_and!.
  - unfold authorize_clone_key. wp_go. apply wp_require_not_paused; [intros _|done]. by wp_go.
  - unfold revoke_clone_key. wp_go. apply wp_get_clone_key; [|done]. intros c _. by wp_go.
  - unfold fund_clone_key. wp_go. apply wp_require_not_paused; [intros _|done]. wp_go.
    apply wp_get_clone_key; [|done]. intros c _. by wp_go.
Qed.

Lemma board_cancel_intents e i w :
  wp (cancel_intent e i) (λ _, untouched w) any_error w ∧
  wp (cancel_multi_intent e i) (λ _, untouched w) any_error w ∧
  wp (cancel_pre_cognitive_intent e i) (λ _, untouched w) any_error w.
Proof.
  split_and!.
  - unfold cancel_intent, set_intent, pay_fee. wp_go. apply wp_get_intent; [|done]. intros x _. by wp_go.
  - unfold cancel_multi_intent, set_multi_intent, pay_fee. wp_go.
    apply wp_get_multi_intent; [|done]. intros x _. by wp_go.
  - unfold cancel_pre_cognitive_intent, set_pre_cognitive, pay_fee. wp_go.
    apply wp_get_pre_cognitive; [|done]. intros x _. by wp_go.
Qed.

Lemma board_create_intents e o m d f os r w :
  wp (create_intent e o m d f) (λ _, untouched w) any_error w ∧
  wp (create_multi_intent e os d f) (λ _, untouched w) any_error w ∧
  wp (create_pre_cognitive_intent e r d f) (λ _, untouched w) any_error w.
Proof.
  split_and!.
  - unfold create_intent, set_intent. wp_go. apply wp_require_not_paused; [intros _|done]. wp_go.
    apply wp_single_transfer. intros p _. by wp_go.
  - unfold create_multi_intent, set_multi_intent. wp_go. apply wp_require_not_paused; [intros _|done]. wp_go.
    apply wp_single_transfer. intros p _. wp_go. apply wp_require_distinct. by wp_go.
  - unfold create_pre_cognitive_intent, set_pre_cognitive. wp_go.
    apply wp_require_not_paused; [intros _|done]. wp_go. apply wp_single_transfer. intros p _. by wp_go.
Qed.

Lemma board_solve_intents e i p tc te ta eo m w :
  wp (solve_intent e i) (λ _, untouched w) any_error w ∧
  wp (solve_multi_intent e i) (λ _, untouched w) any_error w ∧
  wp (execute_pre_cognitive_leaf e i p tc te ta eo m) (λ _, untouched w) any_error w.
Proof.
  split_and!.
  - unfold solve_intent, require_registered_keeper, set_intent, pay_fee. wp_go.
    apply wp_get_intent; [|done]. intros x _. wp_go. apply wp_single_fungible. intros q _ _. by wp_go.
  - unfold solve_multi_intent, require_registered_keeper, set_multi_intent, pay_fee. wp_go.
    apply wp_get_multi_intent; [|done]. intros x _. wp_go. apply wp_check_outcomes. wp_go.
    apply wp_forward_payments. intros b l _. by wp_go.
  - unfold execute_pre_cognitive_leaf, require_registered_keeper, set_pre_cognitive, pay_fee. wp_go.
    apply wp_get_pre_cognitive; [|done]. intros x _. wp_go. apply wp_single_fungible. intros q _ _. by wp_go.
Qed.

Lemma wp_untouched e c (m : M K unit) w :
  task_call c = false → wp m (λ _, untouched w) any_error w → wp m (moved e c w) any_error w.
Proof. intros Hc Hm. eapply wp_mono; [exact Hm|]. intros [] w' [Hu Hk]. by apply moved_idle; [..|split; [apply Hu|]]. Qed.

Lemma wp_unmoved e c (m : M K unit) w :
  task_call c = false → key_call c = true → wp m (λ _, unmoved w) any_error w → wp m (moved e c w) any_error w.
Proof.
  intros Hc Hk Hm. eapply wp_mono; [exact Hm|]. intros [] w' Hu.
  apply moved_idle; [done..|split; [apply Hu|congruence]].
Qed.

Lemma wp_discard {A} (m : M K A) (P : world K → Prop) E w :
  wp m (λ _, P) E w → wp (discard m) (λ _, P) E w.
Proof. intros Hm. apply wp_bind. eapply wp_mono; [exact Hm|]. done. Qed.

Lemma board_config e c w :
  match c with
  | Upgrade | TriggerXseEnclave _ | SetMinDeposit _ | SetProtocolFeeBps _ | SetRevealWindow _
  | SetCommitBond _ | SetKeeperRegistryAddr _ | SetRewardsAddr _ | SetXwapAddress _ | SetXscAddress _
  | SetZkVerifierAddr _ | AddWhitelistedKeeper _ | RemoveWhitelistedKeeper _ | SetMaxRewardPerExec _
  | FlushProtocolFees | BlacklistTarget _ | RemoveBlacklist _ | SetMaxExecValue _ | RegisterKeeperShard
  | Pause | Unpause => wp (dispatch e c) (λ _, untouched w) any_error w
  | _ => True
  end.
Proof.
  destruct c; try done; cbn [dispatch].
  all: try (unfold set_min_deposit, set_reveal_window, set_commit_bond, set_keeper_registry_addr,
    set_rewards_addr, set_xwap_address, set_xsc_address, set_zk_verifier_addr, set_max_reward_per_exec,
    blacklist_target, remove_blacklist, set_max_exec_value, add_whitelisted_keeper, register_keeper_shard,
    trigger_xse_enclave, require_registered_keeper, set_protocol_fee_bps, flush_protocol_fees,
    upgrade, pause, unpause, owner_sets; wp_go; done).
  unfold remove_whitelisted_keeper. wp_go. by apply wp_remove_scan.
Qed.

Lemma board_dispatch e c w :
  no_reentrancy e → wp (dispatch e c) (moved e c w) any_error w.
Proof.
  intros Hnr. pose proof (board_config e c w) as Hconf.
  destruct c; try (by apply wp_untouched); clear Hconf; cbn [dispatch].
  - apply (wp_discard _ (moved e _ w ())), board_schedule.
  - apply (wp_discard _ (moved e _ w ())), board_sovereign.
  - apply board_cancel.
  - by apply board_execute.
  - by apply board_compressed.
  - by apply board_callback.
  - by apply board_settle.
  - apply board_rescue.
  - apply wp_untouched, wp_discard; [done|]. by apply (board_create_intents e _ _ _ _ [] []).
  - apply wp_untouched; [done|]. apply board_cancel_intents.
  - apply wp_untouched; [done|]. apply (board_solve_intents e _ [] 0 [] [] EmptyString 0).
  - apply wp_untouched, wp_discard; [done|]. by apply (board_create_intents e EmptyString 0 _ _ _ []).
  - apply wp_untouched; [done|]. apply board_cancel_intents.
  - apply wp_untouched; [done|]. apply (board_solve_intents e _ [] 0 [] [] EmptyString 0).
  - apply wp_untouched, wp_discard; [done|]. by apply (board_create_intents e EmptyString 0 _ _ [] _).
  - apply wp_untouched; [done|]. apply board_cancel_intents.
  - apply wp_untouched; [done|]. apply board_solve_intents.
  - apply wp_unmoved; [done..|]. apply board_clone_keys.
  - apply wp_unmoved; [done..|]. apply (board_clone_keys e _ 0).
  - apply wp_unmoved; [done..|]. apply (board_clone_keys e _ 0).
Qed.

Lemma board_deployed w : deployed w → board_ok (board_of (st w)).
Proof.
  intros (e & r & rw & d & f & w0 & Hst & Hi). revert Hi.
  apply (wp_ok _ (λ _ w', board_ok (board_of (st w'))) any_error). unfold init. wp_go.
  unfold board_ok, set_of. simpl. rewrite Hst. simpl. split; [|by intros].
  intros h o. rewrite lookup_empty. simpl. set_solver.
Qed.

(** One transaction of the Scheduler is one move of the board. *)
Lemma board_invoke e c w w' :
  no_reentrancy e → invoke e (dispatch e c) w = Ok ((), w') → moved e c w () w'.
Proof.
  intros Hnr. apply (wp_ok _ (moved e c w) any_error). apply wp_invoke.
  pose proof (board_dispatch e c (credit e w) Hnr) as Hwp. unfold moved in *.
  by rewrite st_credit in Hwp.
Qed.

Lemma board_reachable w : uncompressed_reachable w → board_ok (board_of (st w)).
Proof.
  intros Hr. induction Hr as [w Hd|w e c w' Hr IH [[Hnr _] Hc] Hi|w b _ IH Hb].
  - by apply board_deployed.
  - eapply board_ok_move, IH; [|done]. by eapply board_invoke.
  - done.
Qed.

(** A transaction not about clone keys leaves them alone. *)
Lemma keys_kept e c w w' :
  no_reentrancy e → key_call c = false → invoke e (dispatch e c) w = Ok ((), w') →
  clone_key_props (st w') = clone_key_props (st w).
Proof. intros Hnr Hc Hi. by destruct (board_invoke e c w w' Hnr Hi) as [_ [_ Hk]]; apply Hk. Qed.

(** The whitelist of payment tokens stays empty. *)
Lemma no_accepted_tokens w : scheduler_reachable w → accepted_payment_tokens (st w) = ∅.
Proof.
  intros Hr. induction Hr as [w Hd|w e c w' Hr IH [Hnr _] Hi|w b _ IH Hb].
  - destruct Hd as (e & r & rw & d & f & w0 & Hst & Hi). revert Hi.
    apply (wp_ok _ (λ _ w', accepted_payment_tokens (st w') = ∅) any_error). unfold init. wp_go.
    simpl. by rewrite Hst.
  - destruct (board_invoke e c w w' Hnr Hi) as [_ [-> _]]. exact IH.
  - done.
Qed.
End proofs.
