(* ===== verification/SchedulerProps.v ===== *)
(** Properties of the Scheduler contract, with their witnesses. *)

From S2P Require Import Prelude Sdk Types SchedulerState CloneKeys Scheduling Execution Settlement Intents Scheduler TaskGuards SchedulerAccounts TaskBoard.

Implicit Types (e : env K) (w : world K) (s : State) (Q : unit → world K → Prop) (E : string → Prop).

(** The instant a time-triggered task becomes ripe. *)
Definition time_trigger (t : Task) : option N :=
  match t_trigger t with TimeOnce x => Some x | TimeRecurring x _ _ => Some x | _ => None end.

Section properties.
Context `{StrictSdk}.

Lemma validate_inv t d w : wp (validate_task_parameters t d) (λ _ _, valid_params t d (st w)) any_error w.
Proof. by apply wp_validate. Qed.

(** C1: the Scheduler is solvent as long as no callee calls back and no
    compressed task is executed.  In every state reached by transactions of
    which none is [executeCompressedTask], none makes a synchronous call (to
    the oracle of a state-driven task, the XWAP gate, the proof verifier) that
    calls the Scheduler back, and each promise callback belongs to a promise
    the contract registered, its EGLD balance covers the deposits of all live
    tasks, the unspent budgets of the clone keys, the accrued protocol fees and
    the fees attached to pending intents of the three kinds.  Callees may send
    EGLD.  Both restrictions are needed: the code has no re-entrancy guard, and
    [reentrant_oracle_drains] and [compressed_tasks_drain] below reach states
    that owe more than they hold without one or the other. *)
Theorem scheduler_solvent w :
  reachable dispatch deployed (λ e c w,
    (no_reentrancy e ∧ match c with ExecutionCallback cb _ => registered w cb | _ => True end) ∧
    is_compressed c = false) w →
  msum q_deposit (quantum_tasks (st w)) + msum unspent (clone_key_props (st w)) +
  accrued_protocol_fees (st w) + msum intent_due (intent_by_id (st w)) +
  msum multi_intent_due (multi_intent_by_id (st w)) +
  msum pre_cognitive_due (pre_cognitive_intent_by_id (st w)) ≤ bal w Egld.
Proof. intros (_ & _ & Hle)%accounts_reachable. unfold owed in Hle. lia. Qed.

(** C2: tasks follow their life cycle.  Whatever the storage, a successful
    transaction whose callees do not call back makes exactly the move of the
    task board that its call and the storage before it allow, with every guard
    of the endpoint: an unpaused contract lets the funding owner (in person or
    through a clone key within its budget) put an absent, validated task on
    the board as Pending with the deposit taken; a whitelisted keeper, unlocked
    and in its turn, start a live Pending task of that payload that is ripe,
    safe and gassed, which becomes Executing as of now and, when confidential,
    assigned to that keeper; its owner cancel it while Pending; the assigned
    keeper settle it while Executing, with an accepted proof when a verifier is
    configured; its owner or the contract's rescue it 24 h after its start; its
    callback close it; and a keeper execute a vouched compressed task once.  No
    other transaction touches the board.  In states reached without compressed
    tasks and without callees that call back, the board is well formed: a hash
    is in an owner's index exactly when that owner has the live task, and live
    tasks are Pending or Executing. *)
Theorem task_lifecycle e c w w' :
  no_reentrancy e → invoke e (dispatch e c) w = Ok ((), w') →
  move e c (st w) (board_of (st w')) ∧
  (uncompressed_reachable w → is_compressed c = false → board_ok (board_of (st w'))).
Proof.
  intros Hnr Hi. destruct (board_invoke e c w w' Hnr Hi) as [Hm _]. split; [exact Hm|].
  intros Hr Hc. eapply board_ok_move; [exact Hm|done|]. by apply board_reachable.
Qed.

Lemma callback_runs e h target k (b : bool) q w :
  uncompressed_reachable w → quantum_tasks (st w) !! h = Some q →
  let d := q_deposit q in
  let paid := if b then reward_of (st w) d + refund_of (st w) d else d - protocol_cut (st w) d in
  ∃ w', invoke e (execution_callback (execution_closure h target k) b) w = Ok ((), w') ∧
    st w' = (if b then success_state else failure_state) h target (q_owner q) d (st w) ∧
    log w' = log w ++ (if b then success_log else failure_log) h (q_owner q) k d (st w) ∧
    bal w' Egld + paid = bal w Egld + egld_value e ∧ paid + protocol_cut (st w) d = d.
Proof.
  intros Hr Hq d paid. apply accounts_reachable in Hr.
  pose proof (deposit_le_bal _ _ _ Hr Hq) as Hle. destruct Hr as (Hfee & _ & _).
  pose proof (deposit_split (st w) d Hfee) as Hsplit. pose proof (protocol_cut_le (st w) d Hfee) as Hcut.
  apply wp_runs, wp_invoke. cbn [execution_callback]. apply wp_bind.
  apply wp_get_quantum_task; rewrite st_credit; [|congruence].
  intros q' Hq'. assert (q' = q) as -> by congruence. subst d paid. destruct b.
  - apply wp_finalize_success; rewrite ?st_credit, ?credit_egld, ?log_credit; [done|lia|].
    intros w' Hst Hlog Hb. split_and!; [done|done|lia|lia].
  - apply wp_finalize_failure; rewrite ?st_credit, ?credit_egld, ?log_credit; [done|lia|].
    intros w' Hst Hlog Hb. split_and!; [done|done|lia|lia].
Qed.

(** C3: a promise settles its task completely, and once.  In every state
    reached without compressed tasks and without callees that call back
    (outside of them the contract can be insolvent and the callback abort, see
    [compressed_tasks_drain] and [reentrant_oracle_drains]) the callback for a
    live task goes through.  On success the deposit is split between the capped
    reward of the keeper, the protocol cut and the refund of the owner; on
    failure the keeper gets nothing and the owner all but the cut, where the
    documentation says the whole deposit.  The parts add up to the deposit,
    storage and emitted effects are exactly those of the settlement, and a
    second callback for the task is refused. *)
Theorem callback_settles_once e h target k (b : bool) q w :
  uncompressed_reachable w → quantum_tasks (st w) !! h = Some q →
  let d := q_deposit q in
  let paid := if b then reward_of (st w) d + refund_of (st w) d else d - protocol_cut (st w) d in
  ∃ w', invoke e (execution_callback (execution_closure h target k) b) w = Ok ((), w') ∧
    st w' = (if b then success_state else failure_state) h target (q_owner q) d (st w) ∧
    log w' = log w ++ (if b then success_log else failure_log) h (q_owner q) k d (st w) ∧
    bal w' Egld + paid = bal w Egld + egld_value e ∧ paid + protocol_cut (st w) d = d ∧
    ∀ b', invoke e (execution_callback (execution_closure h target k) b') w' = Err "storage decode error".
Proof.
  intros Hr Hq d paid. destruct (callback_runs e h target k b q w Hr Hq) as (w' & Hrun & Hst & Hlog & Hb & Hd).
  exists w'. split_and!; [done..|]. intros b'. apply wp_fails, wp_invoke. cbn [execution_callback]. apply wp_bind.
  assert (quantum_tasks (st w') !! h = None) as Hn by (rewrite Hst; destruct b; apply lookup_delete_eq).
  apply wp_get_quantum_task; rewrite st_credit; [congruence|done].
Qed.

(** Scheduling by an address that is not a clone key goes through. *)
Lemma schedule_runs e t w :
  paused_cell (st w) = false → esdt_transfers e = [] → clone_key_props (st w) !! caller e = None →
  valid_params t (egld_value e) (st w) → within_limits e (caller e) (st w) →
  quantum_tasks (st w) !! quantum_seal t = None →
  ∃ w', invoke e (schedule_quantum_task e t None) w = Ok (quantum_seal t, w') ∧
    st w' = ((st w : State)
      <| tasks_per_round ::= <[(caller e, block_round e) :=
           u32_add (nget (tasks_per_round (st w)) (caller e, block_round e)) 1]> |>
      <| quantum_tasks ::= <[quantum_seal t := MkQuantumTaskState (caller e) (egld_value e) Pending 0]> |>
      <| owner_tasks ::= set_insert (caller e) (quantum_seal t) |>) ∧
    bal w' Egld = bal w Egld + egld_value e.
Proof.
  intros Hp Hesdt Hk Hv [Hsz Hround] Hn.
  destruct (wp_total (invoke e (schedule_quantum_task e t None)) (λ h w', h = quantum_seal t ∧
    st w' = ((st w : State)
      <| tasks_per_round ::= <[(caller e, block_round e) :=
           u32_add (nget (tasks_per_round (st w)) (caller e, block_round e)) 1]> |>
      <| quantum_tasks ::= <[quantum_seal t := MkQuantumTaskState (caller e) (egld_value e) Pending 0]> |>
      <| owner_tasks ::= set_insert (caller e) (quantum_seal t) |>) ∧
    bal w' Egld = bal w Egld + egld_value e) w) as (h & w' & Hrun & -> & Hst & Hb); [|by exists w'].
  apply wp_invoke. unfold schedule_quantum_task, enforce_rate_limits, set_quantum_task. wp_go; [|done].
  apply wp_require_not_paused; rewrite st_credit; simpl; [intros _|congruence]. wp_go.
  apply wp_resolve_caller. intros o c Ho. unfold resolves_to in Ho. rewrite st_credit, Hk in Ho.
  destruct Ho as [-> ->]. wp_go. cbn [take_deposit snd fst]. wp_go.
  apply wp_validate_ok; [by rewrite st_credit|]. wp_go; rewrite ?st_credit in *; try done;
    first [by exfalso; auto|split; [done|]; split; [done|]; simpl; by rewrite credit_egld].
Qed.

(** Cancelling a Pending task of the caller goes through. *)
Lemma cancel_runs e h q w :
  accounts 0 w → paused_cell (st w) = false → no_payment e →
  quantum_tasks (st w) !! h = Some q → q_status q = Pending → is_zero (q_owner q) = false →
  clone_key_props (st w) !! caller e = None → q_owner q = caller e →
  ∃ w', invoke e (cancel_quantum_task e h) w = Ok ((), w') ∧
    quantum_tasks (st w') = delete h (quantum_tasks (st w)) ∧
    owner_tasks (st w') = set_remove (caller e) h (owner_tasks (st w)) ∧
    accrued_protocol_fees (st w') = accrued_protocol_fees (st w) + protocol_cut (st w) (q_deposit q) ∧
    bal w' Egld + (q_deposit q - protocol_cut (st w) (q_deposit q)) = bal w Egld.
Proof.
  intros Hacc Hp [Hv Hesdt] Hq Hs Hz Hk Ho. pose proof (deposit_le_bal _ _ _ Hacc Hq) as Hle.
  destruct Hacc as (Hfee & _). pose proof (protocol_cut_le (st w) (q_deposit q) Hfee) as Hcut.
  apply wp_runs, wp_invoke. unfold cancel_quantum_task, clear_quantum_task. wp_go; [|tauto].
  apply wp_require_not_paused; rewrite st_credit; simpl; [intros _|congruence]. wp_go.
  apply wp_get_quantum_task; rewrite st_credit; [|congruence]. intros q' Hq'.
  assert (q' = q) as -> by congruence. wp_go; [|congruence].
  apply wp_resolve_caller. intros o c Hc. unfold resolves_to in Hc. rewrite st_credit, Hk in Hc.
  destruct Hc as [-> ->]. cbn [fst]. fold (protocol_cut (st w) (q_deposit q)).
  unfold protocol_cut, BPS_DENOMINATOR in *.
  pose proof (N.le_0_l (q_deposit q * protocol_fee_bps (st w) / 10000)) as Hcut0.
  wp_go; simpl in *; rewrite ?st_credit, ?credit_egld, ?Ho, ?bal_insert_eq in *; try congruence; try lia;
    split_and!; try done; lia.
Qed.

(** C16: cancelling undoes scheduling.  A task scheduled with valid parameters
    and within the rate limits is accepted under its Quantum Seal; if its owner
    cancels it while Pending, the live tasks are those of before, the owner
    gets the deposit back minus the protocol cut, and the cut is the only
    thing the contract keeps. *)
Theorem schedule_then_cancel e e' t w :
  uncompressed_reachable w → uncompressed e (ScheduleQuantumTask t None) w →
  paused_cell (st w) = false → esdt_transfers e = [] → no_payment e' →
  caller e' = caller e → is_zero (caller e) = false → clone_key_props (st w) !! caller e = None →
  valid_params t (egld_value e) (st w) → within_limits e (caller e) (st w) →
  quantum_tasks (st w) !! quantum_seal t = None →
  let cut := protocol_cut (st w) (egld_value e) in
  ∃ w1 w2, invoke e (schedule_quantum_task e t None) w = Ok (quantum_seal t, w1) ∧
    quantum_tasks (st w1) !! quantum_seal t = Some (MkQuantumTaskState (caller e) (egld_value e) Pending 0) ∧
    invoke e' (cancel_quantum_task e' (quantum_seal t)) w1 = Ok ((), w2) ∧
    quantum_tasks (st w2) = quantum_tasks (st w) ∧
    (quantum_seal t ∉ set_of (owner_tasks (st w2)) (caller e)) ∧
    accrued_protocol_fees (st w2) = accrued_protocol_fees (st w) + cut ∧
    bal w2 Egld = bal w Egld + cut.
Proof.
  intros Hr Hunc Hp Hesdt Hpay Hcaller Hz Hk Hv Hlim Hn cut.
  destruct (schedule_runs e t w) as (w1 & Hrun1 & Hst1 & Hb1); [done..|].
  assert (Hacc1 : accounts 0 w1).
  { apply accounts_reachable. eapply reach_call; [exact Hr|exact Hunc|].
    cbn [dispatch]. unfold discard, invoke in *. unfold mbind, M_bind. by rewrite Hrun1. }
  destruct (cancel_runs e' (quantum_seal t) (MkQuantumTaskState (caller e) (egld_value e) Pending 0) w1)
    as (w2 & Hrun2 & Ht2 & Ho2 & Ha2 & Hb2); rewrite ?Hst1, ?Hcaller; try done.
  { apply lookup_insert_eq. }
  exists w1, w2. split; [done|]. rewrite Hst1 in *. simpl in *.
  destruct Hacc1 as (Hfee & _). rewrite Hst1 in Hfee. simpl in Hfee.
  assert (Hcut : cut ≤ egld_value e) by by apply protocol_cut_le.
  change (protocol_cut _ _) with cut in Ha2, Hb2.
  split_and!; [apply lookup_insert_eq|done| | |done|lia].
  - rewrite Ht2. by apply delete_insert_id.
  - rewrite Ho2, Hcaller, elem_set_remove. naive_solver.
Qed.

(** ** Clone keys *)

Lemma keys_insert k c s : key_ok c → keys_ok s → keys_ok (s <| clone_key_props ::= <[k := c]> |>).
Proof. intros Hc Hw. by apply map_Forall_insert_2. Qed.

Lemma keys_charge e k amt w :
  keys_ok (st w) → wp (charge_clone_key e k amt) (λ _ w', keys_ok (st w')) any_error w.
Proof.
  intros Hw. unfold charge_clone_key. wp_go. apply wp_get_clone_key; [|done]. intros c Hc. wp_go.
  apply keys_insert; [|done]. apply key_ok_charge; [by eapply Hw|done].
Qed.

Lemma keys_deposit e c r w :
  keys_ok (st w) → wp (take_deposit e c r) (λ _ w', keys_ok (st w')) any_error w.
Proof.
  intros Hw. unfold take_deposit. wp_go; [|done]. destruct r; wp_go.
  eapply wp_mono; [by apply keys_charge|]. intros [] w' Hw'. by wp_go.
Qed.

Lemma keys_dispatch e c w :
  key_call c = true → keys_ok (st w) → wp (dispatch e c) (λ _ w', keys_ok (st w')) any_error w.
Proof.
  intros Hc Hw. destruct c; try discriminate Hc; cbn [dispatch]; unfold discard.
  - unfold schedule_quantum_task. wp_go. apply wp_require_not_paused; [intros _|done]. wp_go.
    apply wp_resolve_caller. intros o c _. wp_go. eapply wp_mono; [by apply keys_deposit|]. intros d w' Hw'.
    wp_go. apply wp_validate. intros _. unfold enforce_rate_limits, set_quantum_task. by wp_go.
  - unfold schedule_sovereign_task. wp_go. apply wp_require_not_paused; [intros _|done]. wp_go.
    apply wp_resolve_caller. intros o c _. wp_go. eapply wp_mono; [by apply keys_deposit|]. intros d w' Hw'.
    unfold require_deposit_within_cap, set_quantum_task. by wp_go.
  - unfold authorize_clone_key. wp_go. apply wp_require_not_paused; [intros _|done]. wp_go.
    apply keys_insert; [|done]. split; simpl; [lia|done].
  - unfold revoke_clone_key. wp_go. apply wp_get_clone_key; [|done]. intros c _. wp_go; by apply map_Forall_delete.
  - unfold fund_clone_key. wp_go. apply wp_require_not_paused; [intros _|done]. wp_go.
    apply wp_get_clone_key; [|done]. intros c Hc'. wp_go. apply keys_insert; [|done].
    assert (Hok : key_ok c) by by eapply Hw. destruct Hok. split; simpl; [lia|done].
Qed.

(** The budgets hold whether or not compressed tasks were executed. *)
Lemma keys_reachable w : scheduler_reachable w → keys_ok (st w).
Proof.
  intros Hr. induction Hr as [w Hd|w e c w' Hr IH [Hnr _] Hi|w b _ IH Hb]; [|..|exact IH].
  - by apply accounts_deployed.
  - destruct (key_call c) eqn:Hc.
    + revert Hi. apply (wp_ok _ (λ _ w', keys_ok (st w')) any_error), wp_invoke. by apply keys_dispatch.
    + unfold keys_ok. by rewrite (keys_kept e c w w').
Qed.

(** Revoking a clone key of the caller goes through when the contract can pay. *)
Lemma revoke_runs e k c w :
  unspent c ≤ bal w Egld → clone_key_props (st w) !! k = Some c → no_payment e → caller e = c_main_address c →
  ∃ w', invoke e (revoke_clone_key e k) w = Ok ((), w') ∧
    bal w' Egld + (c_spend_limit c - c_spent_amount c) = bal w Egld ∧
    clone_key_props (st w') = delete k (clone_key_props (st w)).
Proof.
  intros Hun Hc [Hv Hesdt] Hm. unfold unspent in Hun.
  apply wp_runs, wp_invoke. unfold revoke_clone_key, get_clone_key.
  wp_go; rewrite ?st_credit in *; try (exfalso; tauto); try congruence.
  all: try match goal with Hx : ¬ (_ ≠ _) |- _ => destruct Hx; congruence end.
  all: try match goal with Ha : _ ∨ _ |- _ => destruct Ha as [Ha|[Ha _]]; [|congruence]; rewrite Hc in Ha; injection Ha as <- end.
  all: simpl in *; rewrite ?st_credit, ?credit_egld in *; try congruence; try lia.
  all: rewrite ?bal_insert_eq, ?credit_egld; (split; [lia|done]).
Qed.

(** C25: clone keys cannot overspend.  In every state reached without callees
    that call back, with or without compressed tasks, a clone key has spent at
    most its limit, which is at most 2 EGLD.  Whenever the balance covers what
    is unspent, its main wallet can revoke it, gets back exactly that, and
    cannot do so twice; in states reached without compressed tasks the balance
    always covers it ([compressed_tasks_drain] shows that it may not
    otherwise). *)
Theorem clone_key_budget e k c w :
  scheduler_reachable w → clone_key_props (st w) !! k = Some c →
  c_spent_amount c ≤ c_spend_limit c ∧ c_spend_limit c ≤ 2 * EGLD_DECIMALS ∧
  (uncompressed_reachable w → c_spend_limit c - c_spent_amount c ≤ bal w Egld) ∧
  (no_payment e → caller e = c_main_address c → c_spend_limit c - c_spent_amount c ≤ bal w Egld →
   ∃ w', invoke e (revoke_clone_key e k) w = Ok ((), w') ∧
     bal w' Egld + (c_spend_limit c - c_spent_amount c) = bal w Egld ∧
     clone_key_props (st w') = delete k (clone_key_props (st w)) ∧
     invoke e (revoke_clone_key e k) w' = Err "Clone-Key not found").
Proof.
  intros Hr Hc. destruct (keys_reachable w Hr k c Hc) as [Hspent Hlimit]. split_and!; [done|done|..].
  - intros (_ & _ & Hle)%accounts_reachable. unfold owed in Hle.
    pose proof (msum_lookup_le unspent _ _ _ Hc) as Hun. unfold unspent at 1 in Hun. lia.
  - intros [Hv Hesdt] Hm Hun. destruct (revoke_runs e k c w) as (w' & Hrun & Hb & Hgone); [done..|].
    exists w'. split_and!; [done..|]. apply wp_fails, wp_invoke. unfold revoke_clone_key.
    wp_go; rewrite ?st_credit, ?Hgone, ?lookup_delete_eq in *; first [done|tauto].
Qed.

(** ** Round robin *)

Lemma assigned_index_range e t h n :
  (0 < n)%nat → (1 ≤ assigned_index e t h n ∧ assigned_index e t h n ≤ n)%nat.
Proof.
  intros Hn. unfold assigned_index. set (x := be_val _).
  assert (Hx : x mod N.of_nat n < N.of_nat n) by (apply N.mod_lt; lia).
  generalize dependent (x mod N.of_nat n). lia.
Qed.

Lemma keeper_list_get_some i k w (P : address → world K → Prop) E :
  (1 ≤ i)%nat → keeper_list (st w) !! (i - 1)%nat = Some (Some k) → P k w →
  wp (keeper_list_get i) P E w.
Proof.
  intros Hi Hk HQ. unfold keeper_list_get. destruct i as [|j]; [lia|].
  replace (S j - 1)%nat with j in Hk by lia. wp_go. rewrite Hk. by apply wp_ret.
Qed.

Lemma round_robin_run e t h k ks w :
  keeper_list (st w) = map Some ks → (1 < length ks)%nat →
  ∃ assigned, ks !! (assigned_index e t h (length ks) - 1)%nat = Some assigned ∧
    perform_round_robin_check e t h k w =
      if decide (k = assigned ∨ u64_add (ripe_time_ms e t) 30000 ≤ u64_mul (timestamp e) 1000)
      then Ok ((), w) else Err "Task assigned to another keeper".
Proof.
  intros Hl Hn. destruct (assigned_index_range e t h (length ks)) as [H1 H2]; [lia|].
  destruct (lookup_lt_is_Some_2 ks (assigned_index e t h (length ks) - 1)) as [a Ha]; [lia|].
  exists a. split; [exact Ha|].
  assert (Hwp : wp (perform_round_robin_check e t h k)
    (λ _ w', w' = w ∧ (k = a ∨ u64_add (ripe_time_ms e t) 30000 ≤ u64_mul (timestamp e) 1000))
    (λ msg, msg = "Task assigned to another keeper"%string ∧
       ¬ (k = a ∨ u64_add (ripe_time_ms e t) 30000 ≤ u64_mul (timestamp e) 1000)) w).
  { unfold perform_round_robin_check. wp_go; rewrite Hl, length_map in *; [|lia].
    apply (keeper_list_get_some _ a); [done|by rewrite Hl, list_lookup_fmap, Ha|].
    change (ROUND_ROBIN_GRACE_SECONDS * 1000) with 30000. wp_go; tauto. }
  unfold wp in Hwp. destruct (perform_round_robin_check e t h k w) as [[[] w']|msg].
  - destruct Hwp as [-> Hd]. by rewrite decide_True.
  - destruct Hwp as [-> Hd]. by rewrite decide_False.
Qed.

(** Round robin assigns every task to exactly one listed keeper.  With at
    least two keepers, listed without holes, the index drawn from the hash is
    always in range, and the check lets through exactly the assigned keeper, or
    anyone once the grace period after the ripe time is over; otherwise it
    reports the assignment and nothing else. *)
Theorem round_robin_assigns e t h ks w :
  keeper_list (st w) = map Some ks → (1 < length ks)%nat →
  ∃ assigned, assigned ∈ ks ∧ ks !! (assigned_index e t h (length ks) - 1)%nat = Some assigned ∧
  ∀ k, perform_round_robin_check e t h k w =
    if decide (k = assigned ∨ u64_add (ripe_time_ms e t) 30000 ≤ u64_mul (timestamp e) 1000)
    then Ok ((), w) else Err "Task assigned to another keeper".
Proof.
  intros Hl Hn. destruct (round_robin_run e t h 0 ks w Hl Hn) as (a & Ha & _).
  exists a. split; [by eapply list_elem_of_lookup_2|]. split; [exact Ha|]. intros k.
  destruct (round_robin_run e t h k ks w Hl Hn) as (a' & Ha' & Hrun).
  by assert (a' = a) as -> by congruence.
Qed.

(** The grace period of the round robin.  For a time trigger within the
    validated bounds the task opens to every keeper exactly 30 s after its ripe
    time; for oracle, event and quantum triggers the ripe time is the current
    block's, so the task never opens and only the assigned keeper can run it. *)
Theorem round_robin_window e t h k ks w :
  keeper_list (st w) = map Some ks → (1 < length ks)%nat → timestamp e ≤ 10000000000000000 →
  ks !! (assigned_index e t h (length ks) - 1)%nat ≠ Some k →
  match time_trigger t with
  | Some start =>
      start ≤ 200000000000000 →
      (perform_round_robin_check e t h k w = Ok ((), w) ↔ start + 30000 ≤ timestamp e * 1000)
  | None => perform_round_robin_check e t h k w = Err "Task assigned to another keeper"
  end.
Proof.
  intros Hl Hn Ht Hk. destruct (round_robin_run e t h k ks w Hl Hn) as (a & Ha & ->).
  assert (Hne : k ≠ a) by congruence.
  rewrite (u64_mul_small (timestamp e)) by (unfold u64_mod; lia).
  unfold time_trigger, ripe_time_ms. destruct (t_trigger t).
  1,2: intros Hs; rewrite u64_add_small by (unfold u64_mod; lia); case_decide; naive_solver.
  all: rewrite (u64_mul_small (timestamp e)) by (unfold u64_mod; lia).
  all: rewrite u64_add_small by (unfold u64_mod; lia).
  all: rewrite decide_False by (intros [?|?]; [done|lia]); done.
Qed.

(** ** Ripeness and gas *)

Lemma get_timestamp_ms_seconds e : timestamp e ≤ 100000000000 → get_timestamp_ms e = timestamp e * 1000.
Proof.
  intros Ht. unfold get_timestamp_ms. rewrite decide_False by lia.
  apply u64_mul_small. unfold u64_mod. lia.
Qed.

Lemma u64_add4_small a b c d :
  a + b + c + d < u64_mod → u64_add (u64_add (u64_add a b) c) d = a + b + c + d.
Proof.
  intros Hs. rewrite (u64_add_small a b), (u64_add_small (a + b)), (u64_add_small (a + b + c)); lia.
Qed.

(** The arithmetic of an accepted task never overflows.  For a payload
    that passed the validation at scheduling, with a time trigger and block
    times in seconds, the ripeness check decides exactly the integer
    conditions (not past [created_at + ttl], not before the trigger time), and
    the gas required is the exact sum of the task's gas, the cross-shard
    overhead, the callback reserve and 10M. *)
Theorem accepted_task_arithmetic e t d w w0 start :
  validate_task_parameters t d w0 = Ok ((), w0) → time_trigger t = Some start →
  timestamp e ≤ 100000000000 →
  require_task_ripe_quantum e t w =
    (if decide (0 < t_ttl_seconds t ∧ t_created_at t + t_ttl_seconds t * 1000 < timestamp e * 1000)
     then Err "Task expired (TTL exceeded)"
     else if decide (start ≤ timestamp e * 1000) then Ok ((), w) else Err "Task not yet ripe") ∧
  ∀ cross same, min_gas_needed (t_max_gas t) cross same =
    t_max_gas t + (if cross then t_max_gas t * (if same then 15 else 30) / 100 else 0) +
    (if cross then 25000000 else 20000000) + 10000000 ∧
    min_gas_needed (t_max_gas t) cross same ≤ 555000000.
Proof.
  intros Hval Hstart Ht. pose proof (validate_inv t d w0) as Hv.
  apply (wp_ok _ _ _ _ _ _ Hv) in Hval as (_ & _ & Hlo & Hhi & Httl & Hcr & _). split.
  - unfold require_task_ripe_quantum. rewrite get_timestamp_ms_seconds by done.
    rewrite (u64_mul_small (t_ttl_seconds t)) by (unfold u64_mod; lia).
    rewrite u64_add_small by (unfold u64_mod; lia).
    unfold time_trigger, require, mbind, M_bind, mret, M_ret, throw in *.
    destruct (t_trigger t); simplify_eq; repeat case_decide; try done; lia.
  - intros cross same.
    assert (Hdiv : ∀ p, p ≤ 30 → t_max_gas t * p / 100 ≤ 120000000).
    { intros p Hp. apply N.Div0.div_le_upper_bound. nia. }
    assert (Hgas : min_gas_needed (t_max_gas t) cross same =
      t_max_gas t + (if cross then t_max_gas t * (if same then 15 else 30) / 100 else 0) +
      (if cross then 25000000 else 20000000) + 10000000).
    { unfold min_gas_needed, cross_shard_overhead, callback_gas.
      change (CALLBACK_GAS_RESERVE * 80 / 100) with 20000000. change CALLBACK_GAS_RESERVE with 25000000.
      pose proof (Hdiv 15). pose proof (Hdiv 30).
      destruct cross, same; simpl; rewrite ?u64_mul_small by (unfold u64_mod; lia);
        apply u64_add4_small; unfold u64_mod; lia. }
    split; [exact Hgas|]. rewrite Hgas. pose proof (Hdiv 15). pose proof (Hdiv 30).
    destruct cross, same; lia.
Qed.

(** ** The keeper list *)

(** The scan, from index [i], of a list without holes that still contains the keeper. *)
Lemma remove_scan_runs k ks len : ∀ n i w,
  len = length ks → keeper_list (st w) = map Some ks → (1 ≤ i)%nat → (i + n = S len)%nat →
  (∃ j, i ≤ j ∧ j ≤ len ∧ ks !! (j - 1) = Some k)%nat →
  wp (remove_scan k len n i) (λ _ w', length (keeper_list (st w')) = len ∧
    keeper_list (st w') !! (len - 1)%nat = Some None) no_error w.
Proof.
  induction n as [|n IH]; intros i w -> Hl Hi Hn (j & Hij & Hj & Hk); [lia|]. cbn [remove_scan].
  destruct (lookup_lt_is_Some_2 ks (i - 1)) as [a Ha]; [lia|].
  destruct (lookup_lt_is_Some_2 ks (length ks - 1)) as [b Hb]; [lia|].
  apply wp_bind, (keeper_list_get_some _ a); [done|by rewrite Hl, list_lookup_fmap, Ha|]. wp_go.
  - apply (keeper_list_get_some _ b); [lia|by rewrite Hl, list_lookup_fmap, Hb|]. wp_go. simpl.
    rewrite Hl, !length_insert, length_map. split; [done|].
    apply list_lookup_insert_eq. rewrite length_insert, length_map. lia.
  - simpl. rewrite Hl, length_insert, length_map. split; [done|].
    apply list_lookup_insert_eq. rewrite length_map. lia.
  - apply IH; [done|done|lia|lia|]. exists j. split_and!; [|lia|done].
    destruct (decide (i = j)) as [->|]; [congruence|lia].
Qed.

Lemma collect_keepers_S n i :
  collect_keepers (S n) i = (k ← keeper_list_get i; ks ← collect_keepers n (S i); mret (k :: ks)).
Proof. done. Qed.

(** Listing the keepers stops at the first hole. *)
Lemma collect_hole n i w :
  (1 ≤ i)%nat → keeper_list (st w) !! (i + n - 1)%nat = Some None →
  (i + n = length (keeper_list (st w)))%nat →
  wp (collect_keepers (S n) i) (λ _ _, False) (eq "storage decode error"%string) w.
Proof.
  revert i. induction n as [|n IH]; intros i Hi Hhole Hlen.
  - cbn [collect_keepers]. apply wp_bind. unfold keeper_list_get. destruct i as [|j]; [lia|].
    replace (S j + 0 - 1)%nat with j in Hhole by lia. wp_go. rewrite Hhole.
    wp_go; rewrite strict_address in *; naive_solver.
  - rewrite collect_keepers_S. apply wp_bind.
    destruct (lookup_lt_is_Some_2 (keeper_list (st w)) (i - 1)) as [c Hc]; [lia|].
    unfold keeper_list_get. destruct i as [|j]; [lia|].
    replace (S j - 1)%nat with j in Hc by lia. apply wp_bind, wp_get_st. rewrite Hc.
    apply wp_sv_get; [intros a _|done]. apply wp_bind.
    eapply wp_mono; [apply IH; [lia|by replace (S (S j) + n - 1)%nat with (S j + S n - 1)%nat by lia|lia]|done].
Qed.

(** Removing a keeper leaves a hole.  The owner's removal of a listed
    keeper goes through, but [clear_entry] does not shrink the list: its length
    is unchanged and its last cell is empty, so [getKeeperList] fails from then
    on, and so does the round-robin check of every task assigned to that cell,
    for every keeper. *)
Theorem removal_leaves_hole e k ks w :
  no_payment e → caller e = owner_address e → keeper_list (st w) = map Some ks →
  (length ks ≤ 50)%nat → k ∈ ks →
  ∃ w', invoke e (remove_whitelisted_keeper e k) w = Ok ((), w') ∧
    length (keeper_list (st w')) = length ks ∧ last (keeper_list (st w')) = Some None ∧
    get_keeper_list w' = Err "storage decode error" ∧
    ∀ e' t h k', (1 < length ks)%nat → assigned_index e' t h (length ks) = length ks →
      perform_round_robin_check e' t h k' w' = Err "storage decode error".
Proof.
  intros [Hv Hesdt] Hown Hl Hlen Hk. apply list_elem_of_lookup_1 in Hk as [j Hj].
  pose proof (lookup_lt_Some _ _ _ Hj) as Hjl.
  destruct (wp_runs (invoke e (remove_whitelisted_keeper e k))
    (λ w', length (keeper_list (st w')) = length ks ∧
           keeper_list (st w') !! (length ks - 1)%nat = Some None) w) as (w' & Hrun & Hlen' & Hhole).
  { apply wp_invoke. unfold remove_whitelisted_keeper. wp_go; try tauto;
      cbn [st] in *; rewrite ?st_credit in *; simpl in *; rewrite ?st_credit, ?Hl, ?length_map in *; [|lia].
    apply (remove_scan_runs k ks); simpl; rewrite ?st_credit; try done; try lia.
    exists (S j). split_and!; [lia|lia|]. by replace (S j - 1)%nat with j by lia. }
  exists w'. split_and!; [done|done| | |].
  - rewrite last_lookup, Hlen'. by replace (Nat.pred (length ks)) with (length ks - 1)%nat by lia.
  - apply wp_fails. unfold get_keeper_list. wp_go. rewrite Hlen'.
    replace (length ks) with (S (length ks - 1)) at 1 by lia. apply collect_hole; [done| |lia].
    by replace (1 + (length ks - 1) - 1)%nat with (length ks - 1)%nat by lia.
  - intros e' t h k' Hn Hidx. apply wp_fails. unfold perform_round_robin_check.
    wp_go; rewrite Hlen' in *; [|lia]. rewrite Hidx. unfold keeper_list_get.
    destruct (length ks) as [|m] eqn:Hm; [lia|]. replace (S m - 1)%nat with m in Hhole by lia.
    wp_go. rewrite Hhole. wp_go; rewrite strict_address in *; naive_solver.
Qed.

(** ** Sovereign tasks *)

Lemma off_seal_pending h w :
  (∀ t, quantum_seal t ≠ h) → scheduler_reachable w →
  ∀ q, quantum_tasks (st w) !! h = Some q → q_status q = Pending.
Proof.
  intros Hseal Hr. induction Hr as [w Hd|w e c w' Hr IH [Hnr _] Hi|w b _ IH Hb]; [|..|exact IH].
  - destruct Hd as (e & r & rw & d & f & w0 & Hst & Hi). revert Hi.
    apply (wp_ok _ (λ _ w', ∀ q, quantum_tasks (st w') !! h = Some q → q_status q = Pending) any_error).
    unfold init. wp_go. simpl. rewrite Hst. done.
  - destruct (board_invoke e c w w' Hnr Hi) as [Hm _].
    change (∀ q, live (board_of (st w)) !! h = Some q → q_status q = Pending) in IH.
    change (∀ q, live (board_of (st w')) !! h = Some q → q_status q = Pending).
    destruct Hm; [exact IH|..]; intros q'; simpl.
    1,2: rewrite lookup_insert_Some; intros [[_ <-]|[_ Hq]]; [done|by apply IH].
    1,6: rewrite lookup_insert_ne by apply Hseal; apply IH.
    all: rewrite lookup_delete_Some; intros [_ Hq]; by apply IH.
Qed.

(** Sovereign tasks are never executed.  Their hash is not the seal of a
    task payload, and a live task is only ever started by a payload sealed to
    its hash: in every reachable state such a task is still Pending, so
    [settleXseTask] and [rescueStuckXseTask] fail for it whoever calls, and
    only a cancellation or a stray callback can close it. *)
Theorem sovereign_never_settled h w :
  (∀ t, quantum_seal t ≠ h) → scheduler_reachable w →
  (∀ q, quantum_tasks (st w) !! h = Some q → q_status q = Pending) ∧
  ∀ e proof, is_ok (invoke e (settle_xse_task e h proof) w) = false ∧
    is_ok (invoke e (rescue_stuck_xse_task e h) w) = false.
Proof.
  intros Hseal Hr. pose proof (off_seal_pending h w Hseal Hr) as Hp. split; [exact Hp|].
  intros e proof. split.
  - destruct (wp_only_err (invoke e (settle_xse_task e h proof)) any_error w) as (msg & -> & _); [|done].
    apply wp_invoke. unfold settle_xse_task. wp_go. apply wp_require_not_paused; [intros _|done].
    unfold require_registered_keeper, get_assigned_enclave_keeper. wp_go; try done.
    all: apply wp_get_quantum_task; [|done]; intros q Hq; rewrite st_credit in Hq.
    all: apply wp_bind, wp_require; [intros Hx|done]; specialize (Hp q Hq); congruence.
  - destruct (wp_only_err (invoke e (rescue_stuck_xse_task e h)) any_error w) as (msg & -> & _); [|done].
    apply wp_invoke. unfold rescue_stuck_xse_task. wp_go. apply wp_require_not_paused; [intros _|done]. wp_go.
    apply wp_get_quantum_task; [|done]. intros q Hq. rewrite st_credit in Hq.
    apply wp_bind, wp_require; [intros Hx|done]. specialize (Hp q Hq). congruence.
Qed.
End properties.

(** ** Concrete runs

    Deployed by 7 with a 10% fee and a minimum deposit of 10; keeper 5
    whitelisted; user 3 schedules the task [task_a]. *)

#[local] Existing Instance sample_sdk.
#[local] Existing Instance sample_strict.

Definition init_env : env K := sample_env 7 7 9 0 0.
Definition fresh : world K := World empty_state (λ _, 0) [].
Definition sample_deployed : world K :=
  match init init_env 1 2 10 1000 fresh with Ok (_, w) => w | Err _ => fresh end.
Definition sample_task (id owner deposit : N) : Task :=
  MkTask id owner 50 (string_bytes "ping") [] (TimeOnce 1000) 10000000 deposit 0 0 0 0 Pending None 0 None
    false false.
Definition task_a : Task := sample_task 1 3 1000.
Definition schedule_env : env K := sample_env 3 7 9 1 1000.
Definition keeper_env : env K := sample_env 5 7 9 2 0.

Definition setup : list (env K * call) :=
  [(init_env, AddWhitelistedKeeper 5); (init_env, SetXscAddress 60)].
Definition scheduled_run : list (env K * call) := setup ++ [(schedule_env, ScheduleQuantumTask task_a None)].
Definition executed_run : list (env K * call) := scheduled_run ++ [(keeper_env, ExecuteQuantumTask task_a None)].

Definition run_from (cs : list (env K * call)) : world K :=
  match run dispatch cs sample_deployed with Ok w => w | Err _ => sample_deployed end.

Lemma scheduler_is_deployed : deployed sample_deployed.
Proof. by exists init_env, 1, 2, 10, 1000, fresh. Defined.

Lemma scheduler_run_ok cs : is_ok (run dispatch cs sample_deployed) = true →
  run dispatch cs sample_deployed = Ok (run_from cs).
Proof. unfold run_from. by destruct (run dispatch cs sample_deployed). Defined.

Lemma sample_uncompressed cs :
  Forall (λ ec : env K * call, ∀ w : world K, uncompressed ec.1 ec.2 w) cs →
  is_ok (run dispatch cs sample_deployed) = true → uncompressed_reachable (run_from cs).
Proof.
  intros Hall Hok. apply (run_reachable _ _ _ cs sample_deployed);
    [apply reach_deployed, scheduler_is_deployed|done|by apply scheduler_run_ok].
Defined.

Lemma sample_regular cs :
  Forall (λ ec : env K * call, ∀ w : world K, regular ec.1 ec.2 w) cs →
  is_ok (run dispatch cs sample_deployed) = true → scheduler_reachable (run_from cs).
Proof.
  intros Hall Hok. apply (run_reachable _ _ _ cs sample_deployed);
    [apply reach_deployed, scheduler_is_deployed|done|by apply scheduler_run_ok].
Defined.

Ltac allowed_run :=
  unfold executed_run, scheduled_run, setup; cbn [app];
  repeat first [apply Forall_nil_2|apply Forall_cons_2]; intros ?; cbn [fst snd];
  repeat first [exact I|apply sample_env_no_reentrancy|split].
Ltac run_ok := vm_compute; reflexivity.

Lemma executed_uncompressed : uncompressed_reachable (run_from executed_run).
Proof. apply sample_uncompressed; [allowed_run|run_ok]. Defined.

Lemma scheduler_solvent_witness :
  owed (st (run_from executed_run)) = 1000 ∧
  msum q_deposit (quantum_tasks (st (run_from executed_run))) +
  msum unspent (clone_key_props (st (run_from executed_run))) +
  accrued_protocol_fees (st (run_from executed_run)) + msum intent_due (intent_by_id (st (run_from executed_run))) +
  msum multi_intent_due (multi_intent_by_id (st (run_from executed_run))) +
  msum pre_cognitive_due (pre_cognitive_intent_by_id (st (run_from executed_run)))
    ≤ bal (run_from executed_run) Egld.
Proof. split; [run_ok|]. apply (scheduler_solvent (run_from executed_run)), executed_uncompressed. Defined.

Definition executed_after_schedule : result (unit * world K) :=
  invoke keeper_env (dispatch keeper_env (ExecuteQuantumTask task_a None)) (run_from scheduled_run).

Lemma task_lifecycle_witness :
  ∃ w', executed_after_schedule = Ok ((), w') ∧
    move keeper_env (ExecuteQuantumTask task_a None) (st (run_from scheduled_run)) (board_of (st w')).
Proof.
  assert (Hok : is_ok executed_after_schedule = true) by run_ok.
  destruct executed_after_schedule as [[[] w']|] eqn:Hrun; [|discriminate Hok].
  exists w'. split; [reflexivity|].
  apply (task_lifecycle keeper_env (ExecuteQuantumTask task_a None) (run_from scheduled_run) w').
  - apply sample_env_no_reentrancy.
  - exact Hrun.
Defined.

Lemma callback_settles_once_witness :
  ∃ w', invoke keeper_env (execution_callback (execution_closure (quantum_seal task_a) 50 5) true)
          (run_from executed_run) = Ok ((), w') ∧
    bal w' Egld + 900 = 1000.
Proof.
  destruct (callback_settles_once keeper_env (quantum_seal task_a) 50 5 true
    (MkQuantumTaskState 3 1000 Executing 2) (run_from executed_run)) as (w' & Hrun & _ & _ & Hb & _).
  - apply executed_uncompressed.
  - vm_compute. reflexivity.
  - exists w'. split; [exact Hrun|].
    assert (Hbal : bal (run_from executed_run) Egld = 1000) by run_ok.
    assert (Hpaid : reward_of (st (run_from executed_run)) 1000 + refund_of (st (run_from executed_run)) 1000 = 900)
      by run_ok.
    cbn [q_deposit egld_value keeper_env sample_env] in Hb. lia.
Defined.

Lemma schedule_then_cancel_witness :
  ∃ w1 w2, invoke schedule_env (schedule_quantum_task schedule_env task_a None) (run_from setup)
             = Ok (quantum_seal task_a, w1) ∧
    invoke (sample_env 3 7 9 2 0) (cancel_quantum_task (sample_env 3 7 9 2 0) (quantum_seal task_a)) w1
             = Ok ((), w2) ∧
    bal w2 Egld = 100.
Proof.
  destruct (schedule_then_cancel schedule_env (sample_env 3 7 9 2 0) task_a (run_from setup))
    as (w1 & w2 & Hrun1 & _ & Hrun2 & _ & _ & _ & Hb).
  - apply sample_uncompressed; [allowed_run|run_ok].
  - split; [split; [apply sample_env_no_reentrancy|exact I]|reflexivity].
  - reflexivity.
  - reflexivity.
  - by split.
  - reflexivity.
  - reflexivity.
  - reflexivity.
  - by vm_compute.
  - split; [vm_compute; lia|by vm_compute].
  - reflexivity.
  - exists w1, w2. split; [exact Hrun1|]. split; [exact Hrun2|]. rewrite Hb. run_ok.
Defined.

(** User 3 authorizes the clone key 33 with a budget of 500, for two hours. *)
Definition clone_run : list (env K * call) := setup ++ [(sample_env 3 7 9 1 500, AuthorizeCloneKey 33 7200)].

Lemma clone_key_budget_witness :
  ∃ w', invoke (sample_env 3 7 9 2 0) (revoke_clone_key (sample_env 3 7 9 2 0) 33) (run_from clone_run)
          = Ok ((), w') ∧ bal w' Egld + 500 = 500.
Proof.
  destruct (clone_key_budget (sample_env 3 7 9 2 0) 33 (MkCloneKeyProperties 3 500 0 7201) (run_from clone_run))
    as (_ & _ & _ & Hrevoke).
  - apply sample_regular; [unfold clone_run; allowed_run|run_ok].
  - vm_compute. reflexivity.
  - destruct Hrevoke as (w' & Hrun & Hb & _); [by split|reflexivity|by vm_compute|].
    exists w'. split; [exact Hrun|]. cbn [c_spend_limit c_spent_amount] in Hb.
    assert (Hbal : bal (run_from clone_run) Egld = 500) by run_ok. lia.
Defined.

(** Two more keepers. *)
Definition keepers_run : list (env K * call) :=
  setup ++ [(init_env, AddWhitelistedKeeper 6); (init_env, AddWhitelistedKeeper 8)].
Definition sample_keepers : list address := [5; 6; 8].

Lemma round_robin_assigns_witness :
  ∃ assigned, assigned ∈ sample_keepers ∧
    perform_round_robin_check keeper_env task_a [1; 2] assigned (run_from keepers_run) = Ok ((), run_from keepers_run).
Proof.
  destruct (round_robin_assigns keeper_env task_a [1; 2] sample_keepers (run_from keepers_run))
    as (a & Ha & _ & Hrun).
  - vm_compute. reflexivity.
  - simpl; lia.
  - exists a. split; [exact Ha|]. rewrite Hrun. by rewrite decide_True by by left.
Defined.

Definition event_task : Task :=
  MkTask 2 3 50 (string_bytes "ping") [] (EventDriven 60 [1]) 10000000 1000 0 0 0 0 Pending None 0 None false false.

Lemma round_robin_window_witness :
  ∃ k, perform_round_robin_check keeper_env event_task [1; 2] k (run_from keepers_run)
         = Err "Task assigned to another keeper".
Proof.
  exists 99. apply (round_robin_window keeper_env event_task [1; 2] 99 sample_keepers (run_from keepers_run)).
  - vm_compute. reflexivity.
  - simpl; lia.
  - simpl; lia.
  - intros Hk%list_elem_of_lookup_2. unfold sample_keepers in Hk. set_solver.
Defined.

Lemma removal_leaves_hole_witness :
  ∃ w', invoke init_env (remove_whitelisted_keeper init_env 6) (run_from keepers_run) = Ok ((), w') ∧
    get_keeper_list w' = Err "storage decode error".
Proof.
  destruct (removal_leaves_hole init_env 6 sample_keepers (run_from keepers_run))
    as (w' & Hrun & _ & _ & Hlist & _).
  - by split.
  - reflexivity.
  - vm_compute. reflexivity.
  - simpl; lia.
  - unfold sample_keepers. set_solver.
  - by exists w'.
Defined.

Lemma accepted_task_arithmetic_witness :
  require_task_ripe_quantum keeper_env task_a fresh = Ok ((), fresh) ∧
  min_gas_needed (t_max_gas task_a) true false = 48000000.
Proof.
  destruct (accepted_task_arithmetic keeper_env task_a 1000 fresh fresh 1000)
    as [Hrun Hgas].
  - reflexivity.
  - reflexivity.
  - simpl; lia.
  - split; [rewrite Hrun; reflexivity|]. destruct (Hgas true false) as [-> _]. reflexivity.
Defined.

(** ** Compressed tasks

    Attacker 8 presents a payload that claims a deposit of 1000; the core
    contract 60 vouches for its leaf. *)

Definition compressed_task : Task := sample_task 2 8 1000.
Definition vouched_env : env K :=
  Env 5 7 9 2 2000 0 0 [] 1000000000 0 [] (λ _ _ _ _ w, Some ([[1]], w)).
Definition compressed_callback : call :=
  ExecutionCallback (execution_closure (quantum_seal compressed_task) 50 5) false.

Lemma vouched_no_reentrancy : no_reentrancy vouched_env.
Proof. apply silent_no_reentrancy. intros to ep args v w r w' Hs. by simplify_eq/=. Qed.

Definition cancel_a (w : world K) : result (unit * world K) :=
  invoke (sample_env 3 7 9 3 0) (cancel_quantum_task (sample_env 3 7 9 3 0) (quantum_seal task_a)) w.
Definition execute_again (w : world K) : result (unit * world K) :=
  invoke vouched_env (execute_compressed_task vouched_env compressed_task []) w.

Definition before_attack : world K := run_from scheduled_run.
Definition after_execution : world K := next dispatch vouched_env (ExecuteCompressedTask compressed_task []) before_attack.
Definition after_callback : world K := next dispatch keeper_env compressed_callback after_execution.

Lemma compressed_registered :
  registered after_execution (execution_closure (quantum_seal compressed_task) 50 5).
Proof.
  exists 50, (string_bytes "ping"), [], 0, 10000000, 20000000.
  apply (list_elem_of_lookup_2 _ 1%nat). vm_compute. reflexivity.
Qed.

(** A compressed task pays out a deposit nobody made.  There is a reachable
    state in which user 3's deposit is the contract's only EGLD and is covered;
    a keeper executes a compressed task whose payload claims a deposit of 1000
    for its owner 8, the target call fails, and the contract, still in a
    reachable state, has sent owner 8 a refund of 900, owes more than it holds,
    cannot pay user 3's cancellation, and accepts the same compressed task
    again. *)
Theorem compressed_tasks_drain :
  ∃ w w1 w2,
    scheduler_reachable w ∧ owed (st w) ≤ bal w Egld ∧
    invoke vouched_env (execute_compressed_task vouched_env compressed_task []) w = Ok ((), w1) ∧
    invoke keeper_env (dispatch keeper_env compressed_callback) w1 = Ok ((), w2) ∧
    scheduler_reachable w2 ∧ Send 8 Egld 900 ∈ log w2 ∧ bal w2 Egld < owed (st w2) ∧
    cancel_a w2 = Err "failed transfer (insufficient funds)" ∧ is_ok (execute_again w2) = true.
Proof.
  assert (Hr : scheduler_reachable before_attack) by (apply sample_regular; [allowed_run|run_ok]).
  assert (Hok1 : is_ok (invoke vouched_env (dispatch vouched_env (ExecuteCompressedTask compressed_task []))
    before_attack) = true) by run_ok.
  assert (Hok2 : is_ok (invoke keeper_env (dispatch keeper_env compressed_callback) after_execution) = true)
    by run_ok.
  assert (Hr1 : scheduler_reachable after_execution).
  { apply next_reachable; [exact Hr|split; [apply vouched_no_reentrancy|exact I]|exact Hok1]. }
  exists before_attack, after_execution, after_callback. split_and!.
  - exact Hr.
  - by vm_compute.
  - exact (next_ok _ _ _ _ Hok1).
  - exact (next_ok _ _ _ _ Hok2).
  - apply next_reachable; [exact Hr1| |exact Hok2].
    split; [apply sample_env_no_reentrancy|apply compressed_registered].
  - apply (list_elem_of_lookup_2 _ 2%nat). vm_compute. reflexivity.
  - by vm_compute.
  - assert (Hc : match cancel_a after_callback with
                 | Err m => String.eqb m "failed transfer (insufficient funds)"
                 | Ok _ => false end = true) by run_ok.
    destruct (cancel_a after_callback); [discriminate Hc|]. f_equal. by apply String.eqb_eq.
  - run_ok.
Qed.

(** ** An oracle that calls back

    Contract 8 schedules a task of which it is itself the oracle.  Asked for
    its value while a keeper starts the task, it cancels the task and answers. *)

Definition oracle_task : Task :=
  MkTask 3 8 50 (string_bytes "ping") [] (StateDriven 8 (string_bytes "value") [] Gte 1)
    10000000 1000 0 0 0 0 Pending None 0 None false false.
Definition oracle_run : list (env K * call) :=
  scheduled_run ++ [(sample_env 8 7 9 1 1000, ScheduleQuantumTask oracle_task None)].
Definition oracle_cancels (w : world K) : result (unit * world K) :=
  invoke (sample_env 8 7 9 2 0) (dispatch (sample_env 8 7 9 2 0) (CancelQuantumTask (quantum_seal oracle_task))) w.
Definition reentrant_env : env K :=
  Env 5 7 9 2 2000 0 0 [] 1000000000 0 []
    (λ to _ _ _ w, if decide (to = 8)
                   then match oracle_cancels w with Ok (_, w') => Some ([[1]], w') | Err _ => None end
                   else Some ([], w)).
Definition oracle_callback : call :=
  ExecutionCallback (execution_closure (quantum_seal oracle_task) 50 5) false.

Definition before_reentry : world K := run_from oracle_run.
Definition after_reentry : world K := next dispatch reentrant_env (ExecuteQuantumTask oracle_task None) before_reentry.
Definition after_settlement : world K := next dispatch keeper_env oracle_callback after_reentry.

(** A re-entrant oracle takes another user's deposit.  No compressed task is
    involved: users 3 and 8 have a task of 1000 each, and the contract holds
    2000.  The keeper's execution asks the oracle 8, which cancels its own
    task and gets 900 back; [dispatch_task_execution] then writes the task it
    had read before back as Executing and registers its promise.  The contract
    holds 1100 and owes 2100; when the promise's target fails, 8 is refunded a
    second time and user 3 cannot cancel. *)
Theorem reentrant_oracle_drains :
  ∃ w w1 w2,
    uncompressed_reachable w ∧ owed (st w) = 2000 ∧ bal w Egld = 2000 ∧
    invoke reentrant_env (dispatch reentrant_env (ExecuteQuantumTask oracle_task None)) w = Ok ((), w1) ∧
    quantum_tasks (st w1) !! quantum_seal oracle_task = Some (MkQuantumTaskState 8 1000 Executing 2) ∧
    registered w1 (execution_closure (quantum_seal oracle_task) 50 5) ∧
    bal w1 Egld = 1100 ∧ owed (st w1) = 2100 ∧
    invoke keeper_env (dispatch keeper_env oracle_callback) w1 = Ok ((), w2) ∧
    bal w2 Egld = 200 ∧ cancel_a w2 = Err "failed transfer (insufficient funds)".
Proof.
  assert (Hr : uncompressed_reachable before_reentry)
    by (apply sample_uncompressed; [unfold oracle_run; allowed_run|run_ok]).
  assert (Hok1 : is_ok (invoke reentrant_env (dispatch reentrant_env (ExecuteQuantumTask oracle_task None))
    before_reentry) = true) by run_ok.
  assert (Hok2 : is_ok (invoke keeper_env (dispatch keeper_env oracle_callback) after_reentry) = true) by run_ok.
  exists before_reentry, after_reentry, after_settlement. split_and!.
  - exact Hr.
  - run_ok.
  - run_ok.
  - exact (next_ok _ _ _ _ Hok1).
  - run_ok.
  - exists 50, (string_bytes "ping"), [], 0, 10000000, 20000000.
    apply (list_elem_of_lookup_2 _ 4%nat). vm_compute. reflexivity.
  - run_ok.
  - run_ok.
  - exact (next_ok _ _ _ _ Hok2).
  - run_ok.
  - assert (Hc : match cancel_a after_settlement with
                 | Err m => String.eqb m "failed transfer (insufficient funds)"
                 | Ok _ => false end = true) by run_ok.
    destruct (cancel_a after_settlement); [discriminate Hc|]. f_equal. by apply String.eqb_eq.
Qed.

(** ** A sovereign task

    Scheduled by a user whose address has a nonzero ninth byte, so that the
    sample hash of its payload, unlike that of a task, starts with a nonzero
    byte. *)

Definition sovereign_user : address := 2 ^ 191.
Definition sovereign_run : list (env K * call) :=
  setup ++ [(sample_env sovereign_user 7 9 1 1000, ScheduleSovereignTask [1; 2; 3] None)].
Definition sovereign_task : hash := sovereign_hash [1; 2; 3] sovereign_user 1000.

Lemma sample_seal_head t : head (quantum_seal t) = Some 0.
Proof.
  unfold quantum_seal. apply (be_bytes_head 31). unfold be_val. cbn [fold_left].
  eapply N.lt_le_trans; [apply be_val_bound|].
  - apply Forall_app. split; apply be_bytes_bounded.
  - cbn [encode_task sample_sdk]. rewrite length_app, !be_bytes_length. by vm_compute.
Qed.

Lemma sovereign_never_settled_witness :
  is_ok (run dispatch sovereign_run sample_deployed) = true ∧
  bool_decide (quantum_tasks (st (run_from sovereign_run)) !! sovereign_task = None) = false ∧
  is_ok (invoke keeper_env (settle_xse_task keeper_env sovereign_task []) (run_from sovereign_run)) = false.
Proof.
  split; [run_ok|]. split; [run_ok|].
  destruct (sovereign_never_settled sovereign_task (run_from sovereign_run)) as [_ Hno].
  - intros t Ht. pose proof (sample_seal_head t) as Hhead. rewrite Ht in Hhead.
    assert (Hs : head sovereign_task = Some 128) by run_ok. rewrite Hs in Hhead. discriminate Hhead.
  - apply sample_regular; [unfold sovereign_run; allowed_run|run_ok].
  - apply (Hno keeper_env []).
Defined.
