(* ===== verification/IntentProps.v ===== *)
(** Properties of the Scheduler's intents, with their witnesses. *)

From S2P Require Import Prelude Sdk Types SchedulerState CloneKeys Scheduling Execution Settlement Intents Scheduler SchedulerAccounts TaskBoard SchedulerProps.

Implicit Types (e : env K) (w : world K) (s : State) (Q : unit → world K → Prop) (E : string → Prop).

(** The fee of an intent, when there is one. *)
Definition fee_effects (to : address) (fee : N) : list (effect K) :=
  if decide (0 < fee) then [Send to Egld fee] else [].

Section properties.
Context `{StrictSdk}.

Lemma wp_pay_fee_log to fee Q w :
  (∀ b, Q () (World (st w) b (log w ++ fee_effects to fee))) → wp (pay_fee to fee) Q any_error w.
Proof.
  intros HQ. unfold pay_fee, fee_effects in *. destruct (decide (0 < fee)); wp_go; [apply HQ|].
  destruct w as [s b l]. specialize (HQ b). by rewrite app_nil_r in HQ.
Qed.

(** Intents and multi-intents can never be created.  No endpoint writes the
    whitelist of payment tokens and deployment leaves it empty, so in every
    reachable state [createIntent] and [createMultiIntent] are refused,
    whatever the caller, the payment and the arguments. *)
Theorem intents_never_created w :
  scheduler_reachable w →
  (∀ e token_out min_return deadline fee,
     is_ok (invoke e (create_intent e token_out min_return deadline fee) w) = false) ∧
  (∀ e outcomes deadline fee,
     is_ok (invoke e (create_multi_intent e outcomes deadline fee) w) = false).
Proof.
  intros Hr. apply no_accepted_tokens in Hr. split.
  - intros e o m d f. destruct (wp_only_err (invoke e (create_intent e o m d f)) any_error w)
      as (msg & -> & _); [|done].
    apply wp_invoke. unfold create_intent. wp_go. apply wp_require_not_paused; [intros _|done]. wp_go.
    apply wp_single_transfer. intros p _. wp_go. rewrite st_credit, Hr in *. set_solver.
  - intros e o d f. destruct (wp_only_err (invoke e (create_multi_intent e o d f)) any_error w)
      as (msg & -> & _); [|done].
    apply wp_invoke. unfold create_multi_intent. wp_go. apply wp_require_not_paused; [intros _|done]. wp_go.
    apply wp_single_transfer. intros p _. wp_go. rewrite st_credit, Hr in *. set_solver.
Qed.

(** What a successful leaf execution has checked and done. *)
Definition leaf_settled e id proof leaf (token_out : token_id) min_return w w' : Prop :=
  ∃ i p, pre_cognitive_intent_by_id (st w) !! id = Some i ∧ esdt_transfers e = [p] ∧
    pc_status i = PcPending ∧ timestamp e ≤ pc_deadline i ∧ caller e ∈ whitelisted_keepers (st w) ∧
    foldl merkle_step (sha256 leaf) proof = pc_merkle_root i ∧
    token_identifier p = token_out ∧ token_nonce p = 0 ∧ min_return ≤ amount p ∧
    st w' = ((st w : State) <| pre_cognitive_intent_by_id ::=
      <[id := i <| pc_status := PcExecuted |> <| pc_executed_by := Some (caller e) |>]> |>) ∧
    log w' = log w ++ [Send (pc_owner i) (Esdt token_out 0) (amount p);
                       Send (caller e) (Esdt (pc_token_in i) 0) (pc_amount_in i)] ++
             fee_effects (caller e) (pc_keeper_fee i).

Lemma wp_direct_esdt_log to tk n amt Q w :
  (∀ b, Q () (World (st w) b (log w ++ [Send to (Esdt tk n) amt]))) →
  wp (direct_esdt to tk n amt) Q any_error w.
Proof. intros HQ. wp_go. apply HQ. Qed.

Lemma leaf_runs e id proof tc te ta eo m w :
  wp (invoke e (execute_pre_cognitive_leaf e id proof tc te ta eo m))
    (λ _ w', leaf_settled e id proof (encode_leaf tc te ta eo m) eo m w w') any_error w.
Proof.
  apply wp_invoke. unfold execute_pre_cognitive_leaf, require_registered_keeper. wp_go.
  apply wp_get_pre_cognitive; [|done]. intros i Hi. wp_go.
  apply wp_single_fungible. intros p Hp Hn.
  apply wp_bind, wp_require; [intros Htok|done]. apply wp_bind, wp_require; [intros Hmin|done].
  unfold set_pre_cognitive. apply wp_bind, wp_modify, wp_bind, wp_direct_esdt_log. intros b1.
  apply wp_bind, wp_direct_esdt_log. intros b2. apply wp_pay_fee_log. intros b3.
  cbn [st bal log]. exists i, p. unfold verify_merkle_proof in *.
  split_and!; rewrite ?st_credit in *; try done.
  - match goal with Hd : bool_decide _ = true |- _ => exact (bool_decide_eq_true_1 _ Hd) end.
  - simpl. rewrite log_credit, <-!app_assoc. simpl. by rewrite Htok.
Qed.

(** C22: a pre-cognitive leaf is executed at most once, and only as signed.  If
    [executePreCognitiveLeaf] succeeds, the intent was pending and within its
    deadline, the caller a whitelisted keeper, the Merkle chain of the leaf
    ended in the stored root, and the single fungible payment was of the
    expected token and at least the minimum; it is passed on to the owner in
    full, the keeper gets the deposit and the fee, nothing else changes, and
    afterwards neither a leaf of this intent nor its cancellation succeeds. *)
Theorem leaf_executed_once e id proof tc te ta eo m w w' :
  invoke e (execute_pre_cognitive_leaf e id proof tc te ta eo m) w = Ok ((), w') →
  leaf_settled e id proof (encode_leaf tc te ta eo m) eo m w w' ∧
  ∀ e', is_ok (invoke e' (cancel_pre_cognitive_intent e' id) w') = false ∧
    ∀ proof' tc' te' ta' eo' m',
      is_ok (invoke e' (execute_pre_cognitive_leaf e' id proof' tc' te' ta' eo' m') w') = false.
Proof.
  intros Hrun. pose proof (leaf_runs e id proof tc te ta eo m w) as Hwp.
  apply (wp_ok _ _ _ _ _ _ Hwp) in Hrun. split; [exact Hrun|].
  destruct Hrun as (i & p & _ & _ & _ & _ & _ & _ & _ & _ & _ & Hst & _).
  assert (Hi : pre_cognitive_intent_by_id (st w') !! id =
    Some (i <| pc_status := PcExecuted |> <| pc_executed_by := Some (caller e) |>)).
  { rewrite Hst. apply lookup_insert_eq. }
  intros e'. split; [|intros proof' tc' te' ta' eo' m'].
  - destruct (wp_only_err (invoke e' (cancel_pre_cognitive_intent e' id)) any_error w') as (msg & -> & _);
      [|done].
    apply wp_invoke. unfold cancel_pre_cognitive_intent. wp_go.
    apply wp_get_pre_cognitive; [|done]. rewrite st_credit, Hi. intros x [= <-]. wp_go. done.
  - destruct (wp_only_err (invoke e' (execute_pre_cognitive_leaf e' id proof' tc' te' ta' eo' m'))
      any_error w') as (msg & -> & _); [|done].
    apply wp_invoke. unfold execute_pre_cognitive_leaf, require_registered_keeper. wp_go.
    apply wp_get_pre_cognitive; [|done]. rewrite st_credit, Hi. intros x [= <-]. wp_go. done.
Qed.
End properties.

(** ** Witnesses *)

#[local] Existing Instance sample_sdk.
#[local] Existing Instance sample_strict.

(** [from] pays [value] EGLD and [amt] of a fungible token. *)
Definition esdt_env (from t value : N) (tk : token_id) (amt : N) : env K :=
  Env from 7 9 t (t * 1000) 0 0 [] 1000000000 value [Payment tk 0 amt] (λ _ _ _ _ w, Some ([], w)).

Definition intent_env : env K := esdt_env 3 1 7 "USDC-c76f1f" 100.
Definition owner_env : env K := sample_env 3 7 9 3 0.
Definition leaf_env : env K := esdt_env 5 2 0 "WEGLD-bd4d79" 50.
Definition sample_leaf : bytes := encode_leaf 60 (string_bytes "swap") [] "WEGLD-bd4d79" 40.
Definition sample_intent_run : list (env K * call) :=
  setup ++ [(intent_env, CreatePreCognitiveIntent (sha256 sample_leaf) 1000 7)].

Lemma intents_never_created_witness :
  is_ok (invoke intent_env (create_intent intent_env "WEGLD-bd4d79" 40 1000 7) (run_from setup)) = false.
Proof.
  apply (intents_never_created (run_from setup)). apply sample_regular; [allowed_run|run_ok].
Defined.

Definition sample_execution : result (unit * world K) :=
  invoke leaf_env (execute_pre_cognitive_leaf leaf_env 1 [] 60 (string_bytes "swap") [] "WEGLD-bd4d79" 40)
    (run_from sample_intent_run).

Lemma leaf_executed_once_witness :
  ∃ w', sample_execution = Ok ((), w') ∧
    is_ok (invoke owner_env (cancel_pre_cognitive_intent owner_env 1) w') = false.
Proof.
  assert (Hok : is_ok sample_execution = true) by run_ok.
  destruct sample_execution as [[[] w']|] eqn:Hrun; [|discriminate Hok].
  exists w'. split; [reflexivity|].
  destruct (leaf_executed_once leaf_env 1 [] 60 (string_bytes "swap") [] "WEGLD-bd4d79" 40
    (run_from sample_intent_run) w' Hrun) as [_ Hno].
  apply (Hno owner_env).
Defined.
