(* ===== verification/MerkleProps.v ===== *)
(** Merkle proofs across the protocol: XscCore's verifier of packed proofs, the
    Scheduler's verifier of pre-cognitive leaves, the trees they accept, and
    the keeper's off-chain engine (pcit.rs). *)

From S2P Require Import Prelude Sdk Types XscCore Pcit SchedulerState Intents.

(** ** Trees

    A tree of payloads; a node hashes the ordered pair of its children behind
    the prefix of internal nodes. *)
Inductive tree : Type :=
| Leaf (payload : bytes)
| Node (l r : tree).

(** A payload that no internal node can be taken for. *)
Definition leaf_like (p : bytes) : Prop := head p ≠ Some node_prefix.

Section trees.
Context `{Sdk}.

Fixpoint root (t : tree) : hash :=
  match t with
  | Leaf p => sha256 p
  | Node l r => compute_parent_hash (root l) (root r)
  end.

Fixpoint leaves_ok (t : tree) : Prop :=
  match t with Leaf p => leaf_like p | Node l r => leaves_ok l ∧ leaves_ok r end.

(** [path t p s]: payload [p] sits in [t] with the siblings [s], bottom up. *)
Inductive path : tree → bytes → list hash → Prop :=
| path_leaf p : path (Leaf p) p []
| path_left l r p s : path l p s → path (Node l r) p (s ++ [root r])
| path_right l r p s : path r p s → path (Node l r) p (s ++ [root l]).

(** Everything hashed by a tree, and by a verifier on a payload and a proof. *)
Fixpoint tree_inputs (t : tree) : list bytes :=
  match t with
  | Leaf p => [p]
  | Node l r => parent_input (root l) (root r) :: tree_inputs l ++ tree_inputs r
  end.
Fixpoint chain_inputs (current : hash) (siblings : list hash) : list bytes :=
  match siblings with
  | [] => []
  | x :: l => parent_input current x :: chain_inputs (compute_parent_hash current x) l
  end.
Definition proof_inputs (p : bytes) (siblings : list hash) : list bytes :=
  p :: chain_inputs (sha256 p) siblings.

(** Two different inputs, one from each list, with the same hash. *)
Definition collide (xs ys : list bytes) : Prop :=
  ∃ x y, x ∈ xs ∧ y ∈ ys ∧ x ≠ y ∧ sha256 x = sha256 y.
End trees.

Section properties.
Context `{HashLaws}.

Lemma is_less_compare a b : is_less a b = match compare_arrays a b with Datatypes.Lt => true | _ => false end.
Proof.
  revert b. induction a as [|x a IH]; intros [|y b]; simpl; try done.
  destruct (x <? y), (y <? x); try done.
Qed.

(** The two contracts compute the same parent: they differ only in how they
    order equal children. *)
Lemma merkle_step_parent a b :
  length a = 32%nat → length b = 32%nat → merkle_step a b = compute_parent_hash a b.
Proof.
  intros Ha Hb. unfold merkle_step, compute_parent_hash, parent_input, buf_compare.
  rewrite !load32_id, is_less_compare by done.
  destruct (compare_arrays a b) eqn:Hc; try done.
  apply compare_arrays_eq in Hc as ->; [done|congruence].
Qed.

Lemma merkle_fold_parent leaf siblings :
  length leaf = 32%nat → siblings_ok siblings →
  foldl merkle_step leaf siblings = foldl compute_parent_hash leaf siblings.
Proof.
  intros Hl Hs. revert leaf Hl. induction Hs as [|x l Hx _ IH]; intros leaf Hl; simpl; [done|].
  rewrite merkle_step_parent by done. apply IH. apply sha256_length.
Qed.

(** The two on-chain verifiers agree.  For a 32-byte leaf and at most 32
    siblings of 32 bytes, XscCore's [verifyProof] on the packed buffer never
    fails when the contract is not paused, its loop ends, and its verdict is
    the one of the Scheduler's [verify_merkle_proof] on the list of siblings
    against the same root. *)
Theorem verifiers_agree leaf siblings (w : world XscCore.K) :
  is_paused_cell (st w) = false → length leaf = 32%nat → siblings_ok siblings →
  (length siblings ≤ 32)%nat →
  verify_proof leaf (concat siblings) w =
    Ok (verify_merkle_proof leaf siblings (XscCore.merkle_root (st w)), w).
Proof.
  intros Hp Hl Hs Hn.
  assert (Hwp : wp (verify_proof leaf (concat siblings)) (λ b w', w' = w ∧
    b = verify_merkle_proof leaf siblings (XscCore.merkle_root (st w))) no_error w).
  { apply wp_verify_proof; try done. unfold verify_merkle_proof. by rewrite merkle_fold_parent. }
  apply wp_total in Hwp as (b & w' & Hrun & -> & ->). exact Hrun.
Qed.

Lemma path_fold t p s : path t p s → foldl compute_parent_hash (sha256 p) s = root t.
Proof.
  induction 1 as [p|l r p s _ IH|l r p s _ IH]; simpl; [done| |]; rewrite foldl_snoc, IH; [done|].
  unfold compute_parent_hash. f_equal. apply parent_input_comm; destruct l, r; apply sha256_length.
Qed.

Lemma path_siblings t p s : path t p s → siblings_ok s.
Proof.
  induction 1 as [p|l r p s _ IH|l r p s _ IH]; [constructor| |]; apply Forall_app; split; try done;
    (constructor; [|constructor]); [destruct r|destruct l]; apply sha256_length.
Qed.

Lemma chain_inputs_app current l x :
  chain_inputs current (l ++ [x]) =
  chain_inputs current l ++ [parent_input (foldl compute_parent_hash current l) x].
Proof. revert current. induction l as [|y l IH]; intros current; simpl; [done|by rewrite IH]. Qed.

Lemma collide_mono xs xs' ys ys' :
  xs ⊆ xs' → ys ⊆ ys' → collide xs ys → collide xs' ys'.
Proof. intros Hx Hy (x & y & ? & ? & ?). exists x, y. split_and!; [by apply Hx|by apply Hy|tauto..]. Qed.

Lemma fold_sound t : ∀ p s,
  leaf_like p → leaves_ok t → siblings_ok s →
  foldl compute_parent_hash (sha256 p) s = root t →
  path t p s ∨ collide (proof_inputs p s) (tree_inputs t).
Proof.
  induction t as [q|l IHl r IHr]; intros p s Hp Ht Hs; destruct s as [|x s _] using rev_ind; intros Heq.
  - destruct (decide (p = q)) as [->|Hne]; [left; constructor|].
    right. exists p, q. simpl in *. split_and!; [set_solver|set_solver|done|done].
  - right. rewrite foldl_snoc in Heq. exists (parent_input (foldl compute_parent_hash (sha256 p) s) x), q.
    unfold proof_inputs. rewrite chain_inputs_app. simpl in *. split_and!; [set_solver|set_solver| |done].
    intros <-. by apply Ht.
  - right. exists p, (parent_input (root l) (root r)). simpl in *.
    split_and!; [set_solver|set_solver| |done]. intros ->. by apply Hp.
  - rewrite foldl_snoc in Heq. apply Forall_app in Hs as [Hs Hx]. inversion_clear Hx as [|? ? Hx' _].
    simpl in Ht, Heq. destruct Ht as [Hl Hr].
    set (c := foldl compute_parent_hash (sha256 p) s) in *.
    assert (Hsub : proof_inputs p s ⊆ proof_inputs p (s ++ [x])).
    { unfold proof_inputs. rewrite chain_inputs_app. set_solver. }
    destruct (decide (parent_input c x = parent_input (root l) (root r))) as [Hi|Hne].
    + assert (Hc : length c = 32%nat) by (apply parent_hash_fold_length; [done|apply sha256_length]).
      apply parent_input_inj in Hi as [[Hcl ->]|[Hcr ->]]; try done;
        try (by destruct l; apply sha256_length); try (by destruct r; apply sha256_length).
      * destruct (IHl p s) as [?|Hcol]; try done; [left; by constructor|right].
        eapply collide_mono, Hcol; [done|simpl; set_solver].
      * destruct (IHr p s) as [?|Hcol]; try done; [left; by constructor|right].
        eapply collide_mono, Hcol; [done|simpl; set_solver].
    + right. exists (parent_input c x), (parent_input (root l) (root r)).
      unfold proof_inputs. rewrite chain_inputs_app. simpl. split_and!; [set_solver|set_solver|done|done].
Qed.

(** C12: the Merkle verifier accepts exactly the paths of the tree.  A proof
    generated from a tree is accepted against its root; and any accepted proof
    of 32-byte siblings for a payload that cannot be an internal node is a path
    of the tree to that payload, unless the verifier and the tree exhibit two
    different inputs of SHA-256 with the same hash. *)
Theorem merkle_verifier_correct t p s :
  leaves_ok t → leaf_like p → siblings_ok s →
  (path t p s → verify_merkle_proof (sha256 p) s (root t) = true) ∧
  (verify_merkle_proof (sha256 p) s (root t) = true →
     path t p s ∨ collide (proof_inputs p s) (tree_inputs t)).
Proof.
  intros Ht Hp Hs. unfold verify_merkle_proof.
  rewrite merkle_fold_parent by (done || apply sha256_length). split.
  - intros Hpath. apply bool_decide_eq_true_2. by apply path_fold.
  - intros Hv%bool_decide_eq_true_1. by apply fold_sound.
Qed.

(** ** The off-chain engine *)

Lemma chain_root_app leaf l x :
  compute_chain_root leaf (l ++ [x]) = sha256 (chain_input (compute_chain_root leaf l) x).
Proof. unfold compute_chain_root. by rewrite foldl_snoc. Qed.

Lemma chain_root_length leaf l : length leaf = 32%nat → length (compute_chain_root leaf l) = 32%nat.
Proof.
  intros Hl. destruct l as [|x l _] using rev_ind; [done|]. rewrite chain_root_app. apply sha256_length.
Qed.

(** The keeper's off-chain root is not the one the contract checks.
    [compute_chain_root] hashes the bare pair of nodes while the contract
    prefixes it with 0x01, so a proof of at least one sibling built for the
    engine's root is accepted on chain only if a 65-byte and a 64-byte input,
    the last ones the two sides hash, collide under SHA-256. *)
Theorem pcit_root_rejected leaf siblings last :
  length leaf = 32%nat → siblings_ok (siblings ++ [last]) →
  verify_merkle_proof leaf (siblings ++ [last]) (compute_chain_root leaf (siblings ++ [last])) = true →
  let on_chain := parent_input (foldl compute_parent_hash leaf siblings) last in
  let off_chain := chain_input (compute_chain_root leaf siblings) last in
  length on_chain = 65%nat ∧ length off_chain = 64%nat ∧ sha256 on_chain = sha256 off_chain.
Proof.
  intros Hl Hs Hv%bool_decide_eq_true_1 on_chain off_chain.
  rewrite merkle_fold_parent, chain_root_app, foldl_snoc in Hv by done.
  apply Forall_app in Hs as [Hs Hx]. inversion_clear Hx as [|? ? Hx' _].
  split_and!; [| |exact Hv].
  - apply parent_input_length; [|done]. by apply parent_hash_fold_length.
  - pose proof (chain_root_length leaf siblings Hl). unfold off_chain, chain_input.
    destruct (array_leb _ _); rewrite length_app; lia.
Qed.
End properties.

(** ** Leaves *)

(** The codec's [top_encode], as documented: addresses and buffers raw, positive
    numbers as the big-endian bytes of num-bigint, zero as nothing. *)
Definition codec `{NumBigint} (v : encodable) : bytes :=
  match v with
  | EncAddr a => addr_bytes a
  | EncBuf b => b
  | EncNum n => if 0 <? n then to_bytes_be n else []
  end.

(** A codec that appends to the buffer it is given. *)
Class AppendingCodec `{Sdk, NumBigint} : Prop := append_codec : ∀ buf v, top_encode_into buf v = buf ++ codec v.

Section leaves.
Context `{AppendingCodec}.

(** Leaf hashes agree.  When the SDK's [top_encode] appends to the buffer,
    the keeper's leaf hash is the one the contract computes from the same
    target, endpoint, arguments, token and minimum; so a single-leaf strategy
    (an empty proof against the leaf hash) is accepted. *)
Theorem pcit_leaf_accepted a endpoint args token m :
  let leaf := MkPcitLeaf (addr_bytes a) endpoint args token m in
  sha256 (encode_leaf a (string_bytes endpoint) args token m) = to_hash leaf ∧
  verify_merkle_proof (sha256 (encode_leaf a (string_bytes endpoint) args token m)) []
    (compute_chain_root (to_hash leaf) []) = true.
Proof.
  intros leaf. assert (Henc : encode_leaf a (string_bytes endpoint) args token m = top_encode leaf).
  { unfold encode_leaf, top_encode. rewrite !append_codec. simpl.
    assert (Hargs : ∀ buf, foldl append_arg buf args = foldl extend_arg buf args).
    { induction args as [|x l IH]; intros buf; simpl; [done|]. rewrite IH. f_equal.
      unfold append_arg, extend_arg. by rewrite app_assoc. }
    rewrite Hargs. destruct (0 <? m); [done|]. by rewrite app_nil_r. }
  rewrite Henc. split; [done|]. by apply bool_decide_eq_true_2.
Qed.
End leaves.

(** ** Witnesses *)

#[local] Existing Instance sample_sdk.
#[local] Existing Instance sample_hash_laws.
#[local] Existing Instance sample_bigint.

Definition sample_leaf (n : N) : bytes := [0; n].
Definition sample_tree : tree := Node (Node (Leaf (sample_leaf 1)) (Leaf (sample_leaf 2))) (Leaf (sample_leaf 3)).
Definition sample_proof : list hash := [sha256 (sample_leaf 1); sha256 (sample_leaf 3)].
Definition sample_xsc : world XscCore.K :=
  World (XscCore.MkState (root sample_tree) (Some 5) 1 false) (λ _, 0) [].

Lemma sample_siblings : siblings_ok sample_proof.
Proof. by repeat constructor. Defined.

Lemma verifiers_agree_witness :
  verify_proof (sha256 (sample_leaf 2)) (concat sample_proof) sample_xsc = Ok (true, sample_xsc).
Proof.
  assert (Hv : verify_merkle_proof (sha256 (sample_leaf 2)) sample_proof (root sample_tree) = true)
    by (vm_compute; reflexivity).
  rewrite <-Hv. apply (verifiers_agree (sha256 (sample_leaf 2)) sample_proof sample_xsc).
  - reflexivity.
  - reflexivity.
  - apply sample_siblings.
  - simpl; lia.
Defined.

Lemma merkle_verifier_correct_witness :
  path sample_tree (sample_leaf 2) sample_proof ∧
  verify_merkle_proof (sha256 (sample_leaf 2)) sample_proof (root sample_tree) = true.
Proof.
  assert (Hp : path sample_tree (sample_leaf 2) sample_proof).
  { apply (path_left _ (Leaf (sample_leaf 3)) _ [sha256 (sample_leaf 1)]).
    apply (path_right (Leaf (sample_leaf 1)) _ _ []). constructor. }
  split; [exact Hp|]. apply (merkle_verifier_correct sample_tree (sample_leaf 2) sample_proof); [..|exact Hp].
  - by repeat split.
  - done.
  - apply sample_siblings.
Defined.

Lemma pcit_root_rejected_witness :
  let leaf := sha256 (sample_leaf 2) in
  let last := sha256 (sample_leaf 1) in
  verify_merkle_proof leaf [last] (compute_chain_root leaf [last]) = true ∧
  length (parent_input leaf last) = 65%nat.
Proof.
  assert (Hv : verify_merkle_proof (sha256 (sample_leaf 2)) ([] ++ [sha256 (sample_leaf 1)])
    (compute_chain_root (sha256 (sample_leaf 2)) ([] ++ [sha256 (sample_leaf 1)])) = true)
    by (vm_compute; reflexivity).
  split; [exact Hv|].
  apply (pcit_root_rejected (sha256 (sample_leaf 2)) [] (sha256 (sample_leaf 1))); [reflexivity| |exact Hv].
  by repeat constructor.
Defined.

(** The sample SDK with the documented codec. *)
Definition appending_sdk : Sdk := {|
  sha256 := @sha256 sample_sdk;
  top_encode_into := λ buf v, buf ++ codec v;
  encode_task := @encode_task sample_sdk;
  bool_decode := @bool_decode sample_sdk;
  get_shard_of_address := @get_shard_of_address sample_sdk;
  empty_address := None;
  empty_keeper := None;
  empty_quantum_task := None;
  empty_clone_key := None;
  empty_intent := None;
  empty_multi_intent := None;
  empty_pre_cognitive := None;
|}.
Lemma appending_codec : @AppendingCodec appending_sdk sample_bigint.
Proof. done. Defined.

Lemma pcit_leaf_accepted_witness :
  @sha256 appending_sdk (@encode_leaf appending_sdk 50 (string_bytes "swap") [[1; 2]] "WEGLD-bd4d79" 1000) =
  @to_hash appending_sdk sample_bigint (MkPcitLeaf (addr_bytes 50) "swap" [[1; 2]] "WEGLD-bd4d79" 1000).
Proof. apply (@pcit_leaf_accepted appending_sdk sample_bigint appending_codec 50 "swap" [[1; 2]] "WEGLD-bd4d79" 1000). Defined.
