(* ===== verification/FeeFlow.v ===== *)
(** The protocol fees on their way from the Scheduler to the Rewards contract:
    the message the Scheduler emits is the call the Rewards contract runs. *)

From S2P Require Import Prelude Sdk Types Rewards SchedulerState Scheduler SchedulerAccounts SchedulerProps.

(** The endpoint of the Rewards contract at [rewards] a message stands for. *)
Definition rewards_call (rewards : address) (x : effect SchedulerState.K) : option Rewards.call :=
  match x with
  | TransferExecute to ep [ArgAddr keeper; ArgNum task_id] _ _ =>
      if decide (to = rewards ∧ ep = "receiveExecutionFee"%string)
      then Some (ReceiveExecutionFee keeper task_id) else None
  | _ => None
  end.

(** The environment in which the message of scheduler [from] arrives. *)
Definition carries (x : effect SchedulerState.K) (from : address) (er : env Rewards.K) : Prop :=
  match x with
  | TransferExecute to _ _ egld _ =>
      sc_address er = to ∧ caller er = from ∧ egld_value er = egld ∧ esdt_transfers er = []
  | _ => False
  end.

Section flow.
Context `{StrictSdk}.

(** C14: flushed fees are never lost.  In a state reached without compressed
    tasks and without callees that call back, with a Rewards contract
    configured and fees accrued, a flush without payment by a whitelisted
    keeper or the owner goes through: the Scheduler zeroes the accrued fees and
    emits one message and nothing else, which stands for [receiveExecutionFee]
    of the configured Rewards contract, for the flusher.  When it arrives at a
    Rewards contract that authorizes the Scheduler, with a split of at most
    100%, it runs and that contract owes exactly that much more: what the two
    contracts owe together, and the EGLD they hold together, is unchanged. *)
Theorem flush_conserves_fees (e : env SchedulerState.K) (w : world SchedulerState.K)
    (er : env Rewards.K) (wr : world Rewards.K) r :
  uncompressed_reachable w → TaskGuards.no_payment e → rewards_addr (st w) = Some r →
  caller e ∈ whitelisted_keepers (st w) ∨ caller e = owner_address e → 0 < accrued_protocol_fees (st w) →
  sc_address e ∈ authorized_schedulers (st wr) → treasury_split_bps (st wr) ≤ BPS_DENOMINATOR →
  let c := ReceiveExecutionFee (caller e) 0 in
  ∃ w' msg, invoke e (flush_protocol_fees e) w = Ok ((), w') ∧
    log w' = log w ++ [msg] ∧ rewards_call r msg = Some c ∧ accrued_protocol_fees (st w') = 0 ∧
    (carries msg (sc_address e) er → ∃ wr', invoke er (Rewards.dispatch er c) wr = Ok ((), wr') ∧
       Scheduler.owed (st w') + Rewards.owed (st wr') = Scheduler.owed (st w) + Rewards.owed (st wr) ∧
       bal w' Egld + bal wr' Egld = bal w Egld + bal wr Egld).
Proof.
  intros Hr [Hv Hesdt] Hra Hauth Hpos Hsched Hsplit c. apply accounts_reachable in Hr as (_ & _ & Hle).
  set (fee := accrued_protocol_fees (st w)) in *.
  set (msg := TransferExecute r "receiveExecutionFee" [ArgAddr (caller e); ArgNum 0] fee 10000000
       : effect SchedulerState.K).
  assert (Hrun : ∃ w', invoke e (flush_protocol_fees e) w = Ok ((), w') ∧ log w' = log w ++ [msg] ∧
    st w' = ((st w : SchedulerState.State) <| accrued_protocol_fees := 0 |>) ∧ bal w' Egld + fee = bal w Egld).
  { apply wp_runs, wp_invoke. unfold flush_protocol_fees.
    wp_go; rewrite ?st_credit in *; try tauto; simpl in *; rewrite ?st_credit, ?credit_egld in *.
    - match goal with Ha : _ ∨ _ |- log _ ++ _ = _ ∧ _ => destruct Ha as [Ha|[Ha _]]; [|congruence] end.
      rewrite log_credit, bal_insert_eq. assert (a = r) as -> by congruence.
      unfold owed in Hle. split_and!; [done|done|unfold fee in *; lia].
    - unfold owed in Hle. lia.
    - congruence. }
  destruct Hrun as (w' & Hrun & Hlog & Hst & Hb).
  exists w', msg. rewrite Hst. split_and!; [done|done|by apply decide_True|done|].
  intros (_ & Hc & Hval & Hes). cbn [Rewards.dispatch].
  destruct (receive_execution_fee_runs er wr (caller e) 0) as (wr' & Hrun' & _ & _ & _ & Howed & Hbal).
  { left. by rewrite Hc. } { done. } { done. }
  exists wr'. split; [done|]. rewrite Howed, Hbal, Hval. unfold Scheduler.owed. simpl.
  fold fee. lia.
Qed.
End flow.

(** ** Witness *)

#[local] Existing Instance sample_sdk.
#[local] Existing Instance sample_strict.

(** User 3's task is cancelled, which accrues a fee of 100. *)
Definition accrued_run : list (env SchedulerState.K * Scheduler.call) :=
  scheduled_run ++ [(sample_env 3 7 9 2 0, CancelQuantumTask (Scheduling.quantum_seal task_a))].
Definition flush_env : env SchedulerState.K := sample_env 5 7 9 3 0.
Definition sample_rewards : world Rewards.K :=
  World (Rewards.MkState (Some 1) 4000 ∅ 0 {[9]} 1 false) (λ _, 0) [].
Definition arrival : env Rewards.K := sample_env 9 7 2 3 100.

Lemma flush_conserves_fees_witness :
  ∃ w' msg, invoke flush_env (flush_protocol_fees flush_env) (SchedulerProps.run_from accrued_run) = Ok ((), w') ∧
    rewards_call 2 msg = Some (ReceiveExecutionFee 5 0) ∧
    (carries msg 9 arrival → ∃ wr', invoke arrival (Rewards.dispatch arrival (ReceiveExecutionFee 5 0)) sample_rewards = Ok ((), wr')).
Proof.
  destruct (flush_conserves_fees flush_env (SchedulerProps.run_from accrued_run) arrival sample_rewards 2)
    as (w' & msg & Hrun & _ & Hc & _ & Hdeliver).
  - apply sample_uncompressed; [unfold accrued_run; SchedulerProps.allowed_run|run_ok].
  - by split.
  - reflexivity.
  - left. by vm_compute.
  - by vm_compute.
  - by vm_compute.
  - by vm_compute.
  - exists w', msg. split; [exact Hrun|]. split; [exact Hc|].
    intros Hcarry. destruct (Hdeliver Hcarry) as (wr' & Hrun' & _). by exists wr'.
Defined.
