(* ===== verification/ExecFlow.v ===== *)
(** The outcome of an execution on its way from the Scheduler to the keeper
    registry: the callback settles the task and emits one report, and the
    report is the call the registry runs. *)

From S2P Require Import Prelude Sdk Types KeeperRegistry RegistryProps SchedulerState Scheduler Execution Settlement SchedulerAccounts SchedulerProps.

(** The endpoint of the registry at [registry] a message stands for. *)
Definition registry_call (registry : address) (x : effect SchedulerState.K) : option KeeperRegistry.call :=
  match x with
  | TransferExecute to ep [ArgAddr keeper; ArgBool success] _ _ =>
      if decide (to = registry ∧ ep = "recordExecution"%string)
      then Some (RecordExecution keeper success) else None
  | _ => None
  end.

(** The environment in which a report of scheduler [from] arrives. *)
Definition reports (from : address) (er : env KeeperRegistry.K) : Prop :=
  caller er = from ∧ egld_value er = 0 ∧ esdt_transfers er = [].

Section flow.
Context `{StrictSdk}.

Lemma no_report_in_refund r to amt : omap (registry_call r) (refund_effects to amt) = [].
Proof. unfold refund_effects. by case_decide. Qed.

Lemma one_report h owner k d s (b : bool) r :
  keeper_registry_addr s = Some r →
  omap (registry_call r) ((if b then success_log else failure_log) h owner k d s) = [RecordExecution k b].
Proof.
  intros Hr. destruct b; unfold success_log, failure_log, report_effects; rewrite Hr, !omap_app, no_report_in_refund;
    cbn; by rewrite decide_True.
Qed.

(** Apart from the refund of the owner, the keeper is sent its reward. *)
Lemma keeper_payment h owner k d s (b : bool) amt :
  k ≠ owner →
  Send k Egld amt ∈ (if b then success_log else failure_log) h owner k d s ↔ b = true ∧ amt = reward_of s d.
Proof.
  intros Hne. assert (∀ n, Send k Egld amt ∉ refund_effects owner n) as Hrefund.
  { intros n. unfold refund_effects. case_decide; [|set_solver]. intros Hin%list_elem_of_singleton. congruence. }
  assert (∀ b', Send k Egld amt ∉ report_effects k b' s) as Hreport.
  { intros b'. unfold report_effects. destruct (keeper_registry_addr s); [|set_solver].
    by intros Hin%list_elem_of_singleton. }
  assert (∀ ev, (Send k Egld amt : effect SchedulerState.K) ∉ [Emit ev]) as Hemit.
  { intros ev. by intros Hin%list_elem_of_singleton. }
  destruct b; unfold success_log, failure_log; rewrite !elem_of_app.
  - rewrite list_elem_of_singleton. split; [|by intros [_ ->]; left].
    intros [Heq|[?|[?|?]]]; [by injection Heq|exfalso; naive_solver..].
  - split; [|by intros [? _]]. naive_solver.
Qed.

(** C15: a keeper is rated for what it executed.  In a state reached without
    compressed tasks and without callees that call back, with a registry
    configured, the callback of a live task settles it, emits exactly the
    effects of the settlement, and among them exactly one report to that
    registry, of the keeper and the outcome.  A registry that authorizes the
    Scheduler, knows the keeper, has its treasury and its staking provider set
    (a zero provider address stands for none; with an empty cell the report of
    a failure aborts, see [no_strikes_without_provider]), and is reached without
    delegating stake, always runs that report: a success pays the keeper's
    reward and adds to its record without touching any stake; a failure pays it
    nothing and takes from its stake exactly the slash of its next strike. *)
Theorem execution_recorded (e : env SchedulerState.K) (w : world SchedulerState.K) h target k (b : bool) q r
    (er : env KeeperRegistry.K) (wr : world KeeperRegistry.K) info t p :
  uncompressed_reachable w → quantum_tasks (st w) !! h = Some q → keeper_registry_addr (st w) = Some r →
  liquid_reachable wr → sc_address e ∈ authorized_callers (st wr) → keepers (st wr) !! k = Some info →
  treasury_addr (st wr) = Some t → staking_provider_addr (st wr) = Some p → reports (sc_address e) er →
  let sent := (if b then success_log else failure_log) h (q_owner q) k (q_deposit q) (st w) in
  ∃ w' wr',
    invoke e (execution_callback (execution_closure h target k) b) w = Ok ((), w') ∧
    log w' = log w ++ sent ∧ omap (registry_call r) sent = [RecordExecution k b] ∧
    invoke er (KeeperRegistry.dispatch er (RecordExecution k b)) wr = Ok ((), wr') ∧
    (k ≠ q_owner q → ∀ amt, Send k Egld amt ∈ sent ↔ b = true ∧ amt = reward_of (st w) (q_deposit q)) ∧
    keepers (st wr') = <[k := if b then after_success info
                              else after_failure (min_stake (st wr) * 75 / 100) info]> (keepers (st wr)) ∧
    ∃ info', keepers (st wr') !! k = Some info' ∧
      k_stake info' + (if b then 0 else failure_slash info) = k_stake info.
Proof.
  intros Hr Hq Hreg Hrr Hauth Hk Ht Hp (Hc & Hv & Hesdt) sent.
  destruct (callback_runs e h target k b q w Hr Hq) as (w' & Hrun & _ & Hlog & _ & _).
  destruct (record_runs er k info t p b wr) as (wr' & Hrec & Heff); [done|left; by rewrite Hc|done..|].
  exists w', wr'. split_and!; [exact Hrun|exact Hlog|by apply one_report|exact Hrec| | |].
  - intros Hne amt. by apply keeper_payment.
  - destruct b; [by destruct Heff as [-> _]|by apply failure_recorded_kept in Heff as [-> _]].
  - exists (if b then after_success info else after_failure (min_stake (st wr) * 75 / 100) info).
    destruct b; simpl; (split; [|pose proof (failure_slash_le info); lia]).
    + destruct Heff as [-> _]. apply lookup_insert_eq.
    + apply failure_recorded_kept in Heff as [-> _]. apply lookup_insert_eq.
Qed.
End flow.

(** ** Witness *)

#[local] Existing Instance sample_sdk.
#[local] Existing Instance sample_strict.

(** The owner 7 authorizes the Scheduler 9 in the registry. *)
Definition reporting_run : list (env KeeperRegistry.K * KeeperRegistry.call) :=
  RegistryProps.keeper_run ++ [(sample_env 7 7 1 2000 0, AddAuthorizedCaller 9)].
Definition report_env : env KeeperRegistry.K := sample_env 9 7 1 3000 0.

Lemma execution_recorded_witness :
  ∃ w' wr', invoke SchedulerProps.keeper_env (execution_callback (execution_closure (Scheduling.quantum_seal task_a) 50 5) false)
              (SchedulerProps.run_from executed_run) = Ok ((), w') ∧
    invoke report_env (KeeperRegistry.dispatch report_env (RecordExecution 5 false))
      (RegistryProps.run_from reporting_run) = Ok ((), wr') ∧
    ∃ info', keepers (st wr') !! 5 = Some info' ∧ k_stake info' + 5 = 100.
Proof.
  destruct (execution_recorded SchedulerProps.keeper_env (SchedulerProps.run_from executed_run)
    (Scheduling.quantum_seal task_a) 50 5 false (MkQuantumTaskState 3 1000 Executing 2) 1
    report_env (RegistryProps.run_from reporting_run) keeper_5 8 0)
    as (w' & wr' & Hrun & _ & _ & Hrec & _ & _ & Hstake).
  - apply executed_uncompressed.
  - vm_compute. reflexivity.
  - reflexivity.
  - apply (RegistryProps.sample_liquid_reachable reporting_run);
      [unfold reporting_run; RegistryProps.allowed_run|vm_compute; reflexivity].
  - by vm_compute.
  - reflexivity.
  - reflexivity.
  - reflexivity.
  - by split.
  - exists w', wr'. split; [exact Hrun|]. split; [exact Hrec|exact Hstake].
Defined.
