(* ===== verification/TaskRun.v ===== *)
(** The way of a task from ripe to settled: a keeper in its turn starts it with
    one promise, and the promise's callback, whatever its outcome, closes it. *)

From S2P Require Import Prelude Sdk Types SchedulerState CloneKeys Scheduling Execution Settlement Intents Scheduler TaskGuards SchedulerAccounts TaskBoard SchedulerProps.

Implicit Types (e : env K) (w : world K) (s : State) (t : Task) (Q : unit → world K → Prop) (E : string → Prop).

Section predicates.
Context `{Sdk}.

(** The caller is a keeper whose turn it is: whitelisted, not locked out by the
    payload, and alone, drawn, or (for a time trigger) past the grace period. *)
Definition keeper_turn e t s : Prop :=
  caller e ∈ whitelisted_keepers s ∧ (∀ k, t_assigned_keeper t = Some k → caller e = k) ∧
  ∃ ks, keeper_list s = map Some ks ∧
    ((length ks ≤ 1)%nat ∨ ks !! (assigned_index e t (quantum_seal t) (length ks) - 1)%nat = Some (caller e) ∨
     ∃ start, time_trigger t = Some start ∧ start + 30000 ≤ timestamp e * 1000).

(** The payload's life is not over, and its trigger has fired: the instant has
    come, the oracle says so to whoever asks, or there is nothing to wait for. *)
Definition due e t : Prop :=
  timestamp e ≤ 100000000000 ∧
  (0 < t_ttl_seconds t → timestamp e * 1000 ≤ t_created_at t + t_ttl_seconds t * 1000) ∧
  match t_trigger t with
  | TimeOnce start | TimeRecurring start _ _ => start ≤ timestamp e * 1000
  | StateDriven oracle ep _ cmp threshold =>
      ∃ r, answers e oracle ep [] r ∧ compare_oracle cmp (oracle_value r) threshold = true
  | _ => True
  end.

(** The market gate lets the task through, when its payload asks for it. *)
Definition market_open e t s : Prop :=
  t_require_xwap_safe t = true →
  ∃ xwap, xwap_address s = Some xwap ∧
    (is_zero xwap = true ∨
     ∃ r, answers e xwap (string_bytes "isSafeToExecute") [] r ∧ decode_verdict r = true).

(** The promise of a task. *)
Definition task_promise e t : effect K :=
  Promise (t_target_contract t) (t_target_endpoint t) (map ArgBuf (t_target_args t)) 0 (t_max_gas t)
    (Some (execution_closure (quantum_seal t) (t_target_contract t) (caller e))) (callback_gas (crosses e t)).

(** The keeper of [e], with [secret], can start task [t], live as [q]. *)
Record ready e t (secret : option bytes) (q : QuantumTaskState) w : Prop := {
  ready_payment : no_payment e;
  ready_unpaused : paused_cell (st w) = false;
  ready_live : quantum_tasks (st w) !! quantum_seal t = Some q;
  ready_pending : q_status q = Pending;
  ready_accepted : ∃ d s0, valid_params t d s0;
  ready_secret : secret_fits t secret;
  ready_due : due e t;
  ready_turn : keeper_turn e t (st w);
  ready_target : safe_target e t (st w);
  ready_market : market_open e t (st w);
  ready_gas : enough_gas e t (caller e) (st w);
  ready_plain : t_confidential t = false }.

(** Only the balance changes, upwards, and not at all when callees are silent. *)
Definition paid_at_most e w (b : asset → N) : Prop :=
  bal w Egld ≤ b Egld ∧ (silent_callees e → b Egld = bal w Egld).
End predicates.

Section run.
Context `{StrictSdk}.

Lemma wp_target_ok e t Q E w :
  safe_target e t (st w) → Q () w → wp (require_safe_target e (t_target_contract t) (t_target_endpoint t)) Q E w.
Proof.
  intros (Hself & (r & Hr & Hrne) & (rw & Hrw & Hrwne) & Hb & Hd) HQ. unfold require_safe_target.
  wp_go; rewrite ?Hr, ?Hrw in *; first [done|exfalso; naive_solver].
Qed.

Lemma paid_nothing e w : paid_at_most e w (bal w).
Proof. by split. Qed.

(** Asking a contract that answers. *)
Lemma wp_answered e to ep args r (P : list bytes → world K → Prop) E w :
  no_reentrancy e → answers e to ep args r →
  (∀ b, paid_at_most e w b → P r (World (st w) b (log w))) → wp (sync_call e to ep args 0) P E w.
Proof.
  intros Hnr Hans HP. unfold sync_call. wp_go; [|lia].
  set (w0 := w <| bal ::= _ |>). destruct (Hans w0) as [w' Hs]. eapply wp_call_out; [exact Hs|].
  pose proof (Hnr _ _ _ _ _ _ _ Hs) as (Hst & Hlog & Hb). destruct w' as [s' b' l']. simpl in *. subst s' l'.
  apply HP. split; [specialize (Hb Egld); rewrite bal_insert_eq in Hb; lia|].
  intros Hsilent. apply Hsilent in Hs. apply (f_equal (λ v, bal v Egld)) in Hs. simpl in Hs.
  rewrite Hs, bal_insert_eq. lia.
Qed.

(** The ripeness check of a validated payload that is due. *)
Lemma wp_due e t d s0 Q E w :
  no_reentrancy e → valid_params t d s0 → due e t →
  (∀ b, paid_at_most e w b → Q () (World (st w) b (log w))) → wp (require_task_ripe_quantum e t) Q E w.
Proof.
  intros Hnr (_ & _ & _ & _ & Httl & Hcr & _) (Hts & Halive & Hfired) HQ.
  assert (HQ0 : Q () w) by (destruct w; apply HQ, paid_nothing).
  unfold require_task_ripe_quantum. rewrite get_timestamp_ms_seconds by done.
  rewrite (u64_mul_small (t_ttl_seconds t)) by (unfold u64_mod; lia).
  rewrite u64_add_small by (unfold u64_mod; lia).
  destruct (t_trigger t); wp_go; try done; try lia; destruct Hfired as (r & Hans & Hcmp).
  all: eapply wp_answered; [done..|]; intros b Hb.
  all: apply wp_require; [intros _; by apply HQ|done].
Qed.

Lemma wp_market_open e t Q E w :
  no_reentrancy e → market_open e t (st w) →
  (∀ b, paid_at_most e w b → Q () (World (st w) b (log w))) →
  wp (if t_require_xwap_safe t then require_xwap_market_safe e else mret ()) Q E w.
Proof.
  intros Hnr Hopen HQ. assert (HQ0 : Q () w) by (destruct w; apply HQ, paid_nothing).
  unfold market_open in Hopen. destruct (t_require_xwap_safe t); [|by apply wp_ret].
  destruct Hopen as (xwap & Hx & Hsafe); [done|]. unfold require_xwap_market_safe. apply wp_bind, wp_get_st.
  rewrite Hx. apply wp_bind, wp_ret. destruct Hsafe as [->|(r & Hans & Hv)]; [done|].
  destruct (is_zero xwap); [done|]. apply wp_bind. eapply wp_answered; [done..|]. intros b Hb.
  apply wp_require; [intros _; by apply HQ|done].
Qed.

Lemma wp_keeper_turn e t d s0 Q E w :
  valid_params t d s0 → timestamp e ≤ 100000000000 → keeper_turn e t (st w) → Q () w →
  wp (perform_round_robin_check e t (quantum_seal t) (caller e)) Q E w.
Proof.
  intros (_ & _ & _ & _ & _ & _ & Hbound) Hts (_ & _ & ks & Hl & Hturn) HQ.
  destruct (decide (1 < length ks)%nat) as [Hn|Hn].
  - destruct (round_robin_run e t (quantum_seal t) (caller e) ks w Hl Hn) as (a & Ha & Hrun).
    unfold wp. rewrite Hrun, decide_True; [done|].
    destruct Hturn as [?|[Hdrawn|(start & Hst & Hopen)]]; [lia|left; congruence|right].
    unfold time_trigger, ripe_time_ms in *. destruct (t_trigger t); simplify_eq.
    all: rewrite u64_add_small, u64_mul_small by (unfold u64_mod; lia); lia.
  - unfold perform_round_robin_check. wp_go; [|done]. rewrite Hl, length_map in *. lia.
Qed.

Lemma wp_secret_fits t secret Q E w :
  secret_fits t secret → Q () w → wp (check_quantum_secret t secret) Q E w.
Proof.
  unfold secret_fits, check_quantum_secret. intros Hs HQ. destruct (t_trigger t); try by apply wp_ret.
  destruct Hs as (x & -> & Hlen & Hh). wp_go; done.
Qed.

Lemma wp_dispatch e t q d s0 Q E w :
  no_reentrancy e → valid_params t d s0 → due e t → safe_target e t (st w) → market_open e t (st w) →
  enough_gas e t (caller e) (st w) → t_confidential t = false →
  (∀ b, paid_at_most e w b →
    Q () (World ((st w : State) <| quantum_tasks ::= <[quantum_seal t := started e q]> |>) b
            (log w ++ [task_promise e t]))) →
  wp (dispatch_task_execution e (quantum_seal t) t (caller e) q) Q E w.
Proof.
  intros Hnr Hval Hdue Hsafe Hopen Hgas Hc HQ. unfold dispatch_task_execution. rewrite Hc.
  apply wp_bind. eapply wp_due; [done..|]. intros b1 [Hb1 Hs1].
  apply wp_bind, wp_target_ok; [done|]. apply wp_bind, wp_market_open; [done..|]. intros b2 [Hb2 Hs2].
  unfold enough_gas, crosses in Hgas. unfold set_quantum_task. simpl in *. wp_go; try done; [|lia].
  apply HQ. split; simpl; rewrite bal_insert_eq, N.sub_0_r; [lia|]. intros Hs. by rewrite Hs2, Hs1.
Qed.

Lemma execute_runs e t secret q w :
  no_reentrancy e → ready e t secret q w →
  ∃ w', invoke e (execute_quantum_task e t secret) w = Ok ((), w') ∧
    st w' = (st w : State) <| quantum_tasks ::= <[quantum_seal t := started e q]> |> ∧
    log w' = log w ++ [task_promise e t] ∧ paid_at_most e w (bal w').
Proof.
  intros Hnr [[Hv Hesdt] Hp Hq Hpend (d & s0 & Hval) Hsec Hdue Hturn Hsafe Hopen Hgas Hc].
  assert (Hmev : match t_assigned_keeper t with Some k => caller e = k | None => True end).
  { destruct Hturn as (_ & Hlock & _). destruct (t_assigned_keeper t); [by apply Hlock|done]. }
  assert (Hlisted : caller e ∈ whitelisted_keepers (st w)) by apply Hturn.
  apply wp_runs, wp_invoke. unfold execute_quantum_task, require_registered_keeper. wp_go; [|tauto].
  apply wp_require_not_paused; rewrite st_credit; simpl; [intros _|congruence].
  wp_go; rewrite ?st_credit in *; try congruence; try done;
    [|by match goal with Hx : ¬ (_ ≠ _) |- _ => destruct Hx; congruence end].
  apply wp_get_quantum_task; rewrite st_credit; [|congruence]. intros q' Hq'.
  assert (q' = q) as -> by congruence. apply wp_bind, wp_require; [intros _|done].
  apply wp_bind, wp_secret_fits; [done|]. apply wp_bind.
  eassert (Hnext : wp (perform_round_robin_check _ _ _ _ ≫= _) _ _ _);
    [|destruct (t_assigned_keeper t); [apply wp_require; [intros _; exact Hnext|done]|apply wp_ret, Hnext]].
  apply wp_bind. eapply wp_keeper_turn; [done|apply Hdue|by rewrite st_credit|]. rewrite Hc. wp_go.
  eapply wp_dispatch; rewrite ?st_credit; [done..|]. rewrite log_credit. unfold paid_at_most.
  rewrite credit_egld, Hv, N.add_0_r. intros b [Hb Hs]. by split_and!.
Qed.

(** A started task is not started twice. *)
Lemma started_refused e e' t q w secret :
  quantum_tasks (st w) !! quantum_seal t = Some (started e q) →
  is_ok (invoke e' (execute_quantum_task e' t secret) w) = false.
Proof.
  intros Hq. destruct (wp_only_err (invoke e' (execute_quantum_task e' t secret)) any_error w) as (msg & -> & _); [|done].
  apply wp_invoke. unfold execute_quantum_task, require_registered_keeper. wp_go.
  apply wp_require_not_paused; [intros _|done]. wp_go.
  apply wp_get_quantum_task; [|done]. intros q' Hq'. rewrite st_credit, Hq in Hq'. simplify_eq.
  by apply wp_bind, wp_require.
Qed.

(** A task past the end of its life is not executed, by no keeper and with no
    secret; it is not refunded either: it stays until its owner cancels it. *)
Lemma expired_refused e t d s0 secret w :
  valid_params t d s0 → timestamp e ≤ 100000000000 → 0 < t_ttl_seconds t →
  t_created_at t + t_ttl_seconds t * 1000 < timestamp e * 1000 →
  is_ok (invoke e (execute_quantum_task e t secret) w) = false.
Proof.
  intros (_ & _ & _ & _ & Httl & Hcr & _) Hts Hpos Hlate.
  destruct (wp_only_err (invoke e (execute_quantum_task e t secret)) any_error w) as (msg & -> & _); [|done].
  assert (Hdead : ∀ h q Q w', wp (dispatch_task_execution e h t (caller e) q) Q any_error w').
  { intros h q Q w'. unfold dispatch_task_execution, require_task_ripe_quantum.
    rewrite get_timestamp_ms_seconds by done. rewrite (u64_mul_small (t_ttl_seconds t)) by (unfold u64_mod; lia).
    rewrite u64_add_small by (unfold u64_mod; lia). rewrite decide_True by done.
    apply wp_bind, wp_bind, wp_require; [lia|done]. }
  apply wp_invoke. unfold execute_quantum_task, require_registered_keeper. wp_go.
  apply wp_require_not_paused; [intros _|done]. wp_go. apply wp_get_quantum_task; [|done]. intros q _. wp_go.
  apply wp_check_secret. intros _. destruct (t_assigned_keeper t), (t_confidential t); wp_go; try done.
  all: apply wp_round_robin; intros _; apply wp_bind; try apply wp_modify; apply Hdead.
Qed.

(** C4: a ripe task runs and settles.  In every state reached without
    compressed tasks and without callees that call back, take a live Pending
    task that is not confidential and whose payload is one the Scheduler
    accepts, and a keeper that is whitelisted, not locked out by the payload,
    and alone, drawn by the round robin, or past the grace period of a time
    trigger.  If the contract is not paused, block time is in seconds and
    within the payload's life, its trigger has fired (the instant has come; the
    oracle answers with a value that meets the threshold; events and quantum
    locks wait for nothing but the secret), the market gate is not asked for,
    zero or open, the target is safe (with both companion contracts set) and
    the gas suffices, the call goes through: its only effect outside the
    storage is one promise to the target with the gas the payload asked for,
    the contract pays nothing, and no one can start the task again.  The
    promise's callback then goes through for either outcome and removes the
    task; the deposit is paid out in full but for the protocol cut, and on
    success the keeper is sent its reward. *)
Theorem ripe_task_completes e t secret q w :
  uncompressed_reachable w → no_reentrancy e → ready e t secret q w →
  ∃ w1, invoke e (execute_quantum_task e t secret) w = Ok ((), w1) ∧
    log w1 = log w ++ [task_promise e t] ∧
    bal w Egld ≤ bal w1 Egld ∧ (silent_callees e → bal w1 Egld = bal w Egld) ∧
    quantum_tasks (st w1) = <[quantum_seal t := started e q]> (quantum_tasks (st w)) ∧
    (∀ e' secret', is_ok (invoke e' (execute_quantum_task e' t secret') w1) = false) ∧
    ∀ ec (b : bool), egld_value ec = 0 →
      let d := q_deposit q in
      let cb := execution_closure (quantum_seal t) (t_target_contract t) (caller e) in
      ∃ w2, invoke ec (dispatch ec (ExecutionCallback cb b)) w1 = Ok ((), w2) ∧
        quantum_tasks (st w2) = delete (quantum_seal t) (quantum_tasks (st w)) ∧
        bal w2 Egld + (d - protocol_cut (st w) d) = bal w1 Egld ∧
        accrued_protocol_fees (st w2) = accrued_protocol_fees (st w) + protocol_cut (st w) d ∧
        (b = true → Send (caller e) Egld (reward_of (st w) d) ∈ log w2).
Proof.
  intros Hr Hnr Hready.
  destruct (execute_runs e t secret q w Hnr Hready) as (w1 & Hrun & Hst & Hlog & Hb & Hsilent).
  assert (Hq1 : quantum_tasks (st w1) !! quantum_seal t = Some (started e q))
    by (rewrite Hst; apply lookup_insert_eq).
  exists w1. split_and!; [done|done|done|done|by rewrite Hst|intros; by eapply started_refused|]. intros ec b Hv d cb.
  assert (Hr1 : uncompressed_reachable w1) by (eapply reach_call with (c := ExecuteQuantumTask t secret);
    [exact Hr|split; [split; [exact Hnr|exact I]|reflexivity]|exact Hrun]).
  destruct (callback_runs ec (quantum_seal t) (t_target_contract t) (caller e) b _ w1 Hr1 Hq1)
    as (w2 & Hcb & Hst2 & Hlog2 & Hb2 & Hd).
  subst d. rewrite Hst in *. change (q_deposit (started e q)) with (q_deposit q) in *.
  exists w2. split_and!.
  - exact Hcb.
  - rewrite Hst2. destruct b; apply delete_insert_eq.
  - change (protocol_cut (_ <| quantum_tasks ::= _ |>)) with (protocol_cut (st w)) in *. lia.
  - rewrite Hst2. by destruct b.
  - intros ->. rewrite Hlog2. apply elem_of_app. right. apply elem_of_app. left. by apply list_elem_of_singleton.
Qed.
End run.

(** ** Witness: the scheduled task of user 3, started by keeper 5 *)

#[local] Existing Instance sample_sdk.
#[local] Existing Instance sample_strict.

Lemma sample_ready :
  ready keeper_env task_a None (MkQuantumTaskState 3 1000 Pending 0) (run_from scheduled_run).
Proof.
  split; try (vm_compute; done).
  - exists 1000, (st (run_from setup)). by vm_compute.
  - split_and!; [vm_compute; set_solver|done|]. exists [5]. split; [vm_compute; done|by left; simpl].
  - split_and!; [done|exists 1; split; [by vm_compute|discriminate]|exists 2; split; [by vm_compute|discriminate]|by vm_compute|].
    apply (bool_decide_eq_true_1 _). run_ok.
Defined.

Lemma ripe_task_completes_witness :
  ∃ w1 w2, invoke keeper_env (execute_quantum_task keeper_env task_a None) (run_from scheduled_run) = Ok ((), w1) ∧
    invoke keeper_env (dispatch keeper_env (ExecutionCallback
      (execution_closure (quantum_seal task_a) 50 5) true)) w1 = Ok ((), w2) ∧
    bal w2 Egld + 900 = 1000 ∧ Send 5 Egld 900 ∈ log w2.
Proof.
  destruct (ripe_task_completes keeper_env task_a None (MkQuantumTaskState 3 1000 Pending 0)
    (run_from scheduled_run)) as (w1 & Hrun & _ & _ & Hsilent & _ & _ & Hcb).
  - apply sample_uncompressed; [allowed_run|run_ok].
  - apply sample_env_no_reentrancy.
  - exact sample_ready.
  - destruct (Hcb keeper_env true) as (w2 & Hrun2 & _ & Hb & _ & Hsend); [reflexivity|].
    exists w1, w2. split; [exact Hrun|]. split; [exact Hrun2|].
    assert (Hbal : bal w1 Egld = 1000) by (rewrite Hsilent; [run_ok|apply sample_env_silent]).
    assert (Hcut : protocol_cut (st (run_from scheduled_run)) 1000 = 100) by run_ok.
    assert (Hrew : reward_of (st (run_from scheduled_run)) 1000 = 900) by run_ok.
    cbn [q_deposit] in *. rewrite Hrew in Hsend. split; [lia|by apply Hsend].
Defined.
