(* ===== verification/TestContracts.v ===== *)
(** The contracts the project deploys to try the system out: the target Ping
    (contracts/ping/src/lib.rs) and the stand-ins of a DEX pair and of an NFT
    collection that the Vault trades with (contracts/test-dex/src/lib.rs,
    contracts/test-nft/src/lib.rs). *)

From S2P Require Import Prelude Sdk Types.

(** ** Storage: none of them emits events or registers callbacks *)

Record PingState := MkPingState { ping_count : N }.
#[export] Instance PingState_eta : Settable PingState := λ s, MkPingState (ping_count s).
Canonical PingK : contract := Contract PingState Empty_set Empty_set.

Record DexState := MkDexState { swap_count : N; total_swapped : N }.
#[export] Instance DexState_eta : Settable DexState := λ s, MkDexState (swap_count s) (total_swapped s).
Canonical DexK : contract := Contract DexState Empty_set Empty_set.

Record NftState := MkNftState { mint_count : N; total_paid : N }.
#[export] Instance NftState_eta : Settable NftState := λ s, MkNftState (mint_count s) (total_paid s).
Canonical NftK : contract := Contract NftState Empty_set Empty_set.

(** ** Ping *)

Definition ping_init : M PingK unit := modify (λ s : PingState, s <| ping_count := 0 |>).
Definition ping_upgrade : M PingK unit := mret ().
Definition ping (e : env PingK) : M PingK unit :=
  not_payable e;; modify (λ s : PingState, s <| ping_count ::= λ c, u64_add c 1 |>).
Definition get_ping_count (s : PingState) : N := ping_count s.

Inductive ping_call : Type := Ping | UpgradePing.
Definition ping_dispatch (e : env PingK) (c : ping_call) : M PingK unit :=
  match c with Ping => ping e | UpgradePing => ping_upgrade end.

(** ** TestDex *)

Definition dex_init : M DexK unit :=
  modify (λ s : DexState, s <| swap_count := 0 |> <| total_swapped := 0 |>).
Definition dex_upgrade : M DexK unit := mret ().
Definition swap_tokens_fixed_input (e : env DexK) (min_amount_out : N) : M DexK unit :=
  payable_egld e;;
  let payment := egld_value e in
  require (0 < payment) "No EGLD sent";;
  modify (λ s : DexState, s <| swap_count ::= λ c, u64_add c 1 |>);;
  modify (λ s : DexState, s <| total_swapped ::= λ t, t + payment |>).
Definition get_swap_count (s : DexState) : N := swap_count s.
Definition get_total_swapped (s : DexState) : N := total_swapped s.

Inductive dex_call : Type := SwapTokensFixedInput (min_amount_out : N) | UpgradeDex.
Definition dex_dispatch (e : env DexK) (c : dex_call) : M DexK unit :=
  match c with SwapTokensFixedInput m => swap_tokens_fixed_input e m | UpgradeDex => dex_upgrade end.
Definition dex_deployed (w : world DexK) : Prop :=
  ∃ w0, st w0 = MkDexState 0 0 ∧ dex_init w0 = Ok ((), w).
Definition dex_reachable : world DexK → Prop := reachable dex_dispatch dex_deployed (λ _ _ _, True).

(** ** TestNft *)

Definition nft_init : M NftK unit :=
  modify (λ s : NftState, s <| mint_count := 0 |> <| total_paid := 0 |>).
Definition nft_upgrade : M NftK unit := mret ().
Definition nft_mint (e : env NftK) (count : N) : M NftK unit :=
  payable_egld e;;
  let payment := egld_value e in
  require (0 < payment) "No EGLD sent";;
  modify (λ s : NftState, s <| mint_count ::= λ c, u64_add c 1 |>);;
  modify (λ s : NftState, s <| total_paid ::= λ t, t + payment |>).
Definition get_mint_count (s : NftState) : N := mint_count s.
Definition get_total_paid (s : NftState) : N := total_paid s.

Inductive nft_call : Type := MintNft (count : N) | UpgradeNft.
Definition nft_dispatch (e : env NftK) (c : nft_call) : M NftK unit :=
  match c with MintNft n => nft_mint e n | UpgradeNft => nft_upgrade end.
Definition nft_deployed (w : world NftK) : Prop :=
  ∃ w0, st w0 = MkNftState 0 0 ∧ nft_init w0 = Ok ((), w).
Definition nft_reachable : world NftK → Prop := reachable nft_dispatch nft_deployed (λ _ _ _, True).

(** ** Their books *)

(** Neither stand-in pays out: what it says it took in is in its balance. *)
Lemma dex_books w : dex_reachable w → total_swapped (st w) ≤ bal w Egld.
Proof.
  apply (reachable_inv _ _ _ (λ w : world DexK, total_swapped (st w) ≤ bal w Egld)).
  - intros w' (w0 & Hst & [= <-]). simpl. lia.
  - intros w' e c Hle _. destruct c; cbn [dex_dispatch]; unfold swap_tokens_fixed_input, dex_upgrade;
      wp_go; simpl; rewrite ?st_credit, ?credit_egld in *; lia.
  - intros w' b Hle Hb. simpl. specialize (Hb Egld). lia.
Qed.

Lemma nft_books w : nft_reachable w → total_paid (st w) ≤ bal w Egld.
Proof.
  apply (reachable_inv _ _ _ (λ w : world NftK, total_paid (st w) ≤ bal w Egld)).
  - intros w' (w0 & Hst & [= <-]). simpl. lia.
  - intros w' e c Hle _. destruct c; cbn [nft_dispatch]; unfold nft_mint, nft_upgrade;
      wp_go; simpl; rewrite ?st_credit, ?credit_egld in *; lia.
  - intros w' b Hle Hb. simpl. specialize (Hb Egld). lia.
Qed.

(** A swap or a mint goes through when EGLD, and nothing else, comes with it. *)
Lemma dex_accepts e m w :
  esdt_transfers e = [] → 0 < egld_value e →
  ∃ w', invoke e (swap_tokens_fixed_input e m) w = Ok ((), w') ∧
    swap_count (st w') = u64_add (swap_count (st w)) 1 ∧
    total_swapped (st w') = total_swapped (st w) + egld_value e.
Proof.
  intros Hesdt Hv. apply wp_runs, wp_invoke. unfold swap_tokens_fixed_input. wp_go; try done;
    simpl; by rewrite st_credit.
Qed.

Lemma nft_accepts e n w :
  esdt_transfers e = [] → 0 < egld_value e →
  ∃ w', invoke e (nft_mint e n) w = Ok ((), w') ∧
    mint_count (st w') = u64_add (mint_count (st w)) 1 ∧
    total_paid (st w') = total_paid (st w) + egld_value e.
Proof.
  intros Hesdt Hv. apply wp_runs, wp_invoke. unfold nft_mint. wp_go; try done;
    simpl; by rewrite st_credit.
Qed.

Lemma nft_refuses_free e n w :
  esdt_transfers e = [] → egld_value e = 0 → invoke e (nft_mint e n) w = Err "No EGLD sent".
Proof.
  intros Hesdt Hv. apply wp_fails, wp_invoke. unfold nft_mint. wp_go; first [done|lia].
Qed.

Lemma ping_accepts e w :
  egld_value e = 0 → esdt_transfers e = [] →
  ∃ w', invoke e (ping e) w = Ok ((), w') ∧ ping_count (st w') = u64_add (ping_count (st w)) 1.
Proof.
  intros Hv Hesdt. apply wp_runs, wp_invoke. unfold ping. wp_go; [|tauto]. simpl. by rewrite st_credit.
Qed.
