(* ===== verification/VaultFlow.v ===== *)
(** The Vault's trades on their way to the contracts it trades with: the
    promise of a swap or of a mint is the call the stand-in contract runs. *)

From S2P Require Import Prelude Sdk Types Vault VaultProps TestContracts.

(** The EGLD a message of the Vault carries and the call it stands for, at the
    DEX pair [dex] and at the NFT collection [nft], when it comes back to the
    Vault through the callback of that trade. *)
Definition dex_message (dex : address) (x : effect Vault.K) : option (N * dex_call) :=
  match x with
  | Promise to ep [ArgNum m] egld _ (Some swap_closure) _ =>
      if decide (to = dex ∧ ep = string_bytes "swapTokensFixedInput")
      then Some (egld, SwapTokensFixedInput m) else None
  | _ => None
  end.
Definition nft_message (nft : address) (x : effect Vault.K) : option (N * nft_call) :=
  match x with
  | Promise to ep [ArgNum n] egld _ (Some mint_closure) _ =>
      if decide (to = nft ∧ ep = string_bytes "mint") then Some (egld, MintNft n) else None
  | _ => None
  end.

(** An environment in which a payment of [egld] arrives. *)
Definition brings {K} (egld : N) (e : env K) : Prop := egld_value e = egld ∧ esdt_transfers e = [].

Section flow.
Context `{StrictSdk}.
Implicit Types (e : env Vault.K) (w : world Vault.K).

(** The Scheduler triggers a trade of a vault that is not paused. *)
Definition triggered e w : Prop :=
  brings 0 e ∧ paused_cell (st w) = false ∧ scheduler_address (st w) = Some (caller e).

(** What is not owed to users, and the part of it a swap takes. *)
Definition free_funds w : N := bal w Egld - total_pending_withdrawals (st w).
Definition swapped w : N :=
  let cap := swap_amount_per_execution (st w) in
  if decide (0 < cap) then N.min cap (free_funds w) else free_funds w.
Definition least_out w : N := swapped w * u64_sub 10000 (max_slippage_bps (st w)) / 10000.

Lemma swapped_le w : swapped w ≤ free_funds w.
Proof. unfold swapped. case_decide; lia. Qed.

Lemma swapped_pos w : 0 < free_funds w → 0 < swapped w.
Proof. unfold swapped. case_decide; lia. Qed.

Lemma swapped_eq w :
  (if decide (0 < swap_amount_per_execution (st w) ∧ swap_amount_per_execution (st w) < free_funds w)
   then swap_amount_per_execution (st w) else free_funds w) = swapped w.
Proof. unfold swapped. repeat case_decide; lia. Qed.

(** The guards of a triggered call. *)
Lemma wp_triggered e w (m : M Vault.K unit) Q E :
  triggered e w → wp m Q E (credit e w) →
  wp (not_payable e;; require_not_paused;; require_scheduler_caller e;; m) Q E (credit e w).
Proof.
  intros ([Hv Hesdt] & Hp & Hs) HQ. unfold require_scheduler_caller. wp_go; [|tauto].
  apply wp_require_not_paused; rewrite st_credit; simpl; [intros _|congruence].
  apply wp_bind. wp_go; [exact HQ|..]; rewrite ?st_credit, ?Hs in *; exfalso; naive_solver.
Qed.

Lemma wp_free_funds e w (P : N → world Vault.K → Prop) E :
  egld_value e = 0 → P (free_funds w) (credit e w) → wp safe_liquid P E (credit e w).
Proof. intros Hv HP. apply wp_safe_liquid. by rewrite st_credit, credit_egld, Hv, N.add_0_r. Qed.

Lemma swap_runs e w dex :
  triggered e w → dex_pair_contract (st w) = Some dex → max_slippage_bps (st w) ≠ 0 → 0 < free_funds w →
  ∃ w', invoke e (swap e) w = Ok ((), w') ∧ st w' = st w ∧ bal w' Egld + swapped w = bal w Egld ∧
    log w' = log w ++ [Promise dex (string_bytes "swapTokensFixedInput") [ArgNum (least_out w)] (swapped w)
      20000000 (Some swap_closure) 5000000].
Proof.
  intros Ht Hd Hslip Hfree. pose proof (swapped_le w) as Hle. pose proof (swapped_pos w Hfree) as Hpos.
  pose proof Ht as ([Hv _] & _ & _).
  apply wp_runs, wp_invoke. unfold swap, swap_with. apply wp_triggered; [exact Ht|].
  apply wp_bind, wp_get_st. rewrite st_credit, Hd.
  apply wp_bind, wp_require; [intros _|naive_solver]. apply wp_bind, wp_require; [intros _|done].
  apply wp_bind, wp_ret, wp_bind, wp_free_funds; [exact Hv|]. rewrite swapped_eq, decide_True by done.
  fold (least_out w). unfold free_funds in *. wp_go; rewrite ?log_credit, ?st_credit, ?credit_egld in *; [|lia].
  simpl. rewrite bal_insert_eq, credit_egld. split_and!; try done; lia.
Qed.

Lemma mint_runs e w nft :
  triggered e w → nft_contract (st w) = Some nft → mint_price (st w) ≤ free_funds w →
  mint_price (st w) ≤ bal w Egld →
  ∃ w', invoke e (mint e) w = Ok ((), w') ∧ st w' = st w ∧ bal w' Egld + mint_price (st w) = bal w Egld ∧
    log w' = log w ++ [Promise nft (mint_endpoint_name (st w)) [ArgNum 1] (mint_price (st w))
      15000000 (Some mint_closure) 5000000].
Proof.
  intros Ht Hd Hfree Hle. pose proof Ht as ([Hv _] & _ & _).
  apply wp_runs, wp_invoke. unfold mint. apply wp_triggered; [exact Ht|].
  apply wp_bind, wp_get_st. rewrite st_credit, Hd. apply wp_bind, wp_require; [intros _|naive_solver].
  apply wp_bind, wp_ret, wp_bind, wp_free_funds; [exact Hv|]. apply wp_bind, wp_require; [intros _|done].
  wp_go; rewrite ?log_credit, ?st_credit, ?credit_egld in *; [|lia].
  simpl. rewrite bal_insert_eq, credit_egld. split_and!; try done; lia.
Qed.

(** C39: a swap of the Vault is a trade at the pair.  Triggered by the
    Scheduler in an unpaused vault with free funds, a configured pair and a
    nonzero slippage, a swap emits one message and nothing else: the call of
    the configured pair's [swapTokensFixedInput] with the swap's own callback.
    It takes no more than the configured amount and nothing that is owed to
    users, and asks for at least half of its value.  The pair stand-in always
    runs that message and books exactly the amount, which its balance covers;
    the callback brings the Vault back to its former balance when the call
    failed, and never touches its storage. *)
Theorem vault_swap_recorded e w dex :
  vault_reachable w → triggered e w → dex_pair_contract (st w) = Some dex →
  max_slippage_bps (st w) ≠ 0 → 0 < free_funds w →
  ∃ w' msg amt m, invoke e (swap e) w = Ok ((), w') ∧ log w' = log w ++ [msg] ∧
    dex_message dex msg = Some (amt, SwapTokensFixedInput m) ∧
    0 < amt ∧ (0 < swap_amount_per_execution (st w) → amt ≤ swap_amount_per_execution (st w)) ∧
    bal w' Egld + amt = bal w Egld ∧ total_pending_withdrawals (st w') ≤ bal w' Egld ∧
    m ≤ amt ∧ amt ≤ 2 * m + 1 ∧
    (∀ ed wd, brings amt ed → dex_reachable wd →
      ∃ wd', invoke ed (dex_dispatch ed (SwapTokensFixedInput m)) wd = Ok ((), wd') ∧
        swap_count (st wd') = u64_add (swap_count (st wd)) 1 ∧
        total_swapped (st wd') = total_swapped (st wd) + amt ∧ total_swapped (st wd') ≤ bal wd' Egld) ∧
    ∀ ec (b : bool), brings (if b then 0 else amt) ec →
      ∃ w'', invoke ec (run_callback ec swap_closure b) w' = Ok ((), w'') ∧ st w'' = st w ∧
        bal w'' Egld = (if b then bal w' Egld else bal w Egld).
Proof.
  intros Hr Ht Hd Hslip Hfree. destruct (swap_runs e w dex) as (w' & Hrun & Hst & Hb & Hlog); [done..|].
  pose proof (swapped_le w) as Hle. apply books_reachable in Hr as (_ & Hs & _).
  destruct (slippage_floor _ (swapped w) Hs) as [Hm1 Hm2].
  exists w', (Promise dex (string_bytes "swapTokensFixedInput") [ArgNum (least_out w)] (swapped w)
      20000000 (Some swap_closure) 5000000), (swapped w), (least_out w).
  split_and!; [done|done|by apply decide_True|by apply swapped_pos| |done| |done|done| |].
  - intros Hcap. unfold swapped. rewrite decide_True by done. lia.
  - rewrite Hst. unfold free_funds in *. lia.
  - intros ed wd [Hv Hesdt] Hwd. pose proof (swapped_pos w Hfree).
    destruct (dex_accepts ed (least_out w) wd) as (wd' & Hrun' & Hc & Htot); [done|lia|].
    exists wd'. rewrite Hv in Htot. split_and!; [done..|]. apply dex_books.
    by eapply reach_call with (c := SwapTokensFixedInput (least_out w)).
  - intros ec b [Hv Hesdt]. apply wp_runs, wp_invoke. cbn [run_callback]. unfold swap_callback.
    destruct b; wp_go; simpl; rewrite st_credit, credit_egld; (split; [done|lia]).
Qed.

(** A mint of the Vault at the collection.  The message is the one call the
    collection stand-in runs, and books the price; but with the price left at
    its initial zero the message carries nothing, and the collection refuses
    it every time. *)
Theorem vault_mint_recorded e w nft :
  triggered e w → nft_contract (st w) = Some nft → mint_endpoint_name (st w) = string_bytes "mint" →
  mint_price (st w) ≤ free_funds w →
  ∃ w' msg, invoke e (mint e) w = Ok ((), w') ∧ log w' = log w ++ [msg] ∧
    nft_message nft msg = Some (mint_price (st w), MintNft 1) ∧ bal w' Egld + mint_price (st w) = bal w Egld ∧
    ∀ en wn, brings (mint_price (st w)) en → nft_reachable wn →
      if decide (0 < mint_price (st w))
      then ∃ wn', invoke en (nft_dispatch en (MintNft 1)) wn = Ok ((), wn') ∧
        mint_count (st wn') = u64_add (mint_count (st wn)) 1 ∧
        total_paid (st wn') = total_paid (st wn) + mint_price (st w) ∧ total_paid (st wn') ≤ bal wn' Egld
      else invoke en (nft_dispatch en (MintNft 1)) wn = Err "No EGLD sent".
Proof.
  intros Ht Hd Hep Hle. assert (mint_price (st w) ≤ bal w Egld) as Hbal by (unfold free_funds in Hle; lia).
  destruct (mint_runs e w nft Ht Hd Hle Hbal) as (w' & Hrun & Hst & Hb & Hlog).
  eexists w', _. split_and!; [exact Hrun|exact Hlog|by rewrite Hep; apply decide_True|exact Hb|].
  intros en wn [Hv Hesdt] Hwn. case_decide as Hpos.
  - destruct (nft_accepts en 1 wn) as (wn' & Hrun' & Hc & Htot); [done|lia|].
    exists wn'. rewrite Hv in Htot. split_and!; [done..|]. apply nft_books.
    by eapply reach_call with (c := MintNft 1).
  - apply nft_refuses_free; [done|lia].
Qed.
End flow.

(** ** Witness: a vault with 150, of which 100 are owed to a user *)

#[local] Existing Instance sample_sdk.
#[local] Existing Instance sample_strict.

Definition trading_vault : world Vault.K :=
  next dispatch owner_env (SetSwapAmount 40) (next dispatch owner_env (SetDexPairContract 50) unbonded).
Definition trigger_env : env Vault.K := sample_env 30 7 9 5 0.
Definition sample_dex : world DexK := World (MkDexState 0 0) (λ _, 0) [].

Lemma trading_reachable : vault_reachable trading_vault.
Proof.
  apply next_reachable; [apply next_reachable; [apply unbonded_reachable|exact I|by vm_compute]|exact I|by vm_compute].
Defined.

Lemma vault_swap_recorded_witness :
  ∃ w' m wd', invoke trigger_env (swap trigger_env) trading_vault = Ok ((), w') ∧
    invoke (sample_env 9 7 50 6 40) (dex_dispatch (sample_env 9 7 50 6 40) (SwapTokensFixedInput m)) sample_dex
      = Ok ((), wd') ∧ total_swapped (st wd') = 40.
Proof.
  destruct (swap_runs trigger_env trading_vault 50) as (w0 & Hrun0 & _ & Hb0 & _).
  1: by split_and!. 1: reflexivity. 1: by vm_compute. 1: by vm_compute.
  destruct (vault_swap_recorded trigger_env trading_vault 50)
    as (w' & sent & amt & m & Hrun & _ & _ & _ & _ & Hb & _ & _ & _ & Hdex & _).
  - apply trading_reachable.
  - by split_and!.
  - reflexivity.
  - by vm_compute.
  - by vm_compute.
  - assert (amt = 40) as ->.
    { rewrite Hrun in Hrun0. injection Hrun0 as <-.
      assert (swapped trading_vault = 40) as Hs by by vm_compute. lia. }
    destruct (Hdex (sample_env 9 7 50 6 40) sample_dex) as (wd' & Hrun' & _ & Htot & _); [by split| |].
    + apply reach_deployed. by exists sample_dex.
    + exists w', m, wd'. split; [exact Hrun|]. split; [exact Hrun'|]. rewrite Htot. reflexivity.
Defined.

Lemma vault_mint_recorded_witness :
  ∃ w' en wn, invoke trigger_env (mint trigger_env) (next dispatch owner_env (SetMintEndpoint (string_bytes "mint"))
      (next dispatch owner_env (SetNftContract 51) unbonded)) = Ok ((), w') ∧
    invoke en (nft_dispatch en (MintNft 1)) wn = Err "No EGLD sent".
Proof.
  destruct (vault_mint_recorded trigger_env (next dispatch owner_env (SetMintEndpoint (string_bytes "mint"))
      (next dispatch owner_env (SetNftContract 51) unbonded)) 51) as (w' & sent & Hrun & _ & _ & _ & Hnft).
  - by split_and!.
  - reflexivity.
  - reflexivity.
  - by vm_compute.
  - exists w', (sample_env 9 7 51 6 0), (World (MkNftState 0 0) (λ _, 0) []). split; [exact Hrun|].
    specialize (Hnft (sample_env 9 7 51 6 0) (World (MkNftState 0 0) (λ _, 0) [])).
    apply Hnft; [by split|]. apply reach_deployed. by exists (World (MkNftState 0 0) (λ _, 0) []).
Defined.
