(* ===== verification/RustStd.v ===== *)
(** The parts of the Rust standard library that the off-chain crates
    (xcron-keeper-rs, xse-protocol) use on integers and strings.  A [&str] is a
    [string] of its UTF-8 bytes.  The off-chain crates are built by [cargo
    build --release], whose integer arithmetic wraps. *)

From Stdlib Require Export Ascii.
From stdpp Require Export pretty.
From S2P Require Import Prelude.

#[global] Open Scope N_scope.

(** ** [u128] *)

Definition u128_mod : N := 2 ^ 128.
Definition u128_add (a b : N) : N := (a + b) mod u128_mod.

Lemma u128_add_small a b : a + b < u128_mod → u128_add a b = a + b.
Proof. apply N.mod_small. Qed.

(** ** [str::parse::<u128>]

    At least one decimal digit, an optional plus sign, no overflow. *)

Definition digit_val (c : Ascii.ascii) : option N :=
  let n := Ascii.N_of_ascii c in
  if decide (48 ≤ n ∧ n ≤ 57) then Some (n - 48) else None.

Fixpoint parse_digits (acc : N) (s : string) : option N :=
  match s with
  | EmptyString => Some acc
  | String c s' =>
      d ← digit_val c;
      let acc' := acc * 10 + d in
      if decide (acc' < u128_mod) then parse_digits acc' s' else None
  end.

Definition parse_u128 (s : string) : option N :=
  match s with
  | EmptyString => None
  | String c s' =>
      if decide (c = "+"%char) then match s' with EmptyString => None | _ => parse_digits 0 s' end
      else parse_digits 0 s
  end.

Lemma parse_digits_bound s : ∀ acc v, acc < u128_mod → parse_digits acc s = Some v → v < u128_mod.
Proof.
  induction s as [|c s IH]; intros acc v Hacc Hp; [by simplify_eq/=|]. cbn [parse_digits] in Hp.
  destruct (digit_val c) as [d|]; [|done]. simpl in Hp. case_decide as Hd; [|done]. by eapply IH.
Qed.

Lemma parse_u128_bound s v : parse_u128 s = Some v → v < u128_mod.
Proof.
  unfold parse_u128. destruct s as [|c s]; [done|]. case_decide; [destruct s; [done|]|]; by apply parse_digits_bound.
Qed.

Lemma digit_val_pretty d : d < 10 → digit_val (pretty_N_char d) = Some d.
Proof.
  intros Hd. assert (d = 0 ∨ d = 1 ∨ d = 2 ∨ d = 3 ∨ d = 4 ∨ d = 5 ∨ d = 6 ∨ d = 7 ∨ d = 8 ∨ d = 9)
    as Hcases by lia. by destruct_or! Hcases; subst d.
Qed.

(** Reading back the digits that [to_string] writes. *)
Lemma parse_pretty_go n s : n < u128_mod → parse_digits 0 (pretty_N_go n s) = parse_digits n s.
Proof.
  intros Hn. revert s. induction (N.lt_wf_0 n) as [n _ IH]; intros s.
  destruct (decide (n = 0)) as [->|Hne]; [done|].
  rewrite pretty_N_go_step by lia.
  pose proof (N.div_lt n 10 ltac:(lia) eq_refl) as Hlt.
  rewrite IH by lia. simpl. rewrite digit_val_pretty by (apply N.mod_lt; lia). simpl.
  rewrite (N.mul_comm (n / 10)), <- (N.div_mod n 10) by lia. by rewrite decide_True.
Qed.

Lemma pretty_go_head n s :
  0 < n → ∃ d s', d < 10 ∧ pretty_N_go n s = String (pretty_N_char d) s'.
Proof.
  revert s. induction (N.lt_wf_0 n) as [n _ IH]; intros s Hn. rewrite pretty_N_go_step by done.
  pose proof (N.mod_lt n 10 ltac:(lia)).
  destruct (decide (n / 10 = 0)) as [Hz|Hz].
  - rewrite Hz, pretty_N_go_0. eauto.
  - apply IH; [by apply N.div_lt|by apply N.neq_0_lt_0].
Qed.

Lemma parse_to_string n : n < u128_mod → parse_u128 (pretty n) = Some n.
Proof.
  intros Hn. destruct (decide (n = 0)) as [->|Hne]; [done|].
  assert (pretty n = pretty_N_go n "") as -> by (unfold pretty, pretty_N; by rewrite decide_False).
  destruct (pretty_go_head n "" ltac:(lia)) as (d & s' & Hd & Hs).
  unfold parse_u128. rewrite Hs, <- Hs, decide_False, parse_pretty_go by
    (try done; intros Hc; apply (f_equal digit_val) in Hc; by rewrite digit_val_pretty in Hc).
  done.
Qed.

(** ** [format!("{:0wx}")] and [hex]

    The lowercase hexadecimal digits of a number, padded with zeros. *)

Definition hex_digit (d : N) : ascii := ascii_of_N (if decide (d < 10) then 48 + d else 87 + d).

Fixpoint hex_digits (fuel : nat) (n : N) : string :=
  match fuel with
  | O => ""
  | S fuel' =>
      if decide (n < 16) then String (hex_digit n) ""
      else hex_digits fuel' (n / 16) +:+ String (hex_digit (n mod 16)) ""
  end.

(** A number has at most as many hexadecimal as binary digits. *)
Definition format_x (n : N) : string := hex_digits (S (N.size_nat n)) n.

Fixpoint zeros (k : nat) : string :=
  match k with O => "" | S k' => String "0" (zeros k') end.

Definition format_0x (w : nat) (n : N) : string :=
  let s := format_x n in zeros (w - String.length s) +:+ s.

(** The bytes of a string written with two digits each. *)
Fixpoint hex_of (b : bytes) : string :=
  match b with [] => "" | x :: b' => format_0x 2 x +:+ hex_of b' end.

Lemma string_app_cons x (a b : string) : String x a +:+ b = String x (a +:+ b).
Proof. done. Qed.

Lemma string_app_assoc (a b c : string) : a +:+ (b +:+ c) = (a +:+ b) +:+ c.
Proof. induction a as [|x a IH]; [done|]. by rewrite !string_app_cons, IH. Qed.

Lemma string_app_nil (a : string) : a +:+ "" = a.
Proof. induction a as [|x a IH]; [done|]. by rewrite string_app_cons, IH. Qed.

Lemma string_length_app (a b : string) : String.length (a +:+ b) = (String.length a + String.length b)%nat.
Proof. induction a as [|x a IH]; [done|]. rewrite string_app_cons. simpl. by rewrite IH. Qed.

(** The last [w] hexadecimal digits. *)
Fixpoint hex_fixed (w : nat) (n : N) : string :=
  match w with O => "" | S w' => hex_fixed w' (n / 16) +:+ String (hex_digit (n mod 16)) "" end.

Lemma hex_fixed_0 w : hex_fixed w 0 = zeros w.
Proof.
  induction w as [|w IH]; [done|]. simpl. change (0 / 16) with 0. rewrite IH.
  clear IH. induction w as [|w IH]; [done|]. simpl zeros. by rewrite string_app_cons, IH.
Qed.

Lemma hex_digits_fixed w fuel n :
  n < 16 ^ N.of_nat (S w) → n < 16 ^ N.of_nat (S fuel) →
  zeros (S w - String.length (hex_digits (S fuel) n)) +:+ hex_digits (S fuel) n = hex_fixed (S w) n.
Proof.
  assert (∀ k m, m < 16 ^ N.of_nat (S (S k)) → m / 16 < 16 ^ N.of_nat (S k)) as Hdiv.
  { intros k m Hm. apply N.Div0.div_lt_upper_bound. by rewrite <- N.pow_succ_r', <- Nat2N.inj_succ. }
  revert fuel n. induction w as [|w IH]; intros fuel n Hn Hf; cbn [hex_digits]; case_decide as H16.
  - simpl. by rewrite N.mod_small.
  - change (16 ^ N.of_nat 1) with 16 in Hn. lia.
  - assert (hex_fixed (S (S w)) n = hex_fixed (S w) (n / 16) +:+ String (hex_digit (n mod 16)) "") as -> by done.
    rewrite N.div_small, N.mod_small, hex_fixed_0 by done. done.
  - destruct fuel as [|fuel]; [change (16 ^ N.of_nat 1) with 16 in Hf; lia|].
    assert (hex_fixed (S (S w)) n = hex_fixed (S w) (n / 16) +:+ String (hex_digit (n mod 16)) "") as -> by done.
    rewrite <- (IH fuel) by auto. rewrite string_length_app, string_app_assoc. simpl String.length.
    f_equal. f_equal. f_equal. lia.
Qed.

Lemma size_nat_bound n : n < 16 ^ N.of_nat (S (N.size_nat n)).
Proof.
  assert (n < 2 ^ N.of_nat (N.size_nat n)) as Hn.
  { destruct n as [|p]; [done|]. simpl N.size_nat.
    induction p as [p IH|p IH|]; simpl Pos.size_nat; rewrite ?Nat2N.inj_succ, ?N.pow_succ_r'; lia. }
  eapply N.lt_le_trans; [exact Hn|]. rewrite Nat2N.inj_succ, N.pow_succ_r'.
  pose proof (N.pow_le_mono_l 2 16 (N.of_nat (N.size_nat n)) ltac:(lia)). lia.
Qed.

(** Within its width, [format_0x] writes the last digits. *)
Lemma format_0x_fixed w n : n < 16 ^ N.of_nat (S w) → format_0x (S w) n = hex_fixed (S w) n.
Proof. intros Hn. apply hex_digits_fixed; [done|]. apply size_nat_bound. Qed.

Lemma hex_of_app a b : hex_of (a ++ b) = hex_of a +:+ hex_of b.
Proof. induction a as [|x a IH]; [done|]. simpl. by rewrite IH, string_app_assoc. Qed.

Abbreviation octets := (Forall (λ x, x < 256)).

Lemma hex_of_length b : octets b → String.length (hex_of b) = (2 * length b)%nat.
Proof.
  induction 1 as [|x b Hx _ IH]; [done|]. simpl hex_of.
  rewrite string_length_app, IH, (format_0x_fixed 1) by done. cbn [hex_fixed].
  rewrite !string_length_app. simpl. lia.
Qed.

Lemma string_bytes_length s : length (string_bytes s) = String.length s.
Proof. unfold string_bytes. rewrite length_map. induction s; simpl; congruence. Qed.

(** A number in [2 * k] digits is its [k] big-endian bytes in hexadecimal. *)
Lemma hex_fixed_bytes k n : hex_fixed (2 * k) n = hex_of (be_bytes k n).
Proof.
  revert n. induction k as [|k IH]; intros n; [done|].
  replace (2 * S k)%nat with (S (S (2 * k))) by lia. cbn [hex_fixed be_bytes].
  rewrite hex_of_app, <- IH, N.Div0.div_div, <- string_app_assoc.
  change (16 * 16) with 256. f_equal. simpl hex_of.
  rewrite format_0x_fixed, string_app_nil by (change (16 ^ N.of_nat 2) with 256; apply N.mod_lt; lia).
  cbn [hex_fixed].
  assert (n mod 256 = n mod 16 + 16 * (n / 16 mod 16)) as Hm
    by (change 256 with (16 * 16); by rewrite N.Div0.mod_mul_r).
  assert (n mod 256 / 16 = n / 16 mod 16) as ->.
  { rewrite Hm, N.mul_comm, N.div_add by lia. rewrite N.div_small; [lia|]. apply N.mod_lt. lia. }
  assert ((n mod 256) mod 16 = n mod 16) as ->.
  { rewrite Hm, N.mul_comm, N.Div0.mod_add, N.Div0.mod_mod. done. }
  rewrite N.Div0.mod_mod. done.
Qed.

(** ** Searching and cutting strings *)

(** [s.split(sep)] for a character: at least one piece. *)
Fixpoint split_on (sep : ascii) (s : string) : list string :=
  match s with
  | EmptyString => [""]
  | String c s' =>
      if decide (c = sep) then "" :: split_on sep s'
      else match split_on sep s' with
           | piece :: rest => String c piece :: rest
           | [] => [String c ""]
           end
  end.

(** [s.contains(pattern)] *)
Fixpoint contains (s pattern : string) : bool :=
  String.prefix pattern s || match s with EmptyString => false | String _ s' => contains s' pattern end.

(** [trim_start_matches] and [trim_end_matches] of a set of characters. *)
Fixpoint trim_start (P : ascii → bool) (s : string) : string :=
  match s with String c s' => if P c then trim_start P s' else s | EmptyString => "" end.
Fixpoint trim_end (P : ascii → bool) (s : string) : string :=
  match s with
  | EmptyString => ""
  | String c s' =>
      match trim_end P s' with
      | EmptyString => if P c then "" else String c ""
      | r => String c r
      end
  end.

(** The ASCII white space that [str::trim] removes. *)
Definition is_whitespace (c : ascii) : bool :=
  let n := N_of_ascii c in bool_decide (n = 32) || (bool_decide (9 ≤ n) && bool_decide (n ≤ 13)).
Definition trim (s : string) : string := trim_end is_whitespace (trim_start is_whitespace s).
