(* ===== verification/KeeperTx.v ===== *)
(** Transactions of the keeper daemon
    (xcron-keeper-rs/src/transaction.rs): the payload that is signed, relayed
    transactions, and the hexadecimal form of a task. *)

From S2P Require Import Prelude RustStd.

Record Transaction := MkTransaction {
  nonce : N;
  value : string;
  receiver : string;
  sender : string;
  gas_price : N;
  gas_limit : N;
  data : option string;
  chain_id : string;
  version : N;
  options : option N;
  relayer : option string;
  signature : option string;
  relayer_signature : option string;
}.
#[export] Instance Transaction_eta : Settable Transaction := λ t,
  MkTransaction (nonce t) (value t) (receiver t) (sender t) (gas_price t) (gas_limit t) (data t)
    (chain_id t) (version t) (options t) (relayer t) (signature t) (relayer_signature t).

(** The crates the daemon signs and encodes with: ed25519-dalek, base64, hex
    and serde_json. *)
Class Crates := {
  SigningKey : Type;
  ed25519_sign : SigningKey → bytes → bytes;
  base64_encode : bytes → string;
  hex_encode : bytes → string;
  json_of_tx : Transaction → result string;
}.

(** ** The payload that is signed *)

Definition quote : ascii := ascii_of_N 34.
(** A string in quotes, inside [format!]. *)
Definition quoted (s : string) : string := String quote (s +:+ String quote "").

(** [format!] of a number field and of a string field. *)
Definition num_part (key : string) (n : N) : string := quoted key +:+ ":" +:+ pretty n.
Definition str_part (key s : string) : string := quoted key +:+ ":" +:+ quoted s.

Definition opt_part {A} (f : A → string) (o : option A) : list string :=
  match o with Some a => [f a] | None => [] end.

Definition serialize_for_signing (t : Transaction) : result string :=
  let parts :=
    [num_part "nonce" (nonce t); str_part "value" (value t); str_part "receiver" (receiver t);
     str_part "sender" (sender t); num_part "gasPrice" (gas_price t); num_part "gasLimit" (gas_limit t)] ++
    opt_part (str_part "data") (data t) ++
    [str_part "chainID" (chain_id t); num_part "version" (version t)] ++
    opt_part (num_part "options") (options t) ++
    opt_part (str_part "relayer") (relayer t) in
  Ok ("{" +:+ String.concat "," parts +:+ "}").

Definition serialize_for_relayer_signing (t : Transaction) : result string := serialize_for_signing t.

(** ** The hexadecimal form of a task *)

(** [hex.len() / 2], then the digits. *)
Definition hex_buffer (h : string) : string :=
  format_0x 8 (N.of_nat (String.length h) / 2) +:+ h.

Definition serialize_quantum_task_hex (task_id : N) (owner_hex target_contract_hex endpoint_hex : string)
    (args_hex : list string) (trigger_type : N) (trigger_data_hex : string) (max_gas : N) : string :=
  format_0x 16 task_id +:+ owner_hex +:+ target_contract_hex +:+
  hex_buffer endpoint_hex +:+
  format_0x 8 (N.of_nat (length args_hex)) +:+ foldr (λ a rest, hex_buffer a +:+ rest) "" args_hex +:+
  format_0x 2 trigger_type +:+ trigger_data_hex +:+
  format_0x 16 max_gas +:+
  "00000000" +:+ "00" +:+ "00" +:+ "0000000000000000" +:+ "0000000000000000" +:+ "00" +:+ "00" +:+
  "0000000000000000" +:+ "00" +:+ "00" +:+ "00".

Section code.
Context `{Crates}.

Definition new (tx_nonce : N) (tx_value tx_receiver tx_sender : string) (tx_gas_price tx_gas_limit : N)
    (tx_data : option bytes) (tx_chain_id : string) (tx_version : N) : Transaction :=
  MkTransaction tx_nonce tx_value tx_receiver tx_sender tx_gas_price tx_gas_limit
    (base64_encode <$> tx_data) tx_chain_id tx_version None None None None.

Definition sign (t : Transaction) (key : SigningKey) : result Transaction :=
  match serialize_for_signing t with
  | Ok payload => Ok (t <| signature := Some (hex_encode (ed25519_sign key (string_bytes payload))) |>)
  | Err x => Err x
  end.

Definition to_relayed_data (t : Transaction) : result string :=
  match json_of_tx t with
  | Ok json_str => Ok ("relayedTx@" +:+ hex_encode (string_bytes json_str))
  | Err x => Err x
  end.

Definition to_relayed_v3 (t : Transaction) (relayer_address : string) (relayer_signing_key : SigningKey)
  : result Transaction :=
  let t := t <| relayer := Some relayer_address |> in
  match serialize_for_relayer_signing t with
  | Ok payload =>
      Ok (t <| relayer_signature := Some (hex_encode (ed25519_sign relayer_signing_key (string_bytes payload))) |>)
  | Err x => Err x
  end.

Definition build_quantum_execution_tx (tx_nonce : N) (tx_sender scheduler_address serialized_task_hex : string)
    (quantum_secret_hex : option string) (tx_chain_id : string) : Transaction :=
  let payload := "executeQuantumTask@" +:+ serialized_task_hex +:+
    match quantum_secret_hex with Some secret => "@01" +:+ secret | None => "@00" end in
  new tx_nonce "0" scheduler_address tx_sender 1000000000 30000000 (Some (string_bytes payload)) tx_chain_id 1.

(** [generate_schedule_payload] of main.rs; [now] is the Unix time. *)
Definition generate_schedule_payload (now : N) : bytes :=
  let target_addr_hex := "00000000000000000500ebaa4de200cf54fe97a0604c759cd8f6de251daeb90b" in
  let endpoint_hex := hex_encode (string_bytes "ping") in
  let trigger_time := u64_add now 30 in
  let trigger_hex := "00" +:+ format_0x 16 trigger_time in
  let task_hex := serialize_quantum_task_hex 40000000
    "0000000000000000000000000000000000000000000000000000000000000000" target_addr_hex endpoint_hex
    [] 0 trigger_hex 30000000 in
  string_bytes ("scheduleQuantumTask@" +:+ task_hex).
End code.
