(* ===== verification/KeeperTxProps.v ===== *)
(** Properties of the keeper's transactions: what a signature covers, and that
    the hexadecimal task is the one the Scheduler decodes. *)

From S2P Require Import Prelude Sdk Types RustStd KeeperTx.

(** ** Tokens: a string up to the first character of another class *)

Abbreviation chars := String.list_ascii_of_string.

Lemma chars_app a b : chars (a +:+ b) = chars a ++ chars b.
Proof. induction a as [|x a IH]; [done|]. rewrite string_app_cons. simpl. by rewrite IH. Qed.

Lemma chars_inj a b : chars a = chars b → a = b.
Proof.
  intros Hab. rewrite <- (String.string_of_list_ascii_of_string a), Hab.
  apply String.string_of_list_ascii_of_string.
Qed.

Lemma string_app_inv_l c (a b : string) : c +:+ a = c +:+ b → a = b.
Proof. intros Hab%(f_equal chars). rewrite !chars_app in Hab. by apply chars_inj, (app_inv_head (chars c)). Qed.

Section token.
Context (P : ascii → Prop).

(** [s] consists of [P] characters; [r] does not begin with one. *)
Definition all_chars (s : string) : Prop := Forall P (chars s).
Definition stops (r : string) : Prop := match r with String c _ => ¬ P c | EmptyString => True end.

Lemma token_inj a a' r r' :
  all_chars a → all_chars a' → stops r → stops r' → a +:+ r = a' +:+ r' → a = a' ∧ r = r'.
Proof.
  revert a'. induction a as [|x a IH]; intros [|y a'] Ha Ha' Hr Hr' Heq; rewrite ?string_app_cons in Heq.
  - done.
  - change (r = String y (a' +:+ r')) in Heq. subst r. inversion_clear Ha'. by destruct Hr.
  - change (String x (a +:+ r) = r') in Heq. subst r'. inversion_clear Ha. by destruct Hr'.
  - injection Heq as -> Heq. inversion_clear Ha. inversion_clear Ha'. by destruct (IH a') as [-> ->].
Qed.
End token.

(** ** The signing payload *)

Definition quote_free : string → Prop := all_chars (λ c, c ≠ quote).
Definition is_digit (c : ascii) : Prop := is_Some (digit_val c).

Lemma digit_pretty_char n : is_digit (pretty_N_char (n mod 10)).
Proof. eexists. apply digit_val_pretty, N.mod_lt. lia. Qed.

Lemma pretty_digits (n : N) : all_chars is_digit (pretty n).
Proof.
  unfold pretty, pretty_N. case_decide as Hn; [repeat constructor; eexists; reflexivity|].
  assert (∀ s, all_chars is_digit s → all_chars is_digit (pretty_N_go n s)) as Hgo; [|apply Hgo; constructor].
  clear Hn. induction (N.lt_wf_0 n) as [n _ IH]; intros s Hs.
  destruct (decide (n = 0)) as [->|Hne]; [done|]. rewrite pretty_N_go_step by lia.
  apply IH; [apply N.div_lt; lia|]. constructor; [apply digit_pretty_char|done].
Qed.

Lemma num_part_inj key n n' r r' :
  stops is_digit r → stops is_digit r' → num_part key n +:+ r = num_part key n' +:+ r' → n = n' ∧ r = r'.
Proof.
  intros Hr Hr' Heq. unfold num_part in Heq. rewrite <- !string_app_assoc in Heq.
  do 2 apply string_app_inv_l in Heq.
  apply (token_inj is_digit) in Heq as [Hn ->]; auto using pretty_digits. split; [|done].
  by apply (inj pretty).
Qed.

Lemma str_part_inj key s s' r r' :
  quote_free s → quote_free s' → str_part key s +:+ r = str_part key s' +:+ r' → s = s' ∧ r = r'.
Proof.
  intros Hs Hs' Heq. unfold str_part in Heq. rewrite <- !string_app_assoc in Heq.
  do 2 apply string_app_inv_l in Heq. unfold quoted in Heq.
  rewrite !string_app_cons in Heq. injection Heq as Heq. rewrite <- !string_app_assoc in Heq.
  apply (token_inj (λ c, c ≠ quote)) in Heq as [-> Heq]; try done; [|simpl; auto..].
  by apply string_app_inv_l in Heq.
Qed.

(** The payload written out, from its end. *)
Definition opt_tail {A} (f : A → string) (o : option A) : string :=
  match o with Some a => "," +:+ f a | None => "" end.
Definition tail_relayer (t : Transaction) : string := opt_tail (str_part "relayer") (relayer t) +:+ "}".
Definition tail_options t : string := opt_tail (num_part "options") (options t) +:+ tail_relayer t.
Definition tail_chain t : string :=
  "," +:+ str_part "chainID" (chain_id t) +:+ "," +:+ num_part "version" (version t) +:+ tail_options t.
Definition tail_data t : string := opt_tail (str_part "data") (data t) +:+ tail_chain t.
Definition flat_payload t : string :=
  "{" +:+ num_part "nonce" (nonce t) +:+ "," +:+ str_part "value" (value t) +:+ "," +:+
  str_part "receiver" (receiver t) +:+ "," +:+ str_part "sender" (sender t) +:+ "," +:+
  num_part "gasPrice" (gas_price t) +:+ "," +:+ num_part "gasLimit" (gas_limit t) +:+ tail_data t.

Lemma serialize_flat t : serialize_for_signing t = Ok (flat_payload t).
Proof.
  unfold serialize_for_signing, flat_payload, tail_data, tail_chain, tail_options, tail_relayer, opt_tail, opt_part.
  destruct (data t), (options t), (relayer t); cbn [app String.concat];
    rewrite <- !string_app_assoc; reflexivity.
Qed.

(** The strings of a transaction: bech32 addresses, decimal amounts, base64. *)
Record printable (t : Transaction) : Prop := {
  pr_value : quote_free (value t);
  pr_receiver : quote_free (receiver t);
  pr_sender : quote_free (sender t);
  pr_chain : quote_free (chain_id t);
  pr_data : ∀ d, data t = Some d → quote_free d;
  pr_relayer : ∀ r, relayer t = Some r → quote_free r;
}.

Lemma not_digit_comma : ¬ is_digit ",".
Proof. by intros [? ?]. Qed.
Lemma not_digit_brace : ¬ is_digit "}".
Proof. by intros [? ?]. Qed.
#[local] Hint Resolve not_digit_comma not_digit_brace : core.

Lemma stops_relayer t : stops is_digit (tail_relayer t).
Proof. unfold tail_relayer. destruct (relayer t); simpl; auto. Qed.
Lemma stops_options t : stops is_digit (tail_options t).
Proof. unfold tail_options. destruct (options t); [simpl; auto|apply stops_relayer]. Qed.
Lemma stops_data t : stops is_digit (tail_data t).
Proof. unfold tail_data, tail_chain. destruct (data t); simpl; auto. Qed.

(** Each tail determines the fields it prints. *)
Lemma tail_relayer_inj t t' :
  printable t → printable t' → tail_relayer t = tail_relayer t' → relayer t = relayer t'.
Proof.
  intros Ht Ht' Heq. unfold tail_relayer in Heq.
  destruct (relayer t) as [r|] eqn:Hr, (relayer t') as [r'|] eqn:Hr'; try done.
  simpl in Heq. rewrite <- !string_app_assoc in Heq. apply string_app_inv_l in Heq.
  apply str_part_inj in Heq as [-> _]; eauto using pr_relayer.
Qed.

Lemma tail_options_inj t t' :
  printable t → printable t' → tail_options t = tail_options t' →
  options t = options t' ∧ relayer t = relayer t'.
Proof.
  intros Ht Ht' Heq. unfold tail_options in Heq.
  destruct (options t) as [o|], (options t') as [o'|]; simpl in Heq.
  - rewrite <- !string_app_assoc in Heq. apply string_app_inv_l in Heq.
    apply num_part_inj in Heq as [-> Heq]; auto using stops_relayer, tail_relayer_inj.
  - unfold tail_relayer in Heq. by destruct (relayer t').
  - unfold tail_relayer in Heq. by destruct (relayer t).
  - split; [done|]. by apply tail_relayer_inj.
Qed.

Lemma tail_chain_inj t t' :
  printable t → printable t' → tail_chain t = tail_chain t' →
  chain_id t = chain_id t' ∧ version t = version t' ∧ options t = options t' ∧ relayer t = relayer t'.
Proof.
  intros Ht Ht' Heq. unfold tail_chain in Heq. apply string_app_inv_l in Heq.
  apply str_part_inj in Heq as [-> Heq]; auto using pr_chain. apply string_app_inv_l in Heq.
  apply num_part_inj in Heq as [-> Heq]; auto using stops_options.
  by apply tail_options_inj in Heq as [-> ->].
Qed.

Lemma tail_data_inj t t' :
  printable t → printable t' → tail_data t = tail_data t' →
  data t = data t' ∧ chain_id t = chain_id t' ∧ version t = version t' ∧ options t = options t' ∧
  relayer t = relayer t'.
Proof.
  intros Ht Ht' Heq. unfold tail_data in Heq.
  destruct (data t) as [d|] eqn:Hd, (data t') as [d'|] eqn:Hd'; simpl in Heq.
  - rewrite <- !string_app_assoc in Heq. apply string_app_inv_l in Heq.
    apply str_part_inj in Heq as [-> Heq]; eauto using pr_data. split; [done|]. by apply tail_chain_inj.
  - by unfold tail_chain in Heq.
  - by unfold tail_chain in Heq.
  - split; [done|]. by apply tail_chain_inj.
Qed.

(** What a signature is about: everything but the signatures. *)
Definition unsigned (t : Transaction) : Transaction :=
  t <| signature := None |> <| relayer_signature := None |>.

Lemma payload_inj t t' :
  printable t → printable t' → flat_payload t = flat_payload t' → unsigned t = unsigned t'.
Proof.
  intros Ht Ht' Heq. unfold flat_payload in Heq.
  apply string_app_inv_l in Heq.
  apply num_part_inj in Heq as [Hn Heq]; [|simpl; auto..]. apply string_app_inv_l in Heq.
  apply str_part_inj in Heq as [Hv Heq]; auto using pr_value. apply string_app_inv_l in Heq.
  apply str_part_inj in Heq as [Hr Heq]; auto using pr_receiver. apply string_app_inv_l in Heq.
  apply str_part_inj in Heq as [Hs Heq]; auto using pr_sender. apply string_app_inv_l in Heq.
  apply num_part_inj in Heq as [Hp Heq]; [|simpl; auto..]. apply string_app_inv_l in Heq.
  apply num_part_inj in Heq as [Hl Heq]; auto using stops_data.
  apply tail_data_inj in Heq; [|done..]. destruct_and! Heq.
  destruct t, t'; simpl in *. by subst.
Qed.

(** C26: a signature covers the whole transaction.  Two transactions whose
    strings contain no quotation mark and that give the same payload for
    signing agree on every field but the signatures; and a sender's signature
    made before [to_relayed_v3] is about the relayed transaction exactly when
    the relayer was already set. *)
Theorem signature_covers t t' r :
  printable t → printable t' → quote_free r →
  (serialize_for_signing t = serialize_for_signing t' → unsigned t = unsigned t') ∧
  (serialize_for_signing t = serialize_for_relayer_signing (t <| relayer := Some r |>) ↔ relayer t = Some r).
Proof.
  intros Ht Ht' Hr. unfold serialize_for_relayer_signing. rewrite !serialize_flat. split.
  - intros Heq. apply payload_inj; congruence.
  - split.
    + assert (printable (t <| relayer := Some r |>)) as Ht2.
      { destruct Ht. split; try done. simpl. by intros ? [= <-]. }
      intros Heq. apply (f_equal relayer (payload_inj t _ Ht Ht2 ltac:(congruence))).
    + intros Hrel. destruct t; simpl in *. by subst.
Qed.

(** ** The task codec

    The documented encoding of the SDK's [NestedEncode]: numbers in their full
    width, byte buffers and big integers after their length, lists after their
    number of elements, enums and options after a discriminant, structs as
    their fields in order. *)

Definition nested_buffer (b : bytes) : bytes := be_bytes 4 (N.of_nat (length b)) ++ b.
Definition nested_biguint (n : N) : bytes := nested_buffer (be_bytes (N.to_nat ((N.size n + 7) / 8)) n).
Definition nested_list {A} (f : A → bytes) (l : list A) : bytes :=
  be_bytes 4 (N.of_nat (length l)) ++ mjoin (f <$> l).
Definition nested_option {A} (f : A → bytes) (o : option A) : bytes :=
  match o with Some a => 1 :: f a | None => [0] end.
Definition nested_bool (b : bool) : bytes := [if b then 1 else 0].

Definition nested_comparator (c : Comparator) : bytes :=
  [match c with Gt => 0 | Lt => 1 | Eq => 2 | Gte => 3 | Lte => 4 end].
Definition nested_status (s : TaskStatus) : bytes :=
  [match s with Pending => 0 | Committed => 1 | Executing => 2 | Completed => 3 | Failed => 4
   | Cancelled => 5 | Expired => 6 end].

Definition nested_trigger (t : Trigger) : bytes :=
  match t with
  | TimeOnce target_time => 0 :: be_bytes 8 target_time
  | TimeRecurring start_time interval remaining_execs =>
      1 :: be_bytes 8 start_time ++ be_bytes 8 interval ++ be_bytes 8 remaining_execs
  | StateDriven oracle ep args c threshold =>
      2 :: addr_bytes oracle ++ nested_buffer ep ++ nested_list nested_buffer args ++
      nested_comparator c ++ nested_biguint threshold
  | EventDriven emitter topic => 3 :: addr_bytes emitter ++ nested_buffer topic
  | QuantumSealedHash h => 4 :: h
  end.

Definition nested_task (t : Task) : bytes :=
  be_bytes 8 (t_id t) ++ addr_bytes (t_owner t) ++ addr_bytes (t_target_contract t) ++
  nested_buffer (t_target_endpoint t) ++ nested_list nested_buffer (t_target_args t) ++
  nested_trigger (t_trigger t) ++ be_bytes 8 (t_max_gas t) ++ nested_biguint (t_deposit t) ++
  [t_max_retries t] ++ [t_retry_count t] ++ be_bytes 8 (t_ttl_seconds t) ++ be_bytes 8 (t_created_at t) ++
  nested_status (t_status t) ++ nested_option addr_bytes (t_assigned_keeper t) ++
  be_bytes 8 (t_completed_at t) ++ nested_option (be_bytes 8) (t_post_task_id t) ++
  nested_bool (t_require_xwap_safe t) ++ nested_bool (t_confidential t).

(** The task a keeper schedules. *)
Definition fresh_task (id : N) (owner target : address) (ep : bytes) (args : list bytes)
    (trigger : Trigger) (max_gas : N) : Task :=
  MkTask id owner target ep args trigger max_gas 0 0 0 0 0 Pending None 0 None false false.

Lemma hex_number w n : n < 256 ^ N.of_nat (S w) → format_0x (2 * S w) n = hex_of (be_bytes (S w) n).
Proof.
  intros Hn. rewrite <- hex_fixed_bytes. replace (2 * S w)%nat with (S (S (2 * w))) by lia.
  apply format_0x_fixed. replace (N.of_nat (S (S (2 * w)))) with (2 * N.of_nat (S w)) by lia.
  by rewrite N.pow_mul_r.
Qed.

Definition fits_u32 (n : nat) : Prop := N.of_nat n < 256 ^ 4.

Lemma hex_buffer_of b : octets b → fits_u32 (length b) → hex_buffer (hex_of b) = hex_of (nested_buffer b).
Proof.
  intros Hb Hl. unfold hex_buffer, nested_buffer. rewrite hex_of_length, hex_of_app by done. f_equal.
  rewrite Nat2N.inj_mul, N.mul_comm, N.div_mul by done. by apply (hex_number 3).
Qed.

Lemma hex_buffers args :
  Forall octets args → Forall (λ a, fits_u32 (length a)) args →
  foldr (λ a rest, hex_buffer a +:+ rest) "" (hex_of <$> args) = hex_of (mjoin (nested_buffer <$> args)).
Proof.
  induction 1 as [|a args Ha _ IH]; intros Hl; [done|]. inversion_clear Hl.
  cbn [fmap list_fmap foldr mjoin list_join]. rewrite hex_of_app, hex_buffer_of by done. f_equal. by apply IH.
Qed.

Lemma task_hex_eq id owner target ep args trigger ty rest max_gas :
  id < u64_mod → max_gas < u64_mod →
  octets ep → fits_u32 (length ep) →
  Forall octets args → Forall (λ a, fits_u32 (length a)) args → fits_u32 (length args) →
  nested_trigger trigger = ty :: rest →
  serialize_quantum_task_hex id (hex_of (addr_bytes owner)) (hex_of (addr_bytes target)) (hex_of ep)
    (hex_of <$> args) ty (hex_of rest) max_gas =
  hex_of (nested_task (fresh_task id owner target ep args trigger max_gas)).
Proof.
  intros Hid Hgas Hep Hepl Hargs Hargl Hl Htr.
  assert (ty < 256) as Hty by (destruct trigger; injection Htr as <- _; done).
  unfold serialize_quantum_task_hex, nested_task, nested_list. cbn [t_id t_owner t_target_contract
    t_target_endpoint t_target_args t_trigger t_max_gas fresh_task].
  rewrite Htr, !hex_of_app, length_fmap, hex_buffer_of, hex_buffers by done.
  rewrite (hex_number 7 id Hid : format_0x 16 id = _), (hex_number 7 max_gas Hgas : format_0x 16 max_gas = _),
    (hex_number 3 _ Hl : format_0x 8 (N.of_nat (length args)) = _).
  cbn [hex_of]. rewrite <- !string_app_assoc. reflexivity.
Qed.

(** C27: the hexadecimal task is the task.  For arguments within their widths,
    [serialize_quantum_task_hex], given the hexadecimal forms of the addresses,
    the endpoint, the arguments and the trigger, writes exactly the nested
    encoding of the fresh task of these fields, the one the Scheduler decodes. *)
Theorem task_hex_encodes id owner target ep args trigger ty rest max_gas :
  id < u64_mod → max_gas < u64_mod →
  octets ep → fits_u32 (length ep) →
  Forall octets args → Forall (λ a, fits_u32 (length a)) args → fits_u32 (length args) →
  nested_trigger trigger = ty :: rest →
  serialize_quantum_task_hex id (hex_of (addr_bytes owner)) (hex_of (addr_bytes target)) (hex_of ep)
    (hex_of <$> args) ty (hex_of rest) max_gas =
  hex_of (nested_task (fresh_task id owner target ep args trigger max_gas)).
Proof. apply task_hex_eq. Qed.

(** [generate_schedule_payload] passes the discriminant of the trigger twice, in
    the type and in the data: its payload is one byte longer than the task with
    that time trigger, whatever the time. *)
Lemma schedule_payload_malformed `{Crates} now target t :
  hex_encode (string_bytes "ping") = "70696e67" →
  generate_schedule_payload now ≠
  string_bytes ("scheduleQuantumTask@" +:+
    hex_of (nested_task (fresh_task 40000000 0 target (string_bytes "ping") [] (TimeOnce t) 30000000))).
Proof.
  intros Hhex Heq. unfold generate_schedule_payload in Heq. rewrite Hhex in Heq.
  rewrite <- (task_hex_eq _ _ _ _ [] (TimeOnce t) 0 (be_bytes 8 t)) in Heq;
    [|done|done|repeat constructor|done|constructor|constructor|done|done].
  apply (f_equal length) in Heq. unfold string_bytes in Heq. rewrite !length_map in Heq.
  assert (∀ s, length (chars s) = String.length s) as Hlen by (induction s; simpl; auto).
  rewrite !Hlen in Heq. unfold serialize_quantum_task_hex in Heq.
  rewrite !string_length_app in Heq.
  rewrite (hex_number 7 (u64_add now 30) (N.mod_lt _ u64_mod ltac:(done)) : format_0x 16 _ = _) in Heq.
  unfold addr_bytes in Heq. rewrite !hex_of_length, !be_bytes_length in Heq by apply be_bytes_bounded.
  vm_compute in Heq. discriminate.
Qed.

(** ** Samples *)

Ltac solve_quote_free := repeat constructor; intros Hc; vm_compute in Hc; discriminate.

Definition sample_tx : Transaction :=
  MkTransaction 42 "1000" "erd1receiver" "erd1sender" 1000000000 50000 (Some "cGluZw==") "D" 1 None None None None.

Lemma signature_covers_witness :
  serialize_for_signing sample_tx ≠ serialize_for_signing (sample_tx <| relayer := Some "erd1relayer" |>) ∧
  unsigned sample_tx = unsigned (sample_tx <| signature := Some "00" |>).
Proof.
  assert (printable sample_tx) as Hp.
  { split; try (intros ? [=]; subst); solve_quote_free. }
  destruct (signature_covers sample_tx (sample_tx <| signature := Some "00" |>) "erd1relayer") as [H1 H2].
  - exact Hp.
  - destruct Hp. by split.
  - solve_quote_free.
  - split; [|apply H1; reflexivity]. intros Heq. by apply H2 in Heq.
Defined.

Lemma task_hex_encodes_witness :
  serialize_quantum_task_hex 42 (hex_of (addr_bytes 7)) (hex_of (addr_bytes 9)) "70696e67" [] 0
    "0000000000000064" 30000000 =
  hex_of (nested_task (fresh_task 42 7 9 [112; 105; 110; 103] [] (TimeOnce 100) 30000000)).
Proof.
  apply (task_hex_encodes 42 7 9 [112; 105; 110; 103] [] (TimeOnce 100) 0 (be_bytes 8 100) 30000000);
    first [reflexivity | repeat constructor].
Defined.
