(* ===== verification/KeeperNet.v ===== *)
(** The keeper's access to the network (xcron-keeper-rs/src/network.rs,
    dispatcher.rs, wallet.rs): the list of gateways, the nonce several of them
    must agree on, and the dispatch of a task with its wait for finality.  What
    the gateways answer is an argument. *)

From S2P Require Import Prelude RustStd KeeperTx.

(** An index out of range, or a remainder by 0, panics. *)
Definition PANIC : string := "panic".

(** ** network.rs *)

Record MultiversXNetwork := MkNetwork {
  base_urls : list string;
  current_index : N;
}.
#[export] Instance MultiversXNetwork_eta : Settable MultiversXNetwork := λ n,
  MkNetwork (base_urls n) (current_index n).

Definition new_network (primary_url : string) : MultiversXNetwork :=
  MkNetwork
    (filter (λ s, s ≠ "")
      ((λ s, trim_end (λ c, bool_decide (c = "/"%char)) (trim s)) <$> split_on "," primary_url))
    0.

Definition url_at (net : MultiversXNetwork) (i : N) : result string :=
  match base_urls net with
  | [] => Err PANIC
  | urls => match urls !! N.to_nat (i mod N.of_nat (length urls)) with Some u => Ok u | None => Err PANIC end
  end.

(** Addresses of the gateways of a shard. *)
Definition target_ip_snippet (shard : N) : list string :=
  if decide (shard = 0) then ["5.189"; "178.156"]
  else if decide (shard = 1) then ["86.48"] else ["127.0"].

Definition matching_urls (urls : list string) (shard : N) : list string :=
  mjoin ((λ url, (λ _, url) <$> filter (λ snippet, contains url snippet = true) (target_ip_snippet shard)) <$> urls).

(** The URL, and the network with its counter advanced. *)
Definition get_url_for_shard (net : MultiversXNetwork) (shard : N) : result (string * MultiversXNetwork) :=
  match base_urls net with
  | [url] => Ok (url, net)
  | urls =>
      let matching := matching_urls urls shard in
      let idx := current_index net in
      let net' := net <| current_index := u64_add idx 1 |> in
      match url_at (MkNetwork (if decide (matching = []) then urls else matching) 0) idx with
      | Ok url => Ok (url, net')
      | Err x => Err x
      end
  end.

(** What one gateway answers for the nonce of an account:
    [fetch_nonce_single_node]. *)
Abbreviation nonce_answer := (string → result N).

Definition CONSENSUS_FAILED : string :=
  "Eclipse Attack or Severe Network Desync Detected. Nonce consensus failed.".
Definition ALL_FAILED : string := "All RPC nodes failed to provide a nonce.".

(** The gateways asked: [k] of them from the current one. *)
Definition polled (net : MultiversXNetwork) (k : nat) : list (result string) :=
  (λ i, url_at net (u64_add (current_index net) (N.of_nat i))) <$> seq 0 k.

Fixpoint collect (answer : nonce_answer) (urls : list (result string)) : result (list N) :=
  match urls with
  | [] => Ok []
  | Err x :: _ => Err x
  | Ok url :: rest =>
      match collect answer rest with
      | Ok ns => Ok (match answer url with Ok n => n :: ns | Err _ => ns end)
      | Err x => Err x
      end
  end.

Definition agree (nonces_collected : list N) : result N :=
  match nonces_collected with
  | [] => Err ALL_FAILED
  | [n] => Ok n
  | n0 :: n1 :: rest =>
      if decide (n0 = n1) then Ok n0
      else match rest with
           | [n2] => if decide (n0 = n2) then Ok n0
                     else if decide (n1 = n2) then Ok n1 else Err CONSENSUS_FAILED
           | _ => Err CONSENSUS_FAILED
           end
  end.

Definition fetch_nonce (net : MultiversXNetwork) (answer : nonce_answer) : result N :=
  let max_nodes_to_ping := Nat.min (length (base_urls net)) 3 in
  if decide (max_nodes_to_ping ≤ 1)%nat then
    match base_urls net with url :: _ => answer url | [] => Err PANIC end
  else
    match collect answer (polled net max_nodes_to_ping) with
    | Ok nonces_collected => agree nonces_collected
    | Err x => Err x
    end.

(** ** wallet.rs *)

(** The bech32 crate: the bytes of an address. *)
Class Bech32 := bech32_bytes : string → option bytes.

Definition get_shard `{Bech32} (bech32_addr : string) (num_shards : N) : result N :=
  match bech32_bytes bech32_addr with
  | Some b =>
      match last b with
      | Some x => if decide (num_shards = 0) then Err PANIC else Ok (x mod num_shards)
      | None => Ok 0
      end
  | None => Ok 0
  end.

Definition bech32_to_hex `{Bech32} `{Crates} (bech32_addr : string) : string :=
  match bech32_bytes bech32_addr with
  | Some ((_ :: _) as b) => hex_encode b
  | _ => "0000000000000000000000000000000000000000000000000000000000000000"
  end.

(** ** dispatcher.rs *)

Record DispatchReceipt := MkReceipt {
  r_status : string;
  r_tx_hash_or_id : string;
  r_gas_used : option N;
  r_timestamp : N;
}.

Record ExecutionTask := MkExecutionTask {
  task_id : string;
  payload_bytes : bytes;
  task_receiver : string;
  task_value : string;
  task_gas_limit : N;
}.

Record KeeperWallet `{Crates} := MkWallet {
  wallet_key : SigningKey;
  bech32_address : string;
}.

Definition REJECTED (status : string) : string := "Hyperblock rejected the transaction: " +:+ status.
Definition NOT_FINAL : string :=
  "Transaction broadcasted but Supernova finality could not be verified in time. Queued for retry.".

Definition FINALITY_ATTEMPTS : nat := 5.

(** The polls of the status: whether the transaction is final. *)
Fixpoint watch (statuses : nat → result string) (attempts : list nat) : result bool :=
  match attempts with
  | [] => Ok false
  | i :: rest =>
      match statuses i with
      | Ok status =>
          if decide (status = "success") then Ok true
          else if decide (status ∈ ["invalid"; "dropped"; "fail"]) then Err (REJECTED status)
          else watch statuses rest
      | Err _ => watch statuses rest
      end
  end.

(** [MultiversXDispatcher::dispatch]: [broadcast] and [statuses] are the answers
    of the network, [now] the time of the receipt.  The second component is the
    transaction that was broadcast. *)
Definition dispatch `{Crates} (dispatcher_chain_id : string) (task : ExecutionTask) (wallet : KeeperWallet)
    (tx_nonce : N) (broadcast : Transaction → result string) (statuses : string → nat → result string)
    (now : N) : result DispatchReceipt * option Transaction :=
  let tx := new tx_nonce (task_value task) (task_receiver task) (bech32_address wallet) 1000000000
              (task_gas_limit task) (Some (payload_bytes task)) dispatcher_chain_id 1 in
  match sign tx (wallet_key wallet) with
  | Err x => (Err x, None)
  | Ok tx =>
      match broadcast tx with
      | Err x => (Err x, Some tx)
      | Ok tx_hash =>
          (match watch (statuses tx_hash) (seq 1 FINALITY_ATTEMPTS) with
           | Err x => Err x
           | Ok false => Err NOT_FINAL
           | Ok true => Ok (MkReceipt "success" tx_hash (Some (task_gas_limit task)) now)
           end, Some tx)
      end
  end.

(** ** Properties *)

(** The answers of the gateways asked. *)
Definition heard (answer : nonce_answer) (asked : list string) : list N :=
  omap (λ u, match answer u with Ok n => Some n | Err _ => None end) asked.

Definition votes (n : N) (hs : list N) : nat := length (filter (λ m, m = n) hs).

Lemma collect_heard answer asked : collect answer (Ok <$> asked) = Ok (heard answer asked).
Proof.
  induction asked as [|u asked IH]; [done|]. cbn [collect fmap list_fmap]. rewrite IH. unfold heard.
  simpl. by destruct (answer u).
Qed.

Lemma heard_length answer asked : (length (heard answer asked) ≤ length asked)%nat.
Proof.
  unfold heard. induction asked as [|u asked IH]; [done|]. simpl.
  destruct (answer u); simpl; unfold omap in IH; lia.
Qed.

Lemma agree_majority hs n :
  (length hs ≤ 3)%nat → (2 ≤ votes n hs)%nat → agree hs = Ok n.
Proof.
  unfold votes. intros Hl Hv.
  destruct hs as [|a [|b [|c [|]]]]; simpl in *; try lia; rewrite ?filter_cons, ?filter_nil in Hv;
    repeat case_decide; simplify_eq/=; done || lia.
Qed.

Lemma agree_sound hs n :
  agree hs = Ok n → (2 ≤ votes n hs)%nat ∨ hs = [n].
Proof.
  unfold votes. intros Ha.
  destruct hs as [|a [|b [|c [|]]]]; simpl in *; try done; rewrite ?filter_cons, ?filter_nil;
    repeat case_decide; simplify_eq/=; try done; auto; left; simpl; lia.
Qed.

(** Consecutive indices fall on different gateways. *)
Lemma mod_inj l a b : l ≠ 0 → a ≤ b → b - a < l → a mod l = b mod l → a = b.
Proof.
  intros Hl Hab Hd Heq. pose proof (N.div_mod a l Hl). pose proof (N.div_mod b l Hl).
  assert (a / l = b / l) as Hq; [|rewrite Hq in *; lia].
  pose proof (N.Div0.div_le_mono a b l Hab). nia.
Qed.

Definition index_of (net : MultiversXNetwork) (i : nat) : nat :=
  N.to_nat (u64_add (current_index net) (N.of_nat i) mod N.of_nat (length (base_urls net))).

Lemma index_of_inj net i j :
  current_index net + 3 ≤ u64_mod → (i < 3)%nat → (j < 3)%nat →
  (i < length (base_urls net))%nat → (j < length (base_urls net))%nat →
  index_of net i = index_of net j → i = j.
Proof.
  intros Hc Hi Hj Hil Hjl Heq. unfold index_of in Heq. apply N2Nat.inj in Heq.
  rewrite !u64_add_small in Heq by lia.
  destruct (decide (i ≤ j)%nat) as [Hle|Hle].
  - apply mod_inj in Heq; lia.
  - symmetry in Heq. apply mod_inj in Heq; lia.
Qed.

(** The gateways asked, in order. *)
Definition asked_urls (net : MultiversXNetwork) (k : nat) : list string :=
  (λ i, default "" (base_urls net !! index_of net i)) <$> seq 0 k.

Lemma index_of_lookup net i : base_urls net ≠ [] → is_Some (base_urls net !! index_of net i).
Proof.
  intros Hne. apply lookup_lt_is_Some. unfold index_of.
  assert (N.of_nat (length (base_urls net)) ≠ 0) as Hl by (by destruct (base_urls net)).
  pose proof (N.mod_lt (u64_add (current_index net) (N.of_nat i)) _ Hl). lia.
Qed.

Lemma polled_asked net k : base_urls net ≠ [] → polled net k = Ok <$> asked_urls net k.
Proof.
  intros Hne. unfold polled, asked_urls. rewrite <- list_fmap_compose. apply list_fmap_ext.
  intros _ i _. simpl. destruct (index_of_lookup net i Hne) as [u Hu]. rewrite Hu. simpl.
  unfold url_at, index_of in *. destruct (base_urls net); [done|]. by rewrite Hu.
Qed.

Lemma asked_distinct net k :
  current_index net + 3 ≤ u64_mod → NoDup (base_urls net) → (k ≤ 3)%nat → (k ≤ length (base_urls net))%nat →
  NoDup (asked_urls net k).
Proof.
  intros Hc Hnd Hk Hl. destruct (decide (base_urls net = [])) as [Hnil|Hne].
  { rewrite Hnil in Hl. simpl in Hl. replace k with 0%nat by lia. constructor. }
  apply NoDup_fmap_2_strong; [|apply NoDup_seq].
  intros i j Hi%elem_of_seq Hj%elem_of_seq Heq.
  destruct (index_of_lookup net i Hne) as [u Hu], (index_of_lookup net j Hne) as [v Hv].
  rewrite Hu, Hv in Heq. simpl in Heq. subst v.
  apply (index_of_inj net); try lia. by eapply NoDup_lookup.
Qed.

(** C28: the nonce is agreed.  With at least two gateways, [fetch_nonce] asks
    two or three different ones.  A nonce that two of them report is the
    result, whatever the third says or if it is silent; and a result is
    reported by two of them, unless only one answered at all. *)
Theorem nonce_consensus net answer :
  (1 < length (base_urls net))%nat → NoDup (base_urls net) → current_index net + 3 ≤ u64_mod →
  ∃ asked, NoDup asked ∧ asked ⊆ base_urls net ∧ length asked = Nat.min (length (base_urls net)) 3 ∧
  (∀ n, (2 ≤ votes n (heard answer asked))%nat → fetch_nonce net answer = Ok n) ∧
  (∀ n, fetch_nonce net answer = Ok n →
     (2 ≤ votes n (heard answer asked))%nat ∨ heard answer asked = [n]).
Proof.
  intros Hl Hnd Hc. set (k := Nat.min (length (base_urls net)) 3).
  assert (base_urls net ≠ []) as Hne by (intros Hnil; rewrite Hnil in Hl; simpl in Hl; lia).
  assert (fetch_nonce net answer = agree (heard answer (asked_urls net k))) as Hf.
  { unfold fetch_nonce. fold k. rewrite decide_False by lia. by rewrite (polled_asked _ _ Hne), collect_heard. }
  exists (asked_urls net k). split_and!.
  - apply asked_distinct; done || lia.
  - intros u (i & -> & _)%list_elem_of_fmap. destruct (index_of_lookup net i Hne) as [v Hv].
    rewrite Hv. simpl. by eapply list_elem_of_lookup_2.
  - unfold asked_urls. by rewrite length_fmap, length_seq.
  - intros n Hv. rewrite Hf. apply agree_majority; [|done].
    pose proof (heard_length answer (asked_urls net k)) as Hh. unfold asked_urls in Hh at 2.
    rewrite length_fmap, length_seq in Hh. lia.
  - intros n. rewrite Hf. apply agree_sound.
Qed.

Lemma nonce_consensus_witness :
  let net := new_network " http://a/, http://b,http://c//,http://d" in
  let answer url := if decide (url = "http://b") then Ok 8 else Ok 7 in
  (1 < length (base_urls net))%nat ∧ fetch_nonce net answer = Ok 7 ∧
  ∃ asked, NoDup asked ∧ asked ⊆ base_urls net ∧ length asked = Nat.min (length (base_urls net)) 3 ∧
  (∀ n, (2 ≤ votes n (heard answer asked))%nat → fetch_nonce net answer = Ok n) ∧
  (∀ n, fetch_nonce net answer = Ok n →
     (2 ≤ votes n (heard answer asked))%nat ∨ heard answer asked = [n]).
Proof.
  intros net answer. split_and!.
  - vm_compute. lia.
  - by vm_compute.
  - apply (nonce_consensus net answer).
    + vm_compute. lia.
    + apply (bool_decide_unpack _). by vm_compute.
    + by vm_compute.
Defined.

(** A status that ends the watch with an error. *)
Definition refused (status : string) : Prop := status ∈ ["invalid"; "dropped"; "fail"].

Lemma watch_true statuses attempts :
  watch statuses attempts = Ok true ↔
  ∃ before i after, attempts = before ++ i :: after ∧ statuses i = Ok "success" ∧
    ∀ j s, j ∈ before → statuses j = Ok s → ¬ refused s.
Proof.
  unfold refused. split.
  - induction attempts as [|i rest IH]; [done|]. cbn [watch]. intros Hw.
    destruct (statuses i) as [s|x] eqn:Hs.
    + case_decide; [subst s; exists [], i, rest; split_and!; [done..|set_solver]|].
      case_decide; [done|]. destruct (IH Hw) as (b & k & a & -> & Hk & Hb).
      exists (i :: b), k, a. split_and!; [done..|]. intros j s' [->|Hj]%elem_of_cons Hs'; [|by eapply Hb].
      rewrite Hs in Hs'. by injection Hs' as <-.
    + destruct (IH Hw) as (b & k & a & -> & Hk & Hb). exists (i :: b), k, a. split_and!; [done..|].
      intros j s' [->|Hj]%elem_of_cons Hs'; [by rewrite Hs in Hs'|by eapply Hb].
  - intros (b & i & a & -> & Hi & Hb). induction b as [|j b IH]; cbn [watch app].
    + rewrite Hi. by rewrite decide_True.
    + assert (watch statuses (b ++ i :: a) = Ok true) as Hw by (apply IH; set_solver).
      destruct (statuses j) as [s|] eqn:Hj; [|done]. case_decide; [done|].
      rewrite decide_False; [done|]. apply (Hb j); [set_solver|done].
Qed.

(** The transaction of a task. *)
Definition task_tx `{Crates} (chain : string) (task : ExecutionTask) (w : KeeperWallet) (tx_nonce : N) : Transaction :=
  new tx_nonce (task_value task) (task_receiver task) (bech32_address w) 1000000000
    (task_gas_limit task) (Some (payload_bytes task)) chain 1.

(** A dispatched task is final.  [dispatch] returns a receipt exactly when
    the task's transaction was signed and broadcast and one of the five polls
    says "success" with no poll before it saying "invalid", "dropped" or
    "fail"; the receipt carries the hash that the network returned.  When no
    poll decides, the result is an error although the transaction is out. *)
Theorem dispatch_final `{Crates} chain task w tx_nonce broadcast statuses now :
  let d := dispatch chain task w tx_nonce broadcast statuses now in
  let signed := sign (task_tx chain task w tx_nonce) (wallet_key w) in
  (∀ r, d.1 = Ok r ↔
     ∃ tx hash before i after, signed = Ok tx ∧ broadcast tx = Ok hash ∧
       [1; 2; 3; 4; 5]%nat = before ++ i :: after ∧ statuses hash i = Ok "success" ∧
       (∀ j s, j ∈ before → statuses hash j = Ok s → ¬ refused s) ∧
       r = MkReceipt "success" hash (Some (task_gas_limit task)) now) ∧
  (∀ tx hash, signed = Ok tx → broadcast tx = Ok hash →
     (∀ i s, i ∈ [1; 2; 3; 4; 5]%nat → statuses hash i = Ok s → s ≠ "success" ∧ ¬ refused s) →
     d = (Err NOT_FINAL, Some tx)).
Proof.
  intros d signed. unfold d, dispatch. fold (task_tx chain task w tx_nonce). fold signed.
  change (seq 1 FINALITY_ATTEMPTS) with [1; 2; 3; 4; 5]%nat. split.
  - intros r. destruct signed as [tx|x]; [|split; [done|by intros (? & ? & ? & ? & ? & ? & _)]].
    destruct (broadcast tx) as [hash|x] eqn:Hb; [|split; [done|intros (? & ? & ? & ? & ? & [=<-] & ? & _); congruence]].
    cbn [fst].
    pose proof (watch_true (statuses hash) [1; 2; 3; 4; 5]%nat) as Hw.
    destruct (watch _ _) as [[]|x]; (split; [intros Hr; simplify_eq/=|]).
    { destruct Hw as [(b & i & a & ?) _]; [done|]. exists tx, hash, b, i, a. naive_solver. }
    all: intros (tx' & hash' & b & i & a & [= <-] & Hb' & ? & ? & ? & ->); rewrite Hb in Hb'; injection Hb' as <-;
      naive_solver.
  - intros tx hash -> Hb Hp. rewrite Hb. f_equal.
    assert (watch (statuses hash) [1; 2; 3; 4; 5]%nat = Ok false) as ->; [|done].
    generalize dependent [1; 2; 3; 4; 5]%nat. intros l Hp. induction l as [|i l IH]; [done|]. cbn [watch].
    rewrite IH by set_solver. destruct (statuses hash i) as [s|] eqn:Hs; [|done].
    destruct (Hp i s) as [??]; [set_solver|done|]. rewrite decide_False by done. by rewrite decide_False.
Qed.
