(* ===== verification/Broadcast.v ===== *)
(** How the keeper puts transactions on the network
    (xcron-keeper-rs/src/network.rs): one request to every gateway at once,
    decided by the first that accepts; the requests for nonces and statuses; and the latency it measures before
    (sniffer.rs).  What each gateway answers, and the order in which the
    answers arrive, are arguments. *)

From S2P Require Import Prelude RustStd KeeperTx KeeperNet.

(** ** network.rs *)

(** What comes back from one gateway: a transport error, or a status code and
    a body. *)
Inductive HttpAnswer :=
| NotSent (error : string)
| Answered (status : N) (body : string).

(** serde_json: the [code] and the [data] of the two kinds of response. *)
Class SendApi := {
  parse_send : string → option (option string * option string);
  parse_send_multiple : string → option (option string * option (gmap string string));
  json_of_txs : list Transaction → result string;
}.

Definition SHARD_MISMATCH : string := "different shard ID".
Definition success_status (status : N) : bool := bool_decide (status = 201) || bool_decide (status = 200).

(** The task of one gateway, for a response parsed by [parse] and a result
    taken from its data by [use]. *)
Definition gateway_task {D A} (parse : string → option (option string * option D)) (use : D → A)
    (answer : HttpAnswer) : result A :=
  match answer with
  | NotSent error => Err error
  | Answered status body =>
      if success_status status then
        match parse body with
        | Some (code, data) =>
            if decide (code = Some "successful") then
              match data with Some d => Ok (use d) | None => Err body end
            else Err body
        | None => Err body
        end
      else if contains body "different shard ID" then Err SHARD_MISMATCH
      else Err body
  end.

(** [futures::future::select_ok] on tasks that end in this order: the first
    success, or the last error; it panics without tasks. *)
Fixpoint select_ok {A} (ended : list (result A)) : result A :=
  match ended with
  | [] => Err PANIC
  | [r] => r
  | Ok a :: _ => Ok a
  | Err _ :: rest => select_ok rest
  end.

Section broadcast.
Context `{Crates, !SendApi}.

(** [gateways] is the order in which the answers of [base_urls] arrive. *)
Definition hedged {A} (task : HttpAnswer → result A) (route failed : string) (answer : string → HttpAnswer)
    (gateways : list string) : result A :=
  match gateways with
  | [] => Err PANIC
  | _ =>
      match select_ok ((λ base_url, task (answer (base_url +:+ route))) <$> gateways) with
      | Ok a => Ok a
      | Err e => Err (failed +:+ e)
      end
  end.

Definition SEND_FAILED : string := "Hedged Broadcast Failed on all nodes. Last Error: ".
Definition BATCH_FAILED : string := "Hedged Batch Broadcast Failed. Last Error: ".

(** The answers may depend on what is posted. *)
Definition broadcast_tx (answer : string → string → HttpAnswer) (gateways : list string) (tx : Transaction)
  : result string :=
  match json_of_tx tx with
  | Err x => Err x
  | Ok payload =>
      hedged (gateway_task parse_send id) "/transaction/send" SEND_FAILED (answer payload) gateways
  end.

Definition broadcast_tx_batch (answer : string → string → HttpAnswer) (gateways : list string)
    (txs : list Transaction) : result N :=
  match txs with
  | [] => Ok 0
  | _ =>
      match json_of_txs txs with
      | Err x => Err x
      | Ok payload =>
          hedged (gateway_task parse_send_multiple (λ hashes, N.of_nat (size hashes)))
            "/transaction/send-multiple" BATCH_FAILED (answer payload) gateways
      end
  end.
End broadcast.

(** serde_json and reqwest: the account and the error of an account response
    ([None] when the body does not parse), the status of a status response, and
    the name of a status code. *)
Class AccountApi := {
  parse_account : string → option (option N * option string);
  parse_status : string → option (option string);
  status_name : N → string;
}.
Definition NOT_JSON : string := "the response is not the expected JSON".
Definition NO_STATUS : string := "Status not found in response".

Section requests.
Context `{!AccountApi}.

(** [answer url] is what comes back from a GET. *)
Definition fetch_nonce_single_node (answer : string → HttpAnswer) (address base_url : string) : result N :=
  match answer (base_url +:+ "/address/" +:+ address) with
  | NotSent error => Err error
  | Answered status body =>
      if decide (status ≠ 200) then Err ("Failed to fetch nonce. Status: " +:+ status_name status)
      else
        match parse_account body with
        | None => Err NOT_JSON
        | Some (Some account_nonce, _) => Ok account_nonce
        | Some (None, error) => Err ("API Error: " +:+ default "" error)
        end
  end.

Definition fetch_tx_status (net : MultiversXNetwork) (answer : string → HttpAnswer) (tx_hash : string) : result string :=
  match url_at net (current_index net) with
  | Err x => Err x
  | Ok base_url =>
      match answer (base_url +:+ "/transaction/" +:+ tx_hash +:+ "/status") with
      | NotSent error => Err error
      | Answered status body =>
          if decide (status ≠ 200) then Err "Failed to fetch tx status"
          else
            match parse_status body with
            | None => Err NOT_JSON
            | Some (Some s) => Ok s
            | Some None => Err NO_STATUS
            end
      end
  end.

(** The nonce of an address by the consensus of the gateways. *)
Definition fetch_account_nonce (net : MultiversXNetwork) (answer : string → HttpAnswer) (address : string) : result N :=
  fetch_nonce net (λ base_url, fetch_nonce_single_node answer address base_url).

(** dispatcher.rs: of the gateways, and of the endpoint of an agent. *)
Definition HEALTH_ADDRESS : string := "erd1qqqqqqqqqqqqqpgqjq6g52c9dxy7vtckspndqxhqmm0mmken7k8sahvvd5".
Definition health_check (net : MultiversXNetwork) (answer : string → HttpAnswer) : bool :=
  is_ok (fetch_account_nonce net answer HEALTH_ADDRESS).
Definition agent_health_check (answer : string → HttpAnswer) (secure_endpoint : string) : bool :=
  match answer secure_endpoint with
  | Answered status _ => bool_decide (200 ≤ status ∧ status < 300)
  | NotSent _ => false
  end.
End requests.

(** ** sniffer.rs *)

(** The pings that were answered, in nanoseconds: half of their mean, a
    [Duration] divided by integers. *)
Definition DEFAULT_LATENCY : N := 80 * 1000000.
Definition calibrate_network_latency (pings : list (option N)) : N :=
  let latencies := omap id pings in
  match latencies with
  | [] => DEFAULT_LATENCY
  | _ => foldr N.add 0 latencies / N.of_nat (length latencies) / 2
  end.

(** ** The race *)

Lemma select_ok_spec {A} (ended : list (result A)) a :
  select_ok ended = Ok a ↔
  ∃ before after, ended = before ++ Ok a :: after ∧ Forall (λ r, is_ok r = false) before.
Proof.
  induction ended as [|r rest IH]; [by split; [|intros ([|] & ? & ? & _)]|].
  assert (select_ok (r :: rest) = match r with Ok a => Ok a | Err e => match rest with [] => Err e | _ => select_ok rest end end)
    as -> by by destruct r, rest.
  split.
  - destruct r as [b|e]; [intros [= ->]; by exists [], rest|].
    destruct rest as [|r' rest']; [done|]. intros (before & after & -> & Hb)%IH.
    exists (Err e :: before), after. split; [done|]. by constructor.
  - intros (before & after & Heq & Hb). destruct before as [|x before]; simplify_eq/=; [done|].
    apply Forall_cons in Hb as [Hx Hb]. destruct x as [|e]; [done|].
    destruct (before ++ Ok a :: after) as [|y l] eqn:Hl; [by destruct before|]. apply IH. by exists before, after.
Qed.

Section race.
Context `{Crates, !SendApi}.

(** The hash a gateway answers when it accepts. *)
Definition accepts (answer : string → string → HttpAnswer) (payload base_url : string) : option string :=
  match gateway_task parse_send id (answer payload (base_url +:+ "/transaction/send")) with
  | Ok h => Some h
  | Err _ => None
  end.

(** The first gateway to accept. *)
Definition first_to_accept (answer : string → string → HttpAnswer) (payload : string) (gateways : list string)
    (hash : string) : Prop :=
  ∃ before g after, gateways = before ++ g :: after ∧ accepts answer payload g = Some hash ∧
    ∀ b, b ∈ before → accepts answer payload b = None.

Lemma broadcast_ok answer gateways tx hash :
  broadcast_tx answer gateways tx = Ok hash ↔
  ∃ payload, json_of_tx tx = Ok payload ∧ first_to_accept answer payload gateways hash.
Proof.
  unfold broadcast_tx, hedged, first_to_accept.
  destruct (json_of_tx tx) as [payload|x]; [|split; [done|by intros (? & ? & _)]].
  set (task g := gateway_task parse_send id (answer payload (g +:+ "/transaction/send"))).
  assert (Hacc : ∀ g h, task g = Ok h ↔ accepts answer payload g = Some h).
  { intros g h. unfold accepts. fold (task g). destruct (task g); naive_solver. }
  assert (Hno : ∀ g, is_ok (task g) = false ↔ accepts answer payload g = None).
  { intros g. unfold accepts. fold (task g). by destruct (task g). }
  assert (Hsel : select_ok (task <$> gateways) = Ok hash ↔
    ∃ before g after, gateways = before ++ g :: after ∧ accepts answer payload g = Some hash ∧
      ∀ b, b ∈ before → accepts answer payload b = None).
  { rewrite select_ok_spec. split.
    - intros (before & after & Heq & Hb). apply fmap_app_inv in Heq as (bs & gs & -> & Heq & ->).
      symmetry in Heq. apply fmap_cons_inv in Heq as (g & rest & Hg & -> & ->).
      exists bs, g, rest. split; [done|]. split; [by apply Hacc|]. intros b Hin. apply Hno.
      rewrite Forall_fmap, Forall_forall in Hb. by apply Hb.
    - intros (bs & g & rest & -> & Hg & Hb). exists (task <$> bs), (task <$> rest).
      rewrite fmap_app, fmap_cons. apply Hacc in Hg. rewrite Hg. split; [done|].
      rewrite Forall_fmap, Forall_forall. intros b Hin. by apply Hno, Hb. }
  destruct gateways as [|g0 gs].
  - split; [done|]. intros (p & _ & before & g & after & Heq & _). by destruct before.
  - destruct (select_ok _) as [a|e]; (split; [intros Heq|intros (p & [= <-] & Hex)]); simplify_eq.
    + exists payload. split; [done|]. by apply Hsel.
    + f_equal. apply Hsel in Hex. by injection Hex.
    + by apply Hsel in Hex.
Qed.

(** If one gateway accepts, one is the first to. *)
Lemma first_exists answer payload gateways g hash :
  g ∈ gateways → accepts answer payload g = Some hash → ∃ h, first_to_accept answer payload gateways h.
Proof.
  intros Hin Hg. induction gateways as [|g0 gs IH]; [set_solver|].
  destruct (accepts answer payload g0) as [h|] eqn:H0'.
  - exists h, [], g0, gs. split_and!; [done|done|set_solver].
  - apply elem_of_cons in Hin as [->|Hin]; [congruence|].
    destruct (IH Hin) as (h & bs & g' & rest & -> & Hg' & Hb).
    exists h, (g0 :: bs), g', rest. split_and!; [done|done|]. intros b [->|Hb']%elem_of_cons; [done|by apply Hb].
Qed.

Lemma first_accepts answer payload gateways hash :
  first_to_accept answer payload gateways hash → ∃ g, g ∈ gateways ∧ accepts answer payload g = Some hash.
Proof. intros (bs & g & rest & -> & Hg & _). exists g. split; [set_solver|done]. Qed.

(** C29: a task reaches the network through any gateway.  A dispatch over the
    race of all gateways returns a receipt exactly when the signed transaction
    serializes, some gateway accepts it, and the watch of the hash of the first
    to accept ends in "success"; the receipt carries that hash.  One accepting
    gateway is enough whatever the others do, and when all that accept name the
    same hash the result does not depend on the order in which they answer. *)
Theorem dispatch_over_gateways chain task w tx_nonce answer gateways statuses now :
  let run gs := (dispatch chain task w tx_nonce (broadcast_tx answer gs) statuses now).1 in
  let signed := sign (task_tx chain task w tx_nonce) (wallet_key w) in
  (∀ r, run gateways = Ok r ↔
     ∃ tx payload hash, signed = Ok tx ∧ json_of_tx tx = Ok payload ∧
       first_to_accept answer payload gateways hash ∧
       watch (statuses hash) [1; 2; 3; 4; 5]%nat = Ok true ∧
       r = MkReceipt "success" hash (Some (task_gas_limit task)) now) ∧
  (∀ tx payload g hash, signed = Ok tx → json_of_tx tx = Ok payload → g ∈ gateways →
     accepts answer payload g = Some hash → (∀ h, statuses h 1%nat = Ok "success") → ∃ r, run gateways = Ok r) ∧
  (∀ tx payload hash gateways', signed = Ok tx → json_of_tx tx = Ok payload → gateways' ≡ₚ gateways →
     (∀ g h, g ∈ gateways → accepts answer payload g = Some h → h = hash) →
     (∃ g, g ∈ gateways ∧ accepts answer payload g = Some hash) → run gateways' = run gateways).
Proof.
  intros run signed.
  assert (Hrun : ∀ gs r, run gs = Ok r ↔ ∃ tx payload hash, signed = Ok tx ∧ json_of_tx tx = Ok payload ∧
       first_to_accept answer payload gs hash ∧ watch (statuses hash) [1; 2; 3; 4; 5]%nat = Ok true ∧
       r = MkReceipt "success" hash (Some (task_gas_limit task)) now).
  { intros gs r. unfold run, dispatch. fold (task_tx chain task w tx_nonce). fold signed.
    change (seq 1 FINALITY_ATTEMPTS) with [1; 2; 3; 4; 5]%nat.
    destruct signed as [tx|x]; [|split; [done|by intros (? & ? & ? & ? & _)]].
    pose proof (broadcast_ok answer gs tx) as Hb. destruct (broadcast_tx answer gs tx) as [hash|x].
    - destruct (Hb hash) as [(payload & Hp & Hf) _]; [done|]. cbn [fst].
      assert (Hsame : ∀ h p, json_of_tx tx = Ok p → first_to_accept answer p gs h → h = hash)
        by (intros h p Hp' Hf'; destruct (Hb h) as [_ Hh]; cut (Ok hash = Ok h); [by intros [=]|apply Hh; eauto]).
      destruct (watch _ _) as [[]|x] eqn:Hw; (split; [intros Hr; simplify_eq|]).
      { exists tx, payload, hash. by split_and!. }
      all: intros (tx' & p & h & [= <-] & Hp' & Hf' & Hw' & ->); rewrite (Hsame h p Hp' Hf') in *; congruence.
    - split; [done|]. intros (tx' & p & h & [= <-] & Hp & Hf & _). destruct (Hb h) as [_ Hh].
      cut (Err x = Ok h); [done|]. apply Hh. eauto. }
  split_and!.
  - apply Hrun.
  - intros tx payload g hash Hs Hp Hin Hacc Hst. destruct (first_exists _ _ _ _ _ Hin Hacc) as [h Hf].
    eexists. apply Hrun. exists tx, payload, h. split_and!; [done|done|done| |done].
    cbn [watch]. by rewrite Hst, decide_True.
  - intros tx payload hash gateways' Hs Hp Hperm Hsame (g & Hin & Hacc).
    assert (Hb : ∀ gs, gs ≡ₚ gateways → broadcast_tx answer gs tx = Ok hash).
    { intros gs Hgs. apply broadcast_ok. exists payload. split; [done|].
      destruct (first_exists answer payload gs g hash) as [h Hf]; [by rewrite Hgs|done|].
      destruct (first_accepts _ _ _ _ Hf) as (g' & Hin' & Hg'). rewrite Hgs in Hin'.
      by rewrite <- (Hsame g' h Hin' Hg'). }
    unfold run, dispatch. fold (task_tx chain task w tx_nonce). fold signed. rewrite Hs.
    by rewrite !Hb.
Qed.
End race.

(** The measured latency lies between half of the fastest and half of the
    slowest ping, up to rounding. *)
Lemma sum_bounds (l : list N) lo hi :
  Forall (λ x, lo ≤ x ∧ x ≤ hi) l →
  N.of_nat (length l) * lo ≤ foldr N.add 0 l ∧ foldr N.add 0 l ≤ N.of_nat (length l) * hi.
Proof. induction 1 as [|x l Hx _ IH]; [done|]. cbn [foldr length]. rewrite Nat2N.inj_succ. lia. Qed.

Lemma latency_between pings lo hi :
  omap id pings ≠ [] → Forall (λ x, lo ≤ x ∧ x ≤ hi) (omap id pings) →
  lo / 2 ≤ calibrate_network_latency pings ∧ calibrate_network_latency pings ≤ hi / 2.
Proof.
  intros Hne Hall. unfold calibrate_network_latency.
  pose proof (sum_bounds _ _ _ Hall) as [Hlo Hhi]. destruct (omap id pings) as [|x l]; [done|].
  set (n := N.of_nat (length (x :: l))) in *. assert (n ≠ 0) as Hn by (unfold n; simpl; lia).
  split; apply N.Div0.div_le_mono.
  - apply N.div_le_lower_bound; done.
  - apply N.Div0.div_le_upper_bound. done.
Qed.

(** ** Witness *)

#[local] Instance toy_crates : Crates := {|
  SigningKey := unit;
  ed25519_sign _ _ := [];
  base64_encode _ := "";
  hex_encode _ := "";
  json_of_tx _ := Ok "tx";
|}.
#[local] Instance toy_api : SendApi := {|
  parse_send body := Some (Some "successful", Some body);
  parse_send_multiple _ := None;
  json_of_txs _ := Ok "txs";
|}.

Definition toy_wallet : KeeperWallet := MkWallet toy_crates tt "erd1w".

(** The second of two gateways accepts. *)
Definition toy_answer (payload url : string) : HttpAnswer :=
  if String.prefix "http://b" url then Answered 201 "h" else Answered 400 "different shard ID".

Lemma dispatch_over_gateways_witness :
  let task := MkExecutionTask "t" [1] "erd1x" "0" 5 in
  let run gs := (dispatch "T" task toy_wallet 0 (broadcast_tx toy_answer gs) (λ _ _, Ok "success") 9).1 in
  (∃ r, run ["http://a"; "http://b"] = Ok r) ∧ run ["http://b"; "http://a"] = run ["http://a"; "http://b"].
Proof.
  intros task run.
  destruct (dispatch_over_gateways "T" task toy_wallet 0 toy_answer ["http://a"; "http://b"]
    (λ _ _, Ok "success") 9) as (_ & Hone & Horder).
  destruct (sign (task_tx "T" task toy_wallet 0) (wallet_key toy_wallet)) as [tx|] eqn:Hs;
    [|vm_compute in Hs; discriminate Hs].
  split.
  - apply (Hone tx "tx" "http://b" "h"); [reflexivity|reflexivity|set_solver|by vm_compute|reflexivity].
  - apply (Horder tx "tx" "h"); [reflexivity|reflexivity|apply Permutation_swap| |].
    + intros g h Hin. rewrite !elem_of_cons, elem_of_nil in Hin. destruct Hin as [->|[->|[]]]; vm_compute; congruence.
    + exists "http://b". split; [set_solver|by vm_compute].
Defined.
