(* ===== verification/DripFunder.v ===== *)
(** The drip funder of the keeper daemon (xcron-keeper-rs/src/drip_funder.rs):
    it activates stealth addresses from the protocol's wallet, up to a daily
    cap, and sweeps what is left back.  The answers of the API and of the
    gateways are arguments, and the calls that run while one waits for the
    network are a function of the shared counters. *)

From S2P Require Import Prelude RustStd KeeperTx KeeperNet.

Record DripFunder := MkDripFunder {
  activation_amount : string;
  min_threshold : N;
  max_daily_drip_cap : N;
  daily_accumulator : N;
  last_reset_timestamp : N;
}.
#[export] Instance DripFunder_eta : Settable DripFunder := λ f,
  MkDripFunder (activation_amount f) (min_threshold f) (max_daily_drip_cap f)
    (daily_accumulator f) (last_reset_timestamp f).

(** [DripFunder::new]; the threshold in wei, which the code computes in
    floating point, is an argument. *)
Definition new_funder (amount : string) (threshold : N) : DripFunder :=
  MkDripFunder amount threshold 10000000000000000000 0 0.

Definition DAILY_LIMIT : string := "Drip rejected: daily limit exceeded.".

(** The window is reset even when the drip is then rejected. *)
Definition check_and_increment_drip (now amount : N) (f : DripFunder) : result unit * DripFunder :=
  let f := if decide (last_reset_timestamp f = 0 ∨ u64_add (last_reset_timestamp f) 86400 ≤ now)
           then f <| daily_accumulator := 0 |> <| last_reset_timestamp := now |> else f in
  if decide (max_daily_drip_cap f < u128_add (daily_accumulator f) amount) then (Err DAILY_LIMIT, f)
  else (Ok tt, f <| daily_accumulator := u128_add (daily_accumulator f) amount |>).

(** What the API says about an account: no contact, or a status code with, when
    the body parses, the balance and the nonce. *)
Inductive ApiAnswer :=
| Unreachable
| Answered (status : N) (account : option (string * N)).

Definition is_fresh (f : DripFunder) (api : ApiAnswer) : bool :=
  match api with
  | Unreachable => true
  | Answered status account =>
      if decide (status = 200) then
        match account with
        | Some (balance, account_nonce) =>
            bool_decide (default 0 (parse_u128 balance) < min_threshold f) && bool_decide (account_nonce = 0)
        | None => false
        end
      else bool_decide (status = 404)
  end.

Definition drip_amt (f : DripFunder) : N := default 0 (parse_u128 (activation_amount f)).

(** The accumulator after a failed broadcast. *)
Definition revert_drip (amount : N) (f : DripFunder) : DripFunder :=
  if decide (amount ≤ daily_accumulator f)
  then f <| daily_accumulator := daily_accumulator f - amount |> else f.

Section network.
Context `{Crates}.

Definition funding_tx (f : DripFunder) (relayer_nonce : N) (stealth_bech32 : string) (drip_wallet : KeeperWallet)
  : Transaction :=
  new relayer_nonce (activation_amount f) stealth_bech32 (bech32_address drip_wallet) 1000000000 50000 None "T" 1.

(** [others] is the effect of the calls that run while the transaction is being
    prepared and sent. *)
Definition ensure_stealth_activated (api : ApiAnswer) (now : N) (fetched : result N)
    (broadcast : Transaction → result string) (others : DripFunder → DripFunder)
    (stealth_bech32 : string) (drip_wallet : KeeperWallet) (f : DripFunder) : result bool * DripFunder :=
  if is_fresh f api then
    let amount := drip_amt f in
    match check_and_increment_drip now amount f with
    | (Err x, f) => (Err x, f)
    | (Ok _, f) =>
        match fetched with
        | Err x => (Err x, others f)
        | Ok relayer_nonce =>
            match sign (funding_tx f relayer_nonce stealth_bech32 drip_wallet) (wallet_key drip_wallet) with
            | Err x => (Err x, others f)
            | Ok tx =>
                match broadcast tx with
                | Ok _ => (Ok true, others f)
                | Err x => (Err x, revert_drip amount (others f))
                end
            end
        end
    end
  else (Ok false, f).

Definition NOTHING_TO_SWEEP : string := "Stealth Address has 0 balance, nothing to sweep.".

(** The sponsored transaction that returns the whole balance. *)
Definition sweep_tx (stealth_nonce stealth_balance : N) (stealth_wallet drip_wallet : KeeperWallet)
  : result Transaction :=
  let tx := (new stealth_nonce (pretty stealth_balance) (bech32_address drip_wallet)
              (bech32_address stealth_wallet) 1000000000 1000000 None "T" 2)
            <| relayer := Some (bech32_address drip_wallet) |> in
  match sign tx (wallet_key stealth_wallet) with
  | Ok tx => to_relayed_v3 tx (bech32_address drip_wallet) (wallet_key drip_wallet)
  | Err x => Err x
  end.

Definition sweep_residual (balance : result string) (fetched : result N) (broadcast : Transaction → result string)
    (stealth_wallet drip_wallet : KeeperWallet) : result string :=
  match balance with
  | Err x => Err x
  | Ok b =>
      let stealth_balance := default 0 (parse_u128 b) in
      if decide (stealth_balance = 0) then Err NOTHING_TO_SWEEP
      else
        match fetched with
        | Err x => Err x
        | Ok stealth_nonce =>
            match sweep_tx stealth_nonce stealth_balance stealth_wallet drip_wallet with
            | Ok tx => broadcast tx
            | Err x => Err x
            end
        end
  end.
End network.

(** ** The daily cap *)

(** What happens to the counters: a drip is checked, or the broadcast of one
    approved earlier fails. *)
Inductive DripEvent :=
| Checked (now amount : N)
| BroadcastFailed (window amount : N).

(** The drips that were approved and not reverted, each with its window. *)
Abbreviation drip_ledger := (list (N * N)).

Fixpoint window_total (w : N) (l : drip_ledger) : N :=
  match l with
  | [] => 0
  | (w', amount) :: l' => (if decide (w' = w) then amount else 0) + window_total w l'
  end.

(** A failure removes the drip from the ledger and reverts the counter. *)
Inductive drip_step : DripFunder * drip_ledger → DripEvent → DripFunder * drip_ledger → Prop :=
| drip_approved f l now amount f' :
    check_and_increment_drip now amount f = (Ok tt, f') →
    drip_step (f, l) (Checked now amount) (f', (last_reset_timestamp f', amount) :: l)
| drip_rejected f l now amount x f' :
    check_and_increment_drip now amount f = (Err x, f') →
    drip_step (f, l) (Checked now amount) (f', l)
| drip_reverted f l1 w amount l2 :
    drip_step (f, l1 ++ (w, amount) :: l2) (BroadcastFailed w amount) (revert_drip amount f, l1 ++ l2).

(** Clocks that move forward and fit, amounts that fit, and no failure after
    the end of the window of the drip. *)
Definition timely (f : DripFunder) (l : drip_ledger) (e : DripEvent) : Prop :=
  match e with
  | Checked now amount =>
      0 < now ∧ last_reset_timestamp f ≤ now ∧ now + 86400 < u64_mod ∧ max_daily_drip_cap f + amount < u128_mod
  | BroadcastFailed w _ => w = last_reset_timestamp f
  end.

Inductive drip_run : DripFunder * drip_ledger → list DripEvent → DripFunder * drip_ledger → Prop :=
| drip_done s : drip_run s [] s
| drip_more f l e s es s' :
    timely f l e → drip_step (f, l) e s → drip_run s es s' → drip_run (f, l) (e :: es) s'.

(** The counter is the total of the current window. *)
Record drip_inv (s : DripFunder * drip_ledger) : Prop := {
  drip_counted : daily_accumulator s.1 = window_total (last_reset_timestamp s.1) s.2;
  drip_capped : daily_accumulator s.1 ≤ max_daily_drip_cap s.1;
  drip_windows : Forall (λ d, d.1 ≤ last_reset_timestamp s.1) s.2;
  drip_clock : last_reset_timestamp s.1 + 86400 < u64_mod;
}.

Lemma window_total_app w l1 l2 : window_total w (l1 ++ l2) = window_total w l1 + window_total w l2.
Proof. induction l1 as [|[w' a] l1 IH]; [done|]. cbn [window_total app]. rewrite IH. lia. Qed.

Lemma window_total_fresh w l : Forall (λ d, d.1 < w) l → window_total w l = 0.
Proof.
  induction 1 as [|[w' a] l Hlt _ IH]; [done|]. cbn [window_total fst] in *.
  rewrite decide_False by lia. lia.
Qed.

(** The counter before a check, after the reset if one is due. *)
Definition opened (now : N) (f : DripFunder) : DripFunder :=
  if decide (last_reset_timestamp f = 0 ∨ last_reset_timestamp f + 86400 ≤ now)
  then f <| daily_accumulator := 0 |> <| last_reset_timestamp := now |> else f.

Lemma opened_inv f l now amount :
  drip_inv (f, l) → timely f l (Checked now amount) →
  drip_inv (opened now f, l) ∧ max_daily_drip_cap (opened now f) = max_daily_drip_cap f.
Proof.
  intros [Hc Hcap Hw Hk] (Hpos & Hmono & Hfit & _). unfold opened. case_decide as Hd; [|done]. simpl in *.
  split; [|done]. split; simpl; [| lia | | lia].
  - symmetry. apply window_total_fresh. eapply Forall_impl; [exact Hw|]. simpl. intros d ?. lia.
  - eapply Forall_impl; [exact Hw|]. simpl. intros d ?. lia.
Qed.

Lemma check_opened now amount f l :
  drip_inv (f, l) → timely f l (Checked now amount) →
  check_and_increment_drip now amount f =
    let f := opened now f in
    if decide (max_daily_drip_cap f < daily_accumulator f + amount) then (Err DAILY_LIMIT, f)
    else (Ok tt, f <| daily_accumulator := daily_accumulator f + amount |>).
Proof.
  intros Hinv Ht. pose proof (opened_inv _ _ _ _ Hinv Ht) as [[_ Hcap _ _] Hm].
  destruct Hinv as [_ _ _ Hk]. destruct Ht as (_ & _ & _ & Hamt). simpl in *.
  unfold check_and_increment_drip. rewrite u64_add_small by done. fold (opened now f).
  rewrite u128_add_small by lia. done.
Qed.

Lemma drip_step_inv f l e s :
  drip_inv (f, l) → timely f l e → drip_step (f, l) e s →
  drip_inv s ∧ max_daily_drip_cap s.1 = max_daily_drip_cap f.
Proof.
  intros Hinv Ht Hs. inversion Hs as [?? now amount f' Hok|?? now amount x f' Herr|? l1 w amount l2]; subst.
  - rewrite (check_opened _ _ _ l) in Hok by done. destruct (opened_inv _ _ _ _ Hinv Ht) as [[Hc Hcap Hw Hk] Hm].
    simpl in *. case_decide as Hd; [done|]. injection Hok as <-. split; [|done].
    split; simpl; [|lia| |done].
    + rewrite decide_True by done. lia.
    + constructor; [simpl; lia|done].
  - rewrite (check_opened _ _ _ l) in Herr by done. destruct (opened_inv _ _ _ _ Hinv Ht) as [Hi Hm].
    simpl in *. case_decide; [|done]. by injection Herr as _ <-.
  - destruct Hinv as [Hc Hcap Hw Hk]. simpl in *. subst w. rewrite window_total_app in Hc. cbn [window_total] in Hc.
    rewrite decide_True in Hc by done. unfold revert_drip. rewrite decide_True by lia. split; [|done].
    apply Forall_app in Hw as [Hw1 Hw2]. inversion Hw2; subst.
    split; simpl; [rewrite window_total_app; lia|lia|by apply Forall_app|done].
Qed.

Lemma drip_run_inv s es s' :
  drip_run s es s' → drip_inv s → drip_inv s' ∧ max_daily_drip_cap s'.1 = max_daily_drip_cap s.1.
Proof.
  induction 1 as [s|f l e s es s' Ht Hs _ IH]; intros Hinv; [done|].
  destruct (drip_step_inv _ _ _ _ Hinv Ht Hs) as [Hi Hm]. destruct (IH Hi) as [? ->]. done.
Qed.

(** C31: the daily cap holds.  From a new funder, as long as the clock moves
    forward and a broadcast that fails does so before the window of its drip
    ends, the counter is the total of the drips of the window that were
    approved and not reverted, and it is at most the cap; and the next drip is
    approved exactly when the total stays within the cap. *)
Theorem drip_daily_cap f es f' l :
  daily_accumulator f = 0 → last_reset_timestamp f = 0 → drip_run (f, []) es (f', l) →
  daily_accumulator f' = window_total (last_reset_timestamp f') l ∧
  window_total (last_reset_timestamp f') l ≤ max_daily_drip_cap f ∧
  ∀ now amount, timely f' l (Checked now amount) →
    (check_and_increment_drip now amount f').1 = Ok tt ↔
    window_total (last_reset_timestamp (opened now f')) l + amount ≤ max_daily_drip_cap f.
Proof.
  intros Hz Hr Hrun. assert (drip_inv (f, [])) as Hinit.
  { split; simpl; rewrite ?Hz, ?Hr; [done|lia|done|done]. }
  destruct (drip_run_inv _ _ _ Hrun Hinit) as [Hinv Hm]. simpl in Hm. pose proof Hinv as [Hc Hcap _ _].
  simpl in *. split_and!; [done|lia|]. intros now amount Ht.
  destruct (opened_inv _ _ _ _ Hinv Ht) as [[Hoc _ _ _] Hom]. rewrite (check_opened _ _ _ l) by done.
  simpl in *. case_decide; simpl; (split; [|try done]); [done|lia|lia].
Qed.

Lemma drip_daily_cap_witness :
  let f := (new_funder "5" 1) <| max_daily_drip_cap := 12 |> in
  let f' := MkDripFunder "5" 1 12 12 1000 in
  let l := [(1000, 7); (1000, 5)] in
  daily_accumulator f' = window_total (last_reset_timestamp f') l ∧
  window_total (last_reset_timestamp f') l ≤ max_daily_drip_cap f ∧
  ∀ now amount, timely f' l (Checked now amount) →
    (check_and_increment_drip now amount f').1 = Ok tt ↔
    window_total (last_reset_timestamp (opened now f')) l + amount ≤ max_daily_drip_cap f.
Proof.
  intros f f' l.
  apply (drip_daily_cap f
    [Checked 1000 5; Checked 2000 6; Checked 2100 8; BroadcastFailed 1000 6; Checked 2200 7]); [done..|].
  eapply drip_more; [by vm_compute|apply drip_approved; by vm_compute|].
  eapply drip_more; [by vm_compute|apply drip_approved; by vm_compute|].
  eapply drip_more; [by vm_compute|eapply drip_rejected; by vm_compute|].
  eapply drip_more; [by vm_compute|apply (drip_reverted _ []); by vm_compute|].
  eapply drip_more; [by vm_compute|apply drip_approved; by vm_compute|].
  apply drip_done.
Defined.

(** A broadcast that fails after the window of its drip has ended lowers the
    counter of the next window, which then admits more than the cap. *)
Lemma late_failure_exceeds_cap :
  let cap := 10 in
  let f := (new_funder "6" 1) <| max_daily_drip_cap := cap |> in
  let '(r1, f1) := check_and_increment_drip 1000 6 f in
  let '(r2, f2) := check_and_increment_drip 87400 10 f1 in
  let f3 := revert_drip 6 f2 in
  let '(r4, f4) := check_and_increment_drip 87401 6 f3 in
  r1 = Ok tt ∧ r2 = Ok tt ∧ r4 = Ok tt ∧ last_reset_timestamp f4 = 87400 ∧ cap < 10 + 6.
Proof. by vm_compute. Qed.

(** When the nonce of the protocol's wallet cannot be fetched, nothing is sent,
    and the drip stays counted. *)
Lemma failed_nonce_keeps_drip `{Crates} api now x broadcast stealth w f f' :
  is_fresh f api = true → check_and_increment_drip now (drip_amt f) f = (Ok tt, f') →
  ensure_stealth_activated api now (Err x) broadcast id stealth w f = (Err x, f').
Proof. intros Hfresh Hc. unfold ensure_stealth_activated. by rewrite Hfresh, Hc. Qed.

(** ** The sweep *)

(** A sweep is sponsored, whole, and signed twice.  For a readable positive
    balance, the transaction handed to the network carries all of it to the
    protocol's wallet, which is also the relayer; both signatures, the
    stealth wallet's and the relayer's, are over the payload that names the
    relayer.  A balance of zero, or one that cannot be read, sends nothing. *)
Theorem sweep_sponsored `{Crates} b n broadcast stealth_wallet drip_wallet :
  (∀ v, parse_u128 b = Some v → 0 < v →
    ∃ tx payload, sweep_residual (Ok b) (Ok n) broadcast stealth_wallet drip_wallet = broadcast tx ∧
      nonce tx = n ∧ parse_u128 (value tx) = Some v ∧ sender tx = bech32_address stealth_wallet ∧
      receiver tx = bech32_address drip_wallet ∧ relayer tx = Some (bech32_address drip_wallet) ∧
      serialize_for_signing tx = Ok payload ∧
      signature tx = Some (hex_encode (ed25519_sign (wallet_key stealth_wallet) (string_bytes payload))) ∧
      relayer_signature tx = Some (hex_encode (ed25519_sign (wallet_key drip_wallet) (string_bytes payload)))) ∧
  (default 0 (parse_u128 b) = 0 →
    sweep_residual (Ok b) (Ok n) broadcast stealth_wallet drip_wallet = Err NOTHING_TO_SWEEP).
Proof.
  split.
  - intros v Hv Hpos. unfold sweep_residual. rewrite Hv. simpl default. rewrite decide_False by lia.
    assert (v < u128_mod) as Hlt by by eapply parse_u128_bound.
    eexists _, _. split; [reflexivity|]. split_and!; try reflexivity. by apply parse_to_string.
  - intros Hz. unfold sweep_residual. by rewrite decide_True.
Qed.
