(* ===== verification/Sessions.v ===== *)
(** The privacy sessions of the keeper daemon
    (xcron-keeper-rs/src/session_db.rs): admission under a global float limit
    and a limit per user, failed sweeps and their retry queue, and the order in
    which the calls take the two locks.  The result of a sweep
    ([DripFunder::sweep_residual]) is an argument. *)

From S2P Require Import Prelude RustStd KeeperTx KeeperNet.

Inductive SessionStatus := Dripped | Swept | FailedSweep.
#[export] Instance SessionStatus_eq : EqDecision SessionStatus.
Proof. solve_decision. Defined.

Record PrivacySession := MkSession {
  stealth_address : string;
  user_address : string;
  amount_dripped : N;
  status : SessionStatus;
  retry_count : N;
  created_at : N;
}.
#[export] Instance PrivacySession_eta : Settable PrivacySession := λ s,
  MkSession (stealth_address s) (user_address s) (amount_dripped s) (status s) (retry_count s) (created_at s).

Record PrivacySessionManager := MkManager {
  sessions : gmap string PrivacySession;
  global_float_limit : N;
  max_active_drips_per_user : N;
  retry_queue : list string;
  max_retry_limit : N;
}.
#[export] Instance PrivacySessionManager_eta : Settable PrivacySessionManager := λ m,
  MkManager (sessions m) (global_float_limit m) (max_active_drips_per_user m) (retry_queue m) (max_retry_limit m).

Definition new_manager (float_limit max_per_user : N) : PrivacySessionManager :=
  MkManager ∅ float_limit max_per_user [] 5.

Definition is_active (s : PrivacySession) : bool :=
  match status s with Dripped | FailedSweep => true | Swept => false end.

(** The wei a session keeps out, and whether it counts for a user. *)
Definition float_of (s : PrivacySession) : N := if is_active s then amount_dripped s else 0.
Definition counts_for (user : string) (s : PrivacySession) : N :=
  if bool_decide (user_address s = user) && is_active s then 1 else 0.

(** [.sum()] wraps in a release build. *)
Definition current_outstanding (m : PrivacySessionManager) : N := msum float_of (sessions m) mod u128_mod.
Definition active_user_sessions (user : string) (m : PrivacySessionManager) : N :=
  msum (counts_for user) (sessions m).
Definition active_session_count (m : PrivacySessionManager) : N :=
  msum (λ s, if is_active s then 1 else 0) (sessions m).

Definition FLOAT_LIMIT : string := "Admission Denied: Global outstanding float limit reached.".
Definition USER_LIMIT : string := "Admission Denied: Per-user active session limit reached".
Definition NO_SESSION (addr : string) : string := "Session for stealth address " +:+ addr +:+ " not found".

(** An operation that fails leaves the manager as it was. *)
Definition authorize_session (user stealth : string) (drip_amount now : N) (m : PrivacySessionManager)
  : result unit * PrivacySessionManager :=
  if decide (global_float_limit m < u128_add (current_outstanding m) drip_amount) then (Err FLOAT_LIMIT, m)
  else if decide (max_active_drips_per_user m ≤ active_user_sessions user m) then (Err USER_LIMIT, m)
  else (Ok tt, m <| sessions := <[stealth := MkSession stealth user drip_amount Dripped 0 now]> (sessions m) |>).

Definition complete_session (addr : string) (m : PrivacySessionManager) : result unit * PrivacySessionManager :=
  match sessions m !! addr with
  | Some s => (Ok tt, m <| sessions := <[addr := s <| status := Swept |>]> (sessions m) |>)
  | None => (Err (NO_SESSION addr), m)
  end.

Definition register_failed_sweep (addr : string) (m : PrivacySessionManager) : result unit * PrivacySessionManager :=
  match sessions m !! addr with
  | Some s =>
      let s := s <| status := FailedSweep |> <| retry_count := u32_add (retry_count s) 1 |> in
      let m := m <| sessions := <[addr := s]> (sessions m) |> in
      (Ok tt,
       if decide (retry_count s ≤ max_retry_limit m ∧ addr ∉ retry_queue m)
       then m <| retry_queue := retry_queue m ++ [addr] |> else m)
  | None => (Err (NO_SESSION addr), m)
  end.

Section retries.
Context `{Crates} (stealth_wallets : gmap string KeeperWallet) (sweep : KeeperWallet → result string).

(** One address of the queue; the second component is [successfully_swept]. *)
Definition retry_one (m : PrivacySessionManager) (discarded : list string) (addr : string)
  : PrivacySessionManager * list string :=
  match stealth_wallets !! addr with
  | Some wallet =>
      match sweep wallet with
      | Ok _ => (m, discarded ++ [addr])
      | Err _ =>
          match sessions m !! addr with
          | Some s =>
              let s := s <| retry_count := u32_add (retry_count s) 1 |> in
              (m <| sessions := <[addr := s]> (sessions m) |>,
               if decide (max_retry_limit m < retry_count s) then discarded ++ [addr] else discarded)
          | None => (m, discarded)
          end
      end
  | None => (m, discarded ++ [addr])
  end.

Definition retry_all (m : PrivacySessionManager) (queue : list string) : PrivacySessionManager * list string :=
  foldl (λ '(m, discarded) addr, retry_one m discarded addr) (m, []) queue.

(** A discarded address that has retries left is completed. *)
Definition finish_one (m : PrivacySessionManager) (addr : string) : PrivacySessionManager :=
  match sessions m !! addr with
  | Some s => if decide (retry_count s ≤ max_retry_limit m) then (complete_session addr m).2 else m
  | None => m
  end.

Definition process_retry_queue (m : PrivacySessionManager) : PrivacySessionManager :=
  if decide (retry_queue m = []) then m
  else
    let '(m, discarded) := retry_all m (retry_queue m) in
    let m := m <| retry_queue := filter (λ addr, addr ∉ discarded) (retry_queue m) |> in
    foldl finish_one m discarded.
End retries.

(** ** Lemmas *)

(** An address whose key is missing or whose sweep succeeds is discarded. *)
Definition settled `{Crates} (stealth_wallets : gmap string KeeperWallet) (sweep : KeeperWallet → result string)
    (addr : string) : bool :=
  match stealth_wallets !! addr with
  | Some wallet => match sweep wallet with Ok _ => true | Err _ => false end
  | None => true
  end.

Definition once_more (s : PrivacySession) : PrivacySession :=
  s <| retry_count := u32_add (retry_count s) 1 |>.

Definition swept_below (max : N) (s : PrivacySession) : PrivacySession :=
  if decide (retry_count s ≤ max) then s <| status := Swept |> else s.

Lemma swept_below_idem max s : swept_below max (swept_below max s) = swept_below max s.
Proof.
  unfold swept_below. destruct (decide (retry_count s ≤ max)) as [Hr|Hr]; simpl;
    [by rewrite decide_True|by rewrite decide_False].
Qed.

(** What a pass does to the session of a queued address, and whether the
    address stays in the queue. *)
Definition retried (max : N) (done : bool) (o : option PrivacySession) : option PrivacySession * bool :=
  if done then (swept_below max <$> o, false)
  else (once_more <$> o,
        match o with Some s => bool_decide (retry_count (once_more s) ≤ max) | None => true end).

Section pass.
Context `{Crates} (ws : gmap string KeeperWallet) (sweep : KeeperWallet → result string).

Definition tried (addr : string) (o : option PrivacySession) : option PrivacySession :=
  if settled ws sweep addr then o else once_more <$> o.
Definition drops (max : N) (addr : string) (o : option PrivacySession) : bool :=
  negb (retried max (settled ws sweep addr) o).2.

Lemma retry_one_spec m d addr :
  ∃ ss, retry_one ws sweep m d addr =
    (m <| sessions := ss |>, if drops (max_retry_limit m) addr (sessions m !! addr) then d ++ [addr] else d) ∧
  ∀ a, ss !! a = if decide (a = addr) then tried addr (sessions m !! addr) else sessions m !! a.
Proof.
  unfold retry_one, drops, retried, tried, settled.
  destruct (ws !! addr) as [w|]; [destruct (sweep w) as [hash|x]; [|destruct (sessions m !! addr) as [s|] eqn:Hs]|].
  2: { exists (<[addr := once_more s]> (sessions m)). split.
       - unfold once_more. cbn. f_equal. case_decide; case_bool_decide; simpl in *; done || lia.
       - intros a. case_decide; subst; [by rewrite lookup_insert_eq|by rewrite lookup_insert_ne]. }
  all: exists (sessions m); split; [by destruct m|]; intros a; by case_decide; subst.
Qed.

Lemma retry_all_spec m d queue :
  NoDup queue →
  ∃ ss, foldl (λ '(m, discarded) addr, retry_one ws sweep m discarded addr) (m, d) queue =
    (m <| sessions := ss |>,
     d ++ filter (λ a, drops (max_retry_limit m) a (sessions m !! a) = true) queue) ∧
  ∀ a, ss !! a = if decide (a ∈ queue) then tried a (sessions m !! a) else sessions m !! a.
Proof.
  revert m d. induction queue as [|addr queue IH]; intros m d Hnd.
  { exists (sessions m). rewrite app_nil_r. split; [by destruct m|]. intros a. by rewrite decide_False by set_solver. }
  apply NoDup_cons in Hnd as [Hni Hnd]. destruct (retry_one_spec m d addr) as (s1 & Ho & Hs1).
  cbn [foldl]. rewrite Ho.
  destruct (IH (m <| sessions := s1 |>)
    (if drops (max_retry_limit m) addr (sessions m !! addr) then d ++ [addr] else d) Hnd) as (ss & -> & Hss).
  exists ss. split.
  - f_equal. rewrite filter_cons. simpl.
    assert (filter (λ a, drops (max_retry_limit m) a (s1 !! a) = true) queue =
            filter (λ a, drops (max_retry_limit m) a (sessions m !! a) = true) queue) as ->.
    { apply filter_iff_in. intros a Ha. rewrite Hs1, decide_False; [done|]. by intros ->. }
    destruct (drops _ _ _) eqn:Hdr; simpl; by rewrite <- ?app_assoc.
  - intros a. rewrite Hss. simpl. rewrite Hs1. destruct (decide (a = addr)) as [->|Hne].
    + rewrite decide_False by done. by rewrite decide_True by set_solver.
    + destruct (decide (a ∈ queue)); [rewrite decide_True by set_solver|rewrite decide_False by set_solver]; done.
Qed.

Lemma finish_spec m addrs :
  ∃ ss, foldl finish_one m addrs = m <| sessions := ss |> ∧
  ∀ a, ss !! a = if decide (a ∈ addrs) then swept_below (max_retry_limit m) <$> sessions m !! a
                 else sessions m !! a.
Proof.
  revert m. induction addrs as [|addr addrs IH]; intros m.
  { exists (sessions m). split; [by destruct m|]. intros a. by rewrite decide_False by set_solver. }
  assert (∃ s1, finish_one m addr = m <| sessions := s1 |> ∧
    ∀ a, s1 !! a = if decide (a = addr) then swept_below (max_retry_limit m) <$> sessions m !! a
                   else sessions m !! a) as (s1 & Ho & Hs1).
  { unfold finish_one, complete_session. destruct (sessions m !! addr) as [s|] eqn:Hs.
    - unfold swept_below. case_decide as Hr.
      + exists (<[addr := s <| status := Swept |>]> (sessions m)). split; [by destruct m|].
        intros a. case_decide;
          [subst; rewrite lookup_insert_eq, Hs; simpl; by rewrite decide_True|by rewrite lookup_insert_ne].
      + exists (sessions m). split; [by destruct m|]. intros a. case_decide; [subst|done].
        rewrite Hs. simpl. by rewrite decide_False.
    - exists (sessions m). split; [by destruct m|]. intros a. case_decide; [subst; by rewrite Hs|done]. }
  cbn [foldl]. rewrite Ho. destruct (IH (m <| sessions := s1 |>)) as (ss & -> & Hss).
  exists ss. split; [by destruct m|]. intros a. rewrite Hss. simpl. rewrite Hs1.
  destruct (decide (a = addr)) as [->|Hne].
  - rewrite (decide_True (P := addr ∈ addr :: addrs)) by set_solver.
    case_decide; [|done]. destruct (sessions m !! addr); [|done]. simpl. by rewrite swept_below_idem.
  - destruct (decide (a ∈ addrs)); [rewrite decide_True by set_solver|rewrite decide_False by set_solver]; done.
Qed.

(** The whole pass, address by address. *)
Lemma process_spec m :
  NoDup (retry_queue m) →
  ∃ ss, process_retry_queue ws sweep m =
    m <| sessions := ss |>
      <| retry_queue := filter (λ a, (retried (max_retry_limit m) (settled ws sweep a) (sessions m !! a)).2 = true)
                          (retry_queue m) |> ∧
  ∀ a, ss !! a = if decide (a ∈ retry_queue m)
                 then (retried (max_retry_limit m) (settled ws sweep a) (sessions m !! a)).1
                 else sessions m !! a.
Proof.
  intros Hnd. unfold process_retry_queue. case_decide as Hnil.
  { rewrite Hnil. exists (sessions m). split; [destruct m; simpl in *; by subst|].
    intros a. by rewrite decide_False by set_solver. }
  destruct (retry_all_spec m [] (retry_queue m) Hnd) as (s1 & Hall & Hs1).
  unfold retry_all. rewrite Hall. simpl. cbv zeta.
  set (discarded := filter (λ a, drops (max_retry_limit m) a (sessions m !! a) = true) (retry_queue m)).
  destruct (finish_spec (m <| sessions := s1 |>
    <| retry_queue := filter (λ a, a ∉ discarded) (retry_queue m) |>) discarded) as (ss & Hf & Hss).
  exists ss. split.
  - etransitivity; [exact Hf|]. destruct m; unfold rset in *; simpl in *. f_equal.
    apply filter_iff_in. intros a Ha. unfold discarded.
    rewrite list_elem_of_filter. unfold drops. destruct (retried _ _ _).2; simpl; naive_solver.
  - intros a. rewrite Hss. simpl. rewrite Hs1. unfold discarded, tried.
    destruct (decide (a ∈ retry_queue m)) as [Hin|Hin].
    + unfold drops, retried. destruct (settled ws sweep a) eqn:Hset.
      * rewrite decide_True; [done|]. apply list_elem_of_filter. by rewrite Hset.
      * case_decide as Hd; [|done]. apply list_elem_of_filter in Hd as [Hd _]. rewrite Hset in Hd.
        destruct (sessions m !! a) as [s|]; [|done]. simpl in *. unfold swept_below.
        case_bool_decide; [done|]. by rewrite decide_False.
    + rewrite decide_False; [done|]. rewrite list_elem_of_filter. naive_solver.
Qed.
End pass.

(** ** Admission limits *)

(** The calls of the manager that go through, with the sessions each revives:
    [register_failed_sweep] does not look at the status, so a session that was
    completed is active again. *)
Definition revives (addr : string) (m : PrivacySessionManager) : list PrivacySession :=
  match sessions m !! addr with Some s => if is_active s then [] else [s] | None => [] end.

Inductive session_step `{Crates} : PrivacySessionManager → list PrivacySession → PrivacySessionManager → Prop :=
| step_authorize user stealth drip_amount now m m' :
    msum float_of (sessions m) + drip_amount < u128_mod →
    authorize_session user stealth drip_amount now m = (Ok tt, m') → session_step m [] m'
| step_complete addr m m' :
    complete_session addr m = (Ok tt, m') → session_step m [] m'
| step_failed addr m m' :
    register_failed_sweep addr m = (Ok tt, m') → session_step m (revives addr m) m'
| step_retry stealth_wallets sweep m :
    session_step m [] (process_retry_queue stealth_wallets sweep m).

(** A run, with the sessions it has revived. *)
Inductive session_run `{Crates} (m : PrivacySessionManager) : list PrivacySession → PrivacySessionManager → Prop :=
| run_start : session_run m [] m
| run_step revived m1 more m2 :
    session_run m revived m1 → session_step m1 more m2 → session_run m (revived ++ more) m2.

(** What revived sessions add to the float and to a user's count. *)
Definition revived_float (l : list PrivacySession) : N := foldr (λ s, N.add (amount_dripped s)) 0 l.
Definition revived_for (user : string) (l : list PrivacySession) : N :=
  N.of_nat (length (filter (λ s, user_address s = user) l)).

Lemma revived_float_app l l' : revived_float (l ++ l') = revived_float l + revived_float l'.
Proof. induction l as [|s l IH]; simpl; [done|]. rewrite IH. lia. Qed.
Lemma revived_for_app u l l' : revived_for u (l ++ l') = revived_for u l + revived_for u l'.
Proof. unfold revived_for. rewrite filter_app, length_app. lia. Qed.

(** The limits, [x] above the float limit and [y user] above a user's. *)
Record sessions_inv (x : N) (y : string → N) (m : PrivacySessionManager) : Prop := {
  float_bounded : msum float_of (sessions m) ≤ global_float_limit m + x;
  users_bounded : ∀ user, active_user_sessions user m ≤ max_active_drips_per_user m + y user;
  queue_distinct : NoDup (retry_queue m);
}.

Lemma retried_le max settles (f : PrivacySession → N) o :
  (∀ s, f (once_more s) = f s) → (∀ s, f (s <| status := Swept |>) = 0) →
  from_option f 0 (retried max settles o).1 ≤ from_option f 0 o.
Proof.
  intros Hm Hs. unfold retried. destruct settles; destruct o as [s|]; simpl; [|lia| |lia].
  - unfold swept_below. case_decide; rewrite ?Hs; lia.
  - rewrite Hm. lia.
Qed.

Lemma process_sum `{Crates} ws sweep m (f : PrivacySession → N) :
  NoDup (retry_queue m) →
  (∀ s, f (once_more s) = f s) → (∀ s, f (s <| status := Swept |>) = 0) →
  msum f (sessions (process_retry_queue ws sweep m)) ≤ msum f (sessions m).
Proof.
  intros Hnd Hm Hs. destruct (process_spec ws sweep m Hnd) as (ss & -> & Hss). apply msum_mono. intros a.
  cbn. rewrite Hss. case_decide; [by apply retried_le|lia].
Qed.

Lemma counts_swept user s : counts_for user (s <| status := Swept |>) = 0.
Proof. unfold counts_for, is_active. simpl. by rewrite andb_false_r. Qed.

Lemma msum_update_le {V} (f : V → N) (ss : gmap string V) a s s' :
  ss !! a = Some s → f s' ≤ f s → msum f (<[a := s']> ss) ≤ msum f ss.
Proof. intros Ha Hle. pose proof (msum_update_Some f ss a s s' Ha). lia. Qed.

Lemma authorize_inv x y user stealth amount now m m' :
  msum float_of (sessions m) + amount < u128_mod → authorize_session user stealth amount now m = (Ok tt, m') →
  sessions_inv x y m → sessions_inv x y m'.
Proof.
  intros Hfit Ha [Hf Hu Hq]. unfold authorize_session, current_outstanding in Ha.
  rewrite N.mod_small, u128_add_small in Ha by lia. repeat case_decide; simplify_eq/=. split; simpl; [| |done].
  - pose proof (msum_update float_of (sessions m) stealth (MkSession stealth user amount Dripped 0 now)) as Hms.
    unfold float_of at 4 in Hms. simpl in Hms. lia.
  - intros u. unfold active_user_sessions in *. simpl.
    pose proof (msum_update (counts_for u) (sessions m) stealth (MkSession stealth user amount Dripped 0 now)) as Hms.
    unfold counts_for at 4 in Hms. simpl in Hms. specialize (Hu u).
    case_bool_decide as Hn; [subst u|]; unfold is_active in Hms; simpl in Hms; lia.
Qed.

Lemma failed_inv x y addr m m' :
  register_failed_sweep addr m = (Ok tt, m') → sessions_inv x y m →
  sessions_inv (x + revived_float (revives addr m)) (λ u, y u + revived_for u (revives addr m)) m'.
Proof.
  intros Hr [Hf Hu Hq]. unfold register_failed_sweep in Hr. unfold revives.
  destruct (sessions m !! addr) as [s|] eqn:Hs; [|done]. simpl in Hr.
  set (s' := s <| status := FailedSweep |> <| retry_count := u32_add (retry_count s) 1 |>) in *.
  assert (m' = m <| sessions := <[addr := s']> (sessions m) |> <| retry_queue := retry_queue m' |> ∧
          NoDup (retry_queue m')) as [-> Hnd].
  { case_decide as Hd; simplify_eq/=; [|done]. split; [done|]. apply NoDup_app.
    split_and!; [done|set_solver|apply NoDup_singleton]. }
  split; simpl; [| |done].
  - pose proof (msum_update_Some float_of _ _ _ s' Hs) as Hms. unfold float_of at 2 4 in Hms. simpl in Hms.
    destruct (is_active s); simpl; lia.
  - intros u. specialize (Hu u). unfold active_user_sessions in *. simpl.
    pose proof (msum_update_Some (counts_for u) _ _ _ s' Hs) as Hms. unfold counts_for at 2 4 in Hms. simpl in Hms.
    unfold revived_for. destruct (is_active s); [simpl; case_bool_decide; simpl in *; lia|].
    rewrite filter_cons. case_bool_decide; simpl in *; [rewrite decide_True by done|rewrite decide_False by done]; simpl; lia.
Qed.

Lemma session_step_inv `{Crates} x y m more m' :
  session_step m more m' → sessions_inv x y m →
  sessions_inv (x + revived_float more) (λ u, y u + revived_for u more) m' ∧
  global_float_limit m' = global_float_limit m ∧ max_active_drips_per_user m' = max_active_drips_per_user m.
Proof.
  assert (Hsame : sessions_inv x y m' → sessions_inv (x + revived_float []) (λ u, y u + revived_for u []) m').
  { intros [Hf Hu Hq]. split; simpl; [lia|intros u; specialize (Hu u); unfold revived_for; simpl; lia|done]. }
  intros Hstep Hinv. destruct Hstep as [user stealth amount now m m' Hfit Ha|addr m m' Hc|addr m m' Hr|ws sweep m].
  - split; [by eapply Hsame, authorize_inv|]. unfold authorize_session in Ha. by repeat case_decide; simplify_eq/=.
  - destruct Hinv as [Hf Hu Hq]. unfold complete_session in Hc.
    destruct (sessions m !! addr) as [s|] eqn:Hs; simplify_eq/=.
    split; [|done]. apply Hsame. split; simpl; [| |done].
    + etransitivity; [|exact Hf]. eapply msum_update_le; [done|]. unfold float_of. simpl. lia.
    + intros u. etransitivity; [|apply (Hu u)]. eapply msum_update_le; [done|]. rewrite counts_swept. lia.
  - split; [by apply failed_inv|]. unfold register_failed_sweep in Hr.
    destruct (sessions m !! addr); [|done]. simpl in Hr. by case_decide; simplify_eq/=.
  - destruct Hinv as [Hf Hu Hq]. pose proof (process_sum ws sweep m) as Hp.
    destruct (process_spec ws sweep m Hq) as (ss & He & _).
    split; [|by rewrite He]. apply Hsame. split.
    + rewrite He at 2. simpl. etransitivity; [apply Hp|exact Hf]; done.
    + intros u. rewrite He at 2. simpl. etransitivity; [|apply (Hu u)]. apply Hp; [done..|]. apply counts_swept.
    + rewrite He. simpl. by apply NoDup_filter.
Qed.

Lemma session_run_inv `{Crates} float_limit max_per_user revived m :
  session_run (new_manager float_limit max_per_user) revived m →
  sessions_inv (revived_float revived) (λ u, revived_for u revived) m ∧
  global_float_limit m = float_limit ∧ max_active_drips_per_user m = max_per_user.
Proof.
  induction 1 as [|revived m1 more m2 _ (Hinv & Hl & Hm) Hstep].
  - split; [|done]. split; [cbn; rewrite msum_empty; lia| |constructor].
    intros u. cbn. unfold active_user_sessions. cbn. rewrite msum_empty. lia.
  - destruct (session_step_inv _ _ _ _ _ Hstep Hinv) as ([Hf Hu Hq] & -> & ->).
    split; [|done]. split; [by rewrite revived_float_app| |done]. intros u. by rewrite revived_for_app.
Qed.

(** C32: the admission limits hold, but for sessions revived by failing them
    after their sweep.  Whatever sessions are authorized, completed, failed and
    retried (with every calculated float below 2^128 wei), the wei out in
    sessions that are not swept stay within the global limit plus the wei of
    the completed sessions that [register_failed_sweep] made active again, no
    user has more of them than the limit per user plus those of the user's that
    were revived, and no address is queued twice.  In particular both limits
    hold in every run that never fails a completed session; and
    [failing_a_swept_session] shows that one that does can exceed them. *)
Theorem session_limits `{Crates} float_limit max_per_user revived m :
  session_run (new_manager float_limit max_per_user) revived m →
  msum float_of (sessions m) ≤ float_limit + revived_float revived ∧
  (∀ user, active_user_sessions user m ≤ max_per_user + revived_for user revived) ∧ NoDup (retry_queue m).
Proof. intros Hrun. by destruct (session_run_inv _ _ _ _ Hrun) as ([Hf Hu Hq] & <- & <-). Qed.

#[local] Instance toy_crates : Crates := {|
  SigningKey := unit;
  ed25519_sign _ _ := [];
  base64_encode _ := "";
  hex_encode _ := "";
  json_of_tx _ := Ok "";
|}.

Lemma session_limits_witness :
  let m0 := new_manager 10 2 in
  let m1 := (authorize_session "u" "s1" 6 100 m0).2 in
  let m2 := (register_failed_sweep "s1" m1).2 in
  let m3 := process_retry_queue ∅ (λ _, Err "offline") m2 in
  let m := (authorize_session "u" "s2" 9 200 m3).2 in
  retry_queue m2 = ["s1"] ∧
  msum float_of (sessions m) ≤ 10 ∧ (∀ user, active_user_sessions user m ≤ 2) ∧ NoDup (retry_queue m).
Proof.
  intros m0 m1 m2 m3 m. split; [by vm_compute|].
  destruct (session_limits 10 2 [] m) as (Hf & Hu & Hq).
  { apply (run_step _ [] m3 []); [|apply (step_authorize "u" "s2" 9 200 m3 m); by vm_compute].
    apply (run_step _ [] m2 []); [|apply (step_retry ∅ (λ _, Err "offline") m2)].
    apply (run_step _ [] m1 (revives "s1" m1)); [|apply (step_failed "s1" m1 m2); by vm_compute].
    apply (run_step _ [] m0 []); [apply run_start|apply (step_authorize "u" "s1" 6 100 m0 m1); by vm_compute]. }
  change (revived_float []) with 0 in Hf. split_and!; [lia| |done].
  intros u. specialize (Hu u). change (revived_for u []) with 0 in Hu. lia.
Defined.

(** A completed session whose sweep is then registered as failed is active
    again, outside the limits. *)
Lemma failing_a_swept_session :
  let m1 := (authorize_session "u" "s1" 10 0 (new_manager 10 2)).2 in
  let m2 := (complete_session "s1" m1).2 in
  let m3 := (authorize_session "u" "s2" 10 0 m2).2 in
  let m4 := (register_failed_sweep "s1" m3).2 in
  msum float_of (sessions m4) = 20 ∧ global_float_limit m4 = 10.
Proof. by vm_compute. Qed.

(** Without the key of its wallet, a session is marked as swept although
    nothing was swept. *)
Lemma keyless_session_swept `{Crates} sweep m addr s :
  retry_queue m = [addr] → sessions m !! addr = Some s → retry_count s ≤ max_retry_limit m →
  sessions (process_retry_queue ∅ sweep m) !! addr = Some (s <| status := Swept |>) ∧
  retry_queue (process_retry_queue ∅ sweep m) = [].
Proof.
  intros Hq Hs Hr. assert (NoDup (retry_queue m)) as Hnd by (rewrite Hq; apply NoDup_singleton).
  destruct (process_spec ∅ sweep m Hnd) as (ss & -> & Hss). cbn. rewrite Hss, Hq, decide_True by set_solver.
  split; [|done]. rewrite Hs. unfold retried, swept_below. simpl. by rewrite decide_True.
Qed.

(** ** The retry queue drains *)

(** The queued sessions after [j] passes. *)
Record queued_at (j : N) (m : PrivacySessionManager) : Prop := {
  queued_distinct : NoDup (retry_queue m);
  queued_sessions : ∀ a, a ∈ retry_queue m →
    ∃ s, sessions m !! a = Some s ∧ j ≤ retry_count s ∧ retry_count s + 1 < u32_mod;
}.

Lemma queued_pass `{Crates} ws sweep j m :
  max_retry_limit m + 1 < u32_mod → queued_at j m →
  let m' := process_retry_queue ws sweep m in
  queued_at (j + 1) m' ∧ max_retry_limit m' = max_retry_limit m ∧
  ∀ a, a ∈ retry_queue m' → ∃ s, sessions m' !! a = Some s ∧ retry_count s ≤ max_retry_limit m.
Proof.
  intros Hmax [Hnd Hq] m'. destruct (process_spec ws sweep m Hnd) as (ss & He & Hss). fold m' in He.
  assert (∀ a, a ∈ retry_queue m' → ∃ s, ss !! a = Some s ∧ j + 1 ≤ retry_count s ∧
    retry_count s ≤ max_retry_limit m) as Hstay.
  { intros a Ha. rewrite He in Ha. simpl in Ha. apply list_elem_of_filter in Ha as [Hstays Ha].
    destruct (Hq a Ha) as (s & Hs & Hj & Hfit). rewrite Hss, decide_True, Hs by done. rewrite Hs in Hstays.
    unfold retried in *. destruct (settled ws sweep a); [done|]. simpl in *. apply bool_decide_eq_true in Hstays.
    eexists. split; [done|]. split; [|exact Hstays]. simpl. unfold u32_add. rewrite N.mod_small by done. lia. }
  split_and!.
  - split.
    + rewrite He. simpl. by apply NoDup_filter.
    + intros a Ha. destruct (Hstay a Ha) as (s & Hs & ? & ?). exists s. rewrite He. simpl. split_and!; [done|lia..].
  - by rewrite He.
  - intros a Ha. destruct (Hstay a Ha) as (s & Hs & ? & ?). exists s. rewrite He. by simpl.
Qed.

Definition passes `{Crates} (net : list (gmap string KeeperWallet * (KeeperWallet → result string)))
    (m : PrivacySessionManager) : PrivacySessionManager :=
  foldl (λ m '(ws, sweep), process_retry_queue ws sweep m) m net.

Lemma queued_passes `{Crates} net j m :
  max_retry_limit m + 1 < u32_mod → queued_at j m → net ≠ [] →
  queued_at (j + N.of_nat (length net)) (passes net m) ∧
  ∀ a, a ∈ retry_queue (passes net m) →
    ∃ s, sessions (passes net m) !! a = Some s ∧ retry_count s ≤ max_retry_limit m.
Proof.
  revert j m. induction net as [|[ws sweep] net IH]; intros j m Hmax Hq Hne; [done|].
  destruct (queued_pass ws sweep j m Hmax Hq) as (Hq' & Hm & Hle). cbn [passes foldl length].
  destruct net as [|p net].
  - cbn. split; [|done]. by replace (j + 1) with (j + N.of_nat 1) in Hq' by lia.
  - destruct (IH (j + 1) (process_retry_queue ws sweep m)) as [Hq2 Hle2]; [by rewrite Hm|done..|].
    rewrite Hm in Hle2. split; [|exact Hle2].
    by replace (j + 1 + N.of_nat (length (p :: net))) with (j + N.of_nat (S (length (p :: net)))) in Hq2 by lia.
Qed.

(** C33: the retry queue drains.  Whatever the network answers and whichever
    keys are at hand, one pass more than the retry limit empties the queue, as
    long as each queued address has a session and no counter overflows. *)
Theorem retry_queue_drains `{Crates} net m :
  NoDup (retry_queue m) → max_retry_limit m + 1 < u32_mod →
  (∀ a, a ∈ retry_queue m → ∃ s, sessions m !! a = Some s ∧ retry_count s + 1 < u32_mod) →
  max_retry_limit m < N.of_nat (length net) →
  retry_queue (passes net m) = [].
Proof.
  intros Hnd Hmax Hs Hlen. assert (queued_at 0 m) as Hq.
  { split; [done|]. intros a Ha. destruct (Hs a Ha) as (s & ? & ?). exists s. split_and!; [done|lia|done]. }
  destruct (queued_passes net 0 m Hmax Hq) as [[_ Hge] Hle]; [by intros ->; simpl in Hlen; lia|].
  destruct (retry_queue (passes net m)) as [|a q] eqn:He; [done|].
  destruct (Hge a) as (s & Hsa & ? & _); [set_solver|]. destruct (Hle a) as (s' & Hsa' & ?); [set_solver|].
  simplify_eq. lia.
Qed.

Lemma retry_queue_drains_witness :
  let m := (register_failed_sweep "s" (authorize_session "u" "s" 5 0 (new_manager 10 2)).2).2 in
  let wallets := {[ "s" := MkWallet toy_crates tt "s" ]} in
  let offline := (wallets, λ _, Err "offline") in
  retry_queue (passes (replicate 4 offline) m) = ["s"] ∧
  retry_queue (passes (replicate 6 offline) m) = [].
Proof.
  intros m wallets offline. split; [by vm_compute|]. apply retry_queue_drains.
  - vm_compute. apply NoDup_singleton.
  - by vm_compute.
  - intros a Ha. assert (retry_queue m = ["s"]) as Hq by (by vm_compute). rewrite Hq in Ha.
    apply list_elem_of_singleton in Ha as ->. eexists. split; [by vm_compute|by vm_compute].
  - by vm_compute.
Defined.

(** ** The two locks

    Each call takes the locks in an order of its own:
    [register_failed_sweep] holds the sessions while it takes the queue,
    [process_retry_queue] holds the queue, and the network's answers, while it
    takes the sessions. *)

Inductive lock := SessionsLock | QueueLock.
#[export] Instance lock_eq : EqDecision lock.
Proof. solve_decision. Defined.

Inductive lock_op := Acquire (l : lock) | Release (l : lock).

Definition register_locks (addr : string) (m : PrivacySessionManager) : list lock_op :=
  [Acquire SessionsLock] ++
  match sessions m !! addr with
  | Some s => if decide (u32_add (retry_count s) 1 ≤ max_retry_limit m)
              then [Acquire QueueLock; Release QueueLock] else []
  | None => []
  end ++ [Release SessionsLock].

Definition brief : list lock_op := [Acquire SessionsLock; Release SessionsLock].

(** One write for each failed sweep; a read, and a write for each completion,
    for each discarded address. *)
Definition retry_locks `{Crates} (stealth_wallets : gmap string KeeperWallet) (sweep : KeeperWallet → result string)
    (m : PrivacySessionManager) : list lock_op :=
  [Acquire QueueLock] ++
  (if decide (retry_queue m = []) then [] else
     mjoin ((λ addr, if settled stealth_wallets sweep addr then [] else brief) <$> retry_queue m) ++
     let '(m', discarded) := retry_all stealth_wallets sweep m (retry_queue m) in
     mjoin ((λ addr, match sessions m' !! addr with
                     | Some s => if decide (retry_count s ≤ max_retry_limit m') then brief ++ brief else brief
                     | None => brief
                     end) <$> discarded)) ++
  [Release QueueLock].

(** A thread: what it still has to do, and the locks it holds. *)
Abbreviation thread := (list lock_op * list lock)%type.

Inductive lock_step : list thread → list thread → Prop :=
| lock_acquire ts i l rest held :
    ts !! i = Some (Acquire l :: rest, held) → (∀ t, t ∈ ts → l ∉ t.2) →
    lock_step ts (<[i := (rest, l :: held)]> ts)
| lock_release ts i l rest held :
    ts !! i = Some (Release l :: rest, held) →
    lock_step ts (<[i := (rest, filter (λ l', l' ≠ l) held)]> ts).

(** Nobody can go on, and somebody has not finished. *)
Definition deadlocked (ts : list thread) : Prop :=
  (∀ ts', ¬ lock_step ts ts') ∧ ∃ t, t ∈ ts ∧ t.1 ≠ [].

Lemma crossed_deadlock a b :
  deadlocked [(Acquire QueueLock :: a, [SessionsLock]); (Acquire SessionsLock :: b, [QueueLock])].
Proof.
  split; [|eexists; split; [by apply list_elem_of_here|done]].
  intros ts' Hstep. inversion Hstep as [? i l rest held Hi Hfree|? i l rest held Hi]; subst.
  - destruct i as [|[|]]; simplify_eq/=.
    + destruct (Hfree (Acquire SessionsLock :: b, [QueueLock])); set_solver.
    + destruct (Hfree (Acquire QueueLock :: a, [SessionsLock])); set_solver.
  - by destruct i as [|[|]].
Qed.

Ltac free_lock :=
  simpl; let Ht := fresh in
  intros ? Ht; repeat (apply elem_of_cons in Ht as [->|Ht]; [set_solver|]); by apply elem_of_nil in Ht.

(** The two locks can deadlock.  While a pass over the retry queue waits
    for a sweep that is going to fail, the registration of another failed sweep
    that has retries left can take the sessions: each call then waits for the
    lock that the other holds. *)
Theorem retry_deadlock `{Crates} ws sweep m addr s queued rest :
  retry_queue m = queued :: rest → settled ws sweep queued = false →
  sessions m !! addr = Some s → retry_count s < max_retry_limit m → max_retry_limit m < u32_mod →
  ∃ ts, rtc lock_step [(register_locks addr m, []); (retry_locks ws sweep m, [])] ts ∧ deadlocked ts.
Proof.
  intros Hq Hfail Hs Hr Hmax. unfold register_locks, retry_locks, u32_add.
  rewrite Hs, Hq, N.mod_small by lia. rewrite decide_True by lia. rewrite decide_False by done.
  cbn [fmap list_fmap mjoin list_join app]. rewrite Hfail. unfold brief at 1. cbn [app].
  eexists. split; [|apply crossed_deadlock].
  eapply rtc_l; [apply (lock_acquire _ 0%nat); [done|free_lock]|].
  eapply rtc_l; [apply (lock_acquire _ 1%nat); [done|free_lock]|]. apply rtc_refl.
Qed.

Lemma retry_deadlock_witness :
  let m := (register_failed_sweep "a" (authorize_session "u" "a" 5 0 (new_manager 10 2)).2).2 in
  let m := (authorize_session "v" "b" 5 0 m).2 in
  let ws := {[ "a" := MkWallet toy_crates tt "a" ]} in
  let offline := λ _, Err "offline" in
  ∃ ts, rtc lock_step [(register_locks "b" m, []); (retry_locks ws offline m, [])] ts ∧ deadlocked ts.
Proof.
  intros m0 m ws offline. eapply (retry_deadlock ws offline m "b" _ "a" []); [by vm_compute|by vm_compute|
    vm_compute; reflexivity|by vm_compute|by vm_compute].
Defined.
