(* ===== verification/Xse.v ===== *)
(** The sovereign intent enclave (xse-protocol/src): the execution intents and
    their validation (schema.rs, validator.rs), the enclave's secrets and
    stealth keys (crypto.rs), the signature check (quantum_shield.rs), the
    orders (relayer.rs) and the run from an intent to its receipt (main.rs). *)

From S2P Require Import Prelude RustStd.

(** ** Standard library: UTF-8, searching, little-endian bytes *)

Definition continuation (b : N) : bool := bool_decide (128 ≤ b) && bool_decide (b ≤ 191).
Definition between (lo hi b : N) : bool := bool_decide (lo ≤ b) && bool_decide (b ≤ hi).

(** The first two bytes of a sequence of three and of four: overlong forms,
    surrogates and values beyond the last code point are excluded. *)
Definition three_ok (b0 b1 : N) : bool :=
  match b0 with
  | 224 => between 160 191 b1
  | 237 => between 128 159 b1
  | _ => between 225 239 b0 && continuation b1
  end.
Definition four_ok (b0 b1 : N) : bool :=
  match b0 with
  | 240 => between 144 191 b1
  | 244 => between 128 143 b1
  | _ => between 241 243 b0 && continuation b1
  end.

Fixpoint utf8_valid (b : bytes) : bool :=
  match b with
  | [] => true
  | b0 :: r0 =>
      if bool_decide (b0 < 128) then utf8_valid r0
      else match r0 with
      | [] => false
      | b1 :: r1 =>
          if between 194 223 b0 && continuation b1 then utf8_valid r1
          else match r1 with
          | [] => false
          | b2 :: r2 =>
              if three_ok b0 b1 && continuation b2 then utf8_valid r2
              else match r2 with
              | [] => false
              | b3 :: r3 => four_ok b0 b1 && continuation b2 && continuation b3 && utf8_valid r3
              end
          end
      end
  end.

Definition bytes_string (b : bytes) : string := String.string_of_list_ascii (map ascii_of_N b).

(** [String::from_utf8] *)
Definition from_utf8 (b : bytes) : option string := if utf8_valid b then Some (bytes_string b) else None.

(** [str::to_lowercase] on the letters of ASCII; the only other character whose
    lower case is ASCII is the Kelvin sign, whose lower case is k. *)
Definition lower (c : ascii) : ascii :=
  let n := N_of_ascii c in if between 65 90 n then ascii_of_N (n + 32) else c.
Fixpoint to_lowercase (s : string) : string :=
  match s with EmptyString => "" | String c s' => String (lower c) (to_lowercase s') end.

(** [s.replace(c, "")] for a character. *)
Fixpoint remove_char (c : ascii) (s : string) : string :=
  match s with
  | EmptyString => ""
  | String d s' => if decide (d = c) then remove_char c s' else String d (remove_char c s')
  end.

(** [to_le_bytes] *)
Fixpoint le_bytes (k : nat) (n : N) : bytes :=
  match k with O => [] | S k' => n mod 256 :: le_bytes k' (n / 256) end.

(** ** schema.rs *)

Record OrderIntent := MkOrderIntent {
  side : string;
  asset : string;
  max_quote_amount_atomic : string;
  order_type : string;
}.

Record Constraints := MkConstraints {
  max_slippage_bps : N;
  expires_at : string;
  allowed_assets : list string;
  allow_withdrawals : bool;
}.

Record ExecutionIntent := MkExecutionIntent {
  intent_type : string;
  venue : string;
  mode : string;
  source_asset : string;
  orders : list OrderIntent;
  constraints : Constraints;
  client_reference_id : string;
}.

Record BatchExecutionIntent := MkBatch {
  batch_id : string;
  batch_nonce : N;
  batch_timestamp : Z;
  intents : list ExecutionIntent;
  atomic : bool;
}.

Record ExecutedOrder := MkExecutedOrder {
  intent_index : N;
  executed_asset : string;
  executed_side : string;
  requested_quote_amount_atomic : string;
  executed_quote_amount_atomic : string;
  executed_base_amount_atomic : string;
  average_price_atomic : string;
  venue_order_id : string;
  executed_venue : string;
}.

Record FailureContext := MkFailureContext {
  failed_intent_index : N;
  error_code : string;
  error_message : string;
  partial_execution : bool;
}.

Record Proof := MkProof {
  executor_id : string;
  attestation_hash : string;
  receipt_hash : string;
}.

Record ExecutionReceipt := MkReceipt {
  receipt_batch_id : string;
  status : string;
  failure_context : option FailureContext;
  receipt_orders : list ExecutedOrder;
  total_executed_quote_atomic : string;
  receipt_timestamp : N;
  proof : Proof;
  metadata : gmap string string;
}.

(** ** The crates the enclave uses *)

Class XseCrates := {
  sha256 : bytes → bytes;
  hmac_sha256 : bytes → bytes → option bytes;
  hex_encode : bytes → string;
  (** chrono: a point in time, in nanoseconds. *)
  parse_datetime : string → option Z;
  (** rsa: decryption with OAEP, and the modulus of the public key. *)
  RsaPrivateKey : Type;
  modulus_be : RsaPrivateKey → bytes;
  oaep_decrypt : RsaPrivateKey → bytes → option bytes;
  (** ed25519-dalek. *)
  SigningKey : Type;
  key_from_bytes : bytes → SigningKey;
  key_to_bytes : SigningKey → bytes;
  verifying_key : SigningKey → bytes;
  VerifyingKey : Type;
  verifying_key_from_bytes : bytes → option VerifyingKey;
  ed25519_verify : VerifyingKey → bytes → bytes → bool;
  (** pqcrypto-dilithium. *)
  PublicKey : Type;
  DetachedSignature : Type;
  pk_from_bytes : bytes → option PublicKey;
  sig_from_bytes : bytes → option DetachedSignature;
  verify_detached : DetachedSignature → bytes → PublicKey → bool;
  (** serde_json: a list of executed orders. *)
  json_of_orders : list ExecutedOrder → option string;
}.

(** ** validator.rs *)

Inductive ValidationError :=
| WithdrawalsEnabled
| Expired
| AssetNotAllowed (a : string)
| ExcessiveSlippage (bps : N)
| InvalidQuantumSignature
| BatchSizeExceeded (n : N)
| InvalidVenue (v : string).

Definition supported_venues : list string := ["binance"; "xexchange"; "ashswap"; "dry_run"].
Definition MAX_BATCH_SIZE : N := 50.

(** The loop over the orders: the first one that is refused. *)
Fixpoint check_orders (allowed : list string) (os : list OrderIntent) : option ValidationError :=
  match os with
  | [] => None
  | order :: rest =>
      if decide (default 0 (parse_u128 (max_quote_amount_atomic order)) = 0)
      then Some (AssetNotAllowed "INVALID_AMOUNT_ZERO_OR_NON_NUMERIC")
      else if decide (asset order ∉ allowed) then Some (AssetNotAllowed (asset order))
      else check_orders allowed rest
  end.

Section validator.
Context `{XseCrates}.

(** [None] is acceptance; [now] is [Utc::now()]. *)
Definition validate_intent (now : Z) (intent : ExecutionIntent) (quantum_signature : option bytes)
  : option ValidationError :=
  let c := constraints intent in
  if allow_withdrawals c then Some WithdrawalsEnabled
  else if decide (to_lowercase (venue intent) ∉ supported_venues) then Some (InvalidVenue (venue intent))
  else if decide (100 < max_slippage_bps c) then Some (ExcessiveSlippage (max_slippage_bps c))
  else match check_orders (allowed_assets c) (orders intent) with
  | Some e => Some e
  | None =>
      match quantum_signature with
      | None | Some [] => Some InvalidQuantumSignature
      | Some _ =>
          match parse_datetime (expires_at c) with
          | None => Some Expired
          | Some t => if decide (t < now)%Z then Some Expired else None
          end
      end
  end.

(** [signatures.get(index)], flattened. *)
Definition signature_at (signatures : list (option bytes)) (index : nat) : option bytes :=
  mjoin (signatures !! index).

(** The loop over the intents from [index] on; [now] is the clock as each is
    validated. *)
Fixpoint validate_from (is_atomic : bool) (now : nat → Z) (signatures : list (option bytes)) (index : nat)
    (todo : list ExecutionIntent) : list nat + nat * ValidationError :=
  match todo with
  | [] => inl []
  | intent :: rest =>
      match validate_intent (now index) intent (signature_at signatures index) with
      | Some e => if is_atomic then inr (index, e) else validate_from is_atomic now signatures (S index) rest
      | None =>
          match validate_from is_atomic now signatures (S index) rest with
          | inl valid_indices => inl (index :: valid_indices)
          | inr e => inr e
          end
      end
  end.

Definition validate_batch (now : nat → Z) (batch : BatchExecutionIntent) (signatures : list (option bytes))
  : list nat + nat * ValidationError :=
  if decide (batch_id batch = "") then inr (0%nat, AssetNotAllowed "MISSING_BATCH_ID")
  else if decide (MAX_BATCH_SIZE < N.of_nat (length (intents batch)))
  then inr (0%nat, BatchSizeExceeded (N.of_nat (length (intents batch))))
  else validate_from (atomic batch) now signatures 0 (intents batch).
End validator.

(** ** crypto.rs *)

Record EncryptedSecrets := MkSecrets {
  blob : bytes;
  enclave_pubkey_hash : string;
}.

Record DecryptedApiKeys := MkKeys {
  api_key : string;
  api_secret : string;
}.

Definition LENGTH_MISMATCH : string := "FATAL ERROR: Enclave Spoofing Detected. Hash length mismatch.".
Definition HASH_MISMATCH : string := "FATAL ERROR: Enclave Spoofing Detected. Hashes do not match.".
Definition DECRYPT_FAILED : string := "Failed to decrypt secrets using enclave private key".
Definition INVALID_UTF8 : string := "Invalid UTF-8 sequence in decrypted data".
Definition INVALID_FORMAT : string := "Invalid secret format. Expected 'API_KEY:API_SECRET'".

(** The comparison that does not stop early: [diff |= a ^ b]. *)
Definition byte_diff (a b : bytes) : N := foldl (λ diff '(x, y), N.lor diff (N.lxor x y)) 0 (zip a b).

Section crypto.
Context `{XseCrates}.

Definition public_key_hash (private_key : RsaPrivateKey) : string :=
  hex_encode (sha256 (modulus_be private_key)).

Definition decrypt_secrets (private_key : RsaPrivateKey) (secrets : EncryptedSecrets) : result DecryptedApiKeys :=
  let expected_hash := public_key_hash private_key in
  if decide (String.length (enclave_pubkey_hash secrets) ≠ String.length expected_hash) then Err LENGTH_MISMATCH
  else if decide (byte_diff (string_bytes (enclave_pubkey_hash secrets)) (string_bytes expected_hash) ≠ 0)
  then Err HASH_MISMATCH
  else
    match oaep_decrypt private_key (blob secrets) with
    | None => Err DECRYPT_FAILED
    | Some decrypted =>
        match from_utf8 decrypted with
        | None => Err INVALID_UTF8
        | Some decrypted_string =>
            match split_on ":" decrypted_string with
            | [key; secret] => Ok (MkKeys key secret)
            | _ => Err INVALID_FORMAT
            end
        end
    end.

(** A key has 32 bytes, a signature 64. *)
Definition verify_on_chain_authorization (payload signature_bytes pubkey_bytes : bytes) : result unit :=
  if decide (length pubkey_bytes ≠ 32%nat) then Err "Invalid public key length"
  else match verifying_key_from_bytes pubkey_bytes with
  | None => Err "Invalid MultiversX public key"
  | Some public_key =>
      if decide (length signature_bytes ≠ 64%nat) then Err "Invalid signature length"
      else if ed25519_verify public_key payload signature_bytes then Ok tt
      else Err "On-chain authorization verification failed. Unauthorized execution attempt."
  end.

Record EphemeralStealthKeypair := MkStealth {
  stealth_private_key : bytes;
  stealth_public_key : bytes;
  viewing_key : bytes;
}.

Definition stealth_input (enclave_seed user_public_key_bytes : bytes) (intent_nonce : N) : bytes :=
  enclave_seed ++ user_public_key_bytes ++ le_bytes 8 intent_nonce.

Definition derive_ephemeral_stealth_key (enclave_seed user_public_key_bytes : bytes) (intent_nonce : N)
  : EphemeralStealthKeypair :=
  let signing_key := key_from_bytes (sha256 (stealth_input enclave_seed user_public_key_bytes intent_nonce)) in
  let public_key := verifying_key signing_key in
  MkStealth (key_to_bytes signing_key) public_key (sha256 public_key).

(** quantum_shield.rs *)
Definition verify_post_quantum_authorization (payload signature_bytes pubkey_bytes : bytes) : result unit :=
  match pk_from_bytes pubkey_bytes with
  | None => Err "Invalid Dilithium2 Public Key Format"
  | Some pk =>
      match sig_from_bytes signature_bytes with
      | None => Err "Invalid Dilithium2 Signature Format"
      | Some sig =>
          if verify_detached sig payload pk then Ok tt
          else Err "FATAL: Quantum Authorization Failed. FIPS-204 Signature Verification Invalid."
      end
  end.
End crypto.

(** ** relayer.rs *)

Definition PANIC : string := "panic".
Definition BINANCE : string := "https://api.binance.com".

Section relayer.
Context `{XseCrates}.

Definition query_string (asset : string) (amount timestamp : N) : string :=
  "symbol=" +:+ remove_char "/" asset +:+ "&side=BUY&type=MARKET&quoteOrderQty=" +:+ pretty amount +:+
  "&timestamp=" +:+ pretty timestamp.

(** The URL of an order, with its signature. *)
Definition order_url (keys : DecryptedApiKeys) (asset : string) (amount timestamp : N) : result string :=
  let query := query_string asset amount timestamp in
  match hmac_sha256 (string_bytes (api_secret keys)) (string_bytes query) with
  | Some mac => Ok (BINANCE +:+ "/api/v3/order?" +:+ query +:+ "&signature=" +:+ hex_encode mac)
  | None => Err "Failed to create HMAC"
  end.

(** The URLs of the orders, which are prepared and not sent; the result of the
    call is [Ok] when all could be prepared. *)
Fixpoint order_urls (keys : DecryptedApiKeys) (target_assets : list string) (amount timestamp : N)
  : result (list string) :=
  match target_assets with
  | [] => Ok []
  | asset :: rest =>
      match order_url keys asset amount timestamp with
      | Ok url => match order_urls keys rest amount timestamp with Ok urls => Ok (url :: urls) | Err x => Err x end
      | Err x => Err x
      end
  end.

Definition execute_reverse_dca (enclave : RsaPrivateKey) (encrypted_keys : EncryptedSecrets)
    (target_assets : list string) (amount_atomic_str : string) (timestamp : N) : result (list string) :=
  match parse_u128 amount_atomic_str with
  | None => Err "Invalid amount string"
  | Some amount_atomic =>
      match decrypt_secrets enclave encrypted_keys with
      | Err x => Err x
      | Ok api_keys =>
          if decide (target_assets = []) then Err PANIC
          else order_urls api_keys target_assets (amount_atomic / N.of_nat (length target_assets)) timestamp
      end
  end.
End relayer.

(** ** main.rs *)

(** How a run ends: the intent is refused, its signature is, the execution
    fails, the program stops with an error or a panic, or a receipt is written. *)
Inductive outcome :=
| Refused (e : ValidationError)
| Unauthorized (x : string)
| ExecutionFailed (x : string)
| Failed (x : string)
| Receipt (r : ExecutionReceipt).

Definition amount_of (order : OrderIntent) : N := default 0 (parse_u128 (max_quote_amount_atomic order)).
Definition total_amount_atomic (os : list OrderIntent) : N := foldl u128_add 0 (amount_of <$> os).

(** [rand::random::<u32>()] for each order is [random]. *)
Definition executed_orders (random : nat → N) (intent : ExecutionIntent) : list ExecutedOrder :=
  imap (λ index order,
    MkExecutedOrder (N.of_nat index) (asset order) (side order) (max_quote_amount_atomic order)
      (max_quote_amount_atomic order) (pretty (amount_of order / 50)) (pretty (50 * 1000000))
      ("sim_" +:+ pretty (random index)) (venue intent)) (orders intent).

Section main.
Context `{XseCrates}.

(** What the run finds: the clock when the intent is validated, when the orders
    are prepared (in ms) and when the receipt is written, the random numbers,
    the health of the exchange, the enclave's key, the fresh Dilithium key pair
    and the secrets encrypted for the enclave. *)
Record RunEnv := MkRunEnv {
  validated_at : Z;
  executed_at_ms : N;
  finished_at : N;
  random_u32 : nat → N;
  is_healthy : bool;
  enclave : RsaPrivateKey;
  real_pubkey_bytes : bytes;
  real_sign : bytes → bytes;
  encrypted_blob : bytes;
}.

Definition receipt_of (e : RunEnv) (intent : ExecutionIntent) : ExecutionReceipt :=
  let done := executed_orders (random_u32 e) intent in
  MkReceipt "SIM_BATCH_001" "SUCCESS" None done
    (pretty (total_amount_atomic (orders intent))) (finished_at e)
    (MkProof "XSE_NODE_01" (public_key_hash (enclave e))
       (hex_encode (sha256 (string_bytes (default "" (json_of_orders done))))))
    (<["mode" := mode intent]> (<["client_ref" := client_reference_id intent]> ∅)).

(** The URLs prepared, if the execution does not stop the run. *)
Definition execution (e : RunEnv) (intent : ExecutionIntent) : outcome + list string :=
  let encrypted_payload := MkSecrets (encrypted_blob e) (public_key_hash (enclave e)) in
  let target_assets := asset <$> orders intent in
  if decide (mode intent = "dry_run") then
    match decrypt_secrets (enclave e) encrypted_payload with
    | Ok _ => inr []
    | Err x => inl (Failed x)
    end
  else if decide (target_assets = []) then inl (Failed PANIC)
  else if is_healthy e then
    match execute_reverse_dca (enclave e) encrypted_payload target_assets
            (pretty (total_amount_atomic (orders intent))) (executed_at_ms e) with
    | Ok urls => inr urls
    | Err x => inl (ExecutionFailed x)
    end
  else inr [].

Definition payload_to_sign (intent : ExecutionIntent) : bytes :=
  string_bytes ("execute_task_" +:+ client_reference_id intent).

Definition run (e : RunEnv) (intent : ExecutionIntent) : outcome * list string :=
  let real_quantum_sig_bytes := real_sign e (payload_to_sign intent) in
  match validate_intent (validated_at e) intent (Some real_quantum_sig_bytes) with
  | Some err => (Refused err, [])
  | None =>
      match verify_post_quantum_authorization (payload_to_sign intent) real_quantum_sig_bytes
              (real_pubkey_bytes e) with
      | Err x => (Unauthorized x, [])
      | Ok _ =>
          match execution e intent with
          | inl stop => (stop, [])
          | inr urls => (Receipt (receipt_of e intent), urls)
          end
      end
  end.
End main.
