(* ===== verification/XseProps.v ===== *)
(** Properties of the sovereign intent enclave: which batches are valid, which
    secrets are decrypted, that stealth keys are not shared, and what a receipt
    stands for. *)

From S2P Require Import Prelude RustStd Xse.

(** ** Valid intents *)

Section valid.
Context `{XseCrates}.

Definition order_allowed (allowed : list string) (o : OrderIntent) : Prop :=
  (∃ amount, parse_u128 (max_quote_amount_atomic o) = Some amount ∧ 0 < amount) ∧ asset o ∈ allowed.

(** The policy that the validator enforces. *)
Record acceptable (now : Z) (intent : ExecutionIntent) (signature : option bytes) : Prop := {
  no_withdrawals : allow_withdrawals (constraints intent) = false;
  venue_known : to_lowercase (venue intent) ∈ supported_venues;
  slippage_capped : max_slippage_bps (constraints intent) ≤ 100;
  orders_allowed : Forall (order_allowed (allowed_assets (constraints intent))) (orders intent);
  signature_present : ∃ x sig, signature = Some (x :: sig);
  not_expired : ∃ t, parse_datetime (expires_at (constraints intent)) = Some t ∧ (now ≤ t)%Z;
}.

Lemma check_orders_None allowed os : check_orders allowed os = None ↔ Forall (order_allowed allowed) os.
Proof.
  induction os as [|o os IH]; cbn [check_orders]; [done|]. rewrite Forall_cons, <- IH. unfold order_allowed.
  destruct (parse_u128 _) as [a|]; simpl.
  - case_decide; [split; [done|naive_solver lia]|]. case_decide; [split; [done|by intros [[_ ?] _]]|].
    split; [intros ?|naive_solver]. split; [|done]. split; [exists a; split; [done|lia]|]. done.
  - split; [done|naive_solver].
Qed.

Lemma validate_intent_None now intent signature :
  validate_intent now intent signature = None ↔ acceptable now intent signature.
Proof.
  unfold validate_intent. split.
  - destruct (allow_withdrawals _) eqn:Hw; [done|]. do 2 (case_decide; [done|]).
    destruct (check_orders _ _) eqn:Ho; [done|]. apply check_orders_None in Ho.
    destruct signature as [[|x sig]|]; [done| |done]. destruct (parse_datetime _) as [t|] eqn:Ht; [|done].
    case_decide; [done|]. intros _. split; [done| |lia|done|eauto|exists t; split; [done|lia]].
    done.
  - intros [Hw Hv Hs Ho (x & sig & ->) (t & Ht & Hle)]. rewrite Hw, decide_False by (by intros ?).
    rewrite decide_False by lia. apply check_orders_None in Ho. rewrite Ho, Ht. rewrite decide_False; [done|lia].
Qed.

#[export] Instance acceptable_dec now intent signature : Decision (acceptable now intent signature).
Proof.
  destruct (validate_intent now intent signature) as [e|] eqn:Hv;
    [right; rewrite <- validate_intent_None; congruence|left; by apply validate_intent_None].
Defined.

(** The intent at an index of the batch is acceptable, with its signature, when
    it is validated. *)
Definition accepted_at (now : nat → Z) (ints : list ExecutionIntent) (signatures : list (option bytes)) (i : nat) : Prop :=
  match ints !! i with Some intent => acceptable (now i) intent (signature_at signatures i) | None => False end.
#[export] Instance accepted_at_dec now ints signatures i : Decision (accepted_at now ints signatures i).
Proof. unfold accepted_at. destruct (ints !! i); apply _. Defined.

(** The first intent that is refused, and why. *)
Definition first_refused now ints signatures (k i : nat) (e : ValidationError) : Prop :=
  (∃ intent, ints !! i = Some intent ∧ validate_intent (now i) intent (signature_at signatures i) = Some e) ∧
  (k ≤ i)%nat ∧ ∀ j, (k ≤ j < i)%nat → accepted_at now ints signatures j.

Lemma validate_from_spec is_atomic now signatures ints k todo :
  drop k ints = todo →
  match validate_from is_atomic now signatures k todo with
  | inl idx => idx = filter (accepted_at now ints signatures) (seq k (length todo)) ∧
               (is_atomic = true → idx = seq k (length todo))
  | inr (i, e) => is_atomic = true ∧ first_refused now ints signatures k i e
  end.
Proof.
  revert k. induction todo as [|intent todo IH]; intros k Hd; [done|]. cbn [validate_from length seq].
  assert (ints !! k = Some intent) as Hk by (rewrite <- (Nat.add_0_r k), <- lookup_drop, Hd; done).
  assert (drop (S k) ints = todo) as Hd' by (rewrite <- Nat.add_1_r, <- drop_drop, Hd; done).
  specialize (IH (S k) Hd'). rewrite filter_cons.
  destruct (validate_intent _ _ _) as [e|] eqn:Hv.
  - destruct is_atomic.
    + split; [done|]. split; [eauto|]. split; [lia|]. intros j ?. lia.
    + rewrite decide_False by (unfold accepted_at; rewrite Hk, <- validate_intent_None; congruence).
      destruct (validate_from _ _ _ _ _) as [idx|[i e']]; [by destruct IH|by destruct IH].
  - assert (accepted_at now ints signatures k) as Hok.
    { unfold accepted_at. rewrite Hk. by apply validate_intent_None. }
    rewrite decide_True by done. destruct (validate_from _ _ _ _ _) as [idx|[i e]].
    + destruct IH as [<- Hall]. split; [done|]. intros Ha. by rewrite <- Hall.
    + destruct IH as (Ha & Hi & Hle & Hj). split; [done|]. split; [done|]. split; [lia|]. intros j Hjk.
      destruct (decide (j = k)) as [->|]; [done|]. apply Hj. lia.
Qed.

(** A batch is validated by the policy.  A batch needs an identifier and at
    most 50 intents.  Then the indices returned are those of the acceptable
    intents, in order: no withdrawals, a supported venue, at most 1% slippage,
    every order with a positive amount in an allowed asset, a signature, and
    not expired.  An atomic batch returns all of its indices or the first
    refused one with its error. *)
Theorem batch_validated now batch signatures :
  let ints := intents batch in
  let n := N.of_nat (length ints) in
  match validate_batch now batch signatures with
  | inl idx =>
      batch_id batch ≠ "" ∧ n ≤ 50 ∧
      idx = filter (accepted_at now ints signatures) (seq 0 (length ints)) ∧
      (atomic batch = true → idx = seq 0 (length ints))
  | inr (i, e) =>
      (batch_id batch = "" ∧ i = 0%nat ∧ e = AssetNotAllowed "MISSING_BATCH_ID") ∨
      (batch_id batch ≠ "" ∧ 50 < n ∧ i = 0%nat ∧ e = BatchSizeExceeded n) ∨
      (batch_id batch ≠ "" ∧ n ≤ 50 ∧ atomic batch = true ∧ first_refused now ints signatures 0 i e)
  end.
Proof.
  intros ints n. unfold validate_batch. case_decide as Hid; [auto|]. fold ints n. unfold MAX_BATCH_SIZE.
  case_decide as Hn; [right; left; done|]. pose proof (validate_from_spec (atomic batch) now signatures ints 0 ints eq_refl) as Hs.
  destruct (validate_from _ _ _ _ _) as [idx|[i e]]; cbv iota beta.
  - destruct Hs as [-> Hall]. split_and!; [done|by apply N.nlt_ge|done|done].
  - destruct Hs. right. right. split_and!; [done|lia|done|done].
Qed.

(** The signature is not verified against anything: whichever is given, an
    intent is valid or not alike. *)
Lemma any_signature_accepted now intent x sig y sig' :
  validate_intent now intent (Some (x :: sig)) = validate_intent now intent (Some (y :: sig')).
Proof. done. Qed.
End valid.

(** ** Secrets *)

Lemma lor_0 a b : N.lor a b = 0 ↔ a = 0 ∧ b = 0.
Proof. apply N.lor_eq_0_iff. Qed.

Lemma byte_diff_from acc a b :
  length a = length b →
  foldl (λ diff '(x, y), N.lor diff (N.lxor x y)) acc (zip a b) = 0 ↔ acc = 0 ∧ a = b.
Proof.
  revert acc b. induction a as [|x a IH]; intros acc [|y b] Hl; simplify_eq/=; [naive_solver|].
  rewrite IH by done. rewrite lor_0, N.lxor_eq_0_iff. naive_solver.
Qed.

Lemma string_bytes_inj a b : string_bytes a = string_bytes b → a = b.
Proof.
  unfold string_bytes. revert b. induction a as [|x a IH]; intros [|y b] Heq; try done.
  simpl in Heq. injection Heq as Hx Hrest. f_equal; [|by apply IH].
  apply (f_equal ascii_of_N) in Hx. by rewrite !ascii_N_embedding in Hx.
Qed.

Lemma hash_checked (a b : string) :
  String.length a = String.length b → byte_diff (string_bytes a) (string_bytes b) = 0 ↔ a = b.
Proof.
  intros Hl. unfold byte_diff. rewrite byte_diff_from by (by rewrite !string_bytes_length).
  split; [|by intros ->]. intros [_ Heq]. by apply string_bytes_inj.
Qed.

Definition char_free (c : ascii) (s : string) : Prop := c ∉ String.list_ascii_of_string s.

Lemma split_on_free c s : char_free c s → split_on c s = [s].
Proof.
  unfold char_free. induction s as [|x s IH]; intros Hf; [done|]. simpl in *.
  rewrite decide_False by set_solver. by rewrite IH by set_solver.
Qed.

Lemma split_on_app c a s : char_free c a → split_on c (a +:+ String c s) = a :: split_on c s.
Proof.
  unfold char_free. induction a as [|x a IH]; intros Hf.
  - simpl. by rewrite decide_True.
  - rewrite string_app_cons. simpl in Hf. cbn [split_on]. rewrite decide_False by set_solver. by rewrite IH by set_solver.
Qed.

Lemma split_on_nonempty c s : split_on c s ≠ [].
Proof. destruct s as [|x s]; [done|]. simpl. case_decide; [done|]. by destruct (split_on c s). Qed.

Lemma split_on_one c s p : split_on c s = [p] → s = p ∧ char_free c p.
Proof.
  unfold char_free. revert p. induction s as [|x s IH]; intros p Hs; simpl in Hs; [simplify_eq/=; set_solver|].
  case_decide; [injection Hs as _ Hs; by apply split_on_nonempty in Hs|].
  destruct (split_on c s) as [|q rest] eqn:Hq; [by apply split_on_nonempty in Hq|]. injection Hs as <- ->.
  destruct (IH q eq_refl) as [-> Hf]. simpl. set_solver.
Qed.

Lemma split_on_two c s p q :
  split_on c s = [p; q] ↔ s = p +:+ String c q ∧ char_free c p ∧ char_free c q.
Proof.
  split; [|intros (-> & Hp & Hq); by rewrite split_on_app, split_on_free].
  unfold char_free. revert p. induction s as [|x s IH]; intros p Hs; simpl in Hs; [done|]. case_decide as Hx.
  - injection Hs as <- Hs. apply split_on_one in Hs as [-> Hf]. subst x. split_and!; [done|set_solver|done].
  - destruct (split_on c s) as [|p' rest] eqn:Hp; [done|]. injection Hs as <- ->.
    destruct (IH p' eq_refl) as (-> & Hf & Hq). rewrite string_app_cons. simpl. split_and!; [done|set_solver|done].
Qed.

Section enclave.
Context `{XseCrates}.

(** Secrets are decrypted for this enclave.  Keys come out exactly when
    the ciphertext names this enclave's key and decrypts, under it, to UTF-8
    text of the form API_KEY:API_SECRET with a single colon; the comparison
    that does not stop early decides equality of the hashes. *)
Theorem decrypt_secrets_correct private_key secrets key secret :
  decrypt_secrets private_key secrets = Ok (MkKeys key secret) ↔
  enclave_pubkey_hash secrets = public_key_hash private_key ∧
  ∃ plain, oaep_decrypt private_key (blob secrets) = Some plain ∧ utf8_valid plain = true ∧
    bytes_string plain = key +:+ String ":" secret ∧ char_free ":" key ∧ char_free ":" secret.
Proof.
  unfold decrypt_secrets. case_decide as Hl.
  { split; [done|]. intros [Heq _]. by rewrite Heq in Hl. }
  case_decide as Hd.
  { split; [done|]. intros [Heq _]. by apply hash_checked in Heq. }
  rewrite hash_checked in Hd by done.
  destruct (oaep_decrypt _ _) as [plain|]; [|split; [done|naive_solver]].
  unfold from_utf8. destruct (utf8_valid plain) eqn:Hu; [|split; [done|naive_solver congruence]].
  pose proof (split_on_two ":" (bytes_string plain) key secret) as Hs.
  split.
  - intros Hok. split; [done|]. exists plain. split; [done|]. split; [done|]. apply Hs.
    destruct (split_on _ _) as [|k [|v [|]]]; naive_solver.
  - intros (_ & plain' & [= <-] & _ & Hp). apply Hs in Hp. by rewrite Hp.
Qed.

(** ** Stealth keys *)

Lemma le_bytes_inj k a b : a < 256 ^ N.of_nat k → b < 256 ^ N.of_nat k → le_bytes k a = le_bytes k b → a = b.
Proof.
  revert a b. induction k as [|k IH]; intros a b Ha Hb Heq; [simpl in *; lia|].
  cbn [le_bytes] in Heq. injection Heq as Hm Hrest. rewrite Nat2N.inj_succ, N.pow_succ_r' in *.
  apply IH in Hrest; [|by apply N.Div0.div_lt_upper_bound..].
  rewrite (N.div_mod a 256), (N.div_mod b 256) by done. congruence.
Qed.

Lemma stealth_input_inj seed pub nonce seed' pub' nonce' :
  length seed = length seed' → length pub = length pub' → nonce < u64_mod → nonce' < u64_mod →
  stealth_input seed pub nonce = stealth_input seed' pub' nonce' → seed = seed' ∧ pub = pub' ∧ nonce = nonce'.
Proof.
  intros Hs Hp Hn Hn' Heq. unfold stealth_input in Heq. apply app_inj_1 in Heq as [-> Heq]; [|done].
  apply app_inj_1 in Heq as [-> Heq]; [|done]. apply (le_bytes_inj 8) in Heq; [done| |]; done.
Qed.

(** Stealth keys are not shared.  When the crate gives back the seed a key
    was made from, two derivations with the same private key have the same
    enclave seed, user and nonce, or exhibit a collision of SHA-256. *)
Theorem stealth_keys_distinct seed pub nonce seed' pub' nonce' :
  (∀ b, key_to_bytes (key_from_bytes (sha256 b)) = sha256 b) →
  length seed = 32%nat → length seed' = 32%nat → length pub = 32%nat → length pub' = 32%nat →
  nonce < u64_mod → nonce' < u64_mod →
  stealth_private_key (derive_ephemeral_stealth_key seed pub nonce) =
    stealth_private_key (derive_ephemeral_stealth_key seed' pub' nonce') →
  (seed = seed' ∧ pub = pub' ∧ nonce = nonce') ∨ ∃ x y, x ≠ y ∧ sha256 x = sha256 y.
Proof.
  intros Hkey Hs Hs' Hp Hp' Hn Hn' Heq. unfold derive_ephemeral_stealth_key in Heq. simpl in Heq.
  rewrite !Hkey in Heq.
  destruct (decide (stealth_input seed pub nonce = stealth_input seed' pub' nonce')) as [Hi|Hi]; [left|right; eauto].
  apply stealth_input_inj in Hi; [done|congruence..| |]; done.
Qed.
End enclave.

(** ** Receipts *)

Section receipts.
Context `{XseCrates}.

Definition authorized (e : RunEnv) (intent : ExecutionIntent) : Prop :=
  acceptable (validated_at e) intent (Some (real_sign e (payload_to_sign intent))) ∧
  verify_post_quantum_authorization (payload_to_sign intent) (real_sign e (payload_to_sign intent))
    (real_pubkey_bytes e) = Ok tt.

Lemma run_authorized e intent :
  authorized e intent →
  run e intent = match execution e intent with
                 | inl stop => (stop, [])
                 | inr urls => (Receipt (receipt_of e intent), urls)
                 end.
Proof. intros [Hok Hv]. unfold run. apply validate_intent_None in Hok. by rewrite Hok, Hv. Qed.

(** When the exchange is not healthy nothing is executed, and the receipt
    reports every order as executed all the same. *)
Lemma unhealthy_run_succeeds e intent :
  authorized e intent → mode intent ≠ "dry_run" → orders intent ≠ [] → is_healthy e = false →
  run e intent = (Receipt (receipt_of e intent), []) ∧ status (receipt_of e intent) = "SUCCESS".
Proof.
  intros Ha Hm Ho Hh. rewrite run_authorized by done. unfold execution. rewrite decide_False by done.
  rewrite decide_False by (by destruct (orders intent)). by rewrite Hh.
Qed.

(** An intent without orders is valid, and then panics. *)
Lemma empty_intent_panics e intent :
  authorized e intent → mode intent ≠ "dry_run" → orders intent = [] → run e intent = (Failed PANIC, []).
Proof.
  intros Ha Hm Ho. rewrite run_authorized by done. unfold execution. rewrite decide_False by done. by rewrite Ho.
Qed.

Lemma order_urls_length keys assets amount timestamp urls :
  order_urls keys assets amount timestamp = Ok urls → length urls = length assets.
Proof.
  revert urls. induction assets as [|a assets IH]; intros urls Hu; cbn [order_urls] in Hu; [by simplify_eq|].
  destruct (order_url _ _ _ _); [|done]. destruct (order_urls _ _ _ _) as [us|]; [|done].
  injection Hu as <-. simpl. by rewrite (IH us).
Qed.

Lemma execution_stop e intent r : execution e intent ≠ inl (Receipt r).
Proof.
  unfold execution. repeat case_decide; [by destruct (decrypt_secrets _ _)|done|].
  destruct (is_healthy e); [by destruct (execute_reverse_dca _ _ _ _ _)|done].
Qed.

Lemma total_amount_sum os acc :
  acc + foldr N.add 0 (amount_of <$> os) < u128_mod →
  foldl u128_add acc (amount_of <$> os) = acc + foldr N.add 0 (amount_of <$> os).
Proof.
  revert acc. induction os as [|o os IH]; intros acc Hfit; cbn in *; [by rewrite N.add_0_r|].
  rewrite u128_add_small by lia. rewrite IH by lia. lia.
Qed.

(** C37: a receipt needs a valid intent.  A run writes a receipt only when the
    policy accepts the intent and the post-quantum signature verifies.  The
    receipt has one executed order for each order of the intent, in order, for
    the amount requested, and its total reads back as their sum when it fits;
    one signed order was prepared for each of them, or none at all in a dry run
    or while the exchange is not healthy. *)
Theorem receipt_for_valid_intent e intent r urls :
  run e intent = (Receipt r, urls) →
  authorized e intent ∧
  (λ o, (executed_asset o, executed_side o, executed_quote_amount_atomic o)) <$> receipt_orders r =
    (λ o, (asset o, side o, max_quote_amount_atomic o)) <$> orders intent ∧
  (foldr N.add 0 (amount_of <$> orders intent) < u128_mod →
   parse_u128 (total_executed_quote_atomic r) = Some (foldr N.add 0 (amount_of <$> orders intent))) ∧
  (if decide (mode intent = "dry_run" ∨ is_healthy e = false) then urls = []
   else length urls = length (orders intent)).
Proof.
  intros Hrun. assert (authorized e intent ∧ execution e intent = inr urls ∧ r = receipt_of e intent)
    as (Ha & He & ->).
  { unfold run in Hrun. destruct (validate_intent _ _ _) eqn:Hv; [done|]. apply validate_intent_None in Hv.
    destruct (verify_post_quantum_authorization _ _ _) as [[]|] eqn:Hq; [|done]. split; [done|].
    destruct (execution e intent) as [stop|us] eqn:He; [|by injection Hrun as <- <-].
    injection Hrun as -> _. by apply execution_stop in He. }
  split; [done|]. split_and!.
  - unfold receipt_of, executed_orders. simpl. rewrite fmap_imap.
    apply list_eq. intros i. rewrite list_lookup_imap, list_lookup_fmap. by destruct (orders intent !! i).
  - intros Hfit. unfold receipt_of, total_amount_atomic. simpl. by rewrite total_amount_sum, parse_to_string by lia.
  - unfold execution in He. destruct (decide (mode intent = "dry_run")) as [Hm|Hm].
    + rewrite decide_True by auto. destruct (decrypt_secrets _ _); by simplify_eq.
    + case_decide as Hn; [done|]. destruct (is_healthy e).
      * rewrite decide_False by naive_solver. unfold execute_reverse_dca in He.
        destruct (parse_u128 _); [|done]. destruct (decrypt_secrets _ _) as [keys|]; [|done].
        rewrite decide_False in He by done. destruct (order_urls _ _ _ _) as [us|] eqn:Hu; [|done].
        injection He as <-. apply order_urls_length in Hu. by rewrite Hu, length_fmap.
      * rewrite decide_True by auto. by simplify_eq.
Qed.
End receipts.

(** ** Concrete runs *)

(** Toy crates. *)
#[local] Instance toy_xse : XseCrates := {|
  sha256 b := b;
  hmac_sha256 k b := Some (k ++ b);
  hex_encode b := bytes_string b;
  parse_datetime s := if decide (s = "2030") then Some 2030%Z else None;
  RsaPrivateKey := bytes;
  modulus_be k := k;
  oaep_decrypt k b := Some b;
  SigningKey := bytes;
  key_from_bytes b := b;
  key_to_bytes k := k;
  verifying_key k := rev k;
  VerifyingKey := bytes;
  verifying_key_from_bytes b := Some b;
  ed25519_verify _ _ _ := true;
  PublicKey := bytes;
  DetachedSignature := bytes;
  pk_from_bytes b := Some b;
  sig_from_bytes b := Some b;
  verify_detached sig payload pk := bool_decide (sig = pk ++ payload);
  json_of_orders _ := Some "[]";
|}.

Lemma stealth_keys_distinct_witness :
  let seed := replicate 32 170 in
  let pub := replicate 32 85 in
  (seed = seed ∧ pub = pub ∧ 88004 = 88004) ∨ ∃ x y : bytes, x ≠ y ∧ sha256 x = sha256 y.
Proof. intros seed pub. by apply (stealth_keys_distinct seed pub 88004 seed pub 88004). Defined.

Definition sample_intent : ExecutionIntent :=
  MkExecutionIntent "single_asset_swap" "Binance" "live" "USDT"
    [MkOrderIntent "BUY" "ETH" "100" "MARKET"; MkOrderIntent "BUY" "BTC" "+50" "MARKET"]
    (MkConstraints 100 "2030" ["ETH"; "BTC"] false) "ref".

Definition sample_env : RunEnv :=
  MkRunEnv 2026 1000 7 (λ i, N.of_nat i) true [1; 2] [9] (λ b, 9 :: b) (string_bytes "KEY:SECRET").

Lemma receipt_for_valid_intent_witness :
  ∃ r urls, run sample_env sample_intent = (Receipt r, urls) ∧ length urls = 2%nat ∧
    authorized sample_env sample_intent ∧ parse_u128 (total_executed_quote_atomic r) = Some 150.
Proof.
  destruct (run sample_env sample_intent) as [out urls] eqn:Hrun.
  assert (∃ r, out = Receipt r) as [r ->].
  { vm_compute in Hrun. injection Hrun as <- _. eauto. }
  exists r, urls. destruct (receipt_for_valid_intent _ _ _ _ Hrun) as (Ha & _ & Ht & Hu).
  split_and!; [done|exact Hu|exact Ha|]. apply Ht. by vm_compute.
Defined.
