(* ===== verification/KeeperKeys.v ===== *)
(** The keeper's keys, seeds and secrets (xcron-keeper-rs/src/wallet.rs,
    quantum_shield.rs, cex_relayer.rs) and how the daemon loads its wallets at
    start-up (main.rs).  The contents of files, the random bytes, the clock and
    what the gateways answer are arguments. *)

From S2P Require Import Prelude RustStd Xse KeeperTx KeeperNet.

(** ** Standard library *)

(** [&s[..n]], and whether [n] falls between two characters. *)
Fixpoint str_take (n : nat) (s : string) : string :=
  match n, s with S n', String c s' => String c (str_take n' s') | _, _ => "" end.
Fixpoint is_char_boundary (s : string) (n : nat) : bool :=
  match n, s with
  | O, String c _ => negb (continuation (N_of_ascii c))
  | O, EmptyString => true
  | S n', String _ s' => is_char_boundary s' n'
  | S _, EmptyString => false
  end.
Definition slice_to (n : nat) (s : string) : result string :=
  if is_char_boundary s n then Ok (str_take n s) else Err PANIC.

(** [s.replace(c, "")] *)
Fixpoint remove_char (c : ascii) (s : string) : string :=
  match s with
  | EmptyString => ""
  | String d s' => if decide (d = c) then remove_char c s' else String d (remove_char c s')
  end.

Fixpoint str_drop (n : nat) (s : string) : string :=
  match n, s with S n', String _ s' => str_drop n' s' | _, _ => s end.
Definition ends_with (s suffix : string) : bool :=
  bool_decide (String.length suffix ≤ String.length s)%nat &&
  bool_decide (str_drop (String.length s - String.length suffix) s = suffix).

(** ** wallet.rs *)

(** The fields of a JSON wallet that are strings. *)
Record HydraValue := MkHydra {
  h_address : option string;
  h_private_key : option string;
  h_secret_hex : option string;
}.

(** The crates the keys are read with: regex, base64, hex, bech32,
    ed25519-dalek, sha2 and pqcrypto-dilithium.  [pem_capture] is the group of
    the pattern that cuts the body out of a PEM file. *)
Class KeyCrates `{Crates} := {
  pem_capture : string → option string;
  base64_decode : string → result bytes;
  hex_decode : string → result bytes;
  bech32_encode : string → bytes → result string;
  signing_key : bytes → SigningKey;
  verifying_key : SigningKey → bytes;
  sha256_digest : bytes → bytes;
  pq_public_key : bytes → bool;
  pq_signature : bytes → bool;
  pq_verify : bytes → bytes → bytes → bool;
}.

Definition NO_PEM : string := "No PEM content found".
Definition BAD_UTF8 : string := "invalid utf-8 sequence".
Definition BAD_KEY_LENGTH : string := "Invalid key length parsed from PEM. Expected 32 or 64 bytes.".
Definition BAD_SEED_LENGTH (address : string) : string := "Invalid seed length in JSON for address: " +:+ address.
Definition FALLBACK_ADDRESS : string := "erd1qqqqqqqqqqqqqpgqjq6g52c9dxy7vtckspndqxhqmm0mmken7k8sahvvd5".

Section wallet.
Context `{KeyCrates, !Bech32}.

Definition wallet_of_seed (seed : bytes) : result KeeperWallet :=
  let key := signing_key seed in
  match bech32_encode "erd" (verifying_key key) with
  | Ok address => Ok (MkWallet _ key address)
  | Err x => Err x
  end.

(** The bytes of the key in the decoded body of a PEM file. *)
Definition pem_key_bytes (decoded_bytes : bytes) : result bytes :=
  if decide (length decoded_bytes = 64 ∨ length decoded_bytes = 32)%nat then Ok decoded_bytes
  else
    match from_utf8 decoded_bytes with
    | Some decoded_hex_str => hex_decode (trim decoded_hex_str)
    | None => Err BAD_UTF8
    end.

Definition pem_seed (decoded_bytes : bytes) : result bytes :=
  match pem_key_bytes decoded_bytes with
  | Err x => Err x
  | Ok key_bytes =>
      if decide (length key_bytes ≠ 64 ∧ length key_bytes ≠ 32)%nat then Err BAD_KEY_LENGTH
      else Ok (take 32 key_bytes)
  end.

Definition load_pem (content : result string) : result KeeperWallet :=
  match content with
  | Err x => Err x
  | Ok pem_content =>
      match pem_capture pem_content with
      | None => Err NO_PEM
      | Some body =>
          match base64_decode (remove_char "010"%char body) with
          | Err x => Err x
          | Ok decoded_bytes =>
              match pem_seed decoded_bytes with Ok seed => wallet_of_seed seed | Err x => Err x end
          end
      end
  end.

(** One wallet of the JSON file: the address is the one the file states. *)
Definition load_hydra_wallet (jw : HydraValue) : result KeeperWallet :=
  let address := default "" (h_address jw) in
  let hex_key := default "" (match h_private_key jw with Some k => Some k | None => h_secret_hex jw end) in
  match (if decide (64 ≤ String.length hex_key)%nat then slice_to 64 hex_key else Ok hex_key) with
  | Err x => Err x
  | Ok seed_hex =>
      match hex_decode seed_hex with
      | Err x => Err x
      | Ok seed_bytes =>
          if decide (length seed_bytes = 32%nat) then Ok (MkWallet _ (signing_key seed_bytes) address)
          else Err (BAD_SEED_LENGTH address)
      end
  end.

(** The first wallet that cannot be read fails the whole file. *)
Fixpoint load_hydra_wallets (json_wallets : list HydraValue) : result (list KeeperWallet) :=
  match json_wallets with
  | [] => Ok []
  | jw :: rest =>
      match load_hydra_wallet jw with
      | Err x => Err x
      | Ok w => match load_hydra_wallets rest with Ok ws => Ok (w :: ws) | Err x => Err x end
      end
  end.
Definition load_hydra_json (content : result (list HydraValue)) : result (list KeeperWallet) :=
  match content with Ok json_wallets => load_hydra_wallets json_wallets | Err x => Err x end.

(** [random] are the 32 bytes drawn. *)
Definition generate_random_address (random : bytes) : string :=
  match bech32_encode "erd" random with Ok a => a | Err _ => FALLBACK_ADDRESS end.

Definition generate_throwaway (random : bytes) : result KeeperWallet :=
  match wallet_of_seed random with Ok w => Ok w | Err _ => Err PANIC end.

(** The loop draws from [draws i], [draws (i + 1)], ...; [None] while it has
    not ended after [fuel] draws. *)
Fixpoint generate_cross_shard_address (draws : nat → bytes) (sender_shard num_shards : N) (fuel i : nat)
  : option (result string) :=
  match fuel with
  | O => None
  | S fuel' =>
      let addr := generate_random_address (draws i) in
      match get_shard addr num_shards with
      | Err x => Some (Err x)
      | Ok target_shard =>
          if decide (target_shard ≠ sender_shard) then Some (Ok addr)
          else generate_cross_shard_address draws sender_shard num_shards fuel' (S i)
      end
  end.

(** ** main.rs: the wallets of the daemon *)

Record Cli := MkCli {
  wallets_file : option string;
  target_shard : option N;
  wallets_limit : nat;
  (** Modes ArbitrageHft and EventKeeper. *)
  single_wallet_mode : bool;
}.

Definition NO_WALLETS : string := "No wallets found. Cannot execute without funded wallets.".

Definition actual_path (cli : Cli) (exists_file : string → bool) : string :=
  match wallets_file cli with
  | Some path => path
  | None =>
      if exists_file "./.secrets/hydra-keys.json" then "./.secrets/hydra-keys.json"
      else if exists_file "../.secrets/hydra-keys.json" then "../.secrets/hydra-keys.json"
      else if exists_file "./.secrets/wallet.pem" then "./.secrets/wallet.pem"
      else "../.secrets/wallet.pem"
  end.

(** The wallets of the shard the daemon works for. *)
Fixpoint of_shard (shard : option N) (loaded : list KeeperWallet) : result (list KeeperWallet) :=
  match loaded with
  | [] => Ok []
  | w :: rest =>
      match of_shard shard rest with
      | Err x => Err x
      | Ok ws =>
          match shard with
          | None => Ok (w :: ws)
          | Some s =>
              match get_shard (bech32_address w) 3 with
              | Err x => Err x
              | Ok s' => if decide (s' ≠ s) then Ok ws else Ok (w :: ws)
              end
          end
      end
  end.

Definition limit_wallets (cli : Cli) (wallets : list KeeperWallet) : list KeeperWallet :=
  let wallets := if decide (0 < wallets_limit cli ∧ wallets_limit cli < length wallets)%nat
                 then take (wallets_limit cli) wallets else wallets in
  if single_wallet_mode cli then take 1 wallets else wallets.

Definition load_wallets (cli : Cli) (exists_file : string → bool) (read_pem : string → result string)
    (read_json : string → result (list HydraValue)) : result (list KeeperWallet) :=
  let path := actual_path cli exists_file in
  match
    (if ends_with path ".pem"
     then match load_pem (read_pem path) with
          | Ok w => Ok [w]
          | Err _ => Err ("Failed to load wallet from " +:+ path)
          end
     else match load_hydra_json (read_json path) with
          | Ok loaded => of_shard (target_shard cli) loaded
          | Err x => Err x
          end)
  with
  | Err x => Err x
  | Ok [] => Err NO_WALLETS
  | Ok wallets => Ok (limit_wallets cli wallets)
  end.

(** The nonces the wallets start from: 0 for one that cannot be fetched. *)
Definition setup_nonces (fetch : string → result N) (wallets : list KeeperWallet) : list N :=
  (λ w, match fetch (bech32_address w) with Ok n => n | Err _ => 0 end) <$> wallets.
End wallet.

(** ** quantum_shield.rs *)

Definition PQ_MALFORMED : string := "PQ Public Key or Signature Payload Malformed".
Definition PQ_BAD_KEY : string := "Invalid Dilithium2 Public Key Format".
Definition PQ_BAD_SIGNATURE : string := "Invalid Dilithium2 Signature Format".
Definition PQ_REJECTED : string :=
  "FATAL: Quantum Authorization Failed. FIPS-204 Signature Verification Invalid.".

(** What a gateway answers to the status request: nothing, or its status code
    and, when the body has one, the hash of the latest block. *)
Inductive StatusAnswer :=
| NoAnswer
| StatusAnswered (code : N) (latest_block_hash : option string).

Section shield.
Context `{KeyCrates}.

Definition verify_post_quantum_intent (public_key payload signature_bytes : bytes) : result bool :=
  if decide (public_key = [] ∨ signature_bytes = []) then Err PQ_MALFORMED
  else if negb (pq_public_key public_key) then Err PQ_BAD_KEY
  else if negb (pq_signature signature_bytes) then Err PQ_BAD_SIGNATURE
  else if pq_verify signature_bytes payload public_key then Ok true else Err PQ_REJECTED.

(** The low byte of [now.wrapping_sub(last)]; [clock i] is the [i]th reading,
    in nanoseconds. *)
Definition jitter_byte (now last : N) : N := ((now + u128_mod - last) mod u128_mod) mod 256.
Definition collect_cpu_jitter (clock : nat → N) : bytes :=
  (λ i, jitter_byte (clock (S i)) (clock i)) <$> seq 0 256.

Definition status_url (gateway : string) : string :=
  trim_end (λ c, bool_decide (c = "/"%char)) gateway +:+ "/network/status/0".

(** The daemon logs at level Info, so the line that prints the first ten
    characters of the hash is evaluated. *)
Fixpoint fetch_consensus_block_hash (answer : string → StatusAnswer) (gateways : list string)
  : result (option bytes) :=
  match gateways with
  | [] => Ok None
  | gateway :: rest =>
      match answer (status_url gateway) with
      | StatusAnswered code (Some hash) =>
          if decide (code = 200) then
            match hex_decode hash with
            | Ok b => match slice_to 10 hash with Ok _ => Ok (Some b) | Err x => Err x end
            | Err _ => fetch_consensus_block_hash answer rest
            end
          else fetch_consensus_block_hash answer rest
      | _ => fetch_consensus_block_hash answer rest
      end
  end.

(** The time is taken as 16 big-endian bytes of nanoseconds. *)
Definition entropy_pool (jitter : bytes) (time_nanos : N) (block_hash : option bytes) (os_entropy : bytes) : bytes :=
  jitter ++ be_bytes 16 (time_nanos mod u128_mod) ++ default [] block_hash ++ os_entropy.

Definition fetch_true_quantum_entropy (answer : string → StatusAnswer) (gateways : list string)
    (clock : nat → N) (time_nanos : N) (os_entropy : bytes) : result bytes :=
  match fetch_consensus_block_hash answer gateways with
  | Ok block_hash => Ok (sha256_digest (entropy_pool (collect_cpu_jitter clock) time_nanos block_hash os_entropy))
  | Err x => Err x
  end.

Definition generate_quantum_commit_sync (clock : nat → N) (time_nanos : N) (os_entropy : bytes) : bytes :=
  sha256_digest (collect_cpu_jitter clock ++ be_bytes 16 (time_nanos mod u128_mod) ++ os_entropy).
End shield.

(** ** cex_relayer.rs *)

Inductive CexNetworkStatus := Online | Maintenance | Suspended.
#[export] Instance CexNetworkStatus_eq_dec : EqDecision CexNetworkStatus.
Proof. solve_decision. Defined.

Record EncryptedSecrets := MkSecrets {
  blob : bytes;
  enclave_attestation_signature : string;
}.
Record PlaintextApiKeys := MkApiKeys { api_key : string; api_secret : string }.
Record CexRelayer := MkRelayer { binance_api_url : string; network_status : CexNetworkStatus }.

Definition new_relayer : CexRelayer := MkRelayer "https://api.binance.com" Online.
Definition check_binance_health (r : CexRelayer) (asset : string) : bool := bool_decide (network_status r = Online).

Definition SPOOFED : string :=
  "ERROR: Intento de spoofing de enclave detectado. Firma de atestación inválida.".
Definition DCA_DONE : string :=
  "SUCCESS: Reverse DCA completado. Memoria RAM sobrescrita con ceros (0x00).".

Definition decrypt_secrets (secrets : EncryptedSecrets) : result PlaintextApiKeys :=
  if decide (String.length (enclave_attestation_signature secrets) < 64)%nat then Err SPOOFED
  else Ok (MkApiKeys "BINANCE_API_KEY_SIMULATED" "BINANCE_API_SECRET_SIMULATED").

(** The trades are only printed: the result does not depend on the assets or on
    the amount, an [f64] that is only divided and printed. *)
Definition execute_reverse_dca (encrypted_keys : EncryptedSecrets) (target_assets : list string) : result string :=
  match decrypt_secrets encrypted_keys with Ok _ => Ok DCA_DONE | Err x => Err x end.

(** ** The text of keys *)

Fixpoint str_all (P : ascii → bool) (s : string) : bool :=
  match s with EmptyString => true | String c s' => P c && str_all P s' end.
Definition is_hex (c : ascii) : bool := let n := N_of_ascii c in between 48 57 n || between 97 102 n.

Lemma str_all_app P a b : str_all P (a +:+ b) = str_all P a && str_all P b.
Proof. induction a as [|c a IH]; [done|]. rewrite string_app_cons. simpl. by rewrite IH, andb_assoc. Qed.

Lemma str_all_weaken (P P' : ascii → bool) s :
  (∀ c, P c = true → P' c = true) → str_all P s = true → str_all P' s = true.
Proof.
  intros HP. induction s as [|c s IH]; [done|]. simpl.
  intros [Hc Hs]%andb_true_iff. by rewrite HP, IH.
Qed.

Lemma below_16 (P : N → Prop) :
  P 0 → P 1 → P 2 → P 3 → P 4 → P 5 → P 6 → P 7 → P 8 → P 9 → P 10 → P 11 → P 12 → P 13 → P 14 → P 15 →
  ∀ d, d < 16 → P d.
Proof.
  intros. assert (d = 0 ∨ d = 1 ∨ d = 2 ∨ d = 3 ∨ d = 4 ∨ d = 5 ∨ d = 6 ∨ d = 7 ∨ d = 8 ∨ d = 9 ∨ d = 10 ∨
    d = 11 ∨ d = 12 ∨ d = 13 ∨ d = 14 ∨ d = 15) as Hcases by lia. by destruct_or! Hcases; subst d.
Qed.

Lemma hex_digit_is_hex d : d < 16 → is_hex (hex_digit d) = true.
Proof. revert d. by apply below_16. Qed.

Lemma hex_of_cons x b :
  x < 256 → hex_of (x :: b) = String (hex_digit (x / 16)) (String (hex_digit (x mod 16)) (hex_of b)).
Proof.
  intros Hx. cbn [hex_of]. rewrite format_0x_fixed by done. cbn [hex_fixed].
  rewrite (N.mod_small (x / 16)) by (apply N.Div0.div_lt_upper_bound; lia). done.
Qed.

Lemma hex_of_is_hex b : octets b → str_all is_hex (hex_of b) = true.
Proof.
  induction 1 as [|x b Hx _ IH]; [done|]. rewrite hex_of_cons by done. cbn [str_all].
  rewrite !hex_digit_is_hex, IH; [done|apply N.mod_lt; lia|apply N.Div0.div_lt_upper_bound; lia].
Qed.

(** ASCII text survives [String::from_utf8]. *)
Definition is_ascii (c : ascii) : bool := bool_decide (N_of_ascii c < 128).

Lemma hex_is_ascii c : is_hex c = true → is_ascii c = true.
Proof.
  unfold is_hex, is_ascii, between. cbv zeta. rewrite orb_true_iff, !andb_true_iff, !bool_decide_eq_true. lia.
Qed.

Lemma bytes_string_bytes s : bytes_string (string_bytes s) = s.
Proof.
  unfold bytes_string, string_bytes. rewrite map_map, (map_ext _ id), map_id by apply ascii_N_embedding.
  apply String.string_of_list_ascii_of_string.
Qed.

Lemma utf8_ascii s : str_all is_ascii s = true → utf8_valid (string_bytes s) = true.
Proof.
  induction s as [|c s IH]; [done|]. cbn [str_all]. intros [Hc Hs]%andb_true_iff.
  unfold is_ascii in Hc. change (string_bytes (String c s)) with (N_of_ascii c :: string_bytes s).
  cbn [utf8_valid]. rewrite Hc. by apply IH.
Qed.

Lemma from_utf8_ascii s : str_all is_ascii s = true → from_utf8 (string_bytes s) = Some s.
Proof. intros Hs. unfold from_utf8. by rewrite utf8_ascii, bytes_string_bytes. Qed.

Lemma string_bytes_app a b : string_bytes (a +:+ b) = string_bytes a ++ string_bytes b.
Proof. induction a as [|c a IH]; [done|]. rewrite string_app_cons. cbn. by f_equal. Qed.

(** Text without white space has nothing to trim. *)
Lemma hex_not_space c : is_hex c = true → is_whitespace c = false.
Proof.
  unfold is_hex, is_whitespace, between. cbv zeta.
  rewrite orb_true_iff, orb_false_iff, !andb_true_iff, andb_false_iff, !bool_decide_eq_true, !bool_decide_eq_false. lia.
Qed.

Lemma trim_start_hex s : str_all is_hex s = true → trim_start is_whitespace s = s.
Proof.
  destruct s as [|c s]; [done|]. cbn [str_all trim_start]. intros [Hc _]%andb_true_iff. by rewrite hex_not_space.
Qed.

Lemma trim_end_hex s t :
  str_all is_hex s = true → str_all is_whitespace t = true → trim_end is_whitespace (s +:+ t) = s.
Proof.
  intros Hs Ht. induction s as [|c s IH].
  - induction t as [|d t IHt]; [done|]. cbn [str_all] in Ht. apply andb_true_iff in Ht as [Hd Ht].
    change ("" +:+ String d t) with (String d t). cbn [trim_end]. change ("" +:+ t) with t in IHt.
    by rewrite IHt, Hd.
  - cbn [str_all] in Hs. apply andb_true_iff in Hs as [Hc Hs]. rewrite string_app_cons. cbn [trim_end].
    rewrite IH by done. destruct s; [by rewrite hex_not_space|done].
Qed.

Lemma trim_hex s t :
  s ≠ "" → str_all is_hex s = true → str_all is_whitespace t = true → trim (s +:+ t) = s.
Proof.
  intros Hne Hs Ht. unfold trim. destruct s as [|c s]; [done|]. rewrite string_app_cons. cbn [trim_start].
  assert (is_hex c = true) as Hc by (cbn [str_all] in Hs; by apply andb_true_iff in Hs as [? _]).
  rewrite hex_not_space by done. rewrite <- string_app_cons. by apply trim_end_hex.
Qed.

Lemma str_take_app a b : str_take (String.length a) (a +:+ b) = a.
Proof. induction a as [|c a IH]; [done|]. rewrite string_app_cons. cbn [String.length str_take]. by rewrite IH. Qed.

Lemma boundary_ascii s n : str_all is_ascii s = true → (n ≤ String.length s)%nat → is_char_boundary s n = true.
Proof.
  revert n. induction s as [|c s IH]; intros [|n] Hs Hn; cbn in *; try done; try lia.
  - apply andb_true_iff in Hs as [Hc _]. unfold is_ascii in Hc. apply bool_decide_eq_true in Hc.
    unfold continuation. rewrite bool_decide_eq_false_2 by lia. done.
  - apply andb_true_iff in Hs as [_ Hs]. apply IH; [done|lia].
Qed.

(** ** The wallets *)

Section wallets.
Context `{KeyCrates, !Bech32}.

(** The hex crate reads back what it writes. *)
Definition hex_reads_back : Prop := ∀ b, octets b → hex_decode (hex_of b) = Ok b.

Lemma pem_seed_hex b t :
  hex_reads_back → octets b → str_all is_whitespace t = true → str_all is_ascii t = true →
  b ≠ [] → (2 * length b + String.length t ≠ 64)%nat → (2 * length b + String.length t ≠ 32)%nat →
  pem_seed (string_bytes (hex_of b +:+ t)) =
    if decide (length b ≠ 64 ∧ length b ≠ 32)%nat then Err BAD_KEY_LENGTH else Ok (take 32 b).
Proof.
  intros Hread Hb Ht Hta Hne H64 H32. pose proof (hex_of_is_hex b Hb) as Hhex. pose proof (hex_of_length b Hb) as Hlen.
  unfold pem_seed, pem_key_bytes. rewrite string_bytes_length, string_length_app, Hlen, decide_False by lia.
  rewrite from_utf8_ascii by (rewrite str_all_app, (str_all_weaken is_hex) by (done || apply hex_is_ascii); done).
  rewrite trim_hex, Hread; [done..| |done|done]. intros Hnil. rewrite Hnil in Hlen. by destruct b.
Qed.

(** The seed of a JSON wallet is read from the first 64 digits. *)
Lemma hydra_key seed rest address :
  hex_reads_back → octets seed → octets rest → length seed = 32%nat →
  load_hydra_wallet (MkHydra (Some address) (Some (hex_of (seed ++ rest))) None)
    = Ok (MkWallet _ (signing_key seed) address).
Proof.
  intros Hread Hs Hr Hl. unfold load_hydra_wallet. simpl.
  pose proof (hex_of_length seed Hs) as Hls. rewrite Hl in Hls.
  assert (String.length (hex_of (seed ++ rest)) = 64 + 2 * length rest)%nat as Hlen
    by (rewrite hex_of_app, string_length_app, Hls, hex_of_length by done; lia).
  rewrite decide_True by lia. unfold slice_to. rewrite boundary_ascii; [|..|lia].
  - rewrite hex_of_app. replace 64%nat with (String.length (hex_of seed)) by done.
    rewrite str_take_app, Hread by done. by rewrite decide_True.
  - eapply str_all_weaken; [apply hex_is_ascii|]. apply hex_of_is_hex. by apply Forall_app.
Qed.

(** C30: every key file yields the seed it holds, but one.  A PEM body of 32 or
    64 raw bytes, of 128 hexadecimal digits, or of 64 digits and white space,
    and a JSON wallet with 64 or 128 digits, all load the signing key of the
    same seed; but 64 digits without white space are 64 bytes, and are taken
    for a raw key: the seed is then the text of the first 32 digits.  The
    address of a PEM wallet is the encoding of its public key; that of a JSON
    wallet is whatever the file says. *)
Theorem wallet_seed_recovered seed pub :
  hex_reads_back → octets seed → octets pub →
  length seed = 32%nat → length pub = 32%nat →
  (∀ body, body ∈ [seed; seed ++ pub; string_bytes (hex_of (seed ++ pub));
                   string_bytes (hex_of seed +:+ String "010" "")] → pem_seed body = Ok seed) ∧
  pem_seed (string_bytes (hex_of seed)) = Ok (string_bytes (hex_of (take 16 seed))) ∧
  (∀ content body wallet, pem_capture content = Some body →
     base64_decode (remove_char "010" body) = Ok (seed ++ pub) → load_pem (Ok content) = Ok wallet →
     wallet_key wallet = signing_key seed ∧
     bech32_encode "erd" (verifying_key (wallet_key wallet)) = Ok (bech32_address wallet)) ∧
  ∀ address, 
    load_hydra_wallet (MkHydra (Some address) (Some (hex_of seed)) None) = Ok (MkWallet _ (signing_key seed) address) ∧
    load_hydra_wallet (MkHydra (Some address) None (Some (hex_of (seed ++ pub)))) =
      Ok (MkWallet _ (signing_key seed) address).
Proof.
  intros Hread Hs Hp Hls Hlp. assert (take 32 (seed ++ pub) = seed) as Htake by by apply take_app_length'.
  assert (length (seed ++ pub) = 64%nat) as Hlen by (rewrite length_app; lia).
  assert (pem_seed (seed ++ pub) = Ok seed) as Hraw.
  { unfold pem_seed, pem_key_bytes. rewrite decide_True by lia. rewrite decide_False by lia. by rewrite Htake. }
  split_and!.
  - intros body Hin. rewrite !elem_of_cons, elem_of_nil in Hin. destruct Hin as [->|[->|[->|[->|[]]]]].
    + unfold pem_seed, pem_key_bytes. rewrite decide_True by lia. rewrite decide_False by lia.
      by rewrite take_ge by lia.
    + done.
    + rewrite <- (string_app_nil (hex_of _)), pem_seed_hex; try done; try (by apply Forall_app).
      * rewrite decide_False by lia. by rewrite Htake.
      * intros Hnil. by rewrite Hnil in Hlen.
      * rewrite Hlen. simpl. lia.
      * rewrite Hlen. simpl. lia.
    + rewrite pem_seed_hex; try done.
      * rewrite decide_False by lia. by rewrite take_ge by lia.
      * intros ->. done.
      * rewrite Hls. simpl. lia.
      * rewrite Hls. simpl. lia.
  - unfold pem_seed, pem_key_bytes. pose proof (hex_of_length seed Hs) as Hhl.
    rewrite decide_True by (rewrite string_bytes_length; lia).
    rewrite decide_False by (rewrite string_bytes_length; lia). f_equal.
    rewrite <- (take_drop 16 seed) at 1. rewrite hex_of_app, string_bytes_app. apply take_app_length'.
    rewrite string_bytes_length, hex_of_length by by apply Forall_take. rewrite length_take. lia.
  - intros content body wallet Hcap Hb64 Hload. unfold load_pem in Hload. rewrite Hcap, Hb64, Hraw in Hload.
    unfold wallet_of_seed in Hload. destruct (bech32_encode _ _) as [a|] eqn:Ha; [|done].
    injection Hload as <-. done.
  - intros address. split.
    + rewrite <- (app_nil_r seed) at 1. by apply hydra_key.
    + rewrite <- (hydra_key seed pub address) by done. done.
Qed.

(** ** The search for an address of another shard *)

(** The bech32 crate encodes every 32 bytes, and reads back what it writes. *)
Definition bech32_reads_back : Prop :=
  ∀ b, length b = 32%nat → octets b → ∃ a, bech32_encode "erd" b = Ok a ∧ bech32_bytes a = Some b.

(** What is drawn, and the shard of the address made of the [i]th draw. *)
Definition random_bytes (b : bytes) : Prop := length b = 32%nat ∧ octets b.
Definition drawn_shard (draws : nat → bytes) (num_shards : N) (i : nat) : N :=
  default 0 (last (draws i)) mod num_shards.

Lemma get_shard_drawn draws num_shards i :
  bech32_reads_back → num_shards ≠ 0 → random_bytes (draws i) →
  bech32_bytes (generate_random_address (draws i)) = Some (draws i) ∧
  get_shard (generate_random_address (draws i)) num_shards = Ok (drawn_shard draws num_shards i).
Proof.
  intros Hback Hn [Hl Hb]. destruct (Hback (draws i) Hl Hb) as (a & Henc & Hdec).
  unfold generate_random_address, get_shard, drawn_shard. rewrite Henc, Hdec. split; [done|].
  destruct (last (draws i)) as [x|] eqn:Hx; [by rewrite decide_False|].
  apply last_None in Hx. by rewrite Hx in Hl.
Qed.

Lemma search_skips draws sender_shard num_shards fuel n i :
  bech32_reads_back → num_shards ≠ 0 → (∀ j, random_bytes (draws j)) →
  (∀ j, (i ≤ j < i + n)%nat → drawn_shard draws num_shards j = sender_shard) →
  generate_cross_shard_address draws sender_shard num_shards (n + fuel) i =
    generate_cross_shard_address draws sender_shard num_shards fuel (i + n).
Proof.
  intros Hback Hn Hl. revert i. induction n as [|n IH]; intros i Hs; [f_equal; lia|].
  cbn [Nat.add generate_cross_shard_address].
  destruct (get_shard_drawn draws num_shards i Hback Hn (Hl i)) as [_ ->].
  rewrite Hs by lia. rewrite decide_False by naive_solver. rewrite IH by (intros; apply Hs; lia).
  f_equal. lia.
Qed.

(** The search ends at the first draw of another shard, and only there:
    as soon as the fuel covers it, the result is that draw's address; while all
    draws lie in the sender's shard it goes on for ever, which with a single
    shard they do. *)
Theorem cross_shard_search draws sender_shard num_shards :
  bech32_reads_back → num_shards ≠ 0 → (∀ j, random_bytes (draws j)) →
  let gen fuel := generate_cross_shard_address draws sender_shard num_shards fuel 0 in
  (∀ i fuel, (i < fuel)%nat → (∀ j, (j < i)%nat → drawn_shard draws num_shards j = sender_shard) →
     drawn_shard draws num_shards i ≠ sender_shard →
     ∃ addr, gen fuel = Some (Ok addr) ∧ bech32_bytes addr = Some (draws i) ∧
       ∃ s, get_shard addr num_shards = Ok s ∧ s ≠ sender_shard) ∧
  ((∀ i, drawn_shard draws num_shards i = sender_shard) → ∀ fuel, gen fuel = None) ∧
  (num_shards = 1 → sender_shard = 0 → ∀ fuel, gen fuel = None).
Proof.
  intros Hback Hn Hl gen.
  assert (Hnever : (∀ i, drawn_shard draws num_shards i = sender_shard) → ∀ fuel, gen fuel = None).
  { intros Hs fuel. unfold gen. replace fuel with (fuel + 0)%nat by lia. by rewrite search_skips by auto. }
  split_and!; [|done|].
  - intros i fuel Hi Hbefore Hother. unfold gen. replace fuel with (i + S (fuel - i - 1))%nat by lia.
    rewrite search_skips by (try done; intros; apply Hbefore; lia). rewrite Nat.add_0_l.
    destruct (get_shard_drawn draws num_shards i Hback Hn (Hl i)) as [Hdec Hshard].
    exists (generate_random_address (draws i)). cbn [generate_cross_shard_address].
    rewrite Hshard, decide_True by done. eauto.
  - intros -> ->. apply Hnever. intros i. apply N.mod_1_r.
Qed.

(** ** The wallets of the daemon *)

Lemma of_shard_on s loaded ws :
  of_shard (Some s) loaded = Ok ws → Forall (λ w, get_shard (bech32_address w) 3 = Ok s) ws.
Proof.
  revert ws. induction loaded as [|w rest IH]; intros ws Hf; cbn [of_shard] in Hf; [by simplify_eq|].
  destruct (of_shard (Some s) rest) as [ws'|]; [|done].
  destruct (get_shard (bech32_address w) 3) as [s'|] eqn:Hs; [|done].
  case_decide; simplify_eq/=; [by apply IH|]. constructor; [done|by apply IH].
Qed.

Lemma limit_wallets_spec cli ws :
  ws ≠ [] → limit_wallets cli ws ≠ [] ∧ limit_wallets cli ws `prefix_of` ws ∧
  ((0 < wallets_limit cli)%nat → (length (limit_wallets cli ws) ≤ wallets_limit cli)%nat) ∧
  (single_wallet_mode cli = true → length (limit_wallets cli ws) = 1%nat).
Proof.
  intros Hne. unfold limit_wallets.
  assert (∃ k, (0 < k)%nat ∧ (if decide (0 < wallets_limit cli ∧ wallets_limit cli < length ws)%nat
    then take (wallets_limit cli) ws else ws) = take k ws ∧ ((0 < wallets_limit cli)%nat → (length (take k ws) ≤ wallets_limit cli)%nat))
    as (k & Hk & -> & Hlim).
  { case_decide as Hd.
    - exists (wallets_limit cli). split_and!; [lia|done|]. rewrite length_take. lia.
    - exists (length ws). rewrite firstn_all. split_and!; [destruct ws; [done|simpl; lia]|done|]. lia. }
  destruct ws as [|w ws]; [done|]. destruct k as [|k]; [lia|].
  destruct (single_wallet_mode cli).
  - change (take 1 (take (S k) (w :: ws))) with [w].
    split_and!; [done|by exists ws|simpl; lia|done].
  - split_and!; [done|apply prefix_take|done|done].
Qed.

(** The daemon starts with wallets it may use: some, no more than the
    limit, one in the modes that use a single wallet, and, when it works for a
    shard and reads a JSON file, all of that shard by their stated address. *)
Theorem startup_wallets cli exists_file read_pem read_json ws :
  load_wallets cli exists_file read_pem read_json = Ok ws →
  ws ≠ [] ∧ ((0 < wallets_limit cli)%nat → (length ws ≤ wallets_limit cli)%nat) ∧
  (single_wallet_mode cli = true → length ws = 1%nat) ∧
  (∀ s, target_shard cli = Some s → ends_with (actual_path cli exists_file) ".pem" = false →
     Forall (λ w, get_shard (bech32_address w) 3 = Ok s) ws).
Proof.
  unfold load_wallets. intros Hload.
  assert (∃ all, all ≠ [] ∧ ws = limit_wallets cli all ∧
    (∀ s, target_shard cli = Some s → ends_with (actual_path cli exists_file) ".pem" = false →
     Forall (λ w, get_shard (bech32_address w) 3 = Ok s) all)) as (all & Hne & -> & Hall).
  { destruct (ends_with _ _) eqn:Hend.
    - destruct (load_pem _) as [w|]; simplify_eq/=. by exists [w].
    - destruct (load_hydra_json _) as [loaded|]; [|done].
      destruct (of_shard (target_shard cli) loaded) as [[|w all]|] eqn:Hof; simplify_eq.
      exists (w :: all). split_and!; [done|done|]. intros s Hs _. rewrite Hs in Hof. by eapply of_shard_on. }
  destruct (limit_wallets_spec cli all Hne) as (? & Hpre & ? & ?). split_and!; [done|done|done|].
  intros s Hs Hend. destruct Hpre as [rest Hrest]. specialize (Hall s Hs Hend). rewrite Hrest in Hall.
  by apply Forall_app in Hall as [? _].
Qed.
End wallets.

(** ** The seeds *)

Section seeds.
Context `{KeyCrates}.

Lemma be_val_bytes k n : be_val (be_bytes k n) = n mod 256 ^ N.of_nat k.
Proof.
  revert n. induction k as [|k IH]; intros n; [by rewrite N.mod_1_r|].
  cbn [be_bytes]. unfold be_val. rewrite fold_left_app. cbn [fold_left]. fold (be_val (be_bytes k (n / 256))).
  rewrite IH, Nat2N.inj_succ, N.pow_succ_r', N.Div0.mod_mul_r. lia.
Qed.

(** The gateways up to the first that answers a hash in hexadecimal; a hash of
    fewer than ten characters stops the program. *)
Definition usable (answer : string → StatusAnswer) (gateway : string) : option string :=
  match answer (status_url gateway) with
  | StatusAnswered code (Some hash) =>
      if decide (code = 200) then match hex_decode hash with Ok _ => Some hash | Err _ => None end else None
  | _ => None
  end.

Lemma consensus_hash_spec answer gateways :
  fetch_consensus_block_hash answer gateways =
    match omap (usable answer) gateways with
    | [] => Ok None
    | hash :: _ =>
        match hex_decode hash, slice_to 10 hash with
        | Ok b, Ok _ => Ok (Some b)
        | Err x, _ | _, Err x => Err x
        end
    end.
Proof.
  induction gateways as [|g rest IH]; [done|]. cbn [fetch_consensus_block_hash]. rewrite IH. clear IH.
  cbn [omap list_omap]. destruct (usable answer g) as [h|] eqn:Hu; unfold usable in Hu;
    destruct (answer (status_url g)) as [|code [hash|]]; try done; case_decide; try done.
  all: destruct (hex_decode hash) eqn:Hh; simplify_eq/=; rewrite ?Hh; try done.
Qed.

Lemma jitter_length clock : length (collect_cpu_jitter clock) = 256%nat.
Proof. unfold collect_cpu_jitter. by rewrite length_fmap, length_seq. Qed.

(** Seeds mix all their inputs.  When no gateway answers a usable hash, the
    seed is the one computed without the network; and for block hashes of the
    same length two equal seeds either come from the same jitter, instant,
    block hash and operating-system entropy, or are a collision of the hash
    function. *)
Theorem entropy_mixes_inputs answer gateways clock t os answer' gateways' clock' t' os' h h' :
  fetch_consensus_block_hash answer gateways = Ok h →
  fetch_consensus_block_hash answer' gateways' = Ok h' →
  length (default [] h) = length (default [] h') → t < u128_mod → t' < u128_mod →
  (h = None → fetch_true_quantum_entropy answer gateways clock t os = Ok (generate_quantum_commit_sync clock t os)) ∧
  (fetch_true_quantum_entropy answer gateways clock t os = fetch_true_quantum_entropy answer' gateways' clock' t' os' →
   (collect_cpu_jitter clock = collect_cpu_jitter clock' ∧ t = t' ∧ default [] h = default [] h' ∧ os = os') ∨
   ∃ x y, x ≠ y ∧ sha256_digest x = sha256_digest y).
Proof.
  intros Hh Hh' Hlen Ht Ht'. unfold fetch_true_quantum_entropy. rewrite Hh, Hh'. split; [by intros ->|].
  intros [= Heq].
  destruct (decide (entropy_pool (collect_cpu_jitter clock) t h os = entropy_pool (collect_cpu_jitter clock') t' h' os'))
    as [Hpool|Hpool]; [left|right; eauto].
  unfold entropy_pool in Hpool. rewrite !N.mod_small in Hpool by done.
  apply app_inj_1 in Hpool as [-> Hpool]; [|by rewrite !jitter_length].
  apply app_inj_1 in Hpool as [Htime Hpool]; [|by rewrite !be_bytes_length].
  apply app_inj_1 in Hpool as [-> ->]; [|done]. split_and!; try done.
  apply (f_equal be_val) in Htime. rewrite !be_val_bytes, !N.mod_small in Htime; done.
Qed.

(** A post-quantum signature is accepted exactly when both parts are present
    and well formed and the signature verifies; the result is never [Ok false]. *)
Lemma pq_intent_verified public_key payload signature_bytes v :
  verify_post_quantum_intent public_key payload signature_bytes = Ok v ↔
  v = true ∧ public_key ≠ [] ∧ signature_bytes ≠ [] ∧ pq_public_key public_key = true ∧
  pq_signature signature_bytes = true ∧ pq_verify signature_bytes payload public_key = true.
Proof.
  unfold verify_post_quantum_intent. case_decide as Hnil; [split; [done|naive_solver]|].
  destruct (pq_public_key public_key), (pq_signature signature_bytes), (pq_verify signature_bytes payload public_key);
    simpl; (split; [intros Hv; simplify_eq; naive_solver|intros (-> & ?); naive_solver]).
Qed.
End seeds.

(** The attestation is only measured: any 64 bytes unlock the secrets. *)
Lemma any_attestation_unlocks secrets target_assets :
  execute_reverse_dca secrets target_assets =
    if decide (64 ≤ String.length (enclave_attestation_signature secrets))%nat then Ok DCA_DONE else Err SPOOFED.
Proof. unfold execute_reverse_dca, decrypt_secrets. repeat case_decide; done || lia. Qed.

(** ** Witnesses *)

(** The value of a hexadecimal digit, and the bytes of pairs of them. *)
Definition hex_value (c : ascii) : option N :=
  let n := N_of_ascii c in
  if between 48 57 n then Some (n - 48) else if between 97 102 n then Some (n - 87) else None.
Fixpoint sample_hex_decode (s : string) : result bytes :=
  match s with
  | EmptyString => Ok []
  | String c (String d s') =>
      match hex_value c, hex_value d, sample_hex_decode s' with
      | Some x, Some y, Ok b => Ok (x * 16 + y :: b)
      | _, _, _ => Err "invalid hex"
      end
  | _ => Err "odd length"
  end.

#[local] Instance sample_crates : Crates := {|
  SigningKey := bytes;
  ed25519_sign key _ := key;
  base64_encode := bytes_string;
  hex_encode := hex_of;
  json_of_tx _ := Ok "";
|}.
#[local] Instance sample_keys : KeyCrates := {|
  pem_capture s := Some s;
  base64_decode s := Ok (string_bytes s);
  hex_decode := sample_hex_decode;
  bech32_encode hrp b := Ok (hrp +:+ "1" +:+ hex_of b);
  signing_key seed := seed;
  verifying_key key := key;
  sha256_digest b := b;
  pq_public_key _ := true;
  pq_signature _ := true;
  pq_verify _ _ _ := true;
|}.
#[local] Instance sample_bech32 : Bech32 := λ s,
  match sample_hex_decode (str_drop 4 s) with Ok b => Some b | Err _ => None end.

Lemma hex_value_digit d : d < 16 → hex_value (hex_digit d) = Some d.
Proof. revert d. by apply below_16. Qed.

Lemma sample_hex_back : hex_reads_back.
Proof.
  intros b Hb. induction Hb as [|x b Hx _ IH]; [done|]. rewrite hex_of_cons by done. simpl hex_decode in *.
  cbn [sample_hex_decode]. rewrite IH, !hex_value_digit by (apply N.mod_lt || apply N.Div0.div_lt_upper_bound; lia).
  do 2 f_equal. pose proof (N.div_mod x 16). lia.
Qed.

Lemma sample_bech32_back : bech32_reads_back.
Proof.
  intros b _ Hb. exists ("erd" +:+ "1" +:+ hex_of b). split; [done|]. unfold bech32_bytes, sample_bech32.
  change (str_drop 4 ("erd" +:+ "1" +:+ hex_of b)) with (hex_of b).
  pose proof (sample_hex_back b Hb) as Hread. cbn [hex_decode sample_keys] in Hread. by rewrite Hread.
Qed.

Definition sample_seed : bytes := replicate 32 7.
Definition sample_pub : bytes := replicate 32 9.

Lemma wallet_seed_recovered_witness :
  pem_seed (string_bytes (hex_of (sample_seed ++ sample_pub))) = Ok sample_seed ∧
  pem_seed (string_bytes (hex_of sample_seed)) = Ok (string_bytes (hex_of (replicate 16 7))).
Proof.
  destruct (wallet_seed_recovered sample_seed sample_pub) as (Hfiles & Hbad & _).
  - exact sample_hex_back.
  - apply (bool_decide_unpack _). by vm_compute.
  - apply (bool_decide_unpack _). by vm_compute.
  - reflexivity.
  - reflexivity.
  - split; [apply Hfiles; set_solver|exact Hbad].
Defined.

(** The first two draws lie in shard 1, the third in shard 2. *)
Definition sample_draws (i : nat) : bytes := replicate 32 (if decide (i < 2)%nat then 1 else 2).

Lemma cross_shard_search_witness :
  ∃ addr, generate_cross_shard_address sample_draws 1 3 5 0 = Some (Ok addr) ∧ bech32_bytes addr = Some (replicate 32 2).
Proof.
  destruct (cross_shard_search sample_draws 1 3) as (Hfind & _ & _).
  - exact sample_bech32_back.
  - lia.
  - intros j. unfold sample_draws. split; [done|]. apply Forall_replicate. case_decide; lia.
  - destruct (Hfind 2%nat 5%nat) as (addr & Hgen & Hdec & _).
    + lia.
    + intros j Hj. unfold drawn_shard, sample_draws. by rewrite decide_True.
    + by vm_compute.
    + exists addr. split; [exact Hgen|exact Hdec].
Defined.

Definition sample_cli : Cli := MkCli (Some "keys.json") (Some 1) 1 false.
Definition sample_json : list HydraValue :=
  [MkHydra (Some ("erd1" +:+ hex_of sample_pub)) (Some (hex_of sample_seed)) None;
   MkHydra (Some ("erd1" +:+ hex_of (replicate 32 1))) None (Some (hex_of (sample_seed ++ sample_pub)))].

Lemma startup_wallets_witness :
  ∃ ws, load_wallets sample_cli (λ _, false) (λ _, Err "") (λ _, Ok sample_json) = Ok ws ∧
    length ws = 1%nat ∧ Forall (λ w, get_shard (bech32_address w) 3 = Ok 1) ws.
Proof.
  destruct (load_wallets sample_cli (λ _, false) (λ _, Err "") (λ _, Ok sample_json)) as [ws|] eqn:Hload.
  - exists ws. split; [reflexivity|].
    destruct (startup_wallets sample_cli (λ _, false) (λ _, Err "") (λ _, Ok sample_json) ws Hload)
      as (Hne & Hlim & _ & Hshard).
    split; [|apply Hshard; reflexivity]. specialize (Hlim ltac:(simpl; lia)). simpl in Hlim.
    destruct ws as [|w [|]]; [done|reflexivity|simpl in Hlim; lia].
  - exfalso. vm_compute in Hload. discriminate Hload.
Defined.

Lemma entropy_mixes_inputs_witness :
  fetch_true_quantum_entropy (λ _, NoAnswer) ["http://a/"] (λ i, N.of_nat i) 5 [1; 2]
    = Ok (generate_quantum_commit_sync (λ i, N.of_nat i) 5 [1; 2]).
Proof.
  apply (entropy_mixes_inputs (λ _, NoAnswer) ["http://a/"] (λ i, N.of_nat i) 5 [1; 2]
    (λ _, NoAnswer) [] (λ i, N.of_nat i) 5 [1; 2] None None).
  - reflexivity.
  - reflexivity.
  - reflexivity.
  - by vm_compute.
  - by vm_compute.
  - reflexivity.
Defined.

(** A gateway that answers a short hash stops the keeper. *)
Lemma short_hash_panics :
  fetch_consensus_block_hash (λ _, StatusAnswered 200 (Some "abcd")) ["http://a"] = Err PANIC.
Proof. by vm_compute. Qed.
