(* ===== verification/AgentDispatch.v ===== *)
(** The encrypted dispatch of a task to an agent
    (AIAgentDispatcher of xcron-keeper-rs/src/dispatcher.rs): what is
    encrypted, what is signed, and the request. *)

From S2P Require Import Prelude RustStd KeeperTx KeeperTxProps KeeperNet Xse XseProps.

(** The cipher of the dispatcher: ChaCha20-Poly1305 with the shared secret, a
    nonce, the message and the additional data. *)
Class Cipher := aead_encrypt : bytes → bytes → bytes → bytes → bytes.

Record AgentRequest := MkRequest {
  idempotency_key : string;
  agent_task_id : string;
  executor_id : string;
  encrypted_payload : string;
  executor_signature : string;
  request_timestamp : N;
}.

Section code.
Context `{!KeeperTx.Crates} `{!Cipher}.

(** The nonce is drawn by [ChaCha20Poly1305::generate_nonce]. *)
Definition apply_quantum_shield (cipher_key nonce_bytes data aad : bytes) : string :=
  "Q-SEALED-" +:+ base64_encode (nonce_bytes ++ aead_encrypt cipher_key nonce_bytes data aad).

Definition agent_aad (task_id key : string) (timestamp : N) : string :=
  task_id +:+ "_" +:+ key +:+ "_" +:+ pretty timestamp.

Definition agent_payload_to_sign (key task_id secure_payload : string) (timestamp : N) : string :=
  key +:+ ":" +:+ task_id +:+ ":" +:+ secure_payload +:+ ":" +:+ pretty timestamp.

(** [uuid] is the fresh idempotency key; the request is built and not sent. *)
Definition agent_dispatch (cipher_key nonce_bytes : bytes) (uuid : string) (timestamp : N)
    (task : ExecutionTask) (wallet : KeeperWallet) : AgentRequest * DispatchReceipt :=
  let secure_payload := apply_quantum_shield cipher_key nonce_bytes (payload_bytes task)
                          (string_bytes (agent_aad (task_id task) uuid timestamp)) in
  let signature := ed25519_sign (wallet_key wallet)
                     (string_bytes (agent_payload_to_sign uuid (task_id task) secure_payload timestamp)) in
  (MkRequest uuid (task_id task) (bech32_address wallet) secure_payload (KeeperTx.hex_encode signature) timestamp,
   KeeperNet.MkReceipt "success" ("ai_req_" +:+ uuid) None timestamp).

(** [AIAgentDispatcher::new]: the key of the cipher, from the environment or
    from a file of secrets; anything but 32 bytes in hexadecimal stops the
    keeper. *)
Definition shared_secret (hex_decode : string → result bytes) (env_secret file_secret : option string) : result bytes :=
  match (match env_secret with Some s => Some s | None => trim <$> file_secret end) with
  | None => Err KeeperNet.PANIC
  | Some shared_secret_hex =>
      match hex_decode shared_secret_hex with
      | Ok secret_bytes => if decide (length secret_bytes = 32%nat) then Ok secret_bytes else Err KeeperNet.PANIC
      | Err _ => Err KeeperNet.PANIC
      end
  end.
End code.

(** ** What the signature and the cipher are bound to *)

Lemma char_free_cons c x s : char_free c (String x s) ↔ c ≠ x ∧ char_free c s.
Proof. unfold char_free. simpl. set_solver. Qed.

Lemma app_sep_inj c a b a' b' :
  char_free c a → char_free c a' → a +:+ String c b = a' +:+ String c b' → a = a' ∧ b = b'.
Proof.
  revert a'. induction a as [|x a IH]; intros [|x' a'] Ha Ha' Heq.
  - by injection Heq.
  - injection Heq as -> _. by apply char_free_cons in Ha' as [[] _].
  - injection Heq as -> _. by apply char_free_cons in Ha as [[] _].
  - rewrite !string_app_cons in Heq. injection Heq as -> Heq.
    apply char_free_cons in Ha as [_ Ha], Ha' as [_ Ha'].
    destruct (IH a' Ha Ha' Heq) as [-> ->]. done.
Qed.

Lemma string_one c s : String c "" +:+ s = String c s.
Proof. done. Qed.

Lemma string_app_assoc_cons c a b d : a +:+ String c (b +:+ d) = (a +:+ String c b) +:+ d.
Proof. by rewrite <- string_app_cons, string_app_assoc. Qed.

Lemma char_free_app c a b : char_free c (a +:+ b) ↔ char_free c a ∧ char_free c b.
Proof.
  induction a as [|x a IH]; [unfold char_free; simpl; set_solver|].
  rewrite string_app_cons, !char_free_cons, IH. naive_solver.
Qed.

Lemma app_sep_inj_r c a b a' b' :
  char_free c b → char_free c b' → a +:+ String c b = a' +:+ String c b' → a = a' ∧ b = b'.
Proof.
  intros Hb Hb'. revert a'. induction a as [|x a IH]; intros [|x' a'] Heq.
  - by injection Heq.
  - injection Heq as -> ->. apply char_free_app in Hb as [_ Hb]. by apply char_free_cons in Hb as [[] _].
  - injection Heq as -> <-. apply char_free_app in Hb' as [_ Hb']. by apply char_free_cons in Hb' as [[] _].
  - rewrite !string_app_cons in Heq. injection Heq as -> Heq. by destruct (IH a' Heq) as [-> ->].
Qed.

Lemma pretty_char_free c (n : N) : ¬ is_digit c → char_free c (pretty n).
Proof.
  intros Hc Hin. pose proof (pretty_digits n) as Hd. unfold all_chars in Hd. rewrite Forall_forall in Hd.
  by apply Hc, Hd.
Qed.

Section binding.
Context `{!KeeperTx.Crates} `{!Cipher}.
Context (base64_plain : ∀ b, char_free ":" (base64_encode b)).

(** The signature of a request covers its key, its task, its payload and its
    time, whatever characters the task's name has; and the additional data of
    the cipher determine the task, the key and the time. *)
Theorem agent_signature_covers cipher_key cipher_key' nonce nonce' k k' n n' task task' w w' :
  let r := (agent_dispatch cipher_key nonce k n task w).1 in
  let r' := (agent_dispatch cipher_key' nonce' k' n' task' w').1 in
  char_free ":" k → char_free ":" k' → char_free "_" k → char_free "_" k' →
  (agent_payload_to_sign k (task_id task) (encrypted_payload r) n =
     agent_payload_to_sign k' (task_id task') (encrypted_payload r') n' →
   idempotency_key r = idempotency_key r' ∧ agent_task_id r = agent_task_id r' ∧
   encrypted_payload r = encrypted_payload r' ∧ request_timestamp r = request_timestamp r') ∧
  (agent_aad (task_id task) k n = agent_aad (task_id task') k' n' →
   task_id task = task_id task' ∧ k = k' ∧ n = n').
Proof.
  intros r r' Hk Hk' Hu Hu'. split.
  - assert (∀ ck no d a, char_free ":" (apply_quantum_shield ck no d a)) as Hsealed.
    { intros ck no d a. apply char_free_app. split; [unfold char_free; simpl; set_solver|apply base64_plain]. }
    assert (∀ m, char_free ":" (pretty (m : N))) as Hnum by (intros m; apply pretty_char_free; by intros [? ?]).
    unfold agent_payload_to_sign. rewrite !string_one. intros Heq.
    apply app_sep_inj in Heq as [-> Heq]; [|done..]. rewrite !string_app_assoc_cons in Heq.
    apply app_sep_inj_r in Heq as [Heq ->%(inj pretty)]; [|done..].
    apply app_sep_inj_r in Heq as [Ht Hp]; [|by apply Hsealed..]. done.
  - assert (∀ m, char_free "_" (pretty (m : N))) as Hnum by (intros m; apply pretty_char_free; by intros [? ?]).
    unfold agent_aad. rewrite !string_one. intros Heq. rewrite !string_app_assoc_cons in Heq.
    apply app_sep_inj_r in Heq as [Heq ->%(inj pretty)]; [|done..].
    apply app_sep_inj_r in Heq as [-> ->]; done.
Qed.
End binding.
