(* ===== verification/Mempool.v ===== *)
(** The mempool watchers of the keeper daemon
    (xcron-keeper-rs/src/mempool_sniper.rs, and the filter of ws_sniper.rs): the three-phase
    memory of the transactions already seen, and the filters that decide which
    of the new ones are reported.  The pool that a gateway answers is an
    argument. *)

From S2P Require Import Prelude RustStd Xse.

(** ** The memory of seen hashes *)

Record SeenHashes := MkSeen {
  hash_set_0 : gset string;
  hash_set_1 : gset string;
  hash_set_2 : gset string;
}.

Definition nothing_seen : SeenHashes := MkSeen ∅ ∅ ∅.

Definition seen_before (hash : string) (seen : SeenHashes) : Prop :=
  hash ∈ hash_set_0 seen ∨ hash ∈ hash_set_1 seen ∨ hash ∈ hash_set_2 seen.
#[export] Instance seen_before_dec hash seen : Decision (seen_before hash seen).
Proof. unfold seen_before. apply _. Defined.

(** A new hash is remembered; a full set moves down, and the last is dropped.
    [cap] is 10,000 in mempool_sniper.rs and 20,000 in ws_sniper.rs. *)
Definition remember (cap : nat) (hash : string) (seen : SeenHashes) : SeenHashes :=
  let set_0 := {[ hash ]} ∪ hash_set_0 seen in
  if decide (cap < size set_0)%nat then MkSeen ∅ set_0 (hash_set_1 seen)
  else MkSeen set_0 (hash_set_1 seen) (hash_set_2 seen).

(** ** mempool_sniper.rs *)

Record MempoolTransaction := MkMempoolTx {
  hash : string;
  tx_sender : string;
  receiver : string;
  data : string;
  gas_price : N;
}.

Record VictimDetected := MkVictim {
  victim_hash : string;
  victim_gas_price : N;
  pair_address : string;
}.

(** The base64 and num-bigint crates. *)
Class PoolCrates := {
  base64_decode : string → option bytes;
  parse_biguint_16 : string → option N;
}.

(** swapTokensFixedInput in hexadecimal. *)
Definition SWAP_FIXED_INPUT : string := "73776170546f6b656e734669786564496e707574".

(** 5 * 10^18: [parse_bytes("4563918244F40000", 16)]. *)
Definition THRESHOLD : N := 5000000000000000000.

Section sniper.
Context `{PoolCrates}.

Definition analyze_target (tx_data : MempoolTransaction) (target_dex : string) : option VictimDetected :=
  if decide (receiver tx_data ≠ target_dex) then None
  else if decide (data tx_data = "") then None
  else
    decoded_bytes ← base64_decode (data tx_data);
    decoded_str ← from_utf8 decoded_bytes;
    if String.prefix "ESDTTransfer@" decoded_str && contains decoded_str SWAP_FIXED_INPUT then
      amount_hex ← split_on "@" decoded_str !! 2%nat;
      if decide (64 < String.length amount_hex)%nat then None
      else
        amount_wei ← parse_biguint_16 amount_hex;
        if decide (THRESHOLD ≤ amount_wei)
        then Some (MkVictim (hash tx_data) (gas_price tx_data) target_dex) else None
    else None.

(** The transactions of one poll; the second component are those analysed. *)
Fixpoint scan_pool (cap : nat) (seen : SeenHashes) (txs : list (option MempoolTransaction))
  : SeenHashes * list MempoolTransaction :=
  match txs with
  | [] => (seen, [])
  | wrapper :: rest =>
      match wrapper with
      | None => scan_pool cap seen rest
      | Some raw_tx =>
          if decide (hash raw_tx = "") then scan_pool cap seen rest
          else if decide (seen_before (hash raw_tx) seen) then scan_pool cap seen rest
          else
            let '(seen, analysed) := scan_pool cap (remember cap (hash raw_tx) seen) rest in
            (seen, raw_tx :: analysed)
      end
  end.

(** The polls in order, with what is reported. *)
Fixpoint mempool_sniper (cap : nat) (target_dex : string) (seen : SeenHashes)
    (polls : list (list (option MempoolTransaction))) : list VictimDetected :=
  match polls with
  | [] => []
  | txs :: rest =>
      let '(seen, analysed) := scan_pool cap seen txs in
      omap (λ tx, analyze_target tx target_dex) analysed ++ mempool_sniper cap target_dex seen rest
  end.
End sniper.

(** ** ws_sniper.rs *)

Definition is_swap (decoded : string) : bool :=
  contains decoded SWAP_FIXED_INPUT || contains decoded "73776170546f6b656e7346697865644f7574707574" ||
  contains decoded "swapTokensFixedInput".

Definition is_xcron_intent (decoded : string) : bool :=
  contains decoded "6372656174654d756c7469496e707574" || contains decoded "createMultiIntent" ||
  contains decoded "createIntent".

Record ArbitrageOpportunity := MkOpportunity {
  opp_victim_hash : string;
  opp_gas_price : N;
  target_dex : string;
  amount_in_hex : string;
}.

(** What is reported of a new transaction whose data decode to [decoded]. *)
Definition opportunity (tx : MempoolTransaction) (decoded : string) : option ArbitrageOpportunity :=
  if decide (data tx = "") then None
  else if is_swap decoded || is_xcron_intent decoded then
    if decide (gas_price tx < 1000000000) then None
    else
      let amount_info :=
        if decide (3 ≤ length (split_on "@" decoded))%nat then "payload_raw=" +:+ decoded
        else if is_xcron_intent decoded then "XCRON_INTENT" else "omni_swap" in
      Some (MkOpportunity (hash tx) (gas_price tx) (receiver tx) amount_info)
  else None.

(** ** Properties *)

(** The hashes analysed so far, the newest first: each of the three sets holds
    a block of them. *)
Record seen_inv (cap : nat) (l : list string) (seen : SeenHashes) : Prop := {
  seen_blocks : ∃ n, (n ≤ cap ∧ n ≤ length l)%nat ∧
    hash_set_0 seen = list_to_set (take n l) ∧
    hash_set_1 seen = list_to_set (take (S cap) (drop n l)) ∧
    hash_set_2 seen = list_to_set (take (S cap) (drop (S cap + n) l));
  seen_apart : ∀ i j h, l !! i = Some h → l !! j = Some h → (i < j)%nat → (2 * S cap < j - i)%nat;
}.

Lemma seen_inv_nothing cap : seen_inv cap [] nothing_seen.
Proof.
  split; [|by intros i j h Hi; rewrite lookup_nil in Hi].
  exists 0%nat. rewrite !drop_nil, !take_nil. split_and!; [lia|simpl; lia|done..].
Qed.

(** A block of at most [2 * S cap + 1] hashes has no duplicates. *)
Lemma apart_NoDup cap (l : list string) n :
  (∀ i j h, l !! i = Some h → l !! j = Some h → (i < j)%nat → (2 * S cap < j - i)%nat) →
  (n ≤ 2 * S cap + 1)%nat → NoDup (take n l).
Proof.
  intros Hap Hn. apply NoDup_alt. intros i j h Hi Hj.
  apply lookup_take_Some in Hi as [Hi ?], Hj as [Hj ?].
  destruct (Nat.lt_total i j) as [Hlt|[?|Hlt]]; [|done|].
  - specialize (Hap _ _ _ Hi Hj Hlt). lia.
  - specialize (Hap _ _ _ Hj Hi Hlt). lia.
Qed.

Lemma seen_before_spec cap l seen h :
  seen_inv cap l seen → ∃ n, seen_before h seen ↔ h ∈ take (n + (S cap + S cap))%nat l.
Proof.
  intros [(n & Hn & H0 & H1 & H2) _]. exists n. unfold seen_before. rewrite H0, H1, H2, !elem_of_list_to_set.
  rewrite <- take_take_drop, <- take_take_drop, drop_drop, !elem_of_app.
  by replace (S cap + n)%nat with (n + S cap)%nat by lia.
Qed.

Lemma seen_inv_remember cap l seen h :
  seen_inv cap l seen → ¬ seen_before h seen → seen_inv cap (h :: l) (remember cap h seen).
Proof.
  intros Hinv Hnew. destruct (seen_before_spec cap l seen h Hinv) as [k Hk]. rewrite Hk in Hnew. clear Hk.
  destruct Hinv as [(n & Hn & H0 & H1 & H2) Hap].
  assert (∀ i j g, (h :: l) !! i = Some g → (h :: l) !! j = Some g → (i < j)%nat → (2 * S cap < j - i)%nat) as Hap'.
  { intros [|i] [|j] g Hi Hj Hij; [lia| |lia|]; simpl in Hi, Hj; [|by specialize (Hap i j g Hi Hj ltac:(lia)); lia].
    injection Hi as <-. destruct (decide (j < k + (S cap + S cap))%nat) as [Hlt|Hge]; [|lia].
    destruct Hnew. apply list_elem_of_lookup. exists j. by apply lookup_take_Some. }
  assert ({[ h ]} ∪ hash_set_0 seen = list_to_set (take (S n) (h :: l))) as Hs0 by (by rewrite H0).
  assert (size ({[ h ]} ∪ hash_set_0 seen) = length (take (S n) (h :: l))) as Hsize.
  { rewrite Hs0. apply size_list_to_set. eapply apart_NoDup; [exact Hap'|lia]. }
  unfold remember. split; [|exact Hap']. case_decide as Hfull.
  - assert (n = cap) as -> by (rewrite Hsize, length_take in Hfull; lia).
    exists 0%nat. rewrite Nat.add_0_r. split_and!; [lia|lia|done|exact Hs0|exact H1].
  - rewrite Hsize, length_take in Hfull. simpl length in Hfull.
    exists (S n). rewrite Nat.add_succ_r. simpl drop. split_and!; [lia|simpl; lia|exact Hs0|exact H1|exact H2].
Qed.

Lemma scan_pool_inv cap l seen txs :
  seen_inv cap l seen →
  let '(seen', analysed) := scan_pool cap seen txs in
  seen_inv cap (reverse (hash <$> analysed) ++ l) seen' ∧
  ∀ tx, Some tx ∈ txs → hash tx ≠ "" → hash tx ∈ reverse (hash <$> analysed) ++ l.
Proof.
  revert l seen. induction txs as [|[tx|] txs IH]; intros l seen Hinv; cbn [scan_pool].
  - split; [done|]. intros tx Htx. by apply elem_of_nil in Htx.
  - case_decide as Hempty; [|case_decide as Hs].
    + specialize (IH l seen Hinv). destruct (scan_pool cap seen txs). set_solver.
    + destruct (seen_before_spec cap l seen (hash tx) Hinv) as [k Hk]. rewrite Hk in Hs.
      specialize (IH l seen Hinv). destruct (scan_pool cap seen txs) as [seen' an].
      destruct IH as [Hi Ha]. split; [done|]. intros tx' [[= ->]|Htx']%elem_of_cons Hne; [|by apply Ha].
      apply elem_of_app. right. by eapply subseteq_take.
    + specialize (IH _ _ (seen_inv_remember cap l seen (hash tx) Hinv Hs)).
      destruct (scan_pool cap _ txs) as [seen' an]. rewrite fmap_cons, reverse_cons, <- app_assoc.
      destruct IH as [Hi Ha]. split; [exact Hi|]. intros tx' [[= ->]|Htx']%elem_of_cons Hne; [set_solver|].
      by apply Ha.
  - specialize (IH l seen Hinv). destruct (scan_pool cap seen txs). set_solver.
Qed.

Lemma scan_pool_app cap seen a b :
  scan_pool cap seen (a ++ b) =
    let '(seen', an) := scan_pool cap seen a in
    let '(seen'', an') := scan_pool cap seen' b in (seen'', an ++ an').
Proof.
  revert seen. induction a as [|[tx|] a IH]; intros seen; cbn [scan_pool app].
  - by destruct (scan_pool cap seen b).
  - repeat case_decide; [apply IH..|]. rewrite IH. destruct (scan_pool _ _ a) as [s1 an].
    by destruct (scan_pool _ _ b).
  - apply IH.
Qed.

Lemma sniper_scan `{PoolCrates} cap dex seen polls :
  mempool_sniper cap dex seen polls =
    omap (λ tx, analyze_target tx dex) (scan_pool cap seen (mjoin polls)).2.
Proof.
  revert seen. induction polls as [|txs polls IH]; intros seen; [done|].
  cbn [mempool_sniper mjoin list_join]. rewrite scan_pool_app.
  destruct (scan_pool cap seen txs) as [seen' an]. rewrite IH. fold (mjoin (M := list) polls).
  destruct (scan_pool cap seen' (mjoin polls)) as [s2 an2]. simpl. by rewrite omap_app.
Qed.

(** No transaction is missed, and none is analysed twice in short order.
    Over all polls, every transaction with a hash is analysed; when a hash is
    analysed again, more than twice the capacity of a set of other hashes was
    analysed since.  What is reported is the filter of what is analysed. *)
Theorem mempool_analysed_once `{PoolCrates} cap dex polls :
  let analysed := (scan_pool cap nothing_seen (mjoin polls)).2 in
  mempool_sniper cap dex nothing_seen polls = omap (λ tx, analyze_target tx dex) analysed ∧
  (∀ txs tx, txs ∈ polls → Some tx ∈ txs → hash tx ≠ "" → hash tx ∈ hash <$> analysed) ∧
  (∀ i j h, (hash <$> analysed) !! i = Some h → (hash <$> analysed) !! j = Some h → (i < j)%nat →
     (2 * S cap < j - i)%nat).
Proof.
  intros analysed. split; [apply sniper_scan|].
  pose proof (scan_pool_inv cap [] nothing_seen (mjoin polls) (seen_inv_nothing cap)) as Hinv.
  unfold analysed. destruct (scan_pool _ _ _) as [seen an]. rewrite app_nil_r in Hinv. simpl.
  destruct Hinv as [[_ Hap] Hall]. split.
  - intros txs tx Htxs Htx Hne. apply elem_of_reverse, Hall; [|done]. apply list_elem_of_join. eauto.
  - intros i j h Hi Hj Hij.
    pose proof (lookup_lt_Some _ _ _ Hi). pose proof (lookup_lt_Some _ _ _ Hj).
    rewrite <- (reverse_involutive (hash <$> an)) in Hi, Hj.
    apply reverse_lookup_Some in Hi as [Hi ?], Hj as [Hj ?]. specialize (Hap _ _ _ Hj Hi). lia.
Qed.

(** What is reported.  A transaction is reported exactly when it goes to
    the watched exchange and its data decode to an ESDT transfer that names
    swapTokensFixedInput, whose third part has at most 64 digits and is at
    least 5 * 10^18. *)
Lemma analyze_target_spec `{PoolCrates} tx dex v :
  analyze_target tx dex = Some v ↔
  receiver tx = dex ∧ data tx ≠ "" ∧ v = MkVictim (hash tx) (gas_price tx) dex ∧
  ∃ raw s amount_hex amount, base64_decode (data tx) = Some raw ∧ from_utf8 raw = Some s ∧
    String.prefix "ESDTTransfer@" s = true ∧ contains s SWAP_FIXED_INPUT = true ∧
    split_on "@" s !! 2%nat = Some amount_hex ∧ (String.length amount_hex ≤ 64)%nat ∧
    parse_biguint_16 amount_hex = Some amount ∧ THRESHOLD ≤ amount.
Proof.
  unfold analyze_target. split.
  - intros Ha. case_decide; [done|]. case_decide; [done|].
    destruct (base64_decode _) as [raw|]; [|done]. simpl in Ha. destruct (from_utf8 raw) as [s|] eqn:Hs; [|done].
    simpl in Ha. destruct (String.prefix _ _ && contains _ _) eqn:Hf; [|done]. apply andb_true_iff in Hf as [??].
    destruct (split_on _ _ !! _) as [h|] eqn:Hh; [|done]. simpl in Ha. case_decide; [done|].
    destruct (parse_biguint_16 h) as [n|] eqn:Hn; [|done]. simpl in Ha. case_decide; [|done].
    injection Ha as <-. split_and!; [done..|]. exists raw, s, h, n. split_and!; [done..|lia|done|done].
  - intros (Hr & Hd & -> & raw & s & h & n & -> & Hs & Hp & Hc & Hh & Hlen & Hn & Ht).
    rewrite decide_False by (by intros ?). rewrite decide_False by done. simpl. rewrite Hs. simpl.
    rewrite Hp, Hc. simpl. rewrite Hh. simpl. rewrite decide_False by lia. rewrite Hn. simpl.
    by rewrite decide_True.
Qed.
