(* ===== verification/Radar.v ===== *)
(** The global poller of the keeper daemon (xcron-keeper-rs/src/ws_sniper.rs):
    the threads that poll the observers share one memory of seen hashes, and
    report what passes the filter over a bounded channel that never makes them
    wait.  A thread looks a transaction up under the lock and hands its report
    over after it has released it; the steps of the threads interleave. *)

From S2P Require Import Prelude RustStd Xse Mempool.

(** ** Standard library: [String::from_utf8_lossy]

    Each longest start of a sequence that is not one becomes U+FFFD. *)

Definition REPLACEMENT : string := bytes_string [239; 191; 189].

Fixpoint from_utf8_lossy (b : bytes) : string :=
  match b with
  | [] => ""
  | b0 :: r0 =>
      if bool_decide (b0 < 128) then bytes_string [b0] +:+ from_utf8_lossy r0
      else if between 194 223 b0 then
        match r0 with
        | b1 :: r1 =>
            if continuation b1 then bytes_string [b0; b1] +:+ from_utf8_lossy r1
            else REPLACEMENT +:+ from_utf8_lossy r0
        | [] => REPLACEMENT
        end
      else if between 224 239 b0 then
        match r0 with
        | b1 :: r1 =>
            if three_ok b0 b1 then
              match r1 with
              | b2 :: r2 =>
                  if continuation b2 then bytes_string [b0; b1; b2] +:+ from_utf8_lossy r2
                  else REPLACEMENT +:+ from_utf8_lossy r1
              | [] => REPLACEMENT
              end
            else REPLACEMENT +:+ from_utf8_lossy r0
        | [] => REPLACEMENT
        end
      else if between 240 244 b0 then
        match r0 with
        | b1 :: r1 =>
            if four_ok b0 b1 then
              match r1 with
              | b2 :: r2 =>
                  if continuation b2 then
                    match r2 with
                    | b3 :: r3 =>
                        if continuation b3 then bytes_string [b0; b1; b2; b3] +:+ from_utf8_lossy r3
                        else REPLACEMENT +:+ from_utf8_lossy r2
                    | [] => REPLACEMENT
                    end
                  else REPLACEMENT +:+ from_utf8_lossy r1
              | [] => REPLACEMENT
              end
            else REPLACEMENT +:+ from_utf8_lossy r0
        | [] => REPLACEMENT
        end
      else REPLACEMENT +:+ from_utf8_lossy r0
  end.

(** ** ws_sniper.rs *)

(** The memory all threads share, the reports that threads are about to hand
    over, those not taken yet, and those the receiver has taken. *)
Record RadarState := MkRadar {
  global_seen_hashes : SeenHashes;
  in_flight : list ArbitrageOpportunity;
  channel : list ArbitrageOpportunity;
  received : list ArbitrageOpportunity;
}.

Definition new_radar : RadarState := MkRadar nothing_seen [] [] [].

(** A thread looks up a transaction of its pool; a thread hands over its
    report, the [i]th in flight; the receiver takes a report. *)
Inductive RadarEvent :=
| Polled (tx : MempoolTransaction)
| HandedOver (i : nat)
| Taken.

Definition SEEN_CAP : nat := N.to_nat 20000.
#[local] Opaque SEEN_CAP.

Section radar.
Context `{PoolCrates}.

Definition decode_data (raw_data : string) : string :=
  match base64_decode raw_data with Some b => from_utf8_lossy b | None => raw_data end.

(** [try_send] to a channel of [buffer] places: a full one drops the report. *)
Definition try_send (buffer : nat) (opp : ArbitrageOpportunity) (sent : list ArbitrageOpportunity)
  : list ArbitrageOpportunity :=
  if decide (length sent < buffer)%nat then sent ++ [opp] else sent.

Definition scan_tx (tx : MempoolTransaction) (r : RadarState) : RadarState :=
  if decide (hash tx = "") then r
  else if decide (seen_before (hash tx) (global_seen_hashes r)) then r
  else
    MkRadar (remember SEEN_CAP (hash tx) (global_seen_hashes r))
      (match opportunity tx (decode_data (data tx)) with
       | Some opp => in_flight r ++ [opp]
       | None => in_flight r
       end) (channel r) (received r).

Definition radar_step (buffer : nat) (r : RadarState) (e : RadarEvent) : RadarState :=
  match e with
  | Polled tx => scan_tx tx r
  | HandedOver i =>
      match in_flight r !! i with
      | Some opp =>
          MkRadar (global_seen_hashes r) (delete i (in_flight r)) (try_send buffer opp (channel r)) (received r)
      | None => r
      end
  | Taken =>
      match channel r with
      | [] => r
      | opp :: rest => MkRadar (global_seen_hashes r) (in_flight r) rest (received r ++ [opp])
      end
  end.

Definition radar_run (buffer : nat) (es : list RadarEvent) : RadarState :=
  foldl (radar_step buffer) new_radar es.

(** ** Properties *)

Lemma three_ok_eq b0 b1 :
  three_ok b0 b1 = if b0 =? 224 then between 160 191 b1 else if b0 =? 237 then between 128 159 b1
                   else between 225 239 b0 && continuation b1.
Proof. destruct b0 as [|p]; [done|]. do 8 (destruct p as [p|p|]; try reflexivity). Qed.

Lemma four_ok_eq b0 b1 :
  four_ok b0 b1 = if b0 =? 240 then between 144 191 b1 else if b0 =? 244 then between 128 143 b1
                  else between 241 243 b0 && continuation b1.
Proof. destruct b0 as [|p]; [done|]. do 8 (destruct p as [p|p|]; try reflexivity). Qed.

Lemma between_true lo hi b : between lo hi b = true ↔ lo ≤ b ∧ b ≤ hi.
Proof. unfold between. by rewrite andb_true_iff, !bool_decide_eq_true. Qed.

(** The first byte tells the length of a sequence. *)
Lemma three_ok_head b0 b1 : three_ok b0 b1 = true → between 224 239 b0 = true.
Proof.
  rewrite three_ok_eq, between_true. destruct (N.eqb_spec b0 224), (N.eqb_spec b0 237); try lia.
  rewrite andb_true_iff, between_true. lia.
Qed.

Lemma four_ok_head b0 b1 : four_ok b0 b1 = true → between 240 244 b0 = true.
Proof.
  rewrite four_ok_eq, between_true. destruct (N.eqb_spec b0 240), (N.eqb_spec b0 244); try lia.
  rewrite andb_true_iff, between_true. lia.
Qed.

Lemma between_apart lo hi lo' hi' b : hi < lo' → between lo' hi' b = true → between lo hi b = false.
Proof.
  intros Hlt Hb. destruct (between lo hi b) eqn:Hx; [|done]. rewrite between_true in *. lia.
Qed.

Lemma bytes_string_cons x b : bytes_string (x :: b) = String (ascii_of_N x) (bytes_string b).
Proof. done. Qed.

Lemma bytes_string_app a b : bytes_string (a ++ b) = bytes_string a +:+ bytes_string b.
Proof.
  induction a as [|x a IH]; [done|]. rewrite <- app_comm_cons, !bytes_string_cons, string_app_cons. by rewrite IH.
Qed.

(** Nothing is replaced in valid text. *)
Lemma lossy_valid_below n : ∀ b, (length b ≤ n)%nat → utf8_valid b = true → from_utf8_lossy b = bytes_string b.
Proof.
  induction n as [|n IH]; intros b Hn Hv; (destruct b as [|b0 r0]; [done|]); simpl in Hn; [lia|].
  cbn [utf8_valid] in Hv. cbn [from_utf8_lossy]. case_bool_decide as H0.
  { rewrite IH, <- bytes_string_app; [done|lia|done]. }
  destruct r0 as [|b1 r1]; [done|]. simpl in Hn.
  destruct (between 194 223 b0 && continuation b1) eqn:H2.
  { apply andb_true_iff in H2 as [H2 Hc]. rewrite H2, Hc, IH, <- bytes_string_app; [done|lia|done]. }
  destruct r1 as [|b2 r2]; [done|]. simpl in Hn.
  destruct (three_ok b0 b1 && continuation b2) eqn:H3.
  { apply andb_true_iff in H3 as [H3 Hc]. pose proof (three_ok_head _ _ H3) as Hh.
    rewrite (between_apart 194 223 224 239), Hh, H3, Hc, IH, <- bytes_string_app; done || lia. }
  destruct r2 as [|b3 r3]; [done|]. simpl in Hn. rewrite !andb_true_iff in Hv. destruct Hv as (((H4 & Hc2) & Hc3) & Hv).
  pose proof (four_ok_head _ _ H4) as Hh.
  rewrite (between_apart 194 223 240 244), (between_apart 224 239 240 244), Hh, H4, Hc2, Hc3, IH, <- bytes_string_app;
    done || lia.
Qed.

Lemma lossy_valid b s : from_utf8 b = Some s → from_utf8_lossy b = s.
Proof.
  unfold from_utf8. destruct (utf8_valid b) eqn:Hv; [|done]. intros [= <-]. by eapply lossy_valid_below.
Qed.

(** The transactions polled, those of them that are new, and what the filter
    says of them. *)
Definition polled (es : list RadarEvent) : list (option MempoolTransaction) :=
  omap (λ e, match e with Polled tx => Some (Some tx) | _ => None end) es.
Definition analysed (es : list RadarEvent) : list MempoolTransaction :=
  (scan_pool SEEN_CAP nothing_seen (polled es)).2.
Definition findings (es : list RadarEvent) : list ArbitrageOpportunity :=
  omap (λ tx, opportunity tx (decode_data (data tx))) (analysed es).

Lemma opportunity_hash tx decoded opp : opportunity tx decoded = Some opp → opp_victim_hash opp = hash tx.
Proof. unfold opportunity. intros Ho. repeat case_decide; try done; destruct (_ || _); by simplify_eq. Qed.

Lemma scan_one seen tx :
  scan_pool SEEN_CAP seen [Some tx] =
    if decide (hash tx = "") then (seen, []) else if decide (seen_before (hash tx) seen) then (seen, [])
    else (remember SEEN_CAP (hash tx) seen, [tx]).
Proof. cbn [scan_pool]. by repeat case_decide. Qed.

(** The reports that threads hand over, in order, with whether the channel
    was full then. *)
Definition handover (buffer : nat) (r : RadarState) (e : RadarEvent) : list (ArbitrageOpportunity * bool) :=
  match e with
  | HandedOver i =>
      match in_flight r !! i with
      | Some opp => [(opp, bool_decide (length (channel r) = buffer))]
      | None => []
      end
  | _ => []
  end.
Fixpoint handovers (buffer : nat) (r : RadarState) (es : list RadarEvent) : list (ArbitrageOpportunity * bool) :=
  match es with
  | [] => []
  | e :: es' => handover buffer r e ++ handovers buffer (radar_step buffer r e) es'
  end.
(** Those that found a place, and those that found the channel full. *)
Definition accepted (hs : list (ArbitrageOpportunity * bool)) : list ArbitrageOpportunity :=
  (filter (λ h, h.2 = false) hs).*1.
Definition lost (hs : list (ArbitrageOpportunity * bool)) : list ArbitrageOpportunity :=
  (filter (λ h, h.2 = true) hs).*1.

Lemma accepted_handovers_app hs hs' : accepted (hs ++ hs') = accepted hs ++ accepted hs'.
Proof. unfold accepted. by rewrite filter_app, fmap_app. Qed.
Lemma lost_handovers_app hs hs' : lost (hs ++ hs') = lost hs ++ lost hs'.
Proof. unfold lost. by rewrite filter_app, fmap_app. Qed.

Lemma accepted_one opp (full : bool) : accepted [(opp, full)] = if full then [] else [opp].
Proof. by destruct full. Qed.
Lemma lost_one opp (full : bool) : lost [(opp, full)] = if full then [opp] else [].
Proof. by destruct full. Qed.

Lemma handovers_snoc buffer es e : ∀ r,
  handovers buffer r (es ++ [e]) = handovers buffer r es ++ handover buffer (foldl (radar_step buffer) r es) e.
Proof.
  induction es as [|e' es IH]; intros r; cbn [handovers app foldl]; [by rewrite app_nil_r|]. by rewrite IH, app_assoc.
Qed.

(** Everything reported and not dropped, wherever it is. *)
Definition reports (r : RadarState) : list ArbitrageOpportunity := received r ++ channel r ++ in_flight r.

(** One event: what a handover accepts is appended to the channel, what it
    loses leaves the flight, and a receipt only moves the front of the channel. *)
Lemma handed_over buffer i r :
  (length (channel r) ≤ buffer)%nat →
  let r' := radar_step buffer r (HandedOver i) in
  let hs := handover buffer r (HandedOver i) in
  global_seen_hashes r' = global_seen_hashes r ∧ (length (channel r') ≤ buffer)%nat ∧
  (length (channel r') ≤ S (length (channel r)))%nat ∧
  received r' ++ channel r' = (received r ++ channel r) ++ accepted hs ∧
  accepted hs ++ lost hs ++ in_flight r' ≡ₚ in_flight r.
Proof.
  intros Hlen. cbn [radar_step handover]. destruct (in_flight r !! i) as [opp|] eqn:Hi.
  2: { cbn. rewrite app_nil_r. split_and!; [done|done|lia|done|done]. }
  assert (in_flight r ≡ₚ opp :: delete i (in_flight r)) as Hp by by apply delete_Permutation.
  rewrite accepted_one, lost_one. unfold try_send. cbn. case_bool_decide as Hfull.
  - rewrite decide_False by lia. rewrite app_nil_r. split_and!; [done|done|lia|done|by symmetry].
  - rewrite decide_True by lia. rewrite length_app. cbn.
    split_and!; [done|lia|lia|by rewrite app_assoc|by symmetry].
Qed.

Lemma reports_polled tx r :
  let r' := scan_tx tx r in
  let '(seen, new) := scan_pool SEEN_CAP (global_seen_hashes r) [Some tx] in
  global_seen_hashes r' = seen ∧ channel r' = channel r ∧ received r' = received r ∧
  in_flight r' = in_flight r ++ omap (λ tx, opportunity tx (decode_data (data tx))) new.
Proof.
  cbn zeta. rewrite scan_one. unfold scan_tx. repeat case_decide; cbn; rewrite ?app_nil_r; try done.
  destruct (opportunity _ _); rewrite ?app_nil_r; done.
Qed.

(** The invariant of a run. *)
Record radar_inv (buffer : nat) (es : list RadarEvent) (hs : list (ArbitrageOpportunity * bool)) (r : RadarState) : Prop := {
  inv_seen : global_seen_hashes r = (scan_pool SEEN_CAP nothing_seen (polled es)).1;
  inv_room : (length (channel r) ≤ buffer)%nat;
  inv_fifo : received r ++ channel r = accepted hs;
  inv_all : accepted hs ++ lost hs ++ in_flight r ≡ₚ findings es;
  inv_few : (length (channel r) ≤ length es)%nat;
  inv_none : (length es ≤ buffer)%nat → lost hs = [];
}.

Lemma findings_snoc es e :
  findings (es ++ [e]) = findings es ++
    match e with
    | Polled tx => omap (λ tx, opportunity tx (decode_data (data tx)))
        (scan_pool SEEN_CAP (scan_pool SEEN_CAP nothing_seen (polled es)).1 [Some tx]).2
    | _ => []
    end.
Proof.
  unfold findings, analysed, polled. rewrite omap_app. cbn [omap list_omap].
  destruct e as [tx|i|]; cbn [omap list_omap]; [|by rewrite !app_nil_r..].
  rewrite scan_pool_app. destruct (scan_pool SEEN_CAP nothing_seen _) as [seen an]. cbn [fst snd].
  destruct (scan_pool SEEN_CAP seen [Some tx]) as [seen' new]. cbn [snd]. by rewrite omap_app.
Qed.

Lemma seen_snoc es e :
  (scan_pool SEEN_CAP nothing_seen (polled (es ++ [e]))).1 =
    match e with
    | Polled tx => (scan_pool SEEN_CAP (scan_pool SEEN_CAP nothing_seen (polled es)).1 [Some tx]).1
    | _ => (scan_pool SEEN_CAP nothing_seen (polled es)).1
    end.
Proof.
  unfold polled. rewrite omap_app. destruct e as [tx|i|]; cbn [omap list_omap]; [|by rewrite app_nil_r..].
  rewrite scan_pool_app. destruct (scan_pool SEEN_CAP nothing_seen _) as [seen an]. cbn [fst].
  by destruct (scan_pool SEEN_CAP seen [Some tx]).
Qed.

Lemma radar_run_inv buffer es : radar_inv buffer es (handovers buffer new_radar es) (radar_run buffer es).
Proof.
  induction es as [|e es IH] using rev_ind; [split; simpl; done || lia|].
  unfold radar_run in *. rewrite handovers_snoc, foldl_app. cbn [foldl].
  generalize dependent (handovers buffer new_radar es).
  generalize dependent (foldl (radar_step buffer) new_radar es). intros r hs [Hseen Hroom Hfifo Hall Hfew Hnone].
  destruct e as [tx|i|].
  - pose proof (reports_polled tx r) as Hp. cbn zeta in Hp. cbn [handover radar_step]. rewrite app_nil_r.
    destruct (scan_pool SEEN_CAP (global_seen_hashes r) [Some tx]) as [seen new] eqn:Hscan.
    destruct Hp as (Hs & Hc & Hrec & Hfl). split; rewrite ?Hc, ?Hrec, ?length_app; [|done|done| |lia|intros; apply Hnone; lia].
    + by rewrite seen_snoc, <-Hseen, Hscan.
    + rewrite findings_snoc, <-Hall, Hfl, <-Hseen, Hscan. by rewrite !app_assoc.
  - destruct (handed_over buffer i r Hroom) as (Hs & Hroom' & Hfew' & Hfifo' & Hperm).
    split; rewrite ?accepted_handovers_app, ?lost_handovers_app, ?length_app; [|done| | |cbn [length]; lia|].
    + by rewrite Hs, seen_snoc.
    + by rewrite Hfifo', Hfifo.
    + rewrite findings_snoc, app_nil_r, <-Hall. rewrite <-Hperm. solve_Permutation.
    + simpl. intros Hb. rewrite Hnone by lia. unfold handover.
      destruct (in_flight r !! i); [|done]. rewrite bool_decide_eq_false_2 by lia. done.
  - cbn [handover radar_step]. rewrite app_nil_r.
    destruct (channel r) as [|opp rest] eqn:Hch; split; cbn [channel received in_flight global_seen_hashes];
      rewrite ?seen_snoc, ?findings_snoc, ?app_nil_r, ?length_app, ?Hch in *; simpl in *; try done; try lia;
      try (intros; apply Hnone; lia).
    + by rewrite app_nil_r.
    + by rewrite <-app_assoc.
Qed.

Lemma reports_lost buffer es :
  reports (radar_run buffer es) ++ lost (handovers buffer new_radar es) ≡ₚ findings es.
Proof.
  destruct (radar_run_inv buffer es) as [_ _ Hfifo Hall _ _]. rewrite <-Hall, <-Hfifo. unfold reports. solve_Permutation.
Qed.

Lemma analysed_polled es tx : tx ∈ analysed es → Polled tx ∈ es.
Proof.
  assert (∀ seen txs, tx ∈ (scan_pool SEEN_CAP seen txs).2 → Some tx ∈ txs) as Hscan.
  { intros seen txs. revert seen. induction txs as [|[t|] txs IH]; intros seen; cbn [scan_pool]; [set_solver| |].
    - repeat case_decide; [intros; apply elem_of_cons; right; by eapply IH..|].
      specialize (IH (remember SEEN_CAP (hash t) seen)). destruct (scan_pool _ _ txs). simpl in *. set_solver.
    - intros; apply elem_of_cons; right; by eapply IH. }
  intros Hin%Hscan. unfold polled in Hin. apply list_elem_of_omap in Hin as ([t|i|] & Hin & Heq); by simplify_eq.
Qed.

Lemma opportunity_filter tx decoded opp :
  opportunity tx decoded = Some opp →
  1000000000 ≤ gas_price tx ∧ is_swap decoded || is_xcron_intent decoded = true.
Proof.
  unfold opportunity. intros Ho. case_decide; [done|]. destruct (_ || _) eqn:Hf; [|done].
  case_decide; [done|]. split; [lia|done].
Qed.

Lemma findings_hashes es : (opp_victim_hash <$> findings es) `sublist_of` (hash <$> analysed es).
Proof.
  unfold findings. induction (analysed es) as [|tx txs IH]; [done|]. cbn [omap list_omap].
  destruct (opportunity _ _) as [opp|] eqn:Ho; rewrite !fmap_cons; [|by apply sublist_cons].
  apply opportunity_hash in Ho. rewrite Ho. by apply sublist_skip.
Qed.

(** No hash is new twice in short order. *)
Lemma analysed_distinct es :
  (length (analysed es) ≤ 2 * S SEEN_CAP + 1)%nat → NoDup (hash <$> analysed es).
Proof.
  intros Hlen. unfold analysed in *.
  pose proof (scan_pool_inv SEEN_CAP [] nothing_seen (polled es) (seen_inv_nothing SEEN_CAP)) as Hinv.
  destruct (scan_pool SEEN_CAP nothing_seen (polled es)) as [seen an]. destruct Hinv as [[_ Hap] _].
  rewrite app_nil_r in Hap. simpl in Hlen |- *. rewrite <- (reverse_Permutation (hash <$> an)).
  rewrite <- (firstn_all (reverse (hash <$> an))). eapply apart_NoDup; [exact Hap|].
  by rewrite length_reverse, length_fmap.
Qed.

(** C34: the radar reports what it sees, once, without waiting.  In every
    interleaving of the polling threads and the receiver, the channel holds at
    most its capacity; what was received and then what waits are exactly the
    reports that were handed over while the channel had a place, in that order;
    these, the reports handed over while it was full, and those still in flight
    are together exactly the findings, the new transactions that pass the
    filter; so a report is lost only to a full channel, and none is when there
    are no more events than places.  Every report is of a polled transaction
    with a gas price of at least 10^9 whose data name a swap or an intent, and
    no transaction is reported twice while at most 40,003 hashes are new. *)
Theorem radar_reports buffer es :
  let r := radar_run buffer es in
  let hs := handovers buffer new_radar es in
  (length (channel r) ≤ buffer)%nat ∧ received r ++ channel r = accepted hs ∧
  reports r ++ lost hs ≡ₚ findings es ∧ ((length es ≤ buffer)%nat → lost hs = []) ∧
  (∀ opp, opp ∈ reports r → ∃ tx, Polled tx ∈ es ∧ opp_victim_hash opp = hash tx ∧
     1000000000 ≤ gas_price tx ∧
     is_swap (decode_data (data tx)) || is_xcron_intent (decode_data (data tx)) = true) ∧
  ((length (analysed es) ≤ 2 * S SEEN_CAP + 1)%nat → NoDup (opp_victim_hash <$> reports r)).
Proof.
  pose proof (reports_lost buffer es) as Hsplit.
  destruct (radar_run_inv buffer es) as [_ Hroom Hfifo _ _ Hnone]. cbn zeta. split_and!; [done..| |].
  - intros opp Hin. assert (opp ∈ findings es) as Hf by (rewrite <-Hsplit; apply elem_of_app; by left).
    unfold findings in Hf. apply list_elem_of_omap in Hf as (tx & Htx & Hopp). exists tx.
    split_and!; [by apply analysed_polled|by eapply opportunity_hash|by eapply opportunity_filter|by eapply opportunity_filter].
  - intros Hn. assert (NoDup (opp_victim_hash <$> findings es)) as Hnd
      by (eapply sublist_NoDup; [by apply analysed_distinct|apply findings_hashes]).
    rewrite <-Hsplit, fmap_app in Hnd. by apply NoDup_app in Hnd as [? _].
Qed.

(** createMultiIntent in hexadecimal is not what the filter looks for. *)
Lemma multi_intent_hex_missed :
  hex_of (string_bytes "createMultiIntent") = "6372656174654d756c7469496e74656e74" ∧
  is_xcron_intent (hex_of (string_bytes "createMultiIntent")) = false.
Proof. by vm_compute. Qed.
End radar.

(** ** A run

    Two threads see the same swap, a third an intent; the channel has one
    place. *)

#[local] Instance toy_pool : PoolCrates := {|
  base64_decode _ := None;
  parse_biguint_16 _ := None;
|}.

Definition swap_tx : MempoolTransaction := MkMempoolTx "h1" "a" "dex" "swapTokensFixedInput@01" 1000000000.
Definition intent_tx : MempoolTransaction := MkMempoolTx "h2" "b" "xcron" "createIntent" 2000000000.

Example radar_sample :
  let r := radar_run 1 [Polled swap_tx; Polled swap_tx; Polled intent_tx; HandedOver 1; HandedOver 0; Taken] in
  received r = [MkOpportunity "h2" 2000000000 "xcron" "XCRON_INTENT"] ∧ channel r = [] ∧ in_flight r = [].
Proof. by vm_compute. Qed.
