(* ===== verification/HftVault.v ===== *)
(** The HFT vault (contracts/xcron-hft-vault/src/xcron_hft_vault.rs): circular
    arbitrage through two pools in one transaction, protected by a final check
    of the balance. *)

From S2P Require Import Prelude Sdk Types.

Record State := MkState {
  paused_cell : bool;
  authorized_bot : option address;
}.
#[export] Instance State_eta : Settable State := λ s, MkState (paused_cell s) (authorized_bot s).

Definition empty_state : State := MkState false None.

Canonical K : contract := Contract State Empty_set Empty_set.
Implicit Types (e : env K) (w : world K) (s : State).

(** The pools, third-party contracts: what a synchronous call with an ESDT
    payment gives back (the back-transfers) and the world it leaves.  The
    payment has left the vault before. *)
Class Pools :=
  pool_call : env K → address → bytes → list arg → payment → world K → option (list payment * world K).

Section code.
Context `{Sdk} `{Pools}.

Definition init e (bot : address) : M K unit :=
  modify (λ s : State, s <| authorized_bot := Some bot |> <| paused_cell := false |>).

Definition upgrade e : M K unit := mret ().

Definition pause e : M K unit :=
  not_payable e;; only_owner e;; modify (λ s : State, s <| paused_cell := true |>).

Definition unpause e : M K unit :=
  not_payable e;; only_owner e;; modify (λ s : State, s <| paused_cell := false |>).

Definition set_authorized_bot e (new_bot : address) : M K unit :=
  not_payable e;; only_owner e;; modify (λ s : State, s <| authorized_bot := Some new_bot |>).

(** [#[payable("*")]]: the funds stay in the vault. *)
Definition deposit e : M K unit := mret ().

Definition withdraw e (token : token_id) (amount : N) : M K unit :=
  not_payable e;;
  only_owner e;;
  direct_esdt (caller e) token 0 amount.

Definition withdraw_all e (token : token_id) : M K unit :=
  not_payable e;;
  only_owner e;;
  balance ← get_sc_balance (Esdt token 0);
  require (0 < balance) "No balance to withdraw";;
  direct_esdt (caller e) token 0 balance.

(** [.raw_call(ep).payment(p).returns(ReturnsBackTransfersReset).sync_call()] *)
Definition pool_step e (to : address) (ep : bytes) (args : list arg) (p : payment) : M K (list payment) := λ w,
  match pool_call e to ep args p w with
  | Some (ps, w') => Ok (ps, w')
  | None => Err "sync call failed"
  end.
Definition call_pool e (to : address) (ep : bytes) (args : list arg) (p : payment) : M K (list payment) :=
  debit (asset_of p) (amount p);; pool_step e to ep args p.

(** The first back-transfer in the expected token. *)
Definition find_payment (token : token_id) (ps : list payment) : M K payment :=
  match list_find (λ p, token_identifier p = token) ps with
  | Some (_, p) => mret p
  | None => throw "Pool A no devolvio el token_mid"
  end.

Definition execute_flash_arbitrage e (token_in : token_id) (amount_in : N) (pool_a : address)
    (token_mid : token_id) (pool_b : address) (min_mid_amount min_final_amount : N)
    (endpoint_b : bytes) : M K unit :=
  not_payable e;;
  s ← get_st;
  require (paused_cell s = false) "Vault pausado por el Owner";;
  bot ← sv_get empty_address (authorized_bot s);
  require (caller e = bot ∨ caller e = owner_address e) "Caller no autorizado";;
  balance_start ← get_sc_balance (Esdt token_in 0);
  require (amount_in ≤ balance_start) "Liquidez insuficiente en Vault";;
  mid_payments ← call_pool e pool_a (string_bytes "swapTokensFixedInput")
    [ArgBuf (string_bytes token_mid); ArgNum min_mid_amount] (Payment token_in 0 amount_in);
  require (mid_payments ≠ []) "Pool A no devolvio tokens";;
  safe_mid_payment ← find_payment token_mid mid_payments;
  require (0 < amount safe_mid_payment) "Zero value back-transfer recibida (Dust exploit detedted)";;
  final_payments ← call_pool e pool_b endpoint_b
    [ArgBuf (string_bytes token_in); ArgNum min_final_amount] safe_mid_payment;
  require (final_payments ≠ []) "Pool B no devolvio tokens";;
  balance_end ← get_sc_balance (Esdt token_in 0);
  require (balance_start < balance_end) "ABORT: Operacion no rentable. Capital protegido.";;
  rest ← biguint_sub balance_start amount_in;
  let expected_min_end := rest + min_final_amount in
  require (expected_min_end ≤ balance_end) "ABORT: Ganancia neta por debajo del umbral economico minimo.".

Definition get_balance (token : token_id) : M K N := get_sc_balance (Esdt token 0).

Inductive Call : Type :=
| Pause
| Unpause
| SetAuthorizedBot (new_bot : address)
| Deposit
| Withdraw (token : token_id) (amount : N)
| WithdrawAll (token : token_id)
| ExecuteFlashArbitrage (token_in : token_id) (amount_in : N) (pool_a : address)
    (token_mid : token_id) (pool_b : address) (min_mid_amount min_final_amount : N) (endpoint_b : bytes)
| Upgrade.

Definition dispatch e (c : Call) : M K unit :=
  match c with
  | Pause => pause e
  | Unpause => unpause e
  | SetAuthorizedBot b => set_authorized_bot e b
  | Deposit => deposit e
  | Withdraw t n => withdraw e t n
  | WithdrawAll t => withdraw_all e t
  | ExecuteFlashArbitrage ti n pa tm pb mm mf ep => execute_flash_arbitrage e ti n pa tm pb mm mf ep
  | Upgrade => upgrade e
  end.

(** ** Properties *)

(** What the reported payments add to a balance. *)
Definition received (ps : list payment) (a : asset) : N :=
  foldr (λ p acc, (if decide (asset_of p = a) then amount p else 0) + acc) 0 ps.

(** A pool pays back what it reports and takes nothing beyond its payment. *)
Class PoolLaws : Prop :=
  pool_pays e to ep args p w ps w' :
    pool_call e to ep args p w = Some (ps, w') →
    st w' = st w ∧ ∀ a, bal w a + received ps a ≤ bal w' a.

Lemma received_elem p ps : p ∈ ps → amount p ≤ received ps (asset_of p).
Proof.
  induction 1 as [ps|p q ps _ IH]; cbn [received foldr]; [rewrite decide_True by done; lia|].
  unfold received in IH. lia.
Qed.

Lemma wp_call_pool e to ep args p (Q : list payment → world K → Prop) w :
  (∀ ps w', amount p ≤ bal w (asset_of p) →
     pool_call e to ep args p (w <| bal ::= λ b, <[asset_of p := b (asset_of p) - amount p]> b |>) = Some (ps, w') →
     Q ps w') →
  wp (call_pool e to ep args p) Q any_error w.
Proof.
  intros HQ. unfold call_pool. apply wp_bind, wp_debit; [|done]. intros Hle. unfold wp, pool_step.
  destruct (pool_call _ _ _ _ _ _) as [[ps w']|] eqn:Hp; [by apply HQ|done].
Qed.

Lemma wp_find_payment t ps (Q : payment → world K → Prop) w :
  (∀ p, p ∈ ps → token_identifier p = t → Q p w) → wp (find_payment t ps) Q any_error w.
Proof.
  intros HQ. unfold find_payment. destruct (list_find _ ps) as [[i p]|] eqn:Hf; [|done].
  apply list_find_Some in Hf as (Hi & Ht & _). apply HQ; [by eapply list_elem_of_lookup_2|done].
Qed.

(** What a successful arbitrage guarantees: the balances after the two calls. *)
Lemma arbitrage_wp e ti n pa tm pb mm mf ep (Q : unit → world K → Prop) w :
  native_apart e → ti ≠ EGLD_000000 →
  (∀ w1 w2 ps1 ps2 p b, authorized_bot (st w) = Some b ∨ empty_address = Some b →
     caller e = b ∨ caller e = owner_address e → paused_cell (st w) = false →
     pool_call e pa (string_bytes "swapTokensFixedInput") [ArgBuf (string_bytes tm); ArgNum mm] (Payment ti 0 n)
       (w <| bal ::= λ b, <[Esdt ti 0 := b (Esdt ti 0) - n]> b |>) = Some (ps1, w1) →
     p ∈ ps1 → token_identifier p = tm → amount p ≤ bal w1 (asset_of p) →
     pool_call e pb ep [ArgBuf (string_bytes ti); ArgNum mf] p
       (w1 <| bal ::= λ b, <[asset_of p := b (asset_of p) - amount p]> b |>) = Some (ps2, w2) →
     n ≤ bal w (Esdt ti 0) → bal w (Esdt ti 0) < bal w2 (Esdt ti 0) →
     bal w (Esdt ti 0) - n + mf ≤ bal w2 (Esdt ti 0) → Q () w2) →
  wp (execute_flash_arbitrage e ti n pa tm pb mm mf ep) Q any_error w.
Proof.
  intros Hnat Hti HQ. unfold execute_flash_arbitrage. wp_go.
  assert (Has : asset_of (Payment ti 0 n) = Esdt ti 0) by (unfold asset_of; by rewrite decide_False).
  apply wp_call_pool. rewrite Has. cbn [amount]. intros ps1 w1 _ Hp1. wp_go.
  apply wp_find_payment. intros p Hp Htm. wp_go. apply wp_call_pool. intros ps2 w2 Hle Hp2. wp_go.
  eapply HQ; try done. naive_solver.
Qed.

(** A successful arbitrage gains: [credit e w] is the world it starts from. *)
Lemma arbitrage_gain e ti n pa tm pb mm mf ep w w' :
  native_apart e → ti ≠ EGLD_000000 →
  invoke e (dispatch e (ExecuteFlashArbitrage ti n pa tm pb mm mf ep)) w = Ok ((), w') →
  let start := bal (credit e w) (Esdt ti 0) in
  paused_cell (st w) = false ∧ bal w (Esdt ti 0) ≤ start ∧ n ≤ start ∧
  start < bal w' (Esdt ti 0) ∧ start - n + mf ≤ bal w' (Esdt ti 0).
Proof.
  intros Hnat Hti Hi. by_wp Hi. cbn [dispatch].
  apply arbitrage_wp; [done|done|]. intros w1 w2 ps1 ps2 p b _ _ Hpa _ _ _ _ _ Hn Hgain Hmin.
  pose proof (credit_le e w (Esdt ti 0)). rewrite st_credit in Hpa. by split_and!.
Qed.

(** C10: the vault cannot lose to an arbitrage.  A transaction by anyone but the
    owner never makes a balance smaller, for pools that pay back what they
    report; an arbitrage, run by the bot or the owner of an unpaused vault and
    whatever the pools do, ends with strictly more of the base token than it
    started with, and with at least the amount kept plus the required minimum. *)
Theorem hft_no_loss e c w w' :
  native_apart e → invoke e (dispatch e c) w = Ok ((), w') →
  (PoolLaws → caller e ≠ owner_address e →
   match c with ExecuteFlashArbitrage ti _ _ _ _ _ _ _ => ti ≠ EGLD_000000 | _ => True end →
   ∀ a, bal w a ≤ bal w' a) ∧
  (∀ ti n pa tm pb mm mf ep, c = ExecuteFlashArbitrage ti n pa tm pb mm mf ep → ti ≠ EGLD_000000 →
   paused_cell (st w) = false ∧
   bal w (Esdt ti 0) < bal w' (Esdt ti 0) ∧ bal w (Esdt ti 0) - n + mf ≤ bal w' (Esdt ti 0)).
Proof.
  intros Hnat Hi. split.
  - intros Hlaws Hno Hti a. by_wp Hi. pose proof (credit_le e w a) as Hle. destruct c; cbn [dispatch].
    + unfold pause. wp_go. done.
    + unfold unpause. wp_go. done.
    + unfold set_authorized_bot. wp_go. done.
    + exact Hle.
    + unfold withdraw. wp_go. done.
    + unfold withdraw_all. wp_go. done.
    + apply arbitrage_wp; [done|done|].
      intros w1 w2 ps1 ps2 p b _ _ _ Hp1 Hin _ Hbal Hp2 Hn Hgain _.
      apply pool_pays in Hp1 as [_ Hb1]. apply pool_pays in Hp2 as [_ Hb2].
      specialize (Hb1 a). specialize (Hb2 a). pose proof (received_elem p ps1 Hin) as Hrec. simpl in Hb1, Hb2.
      etrans; [exact Hle|].
      destruct (decide (Esdt token_in 0 = a)) as [<-|Hne]; [lia|]. rewrite bal_insert_ne in Hb1 by done.
      destruct (decide (asset_of p = a)) as [<-|Hne2]; [rewrite bal_insert_eq in Hb2|rewrite bal_insert_ne in Hb2 by done]; lia.
    + exact Hle.
  - intros ti n pa tm pb mm mf ep -> Hti. apply arbitrage_gain in Hi as (? & ? & ? & ? & ?); [|done..].
    split_and!; [done|lia|lia].
Qed.
End code.

(** ** Witness: pool 21 pays 110 USDC for 100 WEGLD, pool 22 pays 105 WEGLD for them *)

#[local] Existing Instance sample_sdk.
#[local] Instance sample_pools : Pools := λ e to ep args p w,
  if decide (to = 21) then
    Some ([Payment "USDC-c76f1f" 0 110],
          w <| bal ::= λ b, <[Esdt "USDC-c76f1f" 0 := b (Esdt "USDC-c76f1f" 0) + 110]> b |>)
  else if decide (to = 22) then
    Some ([Payment "WEGLD-bd4d79" 0 105],
          w <| bal ::= λ b, <[Esdt "WEGLD-bd4d79" 0 := b (Esdt "WEGLD-bd4d79" 0) + 105]> b |>)
  else None.
#[local] Instance sample_pool_laws : PoolLaws.
Proof.
  intros e to ep args p w ps w' Hp. unfold pool_call, sample_pools in Hp.
  repeat case_decide; simplify_eq; (split; [done|]); intros a; unfold received; cbn [foldr].
  - change (asset_of (Payment "USDC-c76f1f" 0 110)) with (Esdt "USDC-c76f1f" 0). simpl.
    case_decide as Ha; [subst a; rewrite bal_insert_eq; lia|rewrite bal_insert_ne by done; lia].
  - change (asset_of (Payment "WEGLD-bd4d79" 0 105)) with (Esdt "WEGLD-bd4d79" 0). simpl.
    case_decide as Ha; [subst a; rewrite bal_insert_eq; lia|rewrite bal_insert_ne by done; lia].
Qed.

Definition hft_0 : world K := World (MkState false (Some 5)) (λ _, 1000) [].
Definition arbitrage : Call :=
  ExecuteFlashArbitrage "WEGLD-bd4d79" 100 21 "USDC-c76f1f" 22 100 104 (string_bytes "swap").
Definition hft_1 : world K := next dispatch (sample_env 5 7 9 0 0) arbitrage hft_0.

Lemma hft_no_loss_witness :
  bal hft_0 Egld ≤ bal hft_1 Egld ∧
  bal hft_0 (Esdt "WEGLD-bd4d79" 0) < bal hft_1 (Esdt "WEGLD-bd4d79" 0).
Proof.
  destruct (hft_no_loss (sample_env 5 7 9 0 0) arbitrage hft_0 hft_1) as [Hall Harb].
  - constructor.
  - apply next_ok. vm_compute. reflexivity.
  - split.
    + apply Hall; [exact _|discriminate|discriminate].
    + eapply Harb; [reflexivity|discriminate].
Defined.
