(* ===== verification/AddressCodec.v ===== *)
(** The standard that the bech32 crate implements (BIP-173, with the constant of
    BIP-350 for the variant), as an executable reading of an address.  The crate
    is not part of the repository: [bech32_standard] is the hypothesis that it
    reads strings as the standard says. *)

From S2P Require Import Prelude RustStd KeeperNet.

Definition CHARSET : string := "qpzry9x8gf2tvdw0s3jn54khce6mua7l".

(** The position of a character in a string. *)
Fixpoint position (c : ascii) (s : string) : option N :=
  match s with
  | EmptyString => None
  | String d s' => if decide (c = d) then Some 0 else N.succ <$> position c s'
  end.

(** ** The checksum *)

Definition GENERATOR : list N := [0x3b6a57b2; 0x26508e6d; 0x1ea119fa; 0x3d4233dd; 0x2a1462b3].
Definition polymod_step (chk v : N) : N :=
  let top := N.shiftr chk 25 in
  fst (foldl (λ '(acc, i) g, (if N.testbit top i then N.lxor acc g else acc, i + 1))
         (N.lxor (N.shiftl (N.land chk 0x1ffffff) 5) v, 0) GENERATOR).
Definition polymod (values : list N) : N := foldl polymod_step 1 values.
Definition hrp_expand (hrp : list N) : list N :=
  ((λ c, N.shiftr c 5) <$> hrp) ++ [0] ++ ((λ c, N.land c 31) <$> hrp).
(** 1 is the constant of Bech32, the other one that of Bech32m. *)
Definition checksum_ok (hrp data : list N) : bool :=
  let c := polymod (hrp_expand hrp ++ data) in (c =? 1) || (c =? 0x2bc830a3).

(** ** Regrouping the 5-bit values; leftover bits must be fewer than 5, and zero *)

Fixpoint from_base32 (acc bits : N) (values : list N) : option bytes :=
  match values with
  | [] => if (bits <? 5) && (acc =? 0) then Some [] else None
  | v :: values' =>
      let acc := N.lor (N.shiftl acc 5) v in
      let bits := bits + 5 in
      if 8 <=? bits
      then (λ b, N.shiftr acc (bits - 8) :: b) <$>
             from_base32 (N.land acc (N.ones (bits - 8))) (bits - 8) values'
      else from_base32 acc bits values'
  end.

(** ** Reading a string *)

Definition is_upper (c : ascii) : bool := (65 <=? N_of_ascii c) && (N_of_ascii c <=? 90).
Definition is_lower (c : ascii) : bool := (97 <=? N_of_ascii c) && (N_of_ascii c <=? 122).
Definition to_lower (c : ascii) : ascii := if is_upper c then ascii_of_N (N_of_ascii c + 32) else c.

(** At the last [1]: what comes before it and after it. *)
Fixpoint split_last_one (l : list ascii) : option (list ascii * list ascii) :=
  match l with
  | [] => None
  | c :: l' =>
      match split_last_one l' with
      | Some (h, d) => Some (c :: h, d)
      | None => if decide (c = "1"%char) then Some ([], l') else None
      end
  end.

(** The bytes of the data part; those that cannot be regrouped are none. *)
Definition bech32_decode (s : string) : option bytes :=
  let l := String.list_ascii_of_string s in
  if existsb is_upper l && existsb is_lower l then None else
  '(hrp, d) ← split_last_one (to_lower <$> l);
  if bool_decide (hrp = []) || bool_decide (83 < length hrp)%nat || bool_decide (length d < 6)%nat ||
     negb (forallb (λ c, (33 <=? N_of_ascii c) && (N_of_ascii c <=? 126)) hrp)
  then None else
  data ← mapM (λ c, position c CHARSET) d;
  if checksum_ok (N_of_ascii <$> hrp) data
  then Some (default [] (from_base32 0 0 (take (length data - 6) data))) else None.

(** The crate reads every string of at most 90 characters, the length of the
    standard, as the standard says. *)
Definition bech32_standard `{Bech32} : Prop :=
  ∀ s, (String.length s ≤ 90)%nat → bech32_bytes s = bech32_decode s.

(** The test vectors of the standard. *)
Example bech32_valid :
  bech32_decode "A12UEL5L" = Some [] ∧ bech32_decode "a12uel5l" = Some [] ∧
  is_Some (bech32_decode "abcdef1qpzry9x8gf2tvdw0s3jn54khce6mua7lmqqqxw") ∧
  is_Some (bech32_decode "split1checkupstagehandshakeupstreamerranterredcaperred2y9e3w") ∧
  is_Some (bech32_decode "a1lqfn3a").
Proof. by repeat split; vm_compute; eauto. Qed.
Example bech32_invalid :
  bech32_decode "x1b4n0q5v" = None ∧ bech32_decode "li1dgmt3" = None ∧ bech32_decode "A1G7SGD8" = None ∧
  bech32_decode "10a06t8" = None ∧ bech32_decode "1qzzfhee" = None ∧ bech32_decode "A12UEl5L" = None ∧
  bech32_decode "pzry9x0s0muk" = None.
Proof. by vm_compute. Qed.
