(* ===== verification/KeeperLoop.v ===== *)
(** The loop that every wallet of the keeper runs (xcron-keeper-rs/src/main.rs):
    when a turn may fire, which transaction each mode builds, how it is sent,
    and what becomes of the nonce.  The clock, the random draws, what the
    watchers report and what the gateways answer are inputs of a turn. *)

From S2P Require Import Prelude RustStd Xse Mempool Radar KeeperTx KeeperNet KeeperKeys.

Inductive ExecutionMode :=
| PreWarm | Snipe | Stress | MultiKeeper | Fuzz | IntraShard | FundHydra | WrapEgld | DexSwap
| CrossShard | RelayedCrossShard | RelayedDex | XcronSwarm | Zeta | Theta | Epsilon | Delta
| XcronBoundary | StateDesync | EieOverflow | NonceDesyncV2 | BlsDesync | OrphanFlooding
| SurgicalBackrun | TpsDemo | ArbitrageHft | PcitDemo | EventKeeper | E2EBenchmark | XseSim.
#[export] Instance ExecutionMode_eq_dec : EqDecision ExecutionMode.
Proof. solve_decision. Defined.

(** The command line, as far as the loop reads it. *)
Record LoopArgs := MkArgs {
  mode : ExecutionMode;
  snipe_interval_sec : N;
  snipe_window_ms : N;
  tps : N;
  block_period_ms : N;
  cli_chain_id : string;
}.

(** ** Pacing *)

Inductive Pace :=
(** Fire, after this many microseconds. *)
| Fire (after_us : N)
(** Sleep this many milliseconds and start the turn again. *)
| Hide (ms : N)
(** The window is over: the interval that wallet 0 stores, if any. *)
| Closed (stored : option N)
| PacePanics.

(** [as i64], the sum of two [i64] and [.max(60) as u64]. *)
Definition i64_of (n : N) : Z :=
  if decide (n mod u64_mod < 2 ^ 63) then Z.of_N (n mod u64_mod) else (Z.of_N (n mod u64_mod) - Z.of_N u64_mod)%Z.
Definition i64_wrap (z : Z) : Z := i64_of (Z.to_N (z mod Z.of_N u64_mod)).
Definition next_interval (base_snipe_interval : N) (jitter_secs : Z) : N :=
  Z.to_N (Z.max (i64_wrap (i64_of base_snipe_interval + jitter_secs)) 60).

(** [i] is the number of the wallet, [elapsed_ms] the time since the burst
    started, [jitter_secs] the draw from -180..=180. *)
Definition snipe_pace (args : LoopArgs) (i : N) (elapsed_ms current_interval : N) (jitter_secs : Z) : Pace :=
  let sleep_ms := u64_mul current_interval 1000 in
  if decide (elapsed_ms < sleep_ms) then Hide (sleep_ms - elapsed_ms)
  else if decide (u64_add sleep_ms (snipe_window_ms args) < elapsed_ms) then
    Closed (if decide (i = 0) then Some (next_interval (snipe_interval_sec args) jitter_secs) else None)
  else Fire 0.

Definition tps_delay (num_active_wallets tps : N) : Pace :=
  if decide (tps = 0) then PacePanics else Fire (u64_mul 1000000 num_active_wallets / tps).

Definition pace (args : LoopArgs) (i num_active_wallets elapsed_ms current_interval : N) (jitter_secs : Z) : Pace :=
  match mode args with
  | TpsDemo | SurgicalBackrun | ArbitrageHft => Fire 0
  | Snipe => snipe_pace args i elapsed_ms current_interval jitter_secs
  | _ => tps_delay num_active_wallets (tps args)
  end.

(** ** The transaction of a mode *)

(** [(payload, gas, receiver_owned, value)] *)
Record Order := MkOrder {
  payload : option bytes;
  gas : N;
  receiver_owned : string;
  order_value : string;
}.

(** What the match on the mode comes to. *)
Inductive Choice :=
| Send (o : Order)
(** SurgicalBackrun sends a transaction of its own. *)
| SendOwn (t : Transaction)
(** Sleep this many milliseconds and start the turn again. *)
| Again (ms : N)
(** The search for a receiver in another shard has not ended. *)
| Searching
| Panics.

(** The inputs of a turn. *)
Record Turn := MkTurn {
  (** The clocks: a monotone one in ms, and the Unix time in ms and in s. *)
  instant_ms : N;
  now_ms : N;
  now_secs : N;
  (** Random draws: the jitter, an index, the bytes of an address (or a seed),
      those of the search for an address, with the number of draws made, and a
      percentage. *)
  jitter : Z;
  rand_idx : nat;
  random_address : bytes;
  search_draws : nat → bytes;
  search_fuel : nat;
  orphan_roll : N;
  (** What the watch channels hold after a change; [None] when they closed. *)
  victim : option VictimDetected;
  opportunity : option ArbitrageOpportunity;
  (** The answer to a transaction, and to the nonce request that follows it
      when it failed. *)
  gateways : Transaction → result string * result N;
}.

Definition ZERO_OWNER : string := "0000000000000000000000000000000000000000000000000000000000000000".
Definition PING_TARGET : string := "00000000000000000500ebaa4de200cf54fe97a0604c759cd8f6de251daeb90b".
Definition SWARM_TARGET : string := "000000000000000000010000000000000000000000000000000000000002ffff".
Definition SCHEDULER_SC : string := "erd1qqqqqqqqqqqqqpgqazq2ztyyfjxgejwp0fv3xltp9xhsw9yga9kqnufeat".
Definition BON_SC : string := "erd1qqqqqqqqqqqqqpgqpng9zskcp3ng6pvk5gz6rx4asd2rcrvpa9kqw9aaxe".
Definition SYSTEM_SC : string := "erd1qqqqqqqqqqqqqqqpqqqqqqqqqqqqqqqqqqqqqqqqqqqqp3lllllsn4e83q".
Definition WRAP_SC : string := "erd1qqqqqqqqqqqqqqqpqqqqqqqqqqqqqqqqqqqqqqqqqqqqqqzllls8a5w6u".
Definition WEGLD_USDC : string := "erd1qqqqqqqqqqqqqpgqeel2kumf0r8ffyhth7pqdujjat9nx0862jpsg2pqaq".
Definition ASHSWAP : string := "erd1qqqqqqqqqqqqqpgqj5zftf3ef3gqm3gklfcqtzyqrnpwvvu978ssqd0sds".
Definition WEGLD_MEX : string := "erd1qqqqqqqqqqqqqpgq72k29kegrs95xpewqpxs3v0uksq0u8l2jpsgv4x5q8".
Definition BENCHMARK_SC : string := "erd1qqqqqqqqqqqqqpgq48th0lv0ns2s699c7jqqw4fskuhsv9ha2x2qzmjxtr".
Definition TARGET_VAULT : string := "erd1qqqqqqqqqqqqqpgqc2f09kuuew2y6p46kydfpgv4xk8x45zy069sr5qgrq".
Definition SWAP_WEGLD : string :=
  "ESDTTransfer@5745474c442d626434643739@01@73776170546f6b656e734669786564496e707574@555344432d633736663166@01".
Definition SWAP_USDC : string :=
  "ESDTTransfer@555344432d633736663166@0f4240@73776170546f6b656e734669786564496e707574@5745474c442d626434643739@01".

(** [{:02X}] of a byte. *)
Definition hex_digit_upper (d : N) : ascii := ascii_of_N (if decide (d < 10) then 48 + d else 55 + d).
Definition format_02X (n : N) : string :=
  String (hex_digit_upper (n / 16)) (String (hex_digit_upper (n mod 16)) "").

Fixpoint repeat_str (s : string) (n : nat) : string :=
  match n with O => "" | S n' => s +:+ repeat_str s n' end.

(** The garbage of the modes that pad their call data. *)
Definition padded_call (name fill : string) (payload_size : nat) : bytes :=
  string_bytes (name +:+ "@" +:+ repeat_str fill (payload_size - 20)).
Definition many_args (count : nat) : bytes :=
  string_bytes ("dummyRecursionTrigger" +:+
    foldr (λ i s, "@" +:+ format_02X (N.of_nat i mod 255) +:+ s) "" (seq 0 count)).

(** The addresses that FundHydra pays. *)
Definition addrs : list string := [
  "erd1f5t0neuse284m5r5en3hvmmevvc05yx6tqmlywjt9r7a8r4ce4vsg22y32"; "erd1x4we6ryz87mmyqfsdxj6m27pd0xz725f6al9l85txgvnrpnnjpmss4esuz";
  "erd1ayndwqfnahkrfhxuzc9wuu7tqn3jz35d2cywcjl2zyz0nd3p2pxssm34mf"; "erd14h6whgpe6epv8s99654m9hkpwzehypglc7yn5p4t6gsxqpeqemeqaen2a4";
  "erd1ysc26qentre832j4tz44q37h4ffrxg9e3agr5m6sk2n3hzwywsfs6tvqze"; "erd1cwe3dwr565lqfyqw6j6u7ptq8a72ca5uuqaelwt3p6egwuw2zcuqfmdv6q";
  "erd1dj9h4rxvuv4qmk6zkc4py4348qelghp3c37cv822hzr4hu9a36esu7mcqe"; "erd10d8dg4xs6gvgrs2p5vvzvvgpz4qz04nrj8ecgfgs7ne9ctxlu6vq26xc3s";
  "erd10q8k5sh7dh3qx606drd3rl9g0uujdqnfyx4z0hhvtt03u80x98aqur5qe5"; "erd1gkk7mn67eur92s5ynxmwz7l7vf85nyx7xhmppdcmdtttjy8xa5jsgh0utp";
  "erd1e26gu3uxsvd93549lx62vdzd3sullhalygn2qwyu2eg5m6szy30sw4lahl"; "erd1wrwqkz7p03nkmc0h97ddpjahu9md505lspp7tp7vsp66msun4hmq9epppl";
  "erd1hwayc60mqgp0zmlnvdkpp7zfhvdzmetz8f57x2zf3638rxvspnxs4sgklx"; "erd1pvcvwe4p39fhz4h39ryaz8x3d8a3pwtpkdx98erdjx33gqvk335qclwh3x";
  "erd1x486x4jcs2c4cerwrm2nxkgzzs3mj9mzr98lk3e4rzvsp6xfxd5snvh4cv"; "erd1pjlzjg50py205c7sv3ylry7hnxh3mn28pxt563uapkauszjsnxuqtewz8e";
  "erd1fjenh2exckk9u984fx75pc9vf63ez0j8tnkxz25egme033xxvjhs6qyat7"; "erd1gjhzxnfht7t3d3kfkhdc0q9uwrhxfvg26plk722edy9txzmddw3sucyvj9";
  "erd1jyaql4fq6a0rvkcpwstfzw30j0xzufwhmnde5ld3utrynufd4xpqustl5g"; "erd1gg9hjwkywhekm9hhar2wu3laff8yddx0vx3xhhpnt8qjcdszmpksg5td8d";
  "erd15h9wel0d26q69cgc4dxxgcc0eqgz73a6lqkdd0s3g4ragk9d3e7swygmps"; "erd129tz27fypcrln5mf54f0260yzdf33xpkmk5v4x5v5xd69jwfypsq0s5q37";
  "erd19au0pgc3ydfjnn2he7r2ny64talrf2x7873z32xgs3ygmgnxtdzsdvnj7p"; "erd1r8wtk2samkvrlx7f6e35qzsgyhh7kskc6yed7mp8jwa87h5zd3rs3pfsna";
  "erd14dfr86dtk8eeyp02k27fdel78cx20mk97jt6g0zw3ahxz7fw7njqujuxqr"; "erd1602fdunhxnfdg9ew9pyuy00gj89vctkzpw700rw3nyj7ky7m2y8stm6c4p";
  "erd1j5snfdn4v2u6vu9jr8nkmwgndn3evcyvr3njz70s9lg02ef0x94s7667m9"; "erd1vru00wx2rfplytyfzp9tpyekh7mju8chv7wd7ls2sdtz250c2avssak7z3";
  "erd1p98rmzzpm6z0q2an3gq3g3nm50zduknjtr65t3ql0wf2j542thgqjcw80c"; "erd1hrg8fyj7y4tdflarezjp892d9fwl2mddsqqu8ljrdy3nueagz78sghgqt6";
  "erd1dm5z5jad3ea3cunzhm64zeffu6hjy9af6ph2qd5qd75lfasfg8ysl8ku0u"; "erd1r0nxct75rcle7lv736jdwx54mp9zf0jgjnf342wkdh6z6t2qjs0qyw3p5v";
  "erd1cn6e8avg2v0s6ntlrtkzlw9qde5p004zt8r9z3hq73udz333yq3qurlrn0"; "erd1saf2gpmqrv3vs0u33gh0a0tlqmuf36d00ayqgup5lemdku8vg8kq3m3mw6";
  "erd1cfehklmj25r3dunpdt99tdng6lsdw8cmu46q78crtl4r8heeuxvs6g67td"; "erd19lpz9fpxtnlaxsxye6azt9cehgyyxrqg9er8ckrwaksu0z5628lqcek4fc";
  "erd1xvl68z0q3l85hqnhytld9356w8aseewk0rngqr99twkuprmfh8uqsd59p3"; "erd1jc3fn8nvkvs96yltquymfmd925dwcnpk0yyxyy83mct6z87eyayq6uctq4";
  "erd14xhcykawhy4kv0pcqw5seu8776se9wzdegch2djgzmy56levaw8qzgplhl"; "erd1ehxulx8y25dky8ksemtcdhxgcrnstyxv7vuw2nczc7lsh8nnz0gqwelcrw";
  "erd1v9l2fusc96eeux808hrwuwwum4wqa9zqzfq2pn7eh2kak36erqsszgha0c"; "erd1xuyevy68jxyxf76r8ngl2xsa7zh606s7hs4hulh4wldznemufd9qh0aa03";
  "erd12gcjd3qtq7u706j44dws3mewfyx66nxn8vhdhzsejyug86xg3d0sgck3y5"; "erd13puxr7f7v0thezufhypt5lcy307nyf225jp67pyupyenqqhfv6msktk67p";
  "erd15pvwch3rfj9qpz4spq7es6fhvk3lu560mk3ztstwp4lk72frl7lql55d7w"; "erd1cenfq8ewh6khw5a5dygvknha990gaxcc27v22hne04g6syld0qvsm9rr6r";
  "erd17265suxnkjuaeftjt4czq993c3ulemu9f5e9e8yg8p0dhn06hqeqwv0w4v"; "erd1f7awdl5vu8sacuyhuxllren2ygpjszktz8yh37nala6ze4zy8dyq2v46c0";
  "erd1x0gew526ep7m4sstv4lsyxlyf5n9wxfg0za92h00vn9fduleytmq3cwqmq"; "erd1xpkyvz5f7ftd45vfgfevyzveut4psj96gxawvs8h5h8x5pgkll2shlpws8";
  "erd1k0h5cmhrqksjl4ghglc4vp2hx29u660jwl46hdxtme2dtup522lqs7a29r"; "erd1460jwaqduggt6xgccxphv6852hymdeq4s7lazkt5dcgpqv6clthqvm8y6e";
  "erd1ayffp47gshar73x3pam2cuxzuuj0papz5axtqcmve85dqf8tj3tq58jket"; "erd1v9va2qs9ddsp637vjmazgzyp787kee6tf8m3jdss6wuxr9s5uazqeukws4";
  "erd12xkc8c8z2xme566lec7husug30zku5f93f8ng72awdqz7ljqkqjss4w04w"; "erd1h9073yvalv0j99s4gma9zffynsvnmrug234aqejfg4l839szh6wqdqjy8q";
  "erd1rmw0u974ccjd64etuv7uwq7wlc2lnrpcctmf38jmdpufwvgddltqdnt8j4"; "erd10698hvstm54jg3j66hva6gmzmrp782llflpt5javpzl2d6dfay8qhfrg02";
  "erd1ahqy7t4gvcpnf0jxt4gx8uy3ejtf67q24c5n0x7tkdnpt9g7zrms4rz0da"; "erd14yruenkgdlwr9hnhkz8j2dp8320jgx274jv92s8mquj7twzpypgsqky0q9";
  "erd15uknpfk0kxm09m0xygvryuye85z7ee8ukkdxytptjfrqcdt030psz2unhn"; "erd1sz5ygj0hscygs06t9p0nwgyg8emgqgf6rqapvj0kjw49fjcnsdmqnp4nld";
  "erd1w2s798ttxd99xeyw3rpkpm7p66jg5wk6plq95rtum0se70na7ahqrhntf3"; "erd1pt4mejw956qay6fsgtp5suy88dwhz7ptp29dfzn33t3ww9dup4hq6yls86";
  "erd1c4leswulgywtt0e64d9as6n596lu4nrdfrlqk2su0cc87g5qxpnsge5s4a"; "erd1fsdpjxlcc9tg379zcxsvnfs9ysluxtknl4y6vgjteg4w4vrvv7gsqutp6f";
  "erd1meeespty7q4rra0r04uelyrza2jdkd563k48ynwdvdu93a7jw8jqurm9tl"; "erd189axmvs0rxsrxfkx3txggcd4rzfemcheer4xqpylfnf6qc9j0mtq663a5l";
  "erd1a8hsnud789dra8z2dhr3xd6au656jk49hme6j6hrjtp4phwt94eqqhkf6g"; "erd1npqqt9c9tnspu8mmvkuu8vntyczufkgk7l5n8j27syvz0dq02qaqjxxcn3";
  "erd1wy399cqww7devxa42pj64hjt920ar3acrv7ruqaj0uyqpm5eydlst97yuj"; "erd1wsqw8xmzhdqfdjhaqqwt7d8dhtdtc032l9nrencnkec9x4efg2aqkamfam";
  "erd1thx3p63rp5frjmu2rkf2vym5s3hvk0rw45n0acxnz056cqqjfqjs8cm2ut"; "erd1h6wpkgptergm8hefgtfpsjgkgux3hg26f6mmlr38lf6fyqssnq8su4lus4";
  "erd1287k53e57hxh2tf467q7mxaum699druf0tvjasnwtfcdrzfpv6vqek07fn"; "erd1erdn437tm6z563da7jyc6lhnz8t6rp4axff2vxj2r8tcahewpgfq05sgmj";
  "erd1agtx4trme8tcpuy92gyf7lke3m6qwkx8k2pm95dyctelfn0jxqeq73s2rj"; "erd1uk3t4vtu4rrn8l3nsdaq3zlvqzv969wgm2krz7e92phng7344dfs7hqlym";
  "erd1ffnk9jlfnh8yahfy6f4c7f9pl0vz5phku5ge3dhe86rny2fc63tq6dr7pj"; "erd1l2xn2c8mlg7m55detmqsvgajmae9rdc5m4967z6a2gn23up2552sq3uy4d";
  "erd1sps6s94v3slhdpchmxpu2em5k4tqe0hcqqnw74xasqtc688tmfgsexk9x5"; "erd1xjdhc2k26xqct4jrpf9euc4axz3rrj6u34j3jsf2ad54jfful9fspg439n";
  "erd17t4rz8rcsalpvcms64nyrq6k730zt76xpkunp4j65gn23mynksws7en3r0"; "erd1vesyhj7c067auaxp62qpdrqrxltml0ww5r65mq6anx38u4mkjz0qag8fu4";
  "erd1cpuw8492f2qj6w23qpn0vwhgyz32c0ndvelsu8k56d7czluum6uqjs57gc"; "erd1vrg0ahzzh6ukz5dyttv45xrjgg5y9vs4aj9q5j8wd6t9m6txds2skpwvas";
  "erd1dx966rk3cd7mqr0xl7d65627efg5g7dexuvlr42stupzeysfva8qlppsq4"; "erd1xp2nylneu8xsvlj6u7e9m7c3sv35v9x0za5my987elt2rr098fqq4glllu";
  "erd1c08uv2gd242rexv7td262q0tkuld85x9z447n4u69azqug544f2s473z5e"; "erd19nssta8fwtq9egf4vm2rlq4n6kwfuq4n4lm9mphc0lxje396xk2qcznftx";
  "erd1q8sxqu2wup5z0l9u5a39kjrhmnma74szq2q64zdtra9su30286lqltvm99"; "erd1288k83q5fzspzqykrjpe3k05vl844vkvtn7kp9z988qt4mwmapfqmgvmk3";
  "erd1njhwdllgjswrsuhr0f3vkm3wyy0kt3y457y4amxnz9c75j7prg7sufm77d"; "erd1j8xau59v9dljrk5dqxftue4cf5eek4vs5kw9hlcf8vnc3j73skcqrpg7sm";
  "erd1xsxr9g6tg3586q3uucdme0yrzqd68sl438suqeydsch750cq5vts68nw83"].

Section modes.
Context `{KeyCrates, !Bech32}.
Implicit Types (w : KeeperWallet) (t : Turn).

(** A task that pings [target] after [delay] seconds, whose id is the nonce. *)
Definition ping_task (target : string) (delay current_nonce : N) t : bytes :=
  let endpoint_hex := hex_encode (string_bytes "ping") in
  let trigger_hex := "00" +:+ format_0x 16 (u64_add (now_secs t) delay) in
  string_bytes ("scheduleQuantumTask@" +:+
    serialize_quantum_task_hex current_nonce ZERO_OWNER target endpoint_hex [] 0 trigger_hex 30000000).

Definition intra_shard_order (shared_addresses : list string) t : Choice :=
  match shared_addresses !! (rand_idx t mod length shared_addresses)%nat with
  | Some a => Send (MkOrder None 50000 a "1")
  | None => Panics
  end.

(** An address of another shard. *)
Definition to_other_shard w t (use : string → Choice) : Choice :=
  match get_shard (bech32_address w) 3 with
  | Err _ => Panics
  | Ok sender_shard =>
      match generate_cross_shard_address (search_draws t) sender_shard 3 (search_fuel t) 0 with
      | None => Searching
      | Some (Err _) => Panics
      | Some (Ok a) => use a
      end
  end.

(** A signed transaction inside the data of another one; both are of [w]. *)
Definition relayed_order w (inner_tx : Transaction) (outer_gas : N) : Choice :=
  match sign inner_tx (wallet_key w) with
  | Err _ => Panics
  | Ok inner_tx =>
      match to_relayed_data inner_tx with
      | Err _ => Panics
      | Ok relayed_data => Send (MkOrder (Some (string_bytes relayed_data)) outer_gas (bech32_address w) "0")
      end
  end.

Definition relayed_transfer (args : LoopArgs) w t (inner_nonce outer_gas : N) : Choice :=
  to_other_shard w t (λ a,
    relayed_order w
      (new inner_nonce "1" a (bech32_address w) 1000000000 50000 None (cli_chain_id args) 1) outer_gas).

Definition relayed_dex_order (args : LoopArgs) w (current_nonce : N) : Choice :=
  relayed_order w
    (new current_nonce "0" WEGLD_USDC (bech32_address w) 1000000000 15000000
      (Some (string_bytes SWAP_WEGLD)) (cli_chain_id args) 1) 30000000.

(** One wallet in ten executes, the others create. *)
Definition swarm_order (i current_nonce : N) t : Choice :=
  if decide (i mod 10 ≠ 0) then
    Send (MkOrder (Some (ping_task SWARM_TARGET 60 current_nonce t)) 6000000 SCHEDULER_SC "30000000000000000")
  else
    Send (MkOrder (Some (string_bytes ("executeTask@" +:+ format_0x 16 current_nonce))) 6000000 SCHEDULER_SC "0").

(** The last and the first 20 ms of a block. *)
Definition boundary_order (args : LoopArgs) (current_nonce : N) t : Choice :=
  let period := block_period_ms args in
  if decide (period = 0) then Panics
  else
    let position_in_block := now_ms t mod period in
    if decide (u64_sub period 20 ≤ position_in_block) then
      Send (MkOrder (Some (ping_task SWARM_TARGET 10 current_nonce t)) 6000000 SCHEDULER_SC "30000000000000000")
    else if decide (position_in_block < 20) then
      Send (MkOrder (Some (string_bytes ("executeTask@b" +:+ format_0x 15 (u64_sub current_nonce 1))))
        6000000 SCHEDULER_SC "0")
    else
      let ms_until_close :=
        if decide (position_in_block < u64_sub period 20)
        then u64_sub (u64_sub period 20) position_in_block else 0 in
      Again (N.min ms_until_close 500).

Definition benchmark_order (current_nonce : N) : Choice :=
  let call data value := Send (MkOrder (Some (string_bytes data)) 15000000 BENCHMARK_SC value) in
  match current_nonce mod 4 with
  | 0 => call "createIntent@00@00@00@0000000000000000000000000000000000000000000000000000000000000000@00"
           "10000000000000000"
  | 1 => call "swap@00" "0"
  | 2 => call "emergencySwap@00" "0"
  | _ => call "mint@00" "0"
  end.

(** The payload of the demonstration is taken back out of the transaction. *)
Definition pcit_order (args : LoopArgs) w (current_nonce : N) : Choice :=
  let serialized_task := serialize_quantum_task_hex 42 ZERO_OWNER PING_TARGET
    (hex_encode (string_bytes "swapTokensFixedInput")) [hex_encode (string_bytes "USDC-c76f1f")] 0
    "0000000000000000" 30000000 in
  let tx := build_quantum_execution_tx current_nonce (bech32_address w) SCHEDULER_SC serialized_task None
    (cli_chain_id args) in
  match data tx with
  | None => Again 0
  | Some tx_data =>
      match base64_decode tx_data with
      | Ok payload_bytes => Send (MkOrder (Some payload_bytes) 30000000 SCHEDULER_SC "0")
      | Err _ => Again 0
      end
  end.

(** The transaction of a fresh key against the pair of the victim, at its gas
    price, which this wallet relays. *)
Definition backrun_choice (args : LoopArgs) w t : Choice :=
  match victim t with
  | None => Again 500
  | Some v =>
      match generate_throwaway (random_address t) with
      | Err _ => Panics
      | Ok fake_sender =>
          let tx := new 0 "0" (pair_address v) (bech32_address fake_sender) (victim_gas_price v) 1500000
            (Some (string_bytes SWAP_USDC)) (cli_chain_id args) 1 in
          let tx := match sign tx (wallet_key fake_sender) with Ok tx => tx | Err _ => tx end in
          match to_relayed_v3 tx (bech32_address w) (wallet_key w) with
          | Ok tx => SendOwn tx
          | Err _ => SendOwn (tx <| relayer := Some (bech32_address w) |>)
          end
      end
  end.

(** Victim pool -> (token in the middle, rescue pool, its endpoint). *)
Definition pool_registry : gmap string (string * string * string) :=
  <[WEGLD_MEX := ("MEX-455c57", WEGLD_MEX, "swapTokensFixedInput")]>
  (<[ASHSWAP := ("USDC-c76f1f", WEGLD_USDC, "swapTokensFixedInput")]>
  (<[WEGLD_USDC := ("USDC-c76f1f", ASHSWAP, "exchange")]> ∅)).

(** [predicted_profit_pct] is the constant 0.35, above the bound 0.28. *)
Definition arbitrage_order t : Choice :=
  match opportunity t with
  | None => Again 50
  | Some opp =>
      match pool_registry !! target_dex opp with
      | None =>
          match slice_to (Nat.min 16 (String.length (target_dex opp))) (target_dex opp) with
          | Ok _ => Again 50
          | Err _ => Panics
          end
      | Some (mid_token, pool_b_bech32, endpoint_b_name) =>
          Send (MkOrder (Some (string_bytes ("executeFlashArbitrage" +:+
            "@" +:+ hex_encode (string_bytes "WEGLD-bd4d79") +:+
            "@" +:+ "6124fee993bc0000" +:+
            "@" +:+ bech32_to_hex (target_dex opp) +:+
            "@" +:+ hex_encode (string_bytes mid_token) +:+
            "@" +:+ bech32_to_hex pool_b_bech32 +:+
            "@" +:+ "01" +:+
            "@" +:+ "616c0cce733e0000" +:+
            "@" +:+ hex_encode (string_bytes endpoint_b_name)))) 20000000 TARGET_VAULT "0")
      end
  end.

Definition fund_order (i current_nonce : N) : Choice :=
  match addrs !! N.to_nat (u64_add current_nonce i mod 100) with
  | Some a => Send (MkOrder None 50000 a "200000000000000000")
  | None => Panics
  end.

(** The modes that load the network. *)
Definition stress_order t : Choice :=
  Send (MkOrder (Some (generate_schedule_payload (now_secs t))) 300000000 BON_SC "0").
Definition wrap_order : Choice :=
  Send (MkOrder (Some (string_bytes "wrapEgld")) 5000000 WRAP_SC "5000000000000000").
Definition dex_order : Choice := Send (MkOrder (Some (string_bytes SWAP_WEGLD)) 15000000 WEGLD_USDC "0").
Definition cross_shard_order (current_nonce : N) t : Choice :=
  Send (MkOrder (Some (ping_task PING_TARGET 10 current_nonce t)) 6000000 SCHEDULER_SC "0").
Definition theta_order : Choice :=
  Send (MkOrder (Some (padded_call "nonExistentEndpoint" "FF" 1000)) 10000000 SYSTEM_SC "0").
Definition epsilon_order : Choice := Send (MkOrder (Some (many_args 3000)) 50000000 BON_SC "0").
Definition delta_order : Choice :=
  Send (MkOrder (Some (padded_call "triggerEventLogSpam" "EE" 500)) 12000000 SYSTEM_SC "0").
Definition state_desync_order (current_nonce : N) t : Choice :=
  Send (MkOrder (Some (ping_task PING_TARGET 5 current_nonce t)) 80000000 SCHEDULER_SC "0").
Definition eie_order : Choice := Send (MkOrder (Some (many_args 2500)) 25000000 SYSTEM_SC "0").
Definition nonce_desync_order (args : LoopArgs) w (current_nonce : N) t : Choice :=
  relayed_transfer args w t (u64_add current_nonce 1) 15000000.
Definition other_shard_order w t : Choice :=
  to_other_shard w t (λ a, Send (MkOrder None 50000 a "1000000000000000")).
Definition demo_order w : Choice :=
  Send (MkOrder (Some (string_bytes "XCronProtocol")) 100000 (bech32_address w) "1").

(** The match on the mode; [shared_addresses] are those of all wallets. *)
Definition choose (args : LoopArgs) (shared_addresses : list string) w (i current_nonce : N) t : Choice :=
  let a_random := generate_random_address (random_address t) in
  match mode args with
  | XseSim => Send (MkOrder None 0 a_random "0")
  | Stress => stress_order t
  | Fuzz => Send (MkOrder None 50000 a_random "1")
  | IntraShard => intra_shard_order shared_addresses t
  | WrapEgld => wrap_order
  | DexSwap => dex_order
  | CrossShard => cross_shard_order current_nonce t
  | RelayedCrossShard => relayed_transfer args w t current_nonce 12000000
  | RelayedDex => relayed_dex_order args w current_nonce
  | XcronSwarm => swarm_order i current_nonce t
  | XcronBoundary => boundary_order args current_nonce t
  | FundHydra => fund_order i current_nonce
  | Zeta => Send (MkOrder None 50000 a_random "1")
  | Theta => theta_order
  | Epsilon => epsilon_order
  | Delta => delta_order
  | StateDesync => state_desync_order current_nonce t
  | EieOverflow => eie_order
  | NonceDesyncV2 => nonce_desync_order args w current_nonce t
  | BlsDesync | OrphanFlooding => other_shard_order w t
  | TpsDemo => demo_order w
  | E2EBenchmark => benchmark_order current_nonce
  | EventKeeper => Send (MkOrder None 50000 (bech32_address w) "0")
  | PcitDemo => pcit_order args w current_nonce
  | SurgicalBackrun => backrun_choice args w t
  | ArbitrageHft => arbitrage_order t
  | PreWarm | Snipe | MultiKeeper => Send (MkOrder None 50000 a_random "1")
  end.

(** The transaction of an order, with the gas price of the victim and the nonce
    gaps of the modes that ask for them. *)
Definition order_tx (args : LoopArgs) w (i current_nonce : N) t (o : Order) : Transaction :=
  let tx := new current_nonce (order_value o) (receiver_owned o) (bech32_address w) 1000000000 (gas o)
    (payload o) (cli_chain_id args) 1 in
  match mode args with
  | SurgicalBackrun => match victim t with Some v => tx <| gas_price := victim_gas_price v |> | None => tx end
  | OrphanFlooding => tx <| nonce := u64_add (u64_add current_nonce 5) (i mod 50) |>
  | Fuzz => if decide (orphan_roll t < 10) then tx <| nonce := u64_add current_nonce 5 |> else tx
  | _ => tx
  end.
End modes.

(** ** The loop *)

(** What a wallet's task keeps between turns; [posted] are the transactions
    given to the gateways so far, with their answers. *)
Record WalletLoop := MkLoop {
  next_nonce : N;
  total_tx_sent : N;
  total_errors : N;
  burst_interval : N;
  burst_start : N;
  running : bool;
  posted : list (Transaction * result string);
}.
#[export] Instance WalletLoop_eta : Settable WalletLoop := λ l,
  MkLoop (next_nonce l) (total_tx_sent l) (total_errors l) (burst_interval l) (burst_start l) (running l) (posted l).

Section loop.
Context `{KeyCrates, !Bech32}.
Implicit Types (w : KeeperWallet) (t : Turn) (l : WalletLoop).

Definition stop l : WalletLoop := l <| running := false |>.
Definition post (tx : Transaction) (answer : result string) l : WalletLoop :=
  l <| posted ::= λ ps, ps ++ [(tx, answer)] |>.
Definition count_sent l : WalletLoop := l <| total_tx_sent ::= λ n, u64_add n 1 |>.

(** The nonce moves on only after a success; after a failure the gateways are
    asked for it, and the line that reports it cuts eight bytes of the address. *)
Definition send_signed w t (tx : Transaction) l : WalletLoop :=
  match sign tx (wallet_key w) with
  | Err _ => l
  | Ok tx =>
      let '(answer, real_nonce) := gateways t tx in
      let l := post tx answer l in
      match answer with
      | Ok _ => count_sent (l <| next_nonce ::= λ n, u64_add n 1 |>)
      | Err _ =>
          let l := l <| total_errors ::= λ n, u64_add n 1 |> in
          match real_nonce with
          | Ok n =>
              let l := l <| next_nonce := n |> in
              match slice_to 8 (bech32_address w) with Ok _ => l | Err _ => stop l end
          | Err _ => l
          end
      end
  end.

(** BlsDesync: counted whatever the gateways answer. *)
Definition send_counted w t (tx : Transaction) l : WalletLoop :=
  match sign tx (wallet_key w) with
  | Err _ => l
  | Ok tx => count_sent (post tx (gateways t tx).1 l)
  end.

(** FundHydra: the payments number [j], [j + 1], ...; then the task ends. *)
Fixpoint fund_all (args : LoopArgs) w t (count j : nat) l : WalletLoop :=
  match count with
  | O => stop l
  | S count' =>
      let current_nonce_fund := next_nonce l in
      let l := l <| next_nonce ::= λ n, u64_add n 1 |> in
      match addrs !! (j mod 100)%nat with
      | None => stop l
      | Some target =>
          let fund_tx := new current_nonce_fund "200000000000000000" target (bech32_address w) 1000000000 50000
            None (cli_chain_id args) 1 in
          let l := match sign fund_tx (wallet_key w) with
                   | Ok fund_tx => post fund_tx (gateways t fund_tx).1 l
                   | Err _ => l
                   end in
          fund_all args w t count' (S j) l
      end
  end.

Definition wallet_turn (args : LoopArgs) (shared_addresses : list string) w (i : N) t l : WalletLoop :=
  if negb (running l) then l
  else
    match pace args i (N.of_nat (length shared_addresses)) (instant_ms t - burst_start l) (burst_interval l) (jitter t) with
    | PacePanics => stop l
    | Hide _ => l
    | Closed stored =>
        l <| burst_interval := default (burst_interval l) stored |> <| burst_start := instant_ms t |>
    | Fire _ =>
        let current_nonce := next_nonce l in
        match choose args shared_addresses w i current_nonce t with
        | Panics => stop l
        | Again _ | Searching => l
        | SendOwn tx =>
            let answer := (gateways t tx).1 in
            let l := post tx answer l in
            match answer with Ok _ => count_sent l | Err _ => l end
        | Send o =>
            let tx := order_tx args w i current_nonce t o in
            match mode args with
            | FundHydra => fund_all args w t 100 0 l
            | BlsDesync => send_counted w t tx l
            | _ => send_signed w t tx l
            end
        end
    end.

Definition wallet_loop (args : LoopArgs) (shared_addresses : list string) w (i : N) (ts : list Turn) l : WalletLoop :=
  foldl (λ l t, wallet_turn args shared_addresses w i t l) l ts.

(** The mode FundHydra of [main]: one payment to every wallet, by the parent,
    whose nonce grows whatever becomes of the payments. *)
Fixpoint fund_wallets (args : LoopArgs) (parent : KeeperWallet) (parent_nonce : N) (wallets : list KeeperWallet)
  : result (list Transaction) :=
  match wallets with
  | [] => Ok []
  | w :: rest =>
      let tx := new parent_nonce "200000000000000000" (bech32_address w) (bech32_address parent) 1000000000 50000
        None (cli_chain_id args) 1 in
      match sign tx (wallet_key parent) with
      | Err _ => Err PANIC
      | Ok tx =>
          match fund_wallets args parent (u64_add parent_nonce 1) rest with
          | Ok txs => Ok (tx :: txs)
          | Err x => Err x
          end
      end
  end.
Definition fund_hydra (args : LoopArgs) (env_path : option string) (exists_file : string → bool)
    (read_pem : string → result string) (fetch : string → result N) (wallets : list KeeperWallet)
  : result (list Transaction) :=
  let wallet_path := match env_path with
    | Some p => p
    | None => if exists_file "./.secrets/wallet.pem" then "./.secrets/wallet.pem" else "../.secrets/wallet.pem"
    end in
  match load_pem (read_pem wallet_path) with
  | Err _ => Err PANIC
  | Ok parent =>
      let parent_nonce := match fetch (bech32_address parent) with Ok n => n | Err _ => 0 end in
      fund_wallets args parent parent_nonce wallets
  end.
End loop.

(** The server on port 9090: the answer to the bytes read, none to an empty
    request. *)
Definition CRLF : string := String "013" (String "010" "").
Definition metrics (sent errs : N) : string :=
  "{" +:+ quoted "sent" +:+ ": " +:+ pretty sent +:+ ", " +:+ quoted "errors" +:+ ": " +:+ pretty errs +:+ "}".
Definition serve (dashboard_html : string) (request : bytes) (sent errs : N) : option string :=
  match request with
  | [] => None
  | _ =>
      if String.prefix "GET /metrics" (from_utf8_lossy request) then
        Some ("HTTP/1.1 200 OK" +:+ CRLF +:+ "Content-Type: application/json" +:+ CRLF +:+
          "Access-Control-Allow-Origin: *" +:+ CRLF +:+ CRLF +:+ metrics sent errs)
      else Some ("HTTP/1.1 200 OK" +:+ CRLF +:+ "Content-Type: text/html" +:+ CRLF +:+ CRLF +:+ dashboard_html)
  end.
