(* ===== verification/KeeperRuns.v ===== *)
(** What the wallet loop of the keeper guarantees: the nonce of a wallet against
    the account on the chain, the windows in which the timed modes fire, and the
    calls that the payloads encode, up to the HFT vault. *)

From stdpp Require Import sorting.
From S2P Require Import Prelude Sdk Types HftVault RustStd Xse Mempool KeeperTx KeeperTxProps KeeperNet KeeperKeys AddressCodec KeeperLoop.

(** ** When a turn fires *)

(** Snipe fires exactly in the window after its interval, and the interval that
    is stored afterwards is at least a minute. *)
Lemma snipe_window args i elapsed interval jit :
  interval * 1000 + snipe_window_ms args < u64_mod →
  (snipe_pace args i elapsed interval jit = Fire 0 ↔
     interval * 1000 ≤ elapsed ∧ elapsed ≤ interval * 1000 + snipe_window_ms args) ∧
  (∀ ms, snipe_pace args i elapsed interval jit = Hide ms → elapsed + ms = interval * 1000) ∧
  (∀ n, snipe_pace args i elapsed interval jit = Closed (Some n) → i = 0 ∧ 60 ≤ n).
Proof.
  intros Hb. unfold snipe_pace. rewrite u64_mul_small, u64_add_small by (rewrite ?u64_mul_small; lia).
  destruct (decide (elapsed < interval * 1000)) as [H1|H1];
    [|destruct (decide (interval * 1000 + snipe_window_ms args < elapsed)) as [H2|H2]].
  - split_and!; [split; [done|lia]|intros ms [= <-]; lia|done].
  - split_and!; [split; [done|lia]|done|]. intros n. case_decide; intros [= <-]. split; [done|].
    unfold next_interval. lia.
  - split_and!; [split; [lia|done]|done|done].
Qed.

Section runs.
Context `{KeyCrates, !Bech32}.
Implicit Types (w : KeeperWallet) (t : Turn) (l : WalletLoop).

(** Between two edges XcronBoundary sleeps at most half a second, and never past
    the start of the last 20 ms of the block. *)
Lemma boundary_sleep args current_nonce t ms :
  20 < block_period_ms args → block_period_ms args < u64_mod →
  boundary_order args current_nonce t = Again ms →
  let position := now_ms t mod block_period_ms args in
  20 ≤ position ∧ 0 < ms ∧ ms ≤ 500 ∧ position + ms ≤ block_period_ms args - 20.
Proof.
  intros Hp Hu. unfold boundary_order.
  assert (∀ a b, b ≤ a → a < u64_mod → u64_sub a b = a - b) as Hsub.
  { intros a b Hle Ha. unfold u64_sub. replace (a + u64_mod - b) with (a - b + 1 * u64_mod) by lia.
    rewrite N.Div0.mod_add. apply N.mod_small. lia. }
  rewrite !(Hsub (block_period_ms args) 20) by lia. rewrite decide_False by lia.
  case_decide as Hc1; [done|]. case_decide as Hc2; [done|]. rewrite decide_True by lia.
  rewrite Hsub by lia. intros [= <-]. cbv zeta. lia.
Qed.

(** ** Call data

    The documented form of a contract call: the name of the endpoint, and the
    arguments in hexadecimal after an [@] each; a number is its big-endian bytes
    without leading zeros. *)

Definition call_data (endpoint : string) (args : list bytes) : bytes :=
  string_bytes (endpoint +:+ foldr (λ a s, "@" +:+ hex_of a +:+ s) "" args).
Definition top_biguint (n : N) : bytes := be_bytes (N.to_nat ((N.size n + 7) / 8)) n.
Definition vault_call_args (c : HftVault.Call) : list bytes :=
  match c with
  | ExecuteFlashArbitrage ti n pa tm pb mm mf ep =>
      [string_bytes ti; top_biguint n; addr_bytes pa; string_bytes tm; addr_bytes pb; top_biguint mm;
       top_biguint mf; ep]
  | _ => []
  end.

(** The hex and base64 crates write the hexadecimal form and read back. *)
Definition hex_writes : Prop := ∀ b, octets b → hex_encode b = hex_of b.
Definition base64_reads_back : Prop := ∀ b, octets b → base64_decode (base64_encode b) = Ok b.

Lemma string_bytes_octets s : octets (string_bytes s).
Proof. unfold string_bytes. apply Forall_fmap, Forall_true. intros c. apply N_ascii_bounded. Qed.

(** The address that the keeper writes for a bech32 string: the zero address
    when the string cannot be decoded. *)
Definition resolved (s : string) : address :=
  match bech32_decode s with Some ((_ :: _) as b) => be_val b | _ => zero_address end.

Definition pools : list string := [WEGLD_USDC; ASHSWAP; WEGLD_MEX].

(** The checksums of the AshSwap and of the WEGLD/MEX address are wrong. *)
Lemma pools_resolved :
  resolved WEGLD_USDC ≠ zero_address ∧ resolved ASHSWAP = zero_address ∧ resolved WEGLD_MEX = zero_address.
Proof. by vm_compute. Qed.

(** What the keeper writes for them, and their bytes. *)
Definition usdc_bytes : bytes :=
  [0; 0; 0; 0; 0; 0; 0; 0; 5; 0; 206; 126; 171; 115; 105; 120; 206; 148; 146; 235; 191; 130; 6; 242; 82; 234; 203; 51;
   60; 250; 84; 131].
Lemma usdc_decoded :
  bech32_decode WEGLD_USDC = Some usdc_bytes ∧ usdc_bytes = addr_bytes (resolved WEGLD_USDC) ∧ octets usdc_bytes.
Proof.
  split; [by vm_compute|]. split; [by vm_compute|].
  apply (bool_decide_eq_true_1 _). by vm_compute.
Qed.
Lemma unreadable s : bech32_decode s = None → hex_of (addr_bytes (resolved s)) =
  "0000000000000000000000000000000000000000000000000000000000000000".
Proof. unfold resolved. intros ->. by vm_compute. Qed.

Lemma pool_hex s :
  hex_writes → bech32_standard → s ∈ pools → bech32_to_hex s = hex_of (addr_bytes (resolved s)).
Proof.
  intros Hw Hs Hin. unfold bech32_to_hex. unfold pools in Hin.
  repeat (apply elem_of_cons in Hin as [->|Hin]); [..|by apply elem_of_nil in Hin].
  - destruct usdc_decoded as (Hd & Hb & Hoct). rewrite Hs, Hd, <-Hb by (vm_compute; lia). by apply Hw.
  - assert (bech32_decode ASHSWAP = None) as Hn by by vm_compute.
    rewrite Hs, Hn by (vm_compute; lia). symmetry. by apply unreadable.
  - assert (bech32_decode WEGLD_MEX = None) as Hn by by vm_compute.
    rewrite Hs, Hn by (vm_compute; lia). symmetry. by apply unreadable.
Qed.

#[local] Opaque WEGLD_USDC ASHSWAP WEGLD_MEX.
(** Every route of the registry names a pool that cannot be decoded. *)
Lemma registry_route dex mid_token pool_b endpoint_b :
  pool_registry !! dex = Some (mid_token, pool_b, endpoint_b) →
  dex ∈ pools ∧ pool_b ∈ pools ∧ (resolved dex = zero_address ∨ resolved pool_b = zero_address).
Proof.
  destruct pools_resolved as (_ & Ha & Hm). unfold pool_registry, pools.
  rewrite !lookup_insert_Some, lookup_empty.
  rewrite !elem_of_cons.
  intros [[<- [= _ <- _]]|[_ [[<- [= _ <- _]]|[_ [[<- [= _ <- _]]|[_ Hnone]]]]]]; [tauto..|discriminate Hnone].
Qed.

#[local] Transparent WEGLD_USDC ASHSWAP WEGLD_MEX.

(** The call of the vault that an opportunity on a registered pool asks for. *)
Definition arbitrage_call (pa pb : address) (mid_token endpoint_b : string) : HftVault.Call :=
  ExecuteFlashArbitrage "WEGLD-bd4d79" 7000000000000000000 pa mid_token pb 1 7020000000000000000
    (string_bytes endpoint_b).

Lemma arbitrage_order_call t opp mid_token pool_b endpoint_b :
  hex_writes → bech32_standard → opportunity t = Some opp →
  pool_registry !! target_dex opp = Some (mid_token, pool_b, endpoint_b) →
  arbitrage_order t =
  Send (MkOrder (Some (call_data "executeFlashArbitrage" (vault_call_args
    (arbitrage_call (resolved (target_dex opp)) (resolved pool_b) mid_token endpoint_b)))) 20000000 TARGET_VAULT "0").
Proof.
  intros Hw Hs Ho Hr. destruct (registry_route _ _ _ _ Hr) as (Ha & Hb & _).
  unfold arbitrage_order. rewrite Ho, Hr, !pool_hex, !Hw by (done || apply string_bytes_octets).
  unfold call_data, vault_call_args, arbitrage_call. cbn [foldr].
  rewrite !string_app_nil.
  change (hex_of (top_biguint 7000000000000000000)) with "6124fee993bc0000".
  change (hex_of (top_biguint 7020000000000000000)) with "616c0cce733e0000".
  change (hex_of (top_biguint 1)) with "01". done.
Qed.

(** Nothing answers a call at the zero address. *)
Definition nobody_at_zero `{!Pools} (e : env HftVault.K) : Prop :=
  ∀ ep args p wd, pool_call e zero_address ep args p wd = None.

Lemma zero_pool_refused `{!Sdk, !Pools} e pa pb mid_token endpoint_b wd :
  native_apart e → nobody_at_zero e → pa = zero_address ∨ pb = zero_address →
  is_ok (invoke e (HftVault.dispatch e (arbitrage_call pa pb mid_token endpoint_b)) wd) = false.
Proof.
  intros Hnat Hzero Hp.
  destruct (wp_only_err (invoke e (HftVault.dispatch e (arbitrage_call pa pb mid_token endpoint_b))) any_error wd)
    as (msg & -> & _); [|done].
  apply wp_invoke. cbn [HftVault.dispatch arbitrage_call]. apply arbitrage_wp; [done|done|].
  intros w1 w2 ps1 ps2 p b _ _ _ Hp1 _ _ _ Hp2 _ _ _. destruct Hp as [->| ->]; by rewrite Hzero in *.
Qed.

(** The optional secret of [executeQuantumTask] is an argument of exactly 32
    bytes, or none at all; the keeper always writes one, with a discriminant in
    front: it has one byte without a secret, and 33 with one. *)
Lemma executor_secret_length n from scheduler task secret chain :
  match secret with Some s => length s = 32%nat | None => True end →
  ∃ arg, data (build_quantum_execution_tx n from scheduler (hex_of task) (hex_of <$> secret) chain) =
      Some (base64_encode (call_data "executeQuantumTask" [task; arg])) ∧ length arg ≠ 32%nat.
Proof.
  intros Hs. exists (match secret with Some s => 1 :: s | None => [0] end). split.
  - unfold build_quantum_execution_tx, call_data. cbn [data new foldr]. rewrite string_app_nil.
    by destruct secret as [s|].
  - destruct secret as [s|]; [|done]. simpl. by rewrite Hs.
Qed.

(** What PcitDemo sends: the execution of a swap, in the encoding of the task
    that the Scheduler reads. *)
Lemma pcit_demo_call args w n :
  hex_writes → base64_reads_back →
  pcit_order args w n =
  Send (MkOrder (Some (call_data "executeQuantumTask"
    [nested_task (fresh_task 42 0 0x0500ebaa4de200cf54fe97a0604c759cd8f6de251daeb90b
      (string_bytes "swapTokensFixedInput") [string_bytes "USDC-c76f1f"] (TimeOnce 0) 30000000); [0]]))
    30000000 SCHEDULER_SC "0").
Proof.
  intros Hw Hr. unfold pcit_order, build_quantum_execution_tx. cbn [data new].
  cbn [fmap option_fmap option_map]. rewrite Hr by apply string_bytes_octets. rewrite !Hw by apply string_bytes_octets.
  unfold call_data. cbn [foldr]. rewrite string_app_nil.
  rewrite <- (task_hex_eq 42 0 _ _ [_] (TimeOnce 0) 0 (be_bytes 8 0)); try done; try apply string_bytes_octets.
  - constructor; [apply string_bytes_octets|constructor].
  - by repeat constructor.
Qed.

(** ** The nonce *)

(** The modes whose transactions carry the nonce of the wallet and are sent one
    at a time, not inside another one. *)
Definition plain_mode (m : ExecutionMode) : bool :=
  match m with
  | Fuzz | OrphanFlooding | FundHydra | BlsDesync | SurgicalBackrun
  | RelayedCrossShard | RelayedDex | NonceDesyncV2 => false
  | _ => true
  end.

(** Fuzz (one time in ten) and OrphanFlooding leave a gap of at least 5. *)
Lemma gap_modes args w i current_nonce t o :
  current_nonce + 55 < u64_mod →
  mode args = OrphanFlooding ∨ mode args = Fuzz ∧ orphan_roll t < 10 →
  current_nonce + 5 ≤ nonce (order_tx args w i current_nonce t o).
Proof.
  intros Hu Hm. assert (i mod 50 < 50) by (by apply N.mod_lt). unfold order_tx.
  destruct Hm as [->|[-> Hr]]; [|rewrite decide_True by done]; cbn [nonce].
  - change (current_nonce + 5 ≤ u64_add (u64_add current_nonce 5) (i mod 50)).
    rewrite (u64_add_small current_nonce 5), u64_add_small by lia. generalize dependent (i mod 50). lia.
  - change (current_nonce + 5 ≤ u64_add current_nonce 5). rewrite u64_add_small by lia. lia.
Qed.

Lemma sign_ok tx key : ∃ sig, sign tx key = Ok (tx <| signature := Some sig |>).
Proof. unfold sign. rewrite serialize_flat. eauto. Qed.

(** A turn of such a mode leaves the nonce and the network alone, or sends one
    transaction with the nonce of the wallet. *)
Lemma plain_turn args addresses w i t l :
  plain_mode (mode args) = true →
  let l' := wallet_turn args addresses w i t l in
  (next_nonce l' = next_nonce l ∧ posted l' = posted l) ∨
  ∃ o, choose args addresses w i (next_nonce l) t = Send o ∧
    l' = send_signed w t (order_tx args w i (next_nonce l) t o) l ∧
    nonce (order_tx args w i (next_nonce l) t o) = next_nonce l.
Proof.
  intros Hm l'. subst l'. unfold wallet_turn. destruct (running l); [|by left]. cbn [negb].
  destruct (pace _ _ _ _ _ _); [|by left..].
  destruct (choose _ _ _ _ _ _) as [o|tx| | |] eqn:Hc; [| |by left..].
  - right. exists o. split; [done|]. unfold order_tx. by destruct (mode args).
  - exfalso. revert Hc. unfold choose, intra_shard_order, swarm_order, boundary_order, benchmark_order, pcit_order,
      arbitrage_order. destruct (mode args); try done; cbv zeta; repeat case_match; done.
Qed.

(** What becomes of a transaction on its way: it arrives and the answer does,
    it arrives and the answer is lost, or it does not arrive. *)
Inductive Delivery :=
| Answers (hash : string)
| AnswerLost (error : string)
| NotDelivered (error : string).

(** The account takes the transaction with its own nonce; one with a later nonce
    is kept waiting for the gap to close, an earlier one is refused. *)
Definition chain_answer (d : Delivery) (account : N) (tx : Transaction) : result string * N :=
  let taken := if decide (nonce tx = account) then u64_add account 1 else account in
  match d with
  | NotDelivered e => (Err e, account)
  | Answers hash => (if decide (nonce tx < account) then Err "lowerNonceInTx" else Ok hash, taken)
  | AnswerLost e => (Err e, taken)
  end.

(** A turn against the account: the nonce request that follows a failure is
    answered with the nonce of the account, or not at all. *)
Record ChainTurn := MkChainTurn {
  inputs : Turn;
  delivery : Delivery;
  reachable : bool;
}.
Definition against (s : ChainTurn) (account : N) : Turn :=
  let t := inputs s in
  MkTurn (instant_ms t) (now_ms t) (now_secs t) (jitter t) (rand_idx t) (random_address t) (search_draws t)
    (search_fuel t) (orphan_roll t) (victim t) (opportunity t)
    (λ tx, let '(answer, account') := chain_answer (delivery s) account tx in
           (answer, if reachable s then Ok account' else Err ALL_FAILED)).
Definition chain_turn (args : LoopArgs) (addresses : list string) w (i : N) (c : WalletLoop * N) (s : ChainTurn)
  : WalletLoop * N :=
  let '(l, account) := c in
  let l' := wallet_turn args addresses w i (against s account) l in
  (l', foldl (λ a p, (chain_answer (delivery s) a p.1).2) account (drop (length (posted l)) (posted l'))).
Definition chain_run (args : LoopArgs) (addresses : list string) w (i : N) (ss : list ChainTurn) (c : WalletLoop * N)
  : WalletLoop * N := foldl (chain_turn args addresses w i) c ss.

(** The nonces of the transactions that were answered with a hash. *)
Definition accepted (ps : list (Transaction * result string)) : list N :=
  omap (λ p, if is_ok p.2 then Some (nonce p.1) else None) ps.

(** One turn against an account that the wallet is not ahead of. *)
Lemma chain_turn_spec args addresses w i l a s :
  plain_mode (mode args) = true → next_nonce l ≤ a → a + 1 < u64_mod →
  let '(l', a') := chain_turn args addresses w i (l, a) s in
  (posted l' = posted l ∧ next_nonce l' = next_nonce l ∧ a' = a) ∨
  ∃ tx answer, posted l' = posted l ++ [(tx, answer)] ∧ nonce tx = next_nonce l ∧ a ≤ a' ∧ a' ≤ a + 1 ∧
    (is_ok answer = true ↔ next_nonce l = a ∧ ∃ h, delivery s = Answers h) ∧
    (is_ok answer = true → a' = a + 1) ∧
    next_nonce l' = if is_ok answer || reachable s then a' else next_nonce l.
Proof.
  intros Hm Hle Hu. unfold chain_turn.
  destruct (plain_turn args addresses w i (against s a) l Hm) as [[Hn Hp]|(o & _ & -> & Hnonce)].
  { left. rewrite Hn, Hp, drop_all. done. }
  right. set (tx0 := order_tx _ _ _ _ _ _) in *. unfold send_signed.
  destruct (sign_ok tx0 (wallet_key w)) as [sig ->]. set (tx := tx0 <| signature := Some sig |>).
  assert (nonce tx = next_nonce l) as Htx by done. clearbody tx. cbn [gateways against].
  destruct (chain_answer (delivery s) a tx) as [answer a'] eqn:Hans.
  assert (∀ l', posted l' = posted l ++ [(tx, answer)] →
    foldl (λ a p, (chain_answer (delivery s) a p.1).2) a (drop (length (posted l)) (posted l')) = a') as Hacc.
  { intros l' ->. rewrite drop_app_length. simpl. by rewrite Hans. }
  assert (a ≤ a' ∧ a' ≤ a + 1 ∧ (is_ok answer = true ↔ next_nonce l = a ∧ ∃ h, delivery s = Answers h) ∧
    (is_ok answer = true → a' = a + 1)) as (Hlo & Hhi & Hok & Hnext).
  { rewrite <- Htx in Hle |- *. unfold chain_answer in Hans. rewrite u64_add_small in Hans by done.
    destruct (delivery s) as [h|e|e]; simplify_eq; cbn [is_ok]; repeat case_decide; cbn [is_ok];
      split_and!; try lia; try done; try (split; [done|]); naive_solver lia. }
  exists tx, answer. destruct answer as [h|e].
  - cbn [posted count_sent post]. rewrite Hacc by done. split_and!; try done.
    simpl. destruct Hok as [[-> _] _]; [done|]. rewrite u64_add_small by done. symmetry. by apply Hnext.
  - destruct (reachable s); [destruct (slice_to 8 (bech32_address w))|]; rewrite Hacc by done; by split_and!.
Qed.

Lemma accepted_app ps tx answer :
  accepted (ps ++ [(tx, answer)]) = accepted ps ++ if is_ok answer then [nonce tx] else [].
Proof. unfold accepted. rewrite omap_app. simpl. by destruct (is_ok answer). Qed.

(** The wallet is never ahead of the account, and what it got accepted lies below. *)
Record in_step (a0 : N) (steps : nat) (c : WalletLoop * N) : Prop := {
  step_behind : next_nonce c.1 ≤ c.2;
  step_low : a0 ≤ c.2;
  step_high : c.2 ≤ a0 + N.of_nat steps;
  step_sorted : StronglySorted N.lt (accepted (posted c.1));
  step_below : Forall (λ n, a0 ≤ n ∧ n < c.2) (accepted (posted c.1));
}.

Lemma in_step_turn args addresses w i a0 k c s :
  plain_mode (mode args) = true → a0 + N.of_nat (S k) < u64_mod →
  in_step a0 k c → in_step a0 (S k) (chain_turn args addresses w i c s).
Proof.
  destruct c as [l a]. intros Hm Hu [Hbeh Hlow Hhigh Hsort Hbelow]; cbn [fst snd] in *.
  pose proof (chain_turn_spec args addresses w i l a s Hm Hbeh ltac:(lia)) as Hs.
  destruct (chain_turn _ _ _ _ _ _) as [l' a'].
  destruct Hs as [(Hp & Hn & ->)|(tx & answer & Hp & Htx & Hlo & Hhi & Hok & Hnext & Hn)];
    [by split; cbn [fst snd]; rewrite ?Hp, ?Hn; try done; lia|].
  assert (Forall (λ n, a0 ≤ n ∧ n < a') (accepted (posted l))) as Hb'
    by (eapply Forall_impl; [exact Hbelow|]; cbv beta; lia).
  destruct (is_ok answer) eqn:Ha; cbn [orb] in Hn.
  - specialize (Hnext eq_refl). destruct Hok as [[Heq _] _]; [done|].
    split; cbn [fst snd]; rewrite ?Hp, ?accepted_app, ?Ha, ?Hn, ?Htx; try lia.
    + apply StronglySorted_app_2; [|done|by repeat constructor].
      intros x y Hx Hy. apply list_elem_of_singleton in Hy as ->. rewrite Forall_forall in Hbelow.
      specialize (Hbelow x Hx). lia.
    + apply Forall_app. split; [done|]. repeat constructor; lia.
  - split; cbn [fst snd]; rewrite ?Hp, ?accepted_app, ?Ha, ?app_nil_r; try done; try lia.
    rewrite Hn. destruct (reachable s); lia.
Qed.

Lemma in_step_run args addresses w i a0 ss c k :
  plain_mode (mode args) = true → a0 + N.of_nat (length ss + k) < u64_mod →
  in_step a0 k c → in_step a0 (length ss + k) (chain_run args addresses w i ss c).
Proof.
  intros Hm. revert c k. induction ss as [|s ss IH]; intros c k Hu Hc; [done|].
  cbn [chain_run foldl length] in *. replace (S (length ss) + k)%nat with (length ss + S k)%nat in * by lia.
  apply IH; [done|]. apply in_step_turn; [done| |done]. lia.
Qed.

(** C35: the nonce of a wallet recovers, in the modes that send the wallet's own
    nonce one transaction at a time ([plain_mode]).  The scope leaves out the
    eight modes whose code skips or reuses nonces on purpose or sends two at
    once: Fuzz and OrphanFlooding add 5 and more, FundHydra counts on whatever
    the answers, BlsDesync never counts, SurgicalBackrun sends another wallet's
    nonce 0, and RelayedCrossShard, RelayedDex and NonceDesyncV2 carry a second
    transaction of the same wallet inside the first ([gap_modes] shows the gaps
    of the first two).  In any run of such a loop that starts not ahead of its
    account, whatever becomes of the transactions and of the nonce requests, no
    turn sends a transaction past the account's nonce (none waits for a gap),
    the transactions answered with a hash carry strictly increasing nonces, so
    no nonce is accepted twice, and after every turn that got an answer to its
    transaction or to the nonce request that follows a failure, the wallet has
    the nonce of the account; from there the next transaction that is delivered
    is accepted. *)
Theorem nonce_recovery args addresses w i ss l a s :
  plain_mode (mode args) = true → next_nonce l ≤ a → posted l = [] →
  a + N.of_nat (length ss) + 1 < u64_mod →
  let '(l1, a1) := chain_run args addresses w i ss (l, a) in
  let '(l2, a2) := chain_turn args addresses w i (l1, a1) s in
  next_nonce l1 ≤ a1 ∧ StronglySorted N.lt (accepted (posted l1)) ∧
  Forall (λ n, a ≤ n ∧ n < a1) (accepted (posted l1)) ∧
  (posted l2 = posted l1 ∧ next_nonce l2 = next_nonce l1 ∧ a2 = a1 ∨
   ∃ tx answer, posted l2 = posted l1 ++ [(tx, answer)] ∧ nonce tx ≤ a1 ∧
     (is_ok answer = true ∨ reachable s = true → next_nonce l2 = a2) ∧
     (is_ok answer = true ↔ next_nonce l1 = a1 ∧ ∃ h, delivery s = Answers h)).
Proof.
  intros Hm Hle Hp Hu.
  assert (in_step a 0 (l, a)) as H0'.
  { split; cbn [fst snd]; rewrite ?Hp; try done; try lia; constructor. }
  pose proof (in_step_run args addresses w i a ss (l, a) 0 Hm ltac:(lia) H0') as Hrun.
  destruct (chain_run _ _ _ _ _ _) as [l1 a1]. destruct Hrun as [Hbeh Hlow Hhigh Hsort Hbelow]; cbn [fst snd] in *.
  pose proof (chain_turn_spec args addresses w i l1 a1 s Hm Hbeh ltac:(lia)) as Hs.
  destruct (chain_turn _ _ _ _ _ _) as [l2 a2]. split_and!; try done.
  destruct Hs as [Hsame|(tx & answer & Hpost & Htx & _ & _ & Hok & _ & Hn)]; [by left|right].
  exists tx, answer. split_and!; [done|lia| |done].
  intros [Ha|Ha]; rewrite Hn, Ha, ?orb_true_r; done.
Qed.

(** ** The arbitrage, from the report to the vault *)

(** C36: an opportunity becomes a call that the vault refuses.  In mode
    ArbitrageHft a report on a registered pool makes a running wallet send, with
    its nonce, the exact encoding of the arbitrage of 7 WEGLD through that pool
    and its rescue pool, each as its address decodes; and a call that the vault
    runs successfully makes its balance grow by at least 0.02 WEGLD.  But the
    hard-coded addresses of the AshSwap and of the WEGLD/MEX pool have wrong
    checksums and every route uses one of them, so the call always names the
    zero address as a pool, and the vault refuses it as long as nobody answers
    there.  A report on any other pool sends nothing.  The hex crate is assumed
    to write the hexadecimal form, the bech32 crate to read by the standard. *)
Theorem arbitrage_reaches_vault `{!Sdk, !Pools} args addresses w i t l opp mid_token pool_b endpoint_b :
  hex_writes → bech32_standard → mode args = ArbitrageHft → running l = true → opportunity t = Some opp →
  pool_registry !! target_dex opp = Some (mid_token, pool_b, endpoint_b) →
  let call := arbitrage_call (resolved (target_dex opp)) (resolved pool_b) mid_token endpoint_b in
  (∃ tx, posted (wallet_turn args addresses w i t l) = posted l ++ [(tx, (gateways t tx).1)] ∧
     sender tx = bech32_address w ∧ nonce tx = next_nonce l ∧ receiver tx = TARGET_VAULT ∧ value tx = "0" ∧
     data tx = Some (base64_encode (call_data "executeFlashArbitrage" (vault_call_args call)))) ∧
  (∀ e wd wd', native_apart e → invoke e (HftVault.dispatch e call) wd = Ok ((), wd') →
     bal wd (Esdt "WEGLD-bd4d79" 0) + 20000000000000000 ≤ bal wd' (Esdt "WEGLD-bd4d79" 0)) ∧
  (resolved (target_dex opp) = zero_address ∨ resolved pool_b = zero_address) ∧
  (∀ e wd, native_apart e → nobody_at_zero e → is_ok (invoke e (HftVault.dispatch e call) wd) = false) ∧
  (∀ t' opp', opportunity t' = Some opp' → pool_registry !! target_dex opp' = None →
     posted (wallet_turn args addresses w i t' l) = posted l).
Proof.
  intros Hw Hs Hm Hrun Ho Hr call. destruct (registry_route _ _ _ _ Hr) as (_ & _ & Hzero). split_and!.
  - unfold wallet_turn, pace, choose. rewrite Hrun, Hm. cbn [negb].
    rewrite (arbitrage_order_call t opp mid_token pool_b endpoint_b) by done.
    fold call. unfold order_tx, send_signed. rewrite Hm. set (tx0 := new _ _ _ _ _ _ _ _ _).
    destruct (sign_ok tx0 (wallet_key w)) as [sig ->]. exists (tx0 <| signature := Some sig |>).
    split; [|by split_and!].
    destruct (gateways t _) as [[h|x] real_nonce]; [done|]. destruct real_nonce; [|done].
    by destruct (slice_to 8 (bech32_address w)).
  - intros e wd wd' Hnat Hi. apply arbitrage_gain in Hi as (_ & Hle & Hn & _ & Hmin); [lia|done|done].
  - exact Hzero.
  - intros e wd Hnat Hno. by apply zero_pool_refused.
  - intros t' opp' Ho' Hr'. unfold wallet_turn, pace, choose. rewrite Hrun, Hm. cbn [negb].
    unfold arbitrage_order. rewrite Ho', Hr'. by destruct (slice_to _ _).
Qed.
End runs.

(** ** Witnesses *)

#[local] Existing Instance sample_sdk.
#[local] Existing Instance sample_crates.
#[local] Existing Instance sample_keys.
#[local] Instance standard_bech32 : Bech32 := bech32_decode.

Definition sample_wallet : KeeperWallet := MkWallet sample_crates [] "erd1sample".
Definition sample_turn (opp : option ArbitrageOpportunity) : Turn :=
  MkTurn 0 0 0 0 0 [] (λ _, []) 0 0 None opp (λ _, (Ok "hash", Err "")).
Definition sample_loop : WalletLoop := MkLoop 7 0 0 1 0 true [].

(** The answer to the first transaction is lost, and the gateways do not tell
    the nonce; the second is refused and the nonce is told. *)
Lemma nonce_recovery_witness :
  let args := MkArgs TpsDemo 1 42 100 6000 "D" in
  let lost := MkChainTurn (sample_turn None) (AnswerLost "timeout") false in
  let told := MkChainTurn (sample_turn None) (Answers "hash") true in
  let '(l1, a1) := chain_run args ["erd1sample"] sample_wallet 0 [lost] (sample_loop, 7) in
  let '(l2, a2) := chain_turn args ["erd1sample"] sample_wallet 0 (l1, a1) told in
  next_nonce l1 = 7 ∧ a1 = 8 ∧ next_nonce l2 = 8 ∧ a2 = 8.
Proof.
  intros args lost told.
  pose proof (nonce_recovery args ["erd1sample"] sample_wallet 0 [lost] sample_loop 7 told) as Hrec.
  specialize (Hrec eq_refl ltac:(vm_compute; discriminate) eq_refl ltac:(by vm_compute)).
  assert (next_nonce (chain_run args ["erd1sample"] sample_wallet 0 [lost] (sample_loop, 7)).1 = 7) as Hn1 by by vm_compute.
  assert ((chain_run args ["erd1sample"] sample_wallet 0 [lost] (sample_loop, 7)).2 = 8) as Ha1 by by vm_compute.
  assert ((chain_turn args ["erd1sample"] sample_wallet 0
    (chain_run args ["erd1sample"] sample_wallet 0 [lost] (sample_loop, 7)) told).2 = 8) as Ha2 by by vm_compute.
  assert (length (posted (chain_turn args ["erd1sample"] sample_wallet 0
    (chain_run args ["erd1sample"] sample_wallet 0 [lost] (sample_loop, 7)) told).1) = 2%nat) as Hp2 by by vm_compute.
  assert (length (posted (chain_run args ["erd1sample"] sample_wallet 0 [lost] (sample_loop, 7)).1) = 1%nat) as Hp1 by by vm_compute.
  destruct (chain_run _ _ _ _ _ _) as [l1 a1]. destruct (chain_turn _ _ _ _ _ _) as [l2 a2]. cbn [fst snd] in *.
  destruct Hrec as (_ & _ & _ & [(Hp & _)|(tx & answer & _ & _ & Hheal & _)]).
  - rewrite Hp, Hp1 in Hp2. discriminate Hp2.
  - split_and!; [exact Hn1|exact Ha1| |exact Ha2]. rewrite <- Ha2. apply Hheal. by right.
Defined.

(** Every pool but the zero address gives back what it is sent and a bit more. *)
#[local] Instance generous_pools : Pools := λ e to ep args p w,
  if decide (to = zero_address) then None
  else Some ([p], w <| bal ::= λ b, <[asset_of p := b (asset_of p) + amount p + 1]> b |>).
Definition rich_vault : world HftVault.K :=
  World (HftVault.MkState false (Some 5)) (λ _, 10000000000000000000) [].

Lemma arbitrage_reaches_vault_witness :
  let args := MkArgs ArbitrageHft 1 42 100 6000 "1" in
  let call := arbitrage_call (resolved WEGLD_USDC) zero_address "USDC-c76f1f" "exchange" in
  (∃ tx, posted (wallet_turn args ["erd1sample"] sample_wallet 0
       (sample_turn (Some (MkOpportunity "h" 1 WEGLD_USDC "01"))) sample_loop) = [(tx, Ok "hash")] ∧
     receiver tx = TARGET_VAULT) ∧
  is_ok (invoke (sample_env 5 7 9 0 0) (HftVault.dispatch (sample_env 5 7 9 0 0) call) rich_vault) = false.
Proof.
  intros args call.
  destruct (arbitrage_reaches_vault args ["erd1sample"] sample_wallet 0
    (sample_turn (Some (MkOpportunity "h" 1 WEGLD_USDC "01"))) sample_loop (MkOpportunity "h" 1 WEGLD_USDC "01")
    "USDC-c76f1f" ASHSWAP "exchange") as ((tx & Hp & _ & _ & Hrecv & _) & _ & _ & Hrefused & _).
  - intros b _. reflexivity.
  - intros b _. reflexivity.
  - reflexivity.
  - reflexivity.
  - reflexivity.
  - by vm_compute.
  - split.
    + exists tx. split; [exact Hp|exact Hrecv].
    + apply (Hrefused (sample_env 5 7 9 0 0) rich_vault); [constructor|]. intros ep a p wd. reflexivity.
Defined.
