(* ===== verification/ZkVerifier.v ===== *)
(** The ZK verifier (contracts/zk-verifier/src/lib.rs): keepers commit to
    historical values and open the commitments. *)

From S2P Require Import Prelude Sdk Types.

Record ProofData := MkProofData {
  commitment : hash;
  p_block_nonce : N;
  claimed_value : N;
  prover : address;
  submitted_at : N;
  verified : bool;
}.
#[export] Instance ProofData_eta : Settable ProofData := λ r,
  MkProofData (commitment r) (p_block_nonce r) (claimed_value r) (prover r) (submitted_at r) (verified r).

Record State := MkState {
  proofs : gmap N ProofData;
  scheduler_addr : option address;
  version : N;
}.
#[export] Instance State_eta : Settable State := λ s,
  MkState (proofs s) (scheduler_addr s) (version s).

Definition empty_state : State := MkState ∅ None 0.

Inductive Event : Type :=
| proof_submitted_event (task_id : N) (prover : address) (block_nonce : N)
| proof_verified_event (task_id : N) (valid : bool).

Canonical K : contract := Contract State Event Empty_set.
Implicit Types (e : env K) (w : world K) (s : State).

(** [BigUint::to_bytes_be_buffer]: no leading zeros. *)
Definition to_bytes_be (n : N) : bytes := be_bytes (N.to_nat ((N.size n + 7) / 8)) n.

Section code.
Context `{Sdk}.

Definition init e (scheduler : address) : M K unit :=
  require (is_zero scheduler = false) "Scheduler address cannot be zero";;
  modify (λ s : State, s <| scheduler_addr := Some scheduler |> <| version := 1 |>).

Definition upgrade e : M K unit := modify (λ s : State, s <| version ::= λ v, u32_add v 1 |>).

Definition overwritable s (task_id : N) : bool :=
  match proofs s !! task_id with Some existing => negb (verified existing) | None => true end.

Definition submit_proof e (task_id : N) (commitment : hash) (block_nonce claimed_value : N) : M K unit :=
  not_payable e;;
  s ← get_st;
  require (overwritable s task_id = true) "Proof already verified — cannot overwrite";;
  let proof := MkProofData commitment block_nonce claimed_value (caller e) (timestamp e) false in
  modify (λ s : State, s <| proofs ::= <[task_id := proof]> |>);;
  emit (proof_submitted_event task_id (caller e) block_nonce).

(** What the commitment of a value of a block is the hash of. *)
Definition hash_input (block_nonce claimed_value : N) (salt : bytes) : bytes :=
  be_bytes 8 block_nonce ++ to_bytes_be claimed_value ++ salt.

Definition verify_proof e (task_id : N) (salt : bytes) : M K unit :=
  not_payable e;;
  s ← get_st;
  match proofs s !! task_id with
  | None => throw "No proof submitted"
  | Some proof =>
      require (verified proof = false) "Already verified";;
      let computed_hash := sha256 (hash_input (p_block_nonce proof) (claimed_value proof) salt) in
      require (computed_hash = commitment proof) "ZK verification failed: commitment mismatch";;
      modify (λ s : State, s <| proofs ::= <[task_id := proof <| verified := true |>]> |>);;
      emit (proof_verified_event task_id true)
  end.

Definition is_proof_valid s (task_id : N) : bool :=
  match proofs s !! task_id with Some proof => verified proof | None => false end.

Definition get_proof (task_id : N) : M K ProofData :=
  s ← get_st;
  match proofs s !! task_id with
  | None => throw "No proof found"
  | Some proof => mret proof
  end.

Inductive Call : Type :=
| SubmitProof (task_id : N) (commitment : hash) (block_nonce claimed_value : N)
| VerifyProof (task_id : N) (salt : bytes)
| Upgrade.

Definition dispatch e (c : Call) : M K unit :=
  match c with
  | SubmitProof t c b v => submit_proof e t c b v
  | VerifyProof t salt => verify_proof e t salt
  | Upgrade => upgrade e
  end.

Definition zk_deployed w : Prop :=
  ∃ e a w0, st w0 = empty_state ∧ log w0 = [] ∧ init e a w0 = Ok ((), w).
Definition zk_reachable : world K → Prop := reachable dispatch zk_deployed (λ _ _ _, True).

(** ** Properties *)

(** A verified proof has been opened. *)
Definition opened (p : ProofData) : Prop :=
  verified p = true → ∃ salt, sha256 (hash_input (p_block_nonce p) (claimed_value p) salt) = commitment p.

(** Verified proofs stay; all verified proofs have an opening. *)
Lemma dispatch_proofs e c w :
  map_Forall (λ _, opened) (proofs (st w)) →
  wp (dispatch e c) (λ _ w', map_Forall (λ _, opened) (proofs (st w')) ∧
    ∀ t p, proofs (st w) !! t = Some p → verified p = true → proofs (st w') !! t = Some p) any_error w.
Proof.
  intros Hop. destruct c; cbn [dispatch].
  - unfold submit_proof. wp_go. simpl. split; [by apply map_Forall_insert_2|].
    intros t p Hp Hv. rewrite lookup_insert_ne; [done|]. intros <-.
    match goal with Hw : overwritable _ _ = true |- _ => unfold overwritable in Hw; rewrite Hp, Hv in Hw; done end.
  - unfold verify_proof. wp_go. destruct (proofs (st w) !! task_id) as [proof|] eqn:Hp; [|done]. wp_go. simpl.
    split; [apply map_Forall_insert_2; [|done]; intros _; by exists salt|].
    intros t p Ht Hv. rewrite lookup_insert_ne; [done|]. intros <-. congruence.
  - unfold upgrade. wp_go. done.
Qed.

Lemma opened_reachable w : zk_reachable w → map_Forall (λ _, opened) (proofs (st w)).
Proof.
  apply (reachable_inv _ _ _ (λ w, map_Forall (λ _, opened) (proofs (st w)))).
  - intros w' (e & a & w0 & Hst & _ & Hi). revert Hi.
    apply (wp_ok _ (λ _ w, map_Forall (λ _, opened) (proofs (st w))) any_error).
    unfold init. wp_go. simpl. by rewrite Hst.
  - intros w' e c Hw _. eapply wp_mono; [apply dispatch_proofs; by rewrite st_credit|by intros a w1 [? _]].
  - done.
Qed.

(** A proof that [isProofValid] accepts was opened: some salt hashes, with the
    block nonce and the value the proof claims, to its commitment; and nothing
    ever replaces it. *)
Theorem verified_proof_opened e c w w' t p :
  zk_reachable w → proofs (st w) !! t = Some p → is_proof_valid (st w) t = true →
  invoke e (dispatch e c) w = Ok ((), w') →
  (∃ salt, sha256 (hash_input (p_block_nonce p) (claimed_value p) salt) = commitment p) ∧
  proofs (st w') !! t = Some p.
Proof.
  intros Hw Hp Hv Hi. pose proof (opened_reachable w Hw) as Hop.
  unfold is_proof_valid in Hv. rewrite Hp in Hv. split; [exact (Hop t p Hp Hv)|].
  rewrite <-(st_credit e w) in Hop, Hp. destruct (wp_ok _ _ _ _ _ _ (dispatch_proofs e c _ Hop) Hi) as [_ Hkeep].
  by apply Hkeep.
Qed.

(** The commitment does not bind the value: the bytes of the value and the salt
    are concatenated without a separator, so one commitment opens to several
    values. *)
Lemma commitment_not_binding block salt :
  hash_input block 258 salt = hash_input block 1 (2 :: salt).
Proof. done. Qed.
End code.

(** ** Witness *)

#[local] Existing Instance sample_sdk.

Definition zk_0 : world K :=
  match init (sample_env 7 7 9 0 0) 33 (World empty_state (λ _, 0) []) with
  | Ok (_, w) => w | Err _ => World empty_state (λ _, 0) [] end.
Definition zk_1 : world K := outcome dispatch
  [(sample_env 5 7 9 1 0, SubmitProof 8 (sha256 (hash_input 77 258 [3])) 77 258);
   (sample_env 6 7 9 2 0, VerifyProof 8 [3])] zk_0.

Lemma zk_1_reachable : zk_reachable zk_1.
Proof.
  apply outcome_reachable; [|by apply Forall_true|by vm_compute].
  apply reach_deployed. by exists (sample_env 7 7 9 0 0), 33, (World empty_state (λ _, 0) []).
Qed.

Lemma verified_proof_opened_witness :
  ∃ p, proofs (st zk_1) !! 8 = Some p ∧
    (∃ salt, sha256 (hash_input (p_block_nonce p) (claimed_value p) salt) = commitment p).
Proof.
  eexists. split; [vm_compute; reflexivity|].
  eapply (verified_proof_opened (sample_env 5 7 9 3 0) Upgrade zk_1 _ 8).
  - apply zk_1_reachable.
  - vm_compute. reflexivity.
  - vm_compute. reflexivity.
  - apply next_ok. vm_compute. reflexivity.
Defined.
