(* ===== verification/Xwap.v ===== *)
(** The XWAP price oracle (contracts/xwap/src): an exponentially weighted
    average of pool reserves, checked against the median of the prices that
    registered keepers report from off-chain exchanges. *)

From S2P Require Import Prelude Sdk Types.

(** ** storage.rs *)

Record KeeperReport := MkReport {
  price : N;
  block : N;
}.

Record XwapSignals := MkSignals {
  gate_open : bool;
  consensus_ok : bool;
  freshness_ok : bool;
  stability_permille : N;
  safe : bool;
}.

Record State := MkState {
  ewma_reserve_a : N;
  ewma_reserve_b : N;
  xwap_price : N;
  prev_xwap_price : N;
  alpha_x1000 : N;
  price_history : gmap N N;
  price_history_idx : N;
  update_count : N;
  keeper_report : gmap address KeeperReport;
  registered_keepers : list address;
  gate_threshold_permille : N;
  alpha_min_x1000 : N;
  alpha_max_x1000 : N;
  trend_boost_x1000 : N;
  gate_boost_x1000 : N;
  freshness_blocks : N;
  consensus_min_permille : N;
  pool_address : option address;
  owner_cell : option address;
}.
#[export] Instance State_eta : Settable State := λ s,
  MkState (ewma_reserve_a s) (ewma_reserve_b s) (xwap_price s) (prev_xwap_price s) (alpha_x1000 s)
    (price_history s) (price_history_idx s) (update_count s) (keeper_report s)
    (registered_keepers s) (gate_threshold_permille s) (alpha_min_x1000 s) (alpha_max_x1000 s)
    (trend_boost_x1000 s) (gate_boost_x1000 s) (freshness_blocks s) (consensus_min_permille s)
    (pool_address s) (owner_cell s).

Definition empty_state : State :=
  MkState 0 0 0 0 0 ∅ 0 0 ∅ [] 0 0 0 0 0 0 0 None None.

Inductive Event : Type :=
| price_updated_event (xwap_price alpha : N) (gate_open : bool) (block : N)
| gate_closed_event (pool_spot median_off_chain divergence_permille : N)
| keeper_reported_event (keeper : address) (price block : N)
| keeper_registry_updated_event (keeper : address) (registered : bool).

Canonical K : contract := Contract State Event Empty_set.
Implicit Types (e : env K) (w : world K) (s : State).

(** ** Constants *)

Definition ALPHA_SCALE : N := 1000.
Definition HISTORY_LEN : N := 10.
Definition TREND_MIN_HISTORY : N := 8.
Definition TREND_WINDOW : nat := 8.
Definition TREND_THRESHOLD : N := 7.
Definition CONSENSUS_TOLERANCE_PERMILLE : N := 50.
Definition SCALE : N := 1000000000000000000.

(** [|a - b| * 1000 / b], as every comparison of two prices computes it. *)
Definition divergence (a b : N) : N :=
  if decide (b < a) then (a - b) * 1000 / b else (b - a) * 1000 / b.

(** ** keepers.rs: the median of the fresh reports *)

(** [current_block.saturating_sub(report.block) <= max_age] *)
Definition is_fresh (current_block max_age : N) (r : KeeperReport) : bool :=
  bool_decide (current_block - block r ≤ max_age).

Definition fresh_prices (current_block : N) s : list N :=
  omap (λ keeper,
    r ← keeper_report s !! keeper;
    if is_fresh current_block (freshness_blocks s) r then Some (price r) else None)
    (registered_keepers s).

(** The inner loop of the insertion sort: cell [j] moves down while the cell
    before it is larger.  [None] is an access out of range, which aborts. *)
Fixpoint sift_down (j : nat) (prices : list N) : option (list N) :=
  match j with
  | O => Some prices
  | S i =>
      p_prev ← prices !! i;
      p_cur ← prices !! j;
      if decide (p_cur < p_prev) then sift_down i (<[j := p_prev]> (<[i := p_cur]> prices))
      else Some prices
  end.

Definition insertion_sort (prices : list N) : option (list N) :=
  foldl (λ acc i, prices ← acc; sift_down i prices) (Some prices)
    (seq 1 (length prices - 1)).

Definition middle (prices : list N) : option N :=
  let n := length prices in
  let mid := (n / 2)%nat in
  if decide (n mod 2 = 1)%nat then prices !! mid
  else a ← prices !! (mid - 1)%nat; b ← prices !! mid; Some ((a + b) / 2).

Section code.
Context `{Sdk}.

Definition or_panic {A} (o : option A) : M K A :=
  match o with Some a => mret a | None => throw "ManagedVec index out of range" end.

Definition get_median_off_chain e : M K N :=
  s ← get_st;
  let prices := fresh_prices (block_nonce e) s in
  if decide (length prices = 0%nat) then mret 0
  else sorted ← or_panic (insertion_sort prices);
       or_panic (middle sorted).

Definition report_price e (price_x1e18 : N) : M K unit :=
  not_payable e;;
  s ← get_st;
  require (caller e ∈ registered_keepers s) "caller is not a registered keeper";;
  require (0 < price_x1e18) "price cannot be zero";;
  let report := MkReport price_x1e18 (block_nonce e) in
  modify (λ s : State, s <| keeper_report ::= <[caller e := report]> |>);;
  emit (keeper_reported_event (caller e) price_x1e18 (block_nonce e)).

(** The keepers whose fresh report is within the tolerance of the median. *)
Definition agrees (median : N) (p : N) : bool :=
  bool_decide (default u64_MAX (to_u64 (divergence p median)) ≤ CONSENSUS_TOLERANCE_PERMILLE).

Definition check_consensus e : M K bool :=
  median ← get_median_off_chain e;
  if decide (median = 0) then mret false
  else
    s ← get_st;
    let total := N.of_nat (length (registered_keepers s)) in
    if decide (total = 0) then mret false
    else
      let agreeing := N.of_nat (length (filter (λ p, agrees median p = true)
                                          (fresh_prices (block_nonce e) s))) in
      let agreeing_permille := u64_mul agreeing 1000 / total in
      mret (bool_decide (consensus_min_permille s ≤ agreeing_permille)).

(** ** oracle.rs *)

Definition detect_trend s : bool :=
  if decide (update_count s < TREND_MIN_HISTORY) then false
  else
    let current_idx := price_history_idx s in
    let '(up, down) :=
      foldl (λ '(up, down) i,
        let idx_a := (current_idx + HISTORY_LEN - i - 1) mod HISTORY_LEN in
        let idx_b := (current_idx + HISTORY_LEN - i - 2) mod HISTORY_LEN in
        let pa := nget (price_history s) idx_a in
        let pb := nget (price_history s) idx_b in
        if decide (pb < pa) then (up + 1, down)
        else if decide (pa < pb) then (up, down + 1)
        else (up, down)) (0, 0) (N.of_nat <$> seq 0 TREND_WINDOW) in
    bool_decide (TREND_THRESHOLD ≤ up) || bool_decide (TREND_THRESHOLD ≤ down).

Definition compute_alpha s (gate_open : bool) : N :=
  let alpha_min := alpha_min_x1000 s in
  let alpha_max := alpha_max_x1000 s in
  if decide (update_count s < 5) then alpha_min
  else
    let current := xwap_price s in
    let prev := prev_xwap_price s in
    if decide (prev = 0) then alpha_min
    else
      let vol_u64 := default (u64_mul alpha_max 1000 / 3) (to_u64 (divergence current prev)) in
      let vol_alpha := N.min (u64_mul vol_u64 3) alpha_max in
      let alpha := N.max vol_alpha alpha_min in
      let alpha := if detect_trend s then N.min (u64_add alpha (trend_boost_x1000 s)) alpha_max else alpha in
      if gate_open then N.min (u64_add alpha (gate_boost_x1000 s)) alpha_max else alpha.

Definition check_gate_internal e (spot_price_x1e18 : N) : M K (bool * N) :=
  median ← get_median_off_chain e;
  if decide (median = 0) then mret (false, u64_MAX)
  else
    s ← get_st;
    let divergence_permille := default u64_MAX (to_u64 (divergence spot_price_x1e18 median)) in
    mret (bool_decide (divergence_permille < gate_threshold_permille s), divergence_permille).

(** One step of the average. *)
Definition ewma_step (alpha reserve ewma : N) : N :=
  if decide (ewma = 0) then reserve
  else (alpha * reserve + u64_sub ALPHA_SCALE alpha * ewma) / ALPHA_SCALE.

Definition update_ewma_reserves (reserve_a reserve_b alpha : N) s : State :=
  s <| ewma_reserve_a ::= ewma_step alpha reserve_a |>
    <| ewma_reserve_b ::= ewma_step alpha reserve_b |>.

(** The writes that end an update. *)
Definition store_price (new_xwap alpha : N) s : State :=
  s <| price_history ::= <[price_history_idx s := new_xwap]> |>
    <| price_history_idx := u64_add (price_history_idx s) 1 mod HISTORY_LEN |>
    <| update_count ::= λ c, u64_add c 1 |>
    <| prev_xwap_price := xwap_price s |>
    <| xwap_price := new_xwap |>
    <| alpha_x1000 := alpha |>.

Definition update_price e (raw_reserve_a raw_reserve_b : N) : M K unit :=
  not_payable e;;
  require (0 < raw_reserve_a) "reserve_a cannot be zero";;
  require (0 < raw_reserve_b) "reserve_b cannot be zero";;
  let spot_price := raw_reserve_b * SCALE / raw_reserve_a in
  gate ← check_gate_internal e spot_price;
  s ← get_st;
  let alpha := compute_alpha s gate.1 in
  modify (update_ewma_reserves (raw_reserve_a * SCALE) (raw_reserve_b * SCALE) alpha);;
  s ← get_st;
  let ewma_a := ewma_reserve_a s in
  let ewma_b := ewma_reserve_b s in
  require (0 < ewma_a) "ewma_reserve_a is zero after update";;
  let new_xwap := ewma_b * SCALE / ewma_a in
  modify (store_price new_xwap alpha);;
  emit (price_updated_event new_xwap alpha gate.1 (block_nonce e));;
  if gate.1 then mret ()
  else median ← get_median_off_chain e;
       emit (gate_closed_event spot_price median gate.2).

Definition check_freshness_internal s (current_block max_age : N) : bool :=
  existsb (λ keeper,
    match keeper_report s !! keeper with
    | Some report => is_fresh current_block max_age report
    | None => false
    end) (registered_keepers s).

Definition stability s : N :=
  if decide (prev_xwap_price s = 0 ∨ xwap_price s = 0) then 0
  else default 999 (to_u64 (divergence (xwap_price s) (prev_xwap_price s))).

Definition compute_signals e : M K XwapSignals :=
  s ← get_st;
  gate ← check_gate_internal e (xwap_price s);
  consensus ← check_consensus e;
  let fresh := check_freshness_internal s (block_nonce e) (freshness_blocks s) in
  mret (MkSignals gate.1 consensus fresh (stability s) (gate.1 && consensus && fresh)).

Definition check_gate_view e : M K bool :=
  s ← get_st; gate ← check_gate_internal e (xwap_price s); mret gate.1.

(** ** config.rs *)

Definition require_owner e : M K unit :=
  s ← get_st;
  owner ← sv_get empty_address (owner_cell s);
  require (caller e = owner) "only owner".

Definition set_gate_threshold e (permille : N) : M K unit :=
  not_payable e;;
  require_owner e;;
  require (0 < permille ∧ permille < 1000) "threshold out of range";;
  modify (λ s : State, s <| gate_threshold_permille := permille |>).

Definition set_alpha_bounds e (min_x1000 max_x1000 : N) : M K unit :=
  not_payable e;;
  require_owner e;;
  require (min_x1000 < max_x1000) "min must be < max";;
  require (max_x1000 ≤ 1000) "max alpha cannot exceed 1.0";;
  modify (λ s : State, s <| alpha_min_x1000 := min_x1000 |>);;
  modify (λ s : State, s <| alpha_max_x1000 := max_x1000 |>).

Definition set_trend_boost e (boost_x1000 : N) : M K unit :=
  not_payable e;;
  require_owner e;;
  require (boost_x1000 ≤ 500) "boost too high";;
  modify (λ s : State, s <| trend_boost_x1000 := boost_x1000 |>).

Definition set_gate_boost e (boost_x1000 : N) : M K unit :=
  not_payable e;;
  require_owner e;;
  require (boost_x1000 ≤ 500) "boost too high";;
  modify (λ s : State, s <| gate_boost_x1000 := boost_x1000 |>).

Definition set_freshness_blocks e (blocks : N) : M K unit :=
  not_payable e;;
  require_owner e;;
  require (0 < blocks ∧ blocks ≤ 20) "freshness out of range";;
  modify (λ s : State, s <| freshness_blocks := blocks |>).

Definition set_consensus_min e (permille : N) : M K unit :=
  not_payable e;;
  require_owner e;;
  require (500 ≤ permille ∧ permille ≤ 1000) "consensus out of range";;
  modify (λ s : State, s <| consensus_min_permille := permille |>).

Definition register_keeper e (keeper : address) : M K unit :=
  not_payable e;;
  require_owner e;;
  modify (λ s : State, s <| registered_keepers ::= set_insert keeper |>);;
  emit (keeper_registry_updated_event keeper true).

Definition remove_keeper e (keeper : address) : M K unit :=
  not_payable e;;
  require_owner e;;
  modify (λ s : State, s <| registered_keepers ::= set_swap_remove keeper |>);;
  emit (keeper_registry_updated_event keeper false).

Definition set_pool_address e (pool : address) : M K unit :=
  not_payable e;;
  require_owner e;;
  modify (λ s : State, s <| pool_address := Some pool |>).

(** ** views.rs *)

Definition get_xwap_price s : N := xwap_price s.
Definition get_xwap_price_integer s : N := default 0 (to_u64 (xwap_price s / SCALE)).
Definition get_alpha_view s : N := alpha_x1000 s.
Definition get_signals e : M K XwapSignals := compute_signals e.
Definition is_safe_to_execute e : M K bool := signals ← compute_signals e; mret (safe signals).
Definition is_gate_open e : M K bool := check_gate_view e.
Definition get_keeper_count s : N := N.of_nat (length (registered_keepers s)).
Definition get_median_off_chain_view e : M K N := get_median_off_chain e.
Definition get_gate_threshold_view s : N := gate_threshold_permille s.
Definition get_alpha_bounds s : N * N := (alpha_min_x1000 s, alpha_max_x1000 s).

(** ** lib.rs *)

Definition init e (pool : address) : M K unit :=
  modify (λ s : State, s
    <| owner_cell := Some (caller e) |>
    <| pool_address := Some pool |>
    <| gate_threshold_permille := 100 |>
    <| alpha_min_x1000 := 50 |>
    <| alpha_max_x1000 := 700 |>
    <| trend_boost_x1000 := 250 |>
    <| gate_boost_x1000 := 250 |>
    <| freshness_blocks := 2 |>
    <| consensus_min_permille := 800 |>
    <| ewma_reserve_a := 0 |>
    <| ewma_reserve_b := 0 |>
    <| xwap_price := 0 |>
    <| prev_xwap_price := 0 |>
    <| alpha_x1000 := 50 |>
    <| price_history_idx := 0 |>
    <| update_count := 0 |>).

Definition upgrade e : M K unit := modify (λ s : State, s <| update_count ::= λ v, v |>).

Inductive Call : Type :=
| UpdatePrice (raw_reserve_a raw_reserve_b : N)
| ReportPrice (price_x1e18 : N)
| SetGateThreshold (permille : N)
| SetAlphaBounds (min_x1000 max_x1000 : N)
| SetTrendBoost (boost_x1000 : N)
| SetGateBoost (boost_x1000 : N)
| SetFreshnessBlocks (blocks : N)
| SetConsensusMin (permille : N)
| RegisterKeeper (keeper : address)
| RemoveKeeper (keeper : address)
| SetPoolAddress (pool : address)
| Upgrade.

Definition dispatch e (c : Call) : M K unit :=
  match c with
  | UpdatePrice a b => update_price e a b
  | ReportPrice p => report_price e p
  | SetGateThreshold p => set_gate_threshold e p
  | SetAlphaBounds a b => set_alpha_bounds e a b
  | SetTrendBoost b => set_trend_boost e b
  | SetGateBoost b => set_gate_boost e b
  | SetFreshnessBlocks b => set_freshness_blocks e b
  | SetConsensusMin p => set_consensus_min e p
  | RegisterKeeper k => register_keeper e k
  | RemoveKeeper k => remove_keeper e k
  | SetPoolAddress p => set_pool_address e p
  | Upgrade => upgrade e
  end.

Definition xwap_deployed w : Prop :=
  ∃ e pool w0, st w0 = empty_state ∧ log w0 = [] ∧ init e pool w0 = Ok ((), w).
Definition xwap_reachable : world K → Prop :=
  reachable dispatch xwap_deployed (λ _ _ _, True).
End code.
