(* ===== verification/XwapProps.v ===== *)
(** Properties of the XWAP oracle: the in-place sort and the median, the
    average, the configuration, and what the safety signal guarantees. *)

From stdpp Require Import sorting.
From S2P Require Import Prelude Sdk Types Xwap.

Implicit Types (e : env K) (w : world K) (s : State) (E : string → Prop).

(** ** The insertion sort *)

(** One pass: the cell after a sorted prefix finds its place in it. *)
Lemma sift_down_sorted x pre post :
  StronglySorted N.le pre →
  ∃ q, sift_down (length pre) (pre ++ x :: post) = Some (q ++ post) ∧
       q ≡ₚ pre ++ [x] ∧ StronglySorted N.le q.
Proof.
  revert post. induction pre as [|y pre IH] using rev_ind; intros post Hs.
  { exists [x]. split_and!; [done..|]. by repeat constructor. }
  apply StronglySorted_app in Hs as (Hle & Hs & _).
  rewrite length_app, Nat.add_comm. cbn [length Nat.add sift_down].
  rewrite <-app_assoc. cbn [app].
  rewrite (list_lookup_middle pre (x :: post) y (length pre)) by done. cbn [mbind option_bind].
  rewrite lookup_app_r by lia. replace (S (length pre) - length pre)%nat with 1%nat by lia.
  cbn [lookup list_lookup mbind option_bind]. case_decide as Hlt.
  - rewrite insert_app_r_alt, Nat.sub_diag by lia. cbn [insert list_insert].
    rewrite insert_app_r_alt by lia. replace (S (length pre) - length pre)%nat with 1%nat by lia.
    cbn [insert list_insert].
    destruct (IH (y :: post) Hs) as (q & -> & Hp & Hq).
    exists (q ++ [y]). rewrite <-app_assoc. split_and!; [done| |].
    + rewrite Hp. by rewrite <-!app_assoc, (Permutation_app_comm [x] [y]).
    + apply StronglySorted_app. split_and!; [|done|by repeat constructor].
      intros a b Ha Hb%list_elem_of_singleton. subst b. rewrite Hp in Ha.
      apply elem_of_app in Ha as [Ha|Ha%list_elem_of_singleton]; [|subst; lia].
      apply Hle; [done|by left].
  - exists (pre ++ [y; x]). rewrite <-!app_assoc. split_and!; [done..|].
    apply StronglySorted_app. split_and!; [|done|].
    + intros a b Ha Hb. assert (a ≤ y) by (apply Hle; [done|by left]). apply elem_of_cons in Hb as [Hb|Hb%list_elem_of_singleton]; subst b; lia.
    + constructor; [by repeat constructor|]. constructor; [lia|constructor].
Qed.

(** The sort returns: no access is out of range, and the result is the sorted
    permutation of its input. *)
Lemma insertion_sort_sorted prices :
  ∃ q, insertion_sort prices = Some q ∧ q ≡ₚ prices ∧ StronglySorted N.le q.
Proof.
  assert (Hgen : ∀ post pre, StronglySorted N.le pre →
    ∃ q, foldl (λ acc i, prices ← acc; sift_down i prices) (Some (pre ++ post))
           (seq (length pre) (length post)) = Some q ∧ q ≡ₚ pre ++ post ∧ StronglySorted N.le q).
  { induction post as [|x post IH]; intros pre Hs; cbn [length seq foldl].
    { exists pre. rewrite app_nil_r. done. }
    cbn [mbind option_bind]. destruct (sift_down_sorted x pre post Hs) as (q & -> & Hp & Hq).
    assert (Hl : S (length pre) = length q) by (rewrite Hp, length_app; simpl; lia).
    rewrite Hl. destruct (IH q Hq) as (r & -> & Hr & Hrs).
    exists r. split_and!; [done| |done]. by rewrite Hr, Hp, <-app_assoc. }
  unfold insertion_sort. destruct prices as [|x prices]; [by exists []; repeat constructor|].
  cbn [length]. rewrite Nat.sub_succ, Nat.sub_0_r.
  apply (Hgen prices [x]). by repeat constructor.
Qed.

Lemma insertion_sort_perm ps ps' : ps ≡ₚ ps' → insertion_sort ps = insertion_sort ps'.
Proof.
  intros Hp. destruct (insertion_sort_sorted ps) as (q & -> & Hq & Hs).
  destruct (insertion_sort_sorted ps') as (q' & -> & Hq' & Hs'). f_equal.
  apply (StronglySorted_unique N.le); [done..|]. by rewrite Hq, Hp.
Qed.

Lemma middle_total q : q ≠ [] → ∃ m, middle q = Some m.
Proof.
  intros Hq. assert (0 < length q)%nat by (destruct q; [done|simpl; lia]).
  assert (Hlt : (length q / 2 < length q)%nat) by (apply Nat.div_lt; lia).
  unfold middle. case_decide.
  - destruct (lookup_lt_is_Some_2 q _ Hlt) as [m Hm]. eauto.
  - destruct (lookup_lt_is_Some_2 q (length q / 2)) as [b ->]; [done|].
    destruct (lookup_lt_is_Some_2 q (length q / 2 - 1)) as [a ->]; [lia|]. simpl. eauto.
Qed.

(** ** The middle of a sorted list resists a minority *)

Lemma sorted_lookup_le q i j a b :
  StronglySorted N.le q → (i ≤ j)%nat → q !! i = Some a → q !! j = Some b → a ≤ b.
Proof.
  intros Hs Hij Hi Hj. destruct (decide (i = j)) as [->|]; [simplify_eq; lia|].
  rewrite <-(take_drop_middle q i a Hi) in Hs.
  apply StronglySorted_app in Hs as (_ & _ & Hs). apply StronglySorted_inv in Hs as [_ Hs].
  rewrite Forall_forall in Hs. apply Hs. eapply (list_elem_of_lookup_2 _ (j - S i)).
  rewrite lookup_drop. by replace (S i + (j - S i))%nat with j by lia.
Qed.

Section outsiders.
Variables lo hi : N.
(** The prices outside the interval. *)
Definition outsiders (ps : list N) : nat := length (filter (λ p, ¬ (lo ≤ p ∧ p ≤ hi)) ps).

Lemma outsiders_perm ps ps' : ps ≡ₚ ps' → outsiders ps = outsiders ps'.
Proof. intros Hp. unfold outsiders. by rewrite Hp. Qed.

Lemma outsiders_all ps : (∀ p, p ∈ ps → ¬ (lo ≤ p ∧ p ≤ hi)) → outsiders ps = length ps.
Proof.
  intros Hp. unfold outsiders. f_equal. induction ps as [|p ps IH]; [done|].
  rewrite filter_cons_True by (apply Hp; by left). f_equal. apply IH. intros. apply Hp. by right.
Qed.

Lemma outsiders_app ps ps' : outsiders (ps ++ ps') = (outsiders ps + outsiders ps')%nat.
Proof. unfold outsiders. by rewrite filter_app, length_app. Qed.

Lemma outsiders_low q i a :
  StronglySorted N.le q → q !! i = Some a → a < lo → (i < outsiders q)%nat.
Proof.
  intros Hs Hi Ha. rewrite <-(take_drop (S i) q), outsiders_app, outsiders_all.
  { rewrite length_take. apply lookup_lt_Some in Hi. lia. }
  intros p [k Hk]%list_elem_of_lookup. apply lookup_take_Some in Hk as [Hk ?].
  pose proof (sorted_lookup_le q k i p a Hs ltac:(lia) Hk Hi). lia.
Qed.

Lemma outsiders_high q i a :
  StronglySorted N.le q → q !! i = Some a → hi < a → (length q - i ≤ outsiders q)%nat.
Proof.
  intros Hs Hi Ha. rewrite <-(take_drop i q) at 2. rewrite outsiders_app, (outsiders_all (drop i q)).
  { rewrite length_drop. lia. }
  intros p [k Hk]%list_elem_of_lookup. rewrite lookup_drop in Hk.
  pose proof (sorted_lookup_le q i (i + k) a p Hs ltac:(lia) Hi Hk). lia.
Qed.

Lemma middle_bounded q m :
  StronglySorted N.le q → middle q = Some m → (2 * outsiders q < length q)%nat → lo ≤ m ∧ m ≤ hi.
Proof.
  intros Hs Hm Hmin. unfold middle in Hm.
  pose proof (Nat.div_mod_eq (length q) 2). pose proof (Nat.mod_upper_bound (length q) 2 ltac:(lia)).
  set (mid := (length q / 2)%nat) in *. case_decide as Hodd.
  - split; apply N.nlt_ge; intros Hout.
    + pose proof (outsiders_low q mid m Hs Hm Hout). lia.
    + pose proof (outsiders_high q mid m Hs Hm Hout). lia.
  - destruct (q !! (mid - 1)%nat) as [a|] eqn:Ha; [|done].
    destruct (q !! mid) as [b|] eqn:Hb; [|done]. simpl in Hm. injection Hm as <-.
    pose proof (sorted_lookup_le q (mid - 1) mid a b Hs ltac:(lia) Ha Hb).
    pose proof (N.div_mod' (a + b) 2). pose proof (N.mod_lt (a + b) 2 ltac:(done)).
    split; apply N.nlt_ge; intros Hout.
    + pose proof (outsiders_low q (mid - 1) a Hs Ha ltac:(lia)). lia.
    + pose proof (N.le_0_l ((a + b) mod 2)). pose proof (outsiders_high q mid b Hs Hb ltac:(lia)). lia.
Qed.
End outsiders.

(** ** The median *)

Section median.
Context `{Sdk}.

(** What the median of a list of prices is, without effects. *)
Definition median_of (ps : list N) : option N :=
  match ps with
  | [] => Some 0
  | _ => sorted ← insertion_sort ps; middle sorted
  end.

Lemma median_of_total ps :
  ps ≠ [] → ∃ q m, insertion_sort ps = Some q ∧ q ≡ₚ ps ∧ StronglySorted N.le q ∧
                   middle q = Some m ∧ median_of ps = Some m.
Proof.
  intros Hps. destruct (insertion_sort_sorted ps) as (q & Hq & Hp & Hs).
  destruct (middle_total q) as [m Hm].
  { intros ->. by apply Permutation_nil_l in Hp. }
  exists q, m. split_and!; [done..|]. unfold median_of. destruct ps; [done|]. rewrite Hq. done.
Qed.

Lemma median_of_bounded lo hi ps m :
  median_of ps = Some m → (2 * outsiders lo hi ps < length ps)%nat → lo ≤ m ∧ m ≤ hi.
Proof.
  intros Hm Hmin. assert (Hps : ps ≠ []) by (intros ->; simpl in Hmin; lia).
  destruct (median_of_total ps Hps) as (q & m' & _ & Hp & Hs & Hq & Hm'). simplify_eq.
  apply (middle_bounded lo hi q); [done..|]. by rewrite (outsiders_perm lo hi _ _ Hp), Hp.
Qed.

Lemma get_median_runs e w :
  ∃ m, median_of (fresh_prices (block_nonce e) (st w)) = Some m ∧
       get_median_off_chain e w = Ok (m, w).
Proof.
  unfold get_median_off_chain, mbind, M_bind, get_st.
  destruct (fresh_prices (block_nonce e) (st w)) as [|p ps] eqn:Hf; [by exists 0|].
  destruct (median_of_total (p :: ps) ltac:(done)) as (q & m & Hq & _ & _ & Hm & Hmed).
  exists m. split; [done|]. rewrite decide_False by done. rewrite Hq. simpl. by rewrite Hm.
Qed.

Lemma wp_get_median e (Q : N → world K → Prop) E w :
  (∀ m, median_of (fresh_prices (block_nonce e) (st w)) = Some m → Q m w) →
  wp (get_median_off_chain e) Q E w.
Proof.
  intros HQ. destruct (get_median_runs e w) as (m & Hm & Hr). unfold wp. rewrite Hr. by apply HQ.
Qed.

(** C17: the median is total and correct.  [get_median_off_chain] never aborts
    (the insertion sort ends and stays in range); without a fresh report it is
    0; otherwise it is the middle, or the mean of the two middle ones, of the
    sorted fresh prices, does not depend on the order in which the keepers are
    stored, and a minority of wrong reports cannot move it out of the range of
    the others. *)
Theorem median_total e w :
  let ps := fresh_prices (block_nonce e) (st w) in
  ∃ m, get_median_off_chain e w = Ok (m, w) ∧
  (ps = [] → m = 0) ∧
  (ps ≠ [] → ∃ q, q ≡ₚ ps ∧ StronglySorted N.le q ∧ middle q = Some m) ∧
  (∀ e' w', fresh_prices (block_nonce e') (st w') ≡ₚ ps → get_median_off_chain e' w' = Ok (m, w')) ∧
  (∀ lo hi, (2 * outsiders lo hi ps < length ps)%nat → lo ≤ m ∧ m ≤ hi).
Proof.
  intros ps. destruct (get_median_runs e w) as (m & Hm & Hr). fold ps in Hm.
  exists m. split_and!; [done| | | |].
  - intros Hps. rewrite Hps in Hm. simpl in Hm. by simplify_eq.
  - intros Hps. destruct (median_of_total ps Hps) as (q & m' & _ & Hp & Hs & Hq & Hm').
    simplify_eq. eauto.
  - intros e' w' Hp. destruct (get_median_runs e' w') as (m' & Hm' & ->). do 2 f_equal.
    unfold median_of in *. rewrite (insertion_sort_perm _ _ Hp) in Hm'.
    destruct ps; [apply Permutation_nil_r in Hp; rewrite Hp in Hm'; by simplify_eq|].
    destruct (fresh_prices (block_nonce e') (st w')); [by apply Permutation_nil_l in Hp|]. by simplify_eq.
  - intros lo hi. by apply median_of_bounded.
Qed.
End median.

(** ** Arithmetic of the average and of the divergence *)

(** A weighted mean with weights [al] and [1000 - al] lies between its arguments. *)
Lemma ewma_step_between al r x :
  al ≤ 1000 → x ≠ 0 → N.min r x ≤ ewma_step al r x ∧ ewma_step al r x ≤ N.max r x.
Proof.
  intros Hal Hx. unfold ewma_step. rewrite decide_False by done.
  assert (Hsub : u64_sub ALPHA_SCALE al = 1000 - al).
  { unfold u64_sub, ALPHA_SCALE.
    replace (1000 + u64_mod - al) with (1000 - al + 1 * u64_mod) by (unfold u64_mod; lia).
    rewrite N.Div0.mod_add. apply N.mod_small. unfold u64_mod. lia. }
  rewrite Hsub. unfold ALPHA_SCALE.
  assert (Hlo : N.min r x * 1000 ≤ al * r + (1000 - al) * x).
  { pose proof (N.mul_le_mono_l (N.min r x) r al ltac:(lia)).
    pose proof (N.mul_le_mono_l (N.min r x) x (1000 - al) ltac:(lia)).
    assert (N.min r x * 1000 = al * N.min r x + (1000 - al) * N.min r x) by nia. lia. }
  assert (Hhi : al * r + (1000 - al) * x ≤ N.max r x * 1000).
  { pose proof (N.mul_le_mono_l r (N.max r x) al ltac:(lia)).
    pose proof (N.mul_le_mono_l x (N.max r x) (1000 - al) ltac:(lia)).
    assert (N.max r x * 1000 = al * N.max r x + (1000 - al) * N.max r x) by nia. lia. }
  split; [apply N.div_le_lower_bound; lia|apply N.Div0.div_le_upper_bound; lia].
Qed.

Lemma ewma_step_pos al r x : al ≤ 1000 → 0 < r → 0 < ewma_step al r x.
Proof.
  intros Hal Hr. destruct (decide (x = 0)) as [->|Hx]; [done|].
  pose proof (ewma_step_between al r x Hal Hx). lia.
Qed.

(** A divergence below [d] permille confines the price around the median. *)
Lemma divergence_close x m d :
  m ≠ 0 → d ≤ 1000 → divergence x m < d → x * 1000 < (1000 + d) * m ∧ (1000 - d) * m < x * 1000.
Proof.
  intros Hm Hd1 Hd. unfold divergence in Hd.
  assert (Hmul : ∀ y, y / m < d → y < d * m).
  { intros y Hy. pose proof (N.div_mod y m Hm). pose proof (N.mod_lt y m Hm). nia. }
  case_decide; apply Hmul in Hd; split; nia.
Qed.

Lemma to_u64_default n d : default u64_MAX (to_u64 n) < d → d ≤ u64_MAX → n < d.
Proof. unfold to_u64. case_decide; simpl; [done|lia]. Qed.

Lemma SCALE_pos : 0 < SCALE.
Proof. done. Qed.

#[local] Arguments ewma_step : simpl never.
#[local] Arguments compute_alpha : simpl never.
#[local] Arguments SCALE : simpl never.
#[local] Arguments store_price : simpl never.
#[local] Arguments update_ewma_reserves : simpl never.
#[local] Opaque SCALE.

(** ** Well-formed states *)

Record well_formed s : Prop := {
  wf_threshold : 0 < gate_threshold_permille s ∧ gate_threshold_permille s < 1000;
  wf_alpha : alpha_min_x1000 s < alpha_max_x1000 s ∧ alpha_max_x1000 s ≤ 1000;
  wf_boosts : trend_boost_x1000 s ≤ 500 ∧ gate_boost_x1000 s ≤ 500;
  wf_freshness : 0 < freshness_blocks s ∧ freshness_blocks s ≤ 20;
  wf_consensus : 500 ≤ consensus_min_permille s ∧ consensus_min_permille s ≤ 1000;
  wf_current_alpha : alpha_x1000 s ≤ 1000;
  wf_keepers : NoDup (registered_keepers s);
  wf_reports : map_Forall (λ _ r, 0 < price r) (keeper_report s);
  wf_index : price_history_idx s < HISTORY_LEN;
  wf_ring : map_Forall (λ i _, i < HISTORY_LEN) (price_history s);
  wf_price : ewma_reserve_a s = 0 ∧ ewma_reserve_b s = 0 ∧ xwap_price s = 0 ∨
    0 < ewma_reserve_a s ∧ 0 < ewma_reserve_b s ∧
    xwap_price s = ewma_reserve_b s * SCALE / ewma_reserve_a s;
}.

Section alpha.
Context `{Sdk}.

Lemma compute_alpha_bounds s g :
  well_formed s → alpha_min_x1000 s ≤ compute_alpha s g ∧ compute_alpha s g ≤ alpha_max_x1000 s.
Proof.
  intros Hwf. destruct (wf_alpha s Hwf) as [Ha1 Ha2]. destruct (wf_boosts s Hwf) as [Hb1 Hb2].
  assert (Hadd : ∀ a b, a ≤ 1000 → b ≤ 500 → u64_add a b = a + b).
  { intros a b ??. apply u64_add_small. unfold u64_mod. lia. }
  unfold compute_alpha. do 2 (case_decide; [lia|]). cbv zeta.
  set (v := N.min (u64_mul _ 3) _). assert (Hv : v ≤ alpha_max_x1000 s) by (subst v; lia). clearbody v.
  assert (Hm : alpha_min_x1000 s ≤ N.max v (alpha_min_x1000 s) ∧
               N.max v (alpha_min_x1000 s) ≤ alpha_max_x1000 s) by lia.
  revert Hm. generalize (N.max v (alpha_min_x1000 s)). intros al Hal.
  destruct (detect_trend s), g; rewrite ?Hadd by lia; lia.
Qed.

Lemma require_owner_wp e (Q : unit → world K → Prop) w :
  (owner_cell (st w) = Some (caller e) ∨ owner_cell (st w) = None → Q () w) →
  wp (require_owner e) Q any_error w.
Proof. intros HQ. unfold require_owner. wp_go. apply HQ. naive_solver. Qed.

(** The record of conditions after an update of fields it does not mention. *)
Ltac wf_done := constructor; simpl; try done; try lia.

Lemma check_gate_wp e spot (Q : bool * N → world K → Prop) E w :
  (∀ m, median_of (fresh_prices (block_nonce e) (st w)) = Some m →
     Q (if decide (m = 0) then (false, u64_MAX)
        else let d := default u64_MAX (to_u64 (divergence spot m)) in
             (bool_decide (d < gate_threshold_permille (st w)), d)) w) →
  wp (check_gate_internal e spot) Q E w.
Proof.
  intros HQ. unfold check_gate_internal. apply wp_bind, wp_get_median. intros m Hm.
  specialize (HQ m Hm). case_decide; [done|]. wp_go. done.
Qed.

(** The state after an accepted [updatePrice]. *)
Definition updated s (raw_a raw_b alpha : N) : State :=
  let s1 := update_ewma_reserves (raw_a * SCALE) (raw_b * SCALE) alpha s in
  store_price (ewma_reserve_b s1 * SCALE / ewma_reserve_a s1) alpha s1.

Lemma update_price_wp e a b (Q : world K → Prop) E w :
  well_formed (st w) → 0 < a → 0 < b → egld_value e = 0 → esdt_transfers e = [] →
  (∀ g w', st w' = updated (st w) a b (compute_alpha (st w) g) → bal w' = bal w →
     (∃ l, log w' = log w ++ l) → Q w') →
  wp (update_price e a b) (λ _, Q) E w.
Proof.
  intros Hwf Ha Hb Hv Hp HQ. unfold update_price. wp_go; try (destruct_and?; lia || naive_solver).
  apply check_gate_wp. intros m _.
  set (gate := if decide _ then _ else _). destruct gate as [g d]. cbn [fst snd].
  wp_go.
  - apply (HQ g); subst g; [done..|]. by eexists.
  - apply wp_get_median. intros m' _. wp_go.
    apply (HQ g); subst g; [done..|]. eexists. simpl. by rewrite <-app_assoc.
  - exfalso. simpl in *. pose proof (compute_alpha_bounds (st w) g Hwf) as [_ Hal].
    pose proof (wf_alpha _ Hwf). pose proof (ewma_step_pos (compute_alpha (st w) g) (a * SCALE) (ewma_reserve_a (st w))
      ltac:(lia) (N.mul_pos_pos _ _ Ha SCALE_pos)). lia.
Qed.

(** ** Reachable states are well formed *)

Lemma updated_well_formed s a b g :
  well_formed s → 0 < a → 0 < b → well_formed (updated s a b (compute_alpha s g)).
Proof.
  intros Hwf Ha Hb. pose proof (compute_alpha_bounds s g Hwf) as [_ Hal].
  destruct Hwf as [? [? ?] ? ? ? ? ? ? Hidx Hring _].
  unfold updated, store_price, update_ewma_reserves. constructor; simpl; try done; [lia| | |].
  - apply N.mod_lt. done.
  - by apply map_Forall_insert_2.
  - right. split_and!; [| |done]; apply ewma_step_pos; try lia; by apply N.mul_pos_pos.
Qed.

Lemma well_formed_dispatch e c w :
  well_formed (st w) → wp (dispatch e c) (λ _ w', well_formed (st w')) any_error (credit e w).
Proof.
  intros Hwf. rewrite <-(st_credit e) in Hwf. destruct c; cbn [dispatch].
  - apply wp_intro; [|done]. intros [] w' Hr. revert Hr.
    destruct (decide (0 < raw_reserve_a ∧ 0 < raw_reserve_b ∧ egld_value e = 0 ∧ esdt_transfers e = []))
      as [(?&?&?&?)|Hno].
    + apply (wp_ok _ (λ _ w', well_formed (st w')) any_error).
      apply update_price_wp; [done..|]. intros g w1 -> _ _. by apply updated_well_formed.
    + intros Hr. exfalso. apply Hno. revert Hr.
      apply (wp_ok _ (λ _ _, 0 < raw_reserve_a ∧ 0 < raw_reserve_b ∧ egld_value e = 0 ∧ esdt_transfers e = []) any_error).
      unfold update_price. do 7 wp_step; cbv beta; try done. apply wp_intro; [|done]. naive_solver.
  - unfold report_price. wp_go. destruct Hwf. constructor; simpl; try done. by apply map_Forall_insert_2.
  - unfold set_gate_threshold. wp_go. apply require_owner_wp. intros _. wp_go. by destruct Hwf; constructor.
  - unfold set_alpha_bounds. wp_go. apply require_owner_wp. intros _. wp_go. by destruct Hwf; constructor.
  - unfold set_trend_boost. wp_go. apply require_owner_wp. intros _. wp_go.
    destruct Hwf as [? ? [? ?]]; by constructor.
  - unfold set_gate_boost. wp_go. apply require_owner_wp. intros _. wp_go.
    destruct Hwf as [? ? [? ?]]; by constructor.
  - unfold set_freshness_blocks. wp_go. apply require_owner_wp. intros _. wp_go. by destruct Hwf; constructor.
  - unfold set_consensus_min. wp_go. apply require_owner_wp. intros _. wp_go. by destruct Hwf; constructor.
  - unfold register_keeper. wp_go. apply require_owner_wp. intros _. wp_go.
    destruct Hwf; constructor; simpl; try done. by apply NoDup_set_insert.
  - unfold remove_keeper. wp_go. apply require_owner_wp. intros _. wp_go.
    destruct Hwf; constructor; simpl; try done. by apply NoDup_set_swap_remove.
  - unfold set_pool_address. wp_go. apply require_owner_wp. intros _. wp_go. by destruct Hwf; constructor.
  - unfold upgrade. wp_go. by destruct Hwf; constructor.
Qed.

Lemma xwap_wf_reachable w : xwap_reachable w → well_formed (st w).
Proof.
  apply (reachable_inv _ _ _ (λ w, well_formed (st w))).
  - intros w' (e & pool & w0 & Hst & _ & Hi). unfold init, modify in Hi. injection Hi as <-.
    simpl. rewrite Hst. constructor; simpl; try done; [apply NoDup_nil_2|by left].
  - intros w' e c Hw _. by apply well_formed_dispatch.
  - done.
Qed.
End alpha.

(** ** The signals *)

Section signals.
Context `{Sdk}.

(** What a closed form of the safety signal says. *)
Lemma safe_to_execute_inv e w w' :
  is_safe_to_execute e w = Ok (true, w') →
  ∃ m, median_of (fresh_prices (block_nonce e) (st w)) = Some m ∧ m ≠ 0 ∧
    default u64_MAX (to_u64 (divergence (xwap_price (st w)) m)) < gate_threshold_permille (st w) ∧
    let total := N.of_nat (length (registered_keepers (st w))) in
    let agreeing := N.of_nat (length (filter (λ p, agrees m p = true)
                                        (fresh_prices (block_nonce e) (st w)))) in
    total ≠ 0 ∧ consensus_min_permille (st w) ≤ u64_mul agreeing 1000 / total.
Proof.
  destruct (get_median_runs e w) as (m & Hm & _).
  set (R := λ b : bool, b = true → ∃ m, median_of (fresh_prices (block_nonce e) (st w)) = Some m ∧ m ≠ 0 ∧
    default u64_MAX (to_u64 (divergence (xwap_price (st w)) m)) < gate_threshold_permille (st w) ∧
    let total := N.of_nat (length (registered_keepers (st w))) in
    let agreeing := N.of_nat (length (filter (λ p, agrees m p = true)
                                        (fresh_prices (block_nonce e) (st w)))) in
    total ≠ 0 ∧ consensus_min_permille (st w) ≤ u64_mul agreeing 1000 / total).
  assert (Hwp : wp (is_safe_to_execute e) (λ b _, R b) any_error w); [|intros Hr; by apply (wp_ok _ _ _ _ _ _ Hwp Hr)].
  unfold is_safe_to_execute, compute_signals. wp_go. apply check_gate_wp. intros m1 Hm1. simplify_eq.
  wp_go. unfold check_consensus. wp_go. apply wp_get_median. intros m2 Hm2. simplify_eq.
  cbn [safe fst].
  destruct (decide (m = 0)) as [Hm0|Hm0]; [by wp_go|].
  wp_go; unfold R; cbn [safe fst]; rewrite ?andb_false_r; try done.
  intros [[Hg%bool_decide_eq_true Hc%bool_decide_eq_true]%andb_true_iff _]%andb_true_iff.
  by exists m.
Qed.

Lemma fresh_prices_length bn s : (length (fresh_prices bn s) ≤ length (registered_keepers s))%nat.
Proof.
  unfold fresh_prices. induction (registered_keepers s) as [|k l IH]; [done|].
  cbn [omap list_omap length]. case_match; simpl; lia.
Qed.

(** C8: what [isSafeToExecute] promises.  When it answers true and the keepers
    whose fresh report lies outside an interval are too few for the consensus
    threshold ([2 * wrong < consensus_min * total / 1000]; two fifths of the keepers
    under the default of 80%), the XWAP price is within the gate threshold of that
    interval, whatever reserves [updatePrice] was called with. *)
Theorem safe_price_bounded e w w' lo hi :
  xwap_reachable w → is_safe_to_execute e w = Ok (true, w') →
  let s := st w in
  let total := N.of_nat (length (registered_keepers s)) in
  let wrong := N.of_nat (outsiders lo hi (fresh_prices (block_nonce e) s)) in
  total * 1000 < u64_mod → 2000 * wrong < consensus_min_permille s * total →
  (1000 - gate_threshold_permille s) * lo < xwap_price s * 1000 ∧
  xwap_price s * 1000 < (1000 + gate_threshold_permille s) * hi.
Proof.
  intros Hw Hsafe s total wrong Htot Hwrong. pose proof (xwap_wf_reachable w Hw) as Hwf. fold s in Hwf.
  destruct (safe_to_execute_inv e w w' Hsafe) as (m & Hm & Hm0 & Hd & Ht & Hc). fold s total in Hm, Hd, Ht, Hc.
  destruct (wf_threshold s Hwf) as [Hthr0 Hthr].
  set (fresh := fresh_prices (block_nonce e) s) in *.
  pose proof (fresh_prices_length (block_nonce e) s) as Hlen. fold fresh in Hlen.
  set (ag := length (filter (λ p, agrees m p = true) fresh)) in *.
  assert (Hag : (ag ≤ length fresh)%nat) by apply length_filter.
  rewrite u64_mul_small in Hc by (unfold total in *; lia).
  assert (Hcm : consensus_min_permille s * total ≤ N.of_nat ag * 1000).
  { etrans; [|apply (div_mul_le (N.of_nat ag * 1000) total)]. rewrite N.mul_comm. by apply N.mul_le_mono_l. }
  destruct (median_of_bounded lo hi fresh m Hm) as [Hlo Hhi]; [unfold wrong in *; lia|].
  apply to_u64_default in Hd; [|unfold u64_MAX, u64_mod; lia].
  apply divergence_close in Hd as [Hup Hdown]; [|done|lia].
  split.
  - eapply N.le_lt_trans; [|exact Hdown]. by apply N.mul_le_mono_l.
  - eapply N.lt_le_trans; [exact Hup|]. by apply N.mul_le_mono_l.
Qed.

(** An accepted [updatePrice].  In a reachable state the call succeeds for
    any positive reserves and any caller.  The adaptive weight stays within the
    configured bounds, each averaged reserve moves to a value between its old
    value and the new reserve (the first call seeds it), and the price is the
    quotient of the averages. *)
Theorem update_price_effect e a b w :
  xwap_reachable w → 0 < a → 0 < b → egld_value e = 0 → esdt_transfers e = [] →
  ∃ w', update_price e a b w = Ok ((), w') ∧
    let s := st w in let s' := st w' in
    alpha_min_x1000 s ≤ alpha_x1000 s' ∧ alpha_x1000 s' ≤ alpha_max_x1000 s ∧
    (ewma_reserve_a s = 0 → ewma_reserve_a s' = a * SCALE ∧ ewma_reserve_b s' = b * SCALE) ∧
    (ewma_reserve_a s ≠ 0 →
       N.min (a * SCALE) (ewma_reserve_a s) ≤ ewma_reserve_a s' ∧
       ewma_reserve_a s' ≤ N.max (a * SCALE) (ewma_reserve_a s) ∧
       N.min (b * SCALE) (ewma_reserve_b s) ≤ ewma_reserve_b s' ∧
       ewma_reserve_b s' ≤ N.max (b * SCALE) (ewma_reserve_b s)) ∧
    xwap_price s' = ewma_reserve_b s' * SCALE / ewma_reserve_a s' ∧
    prev_xwap_price s' = xwap_price s ∧ bal w' = bal w.
Proof.
  intros Hw Ha Hb Hv Hp. pose proof (xwap_wf_reachable w Hw) as Hwf.
  apply wp_runs, update_price_wp; [done..|]. intros g w' Hst Hbal _.
  pose proof (compute_alpha_bounds (st w) g Hwf) as [Ha1 Ha2]. pose proof (wf_alpha _ Hwf) as [_ Hmax].
  rewrite Hst. unfold updated, store_price, update_ewma_reserves. cbv zeta. simpl.
  split_and!; [done|done| | |done|done|done].
  - intros H0. assert (Hb0 : ewma_reserve_b (st w) = 0) by (destruct (wf_price _ Hwf); lia).
    by rewrite H0, Hb0.
  - intros H0. assert (Hb0 : ewma_reserve_b (st w) ≠ 0) by (destruct (wf_price _ Hwf); lia).
    pose proof (ewma_step_between (compute_alpha (st w) g) (a * SCALE) _ ltac:(lia) H0).
    pose proof (ewma_step_between (compute_alpha (st w) g) (b * SCALE) _ ltac:(lia) Hb0). tauto.
Qed.

(** The states of the oracle are well formed: every parameter is in the
    range its setter enforces, the weight is at most one, keepers are distinct,
    reports are positive, the ring buffer has at most [HISTORY_LEN] cells, and the
    price is 0 before the first update and the quotient of the averages after. *)
Theorem xwap_well_formed w : xwap_reachable w → well_formed (st w).
Proof. apply xwap_wf_reachable. Qed.
End signals.

(** ** Witnesses: five keepers, one of which lies about the price *)

Definition sample_init : world K :=
  match @init (sample_env 7 7 9 0 0) 42 (World empty_state (λ _, 0) []) with
  | Ok (_, w) => w
  | Err _ => World empty_state (λ _, 0) []
  end.

Definition sample_calls : list (env K * Call) :=
  (λ k, (sample_env 7 7 9 0 0, RegisterKeeper k)) <$> [11; 12; 13; 14; 15] ++
  [].
Definition sample_reports : list (env K * Call) :=
  ((λ k, (sample_env k 7 9 0 0, ReportPrice (15 * SCALE))) <$> [11; 12; 13; 14]) ++
  [(sample_env 15 7 9 0 0, ReportPrice (99 * SCALE)); (sample_env 3 7 9 0 0, UpdatePrice 1000 15000)].
Definition sample_world : world K :=
  outcome (@dispatch sample_sdk) (sample_calls ++ sample_reports) sample_init.

Lemma xwap_sample_reachable : @xwap_reachable sample_sdk sample_world.
Proof.
  apply outcome_reachable; [|by apply Forall_true|by vm_compute].
  apply reach_deployed. by exists (sample_env 7 7 9 0 0), 42, (World empty_state (λ _, 0) []).
Qed.

#[local] Existing Instance sample_sdk.

Lemma safe_price_bounded_witness :
  (1000 - 100) * (15 * SCALE) < xwap_price (st sample_world) * 1000 ∧
  xwap_price (st sample_world) * 1000 < (1000 + 100) * (15 * SCALE).
Proof.
  apply (safe_price_bounded (sample_env 3 7 9 0 0) sample_world sample_world (15 * SCALE) (15 * SCALE)).
  - apply xwap_sample_reachable.
  - vm_compute. reflexivity.
  - vm_compute. reflexivity.
  - vm_compute. reflexivity.
Defined.

Lemma update_price_effect_witness :
  ∃ w', update_price (sample_env 3 7 9 0 0) 1000 16000 sample_world = Ok ((), w') ∧
    50 ≤ alpha_x1000 (st w').
Proof.
  destruct (update_price_effect (sample_env 3 7 9 0 0) 1000 16000 sample_world xwap_sample_reachable)
    as (w' & Hr & Ha & _); [done..|].
  exists w'. split; [exact Hr|exact Ha].
Defined.

Lemma xwap_well_formed_witness : well_formed (st sample_world).
Proof. apply (xwap_well_formed sample_world). apply xwap_sample_reachable. Defined.
