(* ===== verification/Shield.v ===== *)
(** The Agent Shield (contracts/xcron-agent-shield/escrow/src): a treasury
    whose ESDT an autonomous agent may spend up to a daily limit per token. *)

From S2P Require Import Prelude Sdk Types.

(** ** storage.rs and the cells of lib.rs *)

Inductive EscrowStatus : Type :=
| Active
| Released
| Refunded.
#[export] Instance EscrowStatus_eq_dec : EqDecision EscrowStatus.
Proof. solve_decision. Defined.

Record EscrowData := MkEscrowData {
  es_employer : address;
  es_receiver : address;
  es_token_id : token_id;
  es_token_nonce : N;
  es_amount : N;
  es_poa_hash : hash;
  es_deadline : N;
  es_status : EscrowStatus;
}.

Record State := MkState {
  escrow_data : gmap bytes EscrowData;
  validation_contract_address : option address;
  identity_contract_address : option address;
  authorized_agent : option address;
  paused_cell : bool;
  shield_daily_limit : gmap token_id N;
  daily_spent : gmap (token_id * N) N;
}.
#[export] Instance State_eta : Settable State := λ s,
  MkState (escrow_data s) (validation_contract_address s) (identity_contract_address s)
    (authorized_agent s) (paused_cell s) (shield_daily_limit s) (daily_spent s).

Definition empty_state : State := MkState ∅ None None None false ∅ ∅.

Inductive Event : Type :=
| escrow_deposited_event (job_id : bytes) (employer : address) (amount : N)
| escrow_released_event (job_id : bytes) (receiver : address) (amount : N)
| escrow_refunded_event (job_id : bytes) (employer : address) (amount : N).

Inductive Callback : Type :=
| agent_execution_closure (token : token_id) (current_day amount : N).
#[export] Instance Callback_eq_dec : EqDecision Callback.
Proof. solve_decision. Defined.

Canonical K : contract := Contract State Event Callback.
Implicit Types (e : env K) (w : world K) (s : State).

(** [TokenIdentifier::is_valid_esdt_identifier], of the SDK. *)
Class EsdtFormat := is_valid_esdt_identifier : token_id → bool.

Definition ERR_PAUSED : string := "Shield is Paused (Breaker Active)".
Definition ERR_THRESHOLD : string :=
  "Threshold exceeded: Spend exceeds daily shield limits! VAULT FROZEN.".

Section code.
Context `{Sdk} `{EsdtFormat}.

Definition init e (validation_contract identity_contract agent_role : address) : M K unit :=
  modify (λ s : State, s
    <| validation_contract_address := Some validation_contract |>
    <| identity_contract_address := Some identity_contract |>
    <| authorized_agent := Some agent_role |>
    <| paused_cell := false |>).

Definition upgrade e : M K unit := mret ().

Definition set_shield_limit e (token : token_id) (max_daily_amount : N) : M K unit :=
  not_payable e;;
  only_owner e;;
  modify (λ s : State, s <| shield_daily_limit ::= <[token := max_daily_amount]> |>).

Definition pause_shield e : M K unit :=
  not_payable e;;
  only_owner e;;
  modify (λ s : State, s <| paused_cell := true |>).

Definition unpause_shield e : M K unit :=
  not_payable e;;
  only_owner e;;
  modify (λ s : State, s <| paused_cell := false |>).

(** [#[payable("*")]]: the funds are credited, nothing else happens. *)
Definition fund_treasury e : M K unit := mret ().

(** ** Proposals of the agent *)

(** The endpoints an agent may not call. *)
Definition raw_transfers : list bytes :=
  string_bytes <$> ["ESDTTransfer"; "ESDTNFTTransfer"; "MultiESDTNFTTransfer"; "approve"; "setLocalRoles"].

Definition safe_time (raw_time : N) : N :=
  if decide (100000000000 < raw_time) then raw_time / 1000 else raw_time.
Definition day_of e : N := safe_time (timestamp e) / 86400.

Definition gas_for_call e : N :=
  if decide (15000000 < gas_left e) then gas_left e - 10000000 else gas_left e.

Definition agent_propose_execution e (target_contract : address) (token : token_id) (amount : N)
    (func_name : bytes) (args : list bytes) : M K unit :=
  not_payable e;;
  s ← get_st;
  require (paused_cell s = false) ERR_PAUSED;;
  require (is_valid_esdt_identifier token = true) "Invalid Token Format";;
  agent ← sv_get empty_address (authorized_agent s);
  require (caller e = agent) "Only AI Agent can propose";;
  require (func_name ∉ raw_transfers)
    "Agent Shield: Raw token transfers and approvals are strictly prohibited";;
  (* A BigUint cell holding 0 is empty. *)
  let limit := nget (shield_daily_limit s) token in
  require (limit ≠ 0) "Token not authorized in Security Vault";;
  let current_day := day_of e in
  let spent_today := nget (daily_spent s) (token, current_day) + amount in
  (if decide (limit < spent_today)
   then modify (λ s : State, s <| paused_cell := true |>);; throw ERR_THRESHOLD
   else mret ());;
  modify (λ s : State, s <| daily_spent ::= <[(token, current_day) := spent_today]> |>);;
  require (target_contract ≠ sc_address e) "Agent cannot reference the Shield directly";;
  let closure := agent_execution_closure token current_day amount in
  if decide (0 < amount)
  then register_promise_esdt target_contract func_name (ArgBuf <$> args) (Payment token 0 amount)
         (gas_for_call e) (Some closure) 5000000
  else register_promise target_contract func_name (ArgBuf <$> args) 0
         (gas_for_call e) (Some closure) 5000000.

Definition agent_execution_callback (token : token_id) (current_day amount : N) (success : bool)
  : M K unit :=
  if success then mret ()
  else
    s ← get_st;
    let spent_today := nget (daily_spent s) (token, current_day) in
    if decide (amount ≤ spent_today)
    then modify (λ s : State, s <| daily_spent ::= <[(token, current_day) := spent_today - amount]> |>)
    else mret ().

Definition emergency_withdraw e (token : token_id) (amount : N) : M K unit :=
  not_payable e;;
  only_owner e;;
  direct_esdt (caller e) token 0 amount.

(** ** Views *)

Definition get_escrow s (job_id : bytes) : option EscrowData := escrow_data s !! job_id.
Definition get_authorized_agent s : option address := authorized_agent s.
Definition is_paused s : bool := paused_cell s.
Definition get_shield_daily_limit s (token : token_id) : N := nget (shield_daily_limit s) token.
Definition get_daily_spent s (token : token_id) (day_epoch : N) : N := nget (daily_spent s) (token, day_epoch).

(** ** The contract as a machine *)

Inductive Call : Type :=
| SetShieldLimit (token : token_id) (max_daily_amount : N)
| PauseShield
| UnpauseShield
| FundTreasury
| AgentProposeExecution (target_contract : address) (token : token_id) (amount : N)
    (func_name : bytes) (args : list bytes)
| EmergencyWithdraw (token : token_id) (amount : N)
| Upgrade.

Definition dispatch e (c : Call) : M K unit :=
  match c with
  | SetShieldLimit t n => set_shield_limit e t n
  | PauseShield => pause_shield e
  | UnpauseShield => unpause_shield e
  | FundTreasury => fund_treasury e
  | AgentProposeExecution to t n f args => agent_propose_execution e to t n f args
  | EmergencyWithdraw t n => emergency_withdraw e t n
  | Upgrade => upgrade e
  end.

Definition run_callback e (cb : Callback) (success : bool) : M K unit :=
  match cb with agent_execution_closure t d n => agent_execution_callback t d n success end.

Definition shield_deployed w : Prop :=
  ∃ e v i a w0, st w0 = empty_state ∧ log w0 = [] ∧ init e v i a w0 = Ok ((), w).

(** The callbacks registered so far. *)
Definition closure_of (x : effect K) : option Callback :=
  match x with
  | Promise _ _ _ _ _ cb _ => cb
  | PromiseEsdt _ _ _ _ _ cb _ => cb
  | _ => None
  end.
Definition promised (l : list (effect K)) : list Callback := omap closure_of l.

(** Runs of the shield with the answers its promises got: a transaction, an
    answer to a promise that is still open, or funds that arrive. *)
Inductive shield_run (allowed : env K → Call → Prop) : world K → list (Callback * bool) → Prop :=
| run_deployed w : shield_deployed w → shield_run allowed w []
| run_call e c w w' answers :
    shield_run allowed w answers → allowed e c →
    invoke e (dispatch e c) w = Ok ((), w') → shield_run allowed w' answers
| run_answer e cb success w w' answers :
    shield_run allowed w answers → cb :: answers.*1 ⊆+ promised (log w) →
    invoke e (run_callback e cb success) w = Ok ((), w') →
    shield_run allowed w' ((cb, success) :: answers)
| run_funded w b answers :
    shield_run allowed w answers → (∀ a, bal w a ≤ b a) →
    shield_run allowed (World (st w) b (log w)) answers.
End code.
