(* ===== verification/ShieldProps.v ===== *)
(** Properties of the Agent Shield: what the agent can spend in a day, where it
    can send it, and what the automatic freeze amounts to. *)

From S2P Require Import Prelude Sdk Types Shield.

Implicit Types (e : env K) (w : world K) (s : State) (l : list (effect K)) (cbs : list Callback).

(** ** Sums over closures and over the log *)

Definition closure_amount (t : token_id) (d : N) (cb : Callback) : N :=
  match cb with
  | agent_execution_closure t' d' n => if decide (t' = t ∧ d' = d) then n else 0
  end.
Definition total t d cbs : N := foldr (λ cb acc, closure_amount t d cb + acc) 0 cbs.

(** The ESDT [t] a promise of day [d] takes out of the treasury. *)
Definition effect_outflow (t : token_id) (d : N) (x : effect K) : N :=
  match x with
  | PromiseEsdt _ _ _ p _ (Some (agent_execution_closure _ d' _)) _ =>
      if decide (token_identifier p = t ∧ d' = d) then amount p else 0
  | _ => 0
  end.
Definition outflow t d l : N := foldr (λ x acc, effect_outflow t d x + acc) 0 l.

(** The closures whose call failed. *)
Definition failures (answers : list (Callback * bool)) : list Callback :=
  (filter (λ a, a.2 = false) answers).*1.

Lemma failures_cons cb answers : failures ((cb, false) :: answers) = cb :: failures answers.
Proof. done. Qed.
#[local] Arguments failures : simpl never.

Lemma total_app t d cbs1 cbs2 : total t d (cbs1 ++ cbs2) = total t d cbs1 + total t d cbs2.
Proof. induction cbs1 as [|cb cbs1 IH]; [done|]. cbn [app total foldr] in *. unfold total in *. lia. Qed.

Lemma total_cons t d cb cbs : total t d (cb :: cbs) = closure_amount t d cb + total t d cbs.
Proof. done. Qed.

Lemma total_one t d cb : total t d [cb] = closure_amount t d cb.
Proof. apply N.add_0_r. Qed.

Lemma total_perm t d cbs1 cbs2 : cbs1 ≡ₚ cbs2 → total t d cbs1 = total t d cbs2.
Proof. induction 1; unfold total in *; cbn [foldr] in *; lia. Qed.

Lemma total_submseteq t d cbs1 cbs2 : cbs1 ⊆+ cbs2 → total t d cbs1 ≤ total t d cbs2.
Proof.
  intros [k Hk]%submseteq_Permutation. rewrite (total_perm _ _ _ _ Hk), total_app. lia.
Qed.

Lemma total_failures_le t d answers : total t d (failures answers) ≤ total t d answers.*1.
Proof.
  apply total_submseteq. unfold failures. apply sublist_submseteq, fmap_sublist, sublist_filter.
Qed.

Lemma outflow_app t d l1 l2 : outflow t d (l1 ++ l2) = outflow t d l1 + outflow t d l2.
Proof. induction l1 as [|x l1 IH]; [done|]. unfold outflow in *. cbn [app foldr] in *. lia. Qed.

Lemma outflow_one t d x : outflow t d [x] = effect_outflow t d x.
Proof. apply N.add_0_r. Qed.

Lemma promised_app l1 l2 : promised (l1 ++ l2) = promised l1 ++ promised l2.
Proof. apply omap_app. Qed.

#[local] Arguments total : simpl never.
#[local] Arguments outflow : simpl never.

(** ** Where promises go *)

(** A call the agent may make from the shield at address [self]. *)
Definition confined (self : address) (x : effect K) : Prop :=
  match x with
  | Promise to ep _ egld _ _ _ => to ≠ self ∧ (ep ∉ raw_transfers) ∧ egld = 0
  | PromiseEsdt to ep _ _ _ _ _ => to ≠ self ∧ (ep ∉ raw_transfers)
  | _ => True
  end.

Section proposal.
Context `{StrictSdk} `{EsdtFormat}.

(** An accepted proposal. *)
Lemma propose_wp e to t n f args (Q : unit → world K → Prop) w :
  (∀ w' x, st w' = (st w) <| daily_spent ::= <[(t, day_of e) := nget (daily_spent (st w)) (t, day_of e) + n]> |> →
     log w' = log w ++ [x] → closure_of x = Some (agent_execution_closure t (day_of e) n) →
     (∀ d, effect_outflow t d x = closure_amount t d (agent_execution_closure t (day_of e) n)) →
     (∀ t' d, t' ≠ t → effect_outflow t' d x = 0) →
     confined (sc_address e) x →
     nget (daily_spent (st w)) (t, day_of e) + n ≤ nget (shield_daily_limit (st w)) t →
     Q () w') →
  wp (agent_propose_execution e to t n f args) Q any_error w.
Proof.
  intros HQ. unfold agent_propose_execution. wp_go.
  - eapply HQ; simpl; [done|done|done| | | |lia].
    + done.
    + intros t' d Hne. cbn [effect_outflow]. apply decide_False. simpl. naive_solver.
    + done.
  - eapply HQ; simpl; [done|done|done| | | |lia].
    + intros d. cbn [effect_outflow closure_amount]. case_decide; lia.
    + done.
    + done.
Qed.

End proposal.

Section properties.
Context `{StrictSdk} `{EsdtFormat}.
Variable self : address.
(** An upper bound for the limits the owner sets. *)
Variable cap : token_id → N.

Definition capped e (c : Call) : Prop :=
  sc_address e = self ∧ match c with SetShieldLimit t n => n ≤ cap t | _ => True end.

Record ledger w (answers : list (Callback * bool)) : Prop := {
  led_spent t d : total t d (promised (log w)) = nget (daily_spent (st w)) (t, d) + total t d (failures answers);
  led_outflow t d : outflow t d (log w) = total t d (promised (log w));
  led_cap t d : nget (daily_spent (st w)) (t, d) ≤ cap t;
  led_limit t : nget (shield_daily_limit (st w)) t ≤ cap t;
  led_answers : answers.*1 ⊆+ promised (log w);
  led_confined : Forall (confined self) (log w);
}.

Lemma ledger_call e c w answers :
  ledger w answers → capped e c → wp (dispatch e c) (λ _ w', ledger w' answers) any_error (credit e w).
Proof.
  intros [Hs Ho Hc Hl Ha Hf] [Hself Hcap].
  assert (Hb : ledger (credit e w) answers) by (constructor; by rewrite ?st_credit, ?log_credit).
  destruct c; cbn [dispatch].
  - unfold set_shield_limit. wp_go. constructor; simpl; rewrite ?st_credit, ?log_credit; try done.
    intros t'. destruct (decide (token = t')) as [<-|]; [by rewrite nget_insert_eq|by rewrite nget_insert_ne].
  - unfold pause_shield. wp_go. destruct Hb. by constructor.
  - unfold unpause_shield. wp_go. destruct Hb. by constructor.
  - exact Hb.
  - apply propose_wp. intros w' x Hst Hlog Hcl Hx Hx' Hconf Hlim.
    rewrite st_credit in *. rewrite log_credit in Hlog. rewrite Hself in Hconf.
    assert (Hp : promised (log w') = promised (log w) ++ [agent_execution_closure token (day_of e) amount]).
    { rewrite Hlog, promised_app. unfold promised at 2. simpl. by rewrite Hcl. }
    assert (Hspent : ∀ t d, nget (daily_spent (st w')) (t, d) =
      nget (daily_spent (st w)) (t, d) + closure_amount t d (agent_execution_closure token (day_of e) amount)).
    { intros t d. rewrite Hst. simpl. case_decide as Heq.
      - destruct Heq as [-> ->]. by rewrite nget_insert_eq.
      - rewrite nget_insert_ne by naive_solver. lia. }
    constructor.
    + intros t d. rewrite Hp, total_app, total_one, Hs, Hspent. lia.
    + intros t d. rewrite Hp, Hlog, total_app, total_one, outflow_app, Ho, outflow_one.
      destruct (decide (t = token)) as [->|Hne]; [rewrite Hx; lia|].
      rewrite (Hx' t d Hne). cbn [closure_amount]. rewrite decide_False by naive_solver. lia.
    + intros t d. rewrite Hspent. cbn [closure_amount]. case_decide as Heq.
      * destruct Heq as [<- <-]. specialize (Hl token). lia.
      * specialize (Hc t d). lia.
    + intros t. rewrite Hst. apply Hl.
    + rewrite Hp. by apply submseteq_inserts_r.
    + rewrite Hlog. apply Forall_app. split; [done|]. by constructor.
  - unfold emergency_withdraw. wp_go.
    assert (Hlog : ∀ P : list (effect K) → Prop, P (log w) → P (log (credit e w))) by (by rewrite log_credit).
    destruct Hb as [Hs' Ho' Hc' Hl' Ha' Hf'].
    constructor; simpl; rewrite ?promised_app, ?app_nil_r; try done.
    + intros t d. rewrite outflow_app, Ho'. unfold outflow. simpl. lia.
    + apply Forall_app. split; [done|]. by constructor.
  - exact Hb.
Qed.

Lemma ledger_answer e cb success w answers :
  ledger w answers → cb :: answers.*1 ⊆+ promised (log w) →
  wp (run_callback e cb success) (λ _ w', ledger w' ((cb, success) :: answers)) any_error (credit e w).
Proof.
  intros [Hs Ho Hc Hl Ha Hf] Hsub. destruct cb as [t d n]. cbn [run_callback]. unfold agent_execution_callback.
  destruct success.
  - wp_go. by constructor; rewrite ?st_credit, ?log_credit.
  - assert (Hge : n ≤ nget (daily_spent (st w)) (t, d)).
    { pose proof (total_submseteq t d _ _ Hsub) as Hle. pose proof (total_failures_le t d answers) as Hfl.
      rewrite Hs, total_cons in Hle. cbn [closure_amount] in Hle.
      rewrite decide_True in Hle by done. lia. }
    wp_go; rewrite st_credit in *; [|lia].
    assert (Hspent : ∀ t' d', nget (<[(t, d) := nget (daily_spent (st w)) (t, d) - n]> (daily_spent (st w))) (t', d') +
      closure_amount t' d' (agent_execution_closure t d n) = nget (daily_spent (st w)) (t', d')).
    { intros t' d'. cbn [closure_amount]. case_decide as Heq.
      - destruct Heq as [-> ->]. rewrite nget_insert_eq. lia.
      - rewrite nget_insert_ne by naive_solver. lia. }
    constructor; simpl; rewrite ?st_credit, ?log_credit; try done.
    + intros t' d'. rewrite Hs, failures_cons, total_cons.
      pose proof (Hspent t' d'). lia.
    + intros t' d'. pose proof (Hspent t' d'). specialize (Hc t' d'). lia.
Qed.

Lemma shield_ledger w answers : shield_run capped w answers → ledger w answers.
Proof.
  induction 1 as [w (e & v & i & a & w0 & Hst & Hlog & Hi)|e c w w' ans _ IH Ha Hi|e cb ok w w' ans _ IH Hs Hi|w b ans _ IH _].
  - unfold init, modify in Hi. injection Hi as <-. constructor; simpl; rewrite ?Hst, ?Hlog; simpl.
    all: try done; intros; unfold nget; simpl; rewrite ?lookup_empty; simpl; try lia; constructor.
  - by apply (wp_ok _ _ _ _ _ _ (ledger_call e c w ans IH Ha) Hi).
  - by apply (wp_ok _ _ _ _ _ _ (ledger_answer e cb ok w ans IH Hs) Hi).
  - by destruct IH.
Qed.

(** C7: the daily limit of the agent.  In every run in which the owner never
    sets a limit above [cap], the tokens the agent has sent out of the treasury
    on a day, less those whose call failed and came back, are what
    [daily_spent] records, and that never exceeds [cap]; every call the agent
    made goes to another contract, through none of the raw transfer
    functions, and carries no EGLD.  Each promise is answered at most once. *)
Theorem shield_daily_cap w answers :
  shield_run capped w answers →
  (∀ t d, outflow t d (log w) = nget (daily_spent (st w)) (t, d) + total t d (failures answers) ∧
          nget (daily_spent (st w)) (t, d) ≤ cap t) ∧
  Forall (confined self) (log w).
Proof.
  intros Hrun. destruct (shield_ledger w answers Hrun) as [Hs Ho Hc _ _ Hf].
  split; [|done]. intros t d. split; [by rewrite Ho, Hs|done].
Qed.
End properties.

(** ** The automatic freeze *)

Section freeze.
Context `{StrictSdk} `{EsdtFormat}.

(** No transaction but [pauseShield] leaves the shield paused. *)
Lemma unpaused_call e c w :
  c ≠ PauseShield → paused_cell (st w) = false →
  wp (dispatch e c) (λ _ w', paused_cell (st w') = false) any_error (credit e w).
Proof.
  intros Hc Hp. rewrite <-(st_credit e) in Hp. destruct c; cbn [dispatch]; [|done|..].
  - unfold set_shield_limit. wp_go. done.
  - unfold unpause_shield. wp_go. done.
  - done.
  - apply propose_wp. intros w' x Hst _ _ _ _ _ _. by rewrite Hst.
  - unfold emergency_withdraw. wp_go. done.
  - done.
Qed.

Lemma unpaused_run w answers :
  shield_run (λ _ c, c ≠ PauseShield) w answers → paused_cell (st w) = false.
Proof.
  induction 1 as [w (e & v & i & a & w0 & Hst & Hlog & Hi)|e c w w' ans _ IH Ha Hi|e [t d n] ok w w' ans _ IH Hs Hi|w b ans _ IH _].
  - unfold init, modify in Hi. by injection Hi as <-.
  - by apply (wp_ok _ _ _ _ _ _ (unpaused_call e c w Ha IH) Hi).
  - rewrite <-(st_credit e) in IH.
    assert (Hwp : wp (agent_execution_callback t d n ok) (λ _ w', paused_cell (st w') = false) any_error (credit e w)).
    { unfold agent_execution_callback. wp_go; done. }
    by apply (wp_ok _ _ _ _ _ _ Hwp Hi).
  - done.
Qed.

(** C40: the automatic freeze does not happen.  A proposal of the agent above the
    daily limit aborts with the message that the vault is frozen; the abort
    reverts the write to the pause cell, so in every run in which the owner does
    not call [pauseShield] the shield stays unpaused. *)
Theorem freeze_never_persists e to t n f args w answers :
  shield_run (λ _ c, c ≠ PauseShield) w answers →
  is_valid_esdt_identifier t = true → authorized_agent (st w) = Some (caller e) →
  (f ∉ raw_transfers) → nget (shield_daily_limit (st w)) t ≠ 0 →
  nget (shield_daily_limit (st w)) t < nget (daily_spent (st w)) (t, day_of e) + n →
  egld_value e = 0 → esdt_transfers e = [] →
  invoke e (dispatch e (AgentProposeExecution to t n f args)) w = Err ERR_THRESHOLD ∧
  paused_cell (st w) = false.
Proof.
  intros Hrun Ht Hag Hf Hl Hover Hv Hp. pose proof (unpaused_run w answers Hrun) as Hpa.
  split; [|done]. apply wp_fails, wp_invoke.
  rewrite <-(st_credit e) in *. cbn [dispatch]. unfold agent_propose_execution. wp_go.
  all: destruct_and?; try done; try naive_solver lia.
Qed.
End freeze.

(** ** Witnesses: the owner (7) authorizes 100 tokens a day, the agent (5)
    spends 60, the call fails, the agent spends 90 *)

Definition sample_format : EsdtFormat := λ _, true.
#[local] Existing Instance sample_sdk.
#[local] Existing Instance sample_strict.
#[local] Existing Instance sample_format.

Definition sample_token : token_id := "USDC-c76f1f".
Definition sample_blank : world K := World empty_state (λ _, 1000) [].
Definition shield_0 : world K := match init (sample_env 7 7 9 0 0) 1 2 5 sample_blank with
  | Ok (_, w) => w | Err _ => sample_blank end.
Definition shield_1 : world K := next dispatch (sample_env 7 7 9 0 0) (SetShieldLimit sample_token 100) shield_0.
Definition spend (n : N) : Call := AgentProposeExecution 77 sample_token n (string_bytes "swap") [].
Definition shield_3 : world K := next dispatch (sample_env 5 7 9 90000 0) (spend 60) shield_1.
Definition sample_closure : Callback := agent_execution_closure sample_token 1 60.
Definition shield_4 : world K :=
  match invoke (sample_env 8 7 9 90001 0) (run_callback (sample_env 8 7 9 90001 0) sample_closure false) shield_3 with
  | Ok (_, w) => w | Err _ => shield_3 end.
Definition shield_5 : world K := next dispatch (sample_env 5 7 9 90002 0) (spend 90) shield_4.

Lemma shield_sample_run (allowed : env K → Call → Prop) :
  allowed (sample_env 7 7 9 0 0) (SetShieldLimit sample_token 100) →
  allowed (sample_env 5 7 9 90000 0) (spend 60) → allowed (sample_env 5 7 9 90002 0) (spend 90) →
  shield_run allowed shield_5 [(sample_closure, false)].
Proof.
  intros H1 H2 H3.
  apply (run_call _ (sample_env 5 7 9 90002 0) (spend 90) shield_4); [|done|by apply next_ok; vm_compute].
  apply (run_answer _ (sample_env 8 7 9 90001 0) sample_closure false shield_3).
  - apply (run_call _ (sample_env 5 7 9 90000 0) (spend 60) shield_1); [|done|by apply next_ok; vm_compute].
    apply (run_call _ (sample_env 7 7 9 0 0) (SetShieldLimit sample_token 100) shield_0);
      [|done|by apply next_ok; vm_compute].
    apply run_deployed. by exists (sample_env 7 7 9 0 0), 1, 2, 5, sample_blank.
  - replace (promised (log shield_3)) with [sample_closure] by (by vm_compute). done.
  - unfold shield_4. by destruct (invoke _ (run_callback _ _ _) shield_3) as [[[] w]|] eqn:Hi; [|vm_compute in Hi].
Qed.

Lemma shield_daily_cap_witness :
  outflow sample_token 1 (log shield_5) = 150 ∧
  nget (daily_spent (st shield_5)) (sample_token, 1) ≤ 100.
Proof.
  destruct (shield_daily_cap 9 (λ _, 100) shield_5 [(sample_closure, false)]) as [Hcap _].
  - apply shield_sample_run; (split; [reflexivity|first [exact I|vm_compute; discriminate]]).
  - split; [vm_compute; reflexivity|exact (proj2 (Hcap sample_token 1))].
Defined.

Lemma freeze_never_persists_witness :
  invoke (sample_env 5 7 9 90002 0)
    (dispatch (sample_env 5 7 9 90002 0) (AgentProposeExecution 77 sample_token 11 (string_bytes "swap") []))
    shield_5 = Err ERR_THRESHOLD ∧ paused_cell (st shield_5) = false.
Proof.
  apply (freeze_never_persists _ _ _ _ _ _ _ [(sample_closure, false)]).
  - apply shield_sample_run; discriminate.
  - reflexivity.
  - vm_compute. reflexivity.
  - apply (bool_decide_unpack _). vm_compute. exact I.
  - vm_compute. discriminate.
  - vm_compute. reflexivity.
  - reflexivity.
  - reflexivity.
Defined.
