(* ===== verification/AgentTypes.v ===== *)
(** The [common] crate of the Agent Shield
    (contracts/xcron-agent-shield/common/src): the structs the registries
    exchange and the reads one registry makes in the storage of another. *)

From S2P Require Import Prelude Sdk Types.

(** ** errors.rs *)

Definition ERR_JOB_NOT_FOUND : string := "Job not found".
Definition ERR_NOT_AGENT_OWNER : string := "Only the agent owner can perform this action".
Definition ERR_AGENT_NOT_FOUND : string := "Agent not found".

(** ** structs.rs *)

Inductive JobStatus : Type :=
| New
| Pending
| Verified
| ValidationRequested
| Rejected.
#[export] Instance JobStatus_eq_dec : EqDecision JobStatus.
Proof. solve_decision. Defined.

Record JobData := MkJobData {
  j_status : JobStatus;
  j_proof : bytes;
  j_employer : address;
  j_creation_timestamp : N;
  j_agent_nonce : N;
}.
#[export] Instance JobData_eta : Settable JobData := λ r,
  MkJobData (j_status r) (j_proof r) (j_employer r) (j_creation_timestamp r) (j_agent_nonce r).

Record ValidationRequestData := MkValidationRequestData {
  v_validator_address : address;
  v_agent_nonce : N;
  v_job_id : bytes;
  v_response : N;
  v_response_hash : bytes;
  v_tag : bytes;
  v_last_update : N;
}.
#[export] Instance ValidationRequestData_eta : Settable ValidationRequestData := λ r,
  MkValidationRequestData (v_validator_address r) (v_agent_nonce r) (v_job_id r) (v_response r)
    (v_response_hash r) (v_tag r) (v_last_update r).

Record MetadataEntry := MkMetadataEntry {
  m_key : bytes;
  m_value : bytes;
}.

Record AgentDetails := MkAgentDetails {
  a_name : bytes;
  a_public_key : bytes;
}.

Record ServiceConfigInput := MkServiceConfigInput {
  sc_service_id : N;
  sc_price : N;
  sc_token : token_id;
  sc_nonce : N;
}.

Record AgentRegisteredEventData := MkAgentRegisteredEventData {
  ev_name : bytes;
  ev_uri : bytes;
}.

(** ** cross_contract.rs

    What a contract reads in the storage of another contract of its shard, by
    the address of that contract.  The id of an owner without an agent is 0. *)

Record CrossContract := MkCrossContract {
  external_agent_id : address → address → N;
  external_agent_owner : address → N → option address;
  external_job_data : address → bytes → option JobData;
  external_agent_service_config : address → N → N → option payment;
  external_agent_token_id : address → option token_id;
  external_agent_details : address → N → option AgentDetails;
}.

(** What the SDK decodes from an empty cell of these types ([None]: it aborts). *)
Class AgentCodec := {
  empty_agent_details : option AgentDetails;
  empty_token : option token_id;
}.
