(* ===== verification/Validation.v ===== *)
(** The validation registry of the Agent Shield
    (contracts/xcron-agent-shield/validation-registry/src): jobs given to
    agents, their proofs, and the verdicts of validators. *)

From S2P Require Import Prelude Sdk Types AgentTypes.

(** ** storage.rs *)

Record State := MkState {
  job_data : gmap bytes JobData;
  identity_registry_address : option address;
  validation_request_data : gmap bytes ValidationRequestData;
  agent_validations : gmap N (list bytes);
  whitelisted_validators : list address;
}.
#[export] Instance State_eta : Settable State := λ s,
  MkState (job_data s) (identity_registry_address s) (validation_request_data s)
    (agent_validations s) (whitelisted_validators s).

Definition empty_state : State := MkState ∅ None ∅ ∅ [].

Inductive Event : Type :=
| validation_request_event (validator : address) (agent_nonce : N) (request_hash request_uri : bytes)
| validation_response_event (validator : address) (agent_nonce : N) (request_hash : bytes)
    (data : ValidationRequestData).

Canonical K : contract := Contract State Event Empty_set.
Implicit Types (e : env K) (w : world K) (s : State) (x : CrossContract).

(** ** errors.rs *)

Definition ERR_JOB_ALREADY_INITIALIZED : string := "Job already initialized".
Definition ERR_INSUFFICIENT_PAYMENT : string := "Insufficient payment".
Definition ERR_INVALID_PAYMENT : string := "Invalid payment token".
Definition ERR_VALIDATION_REQUEST_NOT_FOUND : string := "Validation request not found".
Definition ERR_NOT_VALIDATOR : string := "Only the designated validator can respond".
Definition ERR_INVALID_AGENT_NFT : string := "Invalid agent NFT: wrong token ID or nonce".
Definition ERR_JOB_STATUS_INVALID : string := "Job status invalid for proof submission".

Definition THREE_DAYS : N := 3 * 24 * 60 * 60 * 1000.

Section code.
Context `{Sdk} `{AgentCodec}.

Definition init e (identity_registry : address) : M K unit :=
  modify (λ s : State, s <| identity_registry_address := Some identity_registry |>).

Definition upgrade e : M K unit := mret ().

(** ** config.rs *)

Definition set_identity_registry_address e (addr : address) : M K unit :=
  not_payable e;;
  only_owner e;;
  modify (λ s : State, s <| identity_registry_address := Some addr |>).

Definition add_whitelisted_validator e (addr : address) : M K unit :=
  not_payable e;;
  only_owner e;;
  modify (λ s : State, s <| whitelisted_validators ::= set_insert addr |>).

Definition remove_whitelisted_validator e (addr : address) : M K unit :=
  not_payable e;;
  only_owner e;;
  modify (λ s : State, s <| whitelisted_validators ::= set_swap_remove addr |>).

(** ** Reads of the identity registry *)

Definition identity_addr : M K address :=
  s ← get_st; sv_get empty_address (identity_registry_address s).

Definition agent_owner x (identity : address) (agent_nonce : N) : M K address :=
  sv_get empty_address (external_agent_owner x identity agent_nonce).

(** [job_mapper.get()] after [require!(!job_mapper.is_empty())] *)
Definition require_job (job_id : bytes) : M K JobData :=
  s ← get_st;
  match job_data s !! job_id with
  | Some job => mret job
  | None => throw ERR_JOB_NOT_FOUND
  end.

(** [job_mapper.update(f)] *)
Definition update_job (job_id : bytes) (f : JobData → JobData) : M K unit :=
  modify (λ s : State, s <| job_data ::= alter f job_id |>).

(** ** Jobs *)

(** The payment of a service goes to the owner of the agent. *)
Definition pay_service e (owner : address) (service_payment : payment) : M K unit :=
  pay ← single_optional e;
  match pay with
  | Some pay =>
      require (token_identifier pay = token_identifier service_payment ∧
               token_nonce pay = token_nonce service_payment) ERR_INVALID_PAYMENT;;
      require (amount service_payment ≤ amount pay) ERR_INSUFFICIENT_PAYMENT;;
      if decide (0 < amount pay) then transfer_payment owner pay else mret ()
  | None => require (amount service_payment = 0) ERR_INSUFFICIENT_PAYMENT
  end.

Definition init_job e x (job_id : bytes) (agent_nonce : N) (service_id : option N) : M K unit :=
  s ← get_st;
  require (job_data s !! job_id = None) ERR_JOB_ALREADY_INITIALIZED;;
  let job := MkJobData New [] (caller e) (timestamp_millis e) agent_nonce in
  modify (λ s : State, s <| job_data ::= <[job_id := job]> |>);;
  match service_id with
  | None => mret ()
  | Some sid =>
      identity ← identity_addr;
      owner ← agent_owner x identity agent_nonce;
      match external_agent_service_config x identity agent_nonce sid with
      | Some service_payment => pay_service e owner service_payment
      | None => mret ()
      end
  end.

Definition proof_submittable (job : JobData) : Prop := j_status job = New ∨ j_status job = Pending.
#[export] Instance proof_submittable_dec job : Decision (proof_submittable job).
Proof. unfold proof_submittable. apply _. Defined.

Definition record_proof (proof : bytes) (job : JobData) : JobData :=
  job <| j_proof := proof |> <| j_status := Pending |>.

Definition submit_proof e x (job_id proof : bytes) : M K unit :=
  not_payable e;;
  job ← require_job job_id;
  identity ← identity_addr;
  agent_details ← sv_get empty_agent_details (external_agent_details x identity (j_agent_nonce job));
  is_authorized ←
    (if decide (addr_bytes (caller e) = a_public_key agent_details) then mret true
     else owner ← agent_owner x identity (j_agent_nonce job);
          mret (bool_decide (caller e = owner)));
  require (is_authorized = true) ERR_NOT_AGENT_OWNER;;
  require (proof_submittable job) ERR_JOB_STATUS_INVALID;;
  update_job job_id (record_proof proof).

Definition submit_proof_with_nft e x (job_id proof : bytes) : M K unit :=
  job ← require_job job_id;
  pay ← single_esdt e;
  require (proof_submittable job) ERR_JOB_STATUS_INVALID;;
  identity ← identity_addr;
  expected_token_id ← sv_get empty_token (external_agent_token_id x identity);
  require (token_identifier pay = expected_token_id) ERR_INVALID_AGENT_NFT;;
  require (token_nonce pay = j_agent_nonce job) ERR_INVALID_AGENT_NFT;;
  update_job job_id (record_proof proof);;
  direct_esdt (caller e) (token_identifier pay) (token_nonce pay) (amount pay).

(** ** Validation *)

Definition validation_request e x (job_id : bytes) (validator : address)
    (request_uri request_hash : bytes) : M K unit :=
  not_payable e;;
  job ← require_job job_id;
  identity ← identity_addr;
  owner ← agent_owner x identity (j_agent_nonce job);
  require (caller e = owner) ERR_NOT_AGENT_OWNER;;
  s ← get_st;
  require (validator ∈ whitelisted_validators s) "Unauthorized Validator Node";;
  let request_data := MkValidationRequestData validator (j_agent_nonce job) job_id 0 [] [] 0 in
  modify (λ s : State, s <| validation_request_data ::= <[request_hash := request_data]> |>);;
  modify (λ s : State, s <| agent_validations ::= λ m,
    <[j_agent_nonce job := set_insert request_hash (default [] (m !! j_agent_nonce job))]> m |>);;
  update_job job_id (λ job, job <| j_status := ValidationRequested |>);;
  emit (validation_request_event validator (j_agent_nonce job) request_hash request_uri).

Definition verdict (response : N) : JobStatus :=
  if decide (70 ≤ response) then Verified else Rejected.

Definition validation_response e (request_hash : bytes) (response : N)
    (response_uri response_hash tag : bytes) : M K unit :=
  not_payable e;;
  s ← get_st;
  match validation_request_data s !! request_hash with
  | None => throw ERR_VALIDATION_REQUEST_NOT_FOUND
  | Some data =>
      require (caller e = v_validator_address data) ERR_NOT_VALIDATOR;;
      let updated_data := data <| v_response := response |> <| v_response_hash := response_hash |>
                               <| v_tag := tag |> <| v_last_update := timestamp e |> in
      modify (λ s : State, s <| validation_request_data ::= <[request_hash := updated_data]> |>);;
      (* An absent job is left absent. *)
      update_job (v_job_id updated_data) (λ job, job <| j_status := verdict response |>);;
      emit (validation_response_event (caller e) (v_agent_nonce updated_data) request_hash updated_data)
  end.

Definition clean_job e (job_id : bytes) : M K unit :=
  s ← get_st;
  match job_data s !! job_id with
  | None => mret ()
  | Some job =>
      if decide (u64_add (j_creation_timestamp job) THREE_DAYS < timestamp_millis e)
      then modify (λ s : State, s <| job_data ::= delete job_id |>)
      else mret ()
  end.

Definition clean_old_jobs e (job_ids : list bytes) : M K unit :=
  not_payable e;; for_each job_ids (clean_job e).

(** ** views.rs *)

Definition is_job_verified s (job_id : bytes) : bool :=
  match job_data s !! job_id with
  | Some job => bool_decide (j_status job = Verified)
  | None => false
  end.
Definition get_job_data s (job_id : bytes) : option JobData := job_data s !! job_id.
Definition get_validation_status s (request_hash : bytes) : option ValidationRequestData :=
  validation_request_data s !! request_hash.
Definition get_agent_validations s (agent_nonce : N) : list bytes :=
  default [] (agent_validations s !! agent_nonce).

(** ** The contract as a machine; the reads of other contracts are part of
    each transaction *)

Inductive Call : Type :=
| SetIdentityRegistryAddress (addr : address)
| AddWhitelistedValidator (addr : address)
| RemoveWhitelistedValidator (addr : address)
| InitJob x (job_id : bytes) (agent_nonce : N) (service_id : option N)
| SubmitProof x (job_id proof : bytes)
| SubmitProofWithNft x (job_id proof : bytes)
| ValidationRequest x (job_id : bytes) (validator : address) (request_uri request_hash : bytes)
| ValidationResponse (request_hash : bytes) (response : N) (response_uri response_hash tag : bytes)
| CleanOldJobs (job_ids : list bytes)
| Upgrade.

Definition dispatch e (c : Call) : M K unit :=
  match c with
  | SetIdentityRegistryAddress a => set_identity_registry_address e a
  | AddWhitelistedValidator a => add_whitelisted_validator e a
  | RemoveWhitelistedValidator a => remove_whitelisted_validator e a
  | InitJob x j n sid => init_job e x j n sid
  | SubmitProof x j p => submit_proof e x j p
  | SubmitProofWithNft x j p => submit_proof_with_nft e x j p
  | ValidationRequest x j v u h => validation_request e x j v u h
  | ValidationResponse h r u rh t => validation_response e h r u rh t
  | CleanOldJobs js => clean_old_jobs e js
  | Upgrade => upgrade e
  end.

Definition validation_deployed w : Prop :=
  ∃ e a w0, st w0 = empty_state ∧ log w0 = [] ∧ init e a w0 = Ok ((), w).
End code.
