(* ===== verification/ValidationProps.v ===== *)
(** Properties of the validation registry: the life cycle of a job and who can
    make it verified. *)

From S2P Require Import Prelude Sdk Types AgentTypes Validation.

Implicit Types (e : env K) (w : world K) (s : State) (x : CrossContract) (j h : bytes).

(** ** The life cycle of a job, with who may take each step *)

Section lifecycle.
Context `{Sdk} `{AgentCodec}.

(** The owner of the agent that [job] is given to, as the identity registry says. *)
Definition owned_by x s (who : address) (job : JobData) : Prop :=
  ∃ identity, (identity_registry_address s = Some identity ∨ empty_address = Some identity) ∧
  (external_agent_owner x identity (j_agent_nonce job) = Some who ∨ empty_address = Some who).

(** Its owner, or the holder of the key registered for it. *)
Definition proves_for x s (who : address) (job : JobData) : Prop :=
  owned_by x s who job ∨
  ∃ identity details, (external_agent_details x identity (j_agent_nonce job) = Some details ∨
                       empty_agent_details = Some details) ∧
                      addr_bytes who = a_public_key details.

(** The NFT of the agent that [job] is given to: of the agents' collection, as
    the identity registry says, and with the agent's nonce. *)
Definition agent_nft x s (pay : payment) (job : JobData) : Prop :=
  (∃ identity, (identity_registry_address s = Some identity ∨ empty_address = Some identity) ∧
     (external_agent_token_id x identity = Some (token_identifier pay) ∨
      (external_agent_token_id x identity = None ∧ empty_token = Some (token_identifier pay)))) ∧
  token_nonce pay = j_agent_nonce job.

Definition stale e (job : JobData) : Prop := u64_add (j_creation_timestamp job) THREE_DAYS < timestamp_millis e.
#[export] Instance stale_dec e job : Decision (stale e job).
Proof. unfold stale. apply _. Defined.

Inductive job_step e s : Call → bytes → option JobData → option JobData → Prop :=
| step_init x j n sid :
    job_step e s (InitJob x j n sid) j None (Some (MkJobData New [] (caller e) (timestamp_millis e) n))
| step_proof x j p job :
    proof_submittable job → proves_for x s (caller e) job →
    job_step e s (SubmitProof x j p) j (Some job) (Some (record_proof p job))
| step_nft x j p job pay :
    proof_submittable job → esdt_transfers e = [pay] → agent_nft x s pay job →
    job_step e s (SubmitProofWithNft x j p) j (Some job) (Some (record_proof p job))
| step_request x j v u h job :
    owned_by x s (caller e) job → v ∈ whitelisted_validators s →
    job_step e s (ValidationRequest x j v u h) j (Some job) (Some (job <| j_status := ValidationRequested |>))
| step_verdict h r u rh t data job :
    validation_request_data s !! h = Some data → v_validator_address data = caller e →
    job_step e s (ValidationResponse h r u rh t) (v_job_id data) (Some job)
      (Some (job <| j_status := verdict r |>))
| step_clean js j job :
    j ∈ js → stale e job →
    job_step e s (CleanOldJobs js) j (Some job) None.

(** The jobs that [c] takes a step: the one it names, for a response the one of
    the request if it still exists, for a cleaning the stale ones of the list. *)
Definition concerns e (c : Call) s j : Prop :=
  match c with
  | InitJob _ j' _ _ | SubmitProof _ j' _ | SubmitProofWithNft _ j' _ | ValidationRequest _ j' _ _ _ => j = j'
  | ValidationResponse h _ _ _ _ =>
      ∃ data, validation_request_data s !! h = Some data ∧ j = v_job_id data ∧ is_Some (job_data s !! j)
  | CleanOldJobs js => j ∈ js ∧ ∃ job, job_data s !! j = Some job ∧ stale e job
  | _ => False
  end.

(** Those take one step of [c], and every other job is left alone. *)
Definition jobs_step e (c : Call) s s' : Prop :=
  ∀ j, job_data s' !! j = job_data s !! j ∧ ¬ concerns e c s j ∨
       job_step e s c j (job_data s !! j) (job_data s' !! j) ∧ concerns e c s j.

Lemma jobs_step_same e c s s' :
  (∀ j, ¬ concerns e c s j) → job_data s' = job_data s → jobs_step e c s s'.
Proof. intros Hc Heq j. rewrite Heq. by left. Qed.

Lemma jobs_step_update e c s s' j job f :
  job_data s !! j = Some job → job_data s' = alter f j (job_data s) →
  (∀ j', concerns e c s j' ↔ j' = j) →
  job_step e s c j (Some job) (Some (f job)) → jobs_step e c s s'.
Proof.
  intros Hj Hs' Hc Hstep j'. rewrite Hs'. destruct (decide (j = j')) as [<-|Hne].
  - right. rewrite lookup_alter_eq, Hj. split; [done|by apply Hc].
  - left. rewrite lookup_alter_ne by done. split; [done|]. rewrite Hc. congruence.
Qed.

Lemma wp_require_job j (Q : JobData → world K → Prop) w :
  (∀ job, job_data (st w) !! j = Some job → Q job w) → wp (require_job j) Q any_error w.
Proof. intros HQ. unfold require_job. wp_go. destruct (job_data (st w) !! j) eqn:Hj; [by apply HQ|done]. Qed.

Lemma wp_identity_addr (Q : address → world K → Prop) w :
  (∀ a, identity_registry_address (st w) = Some a ∨ empty_address = Some a → Q a w) →
  wp identity_addr Q any_error w.
Proof. intros HQ. unfold identity_addr. wp_go. apply HQ. tauto. Qed.

(** Paying a service moves funds and changes no storage. *)
Lemma pay_service_wp e owner p (Q : unit → world K → Prop) w :
  (∀ w', st w' = st w → Q () w') → wp (pay_service e owner p) Q any_error w.
Proof. intros HQ. unfold pay_service. wp_go; by apply HQ. Qed.

(** Cleaning deletes the stale jobs of the list and nothing else. *)
Definition cleaned e (js : list bytes) s j : option JobData :=
  match job_data s !! j with
  | Some job => if decide (j ∈ js ∧ stale e job) then None else Some job
  | None => None
  end.

Lemma clean_job_wp e j w :
  wp (clean_job e j) (λ _ w',
    (∀ j', job_data (st w') !! j' = cleaned e [j] (st w) j') ∧
    whitelisted_validators (st w') = whitelisted_validators (st w) ∧
    validation_request_data (st w') = validation_request_data (st w)) any_error w.
Proof.
  assert (Hid : (∀ job, job_data (st w) !! j = Some job → ¬ stale e job) →
    ∀ j', job_data (st w) !! j' = cleaned e [j] (st w) j').
  { intros Hno j'. unfold cleaned. destruct (job_data (st w) !! j') as [job|] eqn:Hj; [|done].
    rewrite decide_False; [done|]. intros [->%list_elem_of_singleton Hs]. by eapply Hno. }
  unfold clean_job, stale in *. wp_go. destruct (job_data (st w) !! j) as [job|] eqn:Hjob; wp_go.
  - split_and!; [|done..]. intros j'. unfold cleaned. simpl. destruct (decide (j = j')) as [<-|Hne].
    + rewrite lookup_delete_eq, Hjob. rewrite decide_True; [done|]. split; [by apply list_elem_of_singleton|done].
    + rewrite lookup_delete_ne by done. destruct (job_data (st w) !! j'); [|done].
      rewrite decide_False; [done|]. intros [?%list_elem_of_singleton _]. congruence.
  - split_and!; [|done..]. apply Hid. by intros ? [= <-].
  - split_and!; [|done..]. by apply Hid.
Qed.

Lemma cleaned_cons e j js s s1 j' :
  (∀ j', job_data s1 !! j' = cleaned e [j] s j') → cleaned e js s1 j' = cleaned e (j :: js) s j'.
Proof.
  intros Hs1. unfold cleaned at 1. rewrite Hs1. unfold cleaned. destruct (job_data s !! j') as [job|]; [|done].
  repeat case_decide; try done; exfalso; rewrite ?list_elem_of_singleton, ?elem_of_cons in *; tauto.
Qed.

Lemma clean_jobs_wp e js : ∀ w,
  wp (for_each js (clean_job e)) (λ _ w',
    (∀ j, job_data (st w') !! j = cleaned e js (st w) j) ∧
    whitelisted_validators (st w') = whitelisted_validators (st w) ∧
    validation_request_data (st w') = validation_request_data (st w)) any_error w.
Proof.
  induction js as [|j js IH]; intros w; cbn [for_each].
  - split_and!; [|done..]. intros j. unfold cleaned. destruct (job_data (st w) !! j); [|done].
    rewrite decide_False; [done|]. by intros [?%elem_of_nil _].
  - apply wp_bind. eapply wp_mono; [apply clean_job_wp|]. intros [] w1 (Hj & Hv & Hr).
    eapply wp_mono; [apply IH|]. intros [] w' (Hj' & Hv' & Hr'). rewrite Hv', Hr', Hv, Hr.
    split_and!; [|done..]. intros j'. rewrite Hj'. by apply cleaned_cons.
Qed.

Lemma dispatch_jobs e c w :
  wp (dispatch e c) (λ _ w', jobs_step e c (st w) (st w')) any_error w.
Proof.
  destruct c; cbn [dispatch].
  - unfold set_identity_registry_address. wp_go. by apply jobs_step_same; [intros ? []|].
  - unfold add_whitelisted_validator. wp_go. by apply jobs_step_same; [intros ? []|].
  - unfold remove_whitelisted_validator. wp_go. by apply jobs_step_same; [intros ? []|].
  - unfold init_job. wp_go.
    assert (Hstep : ∀ w' : world K, st w' = (st w) <| job_data ::= <[job_id := MkJobData New [] (caller e) (timestamp_millis e) agent_nonce]> |> →
      jobs_step e (InitJob x job_id agent_nonce service_id) (st w) (st w')).
    { intros w' -> j. simpl. destruct (decide (job_id = j)) as [<-|Hne].
      - right. rewrite lookup_insert_eq. match goal with Hn : _ = None |- _ => rewrite Hn end. by split; [constructor|].
      - left. rewrite lookup_insert_ne by done. split; [done|congruence]. }
    destruct service_id as [sid|]; [|wp_go; by apply Hstep].
    wp_go. apply wp_identity_addr. intros a _. unfold agent_owner. wp_go.
    destruct (external_agent_service_config x a agent_nonce sid); [|wp_go; by apply Hstep].
    apply pay_service_wp. intros w' Hw'. by apply Hstep.
  - unfold submit_proof, update_job. wp_go. apply wp_require_job. intros job Hj. wp_go.
    apply wp_identity_addr. intros a Ha. wp_go.
    + eapply jobs_step_update; [exact Hj|done|done|]. constructor; [done|].
      right. exists a. eexists. split; [|done]. tauto.
    + unfold agent_owner. wp_go. eapply jobs_step_update; [exact Hj|done|done|]. constructor; [done|]. left.
      exists a. split; [done|].
      match goal with Hb : bool_decide _ = true |- _ => apply bool_decide_eq_true in Hb as -> end. tauto.
  - unfold submit_proof_with_nft, update_job. wp_go. apply wp_require_job. intros job Hj. wp_go.
    apply wp_identity_addr. intros a Ha. wp_go.
    eapply jobs_step_update; [exact Hj|done|done|]. econstructor; [done|done|]. split; [|done].
    exists a. split; [done|]. by subst.
  - unfold validation_request, update_job. wp_go. apply wp_require_job. intros job Hj. wp_go.
    apply wp_identity_addr. intros a Ha. unfold agent_owner. wp_go.
    eapply jobs_step_update; [exact Hj|done|done|]. constructor; [|done]. exists a. split; [done|]. by subst; tauto.
  - unfold validation_response, update_job. wp_go.
    destruct (validation_request_data (st w) !! request_hash) as [data|] eqn:Hd; [|done]. wp_go.
    destruct (job_data (st w) !! v_job_id data) as [job|] eqn:Hj.
    + eapply jobs_step_update; [exact Hj|done| |by constructor].
      intros j'. simpl. rewrite Hd. split; [by intros (? & [= <-] & -> & _)|intros ->; by rewrite Hj; eauto].
    + apply jobs_step_same.
      * intros j (data' & Hd' & -> & Hsome). simplify_eq. rewrite Hj in Hsome. by destruct Hsome.
      * simpl. apply map_eq. intros j.
        destruct (decide (v_job_id data = j)) as [<-|]; [by rewrite lookup_alter_eq, Hj|by rewrite lookup_alter_ne].
  - unfold clean_old_jobs. wp_go. eapply wp_mono; [apply clean_jobs_wp|].
    intros a w' (Hj & _ & _) j. rewrite Hj. unfold cleaned. simpl.
    destruct (job_data (st w) !! j) as [job|]; [|left; naive_solver].
    case_decide as Hcase; [right|left; split; [done|naive_solver]].
    destruct Hcase. split; [by constructor|eauto].
  - unfold upgrade. wp_go. by apply jobs_step_same; [intros ? []|].
Qed.
End lifecycle.

(** ** Who can make a job verified *)

Section verdicts.
Context `{Sdk} `{AgentCodec}.
(** The validators the owner trusts. *)
Variable W : list address.

Definition trusting e (c : Call) w : Prop :=
  match c with AddWhitelistedValidator a => a ∈ W | _ => True end.
Definition validation_reachable : world K → Prop := reachable dispatch validation_deployed trusting.

Record trusted s : Prop := {
  trusted_whitelist : NoDup (whitelisted_validators s) ∧ ∀ a, a ∈ whitelisted_validators s → a ∈ W;
  trusted_requests : map_Forall (λ _ d, v_validator_address d ∈ W) (validation_request_data s);
}.

Lemma trusted_same s s' :
  whitelisted_validators s' = whitelisted_validators s →
  validation_request_data s' = validation_request_data s → trusted s → trusted s'.
Proof. intros H1 H2 [??]. by constructor; rewrite ?H1, ?H2. Qed.

Ltac same := lazymatch goal with Ht : trusted _ |- _ => revert Ht; by apply trusted_same end.

Lemma trusted_dispatch e c w :
  trusted (st w) → trusting e c w → wp (dispatch e c) (λ _ w', trusted (st w')) any_error (credit e w).
Proof.
  intros Ht Hc. rewrite <-(st_credit e) in Ht. destruct c; cbn [dispatch].
  - unfold set_identity_registry_address. wp_go. same.
  - unfold add_whitelisted_validator. wp_go. destruct Ht as [[Hd Hw] Hr].
    constructor; [|done]. simpl. split; [by apply NoDup_set_insert|].
    intros a [->|Ha]%elem_of_set_insert; [exact Hc|by apply Hw].
  - unfold remove_whitelisted_validator. wp_go. destruct Ht as [[Hd Hw] Hr].
    constructor; [|done]. simpl. split; [by apply NoDup_set_swap_remove|].
    intros a Ha. apply elem_of_set_swap_remove in Ha as [_ Ha]; [by apply Hw|done].
  - unfold init_job. wp_go. destruct service_id as [sid|]; [|wp_go; same].
    wp_go. apply wp_identity_addr. intros a _. unfold agent_owner. wp_go.
    destruct (external_agent_service_config x a agent_nonce sid); [|wp_go; same].
    apply pay_service_wp. intros w' Hw'. rewrite Hw'. same.
  - unfold submit_proof, update_job. wp_go. apply wp_require_job. intros job Hj. wp_go.
    apply wp_identity_addr. intros a Ha. unfold agent_owner. wp_go; same.
  - unfold submit_proof_with_nft, update_job. wp_go. apply wp_require_job. intros job Hj. wp_go.
    apply wp_identity_addr. intros a Ha. wp_go. same.
  - unfold validation_request, update_job. wp_go. apply wp_require_job. intros job Hj. wp_go.
    apply wp_identity_addr. intros a Ha. unfold agent_owner. wp_go.
    destruct Ht as [[Hd Hw] Hr]. constructor; [done|]. simpl. apply map_Forall_insert_2; [|done]. by apply Hw.
  - unfold validation_response, update_job. wp_go.
    destruct (validation_request_data (st (credit e w)) !! request_hash) as [data|] eqn:Hd; [|done]. wp_go.
    destruct Ht as [Hw Hr]. constructor; [done|]. simpl. apply map_Forall_insert_2; [|done]. exact (Hr _ _ Hd).
  - unfold clean_old_jobs. wp_go. eapply wp_mono; [apply clean_jobs_wp|].
    intros a w' (_ & Hw1 & Hw2). by apply (trusted_same (st (credit e w))).
  - unfold upgrade. wp_go. same.
Qed.

Lemma trusted_reachable w : validation_reachable w → trusted (st w).
Proof.
  apply (reachable_inv _ _ _ (λ w, trusted (st w))).
  - intros w' (e & a & w0 & Hst & _ & Hi). unfold init, modify in Hi. injection Hi as <-. simpl. rewrite Hst.
    constructor; simpl; [split; [apply NoDup_nil_2|]|done]. intros b. by rewrite elem_of_nil.
  - intros w' e c. apply trusted_dispatch.
  - done.
Qed.


(** C18: a job becomes verified only by a response of at least 70 from a
    validator the owner whitelisted, the one named in the request for that
    job.  [W] are the validators the owner ever whitelists. *)
Theorem verified_only_by_validator e c w w' j :
  validation_reachable w → invoke e (dispatch e c) w = Ok ((), w') →
  is_job_verified (st w) j = false → is_job_verified (st w') j = true →
  ∃ h r u rh t data,
    c = ValidationResponse h r u rh t ∧ 70 ≤ r ∧
    validation_request_data (st w) !! h = Some data ∧ v_job_id data = j ∧
    v_validator_address data = caller e ∧ caller e ∈ W.
Proof.
  intros Hw Hi Hno Hyes. pose proof (trusted_requests _ (trusted_reachable w Hw)) as Hr.
  pose proof (wp_ok _ _ _ _ _ _ (dispatch_jobs e c (credit e w)) Hi j) as Hstep. rewrite st_credit in Hstep.
  unfold is_job_verified in *. destruct Hstep as [[Heq _]|[Hstep _]]; [by rewrite Heq, Hno in Hyes|].
  generalize dependent (job_data (st w') !! j). intros o' Hyes Hstep.
  inversion Hstep as [| | | |h r u rh t data job Hd Hv|]; subst.
  all: try done. apply bool_decide_eq_true in Hyes. simpl in Hyes. unfold verdict in Hyes.
  case_decide; [|done]. exists h, r, u, rh, t, data. split_and!; try done. rewrite <-Hv. exact (Hr _ _ Hd).
Qed.

(** ** Funds *)

(** The registry only passes on what a call brings.  No transaction makes
    a balance shrink: a payment sent with [init_job] without a service, or for a
    service that is not configured, stays in the contract for ever. *)
Theorem validation_keeps_funds e c w w' a :
  native_apart e → invoke e (dispatch e c) w = Ok ((), w') → bal w a ≤ bal w' a.
Proof.
  intros Hn Hi. revert Hi. apply (wp_ok _ (λ _ w', bal w a ≤ bal w' a) any_error). apply wp_invoke.
  pose proof (credit_le e w a) as Hle.
  destruct c; cbn [dispatch].
  - unfold set_identity_registry_address. wp_go. exact Hle.
  - unfold add_whitelisted_validator. wp_go. exact Hle.
  - unfold remove_whitelisted_validator. wp_go. exact Hle.
  - unfold init_job. wp_go. destruct service_id as [sid|]; [|wp_go; exact Hle].
    wp_go. apply wp_identity_addr. intros ia _. unfold agent_owner. wp_go.
    destruct (external_agent_service_config x ia agent_nonce sid) as [sp|]; [|wp_go; exact Hle].
    unfold pay_service. wp_go; try exact Hle. simpl.
    match goal with Hp : all_payments e = [?p] |- _ => pose proof (credit_single e w p Hn Hp) as Hs;
      destruct (decide (asset_of p = a)) as [<-|Hne] end.
    + rewrite bal_insert_eq. lia.
    + by rewrite bal_insert_ne.
  - unfold submit_proof, update_job. wp_go. apply wp_require_job. intros job Hj. wp_go.
    apply wp_identity_addr. intros ia Ha. unfold agent_owner. wp_go; exact Hle.
  - unfold submit_proof_with_nft, update_job. wp_go. apply wp_require_job. intros job Hj. wp_go.
    apply wp_identity_addr. intros ia Ha. wp_go. simpl.
    match goal with Hp : esdt_transfers e = [?p] |- _ => pose proof (credit_esdt_single e w p Hp) as Hs;
      destruct (decide (pay_asset p = a)) as [<-|Hne] end.
    + unfold pay_asset in *. rewrite bal_insert_eq. lia.
    + unfold pay_asset in *. by rewrite bal_insert_ne.
  - unfold validation_request, update_job. wp_go. apply wp_require_job. intros job Hj. wp_go.
    apply wp_identity_addr. intros ia Ha. unfold agent_owner. wp_go. exact Hle.
  - unfold validation_response, update_job. wp_go.
    destruct (validation_request_data (st (credit e w)) !! request_hash) as [data|] eqn:Hd; [|done]. wp_go. exact Hle.
  - unfold clean_old_jobs. wp_go. apply (wp_for_each (λ w', bal w a ≤ bal w' a)); [|exact Hle].
    intros j w1 _ Hw1. unfold clean_job. wp_go. destruct (job_data (st w1) !! j); wp_go; exact Hw1.
  - unfold upgrade. wp_go. exact Hle.
Qed.
End verdicts.

(** ** Witnesses: employer 30, agent 4 of owner 40, validator 20 *)

#[local] Existing Instance sample_sdk.
#[local] Instance sample_codec : AgentCodec := {| empty_agent_details := None; empty_token := Some "" |}.

Definition sample_cross : CrossContract := {|
  external_agent_id := λ _ a, if decide (a = 40) then 4 else 0;
  external_agent_owner := λ _ n, if decide (n = 4) then Some 40 else None;
  external_job_data := λ _ _, None;
  external_agent_service_config := λ _ _ _, None;
  external_agent_token_id := λ _, Some "AGENT-1";
  external_agent_details := λ _ _, None;
|}.
Definition validation_0 : world K :=
  match init (sample_env 7 7 9 0 0) 50 (World empty_state (λ _, 0) []) with
  | Ok (_, w) => w | Err _ => World empty_state (λ _, 0) [] end.
Definition validation_calls : list (env K * Call) :=
  [(sample_env 7 7 9 0 0, AddWhitelistedValidator 20);
   (sample_env 30 7 9 1 0, InitJob sample_cross [1] 4 None);
   (sample_env 40 7 9 2 0, ValidationRequest sample_cross [1] 20 [] [9])].
Definition validation_1 : world K := outcome dispatch validation_calls validation_0.
Definition respond (r : N) : Call := ValidationResponse [9] r [] [] [].
Definition validation_2 : world K := next dispatch (sample_env 20 7 9 3 0) (respond 80) validation_1.

Lemma validation_1_reachable : validation_reachable [20] validation_1.
Proof.
  apply outcome_reachable; [|repeat constructor|by vm_compute].
  apply reach_deployed. by exists (sample_env 7 7 9 0 0), 50, (World empty_state (λ _, 0) []).
Qed.


Lemma verified_only_by_validator_witness :
  ∃ h r u rh t data, respond 80 = ValidationResponse h r u rh t ∧ 70 ≤ r ∧
    validation_request_data (st validation_1) !! h = Some data ∧ v_job_id data = [1] ∧
    v_validator_address data = 20 ∧ 20 ∈ [20].
Proof.
  apply (verified_only_by_validator [20] (sample_env 20 7 9 3 0) (respond 80) validation_1 validation_2 [1]).
  - apply validation_1_reachable.
  - apply next_ok. vm_compute. reflexivity.
  - vm_compute. reflexivity.
  - vm_compute. reflexivity.
Defined.

Lemma validation_keeps_funds_witness :
  bal validation_0 Egld ≤ bal (next dispatch (sample_env 30 7 9 1 5) (InitJob sample_cross [1] 4 None) validation_0) Egld.
Proof.
  apply (validation_keeps_funds (sample_env 30 7 9 1 5) (InitJob sample_cross [1] 4 None)).
  - constructor.
  - apply next_ok. vm_compute. reflexivity.
Defined.

(** A job can be verified without any proof: [validationRequest] does not look at
    the status, so a New job goes to the validator directly. *)
Lemma verified_without_proof :
  ∃ w job, validation_reachable [20] w ∧ job_data (st w) !! [1] = Some job ∧
           j_status job = Verified ∧ j_proof job = [].
Proof.
  exists validation_2. eexists. split; [|split; [by vm_compute|done]].
  apply next_reachable; [apply validation_1_reachable|exact I|by vm_compute].
Qed.

(** A response above 100 is accepted. *)
Lemma response_unbounded :
  is_ok (invoke (sample_env 20 7 9 3 0) (dispatch (sample_env 20 7 9 3 0) (respond 255)) validation_1) = true.
Proof. by vm_compute. Qed.
