(* ===== verification/Identity.v ===== *)
(** The identity registry of the Agent Shield
    (contracts/xcron-agent-shield/identity-registry/src): agents are NFTs minted
    to their owner; the registry keeps owner, details, metadata and services. *)

From S2P Require Import Prelude Sdk Types AgentTypes.

(** ** storage.rs

    [agents] is the content of a [BiDiMapper], from ids to values. *)

Record State := MkState {
  agent_token_id : option token_id;
  agents : gmap N address;
  agent_details : gmap N AgentDetails;
  agent_metadata : gmap (N * bytes) bytes;
  agent_service_config : gmap (N * N) payment;
}.
#[export] Instance State_eta : Settable State := λ s,
  MkState (agent_token_id s) (agents s) (agent_details s) (agent_metadata s) (agent_service_config s).

Definition empty_state : State := MkState None ∅ ∅ ∅ ∅.

Inductive Event : Type :=
| agent_registered_event (owner : address) (nonce : N) (data : AgentRegisteredEventData)
| agent_updated_event (nonce : N)
| metadata_updated_event (nonce : N)
| service_configs_updated_event (nonce : N).

(** The callback of the SDK's issue module. *)
Inductive Callback : Type := default_issue_closure.

Canonical K : contract := Contract State Event Callback.
Implicit Types (e : env K) (w : world K) (s : State).

(** ** The parts of the SDK the registry relies on

    [BiDiMapper::insert], and the issue module that records the token the
    system contract issued. *)

Class BiDiMapper := bidi_insert : N → address → gmap N address → gmap N address.
Class IssueModule := {
  esdt_system_sc : address;
  issue_endpoint : bytes;
  issue_arguments : bytes → bytes → list arg;
  default_issue_cb : option token_id → option token_id → option token_id;
}.

(** The documented behaviour of [insert]: the mapping is one to one; a pair
    with an id or a value that is present is not inserted. *)
Class BiDiLaws `{BiDiMapper} : Prop := {
  bidi_insert_fresh n a m :
    m !! n = None → (∀ n', m !! n' ≠ Some a) → bidi_insert n a m = <[n := a]> m;
  bidi_insert_present n a m :
    is_Some (m !! n) ∨ (∃ n', m !! n' = Some a) → bidi_insert n a m = m;
}.

Definition contains_value (m : gmap N address) (a : address) : bool :=
  bool_decide (a ∈ (map_to_list m).*2).
(** [get_id]: 0 when the value is absent. *)
Definition get_id (m : gmap N address) (a : address) : N :=
  from_option fst 0 (snd <$> list_find (λ p, p.2 = a) (map_to_list m)).

(** ** errors.rs *)

Definition ERR_NOT_OWNER : string := ERR_NOT_AGENT_OWNER.
Definition ERR_TOKEN_ALREADY_ISSUED : string := "Token already issued".
Definition ERR_TOKEN_NOT_ISSUED : string := "Token not issued".
Definition ERR_AGENT_ALREADY_REGISTERED : string := "Agent already registered for this address".
Definition ERR_INVALID_NFT : string := "Invalid NFT sent".

Section code.
Context `{Sdk} `{BiDiMapper} `{IssueModule}.

Definition init e : M K unit := mret ().
Definition upgrade e : M K unit := mret ().

Definition issue_token e (token_display_name token_ticker : bytes) : M K unit :=
  only_owner e;;
  payable_egld e;;
  s ← get_st;
  require (agent_token_id s = None) ERR_TOKEN_ALREADY_ISSUED;;
  let issue_cost := egld_value e in
  register_promise esdt_system_sc issue_endpoint
    (issue_arguments token_display_name token_ticker) issue_cost 0 (Some default_issue_closure) 0.

(** [require!(!self.agent_token_id().is_empty())] and [get_token_id()] *)
Definition require_issued : M K token_id :=
  s ← get_st;
  match agent_token_id s with
  | Some token => mret token
  | None => throw ERR_TOKEN_NOT_ISSUED
  end.

(** ** utils.rs *)

Definition require_agent_owner e (nonce : N) : M K address :=
  s ← get_st;
  owner ← sv_get empty_address (agents s !! nonce);
  require (caller e = owner) ERR_NOT_OWNER;;
  mret (caller e).

Definition sync_metadata (nonce : N) (entries : list MetadataEntry) : M K unit :=
  for_each entries (λ entry,
    modify (λ s : State, s <| agent_metadata ::= <[(nonce, m_key entry) := m_value entry]> |>)).

Definition sync_service_configs (nonce : N) (configs : list ServiceConfigInput) : M K unit :=
  for_each configs (λ config,
    require (0 < sc_price config) "NonZeroBigUint: zero";;
    let pay := Payment (sc_token config) (sc_nonce config) (sc_price config) in
    modify (λ s : State, s <| agent_service_config ::= <[(nonce, sc_service_id config) := pay]> |>)).

(** ** lib.rs: [created] is the nonce the protocol gives to the new NFT *)

Definition register_agent e (created : N) (name uri public_key : bytes)
    (metadata : list MetadataEntry) (services : list ServiceConfigInput) : M K unit :=
  not_payable e;;
  token ← require_issued;
  s ← get_st;
  require (contains_value (agents s) (caller e) = false) ERR_AGENT_ALREADY_REGISTERED;;
  let details := MkAgentDetails name public_key in
  mint (Esdt token created) 1;;
  modify (λ s : State, s <| agents ::= bidi_insert created (caller e) |>);;
  modify (λ s : State, s <| agent_details ::= <[created := details]> |>);;
  sync_metadata created metadata;;
  sync_service_configs created services;;
  emit (agent_registered_event (caller e) created (MkAgentRegisteredEventData name uri));;
  direct_esdt (caller e) token created 1.

(** The call value must be the agent's NFT. *)
Definition nft_payment e (token : token_id) : M K N :=
  pay ← single_esdt e;
  require (token_identifier pay = token) ERR_INVALID_NFT;;
  mret (token_nonce pay).

Definition if_some {A} (o : option A) (f : A → M K unit) : M K unit :=
  match o with Some a => f a | None => mret () end.

(** [self.send().esdt_metadata_recreate(..)]: a built-in function of the
    protocol, called on the contract itself. *)
Definition metadata_recreate e (token : token_id) (nonce : N) (name public_key uri : bytes) : M K unit :=
  perform (TransferExecute (sc_address e) "ESDTMetaDataRecreate"
    [ArgBuf (string_bytes token); ArgNum nonce; ArgBuf name; ArgNum 0; ArgBuf public_key; ArgBuf []; ArgBuf uri] 0 0).

Definition update_agent e (new_name new_uri new_public_key : bytes)
    (metadata : option (list MetadataEntry)) (services : option (list ServiceConfigInput)) : M K unit :=
  token ← require_issued;
  nonce ← nft_payment e token;
  s ← get_st;
  owner ← sv_get empty_address (agents s !! nonce);
  require (caller e = owner) ERR_NOT_OWNER;;
  metadata_recreate e token nonce new_name new_public_key new_uri;;
  if_some metadata (sync_metadata nonce);;
  if_some services (sync_service_configs nonce);;
  direct_esdt (caller e) token nonce 1;;
  emit (agent_updated_event nonce).

Definition sync_ownership e : M K unit :=
  token ← require_issued;
  nonce ← nft_payment e token;
  modify (λ s : State, s <| agents ::= bidi_insert nonce (caller e) |>);;
  direct_esdt (caller e) token nonce 1;;
  emit (agent_updated_event nonce).

Definition set_metadata e (nonce : N) (entries : list MetadataEntry) : M K unit :=
  not_payable e;;
  require_issued;;
  require_agent_owner e nonce;;
  sync_metadata nonce entries;;
  emit (metadata_updated_event nonce).

Definition set_service_configs_endpoint e (nonce : N) (configs : list ServiceConfigInput) : M K unit :=
  not_payable e;;
  require_issued;;
  require_agent_owner e nonce;;
  sync_service_configs nonce configs;;
  emit (service_configs_updated_event nonce).

Definition remove_metadata e (nonce : N) (keys : list bytes) : M K unit :=
  not_payable e;;
  require_issued;;
  require_agent_owner e nonce;;
  for_each keys (λ key, modify (λ s : State, s <| agent_metadata ::= delete (nonce, key) |>));;
  emit (metadata_updated_event nonce).

Definition remove_service_configs e (nonce : N) (service_ids : list N) : M K unit :=
  not_payable e;;
  require_issued;;
  require_agent_owner e nonce;;
  for_each service_ids (λ sid, modify (λ s : State, s <| agent_service_config ::= delete (nonce, sid) |>));;
  emit (service_configs_updated_event nonce).

(** ** views.rs *)

Definition get_agent `{AgentCodec} (nonce : N) : M K AgentDetails :=
  s ← get_st;
  require (is_Some (agents s !! nonce)) ERR_AGENT_NOT_FOUND;;
  sv_get empty_agent_details (agent_details s !! nonce).
Definition get_agent_owner (nonce : N) : M K address :=
  s ← get_st;
  require (is_Some (agents s !! nonce)) ERR_AGENT_NOT_FOUND;;
  sv_get empty_address (agents s !! nonce).
Definition get_metadata s (nonce : N) (key : bytes) : option bytes := agent_metadata s !! (nonce, key).
Definition get_agent_service_config s (nonce service_id : N) : option payment :=
  agent_service_config s !! (nonce, service_id).

(** ** The contract as a machine *)

Inductive Call : Type :=
| IssueToken (token_display_name token_ticker : bytes)
| RegisterAgent (created : N) (name uri public_key : bytes)
    (metadata : list MetadataEntry) (services : list ServiceConfigInput)
| UpdateAgent (new_name new_uri new_public_key : bytes)
    (metadata : option (list MetadataEntry)) (services : option (list ServiceConfigInput))
| SyncOwnership
| SetMetadata (nonce : N) (entries : list MetadataEntry)
| SetServiceConfigs (nonce : N) (configs : list ServiceConfigInput)
| RemoveMetadata (nonce : N) (keys : list bytes)
| RemoveServiceConfigs (nonce : N) (service_ids : list N)
| IssueCallback (issued : option token_id)
| Upgrade.

Definition dispatch e (c : Call) : M K unit :=
  match c with
  | IssueToken n t => issue_token e n t
  | RegisterAgent c n u k m v => register_agent e c n u k m v
  | UpdateAgent n u k m v => update_agent e n u k m v
  | SyncOwnership => sync_ownership e
  | SetMetadata n m => set_metadata e n m
  | SetServiceConfigs n v => set_service_configs_endpoint e n v
  | RemoveMetadata n ks => remove_metadata e n ks
  | RemoveServiceConfigs n ids => remove_service_configs e n ids
  | IssueCallback issued => modify (λ s : State, s <| agent_token_id ::= default_issue_cb issued |>)
  | Upgrade => upgrade e
  end.

Definition identity_deployed w : Prop := st w = empty_state ∧ log w = [].

(** The protocol gives a new NFT a positive nonce that is not in use, and the
    NFTs of the collection are those that [register_agent] minted. *)
Definition protocol_rules e (c : Call) w : Prop :=
  match c with
  | RegisterAgent created _ _ _ _ _ => created ≠ 0 ∧ agents (st w) !! created = None
  | SyncOwnership => ∀ p, esdt_transfers e = [p] → agent_token_id (st w) = Some (token_identifier p) →
                     is_Some (agents (st w) !! token_nonce p)
  | _ => True
  end.
Definition identity_reachable : world K → Prop := reachable dispatch identity_deployed protocol_rules.
End code.
