(* ===== verification/IdentityProps.v ===== *)
(** Properties of the identity registry: its well-formedness, who can change
    the data of an agent, and what never changes. *)

From S2P Require Import Prelude Sdk Types AgentTypes Identity.

Implicit Types (e : env K) (w : world K) (s : State).

(** ** Updates confined to the data of one agent *)

Definition positive (p : payment) : Prop := 0 < amount p.

Record touches (n : N) s s' : Prop := {
  t_token : agent_token_id s' = agent_token_id s;
  t_agents : agents s' = agents s;
  t_details : agent_details s' = agent_details s;
  t_metadata n' k : n' ≠ n → agent_metadata s' !! (n', k) = agent_metadata s !! (n', k);
  t_services n' i : n' ≠ n → agent_service_config s' !! (n', i) = agent_service_config s !! (n', i);
  t_positive : map_Forall (λ _, positive) (agent_service_config s) →
               map_Forall (λ _, positive) (agent_service_config s');
}.

#[export] Instance touches_preorder n : PreOrder (touches n).
Proof.
  split; [by constructor|]. intros s1 s2 s3 [H1 H2 H3 H4 H5 H6] [H1' H2' H3' H4' H5' H6'].
  constructor; [congruence..| | |auto]; intros n' k Hn; [rewrite H4' by done|rewrite H5' by done]; auto.
Qed.

(** The well-formed registries. *)
Record well_formed s : Prop := {
  wf_one_to_one n m a : agents s !! n = Some a → agents s !! m = Some a → n = m;
  wf_details n : is_Some (agent_details s !! n) ↔ is_Some (agents s !! n);
  wf_metadata n k : is_Some (agent_metadata s !! (n, k)) → is_Some (agents s !! n);
  wf_services n i : is_Some (agent_service_config s !! (n, i)) → is_Some (agents s !! n);
  wf_positive : map_Forall (λ _, positive) (agent_service_config s);
}.

(** Owner and details of a registered agent stay; its other data may only be
    changed by [who], its owner. *)
Definition guarded (who : address) s s' : Prop :=
  ∀ n a, agents s !! n = Some a →
    agents s' !! n = Some a ∧ agent_details s' !! n = agent_details s !! n ∧
    (who ≠ a → (∀ k, agent_metadata s' !! (n, k) = agent_metadata s !! (n, k)) ∧
               (∀ i, agent_service_config s' !! (n, i) = agent_service_config s !! (n, i))).

Lemma touches_wf n s s' : touches n s s' → is_Some (agents s !! n) → well_formed s → well_formed s'.
Proof.
  intros [_ Ha Hd Hm Hs Hp] Hn [H1 H2 H3 H4 H5]. constructor; rewrite ?Ha, ?Hd; auto.
  - intros n' k Hk. destruct (decide (n' = n)) as [->|Hne]; [done|]. rewrite Hm in Hk by done. eauto.
  - intros n' i Hi. destruct (decide (n' = n)) as [->|Hne]; [done|]. rewrite Hs in Hi by done. eauto.
Qed.

Lemma touches_guarded who n s s' : touches n s s' → agents s !! n = Some who → guarded who s s'.
Proof.
  intros [_ Ha Hd Hm Hs _] Hn n' a Hn'. rewrite Ha, Hd. split_and!; [done..|].
  intros Hne. assert (n' ≠ n) by (intros ->; congruence). split; intros; [by apply Hm|by apply Hs].
Qed.

Lemma guarded_same who s s' :
  agents s' = agents s → agent_details s' = agent_details s → agent_metadata s' = agent_metadata s →
  agent_service_config s' = agent_service_config s → guarded who s s'.
Proof. intros Ha Hd Hm Hs n a Hn. by rewrite Ha, Hd, Hm, Hs. Qed.

Lemma identity_wf_same s s' :
  agents s' = agents s → agent_details s' = agent_details s → agent_metadata s' = agent_metadata s →
  agent_service_config s' = agent_service_config s → well_formed s → well_formed s'.
Proof. intros Ha Hd Hm Hs [?????]. by constructor; rewrite ?Ha, ?Hd, ?Hm, ?Hs. Qed.

Lemma not_contains_value (m : gmap N address) a :
  contains_value m a = false → ∀ n, m !! n ≠ Some a.
Proof.
  intros Hc%bool_decide_eq_false n Hn. apply Hc. apply list_elem_of_fmap.
  exists (n, a). split; [done|]. by apply elem_of_map_to_list.
Qed.

Section code_lemmas.
Context `{StrictSdk} `{BiDiMapper} `{IssueModule}.

(** The loops over metadata and services. *)
Lemma touching_loop {A} n (l : list A) (f : A → M K unit) (Q : unit → world K → Prop) w :
  (∀ x w, wp (f x) (λ _ w', touches n (st w) (st w') ∧ bal w' = bal w) any_error w) →
  (∀ w', touches n (st w) (st w') → bal w' = bal w → Q () w') →
  wp (for_each l f) Q any_error w.
Proof.
  intros Hf HQ. eapply wp_mono.
  - apply (wp_for_each (λ w', touches n (st w) (st w') ∧ bal w' = bal w)); [|by split].
    intros x w1 _ [Ht Hb]. eapply wp_mono; [apply Hf|]. intros a w2 [Ht' Hb'].
    split; [by etrans|congruence].
  - intros [] w' [??]. by apply HQ.
Qed.

Lemma wp_sync_metadata n entries (Q : unit → world K → Prop) w :
  (∀ w', touches n (st w) (st w') → bal w' = bal w → Q () w') →
  wp (sync_metadata n entries) Q any_error w.
Proof.
  apply touching_loop. intros x w1. wp_go. split; [|done]. constructor; try done.
  intros n' k Hne. simpl. rewrite lookup_insert_ne; [done|congruence].
Qed.

Lemma wp_sync_services n configs (Q : unit → world K → Prop) w :
  (∀ w', touches n (st w) (st w') → bal w' = bal w → Q () w') →
  wp (sync_service_configs n configs) Q any_error w.
Proof.
  apply touching_loop. intros x w1. wp_go. split; [|done]. constructor; try done.
  - intros n' i Hne. simpl. rewrite lookup_insert_ne; [done|congruence].
  - intros Hp. simpl. by apply map_Forall_insert_2.
Qed.

Lemma wp_remove_metadata n keys (Q : unit → world K → Prop) w :
  (∀ w', touches n (st w) (st w') → bal w' = bal w → Q () w') →
  wp (for_each keys (λ key, modify (λ s : State, s <| agent_metadata ::= delete (n, key) |>))) Q any_error w.
Proof.
  apply touching_loop. intros x w1. wp_go. split; [|done]. constructor; try done.
  intros n' k Hne. simpl. rewrite lookup_delete_ne; [done|congruence].
Qed.

Lemma wp_remove_services n ids (Q : unit → world K → Prop) w :
  (∀ w', touches n (st w) (st w') → bal w' = bal w → Q () w') →
  wp (for_each ids (λ sid, modify (λ s : State, s <| agent_service_config ::= delete (n, sid) |>))) Q any_error w.
Proof.
  apply touching_loop. intros x w1. wp_go. split; [|done]. constructor; try done.
  - intros n' i Hne. simpl. rewrite lookup_delete_ne; [done|congruence].
  - intros Hp. simpl. by apply map_Forall_delete.
Qed.

Lemma wp_require_issued (Q : token_id → world K → Prop) w :
  (∀ t, agent_token_id (st w) = Some t → Q t w) → wp require_issued Q any_error w.
Proof. intros HQ. unfold require_issued. wp_go. destruct (agent_token_id (st w)); [by apply HQ|done]. Qed.

Lemma wp_require_agent_owner e n (Q : address → world K → Prop) w :
  (agents (st w) !! n = Some (caller e) → Q (caller e) w) → wp (require_agent_owner e n) Q any_error w.
Proof.
  intros HQ. unfold require_agent_owner. wp_go. apply HQ.
  match goal with Ha : _ ∨ _ |- _ => rewrite strict_address in Ha; naive_solver end.
Qed.

Lemma wp_if_metadata n o (Q : unit → world K → Prop) w :
  (∀ w', touches n (st w) (st w') → bal w' = bal w → Q () w') →
  wp (if_some o (sync_metadata n)) Q any_error w.
Proof. intros HQ. destruct o; cbn [if_some]; [by apply wp_sync_metadata|]. wp_go. by apply HQ. Qed.

Lemma wp_if_services n o (Q : unit → world K → Prop) w :
  (∀ w', touches n (st w) (st w') → bal w' = bal w → Q () w') →
  wp (if_some o (sync_service_configs n)) Q any_error w.
Proof. intros HQ. destruct o; cbn [if_some]; [by apply wp_sync_services|]. wp_go. by apply HQ. Qed.

Lemma wp_nft_payment e t (Q : N → world K → Prop) w :
  (∀ p, esdt_transfers e = [p] → token_identifier p = t → Q (token_nonce p) w) →
  wp (nft_payment e t) Q any_error w.
Proof. intros HQ. unfold nft_payment. wp_go. by apply HQ. Qed.

(** What every transaction does to the registered agents. *)
Definition sound_step e s s' : Prop := guarded (caller e) s s' ∧ (well_formed s → well_formed s').

Lemma sound_touches e n s s' :
  touches n s s' → agents s !! n = Some (caller e) → sound_step e s s'.
Proof. intros Ht Hn. split; [by eapply touches_guarded|]. eapply touches_wf; [done|by rewrite Hn]. Qed.

Lemma sound_same e s s' :
  agents s' = agents s → agent_details s' = agent_details s → agent_metadata s' = agent_metadata s →
  agent_service_config s' = agent_service_config s → sound_step e s s'.
Proof. intros. split; [by apply guarded_same|by apply identity_wf_same]. Qed.

Lemma sound_register e s created details s' :
  agents s !! created = None → contains_value (agents s) (caller e) = false →
  touches created (s <| agents := <[created := caller e]> (agents s) |>
                     <| agent_details := <[created := details]> (agent_details s) |>) s' →
  sound_step e s s'.
Proof.
  intros Hfr Hno [_ Ha Hd Hm Hs Hp]. simpl in *. pose proof (not_contains_value _ _ Hno) as Hnew.
  split.
  - intros n a Hn. assert (Hne : n ≠ created) by congruence.
    rewrite Ha, Hd, !lookup_insert_ne by done. split_and!; [done..|]. intros _.
    split; intros; [by apply Hm|by apply Hs].
  - intros [H1' H2' H3' H4' H5']. constructor; rewrite ?Ha, ?Hd.
    + intros n m a. rewrite !lookup_insert_Some. naive_solver.
    + intros n. rewrite !lookup_insert_is_Some. rewrite H2'. done.
    + intros n k Hk. rewrite lookup_insert_is_Some. destruct (decide (created = n)); [by left|right].
      split; [done|]. rewrite Hm in Hk by done. eauto.
    + intros n i Hk. rewrite lookup_insert_is_Some. destruct (decide (created = n)); [by left|right].
      split; [done|]. rewrite Hs in Hk by done. eauto.
    + auto.
Qed.
End code_lemmas.

Section dispatch.
Context `{StrictSdk} `{BiDiLaws} `{IssueModule}.

Lemma rules_credit e c w : protocol_rules e c w → protocol_rules e c (credit e w).
Proof. destruct c; simpl; by rewrite ?st_credit. Qed.

Lemma dispatch_sound e c w :
  protocol_rules e c w → wp (dispatch e c) (λ _ w', sound_step e (st w) (st w')) any_error w.
Proof.
  intros Hfr. destruct c; cbn [dispatch].
  - unfold issue_token. wp_go. by apply sound_same.
  - destruct Hfr as [_ Hfr]. unfold register_agent. wp_go. apply wp_require_issued. intros t _. wp_go.
    match goal with Hc : contains_value _ _ = false |- _ => rename Hc into Hno end.
    apply wp_sync_metadata. intros w1 Ht1 _. wp_go. apply wp_sync_services. intros w2 Ht2 _. wp_go.
    apply (sound_register e _ created (MkAgentDetails name public_key)); [done|done|].
    unfold rset in Ht1. simpl in Ht1. rewrite bidi_insert_fresh in Ht1 by (try done; by apply not_contains_value).
    etrans; [exact Ht1|exact Ht2].
  - unfold update_agent, metadata_recreate. wp_go. apply wp_require_issued. intros t _. wp_go.
    apply wp_nft_payment. intros p _ _. wp_go. apply wp_if_metadata. intros w1 Ht1 _. wp_go.
    apply wp_if_services. intros w2 Ht2 _. wp_go. simpl in Ht1.
    apply (sound_touches e (token_nonce p)); [by etrans|].
    match goal with Ha : _ ∨ _ |- _ => rewrite strict_address in Ha; naive_solver end.
  - unfold sync_ownership. wp_go. apply wp_require_issued. intros t Ht. wp_go.
    apply wp_nft_payment. intros p Hp Hpt. wp_go.
    apply sound_same; try done. simpl. apply bidi_insert_present. left.
    apply (Hfr p Hp). by rewrite Hpt.
  - unfold set_metadata. wp_go. apply wp_require_issued. intros t _. wp_go.
    apply wp_require_agent_owner. intros Hn. wp_go. apply wp_sync_metadata. intros w1 Ht1 _. wp_go.
    by apply (sound_touches e nonce).
  - unfold set_service_configs_endpoint. wp_go. apply wp_require_issued. intros t _. wp_go.
    apply wp_require_agent_owner. intros Hn. wp_go. apply wp_sync_services. intros w1 Ht1 _. wp_go.
    by apply (sound_touches e nonce).
  - unfold remove_metadata. wp_go. apply wp_require_issued. intros t _. wp_go.
    apply wp_require_agent_owner. intros Hn. wp_go. apply wp_remove_metadata. intros w1 Ht1 _. wp_go.
    by apply (sound_touches e nonce).
  - unfold remove_service_configs. wp_go. apply wp_require_issued. intros t _. wp_go.
    apply wp_require_agent_owner. intros Hn. wp_go. apply wp_remove_services. intros w1 Ht1 _. wp_go.
    by apply (sound_touches e nonce).
  - wp_go. by apply sound_same.
  - unfold upgrade. wp_go. by apply sound_same.
Qed.
End dispatch.

Section properties.
Context `{StrictSdk} `{BiDiLaws} `{IssueModule}.

Lemma identity_wf_reachable w : identity_reachable w → well_formed (st w).
Proof.
  apply (reachable_inv _ _ _ (λ w, well_formed (st w))).
  - intros w' [-> _]. constructor; simpl; intros *; rewrite ?lookup_empty; try done;
      try (by intros [? ?]); by split; intros [? ?].
  - intros w' e c Hw Hr. eapply wp_mono.
    + by apply dispatch_sound, rules_credit.
    + intros a w1 [_ Hwf]. apply Hwf. by rewrite st_credit.
  - done.
Qed.

(** C24: the registry is well formed in every reachable state: an address owns at
    most one agent, exactly the registered agents have details, metadata and
    services belong to registered agents, and a service has a positive price. *)
Theorem identity_well_formed w : identity_reachable w → well_formed (st w).
Proof. apply identity_wf_reachable. Qed.

(** C19: the data of an agent is guarded.  Whatever a transaction does, a
    registered agent keeps its owner and its details, and its metadata and
    services change only when its recorded owner calls.  In particular
    [sync_ownership] does not give the agent to the new holder of its NFT, who
    stays unable to touch it, and [update_agent] does not replace the
    recorded public key. *)
Theorem agent_data_guarded e c w w' :
  protocol_rules e c w → invoke e (dispatch e c) w = Ok ((), w') → guarded (caller e) (st w) (st w').
Proof.
  intros Hr Hi. rewrite <-(st_credit e w).
  apply (wp_ok _ (λ _ w', guarded (caller e) (st (credit e w)) (st w')) any_error _ _ _) in Hi; [done|].
  eapply wp_mono; [by apply dispatch_sound, rules_credit|by intros a w1 [? _]].
Qed.
End properties.

(** ** Witnesses: agent 4 of owner 40 is sold to 41, who sends its NFT *)

#[local] Existing Instance sample_sdk.
#[local] Existing Instance sample_strict.
#[local] Instance sample_bidi : BiDiMapper := λ n a m,
  if decide (is_Some (m !! n)) then m else if contains_value m a then m else <[n := a]> m.
#[local] Instance sample_bidi_laws : BiDiLaws.
Proof.
  split; unfold bidi_insert, sample_bidi; intros n a m.
  - intros Hn Hno. rewrite decide_False by (rewrite Hn; by intros [? ?]).
    unfold contains_value. rewrite bool_decide_eq_false_2; [done|].
    intros [[n' a'] [Heq Hin]]%list_elem_of_fmap. simpl in Heq. subst a'.
    apply (Hno n'). by apply elem_of_map_to_list in Hin.
  - intros [Hn|[n' Hn']]; case_decide; try done.
    unfold contains_value. rewrite bool_decide_eq_true_2; [done|].
    apply list_elem_of_fmap. exists (n', a). split; [done|]. by apply elem_of_map_to_list.
Qed.
#[local] Instance sample_issue : IssueModule := {|
  esdt_system_sc := 1; issue_endpoint := string_bytes "registerAndSetAllRoles";
  issue_arguments := λ n t, [ArgBuf n; ArgBuf t]; default_issue_cb := λ i _, i |}.

Definition sample_collection : token_id := "AGENT-123456".
Definition identity_0 : world K := World empty_state (λ _, 0) [].
Definition identity_1 : world K := next dispatch (sample_env 1 7 9 0 0) (IssueCallback (Some sample_collection)) identity_0.
Definition identity_2 : world K :=
  next dispatch (sample_env 40 7 9 1 0) (RegisterAgent 4 [65] [] [1; 2] [MkMetadataEntry [1] [2]] []) identity_1.
(** The call of the buyer, with the NFT. *)
Definition buyer_env : env K :=
  Env 41 7 9 2 2000 0 0 [] 1000000000 0 [Payment sample_collection 4 1] (λ _ _ _ _ w, Some ([], w)).

Lemma identity_2_reachable : identity_reachable identity_2.
Proof.
  apply next_reachable; [|split; [done|by vm_compute]|by vm_compute].
  apply next_reachable; [|exact I|by vm_compute]. by apply reach_deployed.
Qed.

Lemma buyer_rules : protocol_rules buyer_env SyncOwnership identity_2.
Proof. intros p Hp _. injection Hp as <-. exists 40. by vm_compute. Qed.

Lemma identity_well_formed_witness : well_formed (st identity_2).
Proof. apply identity_well_formed. apply identity_2_reachable. Defined.

Lemma agent_data_guarded_witness :
  agents (st (next dispatch buyer_env SyncOwnership identity_2)) !! 4 = Some 40.
Proof.
  assert (Hg : guarded 41 (st identity_2) (st (next dispatch buyer_env SyncOwnership identity_2))).
  { apply (agent_data_guarded buyer_env SyncOwnership identity_2).
    - apply buyer_rules.
    - apply next_ok. vm_compute. reflexivity. }
  destruct (Hg 4 40) as [Ha _]; [vm_compute; reflexivity|exact Ha].
Defined.
