(* ===== verification/Reputation.v ===== *)
(** The reputation registry of the Agent Shield
    (contracts/xcron-agent-shield/reputation-registry/src): scores given by the
    employers of jobs, raw feedback signals, and the valuation of agents. *)

From S2P Require Import Prelude Sdk Types AgentTypes.

(** ** structs.rs and storage.rs *)

Record FeedbackData := MkFeedbackData {
  fb_value : Z;
  fb_value_decimals : N;
  fb_tag1 : bytes;
  fb_tag2 : bytes;
  fb_is_revoked : bool;
}.
#[export] Instance FeedbackData_eta : Settable FeedbackData := λ r,
  MkFeedbackData (fb_value r) (fb_value_decimals r) (fb_tag1 r) (fb_tag2 r) (fb_is_revoked r).

Record State := MkState {
  reputation_score : gmap N N;
  total_jobs : gmap N N;
  validation_contract_address : option address;
  identity_contract_address : option address;
  has_given_feedback : gmap bytes bool;
  agent_response : gmap bytes bytes;
  feedback_data : gmap (N * address * N) FeedbackData;
  last_feedback_index : gmap (N * address) N;
  feedback_clients : gmap N (list address);
}.
#[export] Instance State_eta : Settable State := λ s,
  MkState (reputation_score s) (total_jobs s) (validation_contract_address s)
    (identity_contract_address s) (has_given_feedback s) (agent_response s) (feedback_data s)
    (last_feedback_index s) (feedback_clients s).

Definition empty_state : State := MkState ∅ ∅ None None ∅ ∅ ∅ ∅ ∅.

(** ** events.rs *)

Record NewFeedbackEventData := MkNewFeedbackEventData {
  nf_feedback_index : N;
  nf_value : Z;
  nf_value_decimals : N;
  nf_tag1 : bytes;
  nf_tag2 : bytes;
  nf_endpoint : bytes;
  nf_feedback_uri : bytes;
  nf_feedback_hash : bytes;
}.

Inductive Event : Type :=
| reputation_updated_event (agent_nonce new_score : N)
| new_feedback_event (agent_nonce : N) (client : address) (data : NewFeedbackEventData)
| feedback_revoked_event (agent_nonce : N) (client : address) (feedback_index : N)
| response_appended_event (agent_nonce : N) (client : address) (feedback_index : N).

Canonical K : contract := Contract State Event Empty_set.
Implicit Types (e : env K) (w : world K) (s : State) (x : CrossContract).

(** ** errors.rs *)

Definition ERR_NOT_EMPLOYER : string := "Only the employer can provide feedback".
Definition ERR_FEEDBACK_ALREADY_PROVIDED : string := "Feedback already provided for this job".
Definition ERR_AGENT_OWNER_CANNOT_SELF_REVIEW : string := "Agent owner cannot give feedback to own agent".
Definition ERR_INVALID_VALUE_DECIMALS : string := "Value decimals must be 0-18".
Definition ERR_FEEDBACK_NOT_FOUND : string := "Feedback not found".
Definition ERR_FEEDBACK_ALREADY_REVOKED : string := "Feedback already revoked".

Section code.
Context `{Sdk}.

Definition init e (validation_contract identity_contract : address) : M K unit :=
  modify (λ s : State, s <| validation_contract_address := Some validation_contract |>
                         <| identity_contract_address := Some identity_contract |>).

Definition upgrade e : M K unit := mret ().

(** ** config.rs *)

Definition set_identity_contract_address e (addr : address) : M K unit :=
  not_payable e;;
  only_owner e;;
  modify (λ s : State, s <| identity_contract_address := Some addr |>).

Definition set_validation_contract_address e (addr : address) : M K unit :=
  not_payable e;;
  only_owner e;;
  modify (λ s : State, s <| validation_contract_address := Some addr |>).

(** ** utils.rs *)

(** The cumulative moving average [(current * (n - 1) + rating) / n]. *)
Definition calculate_new_score (agent_nonce rating : N) : M K N :=
  s ← get_st;
  let total := u64_add (nget (total_jobs s) agent_nonce) 1 in
  modify (λ s : State, s <| total_jobs ::= <[agent_nonce := total]> |>);;
  let current_score := nget (reputation_score s) agent_nonce in
  prev_total ← biguint_sub total 1;
  mret ((current_score * prev_total + rating) / total).

(** ** lib.rs *)

(** Reading the job in the storage of the validation registry. *)
Definition read_job x (job_id : bytes) : M K JobData :=
  s ← get_st;
  validation_addr ← sv_get empty_address (validation_contract_address s);
  match external_job_data x validation_addr job_id with
  | Some job => mret job
  | None => throw ERR_JOB_NOT_FOUND
  end.

Definition given s (job_id : bytes) : bool := default false (has_given_feedback s !! job_id).

Definition give_feedback_simple e x (job_id : bytes) (agent_nonce rating : N) : M K unit :=
  not_payable e;;
  job ← read_job x job_id;
  require (caller e = j_employer job) ERR_NOT_EMPLOYER;;
  s ← get_st;
  require (given s job_id = false) ERR_FEEDBACK_ALREADY_PROVIDED;;
  new_score ← calculate_new_score agent_nonce rating;
  modify (λ s : State, s <| reputation_score ::= <[agent_nonce := new_score]> |>);;
  modify (λ s : State, s <| has_given_feedback ::= <[job_id := true]> |>);;
  emit (reputation_updated_event agent_nonce new_score).

Definition give_feedback e x (agent_nonce : N) (value : Z) (value_decimals : N)
    (tag1 tag2 endpoint feedback_uri feedback_hash : bytes) : M K unit :=
  not_payable e;;
  s ← get_st;
  identity_addr ← sv_get empty_address (identity_contract_address s);
  let opt_owner_nonce := external_agent_id x identity_addr (caller e) in
  require (opt_owner_nonce = 0 ∨ opt_owner_nonce ≠ agent_nonce) ERR_AGENT_OWNER_CANNOT_SELF_REVIEW;;
  require (value_decimals ≤ 18) ERR_INVALID_VALUE_DECIMALS;;
  let new_index := u64_add (nget (last_feedback_index s) (agent_nonce, caller e)) 1 in
  modify (λ s : State, s <| last_feedback_index ::= <[(agent_nonce, caller e) := new_index]> |>);;
  modify (λ s : State, s <| feedback_clients ::= λ m,
    <[agent_nonce := set_insert (caller e) (default [] (m !! agent_nonce))]> m |>);;
  let data := MkFeedbackData value value_decimals tag1 tag2 false in
  modify (λ s : State, s <| feedback_data ::= <[(agent_nonce, caller e, new_index) := data]> |>);;
  emit (new_feedback_event agent_nonce (caller e)
    (MkNewFeedbackEventData new_index value value_decimals tag1 tag2 endpoint feedback_uri feedback_hash)).

Definition revoke_feedback e (agent_nonce feedback_index : N) : M K unit :=
  not_payable e;;
  s ← get_st;
  match feedback_data s !! (agent_nonce, caller e, feedback_index) with
  | None => throw ERR_FEEDBACK_NOT_FOUND
  | Some data =>
      require (fb_is_revoked data = false) ERR_FEEDBACK_ALREADY_REVOKED;;
      modify (λ s : State, s <| feedback_data ::=
        <[(agent_nonce, caller e, feedback_index) := data <| fb_is_revoked := true |>]> |>);;
      emit (feedback_revoked_event agent_nonce (caller e) feedback_index)
  end.

Definition read_feedback (agent_nonce : N) (client : address) (feedback_index : N) : M K FeedbackData :=
  s ← get_st;
  match feedback_data s !! (agent_nonce, client, feedback_index) with
  | None => throw ERR_FEEDBACK_NOT_FOUND
  | Some data => mret data
  end.

Definition append_response e x (job_id response_uri : bytes) : M K unit :=
  not_payable e;;
  read_job x job_id;;
  modify (λ s : State, s <| agent_response ::= <[job_id := response_uri]> |>).

(** The value of an agent of this score: [annual earnings / APR * score / 100]. *)
Definition fair_value (rep_score net_monthly_earnings expected_apr_basis_points : N) : N :=
  let annual_earnings := net_monthly_earnings * 12 in
  let base_value := annual_earnings * 10000 / expected_apr_basis_points in
  let adjusted_score := if decide (rep_score = 0) then 80 else rep_score in
  base_value * adjusted_score / 100.

Definition evaluate_agent_fair_value (agent_nonce net_monthly_earnings expected_apr_basis_points : N)
  : M K N :=
  require (0 < expected_apr_basis_points) "Invalid Expected APR";;
  s ← get_st;
  mret (fair_value (nget (reputation_score s) agent_nonce) net_monthly_earnings expected_apr_basis_points).

(** Views of storage cells. *)
Definition get_reputation_score s (agent_nonce : N) : N := nget (reputation_score s) agent_nonce.
Definition get_total_jobs s (agent_nonce : N) : N := nget (total_jobs s) agent_nonce.
Definition get_agent_response s (job_id : bytes) : option bytes := agent_response s !! job_id.
Definition getLastIndex s (agent_nonce : N) (client : address) : N :=
  nget (last_feedback_index s) (agent_nonce, client).
Definition getClients s (agent_nonce : N) : list address := default [] (feedback_clients s !! agent_nonce).

(** ** The contract as a machine *)

Inductive Call : Type :=
| SetIdentityContractAddress (addr : address)
| SetValidationContractAddress (addr : address)
| GiveFeedbackSimple x (job_id : bytes) (agent_nonce rating : N)
| GiveFeedback x (agent_nonce : N) (value : Z) (value_decimals : N)
    (tag1 tag2 endpoint feedback_uri feedback_hash : bytes)
| RevokeFeedback (agent_nonce feedback_index : N)
| AppendResponse x (job_id response_uri : bytes)
| Upgrade.

Definition dispatch e (c : Call) : M K unit :=
  match c with
  | SetIdentityContractAddress a => set_identity_contract_address e a
  | SetValidationContractAddress a => set_validation_contract_address e a
  | GiveFeedbackSimple x j n r => give_feedback_simple e x j n r
  | GiveFeedback x n v d t1 t2 ep u h => give_feedback e x n v d t1 t2 ep u h
  | RevokeFeedback n i => revoke_feedback e n i
  | AppendResponse x j u => append_response e x j u
  | Upgrade => upgrade e
  end.

Definition reputation_deployed w : Prop :=
  ∃ e v i w0, st w0 = empty_state ∧ log w0 = [] ∧ init e v i w0 = Ok ((), w).
Definition reputation_reachable : world K → Prop :=
  reachable dispatch reputation_deployed (λ _ _ _, True).
End code.
