(* ===== verification/ReputationProps.v ===== *)
(** Properties of the reputation registry: the score of an agent, and the
    append-only log of raw feedback. *)

From S2P Require Import Prelude Sdk Types AgentTypes Reputation.

Implicit Types (e : env K) (w : world K) (s : State) (x : CrossContract).

(** [(current * k + rating) / (k + 1)] lies between its arguments. *)
Lemma moving_average_between current k rating :
  N.min current rating ≤ (current * k + rating) / (k + 1) ∧
  (current * k + rating) / (k + 1) ≤ N.max current rating.
Proof. split; [apply N.div_le_lower_bound; nia|apply N.Div0.div_le_upper_bound; nia]. Qed.

Section simple.
Context `{StrictSdk}.

Lemma wp_read_job x j (Q : JobData → world K → Prop) w :
  (∀ a job, validation_contract_address (st w) = Some a → external_job_data x a j = Some job → Q job w) →
  wp (read_job x j) Q any_error w.
Proof.
  intros HQ. unfold read_job. wp_go.
  match goal with Ha : _ ∨ _ |- _ => rewrite strict_address in Ha; destruct Ha as [Ha|[_ [=]]] end.
  match goal with |- wp (match ?o with _ => _ end) _ _ _ => destruct o eqn:Hj end; [|done].
  by eapply HQ.
Qed.

Lemma given_insert s j j' m : has_given_feedback s = <[j := true]> m →
  given s j' = if decide (j = j') then true else default false (m !! j').
Proof. unfold given. intros ->. case_decide; [subst; by rewrite lookup_insert_eq|by rewrite lookup_insert_ne]. Qed.

Lemma simple_feedback_wp e x j n r (Q : unit → world K → Prop) w :
  (∀ w' a job, validation_contract_address (st w) = Some a → external_job_data x a j = Some job →
     caller e = j_employer job → given (st w) j = false →
     let total := u64_add (nget (total_jobs (st w)) n) 1 in
     1 ≤ total →
     let new := (nget (reputation_score (st w)) n * (total - 1) + r) / total in
     st w' = (st w) <| total_jobs ::= <[n := total]> |> <| reputation_score ::= <[n := new]> |>
                    <| has_given_feedback ::= <[j := true]> |> → Q () w') →
  wp (give_feedback_simple e x j n r) Q any_error w.
Proof.
  intros HQ. unfold give_feedback_simple. wp_go. apply wp_read_job. intros a job Ha Hj. wp_go.
  unfold calculate_new_score. wp_go. by eapply HQ.
Qed.

(** Conditions under which a feedback is accepted. *)
Lemma feedback_runs e x a job j n r (Q : world K → Prop) w :
  egld_value e = 0 → esdt_transfers e = [] →
  validation_contract_address (st w) = Some a → external_job_data x a j = Some job →
  caller e = j_employer job → given (st w) j = false → nget (total_jobs (st w)) n + 1 < u64_mod →
  let k := nget (total_jobs (st w)) n in
  let score := (nget (reputation_score (st w)) n * k + r) / (k + 1) in
  (∀ w', st w' = (st w) <| total_jobs ::= <[n := k + 1]> |> <| reputation_score ::= <[n := score]> |>
                        <| has_given_feedback ::= <[j := true]> |> → Q w') →
  wp (give_feedback_simple e x j n r) (λ _, Q) no_error w.
Proof.
  intros Hv Hp Ha Hj He Hg Hk k score HQ. unfold give_feedback_simple, read_job. wp_go; try congruence; [|tauto].
  match goal with Hb : _ = Some ?b ∨ _ |- _ => assert (b = a) as -> by naive_solver end.
  rewrite Hj. wp_go; try congruence.
  unfold calculate_new_score. wp_go; rewrite u64_add_small in * by done; [|lia].
  apply HQ. simpl. rewrite N.add_sub. done.
Qed.

(** The state after a feedback and what was checked before. *)
Definition feedback_recorded e x j n r s s' : Prop :=
  ∃ a job, validation_contract_address s = Some a ∧ external_job_data x a j = Some job ∧
    caller e = j_employer job ∧ given s j = false ∧
    let total := nget (total_jobs s) n + 1 in
    s' = s <| total_jobs ::= <[n := total]> |>
           <| reputation_score ::= <[n := (nget (reputation_score s) n * (total - 1) + r) / total]> |>
           <| has_given_feedback ::= <[j := true]> |>.

Lemma feedback_refused e x j n r w :
  given (st w) j = true → is_ok (invoke e (dispatch e (GiveFeedbackSimple x j n r)) w) = false.
Proof.
  intros Hg. rewrite <-(st_credit e) in Hg.
  assert (Hwp : wp (give_feedback_simple e x j n r) (λ _ _, False) any_error (credit e w)).
  { apply simple_feedback_wp. intros w' a job _ _ _ Hno. congruence. }
  destruct (wp_only_err _ _ _ Hwp) as (msg & Herr & _). unfold invoke. cbn [dispatch]. by rewrite Herr.
Qed.

(** The score is the average of the ratings.  A successful
    [giveFeedbackSimple] is made by the employer of the job, once per job; it
    counts one more rating, the new score is the moving average, hence between
    the old score and the rating (the rating itself when it is the first), and
    no other agent is touched.  Every later one for the same job fails. *)
Theorem simple_feedback_effect e x j n r w w' :
  nget (total_jobs (st w)) n + 1 < u64_mod →
  invoke e (dispatch e (GiveFeedbackSimple x j n r)) w = Ok ((), w') →
  (∃ a job, validation_contract_address (st w) = Some a ∧ external_job_data x a j = Some job ∧
            caller e = j_employer job) ∧
  given (st w) j = false ∧
  let k := nget (total_jobs (st w)) n in
  let old := nget (reputation_score (st w)) n in
  let new := nget (reputation_score (st w')) n in
  nget (total_jobs (st w')) n = k + 1 ∧ new = (old * k + r) / (k + 1) ∧
  N.min old r ≤ new ∧ new ≤ N.max old r ∧ (k = 0 → new = r) ∧
  (∀ n', n' ≠ n → nget (reputation_score (st w')) n' = nget (reputation_score (st w)) n') ∧
  (∀ e' x' n' r', is_ok (invoke e' (dispatch e' (GiveFeedbackSimple x' j n' r')) w') = false).
Proof.
  intros Hk Hi.
  assert (Hwp : wp (give_feedback_simple e x j n r) (λ _ w', feedback_recorded e x j n r (st w) (st w'))
                  any_error (credit e w)).
  { apply simple_feedback_wp. intros w1 a job. rewrite st_credit. intros Ha Hj He Hg total Htot new Hst.
    exists a, job. split_and!; try done. subst new total. by rewrite u64_add_small in Hst. }
  apply (wp_ok _ _ _ _ _ _ Hwp) in Hi as (a & job & Ha & Hj & He & Hg & Hst).
  set (k := nget (total_jobs (st w)) n) in *. cbv zeta in Hst. rewrite N.add_sub in Hst.
  pose proof (moving_average_between (nget (reputation_score (st w)) n) k r) as [Hlo Hhi].
  rewrite Hst. simpl. split; [by eauto 10|]. rewrite !nget_insert_eq. split_and!; try done.
  - intros ->. rewrite N.mul_0_r. by rewrite N.div_1_r.
  - intros n' Hn. by rewrite nget_insert_ne.
  - intros e' x' n' r'. apply feedback_refused. rewrite (given_insert _ j j (has_given_feedback (st w))) by (by rewrite Hst).
    by rewrite decide_True.
Qed.
End simple.

(** ** The log of raw feedback *)

Section feedback.
Context `{StrictSdk}.

(** Fewer than 2^64 feedbacks per client and agent. *)
Definition index_room e (c : Call) w : Prop :=
  match c with
  | GiveFeedback _ n _ _ _ _ _ _ _ => nget (last_feedback_index (st w)) (n, caller e) + 1 < u64_mod
  | _ => True
  end.
Definition feedback_reachable : world K → Prop := reachable dispatch reputation_deployed index_room.

Record feedback_log s : Prop := {
  fl_entries n c i : is_Some (feedback_data s !! (n, c, i)) ↔ 1 ≤ i ∧ i ≤ nget (last_feedback_index s) (n, c);
  fl_decimals : map_Forall (λ _ d, fb_value_decimals d ≤ 18) (feedback_data s);
  fl_clients n c : c ∈ default [] (feedback_clients s !! n) ↔ nget (last_feedback_index s) (n, c) ≠ 0;
  fl_distinct n : NoDup (default [] (feedback_clients s !! n));
}.

Lemma feedback_log_same s s' :
  feedback_data s' = feedback_data s → last_feedback_index s' = last_feedback_index s →
  feedback_clients s' = feedback_clients s → feedback_log s → feedback_log s'.
Proof. intros Hd Hl Hc [????]. by constructor; rewrite ?Hd, ?Hl, ?Hc. Qed.

(** What a transaction may do to an entry of the log: nothing, or its author
    revokes it. *)
Definition entry_step e s s' : Prop :=
  ∀ n c i d, feedback_data s !! (n, c, i) = Some d →
    feedback_data s' !! (n, c, i) = Some d ∨
    c = caller e ∧ fb_is_revoked d = false ∧ feedback_data s' !! (n, c, i) = Some (d <| fb_is_revoked := true |>).

Lemma entry_step_same e s s' : feedback_data s' = feedback_data s → entry_step e s s'.
Proof. intros Hd n c i d. rewrite Hd. by left. Qed.

(** The appended entry. *)
Definition appended s (n : N) (c : address) (d : FeedbackData) : State :=
  let i := nget (last_feedback_index s) (n, c) + 1 in
  s <| last_feedback_index ::= <[(n, c) := i]> |>
    <| feedback_clients ::= λ m, <[n := set_insert c (default [] (m !! n))]> m |>
    <| feedback_data ::= <[(n, c, i) := d]> |>.

Lemma appended_log s n c d : fb_value_decimals d ≤ 18 → feedback_log s → feedback_log (appended s n c d).
Proof.
  intros Hdec [He Hd Hc Hn]. constructor; simpl.
  - intros n' c' i. rewrite lookup_insert_is_Some'. destruct (decide ((n, c) = (n', c'))) as [[= <- <-]|Hne].
    + rewrite nget_insert_eq, He. split; [intros [[= <-]|?]; lia|].
      intros ?. destruct (decide (i = nget (last_feedback_index s) (n, c) + 1)) as [->|]; [by left|right; lia].
    + rewrite nget_insert_ne, He by done. split; [intros [[= <- <- <-]|?]; [done|lia]|]. intros ?. by right.
  - by apply map_Forall_insert_2.
  - intros n' c'. destruct (decide (n = n')) as [<-|Hne].
    + rewrite lookup_insert_eq. simpl. rewrite elem_of_set_insert.
      destruct (decide (c = c')) as [<-|Hc']; [rewrite nget_insert_eq; split; [lia|by left]|].
      rewrite nget_insert_ne by congruence. rewrite Hc. naive_solver.
    + rewrite lookup_insert_ne by done. rewrite nget_insert_ne by congruence. apply Hc.
  - intros n'. destruct (decide (n = n')) as [<-|Hne].
    + rewrite lookup_insert_eq. simpl. by apply NoDup_set_insert.
    + by rewrite lookup_insert_ne.
Qed.

Lemma revoked_log s n c i d :
  feedback_data s !! (n, c, i) = Some d → feedback_log s →
  feedback_log (s <| feedback_data ::= <[(n, c, i) := d <| fb_is_revoked := true |>]> |>).
Proof.
  intros Hlk [He Hd Hc Hn]. constructor; simpl; try done.
  - intros n' c' i'. rewrite lookup_insert_is_Some'. rewrite <-He. split; [|by right].
    intros [[= <- <- <-]|?]; [by eexists|done].
  - apply map_Forall_insert_2; [|done]. exact (Hd _ _ Hlk).
Qed.

Lemma dispatch_feedback e c w :
  feedback_log (st w) → index_room e c w →
  wp (dispatch e c) (λ _ w', feedback_log (st w') ∧ entry_step e (st w) (st w')) any_error w.
Proof.
  intros Hfl Hroom. destruct c; cbn [dispatch].
  - unfold set_identity_contract_address. wp_go. split; [by apply (feedback_log_same (st w))|by apply entry_step_same].
  - unfold set_validation_contract_address. wp_go. split; [by apply (feedback_log_same (st w))|by apply entry_step_same].
  - apply simple_feedback_wp. intros w' a job _ _ _ _ total _ new Hst. rewrite Hst.
    split; [by apply (feedback_log_same (st w))|by apply entry_step_same].
  - unfold give_feedback. wp_go. rewrite u64_add_small by exact Hroom.
    split; [by apply (appended_log _ agent_nonce (caller e))|].
    intros n c i d Hd. left. simpl. rewrite lookup_insert_ne; [done|]. intros [= <- <- <-].
    assert (His : is_Some (feedback_data (st w) !! (agent_nonce, caller e,
      nget (last_feedback_index (st w)) (agent_nonce, caller e) + 1))) by (by rewrite Hd).
    apply (fl_entries _ Hfl) in His. lia.
  - unfold revoke_feedback. wp_go.
    destruct (feedback_data (st w) !! (agent_nonce, caller e, feedback_index)) as [d|] eqn:Hd; [|done]. wp_go.
    split; [by apply (revoked_log _ agent_nonce (caller e))|].
    intros n c i d' Hd'. simpl.
    destruct (decide ((agent_nonce, caller e, feedback_index) = (n, c, i))) as [Heq|Hne].
    + injection Heq as <- <- <-. right. rewrite lookup_insert_eq. rewrite Hd in Hd'. by injection Hd' as <-.
    + left. by rewrite lookup_insert_ne.
  - unfold append_response. wp_go. apply wp_read_job. intros a job _ _. wp_go.
    split; [by apply (feedback_log_same (st w))|by apply entry_step_same].
  - unfold upgrade. wp_go. split; [done|by apply entry_step_same].
Qed.

Lemma index_room_credit e c w : index_room e c w → index_room e c (credit e w).
Proof. destruct c; simpl; by rewrite ?st_credit. Qed.

Lemma feedback_log_reachable w : feedback_reachable w → feedback_log (st w).
Proof.
  apply (reachable_inv _ _ _ (λ w, feedback_log (st w))).
  - intros w' (e & v & i & w0 & Hst & _ & Hi). unfold init, modify in Hi. injection Hi as <-. simpl. rewrite Hst.
    constructor; simpl; try done; intros *; rewrite ?lookup_empty.
    + unfold nget. rewrite lookup_empty. simpl. split; [by intros [? ?]|lia].
    + unfold nget. rewrite lookup_empty. simpl. by rewrite elem_of_nil.
    + apply NoDup_nil_2.
  - intros w' e c Hw Hr. eapply wp_mono; [apply dispatch_feedback|by intros a w1 [? _]].
    + by rewrite st_credit.
    + by apply index_room_credit.
  - done.
Qed.

(** C20: the feedback log is append-only.  In every reachable state the entries of
    a client for an agent are numbered 1 to its last index without a gap, have at
    most 18 decimals, and the clients are exactly the authors; a transaction
    never alters or removes an entry, except that its author can revoke it,
    once. *)
Theorem feedback_append_only e c w w' :
  feedback_reachable w → index_room e c w → invoke e (dispatch e c) w = Ok ((), w') →
  feedback_log (st w') ∧ entry_step e (st w) (st w').
Proof.
  intros Hw Hr Hi. pose proof (feedback_log_reachable w Hw) as Hfl.
  rewrite <-(st_credit e w) in *.
  refine (wp_ok _ _ _ _ _ _ (dispatch_feedback e c (credit e w) Hfl _) Hi). by apply index_room_credit.
Qed.
End feedback.

(** ** Witnesses *)

#[local] Existing Instance sample_sdk.
#[local] Existing Instance sample_strict.

(** Job [1] of employer 30 for agent 4. *)
Definition sample_cross : CrossContract := {|
  external_agent_id := λ _ a, if decide (a = 40) then 4 else 0;
  external_agent_owner := λ _ n, if decide (n = 4) then Some 40 else None;
  external_job_data := λ _ j, if decide (j = [1]) then Some (MkJobData Verified [] 30 0 4) else None;
  external_agent_service_config := λ _ _ _, None;
  external_agent_token_id := λ _, None;
  external_agent_details := λ _ _, None;
|}.
Definition reputation_0 : world K :=
  match init (sample_env 7 7 9 0 0) 51 52 (World empty_state (λ _, 0) []) with
  | Ok (_, w) => w | Err _ => World empty_state (λ _, 0) [] end.
Definition rate (r : N) : Call := GiveFeedbackSimple sample_cross [1] 4 r.
Definition reputation_1 : world K := next dispatch (sample_env 30 7 9 1 0) (rate 90) reputation_0.
Definition signal : Call := GiveFeedback sample_cross 4 5%Z 2 [] [] [] [] [].
Definition reputation_2 : world K := next dispatch (sample_env 31 7 9 1 0) signal reputation_0.

Lemma reputation_2_reachable : feedback_reachable reputation_2.
Proof.
  apply next_reachable; [|by vm_compute|by vm_compute].
  apply reach_deployed. by exists (sample_env 7 7 9 0 0), 51, 52, (World empty_state (λ _, 0) []).
Qed.

Lemma simple_feedback_effect_witness :
  nget (reputation_score (st reputation_1)) 4 = 90 ∧
  is_ok (invoke (sample_env 30 7 9 2 0) (dispatch (sample_env 30 7 9 2 0) (rate 10)) reputation_1) = false.
Proof.
  destruct (simple_feedback_effect (sample_env 30 7 9 1 0) sample_cross [1] 4 90 reputation_0 reputation_1)
    as (_ & _ & _ & _ & _ & _ & Hfirst & _ & Hagain).
  - vm_compute. reflexivity.
  - apply next_ok. vm_compute. reflexivity.
  - split; [apply Hfirst; vm_compute; reflexivity|apply Hagain].
Defined.

Lemma feedback_append_only_witness :
  feedback_log (st (next dispatch (sample_env 31 7 9 3 0) (RevokeFeedback 4 1) reputation_2)).
Proof.
  apply (feedback_append_only (sample_env 31 7 9 3 0) (RevokeFeedback 4 1) reputation_2).
  - apply reputation_2_reachable.
  - exact I.
  - apply next_ok. vm_compute. reflexivity.
Defined.

(** A rating is not limited to 100, although the valuation reads the score as a
    percentage. *)
Lemma rating_unbounded :
  ∃ w, invoke (sample_env 30 7 9 1 0) (dispatch (sample_env 30 7 9 1 0) (rate 1000000)) reputation_0 = Ok ((), w) ∧
       nget (reputation_score (st w)) 4 = 1000000.
Proof.
  exists (next dispatch (sample_env 30 7 9 1 0) (rate 1000000) reputation_0).
  split; [apply next_ok; by vm_compute|by vm_compute].
Qed.
