(* ===== verification/Marketplace.v ===== *)
(** The agent marketplace
    (contracts/xcron-agent-shield/xcron-agent-marketplace): agent NFTs are sold at
    the value the reputation registry computes. *)

From S2P Require Import Prelude Sdk Types.

Record State := MkState {
  reputation_registry_address : option address;
  treasury_address : option address;
  agent_nft_token_id : option token_id;
  listings : gmap N address;
  listing_earnings : gmap N N;
  listing_apr : gmap N N;
}.
#[export] Instance State_eta : Settable State := λ s,
  MkState (reputation_registry_address s) (treasury_address s) (agent_nft_token_id s) (listings s)
    (listing_earnings s) (listing_apr s).

Definition empty_state : State := MkState None None None ∅ ∅ ∅.

Canonical K : contract := Contract State Empty_set Empty_set.
Implicit Types (e : env K) (w : world K) (s : State).

(** What the SDK decodes from an empty token cell. *)
Class TokenCodec := empty_token : option token_id.

Section code.
Context `{Sdk} `{TokenCodec}.

Definition init e (reputation_registry treasury : address) (xcron_agent_token_id : token_id) : M K unit :=
  modify (λ s : State, s
    <| reputation_registry_address := Some reputation_registry |>
    <| treasury_address := Some treasury |>
    <| agent_nft_token_id := Some xcron_agent_token_id |>).

Definition upgrade e : M K unit := mret ().

Definition list_agent e (net_monthly_earnings expected_apr_basis_points : N) : M K unit :=
  pay ← single e;
  s ← get_st;
  expected_token_id ← sv_get empty_token (agent_nft_token_id s);
  require (token_identifier pay = expected_token_id) "Invalid Agent NFT Token ID";;
  require (amount pay = 1) "Must list exactly 1 Agent NFT";;
  require (0 < expected_apr_basis_points) "Invalid Expected APR";;
  let nonce := token_nonce pay in
  modify (λ s : State, s <| listings ::= <[nonce := caller e]> |>);;
  modify (λ s : State, s <| listing_earnings ::= <[nonce := net_monthly_earnings]> |>);;
  modify (λ s : State, s <| listing_apr ::= <[nonce := expected_apr_basis_points]> |>).

(** The end of a listing. *)
Definition clear_listing (agent_nonce : N) : M K unit :=
  modify (λ s : State, s <| listings ::= delete agent_nonce |>);;
  modify (λ s : State, s <| listing_earnings ::= delete agent_nonce |>);;
  modify (λ s : State, s <| listing_apr ::= delete agent_nonce |>).

Definition require_listed (agent_nonce : N) : M K address :=
  s ← get_st;
  match listings s !! agent_nonce with
  | Some seller => mret seller
  | None => throw "Agent not listed"
  end.

Definition cancel_listing e (agent_nonce : N) : M K unit :=
  not_payable e;;
  seller ← require_listed agent_nonce;
  require (caller e = seller) "Only seller can cancel listing";;
  s ← get_st;
  token ← sv_get empty_token (agent_nft_token_id s);
  transfer_payment seller (Payment token agent_nonce 1);;
  clear_listing agent_nonce.

(** [.returns(ReturnsResult)]: the result decodes to one number. *)
Definition decode_result (r : list bytes) : M K N :=
  match r with
  | [b] => mret (be_val b)
  | _ => throw "wrong number of arguments"
  end.

Definition pay_egld (to : address) (amt : N) : M K unit :=
  if decide (0 < amt) then direct_egld to amt else mret ().

(** The sale after the valuation: 5% of the price for the treasury, the rest
    for the seller. *)
Definition settle_sale e (agent_nonce : N) (seller : address) (fair_value : N) : M K unit :=
  require (egld_value e = fair_value) "Payment must perfectly match AVS Fair Value";;
  let five_percent := fair_value * 5 / 100 in
  ninety_five_percent ← biguint_sub fair_value five_percent;
  s ← get_st;
  treasury ← sv_get empty_address (treasury_address s);
  token ← sv_get empty_token (agent_nft_token_id s);
  transfer_payment (caller e) (Payment token agent_nonce 1);;
  pay_egld seller ninety_five_percent;;
  pay_egld treasury five_percent;;
  clear_listing agent_nonce.

Definition buy_agent e (agent_nonce : N) : M K unit :=
  payable_egld e;;
  seller ← require_listed agent_nonce;
  s ← get_st;
  reputation_addr ← sv_get empty_address (reputation_registry_address s);
  let earnings := nget (listing_earnings s) agent_nonce in
  let apr := nget (listing_apr s) agent_nonce in
  result ← sync_call e reputation_addr (string_bytes "evaluateAgentFairValue")
             [ArgNum agent_nonce; ArgNum earnings; ArgNum apr] 0;
  fair_value ← decode_result result;
  settle_sale e agent_nonce seller fair_value.

Inductive Call : Type :=
| ListAgent (net_monthly_earnings expected_apr_basis_points : N)
| CancelListing (agent_nonce : N)
| BuyAgent (agent_nonce : N)
| Upgrade.

Definition dispatch e (c : Call) : M K unit :=
  match c with
  | ListAgent n a => list_agent e n a
  | CancelListing n => cancel_listing e n
  | BuyAgent n => buy_agent e n
  | Upgrade => upgrade e
  end.

Definition market_deployed w : Prop :=
  ∃ e r t tok w0, st w0 = empty_state ∧ log w0 = [] ∧ init e r t tok w0 = Ok ((), w).
End code.
