(* ===== verification/MarketProps.v ===== *)
(** Properties of the agent marketplace: listed agents are in escrow, and a
    sale moves the NFT and the whole price, once. *)

From S2P Require Import Prelude Sdk Types Marketplace.

Implicit Types (e : env K) (w : world K) (s : State).

Lemma sv_get_some {A} (empty : option A) c (a b : A) :
  c = Some a → c = Some b ∨ c = None ∧ empty = Some b → b = a.
Proof. intros ->. naive_solver. Qed.

(** The configured token and treasury are what the cells hold. *)
Ltac known :=
  repeat match goal with
  | Hc : ?c = Some _, Hb : ?c = Some ?b ∨ _ |- _ => pose proof (sv_get_some _ _ _ _ Hc Hb); clear Hb; subst b
  end.
Section market.
Context `{StrictSdk} `{TokenCodec}.
(** The collection the marketplace was deployed for. *)
Variable tok : token_id.

Definition plain_call e (c : Call) w : Prop := silent_callees e ∧ native_apart e.
Definition for_collection w : Prop := market_deployed w ∧ agent_nft_token_id (st w) = Some tok.
Definition market_reachable : world K → Prop := reachable dispatch for_collection plain_call.

Record escrowed w : Prop := {
  esc_token : agent_nft_token_id (st w) = Some tok;
  esc_listed n seller : listings (st w) !! n = Some seller →
    1 ≤ bal w (Esdt tok n) ∧ 0 < nget (listing_apr (st w)) n;
}.

Ltac known_token Hesc :=
  let Ht := fresh "Ht" in pose proof (esc_token _ Hesc) as Ht; known.

Lemma wp_require_listed n (Q : address → world K → Prop) w :
  (∀ seller, listings (st w) !! n = Some seller → Q seller w) → wp (require_listed n) Q any_error w.
Proof. intros HQ. unfold require_listed. wp_go. destruct (listings (st w) !! n); [by apply HQ|done]. Qed.

Lemma asset_of_nft n : tok ≠ EGLD_000000 → asset_of (Payment tok n 1) = Esdt tok n.
Proof. intros Hne. unfold asset_of. by rewrite decide_False. Qed.

(** The listing [n] removed, one NFT [n] gone, everything else at least as before. *)
Lemma escrowed_removed n w w' :
  escrowed w → st w' = (st w) <| listings ::= delete n |> <| listing_earnings ::= delete n |>
                              <| listing_apr ::= delete n |> →
  (∀ m, m ≠ n → bal w (Esdt tok m) ≤ bal w' (Esdt tok m)) → escrowed w'.
Proof.
  intros [Ht Hl] Hst Hb. constructor; rewrite Hst; simpl; [done|].
  intros m seller. rewrite lookup_delete_Some. intros [Hne Hm]. rewrite nget_delete_ne by done.
  destruct (Hl m seller Hm). split; [|done]. etrans; [done|]. apply Hb. congruence.
Qed.

(** The effects of a sale. *)
Definition sale e (n : N) (seller treasury : address) : list (effect K) :=
  let five := egld_value e * 5 / 100 in
  [Send (caller e) (Esdt tok n) 1] ++
  (if decide (0 < egld_value e - five) then [Send seller Egld (egld_value e - five)] else []) ++
  (if decide (0 < five) then [Send treasury Egld five] else []).

Lemma five_percent_le v : v * 5 / 100 ≤ v.
Proof. apply N.Div0.div_le_upper_bound. lia. Qed.

Lemma wp_pay_egld to amt (Q : unit → world K → Prop) E w :
  (amt ≤ bal w Egld) →
  (∀ w', st w' = st w → log w' = log w ++ (if decide (0 < amt) then [Send to Egld amt] else []) →
     bal w' Egld = bal w Egld - amt → (∀ a, a ≠ Egld → bal w' a = bal w a) → Q () w') →
  wp (pay_egld to amt) Q E w.
Proof.
  intros Hle HQ. unfold pay_egld. case_decide.
  - wp_go; [|lia]. apply HQ; simpl; [done|done|by rewrite bal_insert_eq|].
    intros a Ha. by rewrite bal_insert_ne.
  - wp_go. apply HQ; [done|by rewrite app_nil_r|lia|done].
Qed.

Lemma settle_sale_wp e n seller v treasury (Q : unit → world K → Prop) E w :
  tok ≠ EGLD_000000 → agent_nft_token_id (st w) = Some tok → treasury_address (st w) = Some treasury →
  egld_value e ≤ bal w Egld → 1 ≤ bal w (Esdt tok n) →
  (egld_value e ≠ v → E "Payment must perfectly match AVS Fair Value") →
  (∀ w', egld_value e = v →
     st w' = (st w) <| listings ::= delete n |> <| listing_earnings ::= delete n |> <| listing_apr ::= delete n |> →
     log w' = log w ++ sale e n seller treasury →
     bal w' Egld = bal w Egld - egld_value e → bal w' (Esdt tok n) = bal w (Esdt tok n) - 1 →
     (∀ m, m ≠ n → bal w' (Esdt tok m) = bal w (Esdt tok m)) → Q () w') →
  wp (settle_sale e n seller v) Q E w.
Proof.
  intros Hne Ht Htr Hv Hn HE HQ. unfold settle_sale.
  pose proof (five_percent_le v) as Hfive. pose proof (N.le_0_l (v * 5 / 100)) as Hpos.
  wp_go; known; rewrite ?asset_of_nft in * by done; simpl in *; try lia; try congruence; [|by apply HE].
  match goal with He : egld_value e = v |- _ => rename He into Heq end.
  apply wp_pay_egld; [simpl; rewrite bal_insert_ne by done; lia|].
  intros w1 Hs1 Hl1 Hb1 Ho1. simpl in *. apply wp_bind, wp_pay_egld.
  { rewrite Hb1, bal_insert_ne by done. lia. }
  intros w2 Hs2 Hl2 Hb2 Ho2. unfold clear_listing. wp_go. apply HQ; simpl; [done| | | | |].
  - by rewrite Hs2, Hs1.
  - rewrite Hl2, Hl1. unfold sale. rewrite Heq, <-!app_assoc. done.
  - rewrite Hb2, Hb1, bal_insert_ne by done. lia.
  - by rewrite Ho2, Ho1, bal_insert_eq by done.
  - intros m Hm. rewrite Ho2, Ho1, bal_insert_ne by (try done; congruence). done.
Qed.

Lemma plain_sync_call e to ep args (Q : list bytes → world K → Prop) w :
  silent_callees e →
  (∀ r w', st w' = st w → log w' = log w → (∀ a, bal w' a = bal w a) → Q r w') →
  wp (sync_call e to ep args 0) Q any_error w.
Proof.
  intros Hnr HQ. apply wp_sync_call; [|done..]. intros r w' _ ->%Hnr. apply HQ; [done..|].
  intros a. simpl. destruct (decide (Egld = a)) as [<-|]; [rewrite bal_insert_eq; lia|by rewrite bal_insert_ne].
Qed.

Lemma escrowed_same w w' :
  st w' = st w → (∀ n, bal w (Esdt tok n) ≤ bal w' (Esdt tok n)) → escrowed w → escrowed w'.
Proof.
  intros Hst Hb [Ht Hl]. constructor; rewrite Hst; [done|]. intros n seller Hn.
  destruct (Hl n seller Hn). split; [|done]. etrans; [done|apply Hb].
Qed.

Lemma escrowed_credit e w : escrowed w → escrowed (credit e w).
Proof. apply escrowed_same; [apply st_credit|]. intros n. apply credit_le. Qed.

(** A sale in one step: what [buy_agent] does when it succeeds. *)
Lemma buy_agent_wp e n (Q : unit → world K → Prop) w :
  tok ≠ EGLD_000000 → plain_call e (BuyAgent n) w → escrowed w → egld_value e ≤ bal w Egld →
  (∀ w' seller treasury, listings (st w) !! n = Some seller → treasury_address (st w) = Some treasury →
     st w' = (st w) <| listings ::= delete n |> <| listing_earnings ::= delete n |> <| listing_apr ::= delete n |> →
     log w' = log w ++ sale e n seller treasury →
     bal w' Egld = bal w Egld - egld_value e → bal w' (Esdt tok n) = bal w (Esdt tok n) - 1 →
     (∀ m, m ≠ n → bal w' (Esdt tok m) = bal w (Esdt tok m)) → Q () w') →
  wp (buy_agent e n) Q any_error w.
Proof.
  intros Hne [Hnr _] Hesc Hv HQ. unfold buy_agent. wp_go. apply wp_require_listed. intros seller Hs. wp_go.
  apply plain_sync_call; [done|]. intros r w1 Hst1 Hlog1 Hb1. unfold decode_result. wp_go.
  destruct r as [|b [|]]; [done| |done]. wp_go.
  destruct (esc_listed _ Hesc n seller Hs) as [Hn _].
  destruct (treasury_address (st w)) as [treasury|] eqn:Htr.
  - apply (settle_sale_wp _ _ _ _ treasury); rewrite ?Hst1, ?Hb1, ?Hlog1; try done; [apply Hesc|].
    intros w' _ ?????. eapply HQ; try done. intros m Hm. rewrite <-Hb1. auto.
  - unfold settle_sale. wp_go. exfalso. rewrite Hst1, Htr in *.
    match goal with Ha : None = Some _ ∨ _ |- _ => rewrite strict_address in Ha; naive_solver end.
Qed.

Lemma dispatch_escrowed e c w :
  tok ≠ EGLD_000000 → plain_call e c w → escrowed w →
  wp (dispatch e c) (λ _, escrowed) any_error (credit e w).
Proof.
  intros Hne Hplain Hesc. pose proof (escrowed_credit e w Hesc) as Hesc'.
  destruct c; cbn [dispatch].
  - unfold list_agent. wp_go. known_token Hesc'. destruct Hplain as [_ Hnat].
    match goal with Hp : all_payments e = [?p] |- _ => rename p into pay;
      pose proof (credit_single e w pay Hnat Hp) as Hcr end.
    assert (Has : asset_of pay = Esdt tok (token_nonce pay)).
    { unfold asset_of, pay_asset. rewrite decide_False by congruence. congruence. }
    constructor; simpl; [apply Hesc'|]. intros n seller Hn.
    destruct (decide (token_nonce pay = n)) as [<-|Hnn].
    + rewrite nget_insert_eq. split; [|done]. rewrite Has in Hcr. lia.
    + rewrite lookup_insert_ne in Hn by done. rewrite nget_insert_ne by done. by apply (esc_listed _ Hesc' n seller).
  - unfold cancel_listing. wp_go. apply wp_require_listed. intros seller Hs. wp_go; try exact I.
    known_token Hesc'. unfold clear_listing. wp_go. apply (escrowed_removed agent_nonce (credit e w)); [done|done|].
    intros m Hm. simpl. rewrite asset_of_nft by done. rewrite bal_insert_ne by congruence. done.
  - apply buy_agent_wp; try done. { rewrite credit_egld. lia. }
    intros w' seller treasury _ _ Hst _ _ _ Hb. apply (escrowed_removed agent_nonce (credit e w)); [done|done|].
    intros m Hm. by rewrite Hb.
  - done.
Qed.

Lemma escrowed_reachable w : tok ≠ EGLD_000000 → market_reachable w → escrowed w.
Proof.
  intros Hne. apply reachable_inv.
  - intros w' [(e & r & t & tk & w0 & Hst & _ & Hi) Ht]. constructor; [done|].
    unfold init, modify in Hi. injection Hi as <-. simpl. rewrite Hst. simpl. intros n seller. by rewrite lookup_empty.
  - intros w' e c Hw Hp. by apply dispatch_escrowed.
  - intros w' b Hw Hb. apply (escrowed_same w'); [done|intros n; apply Hb|done].
Qed.

(** C11: listed agents are in escrow, and a purchase settles at once.  In every
    reachable state each listed NFT is held by the marketplace; a successful
    [buyAgent] by anyone sends the NFT to the buyer, 5% of the payment rounded
    down to the treasury and all the rest to the seller, ends the listing, and
    leaves the marketplace with the EGLD it had before the call. *)
Theorem market_settles e n w w' :
  tok ≠ EGLD_000000 → market_reachable w → plain_call e (BuyAgent n) w →
  invoke e (dispatch e (BuyAgent n)) w = Ok ((), w') →
  (∀ m seller, listings (st w) !! m = Some seller → 1 ≤ bal w (Esdt tok m)) ∧
  (∃ seller treasury, listings (st w) !! n = Some seller ∧ treasury_address (st w) = Some treasury ∧
     log w' = log w ++ sale e n seller treasury) ∧
  listings (st w') = delete n (listings (st w)) ∧
  bal w' Egld = bal w Egld ∧ bal w' (Esdt tok n) < bal (credit e w) (Esdt tok n).
Proof.
  intros Hne Hw Hp Hi. pose proof (escrowed_reachable w Hne Hw) as Hesc.
  pose proof (escrowed_credit e w Hesc) as Hesc'.
  split; [intros m seller Hm; by apply (esc_listed _ Hesc m seller)|].
  by_wp Hi. apply buy_agent_wp; try done.
  { rewrite credit_egld. lia. }
  intros w1 seller treasury Hs Htr Hst Hlog Hb Hbn _.
  destruct (esc_listed _ Hesc' n seller Hs) as [Hn _].
  rewrite st_credit in *. rewrite log_credit in Hlog. rewrite credit_egld in Hb.
  split_and!; [by exists seller, treasury|by rewrite Hst|lia|lia].
Qed.
End market.

(** ** Witnesses: seller 40 lists NFT 4, buyer 41 pays 72000 *)

#[local] Existing Instance sample_sdk.
#[local] Existing Instance sample_strict.
#[local] Instance sample_token : TokenCodec := Some "".

Definition collection : token_id := "AGENT-123456".
Definition market_0 : world K :=
  match init (sample_env 7 7 9 0 0) 51 88 collection (World empty_state (λ _, 0) []) with
  | Ok (_, w) => w | Err _ => World empty_state (λ _, 0) [] end.
Definition seller_env : env K :=
  Env 40 7 9 1 1000 0 0 [] 1000000000 0 [Payment collection 4 1] (λ _ _ _ _ w, Some ([], w)).
Definition market_1 : world K := next dispatch seller_env (ListAgent 1000 1500) market_0.
(** A buyer whose valuation call is answered with [answer]. *)
Definition buyer_env (value : N) (answer : list arg → option (list bytes)) : env K :=
  Env 41 7 9 2 2000 0 0 [] 1000000000 value [] (λ _ _ args _ w, r ← answer args; Some (r, w)).
Definition market_2 : world K := next dispatch (buyer_env 72000 (λ _, Some [[72000]])) (BuyAgent 4) market_1.

Lemma market_1_reachable : market_reachable collection market_1.
Proof.
  apply next_reachable; [|split|by vm_compute].
  - apply reach_deployed. split; [|done]. by exists (sample_env 7 7 9 0 0), 51, 88, collection, (World empty_state (λ _, 0) []).
  - intros to ep args v w r w' Hs. by simplify_eq/=.
  - by repeat constructor.
Qed.

Lemma buyer_plain value answer : plain_call (buyer_env value answer) (BuyAgent 4) market_1.
Proof.
  split; [|by constructor]. intros to ep args v w r w' Hs. simpl in Hs.
  destruct (answer args); simpl in Hs; by simplify_eq.
Qed.

Lemma market_settles_witness :
  log market_2 = log market_1 ++ [Send 41 (Esdt collection 4) 1; Send 40 Egld 68400; Send 88 Egld 3600].
Proof.
  destruct (market_settles collection (buyer_env 72000 (λ _, Some [[72000]])) 4 market_1 market_2)
    as (_ & (seller & treasury & Hs & Ht & Hlog) & _).
  - discriminate.
  - apply market_1_reachable.
  - apply buyer_plain.
  - apply next_ok. vm_compute. reflexivity.
  - vm_compute in Hs. injection Hs as <-. vm_compute in Ht. injection Ht as <-. exact Hlog.
Defined.
