(* ===== verification/AgentFlow.v ===== *)
(** The Agent Shield contracts together: jobs of the validation registry give
    feedback in the reputation registry, whose scores price the agents on the
    marketplace. *)

From S2P Require Import Prelude Sdk Types AgentTypes Validation Identity Reputation ReputationProps Marketplace MarketProps.

(** The storage of the other registries, at their addresses [va] and [ia]. *)
Definition cross_of (va ia : address) (vs : Validation.State) (ids : Identity.State) : CrossContract := {|
  external_agent_id := λ a who, if decide (a = ia) then Identity.get_id (Identity.agents ids) who else 0;
  external_agent_owner := λ a n, if decide (a = ia) then Identity.agents ids !! n else None;
  external_job_data := λ a j, if decide (a = va) then Validation.job_data vs !! j else None;
  external_agent_service_config := λ a n i,
    if decide (a = ia) then Identity.agent_service_config ids !! (n, i) else None;
  external_agent_token_id := λ a, if decide (a = ia) then Identity.agent_token_id ids else None;
  external_agent_details := λ a n, if decide (a = ia) then Identity.agent_details ids !! n else None;
|}.

Section reputation_flow.
Context `{StrictSdk} `{AgentCodec}.

(** Feedback is not tied to work done.  Any address that opens a fresh job,
    for whatever agent and without payment, can then rate any agent [n] with any
    number: [giveFeedbackSimple] compares neither the agent of the job with [n] nor
    the rating with 100, and wants no proof and no verdict.  The valuation
    follows the new score. *)
Theorem feedback_needs_no_work (ev : env Validation.K) (er : env Reputation.K)
    (vw : world Validation.K) (rw : world Reputation.K) va ia ids (x : CrossContract) j m n r :
  egld_value ev = 0 → esdt_transfers ev = [] → egld_value er = 0 → esdt_transfers er = [] →
  caller er = caller ev →
  Validation.job_data (st vw) !! j = None →
  Reputation.validation_contract_address (st rw) = Some va → Reputation.given (st rw) j = false →
  nget (Reputation.total_jobs (st rw)) n + 1 < u64_mod →
  let k := nget (Reputation.total_jobs (st rw)) n in
  let score := (nget (Reputation.reputation_score (st rw)) n * k + r) / (k + 1) in
  ∃ vw' rw',
    invoke ev (Validation.dispatch ev (Validation.InitJob x j m None)) vw = Ok ((), vw') ∧
    invoke er (Reputation.dispatch er
      (Reputation.GiveFeedbackSimple (cross_of va ia (st vw') ids) j n r)) rw = Ok ((), rw') ∧
    nget (Reputation.reputation_score (st rw')) n = score ∧
    ∀ earnings apr, 0 < apr →
      Reputation.evaluate_agent_fair_value n earnings apr rw' =
        Ok (Reputation.fair_value score earnings apr, rw').
Proof.
  intros Hv1 Hv2 Hr1 Hr2 Hc Hj Hva Hg Hk k score.
  assert (Hinit : wp (Validation.init_job ev x j m None)
    (λ _ w', Validation.job_data (st w') !! j = Some (MkJobData New [] (caller ev) (timestamp_millis ev) m))
    no_error (credit ev vw)).
  { rewrite <-(st_credit ev) in Hj. unfold Validation.init_job. wp_go; [|done]. simpl. apply lookup_insert_eq. }
  destruct (wp_runs _ _ _ Hinit) as (vw' & Hvw' & Hjob). exists vw'.
  set (c := cross_of va ia (st vw') ids).
  destruct (wp_runs (Reputation.give_feedback_simple er c j n r)
    (λ w', nget (Reputation.reputation_score (st w')) n = score) (credit er rw)) as (rw' & Hrw' & Hscore).
  { apply (feedback_runs _ _ va (MkJobData New [] (caller ev) (timestamp_millis ev) m)); rewrite ?st_credit; try done.
    - unfold c, cross_of. simpl. by rewrite decide_True.
    - intros w' Hst. rewrite Hst. simpl. apply nget_insert_eq. }
  exists rw'. split_and!; [done|exact Hrw'|done|]. intros earnings apr Hapr.
  unfold Reputation.evaluate_agent_fair_value, require, mbind, M_bind, get_st.
  rewrite decide_True by done. cbn. by rewrite Hscore.
Qed.
End reputation_flow.

(** ** The sale at the fair value *)

Section sale.
Context `{StrictSdk} `{TokenCodec}.
Variable tok : token_id.

(** The valuation call of the marketplace reaches the reputation registry in
    the world [rw], and its answer is decoded as it was encoded. *)
Definition answers_valuation (e : env Marketplace.K) (ra : address) (rw : world Reputation.K) : Prop :=
  ∀ n ea apr v rw' w,
    Reputation.evaluate_agent_fair_value n ea apr rw = Ok (v, rw') →
    ∃ b, be_val b = v ∧
      sync_result e ra (string_bytes "evaluateAgentFairValue") [ArgNum n; ArgNum ea; ArgNum apr] 0 w = Some ([b], w).

(** C21: a listed agent can be bought, at exactly the fair value.  When the
    valuation call is answered by the reputation registry, a buyer whose EGLD is
    the fair value of the agent (its declared annual earnings over the expected
    APR, times its score, 80 when it has none, over 100) gets the NFT, and the
    seller and the treasury share exactly that amount; any other payment is
    refused. *)
Theorem buy_at_fair_value (e : env Marketplace.K) (w : world Marketplace.K) (rw : world Reputation.K) ra n seller treasury :
  tok ≠ EGLD_000000 → market_reachable tok w → plain_call e (BuyAgent n) w → answers_valuation e ra rw →
  Marketplace.reputation_registry_address (st w) = Some ra → treasury_address (st w) = Some treasury →
  listings (st w) !! n = Some seller → esdt_transfers e = [] →
  let value := Reputation.fair_value (nget (Reputation.reputation_score (st rw)) n)
                 (nget (listing_earnings (st w)) n) (nget (listing_apr (st w)) n) in
  (egld_value e = value →
   ∃ w', invoke e (Marketplace.dispatch e (BuyAgent n)) w = Ok ((), w') ∧
         log w' = log w ++ sale tok e n seller treasury ∧ listings (st w') !! n = None) ∧
  (egld_value e ≠ value →
   invoke e (Marketplace.dispatch e (BuyAgent n)) w = Err "Payment must perfectly match AVS Fair Value").
Proof.
  intros Hne Hw [Hnr Hnat] Hans Hra Htr Hs Hp value.
  pose proof (escrowed_reachable tok w Hne Hw) as Hesc. destruct (esc_listed _ _ Hesc n seller Hs) as [Hn Hapr].
  set (answer := Reputation.evaluate_agent_fair_value n (nget (listing_earnings (st w)) n) (nget (listing_apr (st w)) n) rw).
  assert (Hval : answer = Ok (value, rw)).
  { unfold answer, Reputation.evaluate_agent_fair_value, require, mbind, M_bind, get_st. by rewrite decide_True. }
  assert (Hbuy : ∀ (Q : unit → world Marketplace.K → Prop) (E : string → Prop),
    (∀ w1, st w1 = st (credit e w) → log w1 = log (credit e w) → (∀ a, bal w1 a = bal (credit e w) a) →
       wp (settle_sale e n seller value) Q E w1) →
    wp (Marketplace.dispatch e (BuyAgent n)) Q E (credit e w)).
  { intros Q E HQ. cbn [Marketplace.dispatch]. unfold buy_agent, require_listed. rewrite <-(st_credit e) in Hs, Hra.
    wp_go; try congruence. rewrite Hs. wp_go; try congruence.
    match goal with Hb : _ = Some ?b ∨ _ |- _ => assert (b = ra) as -> by naive_solver end.
    unfold sync_call. wp_go; [|lia]. rewrite st_credit.
    match goal with |- wp (call_out _ _ _ _ _) _ _ ?w0 =>
      destruct (Hans _ _ _ value rw w0 Hval) as (b & Hb & Hr); apply (wp_call_out _ _ _ _ _ _ _ _ _ _ Hr) end.
    cbn [decode_result]. wp_go. rewrite Hb. apply HQ; [done|done|]. intros a. simpl.
    destruct (decide (Egld = a)) as [<-|]; [rewrite bal_insert_eq; lia|by rewrite bal_insert_ne]. }
  split; intros Hv.
  - apply wp_runs, wp_invoke, Hbuy. intros w1 Hst1 Hlog1 Hb1.
    apply (settle_sale_wp tok _ _ _ _ treasury); rewrite ?Hst1, ?Hb1, ?st_credit, ?credit_egld; try done; [apply Hesc|lia| |].
    { etrans; [exact Hn|apply credit_le]. }
    intros w' _ Hst Hlog _ _ _. rewrite Hlog1, log_credit in Hlog. split; [done|]. rewrite Hst. simpl.
    apply lookup_delete_eq.
  - apply wp_fails, wp_invoke, Hbuy. intros w1 _ _ _. unfold settle_sale. wp_go; done.
Qed.
End sale.

(** ** Witnesses *)

#[local] Existing Instance sample_sdk.
#[local] Existing Instance sample_strict.
#[local] Instance sample_agent_codec : AgentCodec := {| empty_agent_details := None; AgentTypes.empty_token := Some "" |}.
#[local] Instance sample_token_codec : TokenCodec := Some "".

(** The answer of the reputation registry in the world [reputation_1]. *)
Definition valuation (args : list arg) : option (list bytes) :=
  match args with
  | [ArgNum n; ArgNum ea; ArgNum apr] =>
      match Reputation.evaluate_agent_fair_value n ea apr reputation_1 with
      | Ok (v, _) => Some [[v]]
      | Err _ => None
      end
  | _ => None
  end.

Lemma buyer_answered value : answers_valuation (buyer_env value valuation) 51 reputation_1.
Proof.
  intros n ea apr v rw' w Hv. exists [v]. split; [done|]. simpl. by rewrite Hv.
Qed.

Lemma buy_at_fair_value_witness :
  ∃ w', invoke (buyer_env 72000 valuation) (Marketplace.dispatch (buyer_env 72000 valuation) (BuyAgent 4)) market_1
          = Ok ((), w') ∧
        listings (st w') !! 4 = None.
Proof.
  destruct (buy_at_fair_value collection (buyer_env 72000 valuation) market_1 reputation_1 51 4 40 88) as [Hbuy _].
  - discriminate.
  - apply market_1_reachable.
  - apply buyer_plain.
  - apply buyer_answered.
  - vm_compute. reflexivity.
  - vm_compute. reflexivity.
  - vm_compute. reflexivity.
  - reflexivity.
  - destruct Hbuy as (w' & Hw' & _ & Hl); [vm_compute; reflexivity|]. exists w'. split; [exact Hw'|exact Hl].
Defined.

Definition no_jobs : world Validation.K := World Validation.empty_state (λ _, 0) [].

(** Address 66 makes the score of agent 4 one million with an unpaid job. *)
Lemma feedback_needs_no_work_witness :
  ∃ rw', nget (Reputation.reputation_score (st rw')) 4 = 1000000.
Proof.
  destruct (feedback_needs_no_work (sample_env 66 7 9 1 0) (sample_env 66 7 9 1 0) no_jobs reputation_0 51 52
    Identity.empty_state sample_cross [3] 8 4 1000000) as (vw' & rw' & _ & _ & Hscore & _);
    [reflexivity..|].
  exists rw'. exact Hscore.
Defined.
